(* ===== verification/_CoqProject ===== *)
-Q . S2P
Prelude.v
BTree.v
Membership.v
Log.v
Event.v
Core.v
Role.v
Follower.v
PreCandidate.v
Candidate.v
Leader.v
Interface.v
Commit.v
Node.v
Raft.v
Completeness.v
Refine.v
Contract.v
CommitSteps.v
Progress.v
Round.v
Store.v
Runtime.v
Cluster.v
Safety.v
Race.v
Repair.v
Kv.v
Auth.v
Service.v
Register.v
Replica.v
Transport.v
Daemon.v
Server.v
Session.v
ReadIndex.v
WalFormat.v
Wal.v
WalRecovery.v
WalSize.v
WalDir.v
DiskStore.v
TestKit.v
NodeTests.v
RoleTests.v
DataTests.v
IoTests.v
ServerTests.v
