(* ===== verification/Prelude.v ===== *)
(** * Cloud9: a replicated key-value store

    Cloud9 is a key-value store replicated with Raft. A daemon reads a configuration
    file and starts a node. A node runs a Raft state machine that does no I/O itself:
    it takes ticks, messages and proposals and returns effects. A runtime drives it,
    saves its persistent state to a write-ahead log before it releases messages,
    sends the messages to its peers over authenticated HTTP, and applies committed
    commands to a key-value state machine. A service turns client requests into
    proposals and waits for their results. This library models these parts as
    functions, close to the source, and proves what they guarantee on their own and
    together.

    ** Conventions

    [u64] and [usize] values are [N]; additions that wrap in a release build are
    written [+u] and [-u], checked additions [u64_checked_add]. [None] in the result of
    a Raft or runtime operation is a panic; [enabled_actions_run] shows where none can
    occur. [Result] is a sum with the error on the left, written with [let?]. Maps
    are [gmap]s, except where the code depends on the order of a [BTreeMap]; sets of
    node ids are sorted lists, as a [BTreeSet] iterates. Code outside the repository
    is a parameter with its documented behaviour as a hypothesis: the JSON codecs
    (decoding inverts encoding), CRC-32 (a 32-bit value), HMAC-SHA256 (a 32-byte key
    gives a 32-byte tag), the file reader (delivers the bytes of the file in chunks of
    any size), TOML and name resolution. Each theorem that uses such a hypothesis has
    a witness with a concrete instance.

    ** The files

    - This file: machine integers, bytes, vectors, the notations for results and
      panics, and the tactics [ulia], [eq_inv] and [opt_inv].
    - BTree.v: the sorted-list sets. Membership.v: raft/membership.rs, configurations,
      quorums and validated changes. Log.v: raft/log.rs. Event.v: raft/event.rs.
      Core.v: raft/core.rs. Role.v: the transitions of raft/mod.rs.
    - Follower.v, PreCandidate.v, Candidate.v, Leader.v: the roles (raft/follower.rs,
      precandidate.rs, candidate.rs, leader.rs), every handler on every branch.
      Interface.v: [ReplicaConfig] and the error texts of cloud9-raft/src/lib.rs.
      Commit.v: theorems about the leader's commit loop. Node.v: [RaftNode] of
      raft/mod.rs, which dispatches events to the roles and performs transitions.
    - Raft.v: the Raft protocol as a transition system on abstract nodes and a set of
      messages, with its invariants. Completeness.v: ghost state on top of it, which
      records elections and acknowledgements, and Leader Completeness. Refine.v: every
      step of a [RaftNode] is a sequence of transitions of the protocol. CommitSteps.v:
      what such a step does to the commit index. Progress.v: it does not panic.
      Round.v: a leader and its followers replicate a command when nothing is lost.
      Contract.v: one node alone, with any inputs.
    - Store.v: cloud9-node/src/store.rs on a log of records. Runtime.v: runtime.rs and
      config.rs. Cluster.v: any number of runtimes and a network that loses, delays,
      reorders and repeats messages, with disk failures and restarts. Safety.v: what
      such a cluster commits and applies. Race.v: the same cluster with tasks that
      wait for the lock of the machine. Repair.v: the exchange of a leader and a
      follower that rejects its requests.
    - Kv.v: command.rs, the replicated state machine. Service.v: service.rs and the
      proposals of runtime.rs. Replica.v: the cluster with the answers its nodes give.
      Register.v: the client of jepsen/src/cloud9/jepsen.clj, a register on top of
      the service. Auth.v: auth.rs. Transport.v: transport.rs. Daemon.v and Server.v:
      cloud9/src/main.rs, the routers and the life of a node.
    - WalFormat.v, Wal.v: the write-ahead log of cloud9-wal (format.rs, record.rs,
      error.rs; segment.rs, wal.rs) on a file system whose calls fail and whose
      crashes lose unsynced bytes. WalRecovery.v: recovery after a crash. WalSize.v:
      the space it takes. WalDir.v: the creation of its directories, which has to be
      durable too. DiskStore.v: the store on that log.
    - Session.v, ReadIndex.v: session.rs and read_index.rs of cloud9-raft-io.
    - TestKit.v, NodeTests.v, RoleTests.v, DataTests.v, IoTests.v, ServerTests.v: the
      unit tests of the repository, statement by statement, in a state monad; each
      file evaluates its tests on the model. They tie the model to the code where
      the code says what it expects.

    ** What the theorems show

    - Consensus (Cluster.v, by refinement to Raft.v): at most one leader per term, the
      Log Matching property of the persistent logs, and recovery of the in-memory
      persistent state by a restart, for every execution of a cluster with a fixed
      configuration and fewer than [u64_max] actions. State machine safety does not
      hold: [state_machine_divergence] is an execution, evaluated in the kernel, in
      which two nodes apply different first commands, because a follower acknowledges
      its whole log instead of the entries it has checked. Safety.v shows that this
      is the only way: when no append request is accepted by a log that goes on with
      entries of an older term ([covered]), all nodes apply one sequence of commands,
      leaders hold what was committed, the order of the log respects real time and
      nothing panics.
    - A node alone (Contract.v): whatever it is told, it votes once per term and its term
      does not decrease, as long as the term stays below [u64_max], where the counter
      wraps around ([wrapped_term_votes_again]); and every change of its persistent state
      is announced, except that of an append request that contradicts its snapshot
      ([snapshot_conflict_not_persisted]). With tasks that wait for the lock, a node
      whose disk has failed can still acknowledge ([failed_node_acknowledges]);
      executions without that race are executions of the cluster.
    - Progress: no action of a cluster panics, except a proposal to a leader whose
      commit index lies beyond its log ([enabled_actions_run]); that state is reachable
      ([leader_proposal_panics]). A follower whose last entry conflicts with its
      leader's log is not repaired by the leader's retries ([conflict_never_repaired]).
      Followers that are up to date store and acknowledge a new command, and a leader
      that forms a quorum with them commits it, with and without parallel writes of its
      disk ([replication_round]).
    - Membership: quorums of one configuration meet, quorums of a joint configuration
      meet those of both sides, a validated change keeps the configuration sound and
      its quorums overlap with the old ones.
    - Log and follower: the vector log implements a map from index to entry and keeps
      its invariant; compaction preserves the effective configuration; appending the
      entries of a request keeps the entries that agree, replaces the rest by those of
      the request, payloads included, reports every change and is idempotent.
    - Commit: the commit index moves to the highest entry of the current term that a
      quorum holds, and nothing else changes; the commit loop terminates.
    - Runtime and service: committed commands are applied exactly once and in order;
      every proposal is answered at most once, with the result of its own command;
      handlers and state machine refuse the same requests.
    - The replicated service (Replica.v), in covered executions: the answers of all
      nodes are results at places of one log, an ETag names one version on all nodes,
      and whoever has applied the entry of a proposal has applied all that was answered
      before it. A waiting request knows its entry by the bytes of the command only,
      which all read barriers and all registrations share: [stale_read] and
      [session_shared] are executions in which a deposed leader answers a read without
      an acknowledged write, and gives a client the session of another one.
    - The register client (Register.v), over one log and with a session that no other
      client has: with retries and lost, repeated and late requests, writes and
      compare-and-sets are atomic, and reads return a value the register had before they
      ended. When each answered request was completed by its own entry, reads return a
      value the register had while they ran, and the operations are linearizable; the
      witness has a read, completed by an older entry, that is not.
    - State machine: the code implements the specification [kv_spec]; mutations take
      effect once; ETags name one version for ever; conditional writes do not lose
      updates.
    - Durability: an encoded record is read back, a torn one is recognised, no record
      passes without its checksums; after any failures, with appends going on
      after them, and any crash the log reopens with every synced record and no invented
      one, and its files stay within their limits; the Raft state on top of it is the one
      saved last or the one whose save failed. Only a rotation that fails after creating
      its segment leaves a handle that can break recovery ([failed_rotation_breaks_recovery]).
      Directories whose creation was interrupted are never made durable
      ([interrupted_creation_not_durable]).
    - Transport, authentication, configuration: only authenticated messages of other
      members reach a node, what a peer posts is what the node steps, requests in
      flight are bounded, hexadecimal text round-trips, accepted configurations are
      valid.
    - Sessions and read index of cloud9-raft-io: requests execute at most once; a read
      completes with a quorum of its own when it was requested between rounds, and may
      complete on an older round otherwise ([read_completed_by_older_round]).

    ** Bounds and fuel

    Loops without a structural argument have fuel, and a theorem that it is enough:
    [apply_committed] gets the commit index ([apply_committed_correct]), [maybe_commit]
    two more than the length of the log ([maybe_commit_total]: every round but the last
    commits a pending joint configuration), the scan of a segment the number of bytes
    of the reader ([segment_scan_total]), the replay of the store the length of the log
    in bytes ([raft_state_survives_crash]). The client gives up after 21 attempts, as the
    code does. The loops of the tests have bounds above the number of rounds they need;
    a test that ran out of them would not pass. The theorems of Cluster.v and of the
    files on top of it bound the number of actions so that terms, indices and clocks
    stay below [u64_max].

    ** Not modelled

    - The safety theorems of Cluster.v are for clusters with a fixed configuration, as
      the node deploys them: the runtime offers no configuration change. The code of
      configuration changes is modelled and its local properties are proved.
    - Debug assertions (compiled out of release builds) and log output.
    - Sockets, HTTP and the RPC framework, timers and the scheduler: their outcomes are
      arguments of the operations, and a step of the network may happen at any time.
    - cloud9-core (wrappers of library calls), cloud9-storage (an options record) and
      cloud9-proto (generated code) compute nothing. The storage and transport traits of
      cloud9-raft-io and the [ConsensusDriver] trait are lists of signatures without an
      implementation or a caller. Of the Jepsen tests the generators, the nemesis, the
      checkers and the installation of nodes are calls of the test library. Of the unit
      tests those that start threads, sockets or a file system are left out. *)

From stdpp Require Export base strings numbers option gmap list.
From stdpp Require Import tactics.
From Stdlib Require Strings.Byte.

(** Machine integers. *)
Declare Scope u64_scope.
Delimit Scope u64_scope with u64.

Definition u64_modulus : N := 18446744073709551616.
Definition u64_max : N := 18446744073709551615.

(** [a + b], [a - b] on [u64] in a release build: two's-complement wrap. *)
Definition u64_add (a b : N) : N := ((a + b) mod u64_modulus)%N.
Definition u64_sub (a b : N) : N := ((a + u64_modulus - b mod u64_modulus) mod u64_modulus)%N.
Definition u64_wrapping_mul (a b : N) : N := ((a * b) mod u64_modulus)%N.
Definition u64_shl (a k : N) : N := (N.shiftl a k mod u64_modulus)%N.
Definition u64_checked_add (a b : N) : option N :=
  if (a + b <? u64_modulus)%N then Some (a + b)%N else None.
Definition u64_saturating_sub (a b : N) : N := (a - b)%N.

Infix "+u" := u64_add (at level 50, left associativity) : u64_scope.
Infix "-u" := u64_sub (at level 50, left associativity) : u64_scope.
Create HintDb btree.
Open Scope u64_scope.

Lemma u64_add_small (a b : N) : (a + b < u64_modulus)%N → a +u b = (a + b)%N.
Proof. intros H. unfold u64_add. by apply N.mod_small. Qed.

Lemma u64_add_lt (a b : N) : (a +u b < u64_modulus)%N.
Proof. apply N.mod_lt. done. Qed.

Lemma u64_sub_small (a b : N) : (b ≤ a < u64_modulus)%N → a -u b = (a - b)%N.
Proof.
  intros H. unfold u64_sub. rewrite (N.mod_small b) by lia.
  replace (a + u64_modulus - b)%N with (a - b + 1 * u64_modulus)%N by lia.
  rewrite N.Div0.mod_add. apply N.mod_small. lia.
Qed.

(** Bytes. *)
Abbreviation bytes := (list Byte.byte).

#[export] Instance byte_eq_decision : EqDecision Byte.byte := Byte.byte_eq_dec.

(** The byte of a [u8] value. *)
Definition byte_of (v : N) : Byte.byte := default Byte.x00 (Byte.of_N v).

Lemma to_N_byte_of v : (v < 256)%N → Byte.to_N (byte_of v) = v.
Proof.
  intros Hv. unfold byte_of. destruct (Byte.of_N v) as [b|] eqn:E; [by apply Byte.to_of_N |].
  apply Byte.of_N_None_iff in E. lia.
Qed.

Lemma byte_of_to_N b : byte_of (Byte.to_N b) = b.
Proof. unfold byte_of. by rewrite Byte.of_to_N. Qed.

Lemma to_N_lt b : (Byte.to_N b < 256)%N.
Proof. destruct b; reflexivity. Qed.

#[export] Instance byte_countable : Countable Byte.byte :=
  inj_countable' Byte.to_N byte_of byte_of_to_N.

(** Vectors indexed by [usize] (64 bits). *)
Definition vlen {A} (l : list A) : N := N.of_nat (length l).
Definition vget {A} (l : list A) (i : N) : option A := l !! N.to_nat i.
Definition vtruncate {A} (l : list A) (n : N) : list A := take (N.to_nat n) l.
Definition vdrain {A} (l : list A) (n : N) : list A := drop (N.to_nat n) l.

(** [&l[s..e]]; [None] is the panic of a range outside the vector. *)
Definition vslice {A} (l : list A) (s e : N) : option (list A) :=
  if ((s <=? e) && (e <=? vlen l))%N
  then Some (take (N.to_nat (e - s)) (drop (N.to_nat s) l)) else None.

(** Sequencing of computations that may panic: [None] is the panic. *)
Notation "'let*' p ':=' e 'in' k" :=
  (match e with Some p => k | None => None end)
  (at level 10, p pattern, e at level 200, k at level 200) : u64_scope.

(** [let x = r?; k] for a [Result], whose error is the left summand. *)
Notation "'let?' p ':=' e 'in' k" :=
  (match e with inl err => inl err | inr p => k end)
  (at level 10, p pattern, e at level 200, k at level 200) : u64_scope.

(** The same with the state [s] that the early return leaves behind. *)
Notation "'let?' p ':=' e 'leaving' s 'in' k" :=
  (match e with inl err => (s, inl err) | inr p => k end)
  (at level 10, p pattern, e at level 200, s at level 200, k at level 200) : u64_scope.

(** Linear arithmetic with the width constants unfolded. *)
Ltac ulia := unfold u64_max, u64_modulus, vlen in *; lia.

(** [lo..=hi] on [u64]. *)
Definition range_incl (lo hi : N) : list N :=
  if (hi <? lo)%N then [] else map (fun k => (lo + N.of_nat k)%N) (seq 0 (N.to_nat (hi - lo + 1))).

(** [lo..hi] on [u64]. *)
Definition range_excl (lo hi : N) : list N :=
  map (fun k => (lo + N.of_nat k)%N) (seq 0 (N.to_nat (hi - lo))).

Lemma range_incl_In lo hi x : In x (range_incl lo hi) ↔ (lo ≤ x ≤ hi)%N.
Proof.
  unfold range_incl. destruct (N.ltb_spec hi lo); simpl; [lia |].
  rewrite in_map_iff. setoid_rewrite in_seq. split.
  - intros (k & <- & Hk). lia.
  - intros Hx. exists (N.to_nat (x - lo)). lia.
Qed.

(** Take apart an equation of values and tuples, eliminating the variables it
    defines and no others. *)
Ltac eq_inv H :=
  lazymatch type of H with
  | Some _ = Some _ => apply (inj Some) in H; eq_inv H
  | (_, _) = (_, _) =>
      let H1 := fresh in let H2 := fresh in
      apply pair_equal_spec in H as [H1 H2]; eq_inv H1; eq_inv H2
  | ?x = ?x => clear H
  | ?x = ?y => first [is_var y; subst y | is_var x; subst x | idtac]
  end.

(** Case analysis of a chain of [let*] that ended in a value. *)
Ltac opt_inv :=
  repeat match goal with
  | H : None = Some _ |- _ => discriminate H
  | H : Some _ = Some _ |- _ => eq_inv H
  | H : (_, _) = (_, _) |- _ => eq_inv H
  | H : (match ?e with Some _ => _ | None => None end) = Some _ |- _ =>
      let E := fresh "E" in destruct e eqn:E; [|discriminate H]
  | H : (let '(_, _) := ?p in _) = Some _ |- _ => destruct p
  | p : (_ * _)%type |- _ => destruct p
  end.
