(* ===== verification/BTree.v ===== *)
(** * Ordered sets

    [std::collections::BTreeSet<NodeId>] as a strictly increasing list: the
    iteration order of the Rust type (ascending keys) is the order of the list,
    so every loop over a set in the code is a loop over the list, and equality of
    sets is equality of lists (theorem [btree_ext]). *)

From S2P Require Import Prelude.
From Stdlib Require Import Sorting.Sorted.

Open Scope N_scope.

(** A set of 64-bit keys; the invariant is [btree_ok]. *)
Abbreviation BTreeSet := (list N).

Definition contains (s : BTreeSet) (x : N) : bool := existsb (N.eqb x) s.

Fixpoint insert (x : N) (s : BTreeSet) : BTreeSet :=
  match s with
  | [] => [x]
  | y :: s' => if x <? y then x :: y :: s' else if x =? y then y :: s' else y :: insert x s'
  end.

Definition remove (x : N) (s : BTreeSet) : BTreeSet := List.filter (fun y => negb (y =? x)) s.

Definition collect (l : list N) : BTreeSet := fold_left (fun s x => insert x s) l [].

Definition btree_ok (s : BTreeSet) : Prop := StronglySorted N.lt s.

Lemma contains_true s x : contains s x = true ↔ In x s.
Proof.
  unfold contains. rewrite existsb_exists. split.
  - intros (y & Hy & Heq). apply N.eqb_eq in Heq. by subst.
  - intros H. exists x. split; [done | apply N.eqb_refl].
Qed.

Lemma contains_false s x : contains s x = false ↔ ¬ In x s.
Proof. rewrite <- contains_true. destruct (contains s x); naive_solver. Qed.

Lemma insert_In x y s : In y (insert x s) ↔ y = x ∨ In y s.
Proof.
  induction s as [|z s IH]; simpl; [naive_solver |].
  destruct (N.ltb_spec x z); simpl; [naive_solver |].
  destruct (N.eqb_spec x z) as [->|]; simpl; naive_solver.
Qed.

Lemma insert_ok x s : btree_ok s → btree_ok (insert x s).
Proof.
  unfold btree_ok. induction s as [|z s IH]; intros Hs; simpl.
  - repeat constructor.
  - apply StronglySorted_inv in Hs as [Hs Hz].
    destruct (N.ltb_spec x z); [|destruct (N.eqb_spec x z)].
    + constructor; [by constructor |]. constructor; [done |].
      eapply List.Forall_impl; [| exact Hz]. simpl. lia.
    + by constructor.
    + constructor; [by apply IH |]. rewrite List.Forall_forall in *.
      intros y [->|Hy]%insert_In; [lia | by apply Hz].
Qed.

Lemma insert_contains x s : contains s x = true → btree_ok s → insert x s = s.
Proof.
  rewrite contains_true. unfold btree_ok.
  induction s as [|z s IH]; simpl; [done |]. intros Hx Hs.
  apply StronglySorted_inv in Hs as [Hs Hz]. rewrite List.Forall_forall in Hz.
  destruct Hx as [->|Hx].
  - rewrite N.ltb_irrefl, N.eqb_refl. done.
  - specialize (Hz _ Hx). destruct (N.ltb_spec x z); [lia |].
    destruct (N.eqb_spec x z); [done |]. f_equal. by apply IH.
Qed.

Lemma remove_In x y s : In y (remove x s) ↔ In y s ∧ y ≠ x.
Proof.
  unfold remove. rewrite List.filter_In. rewrite negb_true_iff, N.eqb_neq. done.
Qed.

Lemma filter_ok f s : btree_ok s → btree_ok (List.filter f s).
Proof.
  unfold btree_ok. induction s as [|z s IH]; intros Hs; simpl; [done |].
  apply StronglySorted_inv in Hs as [Hs Hz]. destruct (f z); [| by apply IH].
  constructor; [by apply IH |]. rewrite List.Forall_forall in *.
  intros y [Hy _]%List.filter_In. by apply Hz.
Qed.

Lemma remove_ok x s : btree_ok s → btree_ok (remove x s).
Proof. apply filter_ok. Qed.

Lemma collect_aux_In l s y : In y (fold_left (fun s x => insert x s) l s) ↔ In y l ∨ In y s.
Proof.
  revert s. induction l as [|x l IH]; intros s; simpl; [naive_solver |].
  rewrite IH, insert_In. naive_solver.
Qed.

Lemma collect_In l y : In y (collect l) ↔ In y l.
Proof. unfold collect. rewrite collect_aux_In. naive_solver. Qed.

Lemma collect_aux_ok l s : btree_ok s → btree_ok (fold_left (fun s x => insert x s) l s).
Proof. revert s. induction l as [|x l IH]; intros s Hs; simpl; [done |]. by apply IH, insert_ok. Qed.

Lemma collect_ok l : btree_ok (collect l).
Proof. apply collect_aux_ok. constructor. Qed.

Lemma btree_NoDup s : btree_ok s → List.NoDup s.
Proof.
  unfold btree_ok. induction s as [|z s IH]; intros Hs; constructor.
  - apply StronglySorted_inv in Hs as [_ Hz]. rewrite List.Forall_forall in Hz.
    intros Hin. specialize (Hz _ Hin). lia.
  - apply StronglySorted_inv in Hs as [Hs _]. by apply IH.
Qed.

(** Two ordered sets with the same elements are the same list. *)
Lemma btree_ext s1 s2 : btree_ok s1 → btree_ok s2 → (∀ x, In x s1 ↔ In x s2) → s1 = s2.
Proof.
  unfold btree_ok. revert s2.
  induction s1 as [|x s1 IH]; intros [|y s2] H1 H2 Hext; [done | | |].
  - destruct (proj2 (Hext y)); by left.
  - destruct (proj1 (Hext x)); by left.
  - apply StronglySorted_inv in H1 as [H1 Hx]. apply StronglySorted_inv in H2 as [H2 Hy].
    rewrite List.Forall_forall in Hx, Hy.
    assert (x = y) as <-.
    { destruct (proj1 (Hext x)) as [|Hin]; [by left | done |].
      destruct (proj2 (Hext y)) as [|Hin']; [by left | done |].
      specialize (Hx _ Hin'). specialize (Hy _ Hin). lia. }
    f_equal. apply IH; [done..|]. intros z. split; intros Hz.
    + destruct (proj1 (Hext z)) as [<-|]; [by right | | done]. specialize (Hx _ Hz). lia.
    + destruct (proj2 (Hext z)) as [<-|]; [by right | | done]. specialize (Hy _ Hz). lia.
Qed.

Lemma collect_id s : btree_ok s → collect s = s.
Proof. intros Hs. apply btree_ext; [apply collect_ok | done |]. intros x. apply collect_In. Qed.

Lemma insert_length x s : contains s x = false → length (insert x s) = S (length s).
Proof.
  rewrite contains_false. induction s as [|z s IH]; simpl; intros Hx; [done |].
  destruct (N.ltb_spec x z); [done |]. destruct (N.eqb_spec x z); [naive_solver |].
  simpl. rewrite IH; naive_solver.
Qed.

(** Counting the members that satisfy a test, the way the code counts votes. *)
Definition count (f : N → bool) (s : list N) : nat := length (List.filter f s).

Lemma count_le f s : (count f s ≤ length s)%nat.
Proof. unfold count. apply List.filter_length_le. Qed.

Lemma count_mono f g s : (∀ x, In x s → f x = true → g x = true) → (count f s ≤ count g s)%nat.
Proof.
  unfold count. induction s as [|x s IH]; intros H; simpl; [done |].
  assert (length (List.filter f s) ≤ length (List.filter g s))%nat by (apply IH; naive_solver).
  destruct (f x) eqn:Hf; [rewrite (H x); simpl; [lia | by left | done] |].
  destruct (g x); simpl; lia.
Qed.

(** Inclusion-exclusion: two counts over one set that together exceed its size
    share a member. *)
Lemma count_overlap f g s :
  (length s < count f s + count g s)%nat → ∃ x, In x s ∧ f x = true ∧ g x = true.
Proof.
  unfold count. induction s as [|x s IH]; simpl; [lia |]. intros H.
  destruct (f x) eqn:Hf, (g x) eqn:Hg; simpl in H.
  - exists x. auto.
  - destruct IH as (y & ? & ? & ?); [lia |]. eauto.
  - destruct IH as (y & ? & ? & ?); [lia |]. eauto.
  - destruct IH as (y & ? & ? & ?); [lia |]. eauto.
Qed.

Lemma count_insert f x s :
  contains s x = false →
  count f (insert x s) = ((if f x then 1 else 0) + count f s)%nat.
Proof.
  unfold count. rewrite contains_false. induction s as [|z s IH]; simpl; intros Hx.
  - by destruct (f x).
  - destruct (N.ltb_spec x z); [by simpl; destruct (f x) |].
    destruct (N.eqb_spec x z); [naive_solver |]. simpl.
    destruct (f z); simpl; rewrite IH by naive_solver; destruct (f x); lia.
Qed.

Lemma filter_notin x s : ¬ In x s → List.filter (fun y => negb (y =? x)) s = s.
Proof.
  induction s as [|z s IH]; simpl; intros H; [done |].
  destruct (N.eqb_spec z x); [naive_solver |]. simpl. f_equal. naive_solver.
Qed.

Lemma insert_remove x s : btree_ok s → contains s x = true → insert x (remove x s) = s.
Proof.
  intros Hs Hx. apply btree_ext; [by apply insert_ok, remove_ok | done |].
  intros y. rewrite insert_In, remove_In. apply contains_true in Hx.
  destruct (decide (y = x)) as [->|]; naive_solver.
Qed.

Lemma remove_contains x s : contains (remove x s) x = false.
Proof. apply contains_false. rewrite remove_In. naive_solver. Qed.

#[export] Hint Resolve insert_ok remove_ok collect_ok filter_ok : btree.
