(* ===== verification/Membership.v ===== *)
(** * Cluster membership

    consensus/cloud9-raft/src/raft/membership.rs: configurations (simple and
    joint), quorums, the canonical member lists and validated configuration
    changes. A [NodeId] is its [u64]; a [BTreeSet<NodeId>] is an ordered list
    (file BTree). The theorems: any two quorums of one configuration intersect,
    a validated single-server change keeps quorums of the two configurations
    intersecting, a joint configuration's quorums intersect those of both of its
    halves, and a validated change produces a well-formed configuration. *)

From S2P Require Import Prelude BTree.

Open Scope N_scope.

Abbreviation NodeId := N.

(** ** Data *)

Inductive MembershipMode := SingleServer | JointConsensus.

#[export] Instance MembershipMode_eq_dec : EqDecision MembershipMode.
Proof. solve_decision. Defined.

Inductive Configuration :=
| Simple (voters learners : BTreeSet)
| Joint (old new learners : BTreeSet).

#[export] Instance Configuration_eq_dec : EqDecision Configuration.
Proof. solve_decision. Defined.

(** ** Constructors *)

Definition simple (voters : list NodeId) : Configuration := Simple (collect voters) [].

Definition simple_with_learners (voters learners : list NodeId) : Configuration :=
  Simple (collect voters) (collect learners).

Definition joint (old new : list NodeId) : Configuration := Joint (collect old) (collect new) [].

Definition joint_with_learners (old new learners : list NodeId) : Configuration :=
  Joint (collect old) (collect new) (collect learners).

Definition default_configuration : Configuration := Simple [] [].

(** [btreeset_as_vec]: a set is written as the sequence of its elements in
    ascending order and read back by collecting the sequence. *)
Definition btreeset_serialize (set : BTreeSet) : list NodeId := set.

Definition btreeset_deserialize (vec : list NodeId) : BTreeSet := collect vec.

(** ** Queries *)

Definition voters (c : Configuration) : list NodeId :=
  match c with
  | Simple voters _ => voters
  | Joint old new _ => old ++ List.filter (fun id => negb (contains old id)) new
  end.

Definition is_voter (c : Configuration) (id : NodeId) : bool :=
  match c with
  | Simple voters _ => contains voters id
  | Joint old new _ => contains old id || contains new id
  end.

Definition learners (c : Configuration) : list NodeId :=
  match c with Simple _ learners | Joint _ _ learners => learners end.

Definition is_learner (c : Configuration) (id : NodeId) : bool := contains (learners c) id.

Definition voter_count (c : Configuration) : nat :=
  match c with
  | Simple voters _ => length voters
  | Joint old new _ => (length old + length (List.filter (fun id => negb (contains old id)) new))%nat
  end.

Definition voter_peers (c : Configuration) (me : NodeId) : list NodeId :=
  List.filter (fun id => negb (id =? me)) (voters c).

Definition all_nodes (c : Configuration) : list NodeId := voters c ++ learners c.

Definition replication_peers (c : Configuration) (me : NodeId) : list NodeId :=
  List.filter (fun id => negb (id =? me)) (all_nodes c).

Definition is_member (c : Configuration) (id : NodeId) : bool := is_voter c id || is_learner c id.

Definition is_joint (c : Configuration) : bool :=
  match c with Joint _ _ _ => true | Simple _ _ => false end.

Definition quorum_sizes (c : Configuration) : nat * option nat :=
  match c with
  | Simple voters _ => (length voters / 2 + 1, None)%nat
  | Joint old new _ => (length old / 2 + 1, Some (length new / 2 + 1))%nat
  end.

(** [votes > voters.len() / 2] over one voter set. *)
Definition majority (set : BTreeSet) (has_vote : NodeId → bool) : bool :=
  (length set / 2 <? count has_vote set)%nat.

Definition has_quorum (c : Configuration) (has_vote : NodeId → bool) : bool :=
  match c with
  | Simple voters _ => majority voters has_vote
  | Joint old new _ => majority old has_vote && majority new has_vote
  end.

(** The [seen] set of the loop over [new] starts as the elements of [old]. *)
Fixpoint push_unseen (seen : list NodeId) (new : list NodeId) : list (NodeId * bool * bool) :=
  match new with
  | [] => []
  | id :: new' =>
      if contains seen id then push_unseen seen new'
      else (id, false, true) :: push_unseen (id :: seen) new'
  end.

Definition voter_membership (c : Configuration) : list (NodeId * bool * bool) :=
  match c with
  | Simple voters _ => map (fun id => (id, true, true)) voters
  | Joint old new _ => map (fun id => (id, true, contains new id)) old ++ push_unseen old new
  end.

Definition transition_target (c : Configuration) : option Configuration :=
  match c with
  | Simple _ _ => None
  | Joint _ new learners => Some (Simple new learners)
  end.

(** ** Canonical members and configuration changes *)

Inductive ConfigChangeError :=
| ChangeInProgress
| AlreadyVoter (id : NodeId)
| AlreadyLearner (id : NodeId)
| Overlap (id : NodeId)
| PromoteRequiresLearner (id : NodeId)
| LearnerNotCaughtUp (id : NodeId) (have need : N)
| NotVoter (id : NodeId)
| NotLearner (id : NodeId)
| WouldBeEmpty
| NoChange
| NotSingleChange (added removed : nat)
| NotLeader.

Record Members := mkMembers { m_voters : list NodeId; m_learners : list NodeId }.

(** The loop over the learners: an overlap stops it, otherwise it inserts. *)
Fixpoint collect_learners (voter_set : BTreeSet) (learners : list NodeId) (learner_set : BTreeSet)
    : ConfigChangeError + BTreeSet :=
  match learners with
  | [] => inr learner_set
  | id :: rest =>
      if contains voter_set id then inl (Overlap id)
      else collect_learners voter_set rest (insert id learner_set)
  end.

Definition members_new (voters learners : list NodeId) : ConfigChangeError + Members :=
  let voter_set := collect voters in
  match collect_learners voter_set learners [] with
  | inl e => inl e
  | inr learner_set => inr (mkMembers voter_set learner_set)
  end.

Inductive ConfigChange :=
| AddVoter (id : NodeId)
| RemoveVoter (id : NodeId)
| AddLearner (id : NodeId)
| RemoveLearner (id : NodeId)
| SetMembers (members : Members).

(** The checks of [validate] on a simple configuration; [None] is [Ok(())]. *)
Definition validate_simple (ch : ConfigChange) (voters learners : BTreeSet) (mode : MembershipMode)
    : option ConfigChangeError :=
  match ch with
  | AddVoter id =>
      if contains voters id then Some (AlreadyVoter id)
      else if negb (contains learners id) then Some (PromoteRequiresLearner id)
      else None
  | RemoveVoter id =>
      if negb (contains voters id) then Some (NotVoter id)
      else if (length voters =? 1)%nat then Some WouldBeEmpty
      else None
  | AddLearner id =>
      if contains voters id then Some (AlreadyVoter id)
      else if contains learners id then Some (AlreadyLearner id)
      else None
  | RemoveLearner id =>
      if negb (contains learners id) then Some (NotLearner id) else None
  | SetMembers members =>
      let new_voters := collect (m_voters members) in
      let new_learners := collect (m_learners members) in
      if bool_decide (new_voters = voters ∧ new_learners = learners) then Some NoChange
      else
        let added := List.filter (fun id => negb (contains voters id)) new_voters in
        let removed := List.filter (fun id => negb (contains new_voters id)) voters in
        if bool_decide (mode = SingleServer) && (1 <? length added + length removed)%nat
        then Some (NotSingleChange (length added) (length removed))
        else if (length new_voters =? 0)%nat then Some WouldBeEmpty
        else match find (contains new_learners) new_voters with
             | Some id => Some (AlreadyVoter id)
             | None => None
             end
  end.

Definition validate (ch : ConfigChange) (current : Configuration) (mode : MembershipMode)
    : option ConfigChangeError :=
  match current with
  | Joint _ _ _ => Some ChangeInProgress
  | Simple voters learners => validate_simple ch voters learners mode
  end.

Definition apply_change (ch : ConfigChange) (current : Configuration) (mode : MembershipMode)
    : Configuration :=
  let '(voters, learners) :=
    match current with
    | Simple voters learners => (voters, learners)
    | Joint _ new learners => (new, learners)
    end in
  match ch with
  | AddVoter id => Simple (insert id voters) (remove id learners)
  | RemoveVoter id => Simple (remove id voters) learners
  | AddLearner id => Simple voters (insert id learners)
  | RemoveLearner id => Simple voters (remove id learners)
  | SetMembers members =>
      let new_voters := collect (m_voters members) in
      let new_learners := collect (m_learners members) in
      if bool_decide (mode = JointConsensus) && negb (bool_decide (voters = new_voters))
      then Joint voters new_voters new_learners
      else Simple new_voters new_learners
  end.

(** ** Well-formed configurations *)

(** Both voter sets non-empty, every set ordered, and no learner among the voters
    the cluster moves to (a joint configuration may already list a voter of the
    old set as a learner: that is how a demotion is expressed). *)
Definition config_ok (c : Configuration) : Prop :=
  match c with
  | Simple voters learners =>
      btree_ok voters ∧ btree_ok learners ∧ voters ≠ [] ∧
      (∀ id, contains voters id = true → contains learners id = false)
  | Joint old new learners =>
      btree_ok old ∧ btree_ok new ∧ btree_ok learners ∧ old ≠ [] ∧ new ≠ [] ∧
      (∀ id, contains new id = true → contains learners id = false)
  end.

Lemma voters_spec c id : In id (voters c) ↔ is_voter c id = true.
Proof.
  destruct c as [v l|o n l]; simpl; [by rewrite contains_true |].
  rewrite in_app_iff, List.filter_In, orb_true_iff, !contains_true, negb_true_iff, contains_false.
  destruct (in_dec N.eq_dec id o); naive_solver.
Qed.

Lemma voters_NoDup c : config_ok c → List.NoDup (voters c).
Proof.
  destruct c as [v l|o n l]; simpl.
  - intros (Hv & _). by apply btree_NoDup.
  - intros (Ho & Hn & _). apply List.NoDup_app.
    + by apply btree_NoDup.
    + by apply List.NoDup_filter, btree_NoDup.
    + intros x Hx [_ Hneg]%List.filter_In. apply contains_true in Hx. by rewrite Hx in Hneg.
Qed.

Lemma voter_count_voters c : voter_count c = length (voters c).
Proof. destruct c; simpl; [done | by rewrite length_app]. Qed.

Lemma majority_overlap s f g :
  majority s f = true → majority s g = true → ∃ id, In id s ∧ f id = true ∧ g id = true.
Proof.
  unfold majority. rewrite !Nat.ltb_lt. intros Hf Hg. apply count_overlap.
  pose proof (Nat.div_mod_eq (length s) 2). pose proof (Nat.mod_upper_bound (length s) 2). lia.
Qed.

Lemma majority_mono s f g :
  (∀ id, In id s → f id = true → g id = true) → majority s f = true → majority s g = true.
Proof.
  unfold majority. rewrite !Nat.ltb_lt. intros Hfg Hf.
  pose proof (count_mono f g s Hfg). lia.
Qed.

Lemma has_quorum_mono c f g :
  (∀ id, is_voter c id = true → f id = true → g id = true) →
  has_quorum c f = true → has_quorum c g = true.
Proof.
  destruct c as [v l|o n l]; simpl; intros Hfg.
  - apply majority_mono. intros id Hin. apply Hfg. by apply contains_true.
  - rewrite !andb_true_iff. intros [Ho Hn]. split; (eapply majority_mono; [|done]);
      intros id Hin; apply Hfg; rewrite orb_true_iff, !contains_true; naive_solver.
Qed.

(** ** Intersection across a change of at most one voter *)

Lemma count_filter_le f g s :
  (count f s ≤ count f (List.filter g s) + length (List.filter (fun x => negb (g x)) s))%nat.
Proof.
  unfold count. induction s as [|x s IH]; simpl; [lia |].
  destruct (f x) eqn:Hf, (g x) eqn:Hg; simpl; rewrite ?Hf; simpl; lia.
Qed.

Lemma filter_split_length (g : N → bool) s :
  (length s = length (List.filter g s) + length (List.filter (fun x => negb (g x)) s))%nat.
Proof. induction s as [|x s IH]; simpl; [done |]. destruct (g x); simpl; lia. Qed.

Lemma majority_overlap_one v w f g :
  btree_ok v → btree_ok w →
  (length (List.filter (fun id => negb (contains v id)) w) +
   length (List.filter (fun id => negb (contains w id)) v) ≤ 1)%nat →
  majority v f = true → majority w g = true →
  ∃ id, In id v ∧ In id w ∧ f id = true ∧ g id = true.
Proof.
  intros Hv Hw Hone. unfold majority. rewrite !Nat.ltb_lt. intros Hf Hg.
  set (i := List.filter (contains w) v).
  assert (i = List.filter (contains v) w) as Hi.
  { apply btree_ext; [by apply filter_ok..|]. intros x.
    unfold i. rewrite !List.filter_In, !contains_true. naive_solver. }
  pose proof (count_filter_le f (contains w) v) as Hcf. fold i in Hcf.
  pose proof (count_filter_le g (contains v) w) as Hcg. rewrite <- Hi in Hcg.
  pose proof (filter_split_length (contains w) v) as Hlv. fold i in Hlv.
  pose proof (filter_split_length (contains v) w) as Hlw. rewrite <- Hi in Hlw.
  pose proof (Nat.div_mod_eq (length v) 2). pose proof (Nat.mod_upper_bound (length v) 2).
  pose proof (Nat.div_mod_eq (length w) 2). pose proof (Nat.mod_upper_bound (length w) 2).
  destruct (count_overlap f g i) as (x & Hx & ? & ?); [lia |].
  unfold i in Hx. apply List.filter_In in Hx as [Hxv Hxw]. apply contains_true in Hxw. eauto.
Qed.

Lemma filter_nil_iff (p : N → bool) s : (∀ x, In x s → p x = false) → List.filter p s = [].
Proof.
  induction s as [|x s IH]; simpl; intros H; [done |]. rewrite H by (by left).
  apply IH. intros y Hy. apply H. by right.
Qed.

Lemma count_single x s :
  List.NoDup s → (length (List.filter (fun y => N.eqb y x) s) ≤ 1)%nat.
Proof.
  induction s as [|y s IH]; intros Hnd; simpl; [lia |].
  apply NoDup_cons_iff in Hnd as [Hy Hnd]. destruct (N.eqb_spec y x) as [->|]; simpl; [|by apply IH].
  rewrite (filter_nil_iff _ s); [done |]. intros z Hz. apply N.eqb_neq. naive_solver.
Qed.

(** Every set the difference of which from [s] is one element. *)
Lemma diff_insert_length x s :
  btree_ok s →
  (length (List.filter (fun id => negb (contains s id)) (insert x s)) +
   length (List.filter (fun id => negb (contains (insert x s) id)) s) ≤ 1)%nat.
Proof.
  intros Hs. rewrite (filter_nil_iff _ s).
  2:{ intros y Hy. apply negb_false_iff, contains_true, insert_In. by right. }
  transitivity (length (List.filter (fun y => N.eqb y x) (insert x s))).
  2:{ by apply count_single, btree_NoDup, insert_ok. }
  simpl. rewrite Nat.add_0_r. apply (count_mono _ _ (insert x s)). intros y Hy Hneg.
  apply negb_true_iff, contains_false in Hneg. apply N.eqb_eq. apply insert_In in Hy. naive_solver.
Qed.

Lemma diff_remove_length x s :
  btree_ok s → contains s x = true →
  (length (List.filter (fun id => negb (contains s id)) (remove x s)) +
   length (List.filter (fun id => negb (contains (remove x s) id)) s) ≤ 1)%nat.
Proof.
  intros Hs Hx. rewrite Nat.add_comm.
  pose proof (diff_insert_length x (remove x s)) as Hd. rewrite insert_remove in Hd by done.
  by apply Hd, remove_ok.
Qed.

(** ** Properties *)

Lemma has_quorum_overlap c f g :
  has_quorum c f = true → has_quorum c g = true →
  ∃ id, is_voter c id = true ∧ f id = true ∧ g id = true.
Proof.
  destruct c as [v l|o n l]; simpl.
  - intros Hf Hg. destruct (majority_overlap v f g) as (id & Hin & ? & ?); [done..|].
    exists id. by rewrite contains_true.
  - rewrite !andb_true_iff. intros [Hf _] [Hg _].
    destruct (majority_overlap o f g) as (id & Hin & ? & ?); [done..|].
    exists id. rewrite orb_true_iff, !contains_true. naive_solver.
Qed.

(** Any two vote sets that [Configuration::has_quorum] accepts for one
    configuration, simple or joint, have a voter of that configuration in common. *)
Theorem quorum_intersection c f g :
  has_quorum c f = true → has_quorum c g = true →
  ∃ id, is_voter c id = true ∧ f id = true ∧ g id = true.
Proof. apply has_quorum_overlap. Qed.

Lemma quorum_intersection_witness :
  has_quorum (simple [1; 2; 3]) (fun id => id <=? 2) = true ∧
  ∃ id, is_voter (simple [1; 2; 3]) id = true ∧ (id <=? 2) = true ∧ (2 <=? id) = true.
Proof.
  split; [reflexivity |].
  apply (quorum_intersection (simple [1; 2; 3]) (fun id => id <=? 2) (fun id => 2 <=? id)); reflexivity.
Defined.

Lemma set_members_overlap v l ms mode f g :
  btree_ok v → validate_simple (SetMembers ms) v l mode = None →
  majority v f = true → has_quorum (apply_change (SetMembers ms) (Simple v l) mode) g = true →
  ∃ id, In id v ∧ f id = true ∧ g id = true.
Proof.
  intros Hv Hval Hf Hg. simpl in Hval. unfold apply_change in Hg.
  set (w := collect (m_voters ms)) in *.
  destruct (bool_decide (w = v ∧ collect (m_learners ms) = l)); [done |].
  destruct (bool_decide (mode = JointConsensus) && negb (bool_decide (v = w))) eqn:Hj.
  { simpl in Hg. apply andb_true_iff in Hg as [Hg _].
    destruct (majority_overlap v f g) as (id & ? & ? & ?); [done..|]. eauto. }
  simpl in Hg.
  assert (length (List.filter (fun id => negb (contains v id)) w) +
          length (List.filter (fun id => negb (contains w id)) v) ≤ 1)%nat as Hone.
  { apply andb_false_iff in Hj as [Hj|Hj].
    - apply bool_decide_eq_false in Hj. destruct mode; [|done].
      rewrite bool_decide_eq_true_2 in Hval by done. simpl in Hval.
      by destruct (Nat.ltb_spec 1 (length (List.filter (fun id => negb (contains v id)) w) +
                                   length (List.filter (fun id => negb (contains w id)) v))).
    - apply negb_false_iff, bool_decide_eq_true in Hj. rewrite <- Hj.
      rewrite filter_nil_iff; [simpl; lia |]. intros x Hx. by apply negb_false_iff, contains_true. }
  destruct (majority_overlap_one v w f g) as (id & ? & ? & ? & ?);
    [done | apply collect_ok | done | done | done |]. eauto.
Qed.

(** C31: a configuration change that passes [ConfigChange::validate], in either
    membership mode, yields a configuration every quorum of which shares a voter
    of the current configuration with every quorum of the current one, so no two
    leaders and no two commits can be decided by disjoint quorums across the
    change. *)
Theorem validated_change_overlap ch current mode f g :
  config_ok current → validate ch current mode = None →
  has_quorum current f = true → has_quorum (apply_change ch current mode) g = true →
  ∃ id, is_voter current id = true ∧ f id = true ∧ g id = true.
Proof.
  destruct current as [v l|]; [|done]. intros (Hv & Hl & Hne & Hdis) Hval Hf Hg.
  cut (∃ id, In id v ∧ f id = true ∧ g id = true).
  { intros (id & Hin & ?). exists id. simpl. by rewrite contains_true. }
  destruct ch as [x|x|x|x|ms]; [..|by eapply set_members_overlap]; simpl in *.
  - edestruct (majority_overlap_one v (insert x v) f g) as (id & ? & ? & ? & ?);
      eauto using diff_insert_length with btree.
  - destruct (contains v x) eqn:Hx; [|done].
    edestruct (majority_overlap_one v (remove x v) f g) as (id & ? & ? & ? & ?);
      eauto using diff_remove_length with btree.
  - by apply majority_overlap.
  - by apply majority_overlap.
Qed.

Lemma validated_change_overlap_witness :
  validate (RemoveVoter 3) (simple [1; 2; 3]) SingleServer = None ∧
  ∃ id, is_voter (simple [1; 2; 3]) id = true ∧ (2 <=? id) = true ∧ (id <=? 2) = true.
Proof.
  split; [reflexivity |].
  apply (validated_change_overlap (RemoveVoter 3) (simple [1; 2; 3]) SingleServer
           (fun id => 2 <=? id) (fun id => id <=? 2)); [|reflexivity..].
  split; [apply collect_ok |]. split; [constructor |]. split; [done |]. done.
Defined.

(** A change that passes [ConfigChange::validate] produces a well-formed
    configuration: ordered sets, at least one voter, and no node that is both a
    learner and a voter of the configuration the cluster moves to. *)
Theorem validated_change_ok ch current mode :
  config_ok current → validate ch current mode = None →
  config_ok (apply_change ch current mode).
Proof.
  destruct current as [v l|]; [|done]. intros (Hv & Hl & Hne & Hdis) Hval.
  destruct ch as [x|x|x|x|ms]; simpl in *.
  - destruct (contains v x) eqn:Hx; [done |].
    split_and!; [by apply insert_ok | by apply remove_ok | by destruct v; simpl; repeat case_match |].
    intros id. rewrite contains_true, contains_false, insert_In, remove_In.
    intros [->|Hid]; [naive_solver |]. apply contains_true, Hdis, contains_false in Hid. naive_solver.
  - destruct (contains v x) eqn:Hx; [|done]. simpl in Hval.
    destruct (Nat.eqb_spec (length v) 1) as [|Hlen]; [done |].
    split_and!; [by apply remove_ok | done | |].
    + intros Hnil. pose proof (insert_remove x v Hv Hx) as Hir. rewrite Hnil in Hir. by rewrite <- Hir in Hlen.
    + intros id Hid. apply Hdis. rewrite contains_true, remove_In in *. naive_solver.
  - destruct (contains v x) eqn:Hx; [done |].
    split_and!; [done | by apply insert_ok | done |].
    intros id Hid. rewrite contains_false, insert_In. pose proof (Hdis _ Hid) as Hd.
    apply contains_false in Hd. intros [->|]; [congruence | done].
  - split_and!; [done | by apply remove_ok | done |].
    intros id Hid. rewrite contains_false, remove_In. pose proof (Hdis _ Hid) as Hd.
    apply contains_false in Hd. naive_solver.
  - set (w := collect (m_voters ms)) in *. set (nl := collect (m_learners ms)) in *.
    destruct (bool_decide (w = v ∧ nl = l)); [done |]. case_match; [done |].
    destruct (Nat.eqb_spec (length w) 0) as [|Hlen]; [done |].
    assert (w ≠ []) by (intros Heq; by rewrite Heq in Hlen).
    assert (∀ id, contains w id = true → contains nl id = false) as Hdw.
    { intros id Hid. apply contains_true in Hid.
      destruct (find (contains nl) w) eqn:Hfind; [done |].
      by eapply List.find_none. }
    unfold apply_change. fold w nl.
    destruct (bool_decide (mode = JointConsensus) && negb (bool_decide (v = w)));
      simpl; split_and!; try done; apply collect_ok.
Qed.

Lemma validated_change_ok_witness :
  config_ok (apply_change (SetMembers (mkMembers [4; 2] [7])) (simple [1; 2; 3]) JointConsensus).
Proof.
  apply (validated_change_ok (SetMembers (mkMembers [4; 2] [7])) (simple [1; 2; 3]) JointConsensus);
    [|reflexivity].
  split; [apply collect_ok |]. split; [constructor |]. split; [done |]. done.
Defined.

(** A quorum of a joint configuration contains a quorum of the old voter set
    and one of the new voter set, so while the transition runs it meets every
    quorum of the old configuration and every quorum of the configuration
    [transition_target] completes to. *)
Theorem joint_quorum_bridges old new ls target f g :
  transition_target (Joint old new ls) = Some target →
  has_quorum (Joint old new ls) f = true →
  (has_quorum (Simple old ls) g = true → ∃ id, contains old id = true ∧ f id = true ∧ g id = true) ∧
  (has_quorum target g = true → ∃ id, contains new id = true ∧ f id = true ∧ g id = true).
Proof.
  simpl. intros [= <-] [Ho Hn]%andb_true_iff. simpl. split; intros Hg.
  - destruct (majority_overlap old f g) as (id & ?%contains_true & ? & ?); eauto.
  - destruct (majority_overlap new f g) as (id & ?%contains_true & ? & ?); eauto.
Qed.

Lemma joint_quorum_bridges_witness :
  transition_target (joint [1; 2; 3] [3; 4; 5]) = Some (simple [3; 4; 5]) ∧
  ∃ id, contains [3; 4; 5] id = true ∧ (2 <=? id) && (id <=? 4) = true ∧ (id <=? 4) = true.
Proof.
  split; [reflexivity |].
  apply (joint_quorum_bridges [1; 2; 3] [3; 4; 5] [] (simple [3; 4; 5])
           (fun id => (2 <=? id) && (id <=? 4)) (fun id => id <=? 4)); reflexivity.
Defined.

Lemma collect_learners_spec vs ls acc :
  match collect_learners vs ls acc with
  | inl (Overlap id) => contains vs id = true ∧ In id ls
  | inl _ => False
  | inr out => out = fold_left (fun s x => insert x s) ls acc ∧ ∀ id, In id ls → contains vs id = false
  end.
Proof.
  revert acc. induction ls as [|x ls IH]; intros acc; simpl; [done |].
  destruct (contains vs x) eqn:Hx; [by split; [|left] |].
  specialize (IH (insert x acc)).
  destruct (collect_learners vs ls (insert x acc)) as [[]|out]; try done; [naive_solver |].
  destruct IH as [-> IH]. split; [done |]. naive_solver.
Qed.

(** [Members::new] either returns the sorted duplicate-free voters and
    learners of its arguments, with no node in both, or reports a node that
    appears in both lists; it never reports another error. *)
Theorem members_new_canonical vs ls :
  match members_new vs ls with
  | inl (Overlap id) => In id vs ∧ In id ls
  | inl _ => False
  | inr m => m_voters m = collect vs ∧ m_learners m = collect ls ∧
             btree_ok (m_voters m) ∧ btree_ok (m_learners m) ∧
             ∀ id, ¬ (In id (m_voters m) ∧ In id (m_learners m))
  end.
Proof.
  unfold members_new. pose proof (collect_learners_spec (collect vs) ls []) as H.
  destruct (collect_learners (collect vs) ls []) as [[]|out]; try done.
  - by rewrite contains_true, collect_In in H.
  - destruct H as [-> Hd]. fold (collect ls). simpl. split_and!; auto using collect_ok.
    intros id [Hv Hl]. rewrite collect_In in Hl. apply Hd in Hl.
    by rewrite contains_false in Hl.
Qed.

(** Writing a set with [btreeset_as_vec::serialize] and reading it back
    restores it, and reading any sequence gives an ordered set with the same
    members. *)
Theorem btreeset_as_vec_roundtrip s vec :
  (btree_ok s → btreeset_deserialize (btreeset_serialize s) = s) ∧
  btree_ok (btreeset_deserialize vec) ∧ (∀ id, In id (btreeset_deserialize vec) ↔ In id vec).
Proof. split_and!; [apply collect_id | apply collect_ok | apply collect_In]. Qed.

Lemma push_unseen_fst seen new :
  List.NoDup new →
  map (fun t => fst (fst t)) (push_unseen seen new) =
  List.filter (fun id => negb (contains seen id)) new.
Proof.
  revert seen. induction new as [|x new IH]; intros seen Hnd; simpl; [done |].
  apply NoDup_cons_iff in Hnd as [Hx Hnd].
  destruct (contains seen x) eqn:Hs; simpl; [by apply IH |]. f_equal. rewrite IH by done.
  apply List.filter_ext_in. intros y Hy. f_equal. simpl.
  destruct (N.eqb_spec y x); [naive_solver | done].
Qed.

(** [voter_membership] lists exactly the voters that [voters] iterates, in
    the same order, and the length of that list is [voter_count]: no voter of a
    joint configuration is counted twice. *)
Theorem voter_membership_voters c :
  config_ok c →
  map (fun t => fst (fst t)) (voter_membership c) = voters c ∧
  length (voter_membership c) = voter_count c ∧ List.NoDup (voters c).
Proof.
  intros Hok. assert (map (fun t => fst (fst t)) (voter_membership c) = voters c) as Heq.
  { destruct c as [v l|o n l]; simpl.
    - rewrite List.map_map. apply List.map_id.
    - destruct Hok as (_ & Hn & _). rewrite map_app, List.map_map. simpl. rewrite List.map_id.
      f_equal. by apply push_unseen_fst, btree_NoDup. }
  split_and!; [done | | by apply voters_NoDup].
  rewrite voter_count_voters, <- Heq. by rewrite List.length_map.
Qed.

Lemma voter_membership_voters_witness :
  length (voter_membership (joint [1; 2; 3] [3; 4])) = 4%nat ∧ List.NoDup (voters (joint [1; 2; 3] [3; 4])).
Proof.
  apply (voter_membership_voters (joint [1; 2; 3] [3; 4])).
  split_and!; try apply collect_ok; try done. constructor.
Defined.
