(* ===== verification/Log.v ===== *)
(** * The replicated log

    consensus/cloud9-raft/src/raft/log.rs. [Log] keeps the entries after a
    snapshot boundary in a vector; an index of the log is translated to a vector
    position by [to_vec_index]. [slice] is the one operation that indexes the
    vector with a computed range, so it returns [None] where the range would
    panic. The invariant [log_wf] is the one the source states (contiguous
    entries, [entry.index == i]) with the bound that keeps [last_index() + 1] in
    64 bits. The abstract log is the finite map from index to entry; theorem
    [log_ops_refine] shows that the operations implement the map operations. *)

From S2P Require Import Prelude BTree Membership.

Open Scope N_scope.

Abbreviation LogIndex := N.
Abbreviation Term := N.

(** ** Data *)

Record Command := mkCommand { cmd_bytes : list Byte.byte }.

Inductive EntryPayload :=
| PCommand (c : Command)
| PConfig (c : Configuration).

Definition is_config (p : EntryPayload) : bool :=
  match p with PConfig _ => true | PCommand _ => false end.

Definition as_config (p : EntryPayload) : option Configuration :=
  match p with PConfig c => Some c | PCommand _ => None end.

Record Entry := mkEntry { e_term : Term; e_index : LogIndex; e_payload : EntryPayload }.

#[export] Instance command_eq_decision : EqDecision Command.
Proof. solve_decision. Defined.

#[export] Instance entry_payload_eq_decision : EqDecision EntryPayload.
Proof. solve_decision. Defined.

#[export] Instance entry_eq_decision : EqDecision Entry.
Proof. solve_decision. Defined.

Record Log := mkLog {
  entries : list Entry;
  snapshot_index : LogIndex;
  snapshot_term : Term;
  snapshot_config : option Configuration
}.

Definition default_log : Log := mkLog [] 0 0 None.

(** ** Accessors *)

Definition first_index (l : Log) : LogIndex := snapshot_index l +u 1.

Definition last_index (l : Log) : LogIndex :=
  match last (entries l) with Some e => e_index e | None => snapshot_index l end.

Definition last_term (l : Log) : Term :=
  match last (entries l) with Some e => e_term e | None => snapshot_term l end.

Definition to_vec_index (l : Log) (index : LogIndex) : option N :=
  if index <=? snapshot_index l then None else Some (index -u snapshot_index l -u 1).

Definition term_at (l : Log) (index : LogIndex) : Term :=
  if (index =? 0) || (index <? snapshot_index l) then 0
  else if index =? snapshot_index l then snapshot_term l
  else match to_vec_index l index ≫= vget (entries l) with Some e => e_term e | None => 0 end.

Definition get (l : Log) (index : LogIndex) : option Entry :=
  if (index =? 0) || (index <=? snapshot_index l) then None
  else to_vec_index l index ≫= vget (entries l).

Definition is_empty (l : Log) : bool :=
  match entries l with [] => true | _ => false end.

Definition len (l : Log) : N := vlen (entries l).

(** The latest configuration entry of a list of entries ([iter().rev().find_map]). *)
Fixpoint latest_config (es : list Entry) : option Configuration :=
  match es with
  | [] => None
  | e :: es' =>
      match latest_config es' with
      | Some c => Some c
      | None => as_config (e_payload e)
      end
  end.

Definition config_at (l : Log) (index : LogIndex) : option Configuration :=
  if index <=? snapshot_index l then snapshot_config l
  else
    let end_vec_idx :=
      match to_vec_index l index with
      | Some i => N.min (i +u 1) (vlen (entries l))
      | None => vlen (entries l)
      end in
    match latest_config (vtruncate (entries l) end_vec_idx) with
    | Some c => Some c
    | None => snapshot_config l
    end.

(** [iter().rev().find(..).map(|e| e.index)]. *)
Fixpoint latest_pending (es : list Entry) (commit_index : LogIndex) : option LogIndex :=
  match es with
  | [] => None
  | e :: es' =>
      match latest_pending es' commit_index with
      | Some i => Some i
      | None => if is_config (e_payload e) && (commit_index <? e_index e) then Some (e_index e) else None
      end
  end.

Definition pending_config_index (l : Log) (commit_index : LogIndex) : option LogIndex :=
  latest_pending (entries l) commit_index.

(** ** Mutations *)

Definition append (l : Log) (entry : Entry) : Log :=
  mkLog (entries l ++ [entry]) (snapshot_index l) (snapshot_term l) (snapshot_config l).

Definition truncate_after (l : Log) (index : LogIndex) : Log :=
  if index <=? snapshot_index l
  then mkLog [] (snapshot_index l) (snapshot_term l) (snapshot_config l)
  else match to_vec_index l index with
       | Some vec_idx =>
           mkLog (vtruncate (entries l) (vec_idx +u 1)) (snapshot_index l) (snapshot_term l)
             (snapshot_config l)
       | None => l
       end.

Definition truncate_prefix (l : Log) (index : LogIndex) (term : Term) : Log :=
  if index <=? snapshot_index l then l
  else
    let entries_to_remove := index -u snapshot_index l in
    mkLog
      (if vlen (entries l) <=? entries_to_remove then [] else vdrain (entries l) entries_to_remove)
      index term (config_at l index).

Definition snapshot_matches_prefix (l : Log) (index : LogIndex) (term : Term) : bool :=
  (snapshot_index l <? index) && (term_at l index =? term).

Definition install_snapshot (l : Log) (index : LogIndex) (term : Term) (config : Configuration) : Log :=
  let l' :=
    if (snapshot_index l <? index) && (term_at l index =? term)
    then truncate_prefix l index term
    else mkLog [] index term (snapshot_config l) in
  mkLog (entries l') (snapshot_index l') (snapshot_term l') (Some config).

Definition slice (l : Log) (start end_ : LogIndex) : option (list Entry) :=
  let actual_start := N.max start (snapshot_index l +u 1) in
  if (end_ <? actual_start) || is_empty l then Some []
  else match to_vec_index l actual_start with
       | None => Some []
       | Some s =>
           let e := match to_vec_index l (N.min end_ (last_index l)) with
                    | Some i => i +u 1
                    | None => vlen (entries l)
                    end in
           if (vlen (entries l) <=? s) || (e <=? s) then Some [] else vslice (entries l) s e
       end.

(** ** Invariant *)

Record log_wf (l : Log) : Prop := {
  wf_index : ∀ i e, entries l !! i = Some e → e_index e = snapshot_index l + 1 + N.of_nat i;
  wf_bound : snapshot_index l + N.of_nat (length (entries l)) < u64_max
}.

Create HintDb log.

Lemma last_index_eq l : log_wf l → last_index l = snapshot_index l + N.of_nat (length (entries l)).
Proof.
  intros [Hi Hb]. unfold last_index. rewrite last_lookup.
  destruct (entries l !! Init.Nat.pred (length (entries l))) as [e|] eqn:He.
  - rewrite (Hi _ _ He). apply lookup_lt_Some in He. lia.
  - apply lookup_ge_None in He. destruct (entries l); simpl in *; lia.
Qed.

Lemma last_index_bound l : log_wf l → snapshot_index l ≤ last_index l < u64_max.
Proof. intros H. rewrite last_index_eq by done. destruct H. lia. Qed.

Lemma to_vec_index_eq l i :
  log_wf l → snapshot_index l < i < u64_modulus → to_vec_index l i = Some (i - snapshot_index l - 1).
Proof.
  intros H Hi. unfold to_vec_index. destruct (N.leb_spec i (snapshot_index l)); [lia |].
  rewrite (u64_sub_small i) by lia. rewrite u64_sub_small by lia. done.
Qed.

Lemma get_eq l i :
  log_wf l → i < u64_modulus →
  get l i = if snapshot_index l <? i then entries l !! N.to_nat (i - snapshot_index l - 1) else None.
Proof.
  intros H Hi. unfold get. destruct (N.ltb_spec (snapshot_index l) i).
  - destruct (N.eqb_spec i 0); [lia |]. destruct (N.leb_spec i (snapshot_index l)); [lia |].
    simpl. by rewrite to_vec_index_eq by (done || lia).
  - destruct (N.leb_spec i (snapshot_index l)); [|lia]. by rewrite orb_true_r.
Qed.

Lemma get_Some l i e :
  log_wf l → i < u64_modulus → get l i = Some e →
  snapshot_index l < i ≤ last_index l ∧ e_index e = i ∧
  entries l !! N.to_nat (i - snapshot_index l - 1) = Some e.
Proof.
  intros H Hi. rewrite get_eq by done. destruct (N.ltb_spec (snapshot_index l) i); [|done].
  intros He. pose proof (wf_index _ H _ _ He). pose proof (lookup_lt_Some _ _ _ He).
  rewrite last_index_eq by done. split_and!; [lia | lia | lia | done].
Qed.

Lemma get_in_range l i :
  log_wf l → snapshot_index l < i ≤ last_index l → ∃ e, get l i = Some e.
Proof.
  intros H Hi. pose proof (last_index_bound l H) as Hlb. unfold u64_max in Hlb.
  rewrite get_eq by (done || ulia). destruct (N.ltb_spec (snapshot_index l) i); [|lia].
  apply lookup_lt_is_Some. rewrite last_index_eq in Hi by done. lia.
Qed.

Lemma term_at_get l i :
  log_wf l → i < u64_modulus →
  term_at l i =
    if i =? 0 then 0 else if i =? snapshot_index l then snapshot_term l
    else match get l i with Some e => e_term e | None => 0 end.
Proof.
  intros H Hi. unfold term_at, get. destruct (N.eqb_spec i 0); [done |]. simpl.
  destruct (N.ltb_spec i (snapshot_index l)).
  { destruct (N.eqb_spec i (snapshot_index l)); [lia |].
    destruct (N.leb_spec i (snapshot_index l)); [done | lia]. }
  destruct (N.eqb_spec i (snapshot_index l)); [done |].
  destruct (N.leb_spec i (snapshot_index l)); [lia | done].
Qed.

Lemma term_at_nonzero l i :
  log_wf l → i < u64_modulus → term_at l i ≠ 0 → 0 < i ∧ snapshot_index l ≤ i ≤ last_index l.
Proof.
  intros H Hi. rewrite term_at_get by done. pose proof (last_index_bound l H).
  destruct (N.eqb_spec i 0); [done |]. destruct (N.eqb_spec i (snapshot_index l)); [lia |].
  destruct (get l i) eqn:Hg; [|done]. apply get_Some in Hg; [lia | done..].
Qed.

(** ** Preservation *)

Lemma default_log_wf : log_wf default_log.
Proof. split; simpl; [done |]. done. Qed.

Lemma append_wf l e :
  log_wf l → e_index e = last_index l + 1 → e_index e < u64_max → log_wf (append l e).
Proof.
  intros H He Hb. rewrite last_index_eq in He by done. split; simpl.
  - intros i x Hx. apply lookup_app_Some in Hx as [Hx|[Hle Hx]]; [by apply H |].
    apply list_lookup_singleton_Some in Hx as [Hi <-]. lia.
  - rewrite length_app. simpl. lia.
Qed.

Lemma truncate_after_eq l i :
  log_wf l → i < u64_modulus →
  truncate_after l i =
    mkLog (take (N.to_nat (i - snapshot_index l)) (entries l)) (snapshot_index l) (snapshot_term l)
      (snapshot_config l).
Proof.
  intros H Hi. unfold truncate_after. destruct (N.leb_spec i (snapshot_index l)).
  - replace (N.to_nat (i - snapshot_index l)) with 0%nat by lia. by rewrite take_0.
  - rewrite to_vec_index_eq by (done || lia). unfold vtruncate.
    rewrite u64_add_small by lia. repeat f_equal. lia.
Qed.

Lemma truncate_after_wf l i : log_wf l → i < u64_modulus → log_wf (truncate_after l i).
Proof.
  intros H Hi. rewrite truncate_after_eq by done. split; simpl.
  - intros k x Hx. rewrite lookup_take in Hx. case_decide; [|done]. by apply H.
  - rewrite length_take. destruct H. lia.
Qed.

Lemma truncate_after_last l i :
  log_wf l → i < u64_modulus → snapshot_index l ≤ i →
  last_index (truncate_after l i) = N.min i (last_index l).
Proof.
  intros H Hi Hle. rewrite !last_index_eq by (done || by apply truncate_after_wf).
  rewrite truncate_after_eq by done. simpl. rewrite length_take. lia.
Qed.

Lemma truncate_prefix_eq l i t :
  log_wf l → snapshot_index l < i < u64_modulus →
  truncate_prefix l i t = mkLog (drop (N.to_nat (i - snapshot_index l)) (entries l)) i t (config_at l i).
Proof.
  intros H Hi. unfold truncate_prefix. destruct (N.leb_spec i (snapshot_index l)); [lia |].
  rewrite u64_sub_small by lia. f_equal. unfold vlen, vdrain.
  destruct (N.leb_spec (N.of_nat (length (entries l))) (i - snapshot_index l)); [|done].
  symmetry. apply drop_ge. lia.
Qed.

Lemma truncate_prefix_wf l i t : log_wf l → i < u64_max → log_wf (truncate_prefix l i t).
Proof.
  intros H Hi. destruct (N.leb_spec i (snapshot_index l)) as [|Hlt].
  - unfold truncate_prefix. by destruct (N.leb_spec i (snapshot_index l)); [|lia].
  - rewrite truncate_prefix_eq by (done || ulia). split; simpl.
    + intros k x Hx. rewrite lookup_drop in Hx. rewrite (wf_index _ H _ _ Hx). lia.
    + rewrite length_drop. destruct H. lia.
Qed.

Lemma install_snapshot_wf l i t c : log_wf l → i < u64_max → log_wf (install_snapshot l i t c).
Proof.
  intros H Hi. unfold install_snapshot.
  assert (log_wf (if (snapshot_index l <? i) && (term_at l i =? t) then truncate_prefix l i t
                  else mkLog [] i t (snapshot_config l))) as [Hw Hb].
  { case_match; [by apply truncate_prefix_wf |]. split; simpl; [done | lia]. }
  by split.
Qed.

#[export] Hint Resolve default_log_wf append_wf truncate_after_wf truncate_prefix_wf install_snapshot_wf : log.

(** ** Reading after a mutation *)

Lemma last_index_append l e : last_index (append l e) = e_index e.
Proof. unfold last_index. simpl. by rewrite last_snoc. Qed.

Lemma get_append l e k :
  log_wf l → e_index e = last_index l + 1 → e_index e < u64_max → k < u64_modulus →
  get (append l e) k = if k =? last_index l + 1 then Some e else get l k.
Proof.
  intros H He Hb Hk. pose proof (append_wf l e H He Hb) as Ha. rewrite !get_eq by done.
  simpl. pose proof (last_index_eq l H) as Hl. destruct (N.ltb_spec (snapshot_index l) k).
  - destruct (N.eqb_spec k (last_index l + 1)) as [->|Hne].
    + rewrite lookup_app_r by lia.
      by replace (N.to_nat _ - length (entries l))%nat with 0%nat by lia.
    + destruct (decide (k ≤ last_index l)).
      * by rewrite lookup_app_l by lia.
      * rewrite !lookup_ge_None_2; [done | lia |]. rewrite length_app. simpl. lia.
  - destruct (N.eqb_spec k (last_index l + 1)); [lia | done].
Qed.

Lemma get_truncate_after l i k :
  log_wf l → i < u64_modulus → k < u64_modulus →
  get (truncate_after l i) k = if k <=? i then get l k else None.
Proof.
  intros H Hi Hk. pose proof (truncate_after_wf l i H Hi) as Hw. rewrite !get_eq by done.
  rewrite truncate_after_eq by done. simpl. rewrite lookup_take.
  destruct (N.ltb_spec (snapshot_index l) k), (N.leb_spec k i); try done; case_decide; done || lia.
Qed.

(** ** Slices *)

Lemma slice_eq l s e :
  log_wf l → s < u64_modulus → e < u64_modulus →
  slice l s e =
    Some (take (N.to_nat (N.min e (last_index l) + 1 - N.max s (snapshot_index l + 1)))
            (drop (N.to_nat (N.max s (snapshot_index l + 1) - snapshot_index l - 1)) (entries l))).
Proof.
  intros H Hs He. pose proof (last_index_bound l H) as Hlb. pose proof (last_index_eq l H) as Hle.
  unfold u64_max in *. unfold slice. rewrite (u64_add_small (snapshot_index l)) by ulia.
  set (a := N.max s (snapshot_index l + 1)). unfold is_empty.
  destruct (N.ltb_spec e a); simpl.
  { by replace (N.to_nat (N.min e (last_index l) + 1 - a)) with 0%nat by lia. }
  destruct (entries l) as [|x es] eqn:Hes; [by rewrite drop_nil, take_nil |].
  rewrite <- Hes in *. rewrite to_vec_index_eq by (done || lia).
  assert (1 ≤ length (entries l))%nat by (rewrite Hes; simpl; lia).
  rewrite (to_vec_index_eq l (N.min e (last_index l))) by (done || lia).
  rewrite u64_add_small by ulia. unfold vslice, vlen.
  destruct (N.leb_spec (N.of_nat (length (entries l))) (a - snapshot_index l - 1)); simpl.
  { by rewrite drop_ge, take_nil by lia. }
  destruct (N.leb_spec (N.min e (last_index l) - snapshot_index l - 1 + 1) (a - snapshot_index l - 1)); simpl.
  { by replace (N.to_nat (N.min e (last_index l) + 1 - a)) with 0%nat by lia. }
  destruct (N.leb_spec (a - snapshot_index l - 1) (N.min e (last_index l) - snapshot_index l - 1 + 1)); [|lia].
  destruct (N.leb_spec (N.min e (last_index l) - snapshot_index l - 1 + 1) (N.of_nat (length (entries l)))); [|lia].
  simpl. f_equal. f_equal. lia.
Qed.

(** ** The abstract log: a finite map from index to entry *)

Definition abs (l : Log) : gmap LogIndex Entry :=
  list_to_map (map (fun e => (e_index e, e)) (entries l)).

Lemma wf_NoDup l : log_wf l → NoDup (map e_index (entries l)).
Proof.
  intros H. rewrite NoDup_alt. intros i j x Hi Hj.
  apply list_lookup_fmap_Some in Hi as (e & -> & He).
  apply list_lookup_fmap_Some in Hj as (e' & Heq & He').
  rewrite (wf_index _ H _ _ He), (wf_index _ H _ _ He') in Heq. lia.
Qed.

Lemma abs_lookup l i e :
  log_wf l → abs l !! i = Some e ↔ e_index e = i ∧ e ∈ entries l.
Proof.
  intros H. unfold abs.
  assert (NoDup (map fst (map (fun e => (e_index e, e)) (entries l)))) as Hnd.
  { rewrite List.map_map. by apply wf_NoDup. }
  rewrite <- elem_of_list_to_map by done. rewrite list_elem_of_fmap. naive_solver.
Qed.

Lemma abs_get l i : log_wf l → i < u64_modulus → abs l !! i = get l i.
Proof.
  intros H Hi. apply option_eq. intros e. rewrite abs_lookup by done. split.
  - intros [<- [k Hk]%list_elem_of_lookup]. pose proof (wf_index _ H _ _ Hk) as Hx.
    rewrite get_eq by done. destruct (N.ltb_spec (snapshot_index l) (e_index e)); [|lia].
    by replace (N.to_nat (e_index e - snapshot_index l - 1)) with k by lia.
  - intros (_ & He & Hk)%get_Some; [|done..]. split; [done |]. by eapply list_elem_of_lookup_2.
Qed.

Lemma elem_of_take_index l n e :
  log_wf l → e ∈ take n (entries l) ↔ e ∈ entries l ∧ e_index e ≤ snapshot_index l + N.of_nat n.
Proof.
  intros H. rewrite !list_elem_of_lookup. split.
  - intros [k Hk]. rewrite lookup_take in Hk. case_decide; [|done].
    rewrite (wf_index _ H _ _ Hk). split; [eauto | lia].
  - intros [[k Hk] Hle]. rewrite (wf_index _ H _ _ Hk) in Hle. exists k.
    rewrite lookup_take. case_decide; [done | lia].
Qed.

Lemma elem_of_drop_index l n e :
  log_wf l → e ∈ drop n (entries l) ↔ e ∈ entries l ∧ snapshot_index l + N.of_nat n < e_index e.
Proof.
  intros H. rewrite !list_elem_of_lookup. split.
  - intros [k Hk]. rewrite lookup_drop in Hk. rewrite (wf_index _ H _ _ Hk). split; [eauto | lia].
  - intros [[k Hk] Hlt]. rewrite (wf_index _ H _ _ Hk) in Hlt. exists (k - n)%nat.
    rewrite lookup_drop. by replace (n + (k - n))%nat with k by lia.
Qed.

Lemma abs_truncate_after l i :
  log_wf l → i < u64_modulus → abs (truncate_after l i) = filter (fun kv => kv.1 ≤ i) (abs l).
Proof.
  intros H Hi. apply map_eq. intros j. apply option_eq. intros e.
  rewrite abs_lookup by (by apply truncate_after_wf). rewrite map_lookup_filter_Some, abs_lookup by done.
  rewrite truncate_after_eq by done. simpl. rewrite elem_of_take_index by done. simpl.
  split; [intros (<- & He & Hle) | intros [[<- He] Hle]]; split_and!; try done;
    apply list_elem_of_lookup in He as [k Hk]; pose proof (wf_index _ H _ _ Hk); lia.
Qed.

Lemma abs_truncate_prefix l i t :
  log_wf l → i < u64_max → abs (truncate_prefix l i t) = filter (fun kv => i < kv.1) (abs l).
Proof.
  intros H Hi. apply map_eq. intros j. apply option_eq. intros e.
  rewrite abs_lookup by (by apply truncate_prefix_wf). rewrite map_lookup_filter_Some, abs_lookup by done.
  simpl. destruct (N.leb_spec i (snapshot_index l)) as [|Hlt].
  - unfold truncate_prefix. destruct (N.leb_spec i (snapshot_index l)); [|lia].
    split; [|naive_solver]. intros [<- He]. split; [done |].
    apply list_elem_of_lookup in He as [k Hk]. pose proof (wf_index _ H _ _ Hk). lia.
  - rewrite truncate_prefix_eq by (done || ulia). simpl. rewrite elem_of_drop_index by done.
    split; [intros (<- & He & ?) | intros [[<- He] ?]]; split_and!; try done; lia.
Qed.

Lemma abs_append l e :
  log_wf l → e_index e = last_index l + 1 → e_index e < u64_max →
  abs (append l e) = <[e_index e := e]> (abs l).
Proof.
  intros H He Hb. apply map_eq. intros j. apply option_eq. intros x.
  rewrite abs_lookup by (by apply append_wf). simpl.
  rewrite lookup_insert_Some, abs_lookup by done.
  rewrite elem_of_app, list_elem_of_singleton.
  split; [intros [<- [Hx| ->]] | intros [[<- <-] | (Hne & <- & Hx)]]; try naive_solver.
  right. split_and!; [|done..]. apply list_elem_of_lookup in Hx as [k Hk].
  rewrite (wf_index _ H _ _ Hk). pose proof (lookup_lt_Some _ _ _ Hk).
  rewrite He, last_index_eq by done. lia.
Qed.

(** ** Properties *)

(** C32: the vector operations of [Log] implement the operations of an abstract
    log that maps indices to entries: [append] adds the next index,
    [truncate_after] keeps the indices up to its argument, [truncate_prefix]
    keeps those after it, and [get] is lookup. *)
Theorem log_ops_refine l e i t :
  log_wf l → i < u64_max → e_index e = last_index l + 1 → e_index e < u64_max →
  get l i = abs l !! i ∧
  abs (append l e) = <[e_index e := e]> (abs l) ∧
  abs (truncate_after l i) = filter (fun kv => kv.1 ≤ i) (abs l) ∧
  abs (truncate_prefix l i t) = filter (fun kv => i < kv.1) (abs l).
Proof.
  intros H Hi He Hb. split_and!.
  - symmetry. apply abs_get; [done | ulia].
  - by apply abs_append.
  - apply abs_truncate_after; [done | ulia].
  - by apply abs_truncate_prefix.
Qed.

Definition sample_log : Log :=
  mkLog [mkEntry 1 3 (PCommand (mkCommand [])); mkEntry 2 4 (PConfig (simple [1; 2]))] 2 1 None.

Lemma sample_log_wf : log_wf sample_log.
Proof. split; [|done]. intros [|[|i]] e; simpl; [intros [= <-]; done.. | done]. Qed.

Lemma log_ops_refine_witness :
  get sample_log 4 = abs sample_log !! 4 ∧
  abs (append sample_log (mkEntry 2 5 (PCommand (mkCommand [])))) !! 5 =
    Some (mkEntry 2 5 (PCommand (mkCommand []))).
Proof.
  destruct (log_ops_refine sample_log (mkEntry 2 5 (PCommand (mkCommand []))) 4 2)
    as (Hget & Happ & _); [apply sample_log_wf | done..|].
  split; [exact Hget |]. rewrite Happ. reflexivity.
Defined.

(** C33: every operation that changes the log preserves the invariant of log.rs
    (contiguous entries after the snapshot boundary, each carrying its own index,
    no 64-bit overflow of the next index), for [append] of the next index. *)
Theorem log_ops_preserve_wf l e i t c :
  log_wf l → i < u64_max → e_index e = last_index l + 1 → e_index e < u64_max →
  log_wf default_log ∧ log_wf (append l e) ∧ log_wf (truncate_after l i) ∧
  log_wf (truncate_prefix l i t) ∧ log_wf (install_snapshot l i t c).
Proof.
  intros H Hi He Hb. assert (i < u64_modulus) by ulia. split_and!; auto with log.
Qed.

Lemma log_ops_preserve_wf_witness :
  log_wf (append sample_log (mkEntry 2 5 (PCommand (mkCommand [])))) ∧
  log_wf (install_snapshot sample_log 3 1 (simple [1])).
Proof.
  destruct (log_ops_preserve_wf sample_log (mkEntry 2 5 (PCommand (mkCommand []))) 3 1 (simple [1]))
    as (_ & Ha & _ & _ & Hs); [apply sample_log_wf | done..|]. split; [exact Ha | exact Hs].
Defined.

(** On a well-formed log [slice] never panics and returns exactly the
    entries whose index is in [start..=end], in index order. *)
Theorem slice_exact l s e :
  log_wf l → s < u64_modulus → e < u64_modulus →
  ∃ es, slice l s e = Some es ∧
    (∀ x, x ∈ es ↔ x ∈ entries l ∧ s ≤ e_index x ≤ e) ∧
    (∀ k x, es !! k = Some x → e_index x = N.max s (snapshot_index l + 1) + N.of_nat k).
Proof.
  intros H Hs He. pose proof (last_index_eq l H) as Hl.
  set (a := N.max s (snapshot_index l + 1)).
  set (n := N.to_nat (a - snapshot_index l - 1)).
  set (m := N.to_nat (N.min e (last_index l) + 1 - a)).
  exists (take m (drop n (entries l))). split; [by apply slice_eq |].
  assert (∀ k x, take m (drop n (entries l)) !! k = Some x ↔
                 (k < m)%nat ∧ entries l !! (n + k)%nat = Some x) as Hlk.
  { intros k x. rewrite lookup_take, lookup_drop. case_decide; naive_solver. }
  split.
  - intros x. rewrite !list_elem_of_lookup. split.
    + intros [k Hk]. apply Hlk in Hk as [Hkm Hk]. rewrite (wf_index _ H _ _ Hk).
      split; [eauto |]. subst n m a. lia.
    + intros [[k Hk] Hb]. rewrite (wf_index _ H _ _ Hk) in Hb. pose proof (lookup_lt_Some _ _ _ Hk).
      exists (k - n)%nat. apply Hlk. replace (n + (k - n))%nat with k by (subst n a; lia).
      split; [subst n m a; lia | done].
  - intros k x Hk. apply Hlk in Hk as [_ Hk]. rewrite (wf_index _ H _ _ Hk). subst n a. lia.
Qed.

Lemma slice_exact_witness :
  ∃ es, slice sample_log 1 3 = Some es ∧ (∀ x, x ∈ es ↔ x ∈ entries sample_log ∧ 1 ≤ e_index x ≤ 3).
Proof.
  destruct (slice_exact sample_log 1 3) as (es & Hs & Hin & _); [apply sample_log_wf | done..|].
  exists es. split; [exact Hs | exact Hin].
Defined.

(** ** Configuration lookup *)

Lemma latest_config_app es1 es2 :
  latest_config (es1 ++ es2) =
  match latest_config es2 with Some c => Some c | None => latest_config es1 end.
Proof.
  induction es1 as [|e es1 IH]; simpl; [by destruct (latest_config es2) |].
  rewrite IH. by destruct (latest_config es2).
Qed.

Lemma config_at_eq l i :
  log_wf l → snapshot_index l ≤ i < u64_modulus →
  config_at l i =
  match latest_config (take (N.to_nat (i - snapshot_index l)) (entries l)) with
  | Some c => Some c
  | None => snapshot_config l
  end.
Proof.
  intros H Hi. unfold config_at. destruct (N.leb_spec i (snapshot_index l)).
  - by replace (N.to_nat (i - snapshot_index l)) with 0%nat by lia.
  - rewrite to_vec_index_eq by (done || lia). rewrite u64_add_small by lia. unfold vtruncate.
    replace (i - snapshot_index l - 1 + 1) with (i - snapshot_index l) by lia.
    destruct (N.le_ge_cases (i - snapshot_index l) (vlen (entries l))).
    + by rewrite N.min_l.
    + rewrite N.min_r by done. unfold vlen in *. rewrite !take_ge by lia. done.
Qed.

Lemma config_at_last l : log_wf l →
  config_at l (last_index l) =
  match latest_config (entries l) with Some c => Some c | None => snapshot_config l end.
Proof.
  intros H. pose proof (last_index_bound l H). rewrite config_at_eq by (done || ulia).
  rewrite take_ge; [done |]. rewrite last_index_eq by done. lia.
Qed.

(** Compaction is transparent for configurations: after [truncate_prefix]
    the configuration in effect at every index from the new boundary on is the
    one the full log gave. *)
Theorem truncate_prefix_config l i t j :
  log_wf l → snapshot_index l ≤ i ≤ j → j < u64_max → i ≤ last_index l →
  config_at (truncate_prefix l i t) j = config_at l j.
Proof.
  intros H [Hi Hij] Hj Hil. destruct (decide (i = snapshot_index l)) as [->|Hne].
  { unfold truncate_prefix. by rewrite N.leb_refl. }
  pose proof (truncate_prefix_wf l i t H ltac:(lia)) as Hwf.
  rewrite truncate_prefix_eq in * by (done || ulia).
  rewrite (config_at_eq l j), (config_at_eq (mkLog _ _ _ _)) by (done || simpl; ulia). simpl.
  rewrite (config_at_eq l i) by (done || ulia).
  replace (N.to_nat (j - snapshot_index l))
    with (N.to_nat (i - snapshot_index l) + N.to_nat (j - i))%nat by lia.
  set (n := N.to_nat (i - snapshot_index l)). set (m := N.to_nat (j - i)).
  rewrite <- (take_drop n (take (n + m) (entries l))).
  rewrite latest_config_app, take_take, skipn_firstn_comm.
  replace (n `min` (n + m))%nat with n by lia. replace (n + m - n)%nat with m by lia.
  by destruct (latest_config (take m (drop n (entries l)))).
Qed.

Lemma truncate_prefix_config_witness :
  config_at (truncate_prefix sample_log 4 2) 5 = config_at sample_log 5 ∧
  config_at sample_log 5 = Some (simple [1; 2]).
Proof.
  split; [|reflexivity]. apply (truncate_prefix_config sample_log 4 2 5 sample_log_wf); [|done..]. done.
Defined.
