(* ===== verification/Event.v ===== *)
(** * Events, messages and effects

    consensus/cloud9-raft/src/raft/event.rs: the inputs of the Raft automaton, the
    messages nodes exchange, and the effects a step asks its caller to perform.
    Record fields carry a prefix per message type because Rocq projections share
    one name space. *)

From S2P Require Import Prelude BTree Membership Log.

Open Scope N_scope.

Record PreVoteRequest := mkPreVoteRequest {
  pvq_next_term : Term; pvq_last_log_index : LogIndex; pvq_last_log_term : Term }.

Record PreVoteResponse := mkPreVoteResponse { pvr_term : Term; pvr_granted : bool }.

Record VoteRequest := mkVoteRequest { vq_last_log_index : LogIndex; vq_last_log_term : Term }.

Record VoteResponse := mkVoteResponse { vr_granted : bool }.

Record AppendRequest := mkAppendRequest {
  aq_prev_log_index : LogIndex;
  aq_prev_log_term : Term;
  aq_entries : list Entry;
  aq_leader_commit : LogIndex }.

Record AppendResponse := mkAppendResponse { ar_success : bool; ar_last_log_index : LogIndex }.

Record ReadIndexRequest := mkReadIndexRequest { rq_id : N; rq_read_index : LogIndex }.

Record ReadIndexResponse := mkReadIndexResponse { rr_id : N; rr_read_index : LogIndex }.

Record InstallSnapshotRequest := mkInstallSnapshotRequest {
  iq_last_included_index : LogIndex;
  iq_last_included_term : Term;
  iq_configuration : Configuration }.

Record InstallSnapshotResponse := mkInstallSnapshotResponse {
  ir_success : bool; ir_last_included_index : LogIndex }.

Inductive Payload :=
| PPreVoteRequest (q : PreVoteRequest)
| PPreVoteResponse (r : PreVoteResponse)
| PVoteRequest (q : VoteRequest)
| PVoteResponse (r : VoteResponse)
| PAppendRequest (q : AppendRequest)
| PAppendResponse (r : AppendResponse)
| PInstallSnapshotRequest (q : InstallSnapshotRequest)
| PInstallSnapshotResponse (r : InstallSnapshotResponse)
| PReadIndexRequest (q : ReadIndexRequest)
| PReadIndexResponse (r : ReadIndexResponse)
| PTimeoutNow.

Record Message := mkMessage {
  msg_from : NodeId; msg_to : NodeId; msg_term : Term; msg_payload : Payload }.

Inductive Event :=
| ETick
| EMessage (m : Message)
| EDiskWriteComplete (index : LogIndex).

Record SendSnapshot := mkSendSnapshot {
  ss_to : NodeId;
  ss_last_included_index : LogIndex;
  ss_last_included_term : Term;
  ss_configuration : Configuration }.

Record Effects := mkEffects {
  persist : bool; messages : list Message; send_snapshots : list SendSnapshot }.

Definition none : Effects := mkEffects false [] [].

Definition with_persist (e : Effects) : Effects := mkEffects true (messages e) (send_snapshots e).

Definition with_message (e : Effects) (m : Message) : Effects :=
  mkEffects (persist e) (messages e ++ [m]) (send_snapshots e).

Definition with_messages (e : Effects) (ms : list Message) : Effects :=
  mkEffects (persist e) (messages e ++ ms) (send_snapshots e).

Definition with_send_snapshot (e : Effects) (s : SendSnapshot) : Effects :=
  mkEffects (persist e) (messages e) (send_snapshots e ++ [s]).

Definition merge (e other : Effects) : Effects :=
  mkEffects (persist e || persist other) (messages e ++ messages other)
    (send_snapshots e ++ send_snapshots other).

Lemma merge_none_l e : merge none e = e.
Proof. by destruct e. Qed.

Lemma merge_none_r e : merge e none = e.
Proof. destruct e. unfold merge. simpl. by rewrite orb_false_r, !app_nil_r. Qed.

Lemma merge_assoc a b c : merge a (merge b c) = merge (merge a b) c.
Proof. unfold merge. simpl. by rewrite orb_assoc, !app_assoc. Qed.
