(* ===== verification/Core.v ===== *)
(** * Core state shared by all roles

    consensus/cloud9-raft/src/raft/core.rs: node configuration, persistent state,
    the core state and its operations. Operations on [&mut Core] take the core and
    return the new one; an operation that can panic returns [option] with [None]
    for the panic ([random_election_timeout] on an empty range,
    [proposal_limit_exceeded] on its assertion and on the slice it takes).
    64-bit additions wrap as in a release build. *)

From S2P Require Import Prelude BTree Membership Log Event.

Open Scope N_scope.

(** ** Configuration of a node *)

Record Config := mkConfig {
  id : NodeId;
  election_timeout : N * N;
  heartbeat_interval : N;
  max_entries_per_msg : N;
  max_uncommitted_entries : N;
  max_uncommitted_bytes : N;
  membership_mode : MembershipMode;
  prevote : bool;
  parallel_disk_write : bool;
  pipelining : bool
}.

Definition config_new (id : NodeId) : Config :=
  mkConfig id (150, 300) 75 100 1024 (64 * 1024 * 1024) SingleServer true true true.

Definition with_membership_mode (c : Config) (mode : MembershipMode) : Config :=
  mkConfig (id c) (election_timeout c) (heartbeat_interval c) (max_entries_per_msg c)
    (max_uncommitted_entries c) (max_uncommitted_bytes c) mode (prevote c)
    (parallel_disk_write c) (pipelining c).

Definition with_election_timeout (c : Config) (min max : N) : Config :=
  mkConfig (id c) (min, max) (heartbeat_interval c) (max_entries_per_msg c)
    (max_uncommitted_entries c) (max_uncommitted_bytes c) (membership_mode c) (prevote c)
    (parallel_disk_write c) (pipelining c).

Definition with_heartbeat_interval (c : Config) (interval : N) : Config :=
  mkConfig (id c) (election_timeout c) interval (max_entries_per_msg c)
    (max_uncommitted_entries c) (max_uncommitted_bytes c) (membership_mode c) (prevote c)
    (parallel_disk_write c) (pipelining c).

Definition with_prevote (c : Config) (enabled : bool) : Config :=
  mkConfig (id c) (election_timeout c) (heartbeat_interval c) (max_entries_per_msg c)
    (max_uncommitted_entries c) (max_uncommitted_bytes c) (membership_mode c) enabled
    (parallel_disk_write c) (pipelining c).

Definition with_parallel_disk_write (c : Config) (enabled : bool) : Config :=
  mkConfig (id c) (election_timeout c) (heartbeat_interval c) (max_entries_per_msg c)
    (max_uncommitted_entries c) (max_uncommitted_bytes c) (membership_mode c) (prevote c)
    enabled (pipelining c).

Definition with_pipelining (c : Config) (enabled : bool) : Config :=
  mkConfig (id c) (election_timeout c) (heartbeat_interval c) (max_entries_per_msg c)
    (max_uncommitted_entries c) (max_uncommitted_bytes c) (membership_mode c) (prevote c)
    (parallel_disk_write c) enabled.

Definition default_config : Config := config_new 0.

(** ** Persistent state and core *)

Record Persistent := mkPersistent {
  p_term : Term;
  voted_for : option NodeId;
  p_log : Log;
  bootstrap_config : Configuration
}.

Definition default_persistent : Persistent := mkPersistent 0 None default_log default_configuration.

Record Core := mkCore {
  config : Config;
  persistent : Persistent;
  commit_index : LogIndex;
  last_applied : LogIndex;
  ticks : N;
  rng : N
}.

Definition set_persistent (c : Core) (p : Persistent) : Core :=
  mkCore (config c) p (commit_index c) (last_applied c) (ticks c) (rng c).
Definition set_commit_index (c : Core) (i : LogIndex) : Core :=
  mkCore (config c) (persistent c) i (last_applied c) (ticks c) (rng c).
Definition set_last_applied (c : Core) (i : LogIndex) : Core :=
  mkCore (config c) (persistent c) (commit_index c) i (ticks c) (rng c).
Definition set_ticks (c : Core) (t : N) : Core :=
  mkCore (config c) (persistent c) (commit_index c) (last_applied c) t (rng c).
Definition set_rng (c : Core) (r : N) : Core :=
  mkCore (config c) (persistent c) (commit_index c) (last_applied c) (ticks c) r.

Definition seed_rng (config : Config) : N :=
  u64_wrapping_mul (id config) 25214903917 +u 11.

Definition core_new (config : Config) (voters : list NodeId) : Core :=
  mkCore config
    (mkPersistent (p_term default_persistent) (voted_for default_persistent)
       (p_log default_persistent) (simple voters))
    0 0 0 (seed_rng config).

Definition core_restore (config : Config) (persistent : Persistent) : Core :=
  mkCore config persistent 0 0 0 (seed_rng config).

Definition core_id (c : Core) : NodeId := id (config c).

Definition term (c : Core) : Term := p_term (persistent c).

Definition log (c : Core) : Log := p_log (persistent c).

(** [core.log_mut()] followed by an assignment of the log. *)
Definition set_log (c : Core) (l : Log) : Core :=
  set_persistent c
    (mkPersistent (p_term (persistent c)) (voted_for (persistent c)) l (bootstrap_config (persistent c))).

(** ** Admission of proposals *)

Definition command_bytes (e : Entry) : option N :=
  match e_payload e with PCommand c => Some (vlen (cmd_bytes c)) | PConfig _ => None end.

Fixpoint try_fold_add (total : N) (bytes : list N) : option N :=
  match bytes with
  | [] => Some total
  | b :: rest => let* total' := u64_checked_add total b in try_fold_add total' rest
  end.

Definition proposal_limit_exceeded (c : Core) (command : Command) : option bool :=
  let last_index := last_index (log c) in
  if commit_index c <=? last_index then
    let* entries := slice (log c) (commit_index c +u 1) last_index in
    if max_uncommitted_entries (config c) <=? vlen entries then Some true
    else
      Some (match try_fold_add 0 (omap command_bytes entries ++ [vlen (cmd_bytes command)]) with
            | None => true
            | Some bytes => max_uncommitted_bytes (config c) <? bytes
            end)
  else None.

(** ** Terms and votes *)

Definition maybe_update_term (c : Core) (t : Term) : bool * Core :=
  if term c <? t
  then (true, set_persistent c (mkPersistent t None (log c) (bootstrap_config (persistent c))))
  else (false, c).

(** Latest configuration of the log, or the bootstrap configuration. *)
Definition core_config_at (c : Core) (index : LogIndex) : Configuration :=
  match config_at (log c) index with Some cfg => cfg | None => bootstrap_config (persistent c) end.

Definition effective_config (c : Core) : Configuration := core_config_at c (last_index (log c)).

Definition core_pending_config_index (c : Core) : option LogIndex :=
  pending_config_index (log c) (commit_index c).

Definition has_pending_config (c : Core) : bool :=
  match core_pending_config_index c with Some _ => true | None => false end.

Definition core_is_voter (c : Core) : bool := is_voter (effective_config c) (core_id c).

Definition start_election (c : Core) : Core :=
  let can_vote_for_self := core_is_voter c in
  set_persistent c
    (mkPersistent (term c +u 1) (if can_vote_for_self then Some (core_id c) else None)
       (log c) (bootstrap_config (persistent c))).

Definition vote_for (c : Core) (candidate : NodeId) : Core :=
  set_persistent c
    (mkPersistent (term c) (Some candidate) (log c) (bootstrap_config (persistent c))).

Definition can_vote_for (c : Core) (candidate : NodeId) : bool :=
  match voted_for (persistent c) with None => true | Some v => v =? candidate end.

(** [(last_term, last_index) >= (our_term, our_index)], the lexicographic order. *)
Definition log_is_up_to_date (c : Core) (t : Term) (i : LogIndex) : bool :=
  let our_term := last_term (log c) in
  let our_index := last_index (log c) in
  (our_term <? t) || ((our_term =? t) && (our_index <=? i)).

(** ** Randomised timeouts *)

Definition rand (c : Core) : N * Core :=
  let r1 := N.lxor (rng c) (u64_shl (rng c) 13) in
  let r2 := N.lxor r1 (N.shiftr r1 7) in
  let r3 := N.lxor r2 (u64_shl r2 17) in
  (r3, set_rng c r3).

(** [%] by zero panics. *)
Definition random_election_timeout (c : Core) : option (N * Core) :=
  let '(min, max) := election_timeout (config c) in
  let '(r, c') := rand c in
  if max -u min =? 0 then None else Some (min +u (r mod (max -u min)), c').
