(* ===== verification/Role.v ===== *)
(** * Role transitions

    The part of consensus/cloud9-raft/src/raft/mod.rs the roles return: a step of a
    role asks for a transition and produces effects. *)

From S2P Require Import Prelude BTree Membership Log Event.

Inductive Transition :=
| Stay
| ToFollower (leader : option NodeId)
| ToFollowerAfterContact (leader : option NodeId)
| ToPreCandidate
| ToCandidate
| ToLeader.

Record StepResult := mkStepResult { transition : Transition; effects : Effects }.

Definition stay (e : Effects) : StepResult := mkStepResult Stay e.
Definition step_none : StepResult := stay none.
Definition to_follower (leader : option NodeId) (e : Effects) : StepResult :=
  mkStepResult (ToFollower leader) e.
Definition to_follower_after_contact (leader : option NodeId) (e : Effects) : StepResult :=
  mkStepResult (ToFollowerAfterContact leader) e.
Definition to_precandidate (e : Effects) : StepResult := mkStepResult ToPreCandidate e.
Definition to_candidate (e : Effects) : StepResult := mkStepResult ToCandidate e.
Definition to_leader (e : Effects) : StepResult := mkStepResult ToLeader e.

(** [matches!(payload, ..)] tests the roles use. *)
Definition is_vote_request (p : Payload) : bool :=
  match p with PVoteRequest _ | PPreVoteRequest _ => true | _ => false end.
Definition is_append_request (p : Payload) : bool :=
  match p with PAppendRequest _ => true | _ => false end.
Definition is_append_or_read_request (p : Payload) : bool :=
  match p with PAppendRequest _ | PReadIndexRequest _ => true | _ => false end.
