(* ===== verification/Follower.v ===== *)
(** * Follower role

    consensus/cloud9-raft/src/raft/follower.rs: every handler of the follower, its
    log replication loop and its election guard. A handler takes the role state
    and the core and returns both with the step result; [None] is a panic. *)

From S2P Require Import Prelude BTree Membership Log Event Core Role.

Open Scope N_scope.

Record Follower := mkFollower {
  leader : option NodeId;
  election_deadline : N;
  last_contact_tick : option N
}.

Definition new (c : Core) (leader : option NodeId) : option (Follower * Core) :=
  let* (timeout, c) := random_election_timeout c in
  Some (mkFollower leader (ticks c +u timeout) None, c).

Definition after_leader_contact (c : Core) (leader : option NodeId) : option (Follower * Core) :=
  let* (f, c) := new c leader in
  Some (mkFollower (Follower.leader f) (election_deadline f) (Some (ticks c)), c).

Definition ticks_until_deadline (f : Follower) (t : N) : N :=
  u64_saturating_sub (election_deadline f) t.

Definition set_leader (f : Follower) (l : option NodeId) : Follower :=
  mkFollower l (election_deadline f) (last_contact_tick f).

Definition record_contact (f : Follower) (c : Core) : Follower :=
  mkFollower (leader f) (election_deadline f) (Some (ticks c)).

Definition reset_deadline (f : Follower) (c : Core) : option (Follower * Core) :=
  let* (timeout, c) := random_election_timeout c in
  Some (mkFollower (leader f) (ticks c +u timeout) (last_contact_tick f), c).

Definition recently_heard_from_leader (f : Follower) (c : Core) : bool :=
  match leader f, last_contact_tick f with
  | Some _, Some last_contact_tick =>
      u64_saturating_sub (ticks c) last_contact_tick <? (election_timeout (config c)).1
  | _, _ => false
  end.

Definition handle_tick (f : Follower) (c : Core) : Follower * Core * StepResult :=
  let c := set_ticks c (ticks c +u 1) in
  if election_deadline f <=? ticks c
  then if prevote (config c) then (f, c, to_precandidate none) else (f, c, to_candidate none)
  else (f, c, step_none).

Definition handle_vote_request (f : Follower) (c : Core) (from : NodeId) (req : VoteRequest)
    : option (Follower * Core * StepResult) :=
  let dominated := log_is_up_to_date c (vq_last_log_term req) (vq_last_log_index req) in
  let candidate_is_voter := is_voter (effective_config c) from in
  let can_vote := can_vote_for c from in
  let granted := candidate_is_voter && can_vote && dominated in
  let* (f, c, effects) :=
    (if granted then
       let c := vote_for c from in
       let* (f, c) := reset_deadline f c in
       Some (f, c, with_persist none)
     else Some (f, c, none)) in
  Some (f, c, stay (with_message effects
    (mkMessage (core_id c) from (term c) (PVoteResponse (mkVoteResponse granted))))).

(** The loop over [req.entries]: truncate on a conflicting term, append what the
    log does not reach; the flag is [persist]. *)
Fixpoint append_entries (l : Log) (persist : bool) (es : list Entry) : Log * bool :=
  match es with
  | [] => (l, persist)
  | entry :: rest =>
      let existing_term := term_at l (e_index entry) in
      let l :=
        if negb (existing_term =? 0) && negb (existing_term =? e_term entry)
        then truncate_after l (e_index entry -u 1) else l in
      if last_index l <? e_index entry
      then append_entries (append l (mkEntry (e_term entry) (e_index entry) (e_payload entry))) true rest
      else append_entries l persist rest
  end.

Definition append_response (c : Core) (from : NodeId) (success : bool) : Message :=
  mkMessage (core_id c) from (term c)
    (PAppendResponse (mkAppendResponse success (last_index (log c)))).

Definition handle_append_request (f : Follower) (c : Core) (from : NodeId) (req : AppendRequest)
    : option (Follower * Core * StepResult) :=
  let f := set_leader f (Some from) in
  let f := record_contact f c in
  let* (f, c) := reset_deadline f c in
  if (0 <? aq_prev_log_index req) &&
     negb (term_at (log c) (aq_prev_log_index req) =? aq_prev_log_term req)
  then Some (f, c, stay (with_message none (append_response c from false)))
  else
    let '(l, persist) := append_entries (log c) false (aq_entries req) in
    let c := set_log c l in
    let c :=
      if commit_index c <? aq_leader_commit req
      then set_commit_index c (N.min (aq_leader_commit req) (last_index (log c))) else c in
    let effects := if persist then with_persist none else none in
    Some (f, c, stay (with_message effects (append_response c from true))).

Definition handle_read_index_request (f : Follower) (c : Core) (from : NodeId)
    (req : ReadIndexRequest) : option (Follower * Core * StepResult) :=
  let f := set_leader f (Some from) in
  let f := record_contact f c in
  let* (f, c) := reset_deadline f c in
  Some (f, c, stay (with_message none
    (mkMessage (core_id c) from (term c)
       (PReadIndexResponse (mkReadIndexResponse (rq_id req) (rq_read_index req)))))).

Definition install_response (c : Core) (from : NodeId) (success : bool) (i : LogIndex) : Message :=
  mkMessage (core_id c) from (term c)
    (PInstallSnapshotResponse (mkInstallSnapshotResponse success i)).

Definition handle_install_snapshot (f : Follower) (c : Core) (from : NodeId)
    (req : InstallSnapshotRequest) : option (Follower * Core * StepResult) :=
  let f := set_leader f (Some from) in
  let f := record_contact f c in
  let* (f, c) := reset_deadline f c in
  let i := iq_last_included_index req in
  if i <=? snapshot_index (log c)
  then Some (f, c, stay (with_message none (install_response c from false i)))
  else if (i <? commit_index c) && negb (snapshot_matches_prefix (log c) i (iq_last_included_term req))
  then Some (f, c, stay (with_message none (install_response c from false i)))
  else
    let c := set_log c (install_snapshot (log c) i (iq_last_included_term req) (iq_configuration req)) in
    let c := if commit_index c <? i then set_commit_index c i else c in
    let c := if last_applied c <? i then set_last_applied c i else c in
    Some (f, c, stay (with_message (with_persist none) (install_response c from true i))).

Definition reject_stale (c : Core) (m : Message) : Effects :=
  let reply p := with_message none (mkMessage (core_id c) (msg_from m) (term c) p) in
  match msg_payload m with
  | PVoteRequest _ => reply (PVoteResponse (mkVoteResponse false))
  | PAppendRequest _ => reply (PAppendResponse (mkAppendResponse false (last_index (log c))))
  | PReadIndexRequest req =>
      reply (PReadIndexResponse (mkReadIndexResponse (rq_id req) (rq_read_index req)))
  | _ => none
  end.

Definition reject_due_to_active_leader (c : Core) (m : Message) : Effects :=
  let reply p := with_message none (mkMessage (core_id c) (msg_from m) (term c) p) in
  match msg_payload m with
  | PPreVoteRequest _ => reply (PPreVoteResponse (mkPreVoteResponse (term c) false))
  | PVoteRequest _ => reply (PVoteResponse (mkVoteResponse false))
  | _ => none
  end.

Definition handle_prevote_request (c : Core) (from : NodeId) (term_of_msg : Term)
    (req : PreVoteRequest) : Effects :=
  let dominated := log_is_up_to_date c (pvq_last_log_term req) (pvq_last_log_index req) in
  let candidate_is_voter := is_voter (effective_config c) from in
  let term_ok := term c <? pvq_next_term req in
  let granted := candidate_is_voter && term_ok && dominated in
  with_message none (mkMessage (core_id c) from term_of_msg
    (PPreVoteResponse (mkPreVoteResponse (term c) granted))).

(** The "higher term" block of [step]: the new role, core and [term_updated]. *)
Definition observe_term (f : Follower) (c : Core) (m : Message) : option (Follower * Core * bool) :=
  if term c <? msg_term m then
    let '(term_updated, c) := maybe_update_term c (msg_term m) in
    let* (f, c) := reset_deadline f c in
    let f := if is_append_or_read_request (msg_payload m) then set_leader f (Some (msg_from m)) else f in
    Some (f, c, term_updated)
  else Some (f, c, false).

(** The [match msg.payload] of [step] at the node's own term. *)
Definition dispatch (f : Follower) (c : Core) (m : Message) : option (Follower * Core * StepResult) :=
  match msg_payload m with
  | PVoteRequest req => handle_vote_request f c (msg_from m) req
  | PAppendRequest req => handle_append_request f c (msg_from m) req
  | PReadIndexRequest req => handle_read_index_request f c (msg_from m) req
  | PInstallSnapshotRequest req => handle_install_snapshot f c (msg_from m) req
  | PTimeoutNow => Some (f, c, to_candidate none)
  | _ => Some (f, c, step_none)
  end.

Definition step_message (f : Follower) (c : Core) (m : Message) : option (Follower * Core * StepResult) :=
  if is_vote_request (msg_payload m) && recently_heard_from_leader f c
  then Some (f, c, stay (reject_due_to_active_leader c m))
  else match msg_payload m with
       | PPreVoteRequest req =>
           Some (f, c, stay (handle_prevote_request c (msg_from m) (msg_term m) req))
       | _ =>
           let* (f, c, term_updated) := observe_term f c m in
           if msg_term m <? term c then Some (f, c, stay (reject_stale c m))
           else
             let* (f, c, r) := dispatch f c m in
             Some (f, c, if term_updated
                         then mkStepResult (transition r) (with_persist (effects r)) else r)
       end.

Definition step (f : Follower) (c : Core) (e : Event) : option (Follower * Core * StepResult) :=
  match e with
  | ETick => Some (handle_tick f c)
  | EDiskWriteComplete _ => Some (f, c, step_none)
  | EMessage m => step_message f c m
  end.

(** ** The replication loop *)

(** Entries of a log or of a request never carry term 0: a leader's term is at
    least 1. *)
Definition terms_pos (l : Log) : Prop := Forall (fun e => e_term e ≠ 0) (entries l).

(** The entries of a request that continues index [prev]. *)
Record batch (prev : LogIndex) (es : list Entry) : Prop := {
  batch_index : ∀ j e, es !! j = Some e → e_index e = prev + 1 + N.of_nat j;
  batch_term : ∀ j e, es !! j = Some e → e_term e ≠ 0;
  batch_bound : prev + vlen es < u64_max
}.

Lemma batch_cons prev e es :
  batch prev (e :: es) → e_index e = prev + 1 ∧ e_term e ≠ 0 ∧ prev + 1 < u64_max ∧ batch (prev + 1) es.
Proof.
  intros [Hi Ht Hb]. pose proof (Hi 0%nat e eq_refl) as H0. pose proof (Ht 0%nat e eq_refl).
  unfold vlen in Hb. simpl in Hb. split_and!; [lia | done | lia |]. split.
  - intros j x Hx. rewrite (Hi (S j) x Hx). lia.
  - intros j x Hx. by apply (Ht (S j)).
  - unfold vlen. lia.
Qed.

Lemma terms_pos_get l i e : log_wf l → i < u64_modulus → terms_pos l → get l i = Some e → e_term e ≠ 0.
Proof.
  intros H Hi Hp Hg. apply get_Some in Hg as (_ & _ & He); [|done..].
  unfold terms_pos in Hp. rewrite Forall_lookup in Hp. eauto.
Qed.

Lemma term_at_range l i :
  log_wf l → terms_pos l → snapshot_index l < i < u64_modulus → term_at l i ≠ 0 ↔ i ≤ last_index l.
Proof.
  intros H Hp Hi. split; [intros Hz; apply term_at_nonzero in Hz; [lia | done | lia] |]. intros Hle.
  destruct (get_in_range l i) as [e He]; [done | lia |].
  rewrite term_at_get by (done || lia). rewrite He.
  destruct (N.eqb_spec i 0), (N.eqb_spec i (snapshot_index l)); [lia..|].
  apply (terms_pos_get l i); [done | lia | done..].
Qed.

Lemma truncate_after_last_id l : log_wf l → truncate_after l (last_index l) = l.
Proof.
  intros H. pose proof (last_index_bound l H). rewrite truncate_after_eq by (done || ulia).
  rewrite take_ge; [by destruct l |]. rewrite last_index_eq by done. lia.
Qed.

(** One iteration, on the entry after [prev]: keep the log when it already holds
    an entry of that term there, replace the tail otherwise. *)
Lemma append_entries_cons l p prev e es :
  log_wf l → terms_pos l → snapshot_index l ≤ prev ≤ last_index l → batch prev (e :: es) →
  append_entries l p (e :: es) =
    if term_at l (prev + 1) =? e_term e then append_entries l p es
    else append_entries (append (truncate_after l prev) e) true es.
Proof.
  intros H Hp Hr Hb. apply batch_cons in Hb as (Hi & Ht & Hlt & _). simpl. rewrite Hi.
  rewrite (u64_sub_small (prev + 1) 1) by ulia. rewrite N.add_sub.
  replace (mkEntry (e_term e) (prev + 1) (e_payload e)) with e by (rewrite <- Hi; by destruct e).
  pose proof (term_at_range l (prev + 1) H Hp ltac:(ulia)) as Hrange.
  destruct (N.eqb_spec (term_at l (prev + 1)) 0) as [Hz|Hz]; simpl.
  - rewrite Hz. destruct (N.eqb_spec 0 (e_term e)) as [He|_]; [by rewrite <- He in Ht |].
    destruct (N.ltb_spec (last_index l) (prev + 1)); [|tauto].
    replace prev with (last_index l) by lia. by rewrite truncate_after_last_id.
  - destruct (N.eqb_spec (term_at l (prev + 1)) (e_term e)); simpl.
    + destruct (N.ltb_spec (last_index l) (prev + 1)); [|done]. apply Hrange in Hz. lia.
    + rewrite truncate_after_last by (done || ulia).
      destruct (N.ltb_spec (N.min prev (last_index l)) (prev + 1)); [done | lia].
Qed.

(** The log after an iteration that replaces the tail. *)
Lemma replace_tail l prev e :
  log_wf l → terms_pos l → snapshot_index l ≤ prev ≤ last_index l →
  e_index e = prev + 1 → e_term e ≠ 0 → prev + 1 < u64_max →
  let l' := append (truncate_after l prev) e in
  log_wf l' ∧ terms_pos l' ∧ last_index l' = prev + 1 ∧ snapshot_index l' = snapshot_index l ∧
  (∀ k, k < u64_modulus →
     get l' k = if k <=? prev then get l k else if k =? prev + 1 then Some e else None).
Proof.
  intros H Hp Hr Hi Ht Hlt l'.
  assert (log_wf (truncate_after l prev)) as Hw by (apply truncate_after_wf; done || ulia).
  assert (last_index (truncate_after l prev) = prev) as Hl.
  { rewrite truncate_after_last by (done || ulia). lia. }
  split_and!.
  - apply append_wf; [done | lia | lia].
  - unfold l', terms_pos. rewrite truncate_after_eq by (done || ulia). simpl.
    apply Forall_app. split; [by apply Forall_take | by constructor].
  - unfold l'. by rewrite last_index_append.
  - unfold l'. by rewrite truncate_after_eq by (done || ulia).
  - intros k Hk. unfold l'. rewrite get_append by (done || ulia). rewrite Hl.
    rewrite get_truncate_after by (done || ulia).
    destruct (N.eqb_spec k (prev + 1)), (N.leb_spec k prev); done || lia.
Qed.

(** What the loop guarantees of its result [r], started on [l] after [prev]. *)
Record appended (l : Log) (prev : LogIndex) (es : list Entry) (p : bool) (r : Log * bool) : Prop := {
  ap_wf : log_wf r.1;
  ap_pos : terms_pos r.1;
  ap_snapshot : snapshot_index r.1 = snapshot_index l;
  ap_prefix : ∀ k, k ≤ prev → get r.1 k = get l k;
  ap_term : ∀ j e, es !! j = Some e → term_at r.1 (e_index e) = e_term e;
  ap_reach : prev + vlen es ≤ last_index r.1;
  ap_persist : r.2 = false → r.1 = l ∧ p = false
}.

Lemma term_at_above l l' k :
  log_wf l → log_wf l' → snapshot_index l = snapshot_index l' → snapshot_index l < k < u64_modulus →
  get l k = get l' k → term_at l k = term_at l' k.
Proof.
  intros H H' Hs Hk Hg. rewrite !term_at_get by (done || lia). rewrite <- Hs, Hg.
  destruct (N.eqb_spec k 0), (N.eqb_spec k (snapshot_index l)); done || lia.
Qed.

Lemma append_entries_appended es : ∀ l p prev,
  log_wf l → terms_pos l → snapshot_index l ≤ prev ≤ last_index l → batch prev es →
  appended l prev es p (append_entries l p es).
Proof.
  induction es as [|e es IH]; intros l p prev H Hp Hr Hb.
  { split; simpl; try done. unfold vlen. simpl. lia. }
  pose proof Hb as Hb'. apply batch_cons in Hb' as (Hi & Ht & Hlt & Hb').
  rewrite (append_entries_cons l p prev) by done.
  destruct (N.eqb_spec (term_at l (prev + 1)) (e_term e)) as [He|He].
  - assert (prev + 1 ≤ last_index l) as Hle by (apply term_at_range; [done.. | ulia | congruence]).
    destruct (IH l p (prev + 1) H Hp ltac:(lia) Hb') as [Aw Ap As Apre At Ar Aper]. split; try done.
    + intros k Hk. apply Apre. lia.
    + intros [|j] x Hx; simpl in Hx; [|by eapply At]. simplify_eq. rewrite Hi, <- He.
      apply term_at_above; [done.. | ulia | by apply Apre].
    + unfold vlen in *. simpl. lia.
  - destruct (replace_tail l prev e) as (Rw & Rp & Rl & Rs & Rg); [done..|].
    set (l' := append (truncate_after l prev) e) in *.
    destruct (IH l' true (prev + 1) Rw Rp ltac:(lia) Hb') as [Aw Ap As Apre At Ar Aper]. split; try done.
    + congruence.
    + intros k Hk. rewrite Apre, Rg by ulia. by destruct (N.leb_spec k prev); [|lia].
    + intros [|j] x Hx; simpl in Hx; [|by eapply At]. simplify_eq. rewrite Hi.
      rewrite (term_at_above _ l') by (done || ulia || apply Apre; lia).
      rewrite term_at_get by (done || ulia). rewrite Rg by ulia.
      destruct (N.eqb_spec (prev + 1) 0), (N.eqb_spec (prev + 1) (snapshot_index l')); [lia..|].
      by destruct (N.leb_spec (prev + 1) prev), (N.eqb_spec (prev + 1) (prev + 1)); [lia..|].
    + unfold vlen in *. simpl. lia.
    + intros Hf. apply Aper in Hf as [_ ?]. done.
Qed.

(** A log that already agrees with every entry of the batch is left alone. *)
Lemma append_entries_agree es : ∀ l p prev,
  log_wf l → terms_pos l → snapshot_index l ≤ prev ≤ last_index l → batch prev es →
  (∀ j e, es !! j = Some e → term_at l (e_index e) = e_term e) → append_entries l p es = (l, p).
Proof.
  induction es as [|e es IH]; intros l p prev H Hp Hr Hb Hag; [done |].
  pose proof Hb as Hb'. apply batch_cons in Hb' as (Hi & Ht & Hlt & Hb').
  pose proof (Hag 0%nat e eq_refl) as He. rewrite Hi in He.
  rewrite (append_entries_cons l p prev) by done. rewrite He, N.eqb_refl.
  apply (IH _ _ (prev + 1)); try done.
  - split; [lia |]. apply term_at_range; [done.. | ulia | congruence].
  - intros j x Hx. by apply (Hag (S j)).
Qed.

(** How many entries of a batch the log already holds, counted up to the first whose
    term differs. *)
Fixpoint agreeing (l : Log) (es : list Entry) : nat :=
  match es with
  | [] => 0
  | e :: es => if term_at l (e_index e) =? e_term e then S (agreeing l es) else 0
  end.

Lemma agreeing_le l es : (agreeing l es ≤ length es)%nat.
Proof. induction es as [|e es IH]; cbn; [done |]. case_match; lia. Qed.

Lemma agreeing_term l es j e : (j < agreeing l es)%nat → es !! j = Some e → term_at l (e_index e) = e_term e.
Proof.
  revert j. induction es as [|x es IH]; intros j Hj Hx; [done |]. cbn in Hj.
  destruct (N.eqb_spec (term_at l (e_index x)) (e_term x)); [|lia]. destruct j as [|j]; cbn in Hx; [congruence |].
  apply (IH j); [lia | done].
Qed.

(** The entries that agree are in the log. *)
Lemma agreeing_get l prev es j e :
  log_wf l → terms_pos l → snapshot_index l ≤ prev → batch prev es →
  (j < agreeing l es)%nat → es !! j = Some e → ∃ x, get l (e_index e) = Some x ∧ e_term x = e_term e.
Proof.
  intros H Hp Hs Hb Hj He. pose proof (agreeing_term _ _ _ _ Hj He) as Ht. pose proof (batch_term _ _ Hb _ _ He) as Hz.
  pose proof (batch_index _ _ Hb _ _ He) as Hi. pose proof (batch_bound _ _ Hb). apply lookup_lt_Some in He.
  rewrite term_at_get in Ht by (done || ulia).
  destruct (N.eqb_spec (e_index e) 0), (N.eqb_spec (e_index e) (snapshot_index l)); [lia.. |].
  destruct (get l (e_index e)) as [x|]; [by exists x | by rewrite <- Ht in Hz].
Qed.

Lemma agreeing_reach l prev es :
  log_wf l → terms_pos l → snapshot_index l ≤ prev ≤ last_index l → batch prev es →
  prev + N.of_nat (agreeing l es) ≤ last_index l.
Proof.
  intros H Hp Hr Hb. destruct (agreeing l es) as [|n] eqn:En; [lia |]. pose proof (agreeing_le l es) as Hle.
  destruct (lookup_lt_is_Some_2 es n) as [e He]; [lia |].
  destruct (agreeing_get l prev es n e) as (x & Hx & _); [done.. | apply Hr | done | lia | done |].
  pose proof (batch_index _ _ Hb _ _ He) as Hi. pose proof (batch_bound _ _ Hb).
  apply get_Some in Hx as (Hx & _); [lia | done | unfold vlen in *; ulia].
Qed.

(** A batch that continues the end of the log is appended to it. *)
Lemma append_entries_extend es : ∀ l p prev,
  log_wf l → terms_pos l → snapshot_index l ≤ prev → last_index l = prev → batch prev es →
  append_entries l p es =
    (mkLog (entries l ++ es) (snapshot_index l) (snapshot_term l) (snapshot_config l),
     match es with [] => p | _ => true end).
Proof.
  induction es as [|e es IH]; intros l p prev H Hp Hs Hl Hb.
  { cbn. rewrite app_nil_r. by destruct l. }
  pose proof Hb as (Hi & Ht & Hlt & Hb')%batch_cons. rewrite (append_entries_cons l p prev) by (done || lia).
  destruct (N.eqb_spec (term_at l (prev + 1)) (e_term e)) as [He|_].
  { assert (prev + 1 ≤ last_index l); [|lia]. apply term_at_range; [done.. | ulia | congruence]. }
  rewrite <- Hl, truncate_after_last_id by done.
  rewrite (IH (append l e) true (prev + 1)); cbn [append entries snapshot_index snapshot_term snapshot_config].
  - rewrite <- (app_assoc _ [e]). by destruct es.
  - apply append_wf; [done | lia | lia].
  - apply Forall_app. by split; [|repeat constructor].
  - lia.
  - rewrite last_index_append. lia.
  - done.
Qed.

(** The loop skips what agrees, drops the rest of the log, and appends the rest of the batch. *)
Lemma append_entries_eq es : ∀ l p prev,
  log_wf l → terms_pos l → snapshot_index l ≤ prev ≤ last_index l → batch prev es →
  let n := agreeing l es in
  append_entries l p es =
    if bool_decide (n = length es) then (l, p)
    else (mkLog (entries (truncate_after l (prev + N.of_nat n)) ++ drop n es)
            (snapshot_index l) (snapshot_term l) (snapshot_config l), true).
Proof.
  induction es as [|e es IH]; intros l p prev H Hp Hr Hb; [done |].
  pose proof Hb as (Hi & Ht & Hlt & Hb')%batch_cons. cbn [agreeing]. rewrite (append_entries_cons l p prev), Hi by done.
  destruct (N.eqb_spec (term_at l (prev + 1)) (e_term e)) as [He|He].
  - assert (prev + 1 ≤ last_index l) by (apply term_at_range; [done.. | ulia | congruence]).
    rewrite (IH l p (prev + 1)) by (done || lia). cbn zeta. cbn [length drop].
    replace (prev + 1 + N.of_nat (agreeing l es)) with (prev + N.of_nat (S (agreeing l es))) by lia.
    by do 2 case_bool_decide; (done || lia).
  - cbn zeta. rewrite bool_decide_false by done. rewrite N.add_0_r.
    destruct (replace_tail l prev e) as (Rw & Rp & Rl & Rs & _); [done.. |].
    rewrite (append_entries_extend es _ true (prev + 1)) by (done || lia). cbn [drop append entries].
    rewrite <- app_assoc, (truncate_after_eq l prev) by (done || ulia). by destruct es.
Qed.

(** The entries of the result, index by index. *)
Lemma append_entries_get l prev es :
  log_wf l → terms_pos l → snapshot_index l ≤ prev ≤ last_index l → batch prev es →
  agreeing l es ≠ length es →
  let r := append_entries l false es in
  r.2 = true ∧ last_index r.1 = prev + vlen es ∧ snapshot_index r.1 = snapshot_index l ∧
  ∀ k, k < u64_modulus →
    get r.1 k = if k <=? prev + N.of_nat (agreeing l es) then get l k else es !! N.to_nat (k - prev - 1).
Proof.
  intros H Hp Hr Hb Hn. destruct (append_entries_appended es l false prev H Hp Hr Hb) as [Hw _ _ _ _ _ _]. revert Hw.
  rewrite (append_entries_eq es l false prev H Hp Hr Hb), bool_decide_false by done. cbn zeta. cbn [fst snd]. intros Hw.
  pose proof (agreeing_reach l prev es H Hp Hr Hb) as Hreach. pose proof (agreeing_le l es) as Hle.
  set (n := agreeing l es) in *. pose proof (last_index_bound l H). pose proof (last_index_eq l H).
  rewrite truncate_after_eq in * by (done || ulia). cbn [entries] in *. split_and!; [done | | done |].
  - rewrite last_index_eq by done. cbn [snapshot_index entries]. rewrite length_app, length_take, length_drop. unfold vlen. lia.
  - intros k Hk. rewrite (get_eq _ k Hw Hk), (get_eq l k H Hk). cbn [snapshot_index entries].
    destruct (N.ltb_spec (snapshot_index l) k), (N.leb_spec k (prev + N.of_nat n)); try done; [| |lia].
    + rewrite lookup_app_l by (rewrite length_take; lia). apply lookup_take_lt. lia.
    + rewrite lookup_app_r, length_take, lookup_drop by (rewrite length_take; lia). f_equal. lia.
Qed.

(** C20: the loop of [handle_append_request] over a request's entries, run on a well-formed
    log that contains the request's previous index. Let [n] be the number of the request's
    entries that the log already holds, up to the first that differs in its term. When that
    is all of them, the log does not change, with whatever follows them, and the persist
    flag stays down. Otherwise the flag is raised, the log keeps its entries up to the last
    one that agrees, every later entry of it is gone, and the remaining entries of the
    request follow with their terms, indices and payloads as the last entries of the log.
    Where the log and the request agree in the payloads of entries of one index and term
    (Log Matching), the log thus contains every entry of the request. The log stays
    well formed, and a second delivery changes nothing. *)
Theorem append_entries_correct l prev es :
  log_wf l → terms_pos l → snapshot_index l ≤ prev ≤ last_index l → batch prev es →
  let n := agreeing l es in
  let r := append_entries l false es in
  log_wf r.1 ∧ terms_pos r.1 ∧
  (n = length es → r = (l, false)) ∧
  (n ≠ length es →
     r.2 = true ∧ last_index r.1 = prev + vlen es ∧ snapshot_index r.1 = snapshot_index l ∧
     ∀ k, k < u64_modulus →
       get r.1 k = if k <=? prev + N.of_nat n then get l k else es !! N.to_nat (k - prev - 1)) ∧
  ((∀ e x, e ∈ es → get l (e_index e) = Some x → e_term x = e_term e → x = e) →
     ∀ e, e ∈ es → get r.1 (e_index e) = Some e) ∧
  append_entries r.1 false es = (r.1, false).
Proof.
  intros H Hp Hr Hb n r. destruct (append_entries_appended es l false prev H Hp Hr Hb) as [Aw Ap As Apre At Ar Aper].
  pose proof (append_entries_eq es l false prev H Hp Hr Hb) as E. cbn zeta in E. fold n r in E.
  pose proof (append_entries_get l prev es H Hp Hr Hb) as Hget. fold n r in Hget, Aw, Ap, As, At, Ar.
  assert (n = length es → r = (l, false)) as Hsame by (intros Hn; by rewrite bool_decide_true in E).
  split_and!; [done | done | done | done | | apply (append_entries_agree _ _ _ prev); [done.. | rewrite As; lia | done | done]].
  intros Hmatch e He. pose proof He as [j Hj]%list_elem_of_lookup. pose proof (batch_index _ _ Hb _ _ Hj) as Hi.
  pose proof (batch_bound _ _ Hb). pose proof (lookup_lt_Some _ _ _ Hj) as Hlen.
  assert ((j < n)%nat → get l (e_index e) = Some e) as Hold.
  { intros Hjn. destruct (agreeing_get l prev es j e) as (x & Hx & Ht); [done.. | apply Hr | done | done | done |].
    by rewrite Hx, (Hmatch e x). }
  destruct (decide (n = length es)) as [Hn|Hn]; [rewrite Hsame by done; apply Hold; lia |].
  destruct (Hget Hn) as (_ & _ & _ & ->); [|unfold vlen in *; ulia].
  destruct (N.leb_spec (e_index e) (prev + N.of_nat n)); [apply Hold; lia |].
  rewrite Hi. by replace (N.to_nat _) with j by lia.
Qed.

Lemma append_entries_correct_witness :
  let command b := PCommand (mkCommand [b]) in
  let l := mkLog [mkEntry 1 1 (command Byte.x61); mkEntry 1 2 (command Byte.x62); mkEntry 1 3 (command Byte.x63);
                  mkEntry 1 4 (command Byte.x64)] 0 0 None in
  let es := [mkEntry 1 2 (command Byte.x62); mkEntry 2 3 (command Byte.x65)] in
  agreeing l es = 1%nat ∧ last_index (append_entries l false es).1 = 3 ∧
  get (append_entries l false es).1 3 = Some (mkEntry 2 3 (command Byte.x65)) ∧
  get (append_entries l false es).1 4 = None.
Proof.
  intros command l es. split; [reflexivity |].
  destruct (append_entries_correct l 1 es) as (_ & _ & _ & Hnew & _).
  - split; [|reflexivity]. intros [|[|[|[|i]]]] e He; simpl in He; simplify_eq; reflexivity.
  - repeat constructor; discriminate.
  - split; discriminate.
  - split; [intros [|[|j]] e He; simpl in He; simplify_eq; reflexivity
           | intros [|[|j]] e He; simpl in He; simplify_eq; discriminate | reflexivity].
  - destruct (Hnew ltac:(discriminate)) as (_ & Hl & _ & Hg).
    split; [exact Hl |]. split; [exact (Hg 3 eq_refl) | exact (Hg 4 eq_refl)].
Defined.
