(* ===== verification/PreCandidate.v ===== *)
(** * Pre-candidate role

    consensus/cloud9-raft/src/raft/precandidate.rs. *)

From S2P Require Import Prelude BTree Membership Log Event Core Role.

Open Scope N_scope.

Record PreCandidate := mkPreCandidate {
  pre_votes : BTreeSet;
  election_deadline : N;
  last_contact_tick : N
}.

Definition new (c : Core) : option (PreCandidate * Core * Effects) :=
  let* (timeout, c) := random_election_timeout c in
  let precandidate :=
    mkPreCandidate (if core_is_voter c then insert (core_id c) [] else [])
      (ticks c +u timeout) (u64_saturating_sub (ticks c) (election_timeout (Core.config c)).1) in
  let config := effective_config c in
  if (voter_count config =? 1)%nat && is_voter config (core_id c)
  then Some (precandidate, c, none)
  else
    let req := mkPreVoteRequest (term c +u 1) (last_index (log c)) (last_term (log c)) in
    let messages :=
      map (fun peer => mkMessage (core_id c) peer (term c) (PPreVoteRequest req))
        (voter_peers config (core_id c)) in
    Some (precandidate, c, with_messages none messages).

Definition ticks_until_deadline (p : PreCandidate) (t : N) : N :=
  u64_saturating_sub (election_deadline p) t.

Definition has_quorum (p : PreCandidate) (c : Core) : bool :=
  Membership.has_quorum (effective_config c) (fun voter => contains (pre_votes p) voter).

Definition recently_heard_from_leader (p : PreCandidate) (c : Core) : bool :=
  u64_saturating_sub (ticks c) (last_contact_tick p) <? (election_timeout (config c)).1.

Definition handle_tick (p : PreCandidate) (c : Core) : option (PreCandidate * Core * StepResult) :=
  let c := set_ticks c (ticks c +u 1) in
  if recently_heard_from_leader p c then
    let* (timeout, c') := random_election_timeout c in
    Some (mkPreCandidate (pre_votes p) (ticks c +u timeout) (last_contact_tick p), c', step_none)
  else if election_deadline p <=? ticks c then Some (p, c, to_precandidate none)
  else Some (p, c, step_none).

Definition handle_prevote_response (p : PreCandidate) (c : Core) (from : NodeId)
    (resp : PreVoteResponse) : PreCandidate * Core * StepResult :=
  if term c <? pvr_term resp then
    let '(_, c) := maybe_update_term c (pvr_term resp) in
    (p, c, to_follower None (with_persist none))
  else if pvr_term resp <? term c then (p, c, step_none)
  else if negb (pvr_granted resp) then (p, c, step_none)
  else
    let p := mkPreCandidate (insert from (pre_votes p)) (election_deadline p) (last_contact_tick p) in
    if has_quorum p c then (p, c, to_candidate none) else (p, c, step_none).

Definition handle_append_request (p : PreCandidate) (c : Core) (from : NodeId)
    (_req : AppendRequest) : PreCandidate * Core * StepResult :=
  (mkPreCandidate (pre_votes p) (election_deadline p) (ticks c), c,
   to_follower_after_contact (Some from) none).

Definition handle_prevote_request (c : Core) (from : NodeId) (term_of_msg : Term)
    (req : PreVoteRequest) : StepResult :=
  let dominated := log_is_up_to_date c (pvq_last_log_term req) (pvq_last_log_index req) in
  let candidate_is_voter := is_voter (effective_config c) from in
  let term_ok := term c <? pvq_next_term req in
  let granted := candidate_is_voter && term_ok && dominated in
  stay (with_message none (mkMessage (core_id c) from term_of_msg
    (PPreVoteResponse (mkPreVoteResponse (term c) granted)))).

Definition handle_vote_request (c : Core) (from : NodeId) : StepResult :=
  stay (with_message none (mkMessage (core_id c) from (term c) (PVoteResponse (mkVoteResponse false)))).

Definition deny_vote (c : Core) (m : Message) : Effects :=
  let reply p := with_message none (mkMessage (core_id c) (msg_from m) (term c) p) in
  match msg_payload m with
  | PPreVoteRequest _ => reply (PPreVoteResponse (mkPreVoteResponse (term c) false))
  | PVoteRequest _ => reply (PVoteResponse (mkVoteResponse false))
  | _ => none
  end.

Definition step_message (p : PreCandidate) (c : Core) (m : Message) : PreCandidate * Core * StepResult :=
  if is_vote_request (msg_payload m) && recently_heard_from_leader p c
  then (p, c, stay (deny_vote c m))
  else if term c <? msg_term m then
    let '(_, c) := maybe_update_term c (msg_term m) in
    let leader := if is_append_request (msg_payload m) then Some (msg_from m) else None in
    (p, c, to_follower leader (with_persist none))
  else
    match msg_payload m with
    | PPreVoteResponse resp => handle_prevote_response p c (msg_from m) resp
    | PAppendRequest req => handle_append_request p c (msg_from m) req
    | PPreVoteRequest req => (p, c, handle_prevote_request c (msg_from m) (msg_term m) req)
    | PVoteRequest _ => (p, c, handle_vote_request c (msg_from m))
    | PTimeoutNow => (p, c, to_candidate none)
    | _ => (p, c, step_none)
    end.

Definition step (p : PreCandidate) (c : Core) (e : Event) : option (PreCandidate * Core * StepResult) :=
  match e with
  | ETick => handle_tick p c
  | EDiskWriteComplete _ => Some (p, c, step_none)
  | EMessage m => Some (step_message p c m)
  end.
