(* ===== verification/Candidate.v ===== *)
(** * Candidate role

    consensus/cloud9-raft/src/raft/candidate.rs. *)

From S2P Require Import Prelude BTree Membership Log Event Core Role.

Open Scope N_scope.

Record Candidate := mkCandidate {
  votes : BTreeSet;
  election_deadline : N;
  last_contact_tick : N
}.

Definition new (c : Core) : option (Candidate * Core * Effects) :=
  let c := start_election c in
  let* (timeout, c) := random_election_timeout c in
  let candidate :=
    mkCandidate (if core_is_voter c then insert (core_id c) [] else [])
      (ticks c +u timeout) (u64_saturating_sub (ticks c) (election_timeout (Core.config c)).1) in
  let config := effective_config c in
  if (voter_count config =? 1)%nat && is_voter config (core_id c)
  then Some (candidate, c, with_persist none)
  else
    let req := mkVoteRequest (last_index (log c)) (last_term (log c)) in
    let messages :=
      map (fun peer => mkMessage (core_id c) peer (term c) (PVoteRequest req))
        (voter_peers config (core_id c)) in
    Some (candidate, c, with_messages (with_persist none) messages).

Definition ticks_until_deadline (p : Candidate) (t : N) : N :=
  u64_saturating_sub (election_deadline p) t.

Definition has_quorum (p : Candidate) (c : Core) : bool :=
  Membership.has_quorum (effective_config c) (fun voter => contains (votes p) voter).

Definition recently_heard_from_leader (p : Candidate) (c : Core) : bool :=
  u64_saturating_sub (ticks c) (last_contact_tick p) <? (election_timeout (config c)).1.

Definition handle_tick (p : Candidate) (c : Core) : option (Candidate * Core * StepResult) :=
  let c := set_ticks c (ticks c +u 1) in
  if recently_heard_from_leader p c then
    let* (timeout, c') := random_election_timeout c in
    Some (mkCandidate (votes p) (ticks c +u timeout) (last_contact_tick p), c', step_none)
  else if election_deadline p <=? ticks c then Some (p, c, to_candidate none)
  else Some (p, c, step_none).

Definition handle_vote_response (p : Candidate) (c : Core) (from : NodeId) (resp : VoteResponse)
    : Candidate * Core * StepResult :=
  if negb (vr_granted resp) then (p, c, step_none)
  else
    let p := mkCandidate (insert from (votes p)) (election_deadline p) (last_contact_tick p) in
    if has_quorum p c then (p, c, to_leader none) else (p, c, step_none).

Definition handle_append_request (p : Candidate) (c : Core) (from : NodeId) (_req : AppendRequest)
    : Candidate * Core * StepResult :=
  (mkCandidate (votes p) (election_deadline p) (ticks c), c,
   to_follower_after_contact (Some from) none).

Definition handle_vote_request (c : Core) (from : NodeId) : StepResult :=
  stay (with_message none (mkMessage (core_id c) from (term c) (PVoteResponse (mkVoteResponse false)))).

Definition deny_vote (c : Core) (m : Message) : Effects :=
  let reply p := with_message none (mkMessage (core_id c) (msg_from m) (term c) p) in
  match msg_payload m with
  | PPreVoteRequest _ => reply (PPreVoteResponse (mkPreVoteResponse (term c) false))
  | PVoteRequest _ => reply (PVoteResponse (mkVoteResponse false))
  | _ => none
  end.

Definition handle_prevote_request (c : Core) (from : NodeId) (term_of_msg : Term)
    (req : PreVoteRequest) : Effects :=
  let dominated := log_is_up_to_date c (pvq_last_log_term req) (pvq_last_log_index req) in
  let candidate_is_voter := is_voter (effective_config c) from in
  let term_ok := term c <? pvq_next_term req in
  let granted := candidate_is_voter && term_ok && dominated in
  with_message none (mkMessage (core_id c) from term_of_msg
    (PPreVoteResponse (mkPreVoteResponse (term c) granted))).

Definition reject_stale (c : Core) (m : Message) : Effects :=
  let reply p := with_message none (mkMessage (core_id c) (msg_from m) (term c) p) in
  match msg_payload m with
  | PVoteRequest _ => reply (PVoteResponse (mkVoteResponse false))
  | PAppendRequest _ => reply (PAppendResponse (mkAppendResponse false (last_index (log c))))
  | _ => none
  end.

(** The part of [step] after the election guard and the pre-vote branch. *)
Definition step_term (p : Candidate) (c : Core) (m : Message) : Candidate * Core * StepResult :=
  if term c <? msg_term m then
    let '(_, c) := maybe_update_term c (msg_term m) in
    let leader := if is_append_request (msg_payload m) then Some (msg_from m) else None in
    (p, c, to_follower leader (with_persist none))
  else if msg_term m <? term c then (p, c, stay (reject_stale c m))
  else
    match msg_payload m with
    | PVoteResponse resp => handle_vote_response p c (msg_from m) resp
    | PAppendRequest req => handle_append_request p c (msg_from m) req
    | PVoteRequest _ => (p, c, handle_vote_request c (msg_from m))
    | PTimeoutNow => (p, c, to_candidate none)
    | _ => (p, c, step_none)
    end.

Definition step_message (p : Candidate) (c : Core) (m : Message) : Candidate * Core * StepResult :=
  if is_vote_request (msg_payload m) && recently_heard_from_leader p c
  then (p, c, stay (deny_vote c m))
  else match msg_payload m with
       | PPreVoteRequest req =>
           (p, c, stay (handle_prevote_request c (msg_from m) (msg_term m) req))
       | _ => step_term p c m
       end.

Definition step (p : Candidate) (c : Core) (e : Event) : option (Candidate * Core * StepResult) :=
  match e with
  | ETick => handle_tick p c
  | EDiskWriteComplete _ => Some (p, c, step_none)
  | EMessage m => Some (step_message p c m)
  end.
