(* ===== verification/Leader.v ===== *)
(** * Leader role

    consensus/cloud9-raft/src/raft/leader.rs: replication progress, proposals,
    configuration changes, commit advancement and read-index rounds. The
    [BTreeMap]s of the source are only read and written by key, so they are
    finite maps. [None] is a panic (a slice of a malformed log) in every
    operation that sends entries. The loop of [maybe_commit] has fuel; the
    theorem [maybe_commit_total] of Commit.v shows that the fuel it is given is
    enough. *)

From S2P Require Import Prelude BTree Membership Log Event Core Role.

Open Scope N_scope.

(** The error and transfer types of consensus/cloud9-raft/src/lib.rs. *)
Inductive ProposeError :=
| PENotLeader (leader_hint : option NodeId)
| Throttled.

Inductive ReadIndexError :=
| RENotLeader (leader_hint : option NodeId)
| CurrentTermNotCommitted
| ReadInProgress (read_index : LogIndex).

Inductive TransferError :=
| TENotLeader
| TargetNotVoter
| TargetLagging (match_index last_index : LogIndex)
| TargetIsSelf.

Inductive ConfigCommitResult :=
| Continue (e : Effects)
| StepDown (e : Effects)
| Done.

Record PendingReadIndex := mkPendingReadIndex {
  pr_id : N;
  pr_read_index : LogIndex;
  pr_configuration : Configuration;
  pr_acks : BTreeSet
}.

Record Leader := mkLeader {
  next_index : gmap NodeId LogIndex;
  match_index : gmap NodeId LogIndex;
  heartbeat_deadline : N;
  sent_index : gmap NodeId LogIndex;
  next_read_id : N;
  pending_read_index : option PendingReadIndex;
  confirmed_read_index : LogIndex
}.

Definition set_next_index (l : Leader) (m : gmap NodeId LogIndex) : Leader :=
  mkLeader m (match_index l) (heartbeat_deadline l) (sent_index l) (next_read_id l)
    (pending_read_index l) (confirmed_read_index l).
Definition set_match_index (l : Leader) (m : gmap NodeId LogIndex) : Leader :=
  mkLeader (next_index l) m (heartbeat_deadline l) (sent_index l) (next_read_id l)
    (pending_read_index l) (confirmed_read_index l).
Definition set_heartbeat_deadline (l : Leader) (t : N) : Leader :=
  mkLeader (next_index l) (match_index l) t (sent_index l) (next_read_id l)
    (pending_read_index l) (confirmed_read_index l).
Definition set_sent_index (l : Leader) (m : gmap NodeId LogIndex) : Leader :=
  mkLeader (next_index l) (match_index l) (heartbeat_deadline l) m (next_read_id l)
    (pending_read_index l) (confirmed_read_index l).
Definition set_read_state (l : Leader) (next : N) (pending : option PendingReadIndex)
    (confirmed : LogIndex) : Leader :=
  mkLeader (next_index l) (match_index l) (heartbeat_deadline l) (sent_index l) next pending confirmed.

(** [map.get(&id).copied().unwrap_or(0)]. *)
Definition matched (l : Leader) (id : NodeId) : LogIndex := default 0 (match_index l !! id).

(** ** Sending entries *)

Definition send_append_to (l : Leader) (c : Core) (to : NodeId) : option (Leader * Effects) :=
  let next := default 1 (next_index l !! to) in
  let snapshot_index := snapshot_index (log c) in
  if next <=? snapshot_index then
    Some (l, with_send_snapshot none
      (mkSendSnapshot to snapshot_index (snapshot_term (log c)) (core_config_at c snapshot_index)))
  else
    let prev_index := u64_saturating_sub next 1 in
    let prev_term :=
      if (prev_index <=? snapshot_index) && (0 <? prev_index)
      then snapshot_term (log c) else term_at (log c) prev_index in
    let last_log := last_index (log c) in
    let end_ := N.min (next +u max_entries_per_msg (config c)) (last_log +u 1) in
    let* entries := slice (log c) next end_ in
    let sent_up_to := match last entries with Some e => e_index e +u 1 | None => next end in
    let l :=
      if pipelining (config c) && (next <? sent_up_to)
      then set_next_index l (<[to := sent_up_to]> (next_index l)) else l in
    Some (l, with_message none (mkMessage (core_id c) to (term c)
      (PAppendRequest (mkAppendRequest prev_index prev_term entries (commit_index c))))).

(** The fold of [broadcast_append] over the replication peers. *)
Fixpoint send_append_all (l : Leader) (c : Core) (peers : list NodeId) (eff : Effects)
    : option (Leader * Effects) :=
  match peers with
  | [] => Some (l, eff)
  | peer :: rest =>
      let* (l, e) := send_append_to l c peer in
      send_append_all l c rest (merge eff e)
  end.

Definition broadcast_append (l : Leader) (c : Core) : option (Leader * Effects) :=
  send_append_all l c (replication_peers (effective_config c) (core_id c)) none.

(** ** Construction *)

Definition insert_all (ids : list NodeId) (v : LogIndex) : gmap NodeId LogIndex :=
  fold_left (fun m id => <[id := v]> m) ids ∅.

Definition new (c : Core) : option (Leader * Core * Effects) :=
  let last_index := last_index (log c) in
  let nodes := all_nodes (effective_config c) in
  let match_index := insert_all nodes 0 in
  let match_index :=
    if negb (parallel_disk_write (config c)) then <[core_id c := last_index]> match_index
    else match_index in
  let l :=
    mkLeader (insert_all nodes (last_index +u 1)) match_index
      (ticks c +u heartbeat_interval (config c)) (insert_all nodes 0) 1 None 0 in
  let* (l, effects) := broadcast_append l c in
  Some (l, c, effects).

Definition ticks_until_deadline (l : Leader) (t : N) : N :=
  u64_saturating_sub (heartbeat_deadline l) t.

(** ** Reads *)

(** The loop over [(1..=commit_index).rev()]. *)
Fixpoint scan_current_term (c : Core) (idxs : list LogIndex) : option LogIndex :=
  match idxs with
  | [] => None
  | idx :: rest =>
      if term_at (log c) idx =? term c then Some idx
      else if term_at (log c) idx <? term c then None
      else scan_current_term c rest
  end.

Definition current_term_commit_index (c : Core) : option LogIndex :=
  scan_current_term c (rev (range_incl 1 (commit_index c))).

Definition can_serve_reads (l : Leader) (c : Core) : bool :=
  match current_term_commit_index c with Some _ => true | None => false end &&
  (commit_index c <=? confirmed_read_index l) && (commit_index c <=? last_applied c).

Definition read_index (l : Leader) (_core : Core) : LogIndex := confirmed_read_index l.

Definition read_index_ready (l : Leader) (c : Core) (read_index : LogIndex) : bool :=
  (read_index <=? confirmed_read_index l) && (read_index <=? last_applied c).

Definition read_index_requests (c : Core) (pending : PendingReadIndex) : Effects :=
  with_messages none
    (map (fun to => mkMessage (core_id c) to (term c)
            (PReadIndexRequest (mkReadIndexRequest (pr_id pending) (pr_read_index pending))))
       (voter_peers (pr_configuration pending) (core_id c))).

Definition pending_has_quorum (p : PendingReadIndex) : bool :=
  has_quorum (pr_configuration p) (fun voter => contains (pr_acks p) voter).

Definition request_read_index (l : Leader) (c : Core)
    : ReadIndexError + (Leader * LogIndex * Effects) :=
  match pending_read_index l with
  | Some pending => inl (ReadInProgress (pr_read_index pending))
  | None =>
      match current_term_commit_index c with
      | None => inl CurrentTermNotCommitted
      | Some _ =>
          let read_index := commit_index c in
          let id := next_read_id l in
          let next := next_read_id l +u 1 in
          let pending := mkPendingReadIndex id read_index (effective_config c) [core_id c] in
          if pending_has_quorum pending
          then inr (set_read_state l next None (N.max (confirmed_read_index l) read_index),
                    read_index, none)
          else inr (set_read_state l next (Some pending) (confirmed_read_index l),
                    read_index, read_index_requests c pending)
      end
  end.

Definition handle_read_index_response (l : Leader) (from : NodeId) (resp : ReadIndexResponse)
    : Leader * StepResult :=
  match pending_read_index l with
  | None => (l, step_none)
  | Some p =>
      if negb (is_voter (pr_configuration p) from) then (l, step_none)
      else if negb (pr_id p =? rr_id resp) || negb (pr_read_index p =? rr_read_index resp)
      then (l, step_none)
      else
        let p := mkPendingReadIndex (pr_id p) (pr_read_index p) (pr_configuration p)
                   (insert from (pr_acks p)) in
        if pending_has_quorum p
        then (set_read_state l (next_read_id l) None
                (N.max (confirmed_read_index l) (pr_read_index p)), step_none)
        else (set_read_state l (next_read_id l) (Some p) (confirmed_read_index l), step_none)
  end.

(** ** Commit *)

Definition reinit_progress (l : Leader) (c : Core) : Leader :=
  let last_index := last_index (log c) in
  let or_insert v m id := match m !! id with Some _ => m | None => <[id := v]> m end in
  let nodes := all_nodes (effective_config c) in
  let next := fold_left (or_insert (last_index +u 1)) nodes (next_index l) in
  let mtch := fold_left (or_insert 0) nodes (match_index l) in
  let sent := fold_left (or_insert 0) nodes (sent_index l) in
  let mtch :=
    if negb (parallel_disk_write (config c)) then <[core_id c := last_index]> mtch else mtch in
  set_sent_index (set_match_index (set_next_index l next) mtch) sent.

(** The test of the search loop of [advance_commit_index]. *)
Definition can_commit (l : Leader) (c : Core) (candidate : LogIndex) : bool :=
  (term_at (log c) candidate =? term c) &&
  has_quorum (effective_config c) (fun voter => candidate <=? matched l voter).

Definition advance_commit_index (l : Leader) (c : Core) : Core :=
  match find (can_commit l c) (rev (range_incl (commit_index c +u 1) (last_index (log c)))) with
  | Some candidate => set_commit_index c candidate
  | None => c
  end.

(** The loop over the voters of the new configuration; the pair is [best_target]. *)
Fixpoint best_target (l : Leader) (me : NodeId) (last_index : LogIndex) (voters : list NodeId)
    (best : option (NodeId * LogIndex)) : option (NodeId * LogIndex) :=
  match voters with
  | [] => best
  | voter :: rest =>
      if voter =? me then best_target l me last_index rest best
      else
        let match_idx := matched l voter in
        if last_index <=? match_idx then Some (voter, match_idx)
        else
          let best :=
            match best with
            | None => Some (voter, match_idx)
            | Some (_, best_idx) => if best_idx <? match_idx then Some (voter, match_idx) else best
            end in
          best_target l me last_index rest best
  end.

Definition try_auto_transfer (l : Leader) (c : Core) (new_config : Configuration) : Effects :=
  let last_index := last_index (log c) in
  match best_target l (core_id c) last_index (voters new_config) None with
  | Some (target, match_idx) =>
      if last_index <=? match_idx
      then with_message none (mkMessage (core_id c) target (term c) PTimeoutNow)
      else none
  | None => none
  end.

Definition append_transition_target (l : Leader) (c : Core) (target : Configuration)
    : option (Leader * Core * Effects) :=
  let new_index := last_index (log c) +u 1 in
  let c := set_log c (append (log c) (mkEntry (term c) new_index (PConfig target))) in
  let l := reinit_progress l c in
  let* (l, e) := broadcast_append l c in
  Some (l, c, with_persist e).

(** The loop over [(old_commit + 1)..=commit_index]. *)
Fixpoint process_indices (l : Leader) (c : Core) (idxs : list LogIndex)
    : option (Leader * Core * ConfigCommitResult) :=
  match idxs with
  | [] => Some (l, c, Done)
  | idx :: rest =>
      match get (log c) idx with
      | None => process_indices l c rest
      | Some entry =>
          match e_payload entry with
          | PCommand _ => process_indices l c rest
          | PConfig cfg =>
              if negb (is_voter cfg (core_id c)) then Some (l, c, StepDown (try_auto_transfer l c cfg))
              else match transition_target cfg with
                   | Some target =>
                       let* (l, c, e) := append_transition_target l c target in
                       Some (l, c, Continue e)
                   | None => process_indices l c rest
                   end
          end
      end
  end.

Definition process_committed_configs (l : Leader) (c : Core) (old_commit : LogIndex)
    : option (Leader * Core * ConfigCommitResult) :=
  process_indices l c (range_incl (old_commit +u 1) (commit_index c)).

(** The [loop] of [maybe_commit]. *)
Fixpoint commit_loop (fuel : nat) (l : Leader) (c : Core) (effects : Effects)
    : option (Leader * Core * Effects * bool) :=
  match fuel with
  | O => None
  | S fuel =>
      let old_commit := commit_index c in
      let c := advance_commit_index l c in
      if commit_index c =? old_commit then Some (l, c, effects, false)
      else
        let* (l, c, r) := process_committed_configs l c old_commit in
        match r with
        | Continue e => commit_loop fuel l c (merge effects e)
        | StepDown e => Some (l, c, merge effects e, true)
        | Done => Some (l, c, effects, false)
        end
  end.

Definition maybe_commit (l : Leader) (c : Core) : option (Leader * Core * Effects * bool) :=
  commit_loop (S (S (length (entries (log c))))) l c none.

(** ** Proposals *)

Definition propose (l : Leader) (c : Core) (cmd : Command)
    : option (Leader * Core * LogIndex * Effects * bool) :=
  let index := last_index (log c) +u 1 in
  let c := set_log c (append (log c) (mkEntry (term c) index (PCommand cmd))) in
  let l :=
    if negb (parallel_disk_write (config c))
    then set_match_index l (<[core_id c := index]> (match_index l)) else l in
  let* (l, c, commit_effects, should_step_down) := maybe_commit l c in
  let* (l, e) := broadcast_append l c in
  Some (l, c, index, merge (with_persist e) commit_effects, should_step_down).

(** The checks of [propose_config_change] before it appends. *)
Definition check_config_change (l : Leader) (c : Core) (change : ConfigChange)
    : option ConfigChangeError :=
  let current := effective_config c in
  match validate change current (membership_mode (config c)) with
  | Some e => Some e
  | None =>
      let promotion :=
        match change with
        | AddVoter id =>
            if is_learner current id then
              let progressed := matched l id in
              let need := last_index (log c) in
              if progressed <? need then Some (LearnerNotCaughtUp id progressed need) else None
            else Some (PromoteRequiresLearner id)
        | _ => None
        end in
      match promotion with
      | Some e => Some e
      | None => if has_pending_config c then Some ChangeInProgress else None
      end
  end.

Definition propose_config_change (l : Leader) (c : Core) (change : ConfigChange)
    : option (ConfigChangeError + (Leader * Core * LogIndex * Effects * bool)) :=
  match check_config_change l c change with
  | Some e => Some (inl e)
  | None =>
      let new_config := apply_change change (effective_config c) (membership_mode (config c)) in
      let index := last_index (log c) +u 1 in
      let c := set_log c (append (log c) (mkEntry (term c) index (PConfig new_config))) in
      let l :=
        if negb (parallel_disk_write (config c))
        then set_match_index l (<[core_id c := index]> (match_index l)) else l in
      let l := reinit_progress l c in
      let* (l, c, commit_effects, should_step_down) := maybe_commit l c in
      let* (l, e) := broadcast_append l c in
      Some (inr (l, c, index, merge (with_persist e) commit_effects, should_step_down))
  end.

Definition transfer_leadership (l : Leader) (c : Core) (target : NodeId) : TransferError + Effects :=
  if target =? core_id c then inl TargetIsSelf
  else if negb (is_voter (effective_config c) target) then inl TargetNotVoter
  else
    let last_index := last_index (log c) in
    let match_index := matched l target in
    if match_index <? last_index then inl (TargetLagging match_index last_index)
    else inr (with_message none (mkMessage (core_id c) target (term c) PTimeoutNow)).

(** ** Events *)

(** [let (effects, should_step_down) = self.maybe_commit(core); ..]. *)
Definition commit_and_continue (l : Leader) (c : Core) : option (Leader * Core * StepResult) :=
  let* (l, c, effects, should_step_down) := maybe_commit l c in
  Some (l, c, if should_step_down then to_follower None effects else stay effects).

Definition handle_disk_write_complete (l : Leader) (c : Core) (index : LogIndex)
    : option (Leader * Core * StepResult) :=
  if matched l (core_id c) <? index
  then commit_and_continue (set_match_index l (<[core_id c := index]> (match_index l))) c
  else Some (l, c, step_none).

Definition handle_tick (l : Leader) (c : Core) : option (Leader * Core * StepResult) :=
  let c := set_ticks c (ticks c +u 1) in
  if heartbeat_deadline l <=? ticks c then
    let l := set_heartbeat_deadline l (ticks c +u heartbeat_interval (config c)) in
    let* (l, effects) := broadcast_append l c in
    let effects :=
      match pending_read_index l with
      | Some pending => merge effects (read_index_requests c pending)
      | None => effects
      end in
    Some (l, c, stay effects)
  else Some (l, c, step_none).

Definition handle_append_response (l : Leader) (c : Core) (from : NodeId) (resp : AppendResponse)
    : option (Leader * Core * StepResult) :=
  if negb (is_member (effective_config c) from) then Some (l, c, step_none)
  else if ar_success resp then
    let l := set_match_index l (<[from := ar_last_log_index resp]> (match_index l)) in
    let l :=
      if negb (pipelining (config c))
      then set_next_index l (<[from := ar_last_log_index resp +u 1]> (next_index l)) else l in
    commit_and_continue l c
  else
    let match_idx := matched l from in
    let hinted := N.max (ar_last_log_index resp +u 1) 1 in
    let new_next := if pipelining (config c) then N.max hinted (match_idx +u 1) else hinted in
    let l := set_next_index l (<[from := new_next]> (next_index l)) in
    let* (l, e) := send_append_to l c from in
    Some (l, c, stay e).

Definition handle_install_snapshot_response (l : Leader) (c : Core) (from : NodeId)
    (resp : InstallSnapshotResponse) : option (Leader * Core * StepResult) :=
  if negb (ir_success resp) || negb (is_member (effective_config c) from) then Some (l, c, step_none)
  else if ir_last_included_index resp <=? matched l from then Some (l, c, step_none)
  else
    let l := set_match_index l (<[from := ir_last_included_index resp]> (match_index l)) in
    let l := set_next_index l (<[from := ir_last_included_index resp +u 1]> (next_index l)) in
    commit_and_continue l c.

Definition handle_vote_request (c : Core) (from : NodeId) : StepResult :=
  stay (with_message none (mkMessage (core_id c) from (term c) (PVoteResponse (mkVoteResponse false)))).

Definition deny_prevote (c : Core) (from : NodeId) : Effects :=
  with_message none (mkMessage (core_id c) from (term c)
    (PPreVoteResponse (mkPreVoteResponse (term c) false))).

Definition reject_stale (c : Core) (m : Message) : Effects :=
  let reply p := with_message none (mkMessage (core_id c) (msg_from m) (term c) p) in
  match msg_payload m with
  | PVoteRequest _ => reply (PVoteResponse (mkVoteResponse false))
  | PAppendRequest _ => reply (PAppendResponse (mkAppendResponse false (last_index (log c))))
  | _ => none
  end.

(** The part of [step] after the pre-vote branch. *)
Definition step_term (l : Leader) (c : Core) (m : Message) : option (Leader * Core * StepResult) :=
  if term c <? msg_term m then
    let '(_, c) := maybe_update_term c (msg_term m) in
    let leader := if is_append_request (msg_payload m) then Some (msg_from m) else None in
    Some (l, c, to_follower leader (with_persist none))
  else if msg_term m <? term c then Some (l, c, stay (reject_stale c m))
  else
    match msg_payload m with
    | PAppendResponse resp => handle_append_response l c (msg_from m) resp
    | PInstallSnapshotResponse resp => handle_install_snapshot_response l c (msg_from m) resp
    | PReadIndexResponse resp =>
        let '(l, r) := handle_read_index_response l (msg_from m) resp in Some (l, c, r)
    | PVoteRequest _ => Some (l, c, handle_vote_request c (msg_from m))
    | _ => Some (l, c, step_none)
    end.

Definition step_message (l : Leader) (c : Core) (m : Message) : option (Leader * Core * StepResult) :=
  match msg_payload m with
  | PPreVoteRequest _ => Some (l, c, stay (deny_prevote c (msg_from m)))
  | _ => step_term l c m
  end.

Definition step (l : Leader) (c : Core) (e : Event) : option (Leader * Core * StepResult) :=
  match e with
  | ETick => handle_tick l c
  | EDiskWriteComplete index => handle_disk_write_complete l c index
  | EMessage m => step_message l c m
  end.
