(* ===== verification/Interface.v ===== *)
(** * The interface of the consensus crate

    consensus/cloud9-raft/src/lib.rs and the error texts of membership.rs: what the
    crate shows to its users besides [RaftNode]. [ReplicaConfig] describes a group by
    lists of members; the theorem relates its quorum to that of a [Configuration]. *)

From stdpp Require Import pretty.
From S2P Require Import Prelude BTree Membership Log Event Core Leader.

Open Scope N_scope.

(** [Display for NodeId]. *)
Definition display_node (id : NodeId) : string := "node-" +:+ pretty id.

Record ReplicaConfig := mkReplicaConfig { rc_voters : list NodeId; rc_learners : list NodeId }.

Definition replica_new (voters : list NodeId) : ReplicaConfig := mkReplicaConfig voters [].

Definition quorum_size (c : ReplicaConfig) : nat := (length (rc_voters c) / 2 + 1)%nat.

Definition replica_is_voter (c : ReplicaConfig) (id : NodeId) : bool := existsb (N.eqb id) (rc_voters c).

Definition replica_is_learner (c : ReplicaConfig) (id : NodeId) : bool := existsb (N.eqb id) (rc_learners c).

Definition replica_all_nodes (c : ReplicaConfig) : list NodeId := rc_voters c ++ rc_learners c.

Definition display_propose_error (e : ProposeError) : string :=
  match e with
  | PENotLeader (Some id) => "not leader, try " +:+ display_node id
  | PENotLeader None => "not leader, leader unknown"
  | Throttled => "too many proposals in flight"
  end.

Definition display_read_index_error (e : ReadIndexError) : string :=
  match e with
  | RENotLeader (Some id) => "not leader, try " +:+ display_node id
  | RENotLeader None => "not leader, leader unknown"
  | CurrentTermNotCommitted => "leader has not committed an entry from its current term"
  | ReadInProgress read_index => "read-index quorum round pending at index " +:+ pretty read_index
  end.

Definition display_transfer_error (e : TransferError) : string :=
  match e with
  | TENotLeader => "not leader"
  | TargetNotVoter => "target is not a voter"
  | TargetLagging match_index last_index =>
      "target lagging: " +:+ pretty match_index +:+ "/" +:+ pretty last_index
  | TargetIsSelf => "cannot transfer to self"
  end.

Definition display_config_change_error (e : ConfigChangeError) : string :=
  match e with
  | ChangeInProgress => "configuration change already in progress"
  | AlreadyVoter id => display_node id +:+ " is already a voter"
  | AlreadyLearner id => display_node id +:+ " is already a learner"
  | Overlap id => display_node id +:+ " cannot be both voter and learner"
  | PromoteRequiresLearner id => display_node id +:+ " must be added as a learner before becoming a voter"
  | LearnerNotCaughtUp id have need =>
      display_node id +:+ " not caught up: have " +:+ pretty have +:+ ", need " +:+ pretty need
  | NotVoter id => display_node id +:+ " is not a voter"
  | NotLearner id => display_node id +:+ " is not a learner"
  | WouldBeEmpty => "change would result in empty cluster"
  | NoChange => "configuration unchanged"
  | NotSingleChange added removed =>
      "single-server mode requires exactly one change, got " +:+ pretty (N.of_nat added) +:+ " added and " +:+
      pretty (N.of_nat removed) +:+ " removed"
  | NotLeader => "not the leader"
  end.

(** ** Quorums *)

Lemma collect_perm voters : NoDup voters → collect voters ≡ₚ voters.
Proof.
  intros Hnd. apply NoDup_Permutation; [by apply NoDup_ListNoDup, btree_NoDup, collect_ok | done |].
  intros x. by rewrite !list_elem_of_In, collect_In.
Qed.

Lemma count_perm f (l l' : list N) : l ≡ₚ l' → count f l = count f l'.
Proof.
  unfold count. induction 1 as [|x l l' _ IH|x y l|l1 l2 l3 _ IH1 _ IH2]; simpl; [done | | | congruence].
  - destruct (f x); simpl; congruence.
  - by destruct (f x), (f y).
Qed.

(** The two notions of a quorum agree. For a group without duplicates, [quorum_size] of
    its [ReplicaConfig] votes are exactly what [has_quorum] of its [Configuration] asks
    for; hence two vote sets of that size share a voter. *)
Theorem replica_quorum_agrees voters f g :
  NoDup voters →
  has_quorum (simple voters) f = (quorum_size (replica_new voters) <=? count f voters)%nat ∧
  ((quorum_size (replica_new voters) ≤ count f voters)%nat →
   (quorum_size (replica_new voters) ≤ count g voters)%nat →
   ∃ id, replica_is_voter (replica_new voters) id = true ∧ f id = true ∧ g id = true).
Proof.
  intros Hnd. pose proof (collect_perm voters Hnd) as Hp.
  assert (∀ h, has_quorum (simple voters) h = (quorum_size (replica_new voters) <=? count h voters)%nat) as Hq.
  { intros h. unfold has_quorum, simple, majority, quorum_size. cbn [rc_voters replica_new]. rewrite (Permutation_length Hp), (count_perm h _ _ Hp).
    destruct (Nat.ltb_spec (length voters / 2) (count h voters)), (Nat.leb_spec (length voters / 2 + 1) (count h voters)); done || lia. }
  split; [apply Hq |]. intros Hf%Nat.leb_le Hg%Nat.leb_le. rewrite <- Hq in Hf, Hg.
  destruct (has_quorum_overlap _ _ _ Hf Hg) as (id & Hv & ? & ?). exists id. split_and!; [|done | done].
  simpl in Hv. unfold replica_is_voter. simpl. apply existsb_exists. unfold contains in Hv.
  apply existsb_exists in Hv as (x & Hx & Hid). exists x. split; [|done]. by rewrite collect_In in Hx.
Qed.

Lemma replica_quorum_agrees_witness :
  has_quorum (simple [3; 1; 2]) (fun id => id <=? 2) = true ∧ quorum_size (replica_new [3; 1; 2]) = 2%nat.
Proof.
  destruct (replica_quorum_agrees [3; 1; 2] (fun id => id <=? 2) (fun _ => true)) as [H _].
  - repeat constructor; set_solver.
  - split; [rewrite H; reflexivity | reflexivity].
Defined.
