(* ===== verification/Commit.v ===== *)
(** * Commit advancement of a leader

    Theorems about [advance_commit_index] and [maybe_commit] of Leader.v, for logs
    with any configuration entries: the commit index moves to the highest entry of
    the leader's term that a quorum holds, and the loop that commits a joint
    configuration, appends its target and tries again always ends. *)

From S2P Require Import Prelude BTree Membership Log Event Core Role Leader.

Open Scope N_scope.

Lemma find_rev_range (f : N → bool) lo hi :
  match find f (rev (range_incl lo hi)) with
  | Some k => lo ≤ k ≤ hi ∧ f k = true ∧ ∀ j, k < j ≤ hi → f j = false
  | None => ∀ j, lo ≤ j ≤ hi → f j = false
  end.
Proof.
  assert (∀ n, n = N.to_nat (hi + 1 - lo) → match find f (rev (range_incl lo hi)) with
    | Some k => lo ≤ k ≤ hi ∧ f k = true ∧ ∀ j, k < j ≤ hi → f j = false
    | None => ∀ j, lo ≤ j ≤ hi → f j = false end) as H; [|by eapply H].
  intros n. revert hi. induction n as [|n IH]; intros hi Hn; unfold range_incl.
  { destruct (N.ltb_spec hi lo); [cbn; lia | lia]. }
  destruct (N.ltb_spec hi lo); [lia |]. replace (N.to_nat (hi - lo + 1)) with (S n) by lia.
  rewrite seq_S, map_app, rev_app_distr. cbn [map rev app find].
  replace (lo + N.of_nat (0 + n)) with hi by lia. destruct (f hi) eqn:Ef.
  { split_and!; [lia | lia | done | lia]. }
  destruct (decide (hi = lo)) as [->|Hne].
  { replace n with 0%nat by lia. cbn. intros j Hj. by replace j with lo by lia. }
  specialize (IH (hi - 1) ltac:(lia)). unfold range_incl in IH. destruct (N.ltb_spec (hi - 1) lo); [lia |].
  replace (N.to_nat (hi - 1 - lo + 1)) with n in IH by lia. destruct (find f _) as [k|].
  - destruct IH as ([? ?] & ? & Hj). split_and!; [lia | lia | done |]. intros j ?. destruct (decide (j = hi)) as [->|]; [done |].
    apply Hj. lia.
  - intros j ?. destruct (decide (j = hi)) as [->|]; [done |]. apply IH. lia.
Qed.

Lemma advance_commit_cases l c :
  commit_index c < u64_max →
  let c' := advance_commit_index l c in
  persistent c' = persistent c ∧ config c' = config c ∧
  (c' = c ∨ (commit_index c < commit_index c' ≤ last_index (log c) ∧ can_commit l c (commit_index c') = true)) ∧
  ∀ j, commit_index c' < j ≤ last_index (log c) → can_commit l c j = false.
Proof.
  intros Hb. cbn zeta. unfold advance_commit_index. rewrite u64_add_small by ulia.
  pose proof (find_rev_range (can_commit l c) (commit_index c + 1) (last_index (log c))) as Hf.
  destruct (find _ _) as [k|].
  - destruct Hf as (? & ? & Hj). cbn. split_and!; [done | done | right; split; [lia | done] | done].
  - split_and!; [done | done | by left |]. intros j ?. apply Hf. lia.
Qed.

(** ** The loop *)

(** Indices of other nodes' logs are [u64] values. *)
Definition next_small (l : Leader) : Prop := ∀ n v, next_index l !! n = Some v → v < u64_modulus.

Lemma send_append_to_total l c n :
  log_wf (log c) → next_small l → ∃ l' e, send_append_to l c n = Some (l', e) ∧ next_small l'.
Proof.
  intros Hw Hl. unfold send_append_to. destruct (_ <=? _); [eauto |].
  assert (default 1 (next_index l !! n) < u64_modulus) as Hn.
  { destruct (next_index l !! n) as [v|] eqn:E; [by apply (Hl n) | done]. }
  rewrite slice_eq; [|done | done |].
  2: { eapply N.le_lt_trans; [apply N.le_min_r |]. apply u64_add_lt. }
  eexists _, _. split; [reflexivity |]. destruct (_ && _); [|done]. intros k v Hv. cbn in Hv.
  apply lookup_insert_Some in Hv as [[_ <-]|[_ Hv]]; [|by eapply Hl]. destruct (last _); [apply u64_add_lt | done].
Qed.

Lemma send_append_all_total c ns : log_wf (log c) → ∀ l e,
  next_small l → ∃ l' e', send_append_all l c ns e = Some (l', e') ∧ next_small l'.
Proof.
  intros Hw. induction ns as [|n ns IH]; intros l e Hl; cbn [send_append_all]; [eauto |].
  destruct (send_append_to_total l c n Hw Hl) as (l1 & e1 & -> & Hl1). by apply IH.
Qed.

Lemma or_insert_small v ns (m : gmap NodeId LogIndex) :
  v < u64_modulus → (∀ n x, m !! n = Some x → x < u64_modulus) →
  ∀ n x, fold_left (fun m id => match m !! id with Some _ => m | None => <[id := v]> m end) ns m !! n = Some x →
         x < u64_modulus.
Proof.
  intros Hv. revert m. induction ns as [|k ns IH]; intros m Hm; [exact Hm |]. cbn [fold_left]. apply IH.
  intros n x. destruct (m !! k); [apply Hm |]. intros [[_ <-]|[_ ?]]%lookup_insert_Some; [done | by eapply Hm].
Qed.

Definition is_joint_entry (e : Entry) : bool :=
  match e_payload e with PConfig cfg => bool_decide (is_Some (transition_target cfg)) | PCommand _ => false end.

(** The joint configurations that are not committed yet. *)
Definition pending_joints (c : Core) : nat :=
  length (List.filter (fun e => is_joint_entry e && (commit_index c <? e_index e)) (entries (log c))).

Lemma append_transition_target_total l c cfg target :
  log_wf (log c) → next_small l → last_index (log c) + 1 < u64_max → transition_target cfg = Some target →
  ∃ l' c' e, append_transition_target l c target = Some (l', c', e) ∧ next_small l' ∧ log_wf (log c') ∧
    commit_index c' = commit_index c ∧ last_index (log c') = last_index (log c) + 1 ∧
    entries (log c) `prefix_of` entries (log c') ∧ pending_joints c' = pending_joints c.
Proof.
  intros Hw Hl Hb Ht. unfold append_transition_target. rewrite u64_add_small by ulia.
  set (e := mkEntry _ _ _). set (c1 := set_log c (append (log c) e)).
  assert (log_wf (log c1)) as Hw1 by (apply append_wf; [done | done | cbn; lia]).
  assert (next_small (reinit_progress l c1)) as Hl1.
  { unfold next_small, reinit_progress. cbn. apply or_insert_small; [apply u64_add_lt | exact Hl]. }
  destruct (send_append_all_total c1 (replication_peers (effective_config c1) (core_id c1)) Hw1 _ none Hl1) as (l2 & e2 & E & Hl2).
  unfold broadcast_append. rewrite E. eexists _, _, _. split; [reflexivity |]. split_and!; try done.
  - unfold c1. cbn. by rewrite last_index_append.
  - unfold c1. cbn. by exists [e].
  - unfold pending_joints, c1. cbn. rewrite List.filter_app. cbn. unfold is_joint_entry. cbn.
    destruct cfg; [done |]. injection Ht as <-. cbn. by rewrite app_nil_r.
Qed.

Lemma filter_length_lt {A} (f g : A → bool) x l :
  (∀ y, g y = true → f y = true) → x ∈ l → f x = true → g x = false →
  (length (List.filter g l) < length (List.filter f l))%nat.
Proof.
  intros Hgf Hx Hf Hg. assert (∀ k : list A, length (List.filter g k) ≤ length (List.filter f k))%nat as Hle.
  { induction k as [|y k IH]; [done |]. cbn. destruct (g y) eqn:Ey; [rewrite (Hgf y Ey); cbn; lia |]. destruct (f y); cbn; lia. }
  induction l as [|y l IH]; [by apply elem_of_nil in Hx |]. cbn. apply elem_of_cons in Hx as [->|Hx].
  - rewrite Hf, Hg. cbn. specialize (Hle l). lia.
  - specialize (IH Hx). destruct (g y) eqn:Ey; [rewrite (Hgf y Ey); cbn; lia |]. destruct (f y); cbn; lia.
Qed.

(** Processing the newly committed entries ends, and asks for another round only
    after one of the pending joint configurations was committed. *)
Lemma process_indices_total l c old idxs :
  log_wf (log c) → next_small l → last_index (log c) + 1 < u64_max →
  (∀ k, k ∈ idxs → old < k ≤ commit_index c) → commit_index c < u64_modulus →
  ∃ l' c' r, process_indices l c idxs = Some (l', c', r) ∧ next_small l' ∧ log_wf (log c') ∧
    commit_index c' = commit_index c ∧ entries (log c) `prefix_of` entries (log c') ∧
    last_index (log c) ≤ last_index (log c') ∧
    match r with
    | Continue _ => last_index (log c') = last_index (log c) + 1 ∧
                    (pending_joints c' < pending_joints (set_commit_index c old))%nat
    | StepDown _ | Done => True
    end.
Proof.
  intros Hw Hl Hb Hidx Hc. induction idxs as [|k idxs IH]; cbn [process_indices].
  { eexists l, c, Done. by split_and!. }
  assert (∀ j, j ∈ idxs → old < j ≤ commit_index c) as Hrest by (intros j Hj; apply Hidx; by right).
  specialize (IH Hrest). destruct (get (log c) k) as [e|] eqn:Hg; [|exact IH].
  destruct (Hidx k ltac:(left)) as [Hk1 Hk2].
  apply get_Some in Hg as (_ & Hek & He); [|done | lia]. destruct (e_payload e) as [|cfg] eqn:Hp; [exact IH |].
  destruct (negb _); [eexists l, c, (StepDown _); by split_and! |].
  destruct (transition_target cfg) as [target|] eqn:Ht; [|exact IH].
  destruct (append_transition_target_total l c cfg target Hw Hl Hb Ht)
    as (l1 & c1 & e1 & -> & H1 & H2 & H3 & H4 & H5 & H6).
  eexists l1, c1, (Continue e1). split_and!; try done; [lia |]. rewrite H6. unfold pending_joints. cbn.
  apply (filter_length_lt _ _ e).
  - intros y. rewrite !andb_true_iff, !N.ltb_lt. intros [? ?]. split; [done | lia].
  - by eapply list_elem_of_lookup_2.
  - unfold is_joint_entry. rewrite Hp, Ht, bool_decide_eq_true_2 by eauto. cbn. rewrite Hek. by apply N.ltb_lt.
  - unfold is_joint_entry. rewrite Hp, Ht, bool_decide_eq_true_2 by eauto. cbn. rewrite Hek. by apply N.ltb_ge.
Qed.

Lemma commit_loop_total fuel : ∀ l c e,
  log_wf (log c) → next_small l → commit_index c ≤ last_index (log c) →
  last_index (log c) + 1 + N.of_nat (pending_joints c) < u64_max → (pending_joints c < fuel)%nat →
  ∃ l' c' e' b, commit_loop fuel l c e = Some (l', c', e', b) ∧ next_small l' ∧ log_wf (log c') ∧
    commit_index c ≤ commit_index c' ≤ last_index (log c') ∧ entries (log c) `prefix_of` entries (log c').
Proof.
  induction fuel as [|fuel IH]; intros l c e Hw Hl Hc Hb Hf; [lia |]. cbn [commit_loop].
  destruct (advance_commit_cases l c) as (Hp & Hcfg & Hadv & _); [ulia |].
  set (c1 := advance_commit_index l c) in *. assert (log c1 = log c) as Hlog by (unfold log; by rewrite Hp).
  destruct (N.eqb_spec (commit_index c1) (commit_index c)) as [Heq|Hne].
  { eexists l, c1, e, false. rewrite Hlog, Heq. by split_and!. }
  assert (commit_index c < commit_index c1 ≤ last_index (log c)) as Hlt by (destruct Hadv as [Hsame|[? _]]; [by rewrite Hsame in Hne | done]).
  destruct (process_indices_total l c1 (commit_index c) (range_incl (commit_index c +u 1) (commit_index c1)))
    as (l2 & c2 & r & E & Hl2 & Hw2 & Hci2 & Hpre & Hlast & Hr); [by rewrite Hlog | done | rewrite Hlog; lia | | ulia |].
  { intros k Hk%list_elem_of_In. rewrite range_incl_In, u64_add_small in Hk by ulia. lia. }
  unfold process_committed_configs. rewrite E. rewrite Hlog in Hpre, Hlast, Hr.
  destruct r as [e2|e2|].
  - assert (pending_joints (set_commit_index c1 (commit_index c)) = pending_joints c) as Hpj
      by (unfold pending_joints; change (log (set_commit_index c1 (commit_index c))) with (log c1); by rewrite Hlog).
    rewrite Hpj in Hr. destruct Hr as [Hl1 Hlt2].
    destruct (IH l2 c2 (merge e e2)) as (l3 & c3 & e3 & b & -> & H1 & H2 & H3 & H4); [done | done | lia | lia | lia |].
    eexists _, _, _, _. split; [reflexivity |]. split_and!; [done | done | lia | lia | by etrans].
  - eexists _, _, _, _. split; [reflexivity |]. split_and!; [done | done | lia | lia | done].
  - eexists _, _, _, _. split; [reflexivity |]. split_and!; [done | done | lia | lia | done].
Qed.

Lemma pending_joints_le c : (pending_joints c ≤ length (entries (log c)))%nat.
Proof. apply List.filter_length_le. Qed.

(** ** Theorems *)

Lemma advance_commit_sets l c :
  advance_commit_index l c = set_commit_index c (commit_index (advance_commit_index l c)).
Proof. unfold advance_commit_index. destruct (find _ _); by destruct c. Qed.

(** A quorum of the effective configuration holds the entry [k]. *)
Definition quorum_holds (l : Leader) (c : Core) (k : LogIndex) : bool :=
  has_quorum (effective_config c) (fun voter => k <=? matched l voter).

(** C23: the commit rule. [advance_commit_index] sets the commit index to the highest
    index of the log above it whose entry is of the leader's term and which a quorum
    of the effective configuration (of both configurations of a joint one) holds
    according to [match_index], and leaves it alone when there is none. No other field
    of the core changes: not the persistent state or the configuration, and not the
    applied index, the clock or the generator. *)
Theorem advance_commit_index_correct l c :
  commit_index c < u64_max →
  ∃ k, advance_commit_index l c = set_commit_index c k ∧
  (k = commit_index c ∨
   (commit_index c < k ≤ last_index (log c) ∧ term_at (log c) k = term c ∧ quorum_holds l c k = true)) ∧
  ∀ j, k < j ≤ last_index (log c) → term_at (log c) j ≠ term c ∨ quorum_holds l c j = false.
Proof.
  intros Hb. destruct (advance_commit_cases l c Hb) as (_ & _ & Hadv & Hmax).
  exists (commit_index (advance_commit_index l c)). split_and!; [apply advance_commit_sets | |].
  - destruct Hadv as [->|[? Hcan]]; [by left | right]. unfold can_commit in Hcan.
    apply andb_true_iff in Hcan as [?%N.eqb_eq ?]. done.
  - intros j Hj. specialize (Hmax j Hj). unfold can_commit in Hmax.
    apply andb_false_iff in Hmax as [?%N.eqb_neq|?]; [by left | by right].
Qed.

(** Committing terminates. On a well-formed log with room for the targets of its
    uncommitted joint configurations, [maybe_commit] ends without panic; the commit
    index does not decrease and stays within the log, and the log only grows. *)
Theorem maybe_commit_total l c :
  log_wf (log c) → next_small l → commit_index c ≤ last_index (log c) →
  last_index (log c) + 1 + N.of_nat (pending_joints c) < u64_max →
  ∃ l' c' e b, maybe_commit l c = Some (l', c', e, b) ∧ next_small l' ∧ log_wf (log c') ∧
    commit_index c ≤ commit_index c' ≤ last_index (log c') ∧ entries (log c) `prefix_of` entries (log c').
Proof.
  intros Hw Hl Hc Hb. apply commit_loop_total; [done | done | done | done |]. pose proof (pending_joints_le c). lia.
Qed.

(** A leader alone in its cluster that moves to a configuration with a second node:
    the joint configuration at index 1 is held by both. *)
Definition demo_joint : Core :=
  mkCore (config_new 1)
    (mkPersistent 1 (Some 1) (mkLog [mkEntry 1 1 (PConfig (Joint [1] [1; 2] []))] 0 0 None) (Simple [1] []))
    0 0 0 7.
Definition demo_leader : Leader := mkLeader {[1 := 2; 2 := 2]} {[1 := 1; 2 := 1]} 50 ∅ 1 None 0.

Lemma advance_commit_index_correct_witness :
  commit_index (advance_commit_index demo_leader demo_joint) = 1 ∧
  ∃ k, advance_commit_index demo_leader demo_joint = set_commit_index demo_joint k ∧
    ∀ j, k < j ≤ last_index (log demo_joint) →
      term_at (log demo_joint) j ≠ term demo_joint ∨ quorum_holds demo_leader demo_joint j = false.
Proof.
  split; [vm_compute; reflexivity |].
  destruct (advance_commit_index_correct demo_leader demo_joint eq_refl) as (k & E & _ & Hmax).
  exists k. split; [exact E | exact Hmax].
Defined.

Lemma demo_joint_wf : log_wf (log demo_joint).
Proof.
  split; [|reflexivity]. intros [|i] e He; [injection He as <-; reflexivity |]. destruct i; discriminate He.
Qed.

Lemma maybe_commit_total_witness :
  pending_joints demo_joint = 1%nat ∧
  ∃ l' c' e b, maybe_commit demo_leader demo_joint = Some (l', c', e, b) ∧ next_small l' ∧ log_wf (log c') ∧
    commit_index demo_joint ≤ commit_index c' ≤ last_index (log c') ∧
    entries (log demo_joint) `prefix_of` entries (log c').
Proof.
  split; [reflexivity |]. apply (maybe_commit_total demo_leader demo_joint demo_joint_wf); [|vm_compute; congruence | reflexivity].
  intros n v Hv. cbn in Hv. apply lookup_insert_Some in Hv as [[_ <-]|[_ Hv]]; [reflexivity |].
  apply lookup_singleton_Some in Hv as [_ <-]. reflexivity.
Defined.
