(* ===== verification/Node.v ===== *)
(** * The Raft node

    consensus/cloud9-raft/src/raft/mod.rs: [RaftNode] runs the role automata,
    applies the transitions they ask for and offers the caller's interface. An
    operation on [&mut self] returns the new node; [None] is a panic. *)

From S2P Require Import Prelude BTree Membership Log Event Core Role.
From S2P Require Import Follower PreCandidate Candidate Leader.

Open Scope N_scope.

Inductive RoleState :=
| RFollower (f : Follower.Follower)
| RPreCandidate (p : PreCandidate.PreCandidate)
| RCandidate (p : Candidate.Candidate)
| RLeader (l : Leader.Leader).

Record RaftNode := mkRaftNode { core : Core; role : RoleState }.

(** [CommittedEntry] of consensus/cloud9-raft/src/lib.rs. *)
Record CommittedEntry := mkCommittedEntry {
  ce_index : LogIndex; ce_term : Term; ce_command : Command }.

Definition role_is_leader (r : RoleState) : bool := match r with RLeader _ => true | _ => false end.
Definition role_is_candidate (r : RoleState) : bool := match r with RCandidate _ => true | _ => false end.
Definition role_is_precandidate (r : RoleState) : bool :=
  match r with RPreCandidate _ => true | _ => false end.
Definition role_is_follower (r : RoleState) : bool := match r with RFollower _ => true | _ => false end.

(** [Follower::new] on the node's core, stored as its role. *)
Definition become_follower (c : Core) (leader : option NodeId) : option RaftNode :=
  let* (f, c) := Follower.new c leader in Some (mkRaftNode c (RFollower f)).

Definition node_new (config : Config) (voters : list NodeId) : option RaftNode :=
  become_follower (core_new config voters) None.

Definition node_restore (config : Config) (persistent : Persistent) : option RaftNode :=
  become_follower (core_restore config persistent) None.

Definition node_id (n : RaftNode) : NodeId := core_id (core n).
Definition node_term (n : RaftNode) : Term := term (core n).
Definition is_leader (n : RaftNode) : bool := role_is_leader (role n).
Definition is_follower (n : RaftNode) : bool := role_is_follower (role n).
Definition is_candidate (n : RaftNode) : bool := role_is_candidate (role n).
Definition is_precandidate (n : RaftNode) : bool := role_is_precandidate (role n).

Definition node_leader (n : RaftNode) : option NodeId :=
  match role n with
  | RLeader _ => Some (node_id n)
  | RFollower f => Follower.leader f
  | RPreCandidate _ | RCandidate _ => None
  end.

Definition node_commit_index (n : RaftNode) : LogIndex := commit_index (core n).
Definition node_persistent (n : RaftNode) : Persistent := persistent (core n).

Definition node_ticks_until_deadline (n : RaftNode) : N :=
  match role n with
  | RFollower f => Follower.ticks_until_deadline f (ticks (core n))
  | RPreCandidate p => PreCandidate.ticks_until_deadline p (ticks (core n))
  | RCandidate p => Candidate.ticks_until_deadline p (ticks (core n))
  | RLeader l => Leader.ticks_until_deadline l (ticks (core n))
  end.

(** ** Transitions *)

Definition become_leader (c : Core) : option (RaftNode * Effects) :=
  let* (l, c, e) := Leader.new c in Some (mkRaftNode c (RLeader l), e).

(** [Candidate::new] with its check for an immediate win. *)
Definition become_candidate (c : Core) : option (RaftNode * Effects) :=
  let* (p, c, e) := Candidate.new c in
  if Candidate.has_quorum p c then
    let* (n, leader_effects) := become_leader c in Some (n, merge e leader_effects)
  else Some (mkRaftNode c (RCandidate p), e).

Definition become_precandidate (c : Core) : option (RaftNode * Effects) :=
  let* (p, c, e) := PreCandidate.new c in
  if PreCandidate.has_quorum p c then
    let* (n, candidate_effects) := become_candidate c in Some (n, merge e candidate_effects)
  else Some (mkRaftNode c (RPreCandidate p), e).

Definition apply_transition (n : RaftNode) (t : Transition) : option (RaftNode * Effects) :=
  match t with
  | Stay => Some (n, none)
  | ToFollower leader => let* n := become_follower (core n) leader in Some (n, none)
  | ToFollowerAfterContact leader =>
      let* (f, c) := Follower.after_leader_contact (core n) leader in
      Some (mkRaftNode c (RFollower f), none)
  | ToPreCandidate => become_precandidate (core n)
  | ToCandidate => become_candidate (core n)
  | ToLeader => become_leader (core n)
  end.

(** The [match] of [step_event] on the role. *)
Definition role_step (n : RaftNode) (e : Event) : option (RaftNode * StepResult) :=
  match role n with
  | RFollower f =>
      let* (f, c, r) := Follower.step f (core n) e in Some (mkRaftNode c (RFollower f), r)
  | RPreCandidate p =>
      let* (p, c, r) := PreCandidate.step p (core n) e in Some (mkRaftNode c (RPreCandidate p), r)
  | RCandidate p =>
      let* (p, c, r) := Candidate.step p (core n) e in Some (mkRaftNode c (RCandidate p), r)
  | RLeader l =>
      let* (l, c, r) := Leader.step l (core n) e in Some (mkRaftNode c (RLeader l), r)
  end.

Definition step_event (n : RaftNode) (e : Event) : option (RaftNode * Effects) :=
  let* (n, r) := role_step n e in
  match transition r with
  | Stay => Some (n, effects r)
  | t =>
      let* (n, transition_effects) := apply_transition n t in
      Some (n, merge (effects r) transition_effects)
  end.

Definition tick (n : RaftNode) : option (RaftNode * Effects) := step_event n ETick.
Definition node_step (n : RaftNode) (m : Message) : option (RaftNode * Effects) :=
  step_event n (EMessage m).
Definition disk_write_complete (n : RaftNode) (i : LogIndex) : option (RaftNode * Effects) :=
  step_event n (EDiskWriteComplete i).

(** ** The caller's operations *)

(** The step-down of [propose] and [propose_config_change]. *)
Definition step_down_if (c : Core) (l : Leader.Leader) (should_step_down : bool) : option RaftNode :=
  if should_step_down then become_follower c None else Some (mkRaftNode c (RLeader l)).

Definition node_propose (n : RaftNode) (cmd : Command)
    : option (RaftNode * (ProposeError + LogIndex * Effects)) :=
  match role n with
  | RLeader l =>
      let* exceeded := proposal_limit_exceeded (core n) cmd in
      if (exceeded : bool) then Some (n, inl Throttled)
      else
        let* (l, c, index, effects, should_step_down) := Leader.propose l (core n) cmd in
        let* n := step_down_if c l should_step_down in
        Some (n, inr (index, effects))
  | _ => Some (n, inl (PENotLeader (node_leader n)))
  end.

Definition node_request_read_index (n : RaftNode)
    : RaftNode * (ReadIndexError + LogIndex * Effects) :=
  match role n with
  | RLeader l =>
      match Leader.request_read_index l (core n) with
      | inl e => (n, inl e)
      | inr (l, index, effects) => (mkRaftNode (core n) (RLeader l), inr (index, effects))
      end
  | _ => (n, inl (RENotLeader (node_leader n)))
  end.

Definition node_read_index_ready (n : RaftNode) (read_index : LogIndex) : bool :=
  match role n with
  | RLeader l => Leader.read_index_ready l (core n) read_index
  | _ => false
  end.

Definition node_propose_config_change (n : RaftNode) (change : ConfigChange)
    : option (RaftNode * (ConfigChangeError + LogIndex * Effects)) :=
  match role n with
  | RLeader l =>
      let* r := Leader.propose_config_change l (core n) change in
      match r with
      | inl e => Some (n, inl e)
      | inr (l, c, index, effects, should_step_down) =>
          let* n := step_down_if c l should_step_down in
          Some (n, inr (index, effects))
      end
  | _ => Some (n, inl NotLeader)
  end.

Definition node_transfer_leadership (n : RaftNode) (target : NodeId) : TransferError + Effects :=
  match role n with
  | RLeader l => Leader.transfer_leadership l (core n) target
  | _ => inl TENotLeader
  end.

(** The closure of [committed]. *)
Definition committed_entry (l : Log) (idx : LogIndex) : option CommittedEntry :=
  let* entry := get l idx in
  match e_payload entry with
  | PCommand cmd => Some (mkCommittedEntry (e_index entry) (e_term entry) cmd)
  | PConfig _ => None
  end.

Definition committed (n : RaftNode) : list CommittedEntry :=
  omap (committed_entry (log (core n)))
    (range_excl (last_applied (core n) +u 1) (commit_index (core n) +u 1)).

Definition advance (n : RaftNode) (applied_to : LogIndex) : RaftNode :=
  mkRaftNode (set_last_applied (core n) applied_to) (role n).
