(* ===== verification/Raft.v ===== *)
(** * Abstract Raft

    The protocol the node implements, without timers, progress tables and
    effects: a cluster of abstract nodes (term, vote, log and role) over a set of
    messages in flight, moving by small steps (observe a term, grant a vote, start
    an election, count a vote, lead, propose, accept entries, send). The history
    lists record votes cast, leaders elected and log entries created with the
    term of their predecessor; no step reads them. File Refine shows that each
    event of a [RaftNode] is a sequence of these steps. [T] bounds the terms and
    log lengths of an execution, so that 64-bit counters do not wrap. *)

From S2P Require Import Prelude BTree Membership Log Event Core Follower.

Open Scope N_scope.

Inductive ARole := AFollower | ACandidate (votes : BTreeSet) | ALeader.

Record ANode := mkANode {
  a_term : Term; a_voted : option NodeId; a_log : Log; a_role : ARole }.

Record ACluster := mkACluster {
  a_nodes : NodeId → ANode;
  a_net : list Message;
  h_votes : list (NodeId * Term * NodeId);
  h_leaders : list (Term * NodeId);
  h_links : list (Term * Entry)
}.

Definition upd {A} (f : NodeId → A) (i : NodeId) (a : A) : NodeId → A :=
  fun j => if j =? i then a else f j.

(** The entries of an append request are a piece of the sender's log. *)
Record segment (l : Log) (q : AppendRequest) : Prop := {
  seg_term : aq_prev_log_term q = term_at l (aq_prev_log_index q);
  seg_get : ∀ j e, aq_entries q !! j = Some e → get l (aq_prev_log_index q + 1 + N.of_nat j) = Some e;
  seg_bound : aq_prev_log_index q + vlen (aq_entries q) < u64_modulus
}.

(** A candidate's log that ends at index [li] with term [lt] is at least as
    up-to-date as [l]. *)
Definition up_to_date (l : Log) (lt : Term) (li : LogIndex) : Prop :=
  last_term l < lt ∨ (lt = last_term l ∧ last_index l ≤ li).

(** What a node in state [a] may send. *)
Definition msg_ok (T : N) (i : NodeId) (a : ANode) (m : Message) : Prop :=
  msg_from m = i ∧ msg_term m ≤ T ∧
  match msg_payload m with
  | PVoteRequest q => msg_term m = a_term a ∧ (∃ vs, a_role a = ACandidate vs) ∧
      vq_last_log_index q = last_index (a_log a) ∧ vq_last_log_term q = last_term (a_log a)
  | PVoteResponse r => vr_granted r = true → msg_term m = a_term a ∧ a_voted a = Some (msg_to m)
  | PAppendRequest q => msg_term m = a_term a ∧ a_role a = ALeader ∧ segment (a_log a) q
  | PPreVoteResponse r => pvr_term r ≤ T
  | PAppendResponse r => ar_last_log_index r ≤ T
  | PInstallSnapshotRequest _ | PInstallSnapshotResponse _ => False
  | _ => True
  end.

(** Nodes never send snapshots: they only ask their caller to
    ([Effects::send_snapshots]), and the deployed runtime refuses to. *)
Definition is_install (p : Payload) : bool :=
  match p with PInstallSnapshotRequest _ | PInstallSnapshotResponse _ => true | _ => false end.

Section Raft.

Context (cfg : Configuration) (T : N).

Inductive micro : ACluster → ACluster → Prop :=
| M_observe s i t :
    let a := a_nodes s i in
    a_term a < t → t ≤ T →
    micro s (mkACluster (upd (a_nodes s) i (mkANode t None (a_log a) AFollower))
               (a_net s) (h_votes s) (h_leaders s) (h_links s))
| M_step_down s i :
    let a := a_nodes s i in
    micro s (mkACluster (upd (a_nodes s) i (mkANode (a_term a) (a_voted a) (a_log a) AFollower))
               (a_net s) (h_votes s) (h_leaders s) (h_links s))
| M_grant s i c m q :
    let a := a_nodes s i in
    a_role a = AFollower → (a_voted a = None ∨ a_voted a = Some c) →
    In m (a_net s) → msg_from m = c → msg_term m = a_term a → msg_payload m = PVoteRequest q →
    up_to_date (a_log a) (vq_last_log_term q) (vq_last_log_index q) →
    micro s (mkACluster (upd (a_nodes s) i (mkANode (a_term a) (Some c) (a_log a) AFollower))
               (a_net s) ((i, a_term a, c) :: h_votes s) (h_leaders s) (h_links s))
| M_elect s i :
    let a := a_nodes s i in
    a_term a + 1 ≤ T →
    micro s
      (if is_voter cfg i then
         mkACluster (upd (a_nodes s) i (mkANode (a_term a + 1) (Some i) (a_log a) (ACandidate [i])))
           (a_net s) ((i, a_term a + 1, i) :: h_votes s) (h_leaders s) (h_links s)
       else
         mkACluster (upd (a_nodes s) i (mkANode (a_term a + 1) None (a_log a) (ACandidate [])))
           (a_net s) (h_votes s) (h_leaders s) (h_links s))
| M_count s i vs m r :
    let a := a_nodes s i in
    a_role a = ACandidate vs → In m (a_net s) → msg_to m = i → msg_term m = a_term a →
    msg_payload m = PVoteResponse r → vr_granted r = true →
    micro s (mkACluster
               (upd (a_nodes s) i
                  (mkANode (a_term a) (a_voted a) (a_log a) (ACandidate (insert (msg_from m) vs))))
               (a_net s) (h_votes s) (h_leaders s) (h_links s))
| M_lead s i vs :
    let a := a_nodes s i in
    a_role a = ACandidate vs → has_quorum cfg (contains vs) = true →
    micro s (mkACluster (upd (a_nodes s) i (mkANode (a_term a) (a_voted a) (a_log a) ALeader))
               (a_net s) (h_votes s) ((a_term a, i) :: h_leaders s) (h_links s))
| M_propose s i cmd :
    let a := a_nodes s i in
    let e := mkEntry (a_term a) (last_index (a_log a) + 1) (PCommand cmd) in
    a_role a = ALeader → last_index (a_log a) + 1 ≤ T →
    micro s (mkACluster
               (upd (a_nodes s) i (mkANode (a_term a) (a_voted a) (append (a_log a) e) ALeader))
               (a_net s) (h_votes s) (h_leaders s)
               ((term_at (a_log a) (last_index (a_log a)), e) :: h_links s))
| M_accept s i m q :
    let a := a_nodes s i in
    a_role a = AFollower → In m (a_net s) → msg_to m = i → msg_term m = a_term a →
    msg_payload m = PAppendRequest q →
    (0 < aq_prev_log_index q → term_at (a_log a) (aq_prev_log_index q) = aq_prev_log_term q) →
    micro s (mkACluster
               (upd (a_nodes s) i
                  (mkANode (a_term a) (a_voted a) (append_entries (a_log a) false (aq_entries q)).1 AFollower))
               (a_net s) (h_votes s) (h_leaders s) (h_links s))
| M_send s i m :
    msg_ok T i (a_nodes s i) m →
    micro s (mkACluster (a_nodes s) (a_net s ++ [m]) (h_votes s) (h_leaders s) (h_links s)).

(** ** Invariants *)

(** Every entry of the log was created after an entry of the term that precedes
    it in this log. *)
Record log_ok (links : list (Term * Entry)) (l : Log) : Prop := {
  lo_wf : log_wf l;
  lo_snapshot : snapshot_index l = 0;
  lo_meta : snapshot_config l = None ∧ snapshot_term l = 0;
  lo_link : ∀ k e, k < u64_modulus → get l k = Some e → In (term_at l (k - 1), e) links
}.

Fixpoint chained (links : list (Term * Entry)) (pt : Term) (es : list Entry) : Prop :=
  match es with
  | [] => True
  | e :: es => In (pt, e) links ∧ chained links (e_term e) es
  end.

Record request_ok (links : list (Term * Entry)) (q : AppendRequest) : Prop := {
  ro_batch : aq_entries q ≠ [] → batch (aq_prev_log_index q) (aq_entries q);
  ro_chain : chained links (aq_prev_log_term q) (aq_entries q);
  ro_first : aq_prev_log_index q = 0 → aq_prev_log_term q = 0;
  ro_prev : aq_entries q ≠ [] → 0 < aq_prev_log_index q → aq_prev_log_term q ≠ 0
}.

Record vote_inv (s : ACluster) : Prop := {
  iv_fun : ∀ v t c c', In (v, t, c) (h_votes s) → In (v, t, c') (h_votes s) → c = c';
  iv_cur : ∀ v t c, In (v, t, c) (h_votes s) →
    t ≤ a_term (a_nodes s v) ∧ (t = a_term (a_nodes s v) → a_voted (a_nodes s v) = Some c);
  iv_hist : ∀ v c, a_voted (a_nodes s v) = Some c → In (v, a_term (a_nodes s v), c) (h_votes s);
  iv_net : ∀ m r, In m (a_net s) → msg_payload m = PVoteResponse r → vr_granted r = true →
    In (msg_from m, msg_term m, msg_to m) (h_votes s);
  iv_cand : ∀ i vs v, a_role (a_nodes s i) = ACandidate vs → In v vs →
    In (v, a_term (a_nodes s i), i) (h_votes s)
}.

(** [v] voted for [i] in [t]. *)
Definition voted_in (votes : list (NodeId * Term * NodeId)) (t : Term) (i v : NodeId) : bool :=
  existsb (fun '(v', t', c) => (v' =? v) && (t' =? t) && (c =? i)) votes.

Record lead_inv (s : ACluster) : Prop := {
  il_quorum : ∀ t i, In (t, i) (h_leaders s) → has_quorum cfg (voted_in (h_votes s) t i) = true;
  il_role : ∀ i, a_role (a_nodes s i) = ALeader → In (a_term (a_nodes s i), i) (h_leaders s);
  il_term : ∀ t i, In (t, i) (h_leaders s) → 0 < t ≤ a_term (a_nodes s i);
  il_cand : ∀ i vs, a_role (a_nodes s i) = ACandidate vs →
    0 < a_term (a_nodes s i) ∧ ¬ In (a_term (a_nodes s i), i) (h_leaders s)
}.

Record log_inv (s : ACluster) : Prop := {
  ig_log : ∀ i, log_ok (h_links s) (a_log (a_nodes s i));
  ig_fun : ∀ p e p' e', In (p, e) (h_links s) → In (p', e') (h_links s) →
    e_term e = e_term e' → e_index e = e_index e' → p = p' ∧ e = e';
  ig_entry : ∀ p e, In (p, e) (h_links s) →
    0 < e_index e ≤ T ∧ 0 < e_term e ∧ is_config (e_payload e) = false;
  ig_lead : ∀ p e, In (p, e) (h_links s) → ∃ i, In (e_term e, i) (h_leaders s);
  ig_own : ∀ p e i, In (p, e) (h_links s) → a_role (a_nodes s i) = ALeader →
    a_term (a_nodes s i) = e_term e → e_index e ≤ last_index (a_log (a_nodes s i));
  ig_net : ∀ m q, In m (a_net s) → msg_payload m = PAppendRequest q → request_ok (h_links s) q
}.

Record bound_inv (s : ACluster) : Prop := {
  ib_term : ∀ i, a_term (a_nodes s i) ≤ T;
  ib_net : ∀ m, In m (a_net s) → msg_term m ≤ T;
  ib_prevote : ∀ m r, In m (a_net s) → msg_payload m = PPreVoteResponse r → pvr_term r ≤ T;
  ib_ack : ∀ m r, In m (a_net s) → msg_payload m = PAppendResponse r → ar_last_log_index r ≤ T;
  ib_install : ∀ m, In m (a_net s) → is_install (msg_payload m) = false
}.

Record ainv (s : ACluster) : Prop := {
  ai_vote : vote_inv s;
  ai_lead : lead_inv s;
  ai_log : log_inv s;
  ai_bound : bound_inv s
}.

End Raft.

Create HintDb raft.

Lemma upd_eq {A} (f : NodeId → A) i a : upd f i a i = a.
Proof. unfold upd. by rewrite N.eqb_refl. Qed.

Lemma upd_ne {A} (f : NodeId → A) i j a : j ≠ i → upd f i a j = f j.
Proof. unfold upd. intros H. by destruct (N.eqb_spec j i). Qed.

(** Split every lookup in an updated node table. *)
Ltac upd_cases :=
  unfold upd in *;
  repeat match goal with
  | _ : context [N.eqb ?j ?i] |- _ => destruct (N.eqb_spec j i); [subst|]; simpl in *
  | |- context [N.eqb ?j ?i] => destruct (N.eqb_spec j i); [subst|]; simpl in *
  end.

Lemma voted_in_spec votes t i v : voted_in votes t i v = true ↔ In (v, t, i) votes.
Proof.
  unfold voted_in. rewrite existsb_exists. split.
  - intros ([[v' t'] c] & Hin & Hb). rewrite !andb_true_iff, !N.eqb_eq in Hb. by destruct Hb as [[-> ->] ->].
  - intros Hin. eexists. split; [exact Hin |]. simpl. by rewrite !N.eqb_refl.
Qed.

Section Facts.

Context (cfg : Configuration) (T : N) (HT : T < u64_max).

Local Abbreviation micro := (micro cfg T).
Local Abbreviation ainv := (ainv cfg T).

Lemma term_at_get0 l k :
  log_wf l → snapshot_index l = 0 → k < u64_modulus →
  term_at l k = match get l k with Some e => e_term e | None => 0 end.
Proof.
  intros H Hs Hk. rewrite term_at_get by done. rewrite Hs.
  destruct (N.eqb_spec k 0) as [->|]; [|done].
  by rewrite get_eq, Hs by done.
Qed.

(** ** Votes *)

(** A step of node [i] that keeps its term and vote and does not make it count
    a new vote. *)
Lemma vote_inv_frame s i l r net leaders links :
  let a := a_nodes s i in
  (∀ m rp, In m net → msg_payload m = PVoteResponse rp → vr_granted rp = true →
     In (msg_from m, msg_term m, msg_to m) (h_votes s)) →
  (∀ vs v, r = ACandidate vs → In v vs → In (v, a_term a, i) (h_votes s)) →
  vote_inv s →
  vote_inv (mkACluster (upd (a_nodes s) i (mkANode (a_term a) (a_voted a) l r)) net (h_votes s) leaders links).
Proof.
  intros a Hnet Hr [Vf Vc Vh Vn Vd]. split; simpl; [done | | | done |].
  - intros v t' c Hin. apply Vc in Hin. by upd_cases.
  - intros v c. upd_cases; apply Vh.
  - intros j vs v. upd_cases; [apply Hr | apply Vd].
Qed.

(** A step of node [i] to a later term, with the vote [vo] cast there. *)
Lemma vote_inv_new_term s i t vo r :
  let a := a_nodes s i in
  a_term a < t → (∀ vs v, r = ACandidate vs → In v vs → v = i ∧ vo = Some i) →
  vote_inv s →
  vote_inv (mkACluster (upd (a_nodes s) i (mkANode t vo (a_log a) r)) (a_net s)
              (match vo with Some c => [(i, t, c)] | None => [] end ++ h_votes s) (h_leaders s) (h_links s)).
Proof.
  intros a Ht Hr [Vf Vc Vh Vn Vd].
  assert (∀ c, ¬ In (i, t, c) (h_votes s)) as Hno.
  { intros c [Hle _]%Vc. fold a in Hle. lia. }
  split; simpl.
  - intros v t' c1 c2. rewrite !in_app_iff.
    destruct vo as [c|]; simpl; [|intros [[]|H1] [[]|H2]; by eapply Vf].
    intros [[H1|[]]|H1] [[H2|[]]|H2]; simplify_eq; try done;
      first [by apply Hno in H1 | by apply Hno in H2 | by eapply Vf].
  - intros v t' c. rewrite in_app_iff. intros [Hin|[Hle Heq]%Vc].
    + destruct vo; simpl in Hin; [|done]. destruct Hin as [|[]]; simplify_eq. by rewrite upd_eq.
    + upd_cases; [fold a in Hle; split; lia | done].
  - intros v c. rewrite in_app_iff. upd_cases; [intros ->; left; by left | right; by apply Vh].
  - intros m rp Hm Hp Hg. rewrite in_app_iff. right. by eapply Vn.
  - intros j vs v. rewrite in_app_iff. upd_cases; [|right; by eapply Vd].
    intros Hv Hin. destruct (Hr _ _ Hv Hin) as [-> ->]. left. by left.
Qed.

Lemma vote_inv_grant s i c :
  let a := a_nodes s i in
  (a_voted a = None ∨ a_voted a = Some c) → vote_inv s →
  vote_inv (mkACluster (upd (a_nodes s) i (mkANode (a_term a) (Some c) (a_log a) AFollower))
               (a_net s) ((i, a_term a, c) :: h_votes s) (h_leaders s) (h_links s)).
Proof.
  intros a Hv [Vf Vc Vh Vn Vd].
  assert (∀ c', In (i, a_term a, c') (h_votes s) → c' = c) as Hsame.
  { intros c' [_ Heq]%Vc. specialize (Heq eq_refl). fold a in Heq. destruct Hv; congruence. }
  split; simpl.
  - intros v t c1 c2 [H1|H1] [H2|H2]; simplify_eq; try done;
      [by apply Hsame in H2 | by apply Hsame in H1 | by eapply Vf].
  - intros v t c' [H1|H1]; simplify_eq; [rewrite upd_eq; simpl; split; [lia | done] |].
    pose proof (Vc _ _ _ H1) as [Hle Heq]. upd_cases; [|done]. split; [done |].
    intros ->. by apply Hsame in H1 as ->.
  - intros v c'. upd_cases; [intros [= ->]; by left | right; by apply Vh].
  - intros m r Hm Hp Hg. right. by eapply Vn.
  - intros j vs v. upd_cases; [done | right; by eapply Vd].
Qed.

Lemma vote_inv_step s s' : micro s s' → vote_inv s → vote_inv s'.
Proof.
  intros Hs Hinv. pose proof Hinv as [Vf Vc Vh Vn Vd].
  destruct Hs as [s i t a Ht HtT|s i a|s i c mq q a Hr Hv Hmq Hfrom Hmt Hpq Hup|s i a Ht|s i vs m r a Hr Hm Hto Htm Hp Hg
                 |s i vs a Hr Hq|s i cmd a e Hr Hl|s i m q a Hr Hm Hto Htm Hp Hprev|s i m Hok].
  - by apply (vote_inv_new_term s i t None AFollower).
  - by apply vote_inv_frame.
  - by apply vote_inv_grant.
  - destruct (is_voter cfg i).
    + apply (vote_inv_new_term s i _ (Some i) (ACandidate [i])); [fold a; lia | | done].
      by intros vs v [= <-] [->|[]].
    + apply (vote_inv_new_term s i _ None (ACandidate [])); [fold a; lia | by intros vs v [= <-] | done].
  - apply vote_inv_frame; [done | | done].
    intros vs' v [= <-] [->|Hin]%insert_In; [|by eapply Vd]. fold a. rewrite <- Htm. subst i. by eapply Vn.
  - by apply vote_inv_frame.
  - by apply vote_inv_frame.
  - by apply vote_inv_frame.
  - split; simpl; [done.. | | done].
    intros m' r [Hm|[<-|[]]]%in_app_iff Hp Hg; [by eapply Vn |].
    destruct Hok as (Hf & _ & Hok). rewrite Hp in Hok. destruct (Hok Hg) as [-> Hvo].
    rewrite Hf. by apply Vh.
Qed.

(** ** Leaders *)

Lemma leader_unique s t i j :
  vote_inv s → lead_inv cfg s → In (t, i) (h_leaders s) → In (t, j) (h_leaders s) → i = j.
Proof.
  intros [Vf _ _ _ _] [Lq _ _ _] Hi%Lq Hj%Lq.
  destruct (has_quorum_overlap _ _ _ Hi Hj) as (v & _ & Hvi%voted_in_spec & Hvj%voted_in_spec).
  by eapply Vf.
Qed.

Lemma voted_in_mono votes votes' t i :
  (∀ x, In x votes → In x votes') →
  has_quorum cfg (voted_in votes t i) = true → has_quorum cfg (voted_in votes' t i) = true.
Proof.
  intros Hsub. apply has_quorum_mono. intros v _. rewrite !voted_in_spec. apply Hsub.
Qed.

(** A step of node [i] that does not lower its term and either keeps the term or
    is not a leader's. *)
Lemma lead_inv_frame s i t vo l r net votes links :
  let a := a_nodes s i in
  a_term a ≤ t → (∀ x, In x (h_votes s) → In x votes) →
  (r = ALeader → t = a_term a ∧ a_role a = ALeader) →
  (∀ vs, r = ACandidate vs → a_term a < t ∨ (t = a_term a ∧ ∃ vs', a_role a = ACandidate vs')) →
  lead_inv cfg s →
  lead_inv cfg (mkACluster (upd (a_nodes s) i (mkANode t vo l r)) net votes (h_leaders s) links).
Proof.
  intros a Ht Hv Hl Hc [Lq Lr Lt Lc]. split; simpl.
  - intros t' j Hin. eapply voted_in_mono; [exact Hv | by apply Lq].
  - intros j. upd_cases; [|apply Lr]. intros ->. destruct (Hl eq_refl) as [-> ?]. by apply Lr.
  - intros t' j Hin. apply Lt in Hin. upd_cases; [fold a in Hin; lia | done].
  - intros j vs. upd_cases; [|apply Lc]. intros ->. destruct (Hc _ eq_refl) as [Hlt|[-> [vs' Hr]]].
    + split; [lia |]. intros [_ Hin]%Lt. fold a in Hin. lia.
    + by apply (Lc i vs').
Qed.

Lemma lead_inv_lead s i vs :
  let a := a_nodes s i in
  a_role a = ACandidate vs → has_quorum cfg (contains vs) = true → vote_inv s → lead_inv cfg s →
  lead_inv cfg (mkACluster (upd (a_nodes s) i (mkANode (a_term a) (a_voted a) (a_log a) ALeader))
                  (a_net s) (h_votes s) ((a_term a, i) :: h_leaders s) (h_links s)).
Proof.
  intros a Hr Hq [_ _ _ _ Vd] [Lq Lr Lt Lc]. split; simpl.
  - intros t' j [Heq|Hin]; [|by apply Lq]. simplify_eq. eapply has_quorum_mono, Hq.
    intros v _ Hin%contains_true. apply voted_in_spec. by eapply Vd.
  - intros j. upd_cases; [by left | right; by apply Lr].
  - intros t' j [Heq|Hin].
    + simplify_eq. rewrite upd_eq. simpl. apply Lc in Hr. fold a in Hr. lia.
    + apply Lt in Hin. upd_cases; [fold a in Hin; lia | done].
  - intros j vs'. upd_cases; [done |]. intros Hr'. destruct (Lc _ _ Hr') as [? Hno]. split; [done |].
    by intros [Heq|Hin]; [simplify_eq | apply Hno].
Qed.

Lemma lead_inv_step s s' : micro s s' → vote_inv s → lead_inv cfg s → lead_inv cfg s'.
Proof.
  intros Hs Hvi Hinv.
  destruct Hs as [s i t a Ht HtT|s i a|s i c mq q a Hr Hv Hmq Hfrom Hmt Hpq Hup|s i a Ht|s i vs m r a Hr Hm Hto Htm Hp Hg
                 |s i vs a Hr Hq|s i cmd a e Hr Hl|s i m q a Hr Hm Hto Htm Hp Hprev|s i m Hok].
  - apply lead_inv_frame; try done; fold a; lia.
  - apply lead_inv_frame; try done; fold a; lia.
  - apply lead_inv_frame; try done. by right.
  - destruct (is_voter cfg i); (apply lead_inv_frame;
      [fold a; lia | intros ??; done || by right | done | intros ? _; left; fold a; lia | done]).
  - apply lead_inv_frame; try done. intros ? _. right. eauto.
  - by eapply lead_inv_lead.
  - apply lead_inv_frame; try done; fold a; lia.
  - apply lead_inv_frame; try done; fold a; lia.
  - by destruct Hinv.
Qed.

(** ** Bounds *)

Lemma bound_inv_step s s' : micro s s' → bound_inv T s → bound_inv T s'.
Proof.
  intros Hs [Bt Bn Bp Ba Bi].
  destruct Hs as [s i t a Ht HtT|s i a|s i c mq q a Hr Hv Hmq Hfrom Hmt Hpq Hup|s i a Ht|s i vs m r a Hr Hm Hto Htm Hp Hg
                 |s i vs a Hr Hq|s i cmd a e Hr Hl|s i m q a Hr Hm Hto Htm Hp Hprev|s i m Hok];
    try (split; simpl; [|done..]; intros j; upd_cases; done || apply Bt).
  - destruct (is_voter cfg i); split; simpl; try done; intros j; upd_cases; done || apply Bt.
  - destruct Hok as (_ & Hmt & Hok). split; simpl; [done |..].
    + by intros m' [Hm|[<-|[]]]%in_app_iff; [apply Bn |].
    + intros m' r [Hm|[<-|[]]]%in_app_iff Hp; [by eapply Bp |]. by rewrite Hp in Hok.
    + intros m' r [Hm|[<-|[]]]%in_app_iff Hp; [by eapply Ba |]. by rewrite Hp in Hok.
    + intros m' [Hm|[<-|[]]]%in_app_iff; [by apply Bi |]. by destruct (msg_payload m).
Qed.

(** ** Logs *)

Section Links.

Context (links : list (Term * Entry)).
Hypothesis links_entry : ∀ p e, In (p, e) links →
  0 < e_index e ≤ T ∧ 0 < e_term e ∧ is_config (e_payload e) = false.

Lemma log_ok_last l : log_ok links l → last_index l ≤ T.
Proof.
  intros [Hw Hs _ Hl]. pose proof (last_index_bound l Hw).
  destruct (N.eq_0_gt_0_cases (last_index l)); [lia |].
  destruct (get_in_range l (last_index l)) as [e He]; [done | lia |].
  pose proof (get_Some l (last_index l) e Hw ltac:(ulia) He) as (_ & Hi & _).
  apply Hl in He; [|ulia]. apply links_entry in He. lia.
Qed.

Lemma log_ok_Forall (P : Entry → Prop) l :
  (∀ p e, In (p, e) links → P e) → log_ok links l → Forall P (entries l).
Proof.
  intros HP [Hw Hs _ Hl]. apply Forall_lookup. intros i e He.
  pose proof (wf_bound _ Hw). pose proof (lookup_lt_Some _ _ _ He).
  assert (get l (N.of_nat i + 1) = Some e) as Hg.
  { rewrite get_eq, Hs by (done || ulia). destruct (N.ltb_spec 0 (N.of_nat i + 1)); [|lia].
    by replace (N.to_nat _) with i by lia. }
  apply Hl in Hg; [by eapply HP | ulia].
Qed.

Lemma log_ok_pos l : log_ok links l → terms_pos l.
Proof. apply log_ok_Forall. intros p e Hin. apply links_entry in Hin. lia. Qed.

(** The tail of the log after [prev] replaced by an entry linked to [prev]'s term. *)
Lemma log_ok_replace l prev e :
  log_ok links l → prev ≤ last_index l → e_index e = prev + 1 → In (term_at l prev, e) links →
  log_ok links (append (truncate_after l prev) e).
Proof.
  intros Hok Hle Hi Hin. pose proof (log_ok_last l Hok). pose proof (log_ok_pos l Hok) as Hpos.
  destruct (links_entry _ _ Hin) as (? & ? & _). destruct Hok as [Hw Hs Hc Hl].
  destruct (replace_tail l prev e) as (Rw & _ & _ & Rs & Rg); [try done; try lia; ulia..|].
  split; [done | lia | by rewrite truncate_after_eq by (done || ulia) |].
  intros k x Hk. rewrite Rg by done. destruct (N.leb_spec k prev).
  - intros Hx. rewrite term_at_get0 by (done || lia). rewrite Rg by lia.
    destruct (N.leb_spec (k - 1) prev); [|lia]. rewrite <- term_at_get0 by (done || lia). by apply Hl.
  - destruct (N.eqb_spec k (prev + 1)) as [->|]; [|done]. intros [= <-].
    rewrite N.add_sub, term_at_get0 by (done || lia). rewrite Rg by lia.
    destruct (N.leb_spec prev prev); [|lia]. by rewrite <- term_at_get0 by (done || lia).
Qed.

Lemma accept_ok es : ∀ l p prev,
  log_ok links l → prev ≤ last_index l → batch prev es → chained links (term_at l prev) es →
  log_ok links (append_entries l p es).1.
Proof.
  induction es as [|e es IH]; intros l p prev Hok Hle Hb Hch; [done |].
  pose proof (log_ok_last l Hok). pose proof (log_ok_pos l Hok) as Hpos. pose proof Hok as [Hw Hs _ Hl].
  pose proof Hb as (Hi & Ht & Hlt & Hb')%batch_cons. destruct Hch as [Hin Hch].
  rewrite (append_entries_cons l p prev) by (done || lia).
  destruct (N.eqb_spec (term_at l (prev + 1)) (e_term e)) as [He|He].
  - apply (IH _ _ (prev + 1)); [done | | done | by rewrite He].
    apply term_at_range; [done.. | ulia | congruence].
  - apply (IH _ _ (prev + 1)); [by apply log_ok_replace | | done |].
    + rewrite last_index_append. lia.
    + destruct (replace_tail l prev e) as (Rw & _ & _ & Rs & Rg); [done || lia..|].
      rewrite term_at_get0 by (done || ulia || lia). rewrite Rg by ulia.
      destruct (N.leb_spec (prev + 1) prev); [lia |]. by rewrite N.eqb_refl.
Qed.

(** A request whose previous entry the follower's log matches. *)
Lemma request_accept_ok l q :
  log_ok links l → request_ok links q →
  (0 < aq_prev_log_index q → term_at l (aq_prev_log_index q) = aq_prev_log_term q) →
  log_ok links (append_entries l false (aq_entries q)).1.
Proof.
  intros Hok [Rb Rc Rf Rp] Hprev.
  destruct (aq_entries q) as [|e es] eqn:Hes; [done |]. specialize (Rb ltac:(done)).
  pose proof Rb as (_ & _ & Hlt & _)%batch_cons. pose proof (lo_wf _ _ Hok).
  apply (accept_ok _ _ _ (aq_prev_log_index q)); [done | | done |].
  - destruct (N.eq_0_gt_0_cases (aq_prev_log_index q)) as [->|Hpos]; [lia |].
    apply term_at_nonzero; [done | ulia |]. rewrite Hprev by done. by apply Rp.
  - destruct (N.eq_0_gt_0_cases (aq_prev_log_index q)) as [Hz|Hpos]; [|by rewrite Hprev].
    rewrite Hz. change (term_at l 0) with 0. by rewrite <- Rf.
Qed.

Lemma segment_chained l : ∀ es prev,
  log_ok links l → prev + vlen es < u64_modulus →
  (∀ j e, es !! j = Some e → get l (prev + 1 + N.of_nat j) = Some e) →
  chained links (term_at l prev) es.
Proof.
  induction es as [|e es IH]; intros prev Hok Hb Hg; [done |]. unfold vlen in Hb. simpl in *.
  pose proof (Hg 0%nat e eq_refl) as He. rewrite N.add_0_r in He. pose proof Hok as [Hw Hs _ Hl]. split.
  - apply Hl in He; [|lia]. by rewrite N.add_sub in He.
  - replace (e_term e) with (term_at l (prev + 1)) by (rewrite term_at_get0, He by (done || lia); done).
    apply IH; [done | unfold vlen; lia |]. intros j x Hx.
    rewrite <- (Hg (S j) x Hx). f_equal. lia.
Qed.

Lemma segment_request_ok l q : log_ok links l → segment l q → request_ok links q.
Proof.
  intros Hok [St Sg Sb]. pose proof (log_ok_last l Hok). pose proof Hok as [Hw Hs _ Hl].
  assert (∀ j e, aq_entries q !! j = Some e →
            aq_prev_log_index q + 1 + N.of_nat j ≤ last_index l ∧
            e_index e = aq_prev_log_index q + 1 + N.of_nat j ∧ e_term e ≠ 0) as Hent.
  { intros j e He. pose proof (lookup_lt_Some _ _ _ He). apply Sg in He.
    pose proof (get_Some l (aq_prev_log_index q + 1 + N.of_nat j) e Hw ltac:(ulia) He) as (? & ? & _).
    apply Hl in He; [|ulia]. apply links_entry in He. split_and!; lia. }
  split.
  - intros Hne. split; [by intros; apply Hent | by intros; eapply Hent |].
    destruct (last (aq_entries q)) as [e|] eqn:Hlast; [|by apply last_None in Hlast].
    rewrite last_lookup in Hlast. pose proof (lookup_lt_Some _ _ _ Hlast).
    apply Hent in Hlast. unfold vlen. lia.
  - rewrite St. by apply segment_chained.
  - intros Hz. by rewrite St, Hz.
  - intros Hne Hpos. destruct (aq_entries q) as [|e es] eqn:Hes; [done |].
    destruct (Hent 0%nat e eq_refl) as (? & _). rewrite St.
    apply term_at_range; [done | by apply log_ok_pos | ulia | lia].
Qed.

End Links.

Lemma log_ok_mono links links' l :
  (∀ x, In x links → In x links') → log_ok links l → log_ok links' l.
Proof. intros Hsub [? ? ? Hl]. split; [done.. |]. intros k e Hk Hg. by apply Hsub, Hl. Qed.

Lemma chained_mono links links' es : ∀ pt,
  (∀ x, In x links → In x links') → chained links pt es → chained links' pt es.
Proof. induction es as [|e es IH]; intros pt Hsub; simpl; [done |]. intros [? ?]. auto. Qed.

Lemma request_ok_mono links links' q :
  (∀ x, In x links → In x links') → request_ok links q → request_ok links' q.
Proof. intros Hsub [? ? ? ?]. split; try done. by eapply chained_mono. Qed.

(** A step of node [i] that creates no entry. *)
Lemma log_inv_frame s i t vo l r net votes leaders :
  let a := a_nodes s i in
  log_ok (h_links s) l →
  (∀ x, In x (h_leaders s) → In x leaders) →
  (∀ p e, r = ALeader → In (p, e) (h_links s) → t = e_term e → e_index e ≤ last_index l) →
  (∀ m q, In m net → msg_payload m = PAppendRequest q → request_ok (h_links s) q) →
  log_inv T s →
  log_inv T (mkACluster (upd (a_nodes s) i (mkANode t vo l r)) net votes leaders (h_links s)).
Proof.
  intros a Hl Hld Hr Hn [Gl Gf Ge Gd Go Gn]. split; simpl; try done.
  - intros j. by upd_cases.
  - intros p e Hin. destruct (Gd p e Hin) as [j Hj]. eauto.
  - intros p e j Hin. upd_cases; [|by eapply Go]. intros. by eapply Hr.
Qed.

Lemma log_inv_propose s i cmd :
  let a := a_nodes s i in
  let e := mkEntry (a_term a) (last_index (a_log a) + 1) (PCommand cmd) in
  a_role a = ALeader → last_index (a_log a) + 1 ≤ T → vote_inv s → lead_inv cfg s → log_inv T s →
  log_inv T (mkACluster
               (upd (a_nodes s) i (mkANode (a_term a) (a_voted a) (append (a_log a) e) ALeader))
               (a_net s) (h_votes s) (h_leaders s)
               ((term_at (a_log a) (last_index (a_log a)), e) :: h_links s)).
Proof.
  intros a e Hr HlT Hvi Hli [Gl Gf Ge Gd Go Gn].
  pose proof (il_role _ _ Hli i Hr) as Hlead. fold a in Hlead.
  assert (∀ p x, In (p, x) (h_links s) → e_term x = a_term a → e_index x ≤ last_index (a_log a)) as Hold.
  { intros p x Hin Hx. by apply (Go p x i). }
  assert (∀ p x, In (p, x) ((term_at (a_log a) (last_index (a_log a)), e) :: h_links s) →
            0 < e_index x ≤ T ∧ 0 < e_term x ∧ is_config (e_payload x) = false) as Hentry.
  { intros p x [Heq|Hin]; [|by eapply Ge]. simplify_eq. simpl. apply (il_term _ _ Hli) in Hlead.
    fold a in Hlead. split_and!; lia || done. }
  assert (∀ y, In y (h_links s) → In y ((term_at (a_log a) (last_index (a_log a)), e) :: h_links s)) as Hsub
    by (by right).
  split; simpl.
  - intros j. upd_cases; [|eapply log_ok_mono, Gl; done].
    replace (append (a_log a) e) with (append (truncate_after (a_log a) (last_index (a_log a))) e)
      by (by rewrite truncate_after_last_id by apply Gl).
    apply log_ok_replace; [done | eapply log_ok_mono, Gl; done | lia | done | by left].
  - intros p x p' x' [H1|H1] [H2|H2] Ht Hi; simplify_eq; try done; [| |by eapply Gf].
    + apply Hold in H2; [|done]. simpl in *. lia.
    + apply Hold in H1; [|done]. simpl in *. lia.
  - done.
  - intros p x [Heq|Hin]; [simplify_eq; by eexists | by eapply Gd].
  - intros p x j [Heq|Hin]; upd_cases.
    + intros _ _. simplify_eq. by rewrite last_index_append.
    + intros Hrj Htj. simplify_eq. apply (il_role _ _ Hli) in Hrj. rewrite Htj in Hrj. simpl in Hrj.
      by pose proof (leader_unique s _ _ _ Hvi Hli Hlead Hrj).
    + intros _ Ht. rewrite last_index_append. simpl. apply Hold in Hin; [lia | done].
    + by eapply Go.
  - intros m q Hm Hp. eapply request_ok_mono; [exact Hsub | by eapply Gn].
Qed.

(** A term in which a candidate wins has had no leader. *)
Lemma lead_fresh s i vs j :
  let a := a_nodes s i in
  a_role a = ACandidate vs → has_quorum cfg (contains vs) = true → vote_inv s → lead_inv cfg s →
  ¬ In (a_term a, j) (h_leaders s).
Proof.
  intros a Hr Hq Hvi Hli Hj. pose proof (lead_inv_lead s i vs Hr Hq Hvi Hli) as Hli'. fold a in Hli'.
  assert (vote_inv (mkACluster (upd (a_nodes s) i (mkANode (a_term a) (a_voted a) (a_log a) ALeader))
                (a_net s) (h_votes s) ((a_term a, i) :: h_leaders s) (h_links s))) as Hvi'.
  { apply vote_inv_frame; [by apply Hvi | done | done]. }
  pose proof (leader_unique _ (a_term a) i j Hvi' Hli' ltac:(by left) ltac:(by right)) as <-.
  destruct (il_cand _ _ Hli i vs Hr) as [_ Hno]. by apply Hno.
Qed.

Lemma log_inv_step s s' : micro s s' → vote_inv s → lead_inv cfg s → log_inv T s → log_inv T s'.
Proof.
  intros Hs Hvi Hli Hinv. pose proof Hinv as [Gl Gf Ge Gd Go Gn].
  destruct Hs as [s i t a Ht HtT|s i a|s i c mq q a Hr Hv Hmq Hfrom Hmt Hpq Hup|s i a Ht|s i vs m r a Hr Hm Hto Htm Hp Hg
                 |s i vs a Hr Hq|s i cmd a e Hr Hl|s i m q a Hr Hm Hto Htm Hp Hprev|s i m Hok];
    try (apply log_inv_frame; try done; apply Gl).
  - destruct (is_voter cfg i); (apply log_inv_frame; try done; apply Gl).
  - apply log_inv_frame; [apply Gl | by right | | done | done].
    intros p x _ Hin Ht. destruct (Gd p x Hin) as [j Hj]. exfalso.
    apply (lead_fresh s i vs j Hr Hq Hvi Hli). fold a. by rewrite Ht.
  - by apply log_inv_propose.
  - apply log_inv_frame; try done.
    eapply request_accept_ok; [done | apply Gl | by eapply Gn | done].
  - split; simpl; try done. intros m' q [Hm|[<-|[]]]%in_app_iff Hp; [by eapply Gn |].
    destruct Hok as (_ & _ & Hok). rewrite Hp in Hok. destruct Hok as (_ & _ & Hseg).
    eapply segment_request_ok; [done | | exact Hseg]. apply Gl.
Qed.

Lemma ainv_step s s' : micro s s' → ainv s → ainv s'.
Proof.
  intros Hs [Hv Hl Hg Hb]. split.
  - by eapply vote_inv_step.
  - by eapply lead_inv_step.
  - by eapply log_inv_step.
  - by eapply bound_inv_step.
Qed.

End Facts.

(** ** Log matching *)

Lemma log_match links l1 l2 :
  (∀ p e p' e', In (p, e) links → In (p', e') links →
     e_term e = e_term e' → e_index e = e_index e' → p = p' ∧ e = e') →
  log_ok links l1 → log_ok links l2 →
  ∀ (n : nat) k e1 e2, k = N.of_nat n → k < u64_modulus →
    get l1 k = Some e1 → get l2 k = Some e2 → e_term e1 = e_term e2 →
    ∀ j, j ≤ k → get l1 j = get l2 j.
Proof.
  intros Hfun [Hw1 Hs1 _ Hl1] [Hw2 Hs2 _ Hl2]. induction n as [|n IH]; intros k e1 e2 Hk Hkb H1 H2 Ht j Hj.
  { apply get_Some in H1; [|done..]. lia. }
  pose proof (get_Some _ _ _ Hw1 Hkb H1) as (R1 & I1 & _). pose proof (get_Some _ _ _ Hw2 Hkb H2) as (R2 & I2 & _).
  destruct (Hfun _ _ _ _ (Hl1 _ _ Hkb H1) (Hl2 _ _ Hkb H2)) as [Hp ->]; [done | congruence |].
  destruct (N.eq_dec j k) as [->|Hne]; [congruence |].
  destruct (N.eq_dec (k - 1) 0) as [Hz|Hz].
  { replace j with 0 by lia. rewrite !get_eq, Hs1, Hs2 by done. done. }
  destruct (get_in_range l1 (k - 1)) as [x1 Hx1]; [done | lia |].
  destruct (get_in_range l2 (k - 1)) as [x2 Hx2]; [done | lia |].
  rewrite !term_at_get0, Hx1, Hx2 in Hp by (done || lia).
  eapply (IH (k - 1)); [lia | lia | done.. | lia].
Qed.

(** ** Growth *)

(** Histories and the set of sent messages only grow. *)
Record grows (s s' : ACluster) : Prop := {
  gr_leaders : ∀ x, In x (h_leaders s) → In x (h_leaders s');
  gr_links : ∀ x, In x (h_links s) → In x (h_links s');
  gr_net : ∀ m, In m (a_net s) → In m (a_net s')
}.

#[export] Instance grows_preorder : PreOrder grows.
Proof.
  split; [by split |]. intros s1 s2 s3 [? ? ?] [? ? ?]. split; auto.
Qed.

Lemma micro_grows cfg T s s' : micro cfg T s s' → grows s s'.
Proof.
  destruct 1; try (destruct (is_voter cfg i)); split; simpl; try done; intros x Hx;
    try (by right); apply in_app_iff; by left.
Qed.

Lemma msg_ok_mono T T' i a m : T ≤ T' → msg_ok T i a m → msg_ok T' i a m.
Proof.
  intros HT (Hf & Ht & Hp). split_and!; [done | lia |]. destruct (msg_payload m); try done; lia.
Qed.

Lemma micro_mono cfg T T' s s' : T ≤ T' → micro cfg T s s' → micro cfg T' s s'.
Proof.
  intros HT. destruct 1 as [s i t a ? ?|s i a|s i c m q a ? ? ? ? ? ? ?|s i a ?|s i vs m r a ? ? ? ? ? ?
                            |s i vs a ? ?|s i cmd a e ? ?|s i m q a ? ? ? ? ? ?|s i m Hok].
  - apply M_observe; [done | lia].
  - apply M_step_down.
  - by eapply M_grant.
  - apply M_elect. fold a. lia.
  - by eapply M_count.
  - by eapply M_lead.
  - apply M_propose; [done | fold a; lia].
  - by eapply M_accept.
  - apply (M_send _ _ s i). by eapply msg_ok_mono.
Qed.

Lemma ainv_mono cfg T T' s : T ≤ T' → ainv cfg T s → ainv cfg T' s.
Proof.
  intros HT [Hv Hl [Gl Gf Ge Gd Go Gn] [Bt Bn Bp Ba Bi]]. split; [done | done | split; try done | split; try done].
  - intros p e Hin. apply Ge in Hin. split_and!; [lia.. | apply Hin].
  - intros i. specialize (Bt i). lia.
  - intros m Hm. specialize (Bn m Hm). lia.
  - intros m r Hm Hp. specialize (Bp m r Hm Hp). lia.
  - intros m r Hm Hp. specialize (Ba m r Hm Hp). lia.
Qed.

Lemma rtc_ainv cfg T s s' : T < u64_max → rtc (micro cfg T) s s' → ainv cfg T s → ainv cfg T s' ∧ grows s s'.
Proof.
  intros HT. induction 1 as [s|s s1 s2 Hm _ IH]; intros Hinv; [by split |].
  destruct IH as [? ?]; [by eapply ainv_step |]. split; [done |].
  etransitivity; [by eapply micro_grows | done].
Qed.

(** The cluster before the first step. *)
Definition ainit : ACluster := mkACluster (fun _ => mkANode 0 None default_log AFollower) [] [] [] [].

Lemma ainit_inv cfg T : ainv cfg T ainit.
Proof.
  split; split; simpl; try done.
  - intros i. split; try done. intros k e Hk Hg. apply get_Some in Hg; [|apply default_log_wf | done].
    change (last_index default_log) with 0 in Hg. lia.
  - intros _. lia.
Qed.
