(* ===== verification/Completeness.v ===== *)
(** * Leader completeness

    The part of the safety argument of Raft that is about committed entries. The
    ghost state records the log of the leader of each term, the log each candidate
    stood with, and acknowledgements: node [v] held, in term [t], the leader's log
    up to index [n]. An entry is chosen when a quorum has acknowledged it in its
    own term; then the log of every later leader holds it ([leader_completeness]),
    and what is chosen at an index never changes ([safe_unique]). The ghost state
    is not read by any step. *)

From S2P Require Import Prelude BTree Membership Log Event Core Follower Raft.

Open Scope N_scope.

Record Ghost := mkGhost {
  g_lead : Term → option Log;
  g_cand : Term → NodeId → option Log;
  g_acks : list (NodeId * Term * LogIndex)
}.

(** The leader of a term after the entry's, up to [t], whose log has another entry
    in its place. *)
Definition displaced (g : Ghost) (t : Term) (e : Entry) : Prop :=
  ∃ t' F, e_term e < t' ≤ t ∧ g_lead g t' = Some F ∧ get F (e_index e) ≠ Some e.

(** [l], as it was in term [t], holds the entry, unless a leader displaced it. *)
Definition keeps (g : Ghost) (l : Log) (t : Term) (e : Entry) : Prop :=
  get l (e_index e) = Some e ∨ displaced g t e.

(** Node [v] acknowledged [e] in the term of [e]. *)
Definition acked (links : list (Term * Entry)) (g : Ghost) (v : NodeId) (e : Entry) : Prop :=
  ∃ n p, In (v, e_term e, n) (g_acks g) ∧ In (p, e) links ∧ e_index e ≤ n.

Definition agree (l1 l2 : Log) (k : LogIndex) : Prop := ∀ j, j ≤ k → get l1 j = get l2 j.

(** Entries of terms up to [t]. *)
Definition terms_le (l : Log) (t : Term) : Prop :=
  ∀ k e, k < u64_modulus → get l k = Some e → e_term e ≤ t.

(** The entries of the request come from the log [F]. *)
Record carries (F : Log) (q : AppendRequest) : Prop := {
  ca_prev : aq_prev_log_term q ≠ 0 → term_at F (aq_prev_log_index q) = aq_prev_log_term q;
  ca_get : ∀ j e, aq_entries q !! j = Some e → get F (aq_prev_log_index q + 1 + N.of_nat j) = Some e;
  ca_bound : aq_prev_log_index q + vlen (aq_entries q) < u64_modulus
}.

Section Invariant.

Context (cfg : Configuration).

Record ginv (s : ACluster) (g : Ghost) : Prop := {
  gi_leaders : ∀ t i, In (t, i) (h_leaders s) → ∃ F, g_lead g t = Some F;
  gi_lead : ∀ t F, g_lead g t = Some F →
    (∃ i, In (t, i) (h_leaders s)) ∧ log_ok (h_links s) F ∧ terms_le F t;
  gi_leader : ∀ i, a_role (a_nodes s i) = ALeader →
    g_lead g (a_term (a_nodes s i)) = Some (a_log (a_nodes s i));
  gi_link : ∀ p e, In (p, e) (h_links s) →
    p ≤ e_term e ∧ ∃ F, g_lead g (e_term e) = Some F ∧ get F (e_index e) = Some e;
  gi_terms : ∀ i, terms_le (a_log (a_nodes s i)) (a_term (a_nodes s i));
  gi_cand : ∀ i vs, a_role (a_nodes s i) = ACandidate vs →
    g_cand g (a_term (a_nodes s i)) i = Some (a_log (a_nodes s i));
  gi_cand_log : ∀ t i L, g_cand g t i = Some L →
    t ≤ a_term (a_nodes s i) ∧ log_ok (h_links s) L ∧ terms_le L t;
  gi_vreq : ∀ m q, In m (a_net s) → msg_payload m = PVoteRequest q →
    ∃ L, g_cand g (msg_term m) (msg_from m) = Some L ∧
         vq_last_log_index q = last_index L ∧ vq_last_log_term q = last_term L;
  gi_areq : ∀ m q, In m (a_net s) → msg_payload m = PAppendRequest q →
    ∃ F, g_lead g (msg_term m) = Some F ∧ carries F q;
  gi_ack : ∀ v t n, In (v, t, n) (g_acks g) →
    t ≤ a_term (a_nodes s v) ∧ ∃ F, g_lead g t = Some F ∧ n ≤ last_index F;
  gi_hold : ∀ v e, acked (h_links s) g v e → keeps g (a_log (a_nodes s v)) (a_term (a_nodes s v)) e;
  gi_vote : ∀ v t c, In (v, t, c) (h_votes s) →
    ∃ L, g_cand g t c = Some L ∧ ∀ e, acked (h_links s) g v e → e_term e < t → keeps g L t e;
  gi_elect : ∀ t F, g_lead g t = Some F →
    ∃ f, has_quorum cfg f = true ∧ ∀ v, f v = true → t ≤ a_term (a_nodes s v) ∧
         ∀ e, acked (h_links s) g v e → e_term e < t → keeps g F (t - 1) e
}.

End Invariant.

(** The ghost state grows: leaders' logs by entries of their own term. *)
Record gle (g g' : Ghost) : Prop := {
  gl_lead : ∀ t F, g_lead g t = Some F →
    ∃ F', g_lead g' t = Some F' ∧
      (∀ k e, k < u64_modulus → get F k = Some e → get F' k = Some e) ∧
      (∀ k e, k < u64_modulus → get F' k = Some e → get F k = Some e ∨ e_term e = t);
  gl_acks : ∀ x, In x (g_acks g) → In x (g_acks g')
}.

#[export] Instance gle_preorder : PreOrder gle.
Proof.
  split.
  - intros g. split; [|done]. intros t F HF. exists F. auto.
  - intros g1 g2 g3 [L12 A12] [L23 A23]. split; [|auto]. intros t F HF.
    destruct (L12 t F HF) as (F2 & H2 & K2 & N2). destruct (L23 t F2 H2) as (F3 & H3 & K3 & N3).
    exists F3. split_and!; [done | auto |]. intros k e Hk He. destruct (N3 k e Hk He); auto.
Qed.

(** ** Logs of created entries *)

Section Facts.

Context (cfg : Configuration) (T : N) (HT : T < u64_max).

Lemma displaced_mono g g' t t' e :
  gle g g' → t ≤ t' → e_index e < u64_modulus → displaced g t e → displaced g' t' e.
Proof.
  intros [Hl _] Ht Hi (t1 & F & ? & HF & Hne). destruct (Hl t1 F HF) as (F' & HF' & _ & Hold).
  exists t1, F'. split_and!; [lia | lia | done |]. intros He. destruct (Hold _ _ Hi He); [done | lia].
Qed.

Lemma keeps_mono g g' l t t' e :
  gle g g' → t ≤ t' → e_index e < u64_modulus → keeps g l t e → keeps g' l t' e.
Proof. intros ? ? ? [?|?]; [by left | right; by eapply displaced_mono]. Qed.

Section State.

Context (s : ACluster) (g : Ghost).
Hypothesis Hinv : ainv cfg T s.
Hypothesis Hg : ginv cfg s g.

Lemma links_match l1 l2 k e1 e2 :
  log_ok (h_links s) l1 → log_ok (h_links s) l2 → k < u64_modulus →
  get l1 k = Some e1 → get l2 k = Some e2 → e_term e1 = e_term e2 → agree l1 l2 k.
Proof.
  intros H1 H2 Hk G1 G2 Ht. unfold agree.
  eapply (log_match (h_links s) l1 l2 (ig_fun _ _ (ai_log _ _ _ Hinv)) H1 H2 (N.to_nat k) k); [lia | done..].
Qed.

Lemma link_index p e : In (p, e) (h_links s) → e_index e < u64_modulus.
Proof. intros H. apply (ig_entry _ _ (ai_log _ _ _ Hinv)) in H. ulia. Qed.

Lemma acked_index v e : acked (h_links s) g v e → e_index e < u64_modulus.
Proof. intros (n & p & _ & H & _). by eapply link_index. Qed.

(** A log with an entry of term [t] is the log of the leader of [t] up to there. *)
Lemma lead_agree l k e :
  log_ok (h_links s) l → k < u64_modulus → get l k = Some e →
  ∃ F, g_lead g (e_term e) = Some F ∧ agree l F k.
Proof.
  intros Hl Hk He. pose proof (get_Some _ _ _ (lo_wf _ _ Hl) Hk He) as (_ & Hi & _).
  destruct (gi_link _ _ _ Hg _ _ (lo_link _ _ Hl _ _ Hk He)) as (_ & F & HF & Hget). rewrite Hi in Hget.
  exists F. split; [done |]. eapply links_match; [done | by eapply (gi_lead _ _ _ Hg) | done..].
Qed.

(** Terms do not decrease along a log. *)
Lemma terms_step l k e1 e2 :
  log_ok (h_links s) l → k + 1 < u64_modulus → get l k = Some e1 → get l (k + 1) = Some e2 → e_term e1 ≤ e_term e2.
Proof.
  intros Hl Hk H1 H2. apply (lo_link _ _ Hl) in H2; [|done]. apply (gi_link _ _ _ Hg) in H2 as [H2 _].
  rewrite N.add_sub in H2. rewrite (term_at_get0 l k) in H2; [|apply Hl | apply Hl | lia]. by rewrite H1 in H2.
Qed.

Lemma terms_mono l k e2 : ∀ (d : nat) j e1,
  log_ok (h_links s) l → k < u64_modulus → k = j + N.of_nat d → get l j = Some e1 → get l k = Some e2 →
  e_term e1 ≤ e_term e2.
Proof.
  induction d as [|d IH]; intros j e1 Hl Hk Hd H1 H2.
  { replace j with k in H1 by lia. rewrite H1 in H2. by injection H2 as ->. }
  pose proof (get_Some _ _ _ (lo_wf _ _ Hl) Hk H2) as (? & _ & _).
  pose proof (lo_snapshot _ _ Hl) as Hs.
  destruct (get_in_range l (j + 1)) as [e He]; [apply Hl | lia |].
  etransitivity; [eapply (terms_step l j); [done | lia | done | done] |]. eapply (IH (j + 1)); [done | done | lia | done | done].
Qed.

Lemma get_last l : log_ok (h_links s) l → 0 < last_index l →
  ∃ e, get l (last_index l) = Some e ∧ e_term e = last_term l.
Proof.
  intros Hl Hpos. pose proof (lo_wf _ _ Hl) as Hw. pose proof (lo_snapshot _ _ Hl) as Hs.
  pose proof (last_index_bound _ Hw). destruct (get_in_range l (last_index l)) as [e He]; [done | lia |].
  exists e. split; [done |]. pose proof (get_Some l (last_index l) e Hw ltac:(ulia) He) as (_ & _ & Hlk).
  rewrite last_index_eq, Hs in Hlk by done. unfold last_term. rewrite last_lookup.
  replace (Init.Nat.pred (length (entries l))) with (N.to_nat (0 + N.of_nat (length (entries l)) - 0 - 1)) by (rewrite <- Nat.sub_1_r; lia).
  by rewrite Hlk.
Qed.

(** A candidate whose log is at least as up-to-date as [l] keeps what [l] keeps. *)
Lemma up_to_date_keeps l L t e p :
  log_ok (h_links s) l → log_ok (h_links s) L → terms_le L t → In (p, e) (h_links s) →
  up_to_date l (last_term L) (last_index L) → get l (e_index e) = Some e → keeps g L t e.
Proof.
  intros Hl HL Hle Hlink Hup He. pose proof (link_index _ _ Hlink) as Hi.
  pose proof (get_Some _ _ _ (lo_wf _ _ Hl) Hi He) as (Hr & _ & _).
  pose proof (last_index_bound _ (lo_wf _ _ Hl)). pose proof (last_index_bound _ (lo_wf _ _ HL)).
  destruct (get_last l Hl) as (x & Hx & Htx); [lia |].
  assert (e_term e ≤ e_term x) as Hex.
  { apply (terms_mono l (last_index l) x (N.to_nat (last_index l - e_index e)) (e_index e) e); [done | ulia | lia | done | done]. }
  pose proof (ig_entry _ _ (ai_log _ _ _ Hinv) _ _ Hlink) as (_ & Hepos & _).
  assert (0 < last_index L) as HposL.
  { destruct Hup as [Hup|[_ ?]]; [|lia]. destruct (N.eq_0_gt_0_cases (last_index L)) as [Hz|]; [|done].
    rewrite last_index_eq, (lo_snapshot _ _ HL) in Hz by apply HL. unfold last_term in Hup.
    destruct (entries L); simpl in *; [|lia]. rewrite (proj2 (lo_meta _ _ HL)) in Hup. lia. }
  destruct (get_last L HL HposL) as (y & Hy & Hty).
  destruct (lead_agree L (last_index L) y HL ltac:(ulia) Hy) as (F & HF & HaL).
  destruct Hup as [Hup|[Heq Hle']].
  - destruct (decide (get F (e_index e) = Some e)) as [HFe|HFe].
    + left. rewrite HaL; [done |]. destruct (N.le_gt_cases (e_index e) (last_index L)) as [|Hgt]; [done |].
      exfalso. rewrite HaL in Hy by lia. destruct (gi_lead _ _ _ Hg _ _ HF) as (_ & HokF & _).
      pose proof (terms_mono F (e_index e) e (N.to_nat (e_index e - last_index L)) (last_index L) y HokF Hi ltac:(lia) Hy HFe). lia.
    + right. exists (e_term y), F. split_and!; [lia | eapply (Hle (last_index L)); [ulia | done] | done | done].
  - left. destruct (lead_agree l (last_index l) x Hl ltac:(ulia) Hx) as (F' & HF' & Hal).
    replace (e_term x) with (e_term y) in HF' by congruence. rewrite HF in HF'. injection HF' as <-.
    rewrite HaL by lia. rewrite <- Hal by lia. done.
Qed.

(** ** Accepting the entries of a leader *)

Section Accept.

Context (F : Log).

Lemma accept_step l prev e es :
  log_ok (h_links s) l → prev ≤ last_index l → batch prev (e :: es) → chained (h_links s) (term_at l prev) (e :: es) →
  let l1 := if term_at l (prev + 1) =? e_term e then l else append (truncate_after l prev) e in
  (∀ p, ∃ p', append_entries l p (e :: es) = append_entries l1 p' es) ∧
  log_ok (h_links s) l1 ∧ prev + 1 ≤ last_index l1 ∧ batch (prev + 1) es ∧ chained (h_links s) (term_at l1 (prev + 1)) es ∧
  (∀ k, k ≤ prev → get l1 k = get l k) ∧ (∀ k x, k < u64_modulus → get l1 k = Some x → get l k = Some x ∨ x = e).
Proof.
  intros Hl Hle Hb Hch l1. pose proof (ig_entry _ _ (ai_log _ _ _ Hinv)) as Hent.
  pose proof (log_ok_last T HT (h_links s) Hent l Hl). pose proof (log_ok_pos T HT (h_links s) Hent l Hl) as Hpos.
  pose proof Hl as [Hw Hs _ _]. pose proof Hb as (Hi & Ht & Hlt & Hb')%batch_cons. destruct Hch as [Hin Hch]. split.
  { intros p. rewrite (append_entries_cons l p prev) by (done || lia). unfold l1. case_match; by eexists. }
  unfold l1. destruct (N.eqb_spec (term_at l (prev + 1)) (e_term e)) as [He|He].
  - split_and!; [done | apply term_at_range; [done.. | ulia | congruence] | done | by rewrite He | done | auto].
  - destruct (replace_tail l prev e) as (Rw & _ & Rl & Rs & Rg); [done || lia..|].
    split_and!; [eapply log_ok_replace; [exact HT | exact Hent | done | lia | done | done] | lia | done | | |].
    + rewrite (term_at_get0 (append (truncate_after l prev) e)) by (done || ulia). rewrite Rg by ulia.
      destruct (N.leb_spec (prev + 1) prev); [lia |]. by rewrite N.eqb_refl.
    + intros k Hk. rewrite Rg by ulia. destruct (N.leb_spec k prev); [done | lia].
    + intros k x Hk. rewrite Rg by done. destruct (k <=? prev); [auto |]. case_match; [|done]. intros [= <-]. auto.
Qed.

(** What the log shares with the leader's log [F] is not touched. *)
Lemma accept_keeps es : ∀ l p prev k x,
  log_ok (h_links s) l → prev ≤ last_index l → batch prev es → chained (h_links s) (term_at l prev) es →
  (∀ j e, es !! j = Some e → get F (prev + 1 + N.of_nat j) = Some e) →
  k < u64_modulus → get l k = Some x → agree l F k → get (append_entries l p es).1 k = Some x.
Proof.
  induction es as [|e es IH]; intros l p prev k x Hl Hle Hb Hch HF Hk Hx Ha; [done |].
  pose proof (HF 0%nat e eq_refl) as He. rewrite N.add_0_r in He.
  pose proof Hb as (_ & _ & Hlt & _)%batch_cons.
  destruct (accept_step l prev e es Hl Hle Hb Hch) as (Hcons & Hl1 & Hle1 & Hb1 & Hch1 & Hpre & _).
  destruct (Hcons p) as [p' ->]. set (l1 := if term_at l (prev + 1) =? e_term e then l else append (truncate_after l prev) e) in *.
  assert (∀ j, j ≤ k → get l1 j = get l j) as Hsame.
  { destruct (N.le_gt_cases k prev); [intros j ?; apply Hpre; lia |].
    unfold l1. rewrite term_at_get0 by (apply Hl || ulia). rewrite Ha, He by lia. by rewrite N.eqb_refl. }
  apply (IH l1 p' (prev + 1)); [done.. | | done | by rewrite Hsame | intros j Hj; rewrite Hsame by done; by apply Ha].
  intros j y Hj. rewrite <- (HF (S j) y Hj). f_equal. lia.
Qed.

Lemma accept_from es : ∀ l p prev k x,
  log_ok (h_links s) l → prev ≤ last_index l → batch prev es → chained (h_links s) (term_at l prev) es →
  k < u64_modulus → get (append_entries l p es).1 k = Some x → get l k = Some x ∨ In x es.
Proof.
  induction es as [|e es IH]; intros l p prev k x Hl Hle Hb Hch Hk Hx; [by left |].
  destruct (accept_step l prev e es Hl Hle Hb Hch) as (Hcons & Hl1 & Hle1 & Hb1 & Hch1 & _ & Hfrom).
  destruct (Hcons p) as [p' E]. rewrite E in Hx.
  destruct (IH _ _ _ _ _ Hl1 Hle1 Hb1 Hch1 Hk Hx) as [H|H]; [|right; by right].
  destruct (Hfrom _ _ Hk H) as [?| ->]; [by left | right; by left].
Qed.

End Accept.

(** A request that the log of node [i] matches. *)
Lemma accept_ready l q e es :
  log_ok (h_links s) l → request_ok (h_links s) q → aq_entries q = e :: es →
  (0 < aq_prev_log_index q → term_at l (aq_prev_log_index q) = aq_prev_log_term q) →
  aq_prev_log_index q ≤ last_index l ∧ batch (aq_prev_log_index q) (aq_entries q) ∧
  chained (h_links s) (term_at l (aq_prev_log_index q)) (aq_entries q).
Proof.
  intros Hl [Rb Rc Rf Rp] Hes Hprev. assert (aq_entries q ≠ []) as Hne by (by rewrite Hes). specialize (Rb Hne).
  pose proof (batch_bound _ _ Rb). pose proof (lo_wf _ _ Hl).
  destruct (N.eq_0_gt_0_cases (aq_prev_log_index q)) as [Hz|Hpos].
  - split_and!; [lia | done |]. rewrite Hz. change (term_at l 0) with 0. by rewrite <- Rf.
  - split_and!; [|done | by rewrite Hprev]. apply term_at_nonzero; [done | ulia |]. rewrite Hprev by done. by apply Rp.
Qed.

Lemma accept_request_keeps F l q k x :
  log_ok (h_links s) l → log_ok (h_links s) F → request_ok (h_links s) q → carries F q →
  (0 < aq_prev_log_index q → term_at l (aq_prev_log_index q) = aq_prev_log_term q) →
  k < u64_modulus → get l k = Some x → get F k = Some x →
  get (append_entries l false (aq_entries q)).1 k = Some x.
Proof.
  intros Hl HF Hq Hc Hprev Hk Hx HFx. destruct (aq_entries q) as [|e es] eqn:Hes; [done |]. rewrite <- Hes.
  destruct (accept_ready l q e es Hl Hq Hes Hprev) as (? & ? & ?).
  eapply (accept_keeps F); [done.. | apply Hc | done | done |]. by eapply links_match.
Qed.

Lemma accept_request_terms F l q t :
  log_ok (h_links s) l → terms_le F t → terms_le l t → request_ok (h_links s) q → carries F q →
  (0 < aq_prev_log_index q → term_at l (aq_prev_log_index q) = aq_prev_log_term q) →
  terms_le (append_entries l false (aq_entries q)).1 t.
Proof.
  intros Hl HF Ht Hq Hc Hprev. destruct (aq_entries q) as [|e es] eqn:Hes; [done |]. rewrite <- Hes.
  destruct (accept_ready l q e es Hl Hq Hes Hprev) as (? & Hb & ?). intros k x Hk Hx.
  eapply accept_from in Hx as [Hx|Hx]; [by eapply Ht | | done..].
  apply list_elem_of_In, list_elem_of_lookup in Hx as [j Hj]. pose proof (lookup_lt_Some _ _ _ Hj).
  pose proof (batch_bound _ _ Hb). eapply HF, (ca_get _ _ Hc); [|exact Hj]. ulia.
Qed.

(** A log that ends with the entries of a request is the leader's log up to there. *)
Lemma accept_agrees F l q :
  let l' := (append_entries l false (aq_entries q)).1 in
  log_ok (h_links s) l → log_ok (h_links s) F → request_ok (h_links s) q → carries F q →
  (0 < aq_prev_log_index q → term_at l (aq_prev_log_index q) = aq_prev_log_term q) →
  last_index l' = aq_prev_log_index q + vlen (aq_entries q) →
  agree l' F (last_index l') ∧ last_index l' ≤ last_index F.
Proof.
  intros l' Hl HF Hq Hc Hprev Hlast.
  pose proof (ig_entry _ _ (ai_log _ _ _ Hinv)) as Hent.
  assert (log_ok (h_links s) l') as Hl' by (by eapply request_accept_ok).
  pose proof (last_index_bound _ (lo_wf _ _ Hl')) as Hb.
  assert (0 < last_index l' → ∃ x y, get l' (last_index l') = Some x ∧ get F (last_index l') = Some y ∧
            e_term x = e_term y) as Hend.
  { intros Hpos. destruct (get_in_range l' (last_index l')) as [x Hx];
      [apply Hl' | rewrite (lo_snapshot _ _ Hl'); lia |].
    destruct (decide (aq_entries q = [])) as [Hes|Hne].
    - assert (l' = l) as Hll by (unfold l'; by rewrite Hes). rewrite Hll, Hes in *. unfold vlen in Hlast. simpl in Hlast. rewrite N.add_0_r in Hlast. rewrite Hlast in *.
      specialize (Hprev Hpos). rewrite (term_at_get0 l) in Hprev by (apply Hl || ulia). rewrite Hx in Hprev.
      assert (e_term x ≠ 0) as Hx0 by (apply (lo_link _ _ Hl), Hent in Hx; [lia | ulia]).
      pose proof (ca_prev _ _ Hc ltac:(congruence)) as HFp. rewrite (term_at_get0 F) in HFp by (apply HF || ulia).
      destruct (get F (aq_prev_log_index q)) as [y|] eqn:Hy; [|congruence]. exists x, y. by split_and!; [| |congruence].
    - assert (∃ e es, aq_entries q = e :: es) as (e & es & Hes) by (destruct (aq_entries q); eauto; done).
      destruct (accept_ready l q e es Hl Hq Hes Hprev) as (Hle & Hb' & _).
      destruct (last (aq_entries q)) as [y|] eqn:Hly; [|by apply last_None in Hly].
      rewrite last_lookup in Hly. pose proof (lookup_lt_Some _ _ _ Hly). pose proof (ca_get _ _ Hc _ _ Hly) as HFy.
      pose proof (batch_index _ _ Hb' _ _ Hly) as Hiy.
      replace (aq_prev_log_index q + 1 + N.of_nat (Init.Nat.pred (length (aq_entries q)))) with (last_index l') in *
        by (rewrite Hlast; unfold vlen; lia).
      exists x, y. split_and!; [done | done |].
      destruct (append_entries_appended (aq_entries q) l false (aq_prev_log_index q)) as [_ _ _ _ Hat _ _];
        [apply Hl | by eapply log_ok_pos | rewrite (lo_snapshot _ _ Hl); lia | done |].
      pose proof (Hat _ _ Hly) as Ht. rewrite Hiy in Ht. fold l' in Ht. rewrite (term_at_get0 l') in Ht by (apply Hl' || ulia).
      by rewrite Hx in Ht. }
  destruct (N.eq_0_gt_0_cases (last_index l')) as [Hz|Hpos].
  - rewrite Hz. split; [|lia]. intros j Hj. replace j with 0 by lia.
    rewrite !get_eq, (lo_snapshot _ _ Hl'), (lo_snapshot _ _ HF) by (apply Hl' || apply HF || done). done.
  - destruct (Hend Hpos) as (x & y & Hx & Hy & Ht). split; [eapply links_match; [done | done | ulia | done..] |].
    apply get_Some in Hy; [lia | apply HF | ulia].
Qed.

End State.

(** ** Steps *)

(** A step of node [i] that creates no leader and no entry. *)
Lemma ginv_frame s g i a' votes cand' :
  let a := a_nodes s i in
  let g' := mkGhost (g_lead g) cand' (g_acks g) in
  a_term a ≤ a_term a' → terms_le (a_log a') (a_term a') →
  (a_role a' = ALeader → g_lead g (a_term a') = Some (a_log a')) →
  (∀ vs, a_role a' = ACandidate vs → cand' (a_term a') i = Some (a_log a')) →
  (∀ e, acked (h_links s) g i e → keeps g (a_log a') (a_term a') e) →
  (∀ t c L, g_cand g t c = Some L → cand' t c = Some L) →
  (∀ t c L, cand' t c = Some L → g_cand g t c = Some L ∨
     (c = i ∧ t ≤ a_term a' ∧ log_ok (h_links s) L ∧ terms_le L t)) →
  (∀ v t c, In (v, t, c) votes → In (v, t, c) (h_votes s) ∨
     ∃ L, cand' t c = Some L ∧ ∀ e, acked (h_links s) g v e → e_term e < t → keeps g L t e) →
  ginv cfg s g →
  ginv cfg (mkACluster (upd (a_nodes s) i a') (a_net s) votes (h_leaders s) (h_links s)) g'.
Proof.
  intros a g' Ht Hle Hl Hc Hk Hold Hnew Hv [Gls Gl Gr Gk Gt Gc Gcl Gvq Gaq Ga Gh Gv Ge].
  assert (∀ v, a_term (a_nodes s v) ≤ a_term (upd (a_nodes s) i a' v)) as Hup by (intros v; upd_cases; done).
  split; simpl; try done.
  - intros j. upd_cases; [apply Hl | apply Gr].
  - intros j. upd_cases; [done | apply Gt].
  - intros j vs. upd_cases; [apply Hc |]. intros Hr. eapply Hold, Gc, Hr.
  - intros t c L HL. destruct (Hnew _ _ _ HL) as [H|(-> & ? & ? & ?)]; [|by rewrite upd_eq].
    destruct (Gcl _ _ _ H) as (? & ? & ?). specialize (Hup c). split_and!; [lia | done..].
  - intros m q Hm Hp. destruct (Gvq m q Hm Hp) as (L & ? & ? & ?). exists L. split_and!; auto.
  - intros v t n Hin. destruct (Ga _ _ _ Hin) as [? ?]. specialize (Hup v). split; [lia | done].
  - intros v e He. upd_cases; [by apply Hk | by apply Gh].
  - intros v t c Hin. destruct (Hv _ _ _ Hin) as [H|H]; [|done]. destruct (Gv _ _ _ H) as (L & HL & ?).
    exists L. split; [by apply Hold | done].
  - intros t F HF. destruct (Ge t F HF) as (f & Hq & Hf). exists f. split; [done |]. intros v Hfv.
    destruct (Hf v Hfv) as [? ?]. specialize (Hup v). split; [lia | done].
Qed.

(** A node acknowledges in its term what it shares with the leader's log. *)
Definition add_ack (g : Ghost) (x : NodeId * Term * LogIndex) : Ghost :=
  mkGhost (g_lead g) (g_cand g) (x :: g_acks g).

Lemma add_ack_gle g x : gle g (add_ack g x).
Proof. split; [intros t F HF; exists F; auto | by right]. Qed.

Lemma ginv_ack s g v n F :
  let a := a_nodes s v in
  ainv cfg T s → ginv cfg s g → g_lead g (a_term a) = Some F → n ≤ last_index F → agree (a_log a) F n →
  ginv cfg s (add_ack g (v, a_term a, n)).
Proof.
  intros a Hinv [Gls Gl Gr Gk Gt Gc Gcl Gvq Gaq Ga Gh Gv Ge] HF Hn Hag.
  assert (∀ w e, acked (h_links s) (add_ack g (v, a_term a, n)) w e →
            acked (h_links s) g w e ∨ (w = v ∧ e_term e = a_term a ∧ get (a_log a) (e_index e) = Some e)) as Hnew.
  { intros w e (k & p & [Heq|Hin] & Hlk & Hk); [|left; by exists k, p]. simplify_eq. right. split_and!; [done.. |].
    destruct (Gk _ _ Hlk) as (_ & F' & HF' & Hget). rewrite Hag by done. congruence. }
  split; try done.
  - intros w t k [Heq|Hin]; [|by apply Ga]. simplify_eq. split; [done | by exists F].
  - intros w e He. destruct (Hnew _ _ He) as [|(-> & _ & ?)]; [by apply Gh | by left].
  - intros w t c Hin. destruct (Gv _ _ _ Hin) as (L & HL & HLk). exists L. split; [done |]. intros e He Hlt.
    destruct (Hnew _ _ He) as [|(-> & Het & _)]; [by apply HLk |].
    apply (iv_cur _ (ai_vote _ _ _ Hinv)) in Hin as [? _]. fold a in H. lia.
  - intros t F' HF'. destruct (Ge t F' HF') as (f & Hq & Hf). exists f. split; [done |]. intros w Hfw.
    destruct (Hf w Hfw) as [Htw HFw]. split; [done |]. intros e He Hlt.
    destruct (Hnew _ _ He) as [|(-> & Het & _)]; [by apply HFw |]. fold a in Htw. lia.
Qed.

Lemma acked_mono links g v e : acked links g v e → ∀ links' g', (∀ x, In x links → In x links') → gle g g' → acked links' g' v e.
Proof. intros (n & p & ? & ? & ?) links' g' Hl [_ Ha]. exists n, p. auto. Qed.

Lemma ginv_observe s g i t :
  let a := a_nodes s i in
  ainv cfg T s → ginv cfg s g → a_term a < t →
  ginv cfg (mkACluster (upd (a_nodes s) i (mkANode t None (a_log a) AFollower))
              (a_net s) (h_votes s) (h_leaders s) (h_links s)) g.
Proof.
  intros a Hinv Hg Ht. destruct g as [gl gc ga]. apply (ginv_frame s (mkGhost gl gc ga) i); simpl; auto; try done.
  - fold a. lia.
  - intros k e Hk He. pose proof (gi_terms _ _ _ Hg i k e Hk He). fold a in H. lia.
  - intros e He. eapply keeps_mono; [reflexivity | | by eapply acked_index | by apply (gi_hold _ _ _ Hg)]. fold a. lia.
Qed.

Lemma ginv_grant s g i c m q :
  let a := a_nodes s i in
  ainv cfg T s → ginv cfg s g →
  In m (a_net s) → msg_from m = c → msg_term m = a_term a → msg_payload m = PVoteRequest q →
  up_to_date (a_log a) (vq_last_log_term q) (vq_last_log_index q) →
  ginv cfg (mkACluster (upd (a_nodes s) i (mkANode (a_term a) (Some c) (a_log a) AFollower))
              (a_net s) ((i, a_term a, c) :: h_votes s) (h_leaders s) (h_links s)) g.
Proof.
  intros a Hinv Hg Hm <- Ht Hp Hup. destruct (gi_vreq _ _ _ Hg _ _ Hm Hp) as (L & HL & Hi & Hlt).
  rewrite Hi, Hlt in Hup. rewrite Ht in HL. destruct (gi_cand_log _ _ _ Hg _ _ _ HL) as (_ & HLok & HLt).
  destruct g as [gl gc ga]. apply (ginv_frame s (mkGhost gl gc ga) i); simpl; auto; try done.
  - apply (gi_terms _ _ _ Hg).
  - apply (gi_hold _ _ _ Hg).
  - intros v t c [Heq|Hin]; [|by left]. simplify_eq. right. exists L. split; [done |]. intros e He _.
    pose proof He as (n & p & _ & Hlk & _). destruct (gi_hold _ _ _ Hg _ _ He) as [He'|]; [|by right].
    eapply up_to_date_keeps; [done | done | apply Hinv | done..].
Qed.

Lemma ginv_elect s g i :
  let a := a_nodes s i in
  ainv cfg T s → ginv cfg s g →
  ∃ g', gle g g' ∧ ginv cfg
    (if is_voter cfg i then
       mkACluster (upd (a_nodes s) i (mkANode (a_term a + 1) (Some i) (a_log a) (ACandidate [i])))
         (a_net s) ((i, a_term a + 1, i) :: h_votes s) (h_leaders s) (h_links s)
     else
       mkACluster (upd (a_nodes s) i (mkANode (a_term a + 1) None (a_log a) (ACandidate [])))
         (a_net s) (h_votes s) (h_leaders s) (h_links s)) g'.
Proof.
  intros a Hinv Hg. set (t := a_term a + 1).
  set (cand' := fun t' c => if (t' =? t) && (c =? i) then Some (a_log a) else g_cand g t' c).
  exists (mkGhost (g_lead g) cand' (g_acks g)). split; [split; [intros t' F HF; exists F; auto | done] |].
  assert (cand' t i = Some (a_log a)) as Hci by (unfold cand'; by rewrite !N.eqb_refl).
  assert (∀ t' c L, g_cand g t' c = Some L → cand' t' c = Some L) as Hold.
  { intros t' c L HL. unfold cand'. destruct (N.eqb_spec t' t) as [->|]; [|done].
    destruct (N.eqb_spec c i) as [->|]; [|done]. apply (gi_cand_log _ _ _ Hg) in HL as [? _]. fold a in H. lia. }
  assert (terms_le (a_log a) t) as Hle.
  { intros k e Hk He. pose proof (gi_terms _ _ _ Hg i k e Hk He). fold a in H. lia. }
  assert (∀ t' c L, cand' t' c = Some L → g_cand g t' c = Some L ∨
            (c = i ∧ t' ≤ t ∧ log_ok (h_links s) L ∧ terms_le L t')) as Hnew.
  { intros t' c L. unfold cand'. destruct (N.eqb_spec t' t) as [->|]; simpl; [|by left].
    destruct (N.eqb_spec c i) as [->|]; [|by left]. intros [= <-]. right. split_and!; [done | done | apply Hinv | done]. }
  assert (∀ e, acked (h_links s) g i e → keeps g (a_log a) t e) as Hk.
  { intros e He. eapply keeps_mono; [reflexivity | | by eapply acked_index | by apply (gi_hold _ _ _ Hg)]. fold a. lia. }
  destruct (is_voter cfg i); apply ginv_frame; simpl; auto; try done; try (fold a; lia).
  intros v t' c [Heq|Hin]; [|by left]. simplify_eq. right. exists (a_log a). auto.
Qed.

Lemma ginv_accept s g i m q :
  let a := a_nodes s i in
  ainv cfg T s → ginv cfg s g → In m (a_net s) → msg_term m = a_term a → msg_payload m = PAppendRequest q →
  (0 < aq_prev_log_index q → term_at (a_log a) (aq_prev_log_index q) = aq_prev_log_term q) →
  ginv cfg (mkACluster (upd (a_nodes s) i
                (mkANode (a_term a) (a_voted a) (append_entries (a_log a) false (aq_entries q)).1 AFollower))
              (a_net s) (h_votes s) (h_leaders s) (h_links s)) g.
Proof.
  intros a Hinv Hg Hm Ht Hp Hprev. destruct (gi_areq _ _ _ Hg _ _ Hm Hp) as (F & HF & Hc). rewrite Ht in HF.
  destruct (gi_lead _ _ _ Hg _ _ HF) as (_ & HFok & HFt).
  pose proof (ig_net _ _ (ai_log _ _ _ Hinv) _ _ Hm Hp) as Hq. pose proof (ig_log _ _ (ai_log _ _ _ Hinv) i) as Hl.
  destruct g as [gl gc ga]. apply (ginv_frame s (mkGhost gl gc ga) i); simpl; auto; try done.
  - eapply accept_request_terms; [exact Hinv | exact Hl | exact HFt | apply (gi_terms _ _ _ Hg) | done..].
  - intros e He. pose proof He as (n & p & Hack & Hlk & _). destruct (gi_hold _ _ _ Hg _ _ He) as [He'|]; [|by right].
    destruct (decide (get F (e_index e) = Some e)) as [HFe|HFe].
    { left. eapply accept_request_keeps; [done | apply Hl | exact HFok | done.. | by eapply link_index | done | done]. }
    right. exists (a_term a), F. apply (gi_ack _ _ _ Hg) in Hack as [Hle _]. fold a in Hle.
    split_and!; [|lia | done | done]. destruct (N.eq_dec (e_term e) (a_term a)) as [Heq|]; [|lia].
    exfalso. apply HFe. destruct (gi_link _ _ _ Hg _ _ Hlk) as (_ & F' & HF' & HFe'). simpl in *. congruence.
Qed.

Lemma ginv_send s g i m :
  ainv cfg T s → ginv cfg s g → msg_ok T i (a_nodes s i) m →
  ginv cfg (mkACluster (a_nodes s) (a_net s ++ [m]) (h_votes s) (h_leaders s) (h_links s)) g.
Proof.
  intros Hinv [Gls Gl Gr Gk Gt Gc Gcl Gvq Gaq Ga Gh Gv Ge] (Hfrom & _ & Hok). split; simpl; try done.
  - intros m' q [Hm|[<-|[]]]%in_app_iff Hp; [by apply Gvq |]. rewrite Hp in Hok.
    destruct Hok as (-> & [vs Hr] & -> & ->). exists (a_log (a_nodes s i)). rewrite Hfrom. split_and!; [by eapply Gc | done..].
  - intros m' q [Hm|[<-|[]]]%in_app_iff Hp; [by apply Gaq |]. rewrite Hp in Hok.
    destruct Hok as (-> & Hr & [Hs1 Hs2 Hs3]). exists (a_log (a_nodes s i)). split; [by apply Gr |]. by split.
Qed.

Definition set_lead (g : Ghost) (t : Term) (F : Log) : Ghost :=
  mkGhost (fun t' => if t' =? t then Some F else g_lead g t') (g_cand g) (g_acks g).

Lemma set_lead_cases g t F t' F' :
  g_lead (set_lead g t F) t' = Some F' → (t' = t ∧ F' = F) ∨ (t' ≠ t ∧ g_lead g t' = Some F').
Proof. simpl. destruct (N.eqb_spec t' t); [intros [= <-]; by left | by right]. Qed.

Lemma set_lead_eq g t F : g_lead (set_lead g t F) t = Some F.
Proof. simpl. by rewrite N.eqb_refl. Qed.

Lemma set_lead_gle g t F :
  (∀ F0, g_lead g t = Some F0 →
     (∀ k e, k < u64_modulus → get F0 k = Some e → get F k = Some e) ∧
     (∀ k e, k < u64_modulus → get F k = Some e → get F0 k = Some e ∨ e_term e = t)) →
  gle g (set_lead g t F).
Proof.
  intros H. split; [|done]. intros t' F' HF'. simpl. destruct (N.eqb_spec t' t) as [->|]; [|exists F'; auto].
  destruct (H F' HF'). by exists F.
Qed.

(** A longer log of created entries: what the request carries is still there. *)
Lemma extend_carries links F F' q :
  log_ok links F → log_ok links F' →
  (∀ k e, k < u64_modulus → get F k = Some e → get F' k = Some e) → carries F q → carries F' q.
Proof.
  intros [Hw Hs _ _] [Hw' Hs' _ _] Hext [Hc1 Hc2 Hb]. assert (aq_prev_log_index q < u64_modulus) as Hp by lia. split; [..|done].
  - intros Hne. specialize (Hc1 Hne). rewrite term_at_get0 in * by done.
    destruct (get F (aq_prev_log_index q)) as [e|] eqn:He; [|congruence]. by rewrite (Hext _ _ Hp He).
  - intros j e Hj. pose proof (lookup_lt_Some _ _ _ Hj). apply Hext; [ulia | by apply Hc2].
Qed.

Lemma extend_last F F' :
  log_wf F → log_wf F' → snapshot_index F = 0 →
  (∀ k e, k < u64_modulus → get F k = Some e → get F' k = Some e) → last_index F ≤ last_index F'.
Proof.
  intros Hw Hw' Hs Hext. pose proof (last_index_bound _ Hw). destruct (N.eq_0_gt_0_cases (last_index F)); [lia |].
  destruct (get_in_range F (last_index F)) as [e He]; [done | lia |].
  apply Hext, get_Some in He; [lia | done | ulia | ulia].
Qed.

(** Node [i] leads its term with the log [F], which extends the one it had. *)
Section SetLead.

Context (s : ACluster) (g : Ghost) (i : NodeId) (F : Log) (leaders : list (Term * NodeId)) (links : list (Term * Entry)).

Let a := a_nodes s i.
Let t := a_term a.
Let g' := set_lead g t F.

Hypothesis Hinv : ainv cfg T s.
Hypothesis Hg : ginv cfg s g.
Hypothesis Hgle : gle g g'.
Hypothesis HFt : terms_le F t.
Hypothesis HFext : ∀ k e, k < u64_modulus → get (a_log a) k = Some e → get F k = Some e.
Hypothesis Hlogs : log_ok links F ∧ ∀ l, log_ok (h_links s) l → log_ok links l.
Hypothesis Hlinks : ∀ p e, In (p, e) links →
  In (p, e) (h_links s) ∨ (p ≤ e_term e ∧ e_term e = t ∧ get F (e_index e) = Some e).
Hypothesis Hack : ∀ v e, acked links g v e → acked (h_links s) g v e.
Hypothesis Hleaders : In (t, i) leaders ∧ (∀ x, In x (h_leaders s) → In x leaders) ∧
  ∀ x, In x leaders → In x (h_leaders s) ∨ x = (t, i).
Hypothesis Hother : ∀ j, j ≠ i → a_role (a_nodes s j) = ALeader → a_term (a_nodes s j) ≠ t.
Hypothesis Helect : ∃ f, has_quorum cfg f = true ∧ ∀ v, f v = true → t ≤ a_term (a_nodes s v) ∧
  ∀ e, acked (h_links s) g v e → e_term e < t → keeps g' F (t - 1) e.

Lemma set_lead_keeps v l t' e : acked links g v e → keeps g l t' e → keeps g' l t' e.
Proof. intros He%Hack. eapply keeps_mono; [exact Hgle | reflexivity | by eapply acked_index]. Qed.

Lemma ginv_set_lead :
  ginv cfg (mkACluster (upd (a_nodes s) i (mkANode t (a_voted a) F ALeader)) (a_net s) (h_votes s) leaders links) g'.
Proof.
  pose proof Hg as [Gls Gl Gr Gk Gt Gc Gcl Gvq Gaq Ga Gh Gv Ge]. pose proof Hlogs as [HFok Hmono].
  pose proof Hleaders as (Hti & Hold & Hnew). set (n' := upd (a_nodes s) i _).
  assert (∀ v, a_term (n' v) = a_term (a_nodes s v)) as Hterm by (intros v; unfold n'; upd_cases; done).
  assert (∀ t' F0, g_lead g t' = Some F0 → ∃ F1, g_lead g' t' = Some F1 ∧ log_ok links F1 ∧
            ∀ k e, k < u64_modulus → get F0 k = Some e → get F1 k = Some e) as Hlead.
  { intros t' F0 HF0. destruct (gl_lead _ _ Hgle _ _ HF0) as (F1 & HF1 & Hext & _). exists F1. split_and!; [done | | done].
    apply set_lead_cases in HF1 as [[_ ->]|[_ HF1]]; [done |]. by eapply Hmono, Gl. }
  split; cbn [a_nodes a_net h_votes h_leaders h_links]; fold n'.
  - intros t' j Hin. destruct (Hnew _ Hin) as [H|[= -> ->]]; [|eexists; apply set_lead_eq].
    destruct (Gls _ _ H) as [F0 HF0]. destruct (Hlead _ _ HF0) as (F1 & ? & _). eauto.
  - intros t' F0 [[-> ->]|[_ HF0]]%set_lead_cases; [by split_and!; [exists i | |] |].
    destruct (Gl _ _ HF0) as ([j Hj] & ? & ?). split_and!; [exists j; auto | auto | done].
  - intros j. unfold n', upd. destruct (N.eqb_spec j i) as [->|Hne]; cbn [a_role a_term a_log]; [intros _; apply set_lead_eq |].
    intros Hrj. pose proof (Hother j Hne Hrj) as Ht. apply N.eqb_neq in Ht. unfold g'. simpl. rewrite Ht. by apply Gr.
  - intros p e Hin. destruct (Hlinks _ _ Hin) as [H|(? & Het & ?)].
    + destruct (Gk _ _ H) as (? & F0 & HF0 & He). destruct (Hlead _ _ HF0) as (F1 & ? & _ & Hext). split; [done |].
      exists F1. split; [done |]. apply Hext; [by eapply link_index | done].
    + split; [done |]. exists F. rewrite Het. split; [apply set_lead_eq | done].
  - intros j. unfold n'. upd_cases; [done | apply Gt].
  - intros j vs'. unfold n'. upd_cases; [done | apply Gc].
  - intros t' j L HL. rewrite Hterm. destruct (Gcl _ _ _ HL) as (? & ? & ?). auto.
  - done.
  - intros m q Hm Hp. destruct (Gaq _ _ Hm Hp) as (F0 & HF0 & Hc). destruct (Hlead _ _ HF0) as (F1 & HF1 & Hok1 & Hext).
    exists F1. split; [done |].
    eapply extend_carries; [by eapply Hmono, Gl | done..].
  - intros v t' n Hin. rewrite Hterm. destruct (Ga _ _ _ Hin) as (? & F0 & HF0 & ?). split; [done |].
    destruct (Hlead _ _ HF0) as (F1 & HF1 & Hok1 & Hext). exists F1. split; [done |]. destruct (Gl _ _ HF0) as (_ & Hok0 & _).
    etransitivity; [done |]. eapply extend_last; [apply Hok0 | apply Hok1 | apply Hok0 | done].
  - intros v e He. eapply set_lead_keeps; [done |]. pose proof (Gh v e (Hack _ _ He)) as Hk. unfold n'.
    upd_cases; [|done]. destruct Hk as [Hk|]; [left | by right]. apply HFext; [by eapply acked_index; [..|apply Hack] | done].
  - intros v t' c Hin. destruct (Gv _ _ _ Hin) as (L & HL & HLk). exists L. split; [done |]. intros e He Hlt.
    eapply set_lead_keeps; [done |]. apply HLk; auto.
  - intros t' F0 [[-> ->]|[_ HF0]]%set_lead_cases.
    + destruct Helect as (f & Hf & Hfv). exists f. split; [done |]. intros v Hv. rewrite Hterm.
      destruct (Hfv v Hv) as [? Hke]. split; [done |]. intros e He Hlt. apply Hke; [by apply Hack | done].
    + destruct (Ge _ _ HF0) as (f & Hf & Hfv). exists f. split; [done |]. intros v Hv. destruct (Hfv v Hv) as [? HFk].
      rewrite Hterm. split; [done |]. intros e He Hlt. eapply set_lead_keeps; [done |]. apply HFk; auto.
Qed.

End SetLead.

Lemma ginv_lead s g i vs :
  let a := a_nodes s i in
  ainv cfg T s → ginv cfg s g → a_role a = ACandidate vs → has_quorum cfg (contains vs) = true →
  let g' := set_lead g (a_term a) (a_log a) in
  gle g g' ∧ ginv cfg (mkACluster (upd (a_nodes s) i (mkANode (a_term a) (a_voted a) (a_log a) ALeader))
                         (a_net s) (h_votes s) ((a_term a, i) :: h_leaders s) (h_links s)) g'.
Proof.
  intros a Hinv Hg Hr Hq g'. pose proof (ai_vote _ _ _ Hinv) as Hvi.
  assert (∀ j, ¬ In (a_term a, j) (h_leaders s)) as Hno
    by (intros j; exact (lead_fresh cfg T HT s i vs j Hr Hq Hvi (ai_lead _ _ _ Hinv))).
  assert (∀ F, g_lead g (a_term a) ≠ Some F) as Hfresh.
  { intros F HF. destruct (gi_lead _ _ _ Hg _ _ HF) as [[j Hj] _]. by apply (Hno j). }
  assert (gle g g') as Hle by (apply set_lead_gle; by intros F0 ?%Hfresh).
  split; [done |]. apply ginv_set_lead; auto.
  - apply (gi_terms _ _ _ Hg).
  - split; [apply Hinv | done].
  - split_and!; [by left | by right |]. intros x [<-|]; auto.
  - intros j _ Hrj%(il_role _ _ (ai_lead _ _ _ Hinv)) Ht. rewrite Ht in Hrj. by apply (Hno j).
  - exists (contains vs). split; [done |]. intros v Hv%contains_true.
    pose proof (iv_cand _ Hvi i vs v Hr Hv) as Hvote. fold a in Hvote.
    split; [by apply (iv_cur _ Hvi) in Hvote as [? _] |]. intros e He Hlt.
    destruct (gi_vote _ _ _ Hg _ _ _ Hvote) as (L & HL & HLk).
    pose proof (gi_cand _ _ _ Hg _ _ Hr) as HL'. fold a in HL'. simplify_eq.
    destruct (HLk e He Hlt) as [|(t' & F' & Htt & HF' & ?)]; [by left |].
    assert (t' ≠ a_term a) as Hne by (intros ->; by apply Hfresh in HF').
    eapply (keeps_mono g); [done | reflexivity | by eapply acked_index |]. right. exists t', F'. split_and!; [lia | fold a; lia | done..].
Qed.

Lemma ginv_propose s g i cmd :
  let a := a_nodes s i in
  let e := mkEntry (a_term a) (last_index (a_log a) + 1) (PCommand cmd) in
  ainv cfg T s → ginv cfg s g → a_role a = ALeader → last_index (a_log a) + 1 ≤ T →
  let g' := set_lead g (a_term a) (append (a_log a) e) in
  let s' := mkACluster (upd (a_nodes s) i (mkANode (a_term a) (a_voted a) (append (a_log a) e) ALeader))
              (a_net s) (h_votes s) (h_leaders s) ((term_at (a_log a) (last_index (a_log a)), e) :: h_links s) in
  ainv cfg T s' → gle g g' ∧ ginv cfg s' g'.
Proof.
  intros a e Hinv Hg Hr HlT g' s' Hinv'. pose proof (ig_log _ _ (ai_log _ _ _ Hinv) i) as Hl. fold a in Hl.
  pose proof (gi_leader _ _ _ Hg i Hr) as HF. fold a in HF. pose proof (lo_wf _ _ Hl) as Hw.
  assert (∀ k, k < u64_modulus → get (append (a_log a) e) k = if k =? last_index (a_log a) + 1 then Some e else get (a_log a) k) as Hget.
  { intros k Hk. apply get_append; [done | done | unfold e; simpl; lia | done]. }
  assert (∀ k x, k < u64_modulus → get (a_log a) k = Some x → get (append (a_log a) e) k = Some x) as Hext.
  { intros k x Hk Hx. rewrite Hget by done. pose proof (get_Some _ _ _ Hw Hk Hx) as (? & _).
    destruct (N.eqb_spec k (last_index (a_log a) + 1)); [lia | done]. }
  assert (gle g g') as Hle.
  { apply set_lead_gle. intros F0. rewrite HF. intros [= <-]. split; [done |]. intros k x Hk. rewrite Hget by done.
    destruct (_ =? _); [intros [= <-]; by right | by left]. }
  split; [done |]. apply ginv_set_lead; auto.
  - intros k x Hk. rewrite Hget by done. destruct (_ =? _); [by intros [= <-] | by apply (gi_terms _ _ _ Hg)].
  - split; [|intros l; apply log_ok_mono; by right]. pose proof (ig_log _ _ (ai_log _ _ _ Hinv') i) as Hl'.
    unfold s' in Hl'. simpl in Hl'. by rewrite upd_eq in Hl'.
  - intros p x [Heq|Hin]; [right | by left]. injection Heq as <- <-. split_and!; [|done|].
    + simpl. rewrite term_at_get0; [|done | apply Hl | ulia]. destruct (get (a_log a) _) as [y|] eqn:Hy; [|lia].
      eapply (gi_terms _ _ _ Hg i); [|exact Hy]. ulia.
    + rewrite Hget by (simpl; ulia). simpl. by rewrite N.eqb_refl.
  - intros v x (n & p & Hack & [Heq|Hin] & Hn); [|by exists n, p]. injection Heq as _ <-. exfalso.
    apply (gi_ack _ _ _ Hg) in Hack as (_ & F' & HF' & Hle'). simpl in *. rewrite HF in HF'. simplify_eq. lia.
  - split_and!; [by apply (il_role _ _ (ai_lead _ _ _ Hinv) i) | done | by left].
  - intros j Hne Hrj Ht. apply Hne. apply (il_role _ _ (ai_lead _ _ _ Hinv)) in Hrj, Hr. rewrite Ht in Hrj.
    by eapply leader_unique; [apply Hinv | apply Hinv | exact Hrj | exact Hr].
  - destruct (gi_elect _ _ _ Hg _ _ HF) as (f & Hf & Hfv). exists f. split; [done |]. intros v Hv.
    destruct (Hfv v Hv) as [? HFk]. split; [done |]. intros x Hx Hlt. pose proof (acked_index s g Hinv v x Hx) as Hix.
    destruct (HFk x Hx Hlt) as [|]; [left; by apply Hext | right; eapply displaced_mono; [done | reflexivity | done | done]].
Qed.

Lemma ginv_step s s' g : micro cfg T s s' → ainv cfg T s → ginv cfg s g → ∃ g', gle g g' ∧ ginv cfg s' g'.
Proof.
  intros Hs Hinv Hg. pose proof (ainv_step cfg T HT s s' Hs Hinv) as Hinv'.
  destruct Hs as [s i t a Ht HtT|s i a|s i c mq q a Hr Hv Hmq Hfrom Hmt Hpq Hup|s i a Ht|s i vs m r a Hr Hm Hto Htm Hp Hgr
                 |s i vs a Hr Hq|s i cmd a e Hr Hl|s i m q a Hr Hm Hto Htm Hp Hprev|s i m Hok].
  - exists g. split; [done | by apply ginv_observe].
  - exists g. split; [done |]. destruct g as [gl gc ga].
    apply (ginv_frame s (mkGhost gl gc ga) i); simpl; auto; try done; [apply (gi_terms _ _ _ Hg) | apply (gi_hold _ _ _ Hg)].
  - exists g. split; [done | by eapply ginv_grant].
  - by apply ginv_elect.
  - exists g. split; [done |]. destruct g as [gl gc ga].
    apply (ginv_frame s (mkGhost gl gc ga) i); simpl; auto; try done; [apply (gi_terms _ _ _ Hg) | | apply (gi_hold _ _ _ Hg)].
    intros vs' _. by apply (gi_cand _ _ _ Hg i vs).
  - eexists. by eapply ginv_lead.
  - eexists. by apply ginv_propose.
  - exists g. split; [done | by eapply ginv_accept].
  - exists g. split; [done | by apply (ginv_send s g i)].
Qed.

(** ** Committed entries *)

(** A quorum has acknowledged the entry in its term. *)
Definition chosen (s : ACluster) (g : Ghost) (e : Entry) : Prop :=
  (∃ p, In (p, e) (h_links s)) ∧ ∃ f, has_quorum cfg f = true ∧ ∀ v, f v = true → acked (h_links s) g v e.

(** The log of every later leader holds a chosen entry. *)
Lemma leader_completeness s g e :
  ainv cfg T s → ginv cfg s g → chosen s g e →
  ∀ t F, e_term e < t → g_lead g t = Some F → get F (e_index e) = Some e.
Proof.
  intros Hinv Hg [_ (f & Hf & Hack)] t. induction t as [t IH] using (well_founded_induction N.lt_wf_0).
  intros F Ht HF. destruct (gi_elect _ _ _ Hg _ _ HF) as (f' & Hf' & Hk).
  destruct (has_quorum_overlap _ _ _ Hf Hf') as (v & _ & Hv & Hv').
  destruct (proj2 (Hk v Hv') e (Hack v Hv) Ht) as [|(t' & F' & Ht' & HF' & Hne)]; [done |].
  exfalso. apply Hne. apply (IH t'); [lia | lia | done].
Qed.

(** [x] is at index [j] of the log of a leader of a term up to [t], with an entry of
    that term chosen at [j] or after it. *)
Definition safe (s : ACluster) (g : Ghost) (t : Term) (j : LogIndex) (x : Entry) : Prop :=
  ∃ e F, chosen s g e ∧ e_term e ≤ t ∧ j ≤ e_index e ∧ g_lead g (e_term e) = Some F ∧ get F j = Some x.

Lemma chosen_index s g e : ainv cfg T s → chosen s g e → e_index e < u64_modulus.
Proof. intros Hinv [[p Hp] _]. by eapply link_index. Qed.

(** Leaders hold what was safe up to their term. *)
Lemma safe_lead s g t j x F :
  ainv cfg T s → ginv cfg s g → safe s g t j x → g_lead g t = Some F → get F j = Some x.
Proof.
  intros Hinv Hg (e & Fe & Hc & Ht & Hj & HFe & Hx) HF.
  destruct (N.eq_dec (e_term e) t) as [<-|Hne]; [congruence |].
  pose proof (chosen_index _ _ _ Hinv Hc) as Hi. pose proof Hc as [[p Hp] _].
  destruct (gi_link _ _ _ Hg _ _ Hp) as (_ & Fe' & HFe' & Hge). simplify_eq.
  pose proof (leader_completeness s g e Hinv Hg Hc t F ltac:(lia) HF) as Hget.
  rewrite <- Hx. symmetry. eapply (links_match s Hinv Fe F (e_index e)); [| | done..]; by eapply (gi_lead _ _ _ Hg).
Qed.

Lemma safe_mono s s' g g' t t' j x :
  ainv cfg T s → gle g g' → (∀ y, In y (h_links s) → In y (h_links s')) → t ≤ t' → safe s g t j x → safe s' g' t' j x.
Proof.
  intros Hinv Hle Hl Ht (e & F & Hc & He & Hj & HF & Hx). pose proof (chosen_index _ _ _ Hinv Hc).
  destruct (gl_lead _ _ Hle _ _ HF) as (F' & HF' & Hext & _). destruct Hc as [[p Hp] (f & Hf & Ha)].
  exists e, F'. split_and!; [|lia | done | done | apply Hext; [lia | done]].
  split; [eauto |]. exists f. split; [done |]. intros v Hv. eapply acked_mono; [by apply Ha | done | done].
Qed.

(** What is safe at an index is unique. *)
Lemma safe_unique s g t t' j x y :
  ainv cfg T s → ginv cfg s g → safe s g t j x → safe s g t' j y → x = y.
Proof.
  intros Hinv Hg.
  assert (∀ t t' x y, safe s g t j x → (∃ F, g_lead g t' = Some F ∧ get F j = Some y) → t ≤ t' → x = y) as Hwlog.
  { intros t1 t2 x1 y1 Hs (F & HF & Hy) Hle.
    assert (safe s g t2 j x1) as Hs2 by (eapply safe_mono; [done | reflexivity | done | done | done]).
    pose proof (safe_lead _ _ _ _ _ _ Hinv Hg Hs2 HF). congruence. }
  intros (e & F & Hc & He & Hj & HF & Hx) (e' & F' & Hc' & He' & Hj' & HF' & Hy).
  assert (∀ e F x, chosen s g e → j ≤ e_index e → g_lead g (e_term e) = Some F → get F j = Some x →
            safe s g (e_term e) j x) as Hself by (intros e0 F0 x0 ????; exists e0, F0; by split_and!).
  destruct (N.le_ge_cases (e_term e) (e_term e')) as [Hle|Hle]; [|symmetry]; (eapply Hwlog; [|eauto | exact Hle]); eauto.
Qed.

(** Nodes keep what is safe up to their term. *)
Lemma safe_kept s s' g v j x :
  micro cfg T s s' → ainv cfg T s → ginv cfg s g → j < u64_modulus →
  get (a_log (a_nodes s v)) j = Some x → safe s g (a_term (a_nodes s v)) j x →
  get (a_log (a_nodes s' v)) j = Some x ∧ a_term (a_nodes s v) ≤ a_term (a_nodes s' v).
Proof.
  intros Hs Hinv Hg Hj Hx Hsafe.
  destruct Hs as [s i t a Ht HtT|s i a|s i c mq q a Hr Hv Hmq Hfrom Hmt Hpq Hup|s i a Ht|s i vs m r a Hr Hm Hto Htm Hp Hgr
                 |s i vs a Hr Hq|s i cmd a e Hr Hl|s i m q a Hr Hm Hto Htm Hp Hprev|s i m Hok]; simpl;
    try (unfold upd; destruct (N.eqb_spec v i) as [->|]; simpl; (split; [done | fold a; lia])); try done.
  - destruct (is_voter cfg i); unfold upd; simpl; destruct (N.eqb_spec v i) as [->|]; simpl; (split; [done | fold a; lia]).
  - unfold upd. destruct (N.eqb_spec v i) as [->|]; simpl; [|done]. split; [|done].
    pose proof (ig_log _ _ (ai_log _ _ _ Hinv) i) as [Hw _ _ _]. fold a in Hw, Hx.
    rewrite get_append; [|done | done | simpl; lia | done]. apply get_Some in Hx as Hr'; [|done..].
    destruct (N.eqb_spec j (last_index (a_log a) + 1)); [lia | done].
  - unfold upd. destruct (N.eqb_spec v i) as [->|]; simpl; [|done]. split; [|done].
    destruct (gi_areq _ _ _ Hg _ _ Hm Hp) as (F & HF & Hc). rewrite Htm in HF.
    eapply accept_request_keeps; [exact Hinv | apply Hinv | by eapply (gi_lead _ _ _ Hg) | | exact Hc | done | done | done |].
    + by eapply (ig_net _ _ (ai_log _ _ _ Hinv)).
    + by eapply safe_lead.
Qed.

(** ** Executions *)

Record advances (s : ACluster) (g : Ghost) (s' : ACluster) (g' : Ghost) : Prop := {
  ad_inv : ginv cfg s' g';
  ad_gle : gle g g';
  ad_safe : ∀ t t' j x, t ≤ t' → safe s g t j x → safe s' g' t' j x;
  ad_kept : ∀ v j x, j < u64_modulus → get (a_log (a_nodes s v)) j = Some x →
    safe s g (a_term (a_nodes s v)) j x → get (a_log (a_nodes s' v)) j = Some x;
  ad_term : ∀ v, a_term (a_nodes s v) ≤ a_term (a_nodes s' v)
}.

Lemma micro_term s s' v : micro cfg T s s' → a_term (a_nodes s v) ≤ a_term (a_nodes s' v).
Proof.
  destruct 1; try destruct (is_voter cfg i); simpl; unfold upd; try destruct (N.eqb_spec v i) as [->|];
    repeat match goal with x := _ |- _ => subst x end; simpl; lia.
Qed.

Lemma ginv_steps s s' g : rtc (micro cfg T) s s' → ainv cfg T s → ginv cfg s g → ∃ g', advances s g s' g'.
Proof.
  intros Hst. revert g. induction Hst as [s|s s1 s2 Hm Hst IH]; intros g Hinv Hg.
  { exists g. split; [done | done | | done | done]. intros t t' j x Ht. by apply safe_mono. }
  destruct (ginv_step s s1 g Hm Hinv Hg) as (g1 & Hle1 & Hg1). pose proof (ainv_step cfg T HT s s1 Hm Hinv) as Hinv1.
  destruct (IH g1 Hinv1 Hg1) as (g2 & [Hg2 Hle2 Hsafe2 Hkept2 Hterm2]).
  assert (∀ t t' j x, t ≤ t' → safe s g t j x → safe s1 g1 t' j x) as Hsafe1
    by (intros t t' j x Ht; apply safe_mono; [done | done | apply (micro_grows _ _ _ _ Hm) | done]).
  exists g2. split; [done | by etransitivity | | |].
  - intros t t' j x Ht Hs. by eapply (Hsafe2 t t'); [|eapply (Hsafe1 t t)].
  - intros v j x Hj Hx Hs. destruct (safe_kept s s1 g v j x Hm Hinv Hg Hj Hx Hs) as [Hx1 Ht1].
    apply Hkept2; [done | done | by eapply Hsafe1].
  - intros v. etransitivity; [by apply micro_term | apply Hterm2].
Qed.

End Facts.

Definition ginit : Ghost := mkGhost (fun _ => None) (fun _ _ => None) [].

Lemma ginit_inv cfg : ginv cfg ainit ginit.
Proof.
  split; simpl; try done.
  - intros i k e Hk He. apply get_Some in He; [|apply default_log_wf | done].
    change (last_index default_log) with 0 in He. lia.
  - by intros v e (n & p & [] & _).
Qed.
