(* ===== verification/Refine.v ===== *)
(** * The node refines abstract Raft

    Every event a [RaftNode] processes is a sequence of the small steps of file
    Raft, seen through the abstraction of its core and role ([abs_node]); the same
    lemmas show that the node raises [persist] whenever its persistent state
    changes and that it asks for no snapshot. The setting is that of the deployed
    runtime: the log is never compacted and no configuration entry is in it. *)

From S2P Require Import Prelude BTree Membership Log Event Core Role.
From S2P Require Import Follower PreCandidate Candidate Leader Node Raft.

Open Scope N_scope.

(** ** Abstraction *)

Definition abs_role (r : RoleState) : ARole :=
  match r with
  | RFollower _ | RPreCandidate _ => AFollower
  | RCandidate p => ACandidate (Candidate.votes p)
  | RLeader _ => ALeader
  end.

Definition abs_core (c : Core) (r : ARole) : ANode := mkANode (term c) (voted_for (persistent c)) (log c) r.

Definition abs_node (n : RaftNode) : ANode := abs_core (core n) (abs_role (role n)).

(** Only commands in the log, no configuration carried by a snapshot. *)
Record plain (l : Log) : Prop := {
  pl_commands : Forall (fun e => is_config (e_payload e) = false) (entries l);
  pl_config : snapshot_config l = None
}.

(** ** Small steps of one node *)

Section Local.

Context (cfg : Configuration) (T : N) (i : NodeId) (net : list Message).

(** The steps of [Raft.micro] that node [i] takes, with the messages it sends;
    [net] holds the messages it may have received. *)
Inductive nmicro : ANode → ANode → list Message → Prop :=
| N_observe a t : a_term a < t → t ≤ T → nmicro a (mkANode t None (a_log a) AFollower) []
| N_step_down a : nmicro a (mkANode (a_term a) (a_voted a) (a_log a) AFollower) []
| N_grant a c m q :
    a_role a = AFollower → (a_voted a = None ∨ a_voted a = Some c) →
    In m net → msg_from m = c → msg_term m = a_term a → msg_payload m = PVoteRequest q →
    up_to_date (a_log a) (vq_last_log_term q) (vq_last_log_index q) →
    nmicro a (mkANode (a_term a) (Some c) (a_log a) AFollower) []
| N_elect a :
    a_term a + 1 ≤ T →
    nmicro a (mkANode (a_term a + 1) (if is_voter cfg i then Some i else None) (a_log a)
                (ACandidate (if is_voter cfg i then [i] else []))) []
| N_count a vs m r :
    a_role a = ACandidate vs → In m net → msg_to m = i → msg_term m = a_term a →
    msg_payload m = PVoteResponse r → vr_granted r = true →
    nmicro a (mkANode (a_term a) (a_voted a) (a_log a) (ACandidate (insert (msg_from m) vs))) []
| N_lead a vs :
    a_role a = ACandidate vs → Membership.has_quorum cfg (contains vs) = true →
    nmicro a (mkANode (a_term a) (a_voted a) (a_log a) ALeader) []
| N_propose a cmd :
    a_role a = ALeader → last_index (a_log a) + 1 ≤ T →
    nmicro a (mkANode (a_term a) (a_voted a)
                (append (a_log a) (mkEntry (a_term a) (last_index (a_log a) + 1) (PCommand cmd))) ALeader) []
| N_accept a m q :
    a_role a = AFollower → In m net → msg_to m = i → msg_term m = a_term a →
    msg_payload m = PAppendRequest q →
    (0 < aq_prev_log_index q → term_at (a_log a) (aq_prev_log_index q) = aq_prev_log_term q) →
    nmicro a (mkANode (a_term a) (a_voted a) (append_entries (a_log a) false (aq_entries q)).1 AFollower) []
| N_send a m : msg_ok T i a m → nmicro a a [m].

Inductive nsteps : ANode → ANode → list Message → Prop :=
| ns_refl a : nsteps a a []
| ns_step a b c ms ms' : nmicro a b ms → nsteps b c ms' → nsteps a c (ms ++ ms').

Lemma nsteps_one a b ms : nmicro a b ms → nsteps a b ms.
Proof. intros H. rewrite <- (app_nil_r ms). eapply ns_step; [done | apply ns_refl]. Qed.

Lemma nsteps_trans a b c ms ms' : nsteps a b ms → nsteps b c ms' → nsteps a c (ms ++ ms').
Proof.
  induction 1 as [|a b b' m1 m2 Hm _ IH]; intros H; [done |].
  rewrite <- app_assoc. eapply ns_step; [done | by apply IH].
Qed.

Lemma nsteps_send a ms : Forall (msg_ok T i a) ms → nsteps a a ms.
Proof.
  induction 1 as [|m ms Hm _ IH]; [apply ns_refl |].
  apply (ns_step a a a [m]); [by apply N_send | done].
Qed.

Ltac lift_done :=
  simpl; rewrite app_nil_r; (split_and!; [by rewrite upd_eq | intros j Hj; by rewrite upd_ne | done]).

(** The steps of one node are steps of the cluster. *)
Lemma nmicro_lift s b ms :
  nmicro (a_nodes s i) b ms → (∀ m, In m net → In m (a_net s)) →
  ∃ s', micro cfg T s s' ∧ a_nodes s' i = b ∧ (∀ j, j ≠ i → a_nodes s' j = a_nodes s j) ∧
        a_net s' = a_net s ++ ms.
Proof.
  intros H Hnet. remember (a_nodes s i) as a eqn:Ha. destruct H; subst a; eexists.
  - split; [by apply (M_observe cfg T s i t) |]. lift_done.
  - split; [by apply (M_step_down cfg T s i) |]. lift_done.
  - split; [by apply (M_grant cfg T s i c m q); auto |]. lift_done.
  - split; [by apply (M_elect cfg T s i) |]. destruct (is_voter cfg i); lift_done.
  - split; [by apply (M_count cfg T s i vs m r); auto |]. lift_done.
  - split; [by apply (M_lead cfg T s i vs) |]. lift_done.
  - split; [by apply (M_propose cfg T s i cmd) |]. lift_done.
  - split; [by apply (M_accept cfg T s i m q); auto |]. lift_done.
  - split; [by apply (M_send cfg T s i m) |]. done.
Qed.

Lemma nsteps_lift a b ms :
  nsteps a b ms → ∀ s, a_nodes s i = a → (∀ m, In m net → In m (a_net s)) →
  ∃ s', rtc (micro cfg T) s s' ∧ a_nodes s' i = b ∧ (∀ j, j ≠ i → a_nodes s' j = a_nodes s j) ∧
        a_net s' = a_net s ++ ms.
Proof.
  induction 1 as [a|a b c ms ms' Hm _ IH]; intros s Ha Hnet.
  { exists s. rewrite app_nil_r. split_and!; [apply rtc_refl | done..]. }
  rewrite <- Ha in Hm. destruct (nmicro_lift s b ms Hm Hnet) as (s1 & Hm1 & Hb & Hj1 & Hn1).
  destruct (IH s1 Hb) as (s2 & Hr & Hc & Hj2 & Hn2).
  { intros m Hin. rewrite Hn1. apply in_app_iff. left. by apply Hnet. }
  exists s2. split_and!; [by eapply rtc_l | done | |].
  - intros j Hj. by rewrite Hj2, Hj1.
  - by rewrite Hn2, Hn1, app_assoc.
Qed.

End Local.

(** ** Steps of a core *)

Lemma random_election_timeout_frame c t c' :
  random_election_timeout c = Some (t, c') → ∃ r, c' = set_rng c r.
Proof.
  unfold random_election_timeout, rand. destruct (election_timeout (config c)). simpl.
  case_match; [done |]. intros [= _ <-]. by eexists.
Qed.

Lemma latest_config_plain es :
  Forall (fun e => is_config (e_payload e) = false) es → latest_config es = None.
Proof.
  induction 1 as [|e es He _ IH]; [done |]. simpl. rewrite IH. by destruct (e_payload e).
Qed.

Lemma config_at_plain l k : plain l → config_at l k = None.
Proof.
  intros [Hp Hc]. unfold config_at. case_match; [done |].
  unfold vtruncate. rewrite latest_config_plain; [done |]. by apply Forall_take.
Qed.

Lemma effective_config_plain c : plain (log c) → effective_config c = bootstrap_config (persistent c).
Proof. intros H. unfold effective_config, core_config_at. by rewrite config_at_plain. Qed.

Section Evolve.

Context (cfg : Configuration) (T : N) (HT : T < u64_max) (i : NodeId) (net : list Message).

(** The log is built from the created entries [links]. *)
Record core_ok (links : list (Term * Entry)) (c : Core) : Prop := {
  co_id : core_id c = i;
  co_boot : bootstrap_config (persistent c) = cfg;
  co_term : term c ≤ T;
  co_log : log_ok links (log c);
  co_links : ∀ p e, In (p, e) links →
    0 < e_index e ≤ T ∧ 0 < e_term e ∧ is_config (e_payload e) = false
}.

(** What processing does to a core, with the role before and after. *)
Record evolves (c : Core) (r : ARole) (c' : Core) (r' : ARole) (e : Effects) : Prop := {
  ev_config : config c' = config c;
  ev_boot : bootstrap_config (persistent c') = bootstrap_config (persistent c);
  ev_steps : nsteps cfg T i net (abs_core c r) (abs_core c' r') (messages e);
  ev_snapshots : send_snapshots e = [];
  ev_persist : persist e = false → persistent c' = persistent c
}.

Lemma core_ok_wf links c : core_ok links c → log_wf (log c).
Proof. intros [_ _ _ [? _ _ _] _]. done. Qed.

Lemma core_ok_last links c : core_ok links c → last_index (log c) ≤ T.
Proof. intros [_ _ _ Hl Hk]. by eapply log_ok_last. Qed.

Lemma core_ok_plain links c : core_ok links c → plain (log c).
Proof.
  intros [_ _ _ Hl Hk]. split; [|apply Hl]. eapply log_ok_Forall; [exact HT | | done]. intros p e Hin. by eapply Hk.
Qed.

Lemma core_ok_config links c : core_ok links c → effective_config c = cfg.
Proof. intros H. rewrite effective_config_plain by (by eapply core_ok_plain). apply H. Qed.

Lemma core_ok_frame links c c' :
  config c' = config c → persistent c' = persistent c → core_ok links c → core_ok links c'.
Proof.
  intros Hc Hp [? ? ? ? ?].
  assert (log c' = log c) as Hl by (unfold log; by rewrite Hp).
  split; rewrite ?Hl, ?Hp; unfold core_id, term; rewrite ?Hc, ?Hp; done.
Qed.

Lemma evolves_trans c r c1 r1 e1 c2 r2 e2 :
  evolves c r c1 r1 e1 → evolves c1 r1 c2 r2 e2 → evolves c r c2 r2 (merge e1 e2).
Proof.
  intros [C1 B1 S1 N1 P1] [C2 B2 S2 N2 P2]. split; simpl.
  - congruence.
  - congruence.
  - by eapply nsteps_trans.
  - by rewrite N1, N2.
  - intros [? ?]%orb_false_iff. rewrite P2, P1; done.
Qed.

(** Only volatile fields change. *)
Lemma evolves_frame c r c' :
  config c' = config c → persistent c' = persistent c → evolves c r c' r none.
Proof.
  intros Hc Hp. split; simpl; [done | by rewrite Hp | | done..].
  replace (abs_core c' r) with (abs_core c r); [apply ns_refl |]. unfold abs_core, term, log. by rewrite Hp.
Qed.

Lemma evolves_refl c r : evolves c r c r none.
Proof. by apply evolves_frame. Qed.

Lemma evolves_send c r c' ms :
  config c' = config c → persistent c' = persistent c → Forall (msg_ok T i (abs_core c r)) ms →
  evolves c r c' r (mkEffects false ms []).
Proof.
  intros Hc Hp Hms. split; simpl; [done | by rewrite Hp | | done..].
  replace (abs_core c' r) with (abs_core c r); [by apply nsteps_send |]. unfold abs_core, term, log. by rewrite Hp.
Qed.

Lemma evolves_down c r : evolves c r c AFollower none.
Proof. split; try done. simpl. apply (nsteps_one _ _ _ _ (abs_core c r)), (N_step_down _ _ _ _ (abs_core c r)). Qed.

Lemma evolves_persist c r c' r' e : evolves c r c' r' e → evolves c r c' r' (with_persist e).
Proof. intros [? ? ? ? ?]. by split. Qed.

Lemma evolves_observe c r t u c' :
  t ≤ T → term c < t → maybe_update_term c t = (u, c') → evolves c r c' AFollower (with_persist none) ∧ u = true.
Proof.
  intros Ht Hlt. unfold maybe_update_term. destruct (N.ltb_spec (term c) t); [|lia].
  intros [= <- <-]. split; [|done]. split; simpl; try done.
  apply nsteps_one. apply (N_observe _ _ _ _ (abs_core c r)); done.
Qed.

Lemma core_ok_observe links c t u c' :
  t ≤ T → maybe_update_term c t = (u, c') → core_ok links c → core_ok links c'.
Proof.
  intros Ht. unfold maybe_update_term. destruct (N.ltb_spec (term c) t); intros [= <- <-]; [|done].
  intros [? ? ? ? ?]. by split.
Qed.

End Evolve.

Create HintDb evolve.
#[export] Hint Resolve evolves_refl evolves_down evolves_persist : evolve.

(** ** Roles *)

Lemma follower_never_leads f c e f' c' r : Follower.step f c e = Some (f', c', r) → transition r ≠ ToLeader.
Proof.
  destruct e as [|m|k]; simpl.
  - unfold Follower.handle_tick. intros [= H]. by repeat case_match; simplify_eq.
  - unfold Follower.step_message. case_match; [intros H'; by opt_inv |].
    assert (∀ f1 c1 f2 c2 r2, Follower.dispatch f1 c1 m = Some (f2, c2, r2) → transition r2 ≠ ToLeader) as Hd.
    { intros f1 c1 f2 c2 r2. unfold Follower.dispatch, Follower.handle_vote_request,
        Follower.handle_append_request, Follower.handle_read_index_request, Follower.handle_install_snapshot.
      destruct (msg_payload m); intros H'; repeat (opt_inv || case_match); done. }
    destruct (msg_payload m) eqn:Hp; intros H'; opt_inv; try done;
      (case_match; opt_inv; [done |]; apply Hd in E0; by case_match).
  - intros H. by opt_inv.
Qed.

Lemma precandidate_never_leads p c e p' c' r :
  PreCandidate.step p c e = Some (p', c', r) → transition r ≠ ToLeader.
Proof.
  destruct e as [|m|k]; simpl.
  - unfold PreCandidate.handle_tick. intros H. by repeat (opt_inv || case_match).
  - unfold PreCandidate.step_message, PreCandidate.handle_prevote_response, PreCandidate.handle_append_request.
    intros [= H]. by repeat (opt_inv || case_match).
  - intros H. by opt_inv.
Qed.

Section Roles.

Context (cfg : Configuration) (T : N) (HT : T < u64_max) (i : NodeId) (net : list Message).

Local Abbreviation core_ok := (core_ok cfg T i).
Local Abbreviation evolves := (evolves cfg T i net).

Hypothesis net_term : ∀ m, In m net → msg_term m ≤ T.
Hypothesis net_prevote : ∀ m r, In m net → msg_payload m = PPreVoteResponse r → pvr_term r ≤ T.
Hypothesis net_install : ∀ m, In m net → is_install (msg_payload m) = false.

Context (links : list (Term * Entry)).

Hypothesis net_request : ∀ m q, In m net → msg_payload m = PAppendRequest q → request_ok links q.

(** Discharge [msg_ok] of a reply at the sender's own term. *)
Ltac reply_ok Hok :=
  let Hi := fresh in let Ht := fresh in let Hl := fresh in
  pose proof (co_id _ _ _ _ _ Hok) as Hi; pose proof (co_term _ _ _ _ _ Hok) as Ht;
  pose proof (core_ok_last _ _ HT _ _ _ Hok) as Hl;
  repeat constructor; simpl; try done; try (unfold term, core_id, log in *; simpl in *; congruence || lia).

Lemma reset_deadline_frame f c f' c' :
  Follower.reset_deadline f c = Some (f', c') → ∃ r, c' = set_rng c r.
Proof.
  unfold Follower.reset_deadline. intros H. opt_inv. by eapply random_election_timeout_frame.
Qed.

Lemma follower_new_frame c l f c' : Follower.new c l = Some (f, c') → ∃ r, c' = set_rng c r.
Proof. unfold Follower.new. intros H. opt_inv. by eapply random_election_timeout_frame. Qed.

Lemma up_to_date_ok c lt li : log_is_up_to_date c lt li = true → up_to_date (log c) lt li.
Proof.
  unfold log_is_up_to_date, up_to_date. rewrite orb_true_iff, andb_true_iff, N.ltb_lt, N.eqb_eq, N.leb_le.
  intros [?|[-> ?]]; auto.
Qed.

Lemma follower_vote f c m req f' c' r :
  core_ok links c → In m net → msg_term m = term c → msg_payload m = PVoteRequest req →
  Follower.handle_vote_request f c (msg_from m) req = Some (f', c', r) →
  evolves c AFollower c' AFollower (effects r).
Proof.
  intros Hok Hm Hmt Hp. unfold Follower.handle_vote_request. set (from := msg_from m).
  destruct (is_voter (effective_config c) from && can_vote_for c from &&
            log_is_up_to_date c (vq_last_log_term req) (vq_last_log_index req)) eqn:Hg; intros H; opt_inv.
  - destruct (reset_deadline_frame _ _ _ _ E0) as [rg ->].
    apply andb_true_iff in Hg as [[_ Hv]%andb_true_iff Hup%up_to_date_ok].
    pose proof (co_id _ _ _ _ _ Hok) as Hid. pose proof (co_term _ _ _ _ _ Hok) as Htm.
    split; simpl; try done.
    apply (ns_step _ _ _ _ _ (abs_core (vote_for c from) AFollower) _ []).
    + apply (N_grant _ _ _ _ (abs_core c AFollower) from m req); try done. simpl. unfold can_vote_for in Hv.
      destruct (voted_for (persistent c)); [right; apply N.eqb_eq in Hv; by subst | by left].
    + apply nsteps_one, N_send. repeat constructor; simpl; done.
  - apply evolves_send; [done..|]. reply_ok Hok.
Qed.

(** An accepted request leaves a log built from created entries, and an unchanged
    log when nothing was appended. *)
Lemma accepted_log c q :
  core_ok links c → request_ok links q →
  (0 < aq_prev_log_index q → term_at (log c) (aq_prev_log_index q) = aq_prev_log_term q) →
  log_ok links (append_entries (log c) false (aq_entries q)).1 ∧
  ((append_entries (log c) false (aq_entries q)).2 = false →
   (append_entries (log c) false (aq_entries q)).1 = log c).
Proof.
  intros Hok Hq Hprev. pose proof Hok as [_ _ _ Hlog Hlinks]. split; [by eapply request_accept_ok |].
  destruct (aq_entries q) as [|e es] eqn:Hes; [done |]. rewrite <- Hes in *.
  assert (aq_entries q ≠ []) as Hne by (by rewrite Hes). destruct Hq as [Rb _ _ Rp]. specialize (Rb Hne).
  pose proof (lo_wf _ _ Hlog) as Hw. pose proof (batch_bound _ _ Rb).
  edestruct (append_entries_appended (aq_entries q) (log c) false (aq_prev_log_index q)) as [_ _ _ _ _ _ Hp];
    [done | exact (log_ok_pos T HT links Hlinks _ Hlog) | | done | intros Hf; by apply Hp in Hf as [? _]].
  rewrite (lo_snapshot _ _ Hlog). split; [lia |].
  destruct (N.eq_0_gt_0_cases (aq_prev_log_index q)) as [->|Hpos]; [lia |].
  apply term_at_nonzero; [done | ulia |]. rewrite Hprev by done. by apply Rp.
Qed.

Lemma follower_append f c m q f' c' r :
  core_ok links c → In m net → msg_to m = i → msg_term m = term c → msg_payload m = PAppendRequest q →
  Follower.handle_append_request f c (msg_from m) q = Some (f', c', r) →
  evolves c AFollower c' AFollower (effects r).
Proof.
  intros Hok Hm Hto Ht Hp. unfold Follower.handle_append_request. intros H. opt_inv.
  destruct (reset_deadline_frame _ _ _ _ E) as [rg ->].
  change (log (set_rng c rg)) with (log c) in H.
  destruct ((0 <? aq_prev_log_index q) && negb (term_at (log c) (aq_prev_log_index q) =? aq_prev_log_term q)) eqn:Hc.
  { opt_inv. apply evolves_send; [done..|]. reply_ok Hok. }
  assert (0 < aq_prev_log_index q → term_at (log c) (aq_prev_log_index q) = aq_prev_log_term q) as Hprev.
  { intros Hpos. apply andb_false_iff in Hc as [?%N.ltb_ge|Hc]; [lia |].
    by apply negb_false_iff, N.eqb_eq in Hc. }
  destruct (accepted_log c q Hok (net_request _ _ Hm Hp) Hprev) as [Hlog Hsame].
  destruct (append_entries (log c) false (aq_entries q)) as [l persist] eqn:Ha. simpl in Hlog, Hsame. opt_inv.
  set (c1 := set_log (set_rng c rg) l).
  set (c2 := if commit_index c1 <? aq_leader_commit q
             then set_commit_index c1 (N.min (aq_leader_commit q) (last_index (log c1))) else c1).
  assert (config c2 = config c ∧ persistent c2 = persistent c1) as [Hc2 Hp2]
    by (unfold c2; by case_match).
  assert (abs_core c2 AFollower = mkANode (term c) (voted_for (persistent c)) l AFollower) as Habs.
  { unfold abs_core, term, log. by rewrite Hp2. }
  split; simpl; [done | by rewrite Hp2 | | by destruct persist |].
  - apply (ns_step _ _ _ _ _ (abs_core c2 AFollower) _ []).
    + rewrite Habs. pose proof (N_accept cfg T i net (abs_core c AFollower) m q) as Hstep.
      simpl in Hstep. rewrite Ha in Hstep. by apply Hstep.
    + destruct persist; simpl; apply nsteps_one, N_send; unfold msg_ok; simpl;
        unfold term, core_id, log; rewrite Hp2, Hc2; simpl;
        (split_and!; [apply Hok | apply Hok | eapply log_ok_last; [done | exact (co_links _ _ _ _ _ Hok) | done]]).
  - intros Hf. rewrite Hp2. destruct persist; [done |].
    unfold c1. simpl. rewrite Hsame by done. unfold log. by destruct (persistent c).
Qed.

Definition event_in (e : Event) : Prop :=
  match e with EMessage m => In m net ∧ msg_to m = i | _ => True end.

Lemma follower_dispatch f c m f' c' r :
  core_ok links c → In m net → msg_to m = i → msg_term m = term c →
  Follower.dispatch f c m = Some (f', c', r) → evolves c AFollower c' AFollower (effects r).
Proof.
  intros Hok Hm Hto Ht. unfold Follower.dispatch. destruct (msg_payload m) eqn:Hp; intros H;
    try (by opt_inv; apply evolves_refl).
  - by eapply follower_vote.
  - by eapply follower_append.
  - apply net_install in Hm. by rewrite Hp in Hm.
  - unfold Follower.handle_read_index_request in H. opt_inv.
    destruct (reset_deadline_frame _ _ _ _ E) as [rg ->].
    apply evolves_send; [done..|]. reply_ok Hok.
Qed.

Lemma follower_observe f c m f' c' u :
  core_ok links c → In m net → Follower.observe_term f c m = Some (f', c', u) →
  evolves c AFollower c' AFollower (if u then with_persist none else none) ∧ core_ok links c' ∧
  (term c < msg_term m → term c' = msg_term m) ∧ (msg_term m ≤ term c → c' = c).
Proof.
  intros Hok Hm. unfold Follower.observe_term. destruct (N.ltb_spec (term c) (msg_term m)) as [Hlt|Hle].
  - destruct (maybe_update_term c (msg_term m)) as [u' c1] eqn:Hu. intros H. opt_inv.
    destruct (reset_deadline_frame _ _ _ _ E) as [rg ->].
    destruct (evolves_observe cfg T HT i net c AFollower _ _ _ (net_term _ Hm) Hlt Hu) as [He ->].
    split_and!; [| | | lia].
    + change (evolves c AFollower (set_rng c1 rg) AFollower (merge (with_persist none) none)).
      eapply evolves_trans; [exact He |]. by apply evolves_frame.
    + eapply core_ok_frame with (c := c1); [done..|]. eapply core_ok_observe with (t := msg_term m); eauto.
    + intros _. unfold maybe_update_term in Hu. destruct (N.ltb_spec (term c) (msg_term m)); [|lia]. by simplify_eq.
  - intros [= <- <- <-]. split_and!; [apply evolves_refl | done | lia | done].
Qed.

Lemma follower_step f c e f' c' r :
  core_ok links c → event_in e → Follower.step f c e = Some (f', c', r) →
  evolves c AFollower c' AFollower (effects r).
Proof.
  intros Hok Hin. destruct e as [|m|k]; simpl.
  - unfold Follower.handle_tick. intros [= H].
    repeat case_match; simplify_eq; by apply evolves_frame.
  - destruct Hin as [Hm Hto]. unfold Follower.step_message. case_match.
    { intros H'. opt_inv. unfold Follower.reject_due_to_active_leader.
      destruct (msg_payload m); try apply evolves_refl; (apply evolves_send; [done..|]); reply_ok Hok. }
    assert (∀ f1 c1 u r1,
      Follower.observe_term f c m = Some (f1, c1, u) →
      (if msg_term m <? term c1 then Some (f1, c1, stay (Follower.reject_stale c1 m))
       else let* (f, c, r) := Follower.dispatch f1 c1 m in
            Some (f, c, if u then mkStepResult (transition r) (with_persist (effects r)) else r)) = Some r1 →
      evolves c AFollower r1.1.2 AFollower (effects r1.2)) as Hmain.
    { intros f1 c1 u r1 Hobs H1. destruct (follower_observe _ _ _ _ _ _ Hok Hm Hobs) as (Hev & Hok1 & Hup & Hsame).
      destruct (N.ltb_spec (msg_term m) (term c1)).
      - opt_inv. assert (c1 = c) as -> by (destruct (N.le_gt_cases (msg_term m) (term c)); [auto | lia]).
        simpl. unfold Follower.reject_stale.
        destruct (msg_payload m); try apply evolves_refl; (apply evolves_send; [done..|]); reply_ok Hok.
      - assert (msg_term m = term c1) as Ht.
        { destruct (N.le_gt_cases (msg_term m) (term c)); [rewrite Hsame in * by done; lia | symmetry; auto]. }
        opt_inv. pose proof (follower_dispatch _ _ _ _ _ _ Hok1 Hm Hto Ht E) as Hd.
        pose proof (evolves_trans _ _ _ _ _ _ _ _ _ _ _ _ Hev Hd) as Ht'.
        destruct u; [exact Ht' | by rewrite merge_none_l in Ht']. }
    destruct (msg_payload m) eqn:Hp; intros H'; opt_inv;
      try (pose proof (Hmain _ _ _ _ eq_refl H') as Hr; exact Hr).
    apply evolves_send; [done..|]. pose proof (net_term _ Hm). reply_ok Hok.
  - intros [= <- <- <-]. apply evolves_refl.
Qed.

Lemma precandidate_step p c e p' c' r :
  core_ok links c → event_in e → PreCandidate.step p c e = Some (p', c', r) →
  evolves c AFollower c' AFollower (effects r).
Proof.
  intros Hok Hin. destruct e as [|m|k]; simpl.
  - unfold PreCandidate.handle_tick. case_match; [|case_match]; intros H'; opt_inv; try by apply evolves_frame.
    destruct (random_election_timeout_frame _ _ _ E) as [rg ->]. by apply evolves_frame.
  - destruct Hin as [Hm Hto]. unfold PreCandidate.step_message. case_match.
    { intros H'. opt_inv. unfold PreCandidate.deny_vote.
      destruct (msg_payload m); try apply evolves_refl; (apply evolves_send; [done..|]); reply_ok Hok. }
    destruct (N.ltb_spec (term c) (msg_term m)) as [Hlt|Hle].
    { destruct (maybe_update_term c (msg_term m)) as [u c1] eqn:Hu. intros H'. opt_inv.
      by destruct (evolves_observe cfg T HT i net c AFollower _ _ _ (net_term _ Hm) Hlt Hu) as [He _]. }
    destruct (msg_payload m) eqn:Hp; intros H'; opt_inv; try apply evolves_refl.
    + apply evolves_send; [done..|]. pose proof (net_term _ Hm). reply_ok Hok.
    + unfold PreCandidate.handle_prevote_response in H'.
      destruct (N.ltb_spec (term c) (pvr_term r0)) as [Hlt|]; [|by repeat case_match; opt_inv; apply evolves_refl].
      destruct (maybe_update_term c (pvr_term r0)) as [u c1] eqn:Hu. opt_inv.
      by destruct (evolves_observe cfg T HT i net c AFollower _ _ _ (net_prevote _ _ Hm Hp) Hlt Hu) as [He _].
    + apply evolves_send; [done..|]. reply_ok Hok.
    + unfold PreCandidate.handle_append_request in H'. opt_inv. apply evolves_refl.
  - intros [= <- <- <-]. apply evolves_refl.
Qed.

(** What a role's step leaves for the transition: [ra] is the abstract role
    reached, [rs] the role as the step returns it. *)
Record hands_over (r : StepResult) (ra : ARole) (rs : ARole) : Prop := {
  ho_stay : transition r = Stay → ra = rs;
  ho_lead : transition r = ToLeader →
    ∃ vs, ra = ACandidate vs ∧ Membership.has_quorum cfg (contains vs) = true
}.

Lemma candidate_vote_response p c m resp p' c' r :
  core_ok links c → In m net → msg_to m = i → msg_term m = term c → msg_payload m = PVoteResponse resp →
  Candidate.handle_vote_response p c (msg_from m) resp = (p', c', r) →
  evolves c (ACandidate (Candidate.votes p)) c' (ACandidate (Candidate.votes p')) (effects r) ∧
  hands_over r (ACandidate (Candidate.votes p')) (ACandidate (Candidate.votes p')).
Proof.
  intros Hok Hm Hto Ht Hp. unfold Candidate.handle_vote_response.
  destruct (vr_granted resp) eqn:Hg; simpl; [|intros H; opt_inv; split; [apply evolves_refl | done]].
  set (vs := insert (msg_from m) (Candidate.votes p)).
  assert (evolves c (ACandidate (Candidate.votes p)) c (ACandidate vs) none) as Hev.
  { split; try done. simpl. apply nsteps_one.
    exact (N_count cfg T i net (abs_core c (ACandidate (Candidate.votes p))) _ m resp eq_refl Hm Hto Ht Hp Hg). }
  destruct (Candidate.has_quorum _ c) eqn:Hq; intros H; opt_inv; (split; [exact Hev |]); [|by split].
  split; [done |]. intros _. eexists. split; [done |].
  unfold Candidate.has_quorum in Hq. by rewrite (core_ok_config cfg T HT i links) in Hq.
Qed.

Lemma candidate_step p c e p' c' r :
  core_ok links c → event_in e → Candidate.step p c e = Some (p', c', r) →
  ∃ ra, evolves c (ACandidate (Candidate.votes p)) c' ra (effects r) ∧
        hands_over r ra (ACandidate (Candidate.votes p')).
Proof.
  intros Hok Hin. destruct e as [|m|k]; simpl.
  - unfold Candidate.handle_tick. case_match; [|case_match]; intros H'; opt_inv; eexists;
      (split; [|by split]); try by apply evolves_frame.
    destruct (random_election_timeout_frame _ _ _ E) as [rg ->]. by apply evolves_frame.
  - destruct Hin as [Hm Hto]. unfold Candidate.step_message. case_match.
    { intros H'. opt_inv. eexists. split; [|by split]. unfold Candidate.deny_vote.
      destruct (msg_payload m); try apply evolves_refl; (apply evolves_send; [done..|]); reply_ok Hok. }
    intros [= H'].
    assert (Candidate.step_term p c m = (p', c', r) →
            ∃ ra, evolves c (ACandidate (Candidate.votes p)) c' ra (effects r) ∧
                  hands_over r ra (ACandidate (Candidate.votes p'))) as Hterm.
    { unfold Candidate.step_term. destruct (N.ltb_spec (term c) (msg_term m)) as [Hlt|Hle].
      { destruct (maybe_update_term c (msg_term m)) as [u c1] eqn:Hu. intros H1. opt_inv.
        destruct (evolves_observe cfg T HT i net c (ACandidate (Candidate.votes p)) _ _ _ (net_term _ Hm) Hlt Hu)
          as [He _]. exists AFollower. by split. }
      destruct (N.ltb_spec (msg_term m) (term c)).
      { intros H1. opt_inv. eexists. split; [|by split]. unfold Candidate.reject_stale.
        destruct (msg_payload m); try apply evolves_refl; (apply evolves_send; [done..|]); reply_ok Hok. }
      destruct (msg_payload m) eqn:Hp; intros H1;
        try (by unfold Candidate.handle_append_request in H1; opt_inv; eexists; split; [apply evolves_refl | split]).
      - opt_inv. eexists. split; [|by split]. apply evolves_send; [done..|]. reply_ok Hok.
      - eexists. eapply candidate_vote_response; [done..| lia | done | done]. }
    destruct (msg_payload m) eqn:Hp; try by apply Hterm.
    opt_inv. eexists. split; [|by split].
    apply evolves_send; [done..|]. pose proof (net_term _ Hm). reply_ok Hok.
  - intros [= <- <- <-]. eexists. split; [apply evolves_refl | by split].
Qed.

(** *** Leader *)

Definition next_ok (l : Leader.Leader) : Prop :=
  ∀ j v, Leader.next_index l !! j = Some v → 1 ≤ v < u64_modulus.

Lemma next_ok_insert l j v : next_ok l → 1 ≤ v < u64_modulus →
  next_ok (set_next_index l (<[j := v]> (next_index l))).
Proof.
  intros Hl Hv k x. simpl. destruct (decide (j = k)) as [->|].
  - rewrite lookup_insert_eq. by intros [= <-].
  - rewrite lookup_insert_ne by done. apply Hl.
Qed.

Lemma slice_segment c next end_ prev_term :
  core_ok links c → 1 ≤ next < u64_modulus → end_ < u64_modulus → prev_term = term_at (log c) (next - 1) →
  ∃ es, slice (log c) next end_ = Some es ∧
        segment (log c) (mkAppendRequest (next - 1) prev_term es (commit_index c)) ∧
        (∀ e, last es = Some e → e_index e ≤ T).
Proof.
  intros Hok Hn He ->. pose proof (core_ok_wf cfg T i links c Hok) as Hw. pose proof Hok as [_ _ _ Hlog Hlk].
  pose proof (lo_snapshot _ _ Hlog) as Hs. pose proof (wf_bound _ Hw) as Hbd. rewrite Hs in Hbd.
  rewrite slice_eq by (done || lia). rewrite Hs. eexists. split; [done |].
  set (es := take _ _).
  assert (∀ j e, es !! j = Some e → entries (log c) !! (N.to_nat (next - 1) + j)%nat = Some e) as Hes.
  { intros j e Hj. unfold es in Hj. rewrite lookup_take in Hj. case_decide; [|done].
    rewrite lookup_drop in Hj. rewrite <- Hj. f_equal. lia. }
  split; [split; simpl; [done | |]|].
  - intros j e Hj. apply Hes in Hj. pose proof (lookup_lt_Some _ _ _ Hj).
    rewrite get_eq, Hs by (done || ulia). destruct (N.ltb_spec 0 (next - 1 + 1 + N.of_nat j)); [|lia].
    rewrite <- Hj. f_equal. lia.
  - destruct (last es) as [e|] eqn:Hl; [|apply last_None in Hl; rewrite Hl; unfold vlen; simpl; lia].
    rewrite last_lookup in Hl. pose proof (lookup_lt_Some _ _ _ Hl). apply Hes, lookup_lt_Some in Hl. ulia.
  - intros e Hl. rewrite last_lookup in Hl. apply Hes in Hl.
    pose proof (wf_index _ Hw _ _ Hl) as Hi. apply lookup_lt_Some in Hl.
    pose proof (core_ok_last cfg T HT i links c Hok) as Hlast. rewrite last_index_eq, Hs in Hlast by done. lia.
Qed.

Lemma send_append_ok l c to :
  core_ok links c → next_ok l →
  ∃ l' m, send_append_to l c to = Some (l', mkEffects false [m] []) ∧
          msg_ok T i (abs_core c ALeader) m ∧ next_ok l' ∧
          match_index l' = match_index l ∧ pending_read_index l' = pending_read_index l.
Proof.
  intros Hok Hl. unfold send_append_to.
  pose proof (lo_snapshot _ _ (co_log _ _ _ _ _ Hok)) as Hs. rewrite Hs.
  assert (1 ≤ default 1 (next_index l !! to) < u64_modulus) as Hn.
  { destruct (next_index l !! to) eqn:E; simpl; [by eapply Hl | done]. }
  set (next := default 1 (next_index l !! to)) in *.
  destruct (N.leb_spec next 0); [lia |]. unfold u64_saturating_sub.
  edestruct (slice_segment c next) as (es & Hsl & Hseg & Hlast); [exact Hok | exact Hn | | reflexivity |].
  2: { rewrite Hsl. eexists _, _. split; [reflexivity |].
       replace ((next - 1 <=? 0) && (0 <? next - 1)) with false
         by (destruct (N.leb_spec (next - 1) 0), (N.ltb_spec 0 (next - 1)); lia || done).
       split; [|destruct (pipelining (config c) && _) eqn:Hp; split_and!; try done].
       - unfold msg_ok. simpl. split_and!; [apply Hok | apply Hok | done | done | exact Hseg].
       - apply next_ok_insert; [done |]. destruct (last es) as [e|] eqn:He; [|done].
         specialize (Hlast e eq_refl). rewrite u64_add_small by ulia. ulia. }
  pose proof (u64_add_lt (last_index (log c)) 1). lia.
Qed.

Lemma send_append_all_ok c peers : ∀ l ms,
  core_ok links c → next_ok l → Forall (msg_ok T i (abs_core c ALeader)) ms →
  ∃ l' ms', send_append_all l c peers (mkEffects false ms []) = Some (l', mkEffects false ms' []) ∧
            Forall (msg_ok T i (abs_core c ALeader)) ms' ∧ next_ok l' ∧
            match_index l' = match_index l ∧ pending_read_index l' = pending_read_index l.
Proof.
  induction peers as [|p peers IH]; intros l ms Hok Hl Hms; simpl; [by eexists _, _ |].
  destruct (send_append_ok l c p Hok Hl) as (l1 & m & -> & Hm & Hl1 & Hm1 & Hp1). unfold merge. simpl.
  destruct (IH l1 (ms ++ [m]) Hok Hl1) as (l2 & ms2 & -> & Hms2 & Hl2 & Hm2 & Hp2); [by apply Forall_app; auto |].
  eexists _, _. split_and!; [done.. | congruence | congruence].
Qed.

Lemma broadcast_ok l c :
  core_ok links c → next_ok l →
  ∃ l' ms, broadcast_append l c = Some (l', mkEffects false ms []) ∧
           Forall (msg_ok T i (abs_core c ALeader)) ms ∧ next_ok l' ∧
           match_index l' = match_index l ∧ pending_read_index l' = pending_read_index l.
Proof. intros Hok Hl. by apply send_append_all_ok. Qed.

Lemma process_indices_plain l c idxs : plain (log c) → process_indices l c idxs = Some (l, c, Done).
Proof.
  intros [Hp _]. induction idxs as [|k idxs IH]; simpl; [done |].
  destruct (get (log c) k) as [e|] eqn:Hg; [|done].
  assert (is_config (e_payload e) = false) as He.
  { unfold get in Hg. case_match; [done |]. apply bind_Some in Hg as (x & _ & Hx).
    unfold vget in Hx. rewrite Forall_lookup in Hp. eauto. }
  by destruct (e_payload e).
Qed.

Lemma maybe_commit_plain l c :
  plain (log c) → maybe_commit l c = Some (l, advance_commit_index l c, none, false).
Proof.
  intros Hp. unfold maybe_commit. simpl.
  assert (plain (log (advance_commit_index l c))) as Hp' by (unfold advance_commit_index; by case_match).
  destruct (_ =? _); [done |]. unfold process_committed_configs. by rewrite process_indices_plain.
Qed.

Lemma advance_commit_frame l c :
  config (advance_commit_index l c) = config c ∧ persistent (advance_commit_index l c) = persistent c.
Proof. unfold advance_commit_index. by case_match. Qed.

Hypothesis net_ack : ∀ m r, In m net → msg_payload m = PAppendResponse r → ar_last_log_index r ≤ T.

(** A leader's step succeeds, keeps its progress table sound and evolves the core. *)
Definition leader_ran (c : Core) (o : option (Leader.Leader * Core * StepResult)) : Prop :=
  ∃ l' c' r ra, o = Some (l', c', r) ∧ next_ok l' ∧ evolves c ALeader c' ra (effects r) ∧
                hands_over r ra ALeader.

Lemma leader_ran_stay c l' c' e :
  next_ok l' → evolves c ALeader c' ALeader e → leader_ran c (Some (l', c', stay e)).
Proof. intros Hl He. exists l', c', (stay e), ALeader. by split_and!. Qed.

Lemma commit_and_continue_ok l c : core_ok links c → next_ok l → leader_ran c (commit_and_continue l c).
Proof.
  intros Hok Hl. unfold commit_and_continue. rewrite maybe_commit_plain by (by eapply core_ok_plain).
  destruct (advance_commit_frame l c). apply leader_ran_stay; [done |]. by apply evolves_frame.
Qed.

Lemma handle_append_response_ok l c m resp :
  core_ok links c → next_ok l → In m net → msg_payload m = PAppendResponse resp →
  leader_ran c (handle_append_response l c (msg_from m) resp).
Proof.
  intros Hok Hl Hm Hp. pose proof (net_ack _ _ Hm Hp). unfold handle_append_response.
  destruct (is_member _ _); simpl; [|apply leader_ran_stay; [done | apply evolves_refl]].
  pose proof (u64_add_lt (ar_last_log_index resp) 1) as Hlt.
  pose proof (u64_add_lt (matched l (msg_from m)) 1).
  destruct (ar_success resp).
  - apply commit_and_continue_ok; [done |]. destruct (pipelining _); simpl; [exact Hl |].
    apply (next_ok_insert (set_match_index l _)); [exact Hl |]. rewrite u64_add_small by ulia. ulia.
  - set (v := if pipelining (config c) then _ else _).
    assert (1 ≤ v < u64_modulus) as Hv by (unfold v; destruct (pipelining (config c)); ulia).
    destruct (send_append_ok (set_next_index l (<[msg_from m := v]> (next_index l))) c (msg_from m))
      as (l' & m' & -> & Hm' & Hl' & _); [done | by apply next_ok_insert |].
    apply leader_ran_stay; [done |]. apply evolves_send; [done..|]. by constructor.
Qed.

Lemma read_index_requests_ok c p :
  core_ok links c →
  ∃ ms, read_index_requests c p = mkEffects false ms [] ∧ Forall (msg_ok T i (abs_core c ALeader)) ms.
Proof.
  intros Hok. unfold read_index_requests. eexists. split; [reflexivity |]. simpl.
  apply Forall_forall. intros m [to [-> _]]%list_elem_of_fmap. reply_ok Hok.
Qed.

Lemma leader_tick_ok l c : core_ok links c → next_ok l → leader_ran c (Leader.handle_tick l c).
Proof.
  intros Hok Hl. unfold Leader.handle_tick. set (c1 := set_ticks c (ticks c +u 1)).
  assert (core_ok links c1) as Hok1 by (by eapply core_ok_frame with (c := c)).
  case_match; [|apply leader_ran_stay; [done | by apply evolves_frame]].
  set (l1 := set_heartbeat_deadline l _).
  destruct (broadcast_ok l1 c1 Hok1 Hl) as (l2 & ms & -> & Hms & Hl2 & _ & _).
  apply leader_ran_stay; [done |]. destruct (pending_read_index l2) as [p|].
  - destruct (read_index_requests_ok c1 p Hok1) as (ms' & -> & Hms').
    apply (evolves_send cfg T i net c ALeader c1 (ms ++ ms')); [done..|]. by apply Forall_app.
  - by apply evolves_send.
Qed.

Lemma read_response_ok l from resp l' r :
  next_ok l → Leader.handle_read_index_response l from resp = (l', r) → next_ok l' ∧ r = step_none.
Proof. intros Hl. unfold Leader.handle_read_index_response. by repeat case_match; intros; simplify_eq. Qed.

Lemma leader_step_ok l c e :
  core_ok links c → next_ok l → event_in e → leader_ran c (Leader.step l c e).
Proof.
  intros Hok Hl Hin. destruct e as [|m|k]; simpl.
  - by apply leader_tick_ok.
  - destruct Hin as [Hm Hto]. pose proof (net_install _ Hm) as Hinst.
    assert (leader_ran c (Leader.step_term l c m)) as Hterm.
    { unfold Leader.step_term. destruct (N.ltb_spec (term c) (msg_term m)) as [Hlt|Hle].
      { destruct (maybe_update_term c (msg_term m)) as [u c1] eqn:Hu.
        destruct (evolves_observe cfg T HT i net c ALeader _ _ _ (net_term _ Hm) Hlt Hu) as [He _].
        eexists _, _, _, AFollower. by split_and!. }
      destruct (N.ltb_spec (msg_term m) (term c)).
      { apply leader_ran_stay; [done |]. unfold Leader.reject_stale.
        destruct (msg_payload m); try apply evolves_refl; (apply evolves_send; [done..|]); reply_ok Hok. }
      destruct (msg_payload m) eqn:Hp; try done;
        try (by apply leader_ran_stay; [done | apply evolves_refl]).
      - apply leader_ran_stay; [done |]. apply evolves_send; [done..|]. reply_ok Hok.
      - by apply handle_append_response_ok.
      - destruct (Leader.handle_read_index_response l (msg_from m) r) as [l' r'] eqn:Hr.
        destruct (read_response_ok _ _ _ _ _ Hl Hr) as [Hl' ->].
        apply leader_ran_stay; [done | apply evolves_refl]. }
    unfold Leader.step_message. destruct (msg_payload m); try exact Hterm.
    apply leader_ran_stay; [done |]. apply evolves_send; [done..|]. reply_ok Hok.
  - unfold handle_disk_write_complete. case_match; [|apply leader_ran_stay; [done | apply evolves_refl]].
    by apply commit_and_continue_ok.
Qed.

(** *** Transitions *)

Definition role_ok (r : RoleState) : Prop := match r with RLeader l => next_ok l | _ => True end.

(** The node a transition yields. *)
Definition becomes (c : Core) (ra : ARole) (n : RaftNode) (e : Effects) : Prop :=
  evolves c ra (core n) (abs_role (role n)) e ∧ role_ok (role n).

Lemma insert_all_lookup v ids : ∀ (m : gmap NodeId LogIndex) j x,
  (∀ k y, m !! k = Some y → y = v) →
  fold_left (fun m id => <[id := v]> m) ids m !! j = Some x → x = v.
Proof.
  induction ids as [|id ids IH]; intros m j x Hm; simpl; [apply Hm |]. apply IH.
  intros k y. destruct (decide (id = k)) as [->|].
  - rewrite lookup_insert_eq. congruence.
  - rewrite lookup_insert_ne by done. apply Hm.
Qed.

Lemma become_leader_ok c vs n e :
  core_ok links c → Membership.has_quorum cfg (contains vs) = true →
  become_leader c = Some (n, e) → becomes c (ACandidate vs) n e.
Proof.
  intros Hok Hq. unfold become_leader, Leader.new.
  set (l := mkLeader _ _ _ _ _ _ _).
  assert (next_ok l) as Hl.
  { intros j v Hj. simpl in Hj. apply insert_all_lookup in Hj; [|by intros ???]. subst v.
    pose proof (core_ok_last cfg T HT i links c Hok). rewrite u64_add_small by ulia. ulia. }
  destruct (broadcast_ok l c Hok Hl) as (l' & ms & -> & Hms & Hl' & _). intros [= <- <-]. split; [|done].
  split; try done. simpl.
  apply (ns_step _ _ _ _ _ (abs_core c ALeader) _ []); [|by apply nsteps_send].
  by apply (N_lead _ _ _ _ (abs_core c (ACandidate vs)) vs).
Qed.

Lemma elect_ok c r rg :
  core_ok links c → term c < T →
  evolves c r (set_rng (start_election c) rg)
    (ACandidate (if core_is_voter c then [core_id c] else [])) (with_persist none) ∧
  core_ok links (set_rng (start_election c) rg).
Proof.
  intros Hok Ht. pose proof (core_ok_config cfg T HT i links c Hok) as Hcfg.
  pose proof (co_id _ _ _ _ _ Hok) as Hid.
  assert (core_is_voter c = is_voter cfg i) as Hv by (unfold core_is_voter; by rewrite Hcfg, Hid).
  assert (term (set_rng (start_election c) rg) = term c + 1) as Hadd by (apply u64_add_small; ulia). split.
  - split; try done. simpl. apply nsteps_one. unfold abs_core at 2. rewrite Hadd. simpl. rewrite Hv, Hid.
    apply (N_elect cfg T i net (abs_core c r)). simpl. lia.
  - destruct Hok as [? ? ? ? ?]. split; try done. rewrite Hadd. lia.
Qed.

Lemma candidate_new_ok c r p c1 e :
  core_ok links c → term c < T → Candidate.new c = Some (p, c1, e) →
  evolves c r c1 (ACandidate (Candidate.votes p)) e ∧ core_ok links c1.
Proof.
  intros Hok Ht. unfold Candidate.new.
  destruct (random_election_timeout (start_election c)) as [[t c2]|] eqn:E; [|done].
  destruct (random_election_timeout_frame _ _ _ E) as [rg ->].
  destruct (elect_ok c r rg Hok Ht) as [He Hok1]. set (c2 := set_rng (start_election c) rg) in *.
  assert (core_is_voter c2 = core_is_voter c) as Hv.
  { unfold core_is_voter. by rewrite !(core_ok_config cfg T HT i links) by done. }
  rewrite <- Hv in He. change (core_id c) with (core_id c2) in He.
  intros H. assert (Candidate.votes p = if core_is_voter c2 then [core_id c2] else []) as Hp.
  { case_match; injection H as <- _ _; simpl; by destruct (core_is_voter c2). }
  rewrite <- Hp in He. clear Hp Hv E. case_match; injection H as _ <- <-; (split; [|exact Hok1]); [exact He |].
  eapply (evolves_trans _ _ _ _ _ _ _ _ _ _ _ (mkEffects false _ []) He).
  apply evolves_send; [done..|].
  apply Forall_forall. intros m [to [-> _]]%list_elem_of_fmap. reply_ok Hok1. by eexists.
Qed.

Lemma become_candidate_ok c r n e :
  core_ok links c → term c < T → become_candidate c = Some (n, e) → becomes c r n e.
Proof.
  intros Hok Ht. unfold become_candidate. intros H. opt_inv.
  destruct (candidate_new_ok c r _ _ _ Hok Ht E) as [He Hok1].
  destruct (Candidate.has_quorum _ _) eqn:Hq; opt_inv; [|by split].
  unfold Candidate.has_quorum in Hq. rewrite (core_ok_config cfg T HT i links) in Hq by done.
  destruct (become_leader_ok _ _ _ _ Hok1 Hq E0) as [Hlead Hrole]. split; [|done].
  by eapply evolves_trans.
Qed.

Lemma become_precandidate_ok c r n e :
  core_ok links c → term c < T → become_precandidate c = Some (n, e) → becomes c r n e.
Proof.
  intros Hok Ht. unfold become_precandidate. intros H. opt_inv.
  assert (evolves c r c0 AFollower e0 ∧ core_ok links c0 ∧ term c0 < T) as (He & Hok1 & Ht1).
  { clear H. unfold PreCandidate.new in E. opt_inv. destruct (random_election_timeout_frame _ _ _ E0) as [rg ->].
    assert (core_ok links (set_rng c rg)) as Hok1 by (by eapply core_ok_frame with (c := c)).
    case_match; opt_inv; (split_and!; [|done|done]).
    - apply (evolves_trans _ _ _ _ _ _ _ _ none _ _ none (evolves_down _ _ _ _ c r)). by apply evolves_frame.
    - eapply (evolves_trans _ _ _ _ _ _ _ _ none _ _ (mkEffects false _ []) (evolves_down _ _ _ _ c r)).
      apply evolves_send; [done..|].
      apply Forall_forall. intros m [to [-> _]]%list_elem_of_fmap. reply_ok Hok1. }
  destruct (PreCandidate.has_quorum _ _); opt_inv; [|by split].
  destruct (become_candidate_ok _ AFollower _ _ Hok1 Ht1 E0) as [Hc Hrole]. split; [|done].
  by eapply evolves_trans.
Qed.

Lemma become_follower_ok c r l n : become_follower c l = Some n → becomes c r n none.
Proof.
  unfold become_follower. intros H. opt_inv. destruct (follower_new_frame _ _ _ _ E) as [rg ->].
  split; [|done].
  apply (evolves_trans _ _ _ _ _ _ _ _ none _ _ none (evolves_down _ _ _ _ c r)). by apply evolves_frame.
Qed.

Lemma apply_transition_ok n r ra n' e :
  core_ok links (core n) → term (core n) < T → transition r ≠ Stay → hands_over r ra (abs_role (role n)) →
  apply_transition n (transition r) = Some (n', e) → becomes (core n) ra n' e.
Proof.
  intros Hok Ht Hs [_ Hl]. unfold apply_transition. destruct (transition r) eqn:Htr; [done | ..]; intros H.
  - opt_inv. by eapply become_follower_ok.
  - unfold Follower.after_leader_contact in H. opt_inv. destruct (follower_new_frame _ _ _ _ E0) as [rg ->].
    split; [|done].
    apply (evolves_trans _ _ _ _ _ _ _ _ none _ _ none (evolves_down _ _ _ _ _ _)). by apply evolves_frame.
  - by apply become_precandidate_ok.
  - by apply become_candidate_ok.
  - destruct (Hl eq_refl) as (vs & -> & Hq). by apply become_leader_ok.
Qed.

(** *** One event, before its transition *)

Lemma role_step_ok n e n' r :
  core_ok links (core n) → role_ok (role n) → event_in e → role_step n e = Some (n', r) →
  role_ok (role n') ∧
  ∃ ra, evolves (core n) (abs_role (role n)) (core n') ra (effects r) ∧
        hands_over r ra (abs_role (role n')).
Proof.
  intros Hok Hr Hin. unfold role_step. destruct (role n) as [f|p|p|l] eqn:Hrole; intros H; opt_inv; simpl.
  - split; [done |]. exists AFollower. split; [by eapply follower_step |].
    split; [done |]. intros Htr. exfalso. revert Htr. by eapply follower_never_leads.
  - split; [done |]. exists AFollower. split; [by eapply precandidate_step |].
    split; [done |]. intros Htr. exfalso. revert Htr. by eapply precandidate_never_leads.
  - split; [done |]. by eapply candidate_step.
  - destruct (leader_step_ok l (core n) e Hok Hr Hin) as (l' & c' & r' & ra & Heq & Hl & Hev & Hho).
    rewrite Heq in E. opt_inv. split; [done |]. by exists ra.
Qed.

End Roles.

(** ** Proposals *)

Section Propose.

Context (cfg : Configuration) (T : N) (HT : T < u64_max) (i : NodeId) (net : list Message)
  (links : list (Term * Entry)).

Lemma propose_core_ok c cmd :
  core_ok cfg T i links c → 0 < term c → last_index (log c) < T →
  let e := mkEntry (term c) (last_index (log c) + 1) (PCommand cmd) in
  core_ok cfg T i ((term_at (log c) (last_index (log c)), e) :: links) (set_log c (append (log c) e)).
Proof.
  intros Hok Ht Hlast e. pose proof (core_ok_wf _ _ _ _ _ Hok) as Hw. destruct Hok as [Hid Hb Htm Hlog Hlk].
  assert (∀ p x, In (p, x) ((term_at (log c) (last_index (log c)), e) :: links) →
            0 < e_index x ≤ T ∧ 0 < e_term x ∧ is_config (e_payload x) = false) as Hlk'.
  { intros p x [Heq|Hin]; [|by eapply Hlk]. simplify_eq. simpl. split_and!; lia || done. }
  split; try done. change (log (set_log c (append (log c) e))) with (append (log c) e).
  replace (append (log c) e) with (append (truncate_after (log c) (last_index (log c))) e)
    by (by rewrite truncate_after_last_id).
  eapply log_ok_replace; [exact HT | exact Hlk' | | lia | done | by left].
  eapply log_ok_mono, Hlog. intros x Hx. by right.
Qed.

Lemma leader_propose_ok l c cmd :
  core_ok cfg T i links c → 0 < term c → last_index (log c) < T → next_ok l →
  ∃ l' c' e, Leader.propose l c cmd = Some (l', c', last_index (log c) + 1, e, false) ∧ next_ok l' ∧
             evolves cfg T i net c ALeader c' ALeader e.
Proof.
  intros Hok Ht Hlast Hl. pose proof (propose_core_ok c cmd Hok Ht Hlast) as Hok1.
  unfold Leader.propose. rewrite (u64_add_small (last_index (log c)) 1) by ulia.
  set (e := mkEntry _ _ _) in *. set (c1 := set_log c (append (log c) e)) in *.
  set (l1 := if negb _ then _ else l).
  assert (next_ok l1) as Hl1 by (unfold l1; by case_match).
  rewrite maybe_commit_plain by (by eapply core_ok_plain).
  destruct (advance_commit_frame l1 c1) as [Hcc Hcp]. set (c2 := advance_commit_index l1 c1) in *.
  assert (core_ok cfg T i ((term_at (log c) (last_index (log c)), e) :: links) c2) as Hok2
    by (eapply core_ok_frame with (c := c1); done).
  destruct (broadcast_ok cfg T HT i _ l1 c2 Hok2 Hl1) as (l2 & ms & -> & Hms & Hl2 & _).
  eexists _, _, _. split; [reflexivity |]. split; [done |]. rewrite merge_none_r.
  split; simpl; [by rewrite Hcc | by rewrite Hcp | | done | done].
  apply (ns_step _ _ _ _ _ (abs_core c2 ALeader) _ []); [|by apply nsteps_send].
  replace (abs_core c2 ALeader) with (abs_core c1 ALeader) by (unfold abs_core, term, log; by rewrite Hcp).
  apply (N_propose cfg T i net (abs_core c ALeader) cmd); [done |]. simpl. lia.
Qed.

Lemma node_propose_ok n cmd n' res :
  core_ok cfg T i links (core n) → (role_is_leader (role n) = true → 0 < term (core n)) →
  last_index (log (core n)) < T → role_ok (role n) → node_propose n cmd = Some (n', res) →
  role_ok (role n') ∧
  match res with
  | inl _ => n' = n
  | inr (k, e) => k = last_index (log (core n)) + 1 ∧ becomes cfg T i net (core n) (abs_role (role n)) n' e
  end.
Proof.
  intros Hok Ht Hlast Hr. unfold node_propose.
  destruct (role n) as [f|p|p|l] eqn:Hrole; intros H; [opt_inv; by rewrite Hrole..|]. simpl in *.
  opt_inv. destruct b; opt_inv; [by rewrite Hrole |].
  destruct (leader_propose_ok l (core n) cmd) as (l' & c' & e' & Heq & Hl' & Hev); [auto..|].
  rewrite Heq in E0. opt_inv. unfold step_down_if in E1. opt_inv. by split.
Qed.

End Propose.

(** ** One operation of a node in a cluster *)

Section Moves.

Context (cfg : Configuration) (B : N) (HB : B + 1 < u64_max) (i : NodeId).

(** Node [n] is node [i] of the abstract cluster [a]. *)
Record represents (a : ACluster) (n : RaftNode) : Prop := {
  rp_abs : a_nodes a i = abs_node n;
  rp_id : core_id (core n) = i;
  rp_boot : bootstrap_config (persistent (core n)) = cfg;
  rp_role : role_ok (role n)
}.

(** The node went from [n] to [n'], asking for effects [e], while the cluster
    went from [a] to [a']. *)
Record moved (a : ACluster) (n : RaftNode) (e : Effects) (a' : ACluster) (n' : RaftNode) : Prop := {
  mv_inv : ainv cfg (B + 1) a';
  mv_grows : grows a a';
  mv_steps : rtc (micro cfg (B + 1)) a a';
  mv_rep : represents a' n';
  mv_other : ∀ j, j ≠ i → a_nodes a' j = a_nodes a j;
  mv_net : a_net a' = a_net a ++ messages e;
  mv_snapshots : send_snapshots e = [];
  mv_persist : persist e = false → persistent (core n') = persistent (core n);
  mv_config : config (core n') = config (core n);
  mv_term : term (core n) ≤ term (core n')
}.

Lemma represents_core_ok T a n :
  T < u64_max → ainv cfg T a → represents a n → core_ok cfg T i (h_links a) (core n).
Proof.
  intros HT [_ _ Hlog Hbound] [Ha Hid Hboot _].
  pose proof (ig_log _ _ Hlog i) as Hl. pose proof (ib_term _ _ Hbound i) as Ht. rewrite Ha in Hl, Ht.
  split; [done.. | apply Hlog].
Qed.

Lemma nsteps_term T net a b ms : nsteps cfg T i net a b ms → a_term a ≤ a_term b.
Proof.
  induction 1 as [a|a b c ms ms' Hm _ IH]; [done |]. etransitivity; [|exact IH].
  destruct Hm; simpl; lia.
Qed.

(** Lift an evolution of the core to the cluster. *)
Lemma evolves_lift T a n c' ra e :
  T < u64_max → ainv cfg T a → a_nodes a i = abs_node n →
  evolves cfg T i (a_net a) (core n) (abs_role (role n)) c' ra e →
  ∃ a', ainv cfg T a' ∧ grows a a' ∧ a_nodes a' i = abs_core c' ra ∧
        (∀ j, j ≠ i → a_nodes a' j = a_nodes a j) ∧ a_net a' = a_net a ++ messages e ∧
        term (core n) ≤ term c' ∧ rtc (micro cfg T) a a'.
Proof.
  intros HT Hinv Ha [_ _ Hst _ _]. pose proof (nsteps_term _ _ _ _ _ Hst) as Ht.
  destruct (nsteps_lift cfg T i (a_net a) _ _ _ Hst a Ha ltac:(done)) as (a' & Hrtc & Hi & Hj & Hn).
  destruct (rtc_ainv cfg T a a' HT Hrtc Hinv) as [? ?]. exists a'. by split_and!.
Qed.

Lemma becomes_moved a n n' e :
  ainv cfg (B + 1) a → represents a n →
  becomes cfg (B + 1) i (a_net a) (core n) (abs_role (role n)) n' e → ∃ a', moved a n e a' n'.
Proof.
  intros Hinv Hrep [Hev Hrole]. pose proof Hrep as [Ha Hid Hboot _].
  destruct (evolves_lift _ a n _ _ _ HB Hinv Ha Hev) as (a' & Hinv' & Hgr & Hi & Hj & Hn & Ht & Hst).
  destruct Hev as [Hc Hb _ Hs Hp]. exists a'. split; try done.
  split; [done | unfold core_id in *; by rewrite Hc | by rewrite Hb | done].
Qed.

Lemma transition_moved a n r ra n' e :
  ainv cfg B a → a_nodes a i = abs_core (core n) ra → core_id (core n) = i →
  bootstrap_config (persistent (core n)) = cfg → transition r ≠ Stay →
  hands_over cfg r ra (abs_role (role n)) → apply_transition n (transition r) = Some (n', e) →
  ∃ a', moved a n e a' n'.
Proof.
  intros Hinv Ha Hid Hboot Htr Hho Hat. pose proof (ainv_mono cfg B (B + 1) a ltac:(lia) Hinv) as Hinv'.
  assert (core_ok cfg (B + 1) i (h_links a) (core n)) as Hok.
  { pose proof Hinv' as [_ _ Hlog Hbd]. pose proof (ig_log _ _ Hlog i) as Hl.
    pose proof (ib_term _ _ Hbd i) as Ht. rewrite Ha in Hl, Ht. split; [done.. | apply Hlog]. }
  assert (term (core n) < B + 1) as Hlt.
  { pose proof (ib_term _ _ (ai_bound _ _ _ Hinv) i) as Ht. rewrite Ha in Ht. simpl in Ht. lia. }
  destruct (apply_transition_ok cfg (B + 1) HB i (a_net a) (h_links a) n r ra n' e Hok Hlt Htr Hho Hat)
    as [[Hc Hb Hst Hs Hp] Hrole].
  destruct (nsteps_lift _ _ _ _ _ _ _ Hst a Ha ltac:(done)) as (a' & Hrtc & Hi & Hj & Hn).
  destruct (rtc_ainv _ _ _ _ HB Hrtc Hinv') as [Hinv2 Hgr]. pose proof (nsteps_term _ _ _ _ _ Hst) as Ht.
  exists a'. split; try done.
  split; [done | unfold core_id in *; by rewrite Hc | by rewrite Hb | done].
Qed.

Lemma step_event_moved a n e n' eff :
  ainv cfg B a → represents a n → event_in i (a_net a) e → step_event n e = Some (n', eff) →
  ∃ a', moved a n eff a' n'.
Proof.
  intros Hinv Hrep Hin. unfold step_event. intros H.
  destruct (role_step n e) as [[n1 r]|] eqn:Hrs; [|done].
  assert (B < u64_max) as HB' by lia.
  pose proof (represents_core_ok B a n HB' Hinv Hrep) as Hok. pose proof Hrep as [Ha Hid Hboot Hrole].
  pose proof Hinv as [_ _ Hlog Hbd].
  destruct (role_step_ok cfg B HB' i (a_net a) (ib_net _ _ Hbd) (ib_prevote _ _ Hbd) (ib_install _ _ Hbd)
              (h_links a) (ig_net _ _ Hlog) (ib_ack _ _ Hbd) n e n1 r Hok Hrole Hin Hrs)
    as (Hrole1 & ra & Hev & Hho).
  destruct (evolves_lift B a n _ _ _ HB' Hinv Ha Hev) as (a1 & Hinv1 & Hgr1 & Hi1 & Hj1 & Hn1 & Ht1 & Hst1).
  assert (rtc (micro cfg (B + 1)) a a1) as Hst by (eapply rtc_subrel, Hst1; intros ??; apply micro_mono; lia).
  destruct Hev as [Hc Hb _ Hs Hp].
  assert (core_id (core n1) = i) as Hid1 by (unfold core_id in *; by rewrite Hc).
  assert (bootstrap_config (persistent (core n1)) = cfg) as Hboot1 by (by rewrite Hb).
  assert (transition r = Stay → ∃ a', moved a n (effects r) a' n1) as Hstay.
  { intros Htr. exists a1. rewrite (ho_stay _ _ _ _ Hho Htr) in Hi1.
    split; try done. eapply ainv_mono, Hinv1. lia. }
  assert (∀ n2 e2, transition r ≠ Stay → apply_transition n1 (transition r) = Some (n2, e2) →
            ∃ a', moved a n (merge (effects r) e2) a' n2) as Hmove.
  { intros n2 e2 Htr Hat.
    destruct (transition_moved a1 n1 r ra n2 e2) as [a2 [Mi Mg Msp Mr Mo Mn Ms Mp Mc Mt]]; [done..|].
    exists a2. split; simpl; try done.
    - by etransitivity.
    - by etransitivity.
    - intros j Hj. by rewrite Mo, Hj1.
    - by rewrite Mn, Hn1, app_assoc.
    - by rewrite Hs, Ms.
    - intros [? ?]%orb_false_iff. rewrite Mp, Hp; done.
    - by rewrite Mc.
    - lia. }
  destruct (transition r) eqn:Htr; opt_inv; [by apply Hstay |..]; by apply Hmove.
Qed.

Lemma propose_moved a n cmd n' res :
  ainv cfg B a → represents a n → node_propose n cmd = Some (n', res) →
  match res with
  | inl _ => n' = n
  | inr (k, eff) => k = last_index (log (core n)) + 1 ∧ ∃ a', moved a n eff a' n'
  end.
Proof.
  intros Hinv Hrep Hp. pose proof (ainv_mono cfg B (B + 1) a ltac:(lia) Hinv) as Hinv'.
  pose proof (represents_core_ok _ a n HB Hinv' Hrep) as Hok.
  assert (B < u64_max) as HB' by lia.
  pose proof (core_ok_last _ _ HB' _ _ _ (represents_core_ok _ a n HB' Hinv Hrep)) as Hlast.
  destruct (node_propose_ok cfg (B + 1) HB i (a_net a) (h_links a) n cmd n' res Hok) as [Hrole Hres];
    [|lia | apply Hrep | exact Hp |].
  { intros Hl. destruct (role n) eqn:Hr; try done.
    assert (a_role (a_nodes a i) = ALeader) as Har by (rewrite (rp_abs _ _ Hrep); unfold abs_node; by rewrite Hr).
    apply (il_role _ _ (ai_lead _ _ _ Hinv)), (il_term _ _ (ai_lead _ _ _ Hinv)) in Har.
    rewrite (rp_abs _ _ Hrep) in Har. simpl in Har. lia. }
  destruct res as [|[k eff]]; [done |]. destruct Hres as [? Hb]. split; [done |]. by apply becomes_moved.
Qed.

End Moves.
