(* ===== verification/Contract.v ===== *)
(** * What a node promises whatever it is told

    Cluster.v follows nodes that receive what other nodes sent, with the deployed
    configuration. This file looks at one [RaftNode] with any configuration and any
    input: ticks, messages with any content, completed disk writes, proposals and
    configuration changes. As long as its term stays below [u64::MAX] its terms never
    decrease and it grants its vote to one candidate per term. It asks for persistence
    whenever its persistent state changed, which is what the driver relies on when it
    sends messages after the save, unless an append request has an entry at the index of
    its snapshot with another term. These are the properties of
    consensus/cloud9-raft/tests/property.rs; the two conditions are needed, as the
    examples at the end show. *)

From S2P Require Import Prelude BTree Membership Log Event Core Role.
From S2P Require Import Follower PreCandidate Candidate Leader Commit Node Raft Refine.
From Stdlib Require Import Sorted.

Open Scope N_scope.

Abbreviation vote c := (voted_for (persistent c)).

Definition is_grant (m : Message) : bool :=
  match msg_payload m with PVoteResponse r => vr_granted r | _ => false end.

(** No vote is granted by these effects. *)
Definition grantless (e : Effects) : Prop := Forall (fun m => is_grant m = false) (messages e).

(** The votes granted by these effects are the vote of [c]. *)
Definition grants_vote (c : Core) (e : Effects) : Prop :=
  Forall (fun m => is_grant m = true → msg_term m = term c ∧ vote c = Some (msg_to m)) (messages e).

Create HintDb keeps.

(** ** Composition *)

Lemma grantless_grants c e : grantless e → grants_vote c e.
Proof. intros H. eapply Forall_impl; [exact H |]. cbn. congruence. Qed.

Lemma grantless_merge e1 e2 : grantless e1 → grantless e2 → grantless (merge e1 e2).
Proof. apply Forall_app_2. Qed.

Lemma grantless_none : grantless none.
Proof. constructor. Qed.

Lemma grantless_persist e : grantless e → grantless (with_persist e).
Proof. done. Qed.

Lemma grantless_message e m : grantless e → is_grant m = false → grantless (with_message e m).
Proof. intros H Hm. apply Forall_app_2; [done | by constructor]. Qed.

Lemma grantless_map e (f : NodeId → Message) ids :
  grantless e → (∀ id, is_grant (f id) = false) → grantless (with_messages e (map f ids)).
Proof. intros He Hf. apply Forall_app_2; [done |]. apply Forall_map, Forall_true. done. Qed.

#[export] Hint Resolve grantless_none grantless_persist grantless_message grantless_merge grantless_grants : keeps.

(** ** Steps *)

Section Steps.

(** The condition under which the term counter does not wrap around. *)
Context (W : Prop).

(** [c] may become [c'] with effects [e]; [P] is what the persistence flag depends on,
    [B] bounds the terms the node is told. *)
Record keeps (P : Prop) (B : N) (c c' : Core) (e : Effects) : Prop := {
  k_term : W → term c ≤ term c';
  k_bound : W → term c' ≤ N.max (term c) B;
  k_vote : W → term c' = term c → ∀ v, vote c = Some v → vote c' = Some v;
  k_persist : P → persistent c' = persistent c ∨ persist e = true;
  k_grants : grants_vote c' e
}.

Lemma keeps_same P B c c' e : persistent c' = persistent c → grantless e → keeps P B c c' e.
Proof.
  intros H He. split; unfold term; rewrite ?H; try done; [intros; lia | by left | by apply grantless_grants].
Qed.

(** The term and the vote stay, the log may change. *)
Lemma keeps_log (P : Prop) B c c' e :
  term c' = term c → vote c' = vote c → (P → persistent c' = persistent c ∨ persist e = true) → grantless e →
  keeps P B c c' e.
Proof. intros Ht Hv Hp He. split; [intros; lia | intros; lia | by intros _ _ v; rewrite Hv | done | by apply grantless_grants]. Qed.

Lemma keeps_trans P B c c1 c2 e1 e2 :
  keeps P B c c1 e1 → grantless e1 → keeps P B c1 c2 e2 → keeps P B c c2 (merge e1 e2).
Proof.
  intros [T1 B1 V1 P1 _] He [T2 B2 V2 P2 G2].
  split; [intros HW; specialize (T1 HW); specialize (T2 HW); lia | intros HW; specialize (B1 HW); specialize (B2 HW); lia | | |].
  - intros HW Ht v Hv. specialize (T1 HW). specialize (T2 HW). apply V2; [done | lia |]. apply V1; [done | lia | done].
  - intros HP. simpl. destruct (P1 HP) as [E1| ->]; [|by right]. rewrite <- E1.
    destruct (P2 HP) as [->| ->]; [by left | right; by rewrite orb_true_r].
  - apply Forall_app_2; [|done]. by apply (grantless_grants c2).
Qed.

Lemma keeps_persist P B c c' e : keeps P B c c' e → keeps P B c c' (with_persist e).
Proof. intros [? ? ? ? ?]. split; [done | done | done | by right | done]. Qed.

(** A term learnt from a message; the flag is set by the caller. *)
Lemma keeps_update P B c t u c' e :
  maybe_update_term c t = (u, c') → (W → t ≤ B) → grantless e → (u = true → persist e = true) → keeps P B c c' e.
Proof.
  unfold maybe_update_term. destruct (N.ltb_spec (term c) t); intros [= <- <-] Hb He Hp; [|by apply keeps_same].
  split; unfold term in *; simpl; [intros; lia | intros HW; specialize (Hb HW); lia | intros; lia | by right; apply Hp | by apply grantless_grants].
Qed.

(** ** The follower *)

(** An entry of the message lies at the index of the snapshot and has another term. *)
Definition conflicts_snapshot (l : Log) (e : Entry) : bool :=
  (e_index e =? snapshot_index l) && negb (e_term e =? snapshot_term l).

Definition hits_snapshot (c : Core) (m : Message) : bool :=
  match msg_payload m with
  | PAppendRequest q => existsb (conflicts_snapshot (log c)) (aq_entries q)
  | _ => false
  end.

(** The indices of the message's entries are [u64] values. *)
Definition typed (m : Message) : Prop :=
  match msg_payload m with
  | PAppendRequest q => Forall (fun e => e_index e < u64_modulus) (aq_entries q)
  | _ => True
  end.

Definition fits (c : Core) (m : Message) : Prop := typed m ∧ hits_snapshot c m = false.

Definition fits_event (c : Core) (e : Event) : Prop :=
  log_wf (log c) ∧ match e with EMessage m => fits c m | _ => True end.

Lemma append_entries_flag es : ∀ l, (append_entries l true es).2 = true.
Proof. induction es as [|e es IH]; intros l; cbn [append_entries]; [done |]. case_match; apply IH. Qed.

(** A truncation at an index above the snapshot is followed by an append. *)
Lemma append_entries_silent es l :
  log_wf l → Forall (fun e => e_index e < u64_modulus) es → existsb (conflicts_snapshot l) es = false →
  (append_entries l false es).2 = false → (append_entries l false es).1 = l.
Proof.
  intros Hw. induction es as [|e es IH]; intros Hi Hs; [done |]. apply Forall_cons in Hi as [Hi His].
  cbn [existsb] in Hs. apply orb_false_iff in Hs as [He Hs]. cbn [append_entries].
  destruct (negb (term_at l (e_index e) =? 0) && negb (term_at l (e_index e) =? e_term e)) eqn:Ec.
  - apply andb_true_iff in Ec as [Hz%negb_true_iff%N.eqb_neq Hne%negb_true_iff%N.eqb_neq].
    pose proof Hz as Hr. apply term_at_nonzero in Hr as [Hpos Hr]; [|done | done].
    assert (e_index e ≠ snapshot_index l) as Habove.
    { intros E. unfold conflicts_snapshot in He. rewrite E, N.eqb_refl in He. cbn in He.
      apply negb_false_iff, N.eqb_eq in He. apply Hne. rewrite term_at_get by done.
      by destruct (N.eqb_spec (e_index e) 0), (N.eqb_spec (e_index e) (snapshot_index l)); [lia.. | |]. }
    rewrite u64_sub_small, truncate_after_last by (done || lia).
    destruct (N.ltb_spec (N.min (e_index e - 1) (last_index l)) (e_index e)); [|lia].
    by rewrite append_entries_flag.
  - destruct (last_index l <? e_index e); [by rewrite append_entries_flag | by apply IH].
Qed.

Lemma reset_keeps f c f' c' : reset_deadline f c = Some (f', c') → persistent c' = persistent c.
Proof. intros H. by destruct (reset_deadline_frame _ _ _ _ H) as [r ->]. Qed.

Lemma random_keeps c t c' : random_election_timeout c = Some (t, c') → persistent c' = persistent c.
Proof. intros H. by destruct (random_election_timeout_frame _ _ _ H) as [r ->]. Qed.

Lemma follower_append_keeps B f c m q f' c' r :
  msg_payload m = PAppendRequest q → Follower.handle_append_request f c (msg_from m) q = Some (f', c', r) →
  keeps (log_wf (log c) ∧ fits c m) B c c' (effects r) ∧ grantless (effects r).
Proof.
  intros Hm. unfold Follower.handle_append_request. intros H. opt_inv. apply reset_keeps in E.
  assert (log c0 = log c) as El by (unfold log; by rewrite E). rewrite El in H.
  destruct (_ && _) eqn:Hg; [opt_inv; split; [apply keeps_same; [done |]|]; by repeat constructor |].
  destruct (append_entries (log c) false (aq_entries q)) as [l p] eqn:Ha. injection H as <- Hc <-.
  split; [|by destruct p; repeat constructor].
  assert (persistent c' = mkPersistent (p_term (persistent c)) (vote c) l (bootstrap_config (persistent c))) as Ec.
  { rewrite <- Hc, <- E. by case_match. }
  apply keeps_log; [unfold term; by rewrite Ec | by rewrite Ec | | by destruct p; repeat constructor].
  intros [Hw [Ht Hh]]. unfold typed, hits_snapshot in *. rewrite Hm in Ht, Hh. destruct p; [by right | left].
  pose proof (append_entries_silent _ _ Hw Ht Hh) as Hl. rewrite Ha in Hl. specialize (Hl eq_refl). cbn in Hl. rewrite Ec, Hl. unfold log.
  by destruct (persistent c).
Qed.

Lemma follower_vote_keeps P B f c from req f' c' r :
  Follower.handle_vote_request f c from req = Some (f', c', r) → keeps P B c c' (effects r).
Proof.
  unfold Follower.handle_vote_request. intros H. opt_inv. destruct (_ && _) eqn:Hg; opt_inv; [|by apply keeps_same; repeat constructor].
  apply reset_keeps in E0. apply andb_true_iff in Hg as [[_ Hv]%andb_true_iff _].
  split; unfold term; simpl; rewrite ?E0; simpl; [done | intros; apply N.le_max_l | | by right |].
  - intros _ _ v Hv'. unfold can_vote_for in Hv. rewrite Hv' in Hv. apply N.eqb_eq in Hv. by subst v.
  - constructor; [|constructor]. intros _. unfold term. simpl. by rewrite E0.
Qed.

Lemma follower_dispatch_keeps B f c m f' c' r :
  Follower.dispatch f c m = Some (f', c', r) →
  keeps (log_wf (log c) ∧ fits c m) B c c' (effects r) ∧ (transition r = Stay ∨ grantless (effects r)).
Proof.
  unfold Follower.dispatch. destruct (msg_payload m) as [?|?|?|?|q|?|q|?|?|?|] eqn:Hm; intros H;
    try (opt_inv; split; [apply keeps_same; [done | constructor] | by right; constructor]).
  - split; [by eapply follower_vote_keeps | left]. unfold Follower.handle_vote_request in H. by opt_inv.
  - destruct (follower_append_keeps B _ _ _ _ _ _ _ Hm H). by split; [|right].
  - unfold Follower.handle_install_snapshot in H. opt_inv. apply reset_keeps in E.
    assert (term c0 = term c ∧ vote c0 = vote c) as [Et Ev] by (unfold term; by rewrite E).
    destruct (_ <=? _); [|destruct (_ && _)]; opt_inv;
      try (split; [apply keeps_same; [done | by repeat constructor] | by right; repeat constructor]).
    split; [|right; by repeat constructor]. apply keeps_log; [| | by right | by repeat constructor];
      [rewrite <- Et | rewrite <- Ev]; by repeat case_match.
  - unfold Follower.handle_read_index_request in H. opt_inv. apply reset_keeps in E.
    split; [apply keeps_same; [done | by repeat constructor] | by right; repeat constructor].
Qed.

Lemma merge_persist_none e : merge (with_persist none) e = with_persist e.
Proof. done. Qed.

(** The term of the message is observed; the flag says whether it was new. *)
Lemma observe_keeps P B f c m f' c' u :
  observe_term f c m = Some (f', c', u) → (W → msg_term m ≤ B) →
  log c' = log c ∧ (if u : bool then keeps P B c c' (with_persist none) else c' = c).
Proof.
  unfold observe_term. destruct (N.ltb_spec (term c) (msg_term m)) as [Hlt|]; [|intros H' _; by opt_inv].
  destruct (maybe_update_term c (msg_term m)) as [u' c1] eqn:Hu. intros H Hb. opt_inv. apply reset_keeps in E.
  pose proof Hu as Hu'. unfold maybe_update_term in Hu'. apply N.ltb_lt in Hlt. rewrite Hlt in Hu'. eq_inv Hu'.
  split; [unfold log; by rewrite E |].
  assert (persistent c0 = persistent (maybe_update_term c (msg_term m)).2) as Ep by (by rewrite Hu).
  rewrite <- (merge_none_r (with_persist none)). eapply keeps_trans; [|by repeat constructor |].
  - by apply (keeps_update P B _ _ _ _ _ Hu); [| repeat constructor |].
  - apply keeps_same; [done | constructor].
Qed.

(** The largest term an event tells the node. *)
Definition message_term (m : Message) : Term :=
  match msg_payload m with PPreVoteResponse r => N.max (msg_term m) (pvr_term r) | _ => msg_term m end.

Definition event_term (e : Event) : Term := match e with EMessage m => message_term m | _ => 0 end.

Lemma message_term_le m B : (W → message_term m ≤ B) → W → msg_term m ≤ B.
Proof. intros H HW. specialize (H HW). unfold message_term in H. case_match; lia. Qed.

(** The part of [step] after the election guard and the pre-vote branch. *)
Lemma follower_term_keeps B f c m f' c' r :
  (let* (f, c, u) := observe_term f c m in
   if msg_term m <? term c then Some (f, c, stay (Follower.reject_stale c m))
   else let* (f, c, r) := Follower.dispatch f c m in
        Some (f, c, if u : bool then mkStepResult (transition r) (with_persist (effects r)) else r)) = Some (f', c', r) →
  (W → msg_term m ≤ B) → keeps (log_wf (log c) ∧ fits c m) B c c' (effects r) ∧ (transition r = Stay ∨ grantless (effects r)).
Proof.
  intros H Hb. opt_inv. destruct (observe_keeps (log_wf (log c) ∧ fits c m) B _ _ _ _ _ _ E Hb) as [El Hk].
  destruct (N.ltb_spec (msg_term m) (term c0)) as [Hlt|Hge].
  - opt_inv. unfold Follower.reject_stale. assert (c0 = c) as ->.
    { destruct b; [|done]. unfold observe_term in E. destruct (N.ltb_spec (term c) (msg_term m)); [|by opt_inv].
      unfold maybe_update_term in E. rewrite (proj2 (N.ltb_lt _ _) ltac:(eassumption)) in E. opt_inv.
      apply reset_keeps in E0. unfold term in Hlt. rewrite E0 in Hlt. simpl in Hlt. lia. }
    split; [apply keeps_same; [done |] | right]; simpl; destruct (msg_payload m); by repeat constructor.
  - opt_inv. destruct (follower_dispatch_keeps B _ _ _ _ _ _ E0) as [Hd Hg]. unfold fits, hits_snapshot in *. rewrite El in Hd.
    destruct b; [|subst c0; by split]. simpl. rewrite <- merge_persist_none.
    split; [eapply keeps_trans; [done | by repeat constructor | done] | done].
Qed.

Lemma follower_keeps B f c e f' c' r :
  Follower.step f c e = Some (f', c', r) → (W → event_term e ≤ B) →
  keeps (fits_event c e) B c c' (effects r) ∧ (transition r = Stay ∨ grantless (effects r)).
Proof.
  destruct e as [|m|k]; cbn [Follower.step].
  - unfold Follower.handle_tick. intros [= H]. repeat case_match; simplify_eq;
      (split; [apply keeps_same; [done | constructor] | right; constructor]).
  - unfold Follower.step_message. case_match.
    { intros H'. opt_inv. unfold reject_due_to_active_leader.
      split; [apply keeps_same; [done |] | right]; simpl; destruct (msg_payload m); by repeat constructor. }
    destruct (msg_payload m) eqn:Hm;
      try (intros H1 H2; exact (follower_term_keeps B f c m f' c' r H1 (message_term_le m B H2))).
    intros H' _. opt_inv. split; [apply keeps_same; [done |] | right]; by repeat constructor.
  - intros H. opt_inv. split; [apply keeps_same; [done | constructor] | right; constructor].
Qed.

(** ** The candidates *)

(** The persistent state and the votes of the node do not change. *)
Ltac quiet := (split; [apply keeps_same; [done |] |]; simpl; repeat case_match; by repeat constructor).

Lemma updated_keeps P B c t u c' e :
  maybe_update_term c t = (u, c') → (W → t ≤ B) → persist e = true → grantless e → keeps P B c c' e ∧ grantless e.
Proof. intros Hu Hb Hp He. split; [by apply (keeps_update P B _ _ _ _ _ Hu) | done]. Qed.

Lemma precandidate_keeps P B p c e p' c' r :
  (W → event_term e ≤ B) → PreCandidate.step p c e = Some (p', c', r) → keeps P B c c' (effects r) ∧ grantless (effects r).
Proof.
  intros Hb. destruct e as [|m|k]; simpl in *; [| |intros H; opt_inv; quiet].
  - unfold PreCandidate.handle_tick. case_match; [|case_match; intros H'; opt_inv; quiet].
    intros H'. opt_inv. apply random_keeps in E. quiet.
  - unfold PreCandidate.step_message, PreCandidate.deny_vote. case_match; [intros H'; opt_inv; destruct (msg_payload m); quiet |].
    case_match.
    { destruct (maybe_update_term c (msg_term m)) as [u c1] eqn:Hu. intros H'. opt_inv.
      by apply (updated_keeps P B _ _ _ _ _ Hu); [apply message_term_le | | repeat constructor]. }
    unfold message_term in Hb.
    destruct (msg_payload m) as [?|resp|?|?|?|?|?|?|?|?|]; unfold PreCandidate.handle_append_request; try (intros H'; opt_inv; quiet).
    unfold PreCandidate.handle_prevote_response. case_match; [|repeat case_match; intros H'; opt_inv; quiet].
    destruct (maybe_update_term c (pvr_term resp)) as [u c1] eqn:Hu. intros H'. opt_inv.
    by apply (updated_keeps P B _ _ _ _ _ Hu); [intros HW; specialize (Hb HW); lia | | repeat constructor].
Qed.

Lemma candidate_keeps P B p c e p' c' r :
  (W → event_term e ≤ B) → Candidate.step p c e = Some (p', c', r) → keeps P B c c' (effects r) ∧ grantless (effects r).
Proof.
  intros Hb. destruct e as [|m|k]; simpl in *; [| |intros H; opt_inv; quiet].
  - unfold Candidate.handle_tick. case_match; [|case_match; intros H'; opt_inv; quiet].
    intros H'. opt_inv. apply random_keeps in E. quiet.
  - unfold Candidate.step_message, Candidate.deny_vote. case_match; [intros H'; opt_inv; destruct (msg_payload m); quiet |].
    assert (∀ x, Some (Candidate.step_term p c m) = Some x → x = (p', c', r) →
                 keeps P B c c' (effects r) ∧ grantless (effects r)) as Ht.
    { intros x [= <-]. unfold Candidate.step_term. case_match; [|case_match].
      - destruct (maybe_update_term c (msg_term m)) as [u c1] eqn:Hu. intros H'. opt_inv.
        by apply (updated_keeps P B _ _ _ _ _ Hu); [apply message_term_le | | repeat constructor].
      - intros H'. opt_inv. unfold Candidate.reject_stale. destruct (msg_payload m); quiet.
      - unfold Candidate.handle_vote_response, Candidate.handle_append_request. destruct (msg_payload m); repeat case_match; intros H'; opt_inv; quiet. }
    destruct (msg_payload m); try (intros [= H']; by eapply Ht). intros H'. opt_inv. quiet.
Qed.

(** ** The leader *)

Lemma send_append_grantless l c to l' e : send_append_to l c to = Some (l', e) → grantless e.
Proof. unfold send_append_to. case_match; intros H'; opt_inv; by repeat constructor. Qed.

Lemma send_all_grantless c ns : ∀ l e l' e', grantless e → send_append_all l c ns e = Some (l', e') → grantless e'.
Proof.
  induction ns as [|n ns IH]; intros l e l' e' He; cbn [send_append_all]; [by intros [= <- <-] |]. intros H. opt_inv.
  eapply IH; [|exact H]. apply grantless_merge; [done |]. by eapply send_append_grantless.
Qed.

Lemma broadcast_grantless l c l' e : broadcast_append l c = Some (l', e) → grantless e.
Proof. by apply send_all_grantless; constructor. Qed.

Lemma transfer_grantless l c cfg : grantless (try_auto_transfer l c cfg).
Proof. unfold try_auto_transfer. repeat case_match; by repeat constructor. Qed.

Lemma advance_persistent l c : persistent (advance_commit_index l c) = persistent c.
Proof. unfold advance_commit_index. by case_match. Qed.

Definition commit_effects (r : ConfigCommitResult) : Effects :=
  match r with Continue e | StepDown e => e | Done => none end.

Lemma process_indices_keeps P B l idxs : ∀ c l' c' r,
  process_indices l c idxs = Some (l', c', r) → keeps P B c c' (commit_effects r) ∧ grantless (commit_effects r).
Proof.
  induction idxs as [|i idxs IH]; intros c l' c' r; cbn [process_indices]; [intros H; opt_inv; quiet |].
  destruct (get (log c) i) as [entry|]; [|apply IH]. destruct (e_payload entry) as [cmd|cfg]; [apply IH |].
  case_match; [intros H'; opt_inv; split; [apply keeps_same; [done |]|]; apply transfer_grantless |].
  destruct (transition_target cfg) as [target|]; [|apply IH]. unfold append_transition_target. intros H'. opt_inv.
  apply broadcast_grantless in E0. split; [|done]. by apply keeps_log; [done | done | right |].
Qed.

Lemma commit_loop_keeps P B c0 fuel : ∀ l c e l' c' e' b,
  keeps P B c0 c e → grantless e → commit_loop fuel l c e = Some (l', c', e', b) → keeps P B c0 c' e' ∧ grantless e'.
Proof.
  induction fuel as [|fuel IH]; intros l c e l' c' e' b Hk He; cbn [commit_loop]; [done |].
  assert (keeps P B c0 (advance_commit_index l c) e) as Ha.
  { destruct Hk as [Kt Kb Kv Kp Kg]. unfold term in *. split; unfold grants_vote, term in *; by rewrite advance_persistent. }
  case_match; [intros H'; opt_inv; by split |]. unfold process_committed_configs. intros H'. opt_inv.
  apply (process_indices_keeps P B) in E as [Hp Hg].
  assert (keeps P B c0 c2 (merge e (commit_effects c1)) ∧ grantless (merge e (commit_effects c1))) as [Hk' Hg'].
  { split; [by eapply keeps_trans | by apply grantless_merge]. }
  destruct c1 as [e2|e2|]; simpl in *; [by eapply IH | by opt_inv |]. opt_inv. by rewrite merge_none_r in *.
Qed.

Lemma maybe_commit_keeps P B l c l' c' e b :
  maybe_commit l c = Some (l', c', e, b) → keeps P B c c' e ∧ grantless e.
Proof. apply commit_loop_keeps; [by apply keeps_same; [|constructor] | constructor]. Qed.

Lemma commit_and_continue_keeps P B l c l' c' r :
  commit_and_continue l c = Some (l', c', r) → keeps P B c c' (effects r) ∧ grantless (effects r).
Proof. unfold commit_and_continue. intros H. opt_inv. apply (maybe_commit_keeps P B) in E. by case_match. Qed.

Lemma leader_keeps P B l c e l' c' r :
  (W → event_term e ≤ B) → Leader.step l c e = Some (l', c', r) → keeps P B c c' (effects r) ∧ grantless (effects r).
Proof.
  intros Hb. destruct e as [|m|k]; cbn [Leader.step].
  - unfold Leader.handle_tick. case_match; intros H'; [|opt_inv; quiet]. opt_inv. apply broadcast_grantless in E.
    assert (∀ p, grantless (read_index_requests (set_ticks c (ticks c +u 1)) p)) as Hr.
    { intros p. apply Forall_map, Forall_true. done. }
    split; [apply keeps_same; [done |] |]; simpl; case_match; auto with keeps.
  - unfold Leader.step_message. assert (Leader.step_term l c m = Some (l', c', r) →
      keeps P B c c' (effects r) ∧ grantless (effects r)) as Ht.
    { unfold Leader.step_term. case_match; [|case_match].
      - destruct (maybe_update_term c (msg_term m)) as [u c1] eqn:Hu. intros H'. opt_inv.
        by apply (updated_keeps P B _ _ _ _ _ Hu); [apply message_term_le | | repeat constructor].
      - intros H'. opt_inv. unfold Leader.reject_stale. destruct (msg_payload m); quiet.
      - destruct (msg_payload m) as [?|?|?|?|?|resp|?|resp|?|resp|]; try (intros H'; opt_inv; quiet).
        + unfold Leader.handle_append_response. case_match; [intros H'; opt_inv; quiet |].
          case_match; [apply commit_and_continue_keeps |]. intros H'. opt_inv. apply send_append_grantless in E.
          by split; [apply keeps_same |].
        + unfold Leader.handle_install_snapshot_response. case_match; [intros H'; opt_inv; quiet |].
          case_match; [intros H'; opt_inv; quiet | apply commit_and_continue_keeps].
        + unfold handle_read_index_response. repeat case_match; intros H'; simplify_eq; quiet. }
    destruct (msg_payload m); try exact Ht. intros H'. opt_inv. quiet.
  - unfold Leader.handle_disk_write_complete. case_match; [apply commit_and_continue_keeps |]. intros H'. opt_inv. quiet.
Qed.

(** ** The node *)

(** [n] becomes [n'] with effects that grant no vote. *)
Definition passes (P : Prop) (B : N) (c c' : Core) (e : Effects) : Prop := keeps P B c c' e ∧ grantless e.

Lemma passes_trans P B c c1 c2 e1 e2 : passes P B c c1 e1 → passes P B c1 c2 e2 → passes P B c c2 (merge e1 e2).
Proof. intros [H1 G1] [H2 G2]. split; [by eapply keeps_trans | by apply grantless_merge]. Qed.

Lemma candidate_new_passes P B c p c' e : Candidate.new c = Some (p, c', e) → (W → term c < B ≤ u64_max) → passes P B c c' e.
Proof.
  unfold Candidate.new. intros H Ht. opt_inv. apply random_keeps in E.
  assert (W → term c0 = term c + 1) as Et.
  { intros HW. specialize (Ht HW). unfold term at 1. rewrite E. simpl. by rewrite u64_add_small by ulia. }
  assert (W → term c ≤ term c0 ∧ term c0 ≤ N.max (term c) B ∧ term c0 ≠ term c) as Hw
    by (intros HW; specialize (Ht HW); specialize (Et HW); lia).
  case_match; opt_inv; (split; [split; [apply Hw | apply Hw | intros HW ?; by destruct (Hw HW) as (_ & _ & ?) | by right | apply grantless_grants] |]);
    first [exact grantless_none | by apply (grantless_map (with_persist none) _ _ grantless_none)].
Qed.

Lemma become_leader_passes P B c n e : become_leader c = Some (n, e) → passes P B c (core n) e.
Proof.
  unfold become_leader, Leader.new. intros H. opt_inv. apply broadcast_grantless in E0. by split; [apply keeps_same |].
Qed.

Lemma become_candidate_passes P B c n e : become_candidate c = Some (n, e) → (W → term c < B ≤ u64_max) → passes P B c (core n) e.
Proof.
  unfold become_candidate. intros H Ht. opt_inv. apply (candidate_new_passes P B) in E; [|done].
  case_match; opt_inv; [|done]. apply (become_leader_passes P B) in E0. by eapply passes_trans.
Qed.

Lemma precandidate_new_passes P B c p c' e :
  PreCandidate.new c = Some (p, c', e) → passes P B c c' e ∧ persistent c' = persistent c.
Proof.
  unfold PreCandidate.new. intros H. opt_inv. apply random_keeps in E. case_match; opt_inv.
  - split; [split; [by apply keeps_same; [|constructor] | constructor] | done].
  - split; [split; [apply keeps_same; [done |] |]; by apply (grantless_map none _ _ grantless_none) | done].
Qed.

Lemma become_precandidate_passes P B c n e : become_precandidate c = Some (n, e) → (W → term c < B ≤ u64_max) → passes P B c (core n) e.
Proof.
  unfold become_precandidate. intros H Ht. opt_inv. apply (precandidate_new_passes P B) in E as [Hp E].
  case_match; opt_inv; [|done]. apply (become_candidate_passes P B) in E0; [by eapply passes_trans |].
  unfold term in *. by rewrite E.
Qed.

Lemma become_follower_passes P B c l n : become_follower c l = Some n → passes P B c (core n) none.
Proof.
  unfold become_follower. intros H. opt_inv. destruct (follower_new_frame _ _ _ _ E) as [r ->].
  split; [by apply keeps_same; [|constructor] | constructor].
Qed.

Lemma apply_transition_passes P B n t n' e :
  apply_transition n t = Some (n', e) → (W → node_term n < B ≤ u64_max) → passes P B (core n) (core n') e.
Proof.
  destruct t as [|l|l| | |]; cbn [apply_transition]; intros H Ht.
  - opt_inv. by split; [apply keeps_same; [|constructor] | constructor].
  - opt_inv. by eapply become_follower_passes.
  - unfold Follower.after_leader_contact in H. opt_inv. destruct (follower_new_frame _ _ _ _ E0) as [r ->].
    split; [by apply keeps_same; [|constructor] | constructor].
  - by eapply become_precandidate_passes.
  - by eapply become_candidate_passes.
  - by eapply become_leader_passes.
Qed.

Lemma role_step_keeps B n e n1 r :
  (W → event_term e ≤ B) → role_step n e = Some (n1, r) →
  keeps (fits_event (core n) e) B (core n) (core n1) (effects r) ∧ (transition r = Stay ∨ grantless (effects r)).
Proof.
  intros Hb. unfold role_step. destruct (role n) as [f|p|p|l]; intros H; opt_inv.
  - by eapply follower_keeps.
  - destruct (precandidate_keeps (fits_event (core n) e) B _ _ _ _ _ _ Hb E). by split; [|right].
  - destruct (candidate_keeps (fits_event (core n) e) B _ _ _ _ _ _ Hb E). by split; [|right].
  - destruct (leader_keeps (fits_event (core n) e) B _ _ _ _ _ _ Hb E). by split; [|right].
Qed.

Lemma keeps_weaken P B B' c c' e : B ≤ B' → keeps P B c c' e → keeps P B' c c' e.
Proof. intros H [? Hb ? ? ?]. split; [done | intros HW; specialize (Hb HW); lia | done | done | done]. Qed.

Lemma step_event_keeps B n e n' eff :
  (W → node_term n ≤ B ∧ event_term e ≤ B < u64_max) → step_event n e = Some (n', eff) →
  keeps (fits_event (core n) e) (B + 1) (core n) (core n') eff.
Proof.
  intros HW. assert (W → event_term e ≤ B) as He by (intros Hw; by destruct (HW Hw) as (_ & ? & _)). unfold step_event. destruct (role_step n e) as [[n1 r]|] eqn:E; [|done].
  destruct (role_step_keeps _ _ _ _ _ He E) as [Hk Hg]. pose proof (k_bound _ _ _ _ _ Hk) as Ht.
  apply (keeps_weaken _ B (B + 1)) in Hk; [|lia].
  assert (∀ t n2 e2, transition r = t → t ≠ Stay → apply_transition n1 t = Some (n2, e2) →
    keeps (fits_event (core n) e) (B + 1) (core n) (core n2) (merge (effects r) e2)) as Hx.
  { intros t n2 e2 Hr Hs Ha. destruct Hg as [Hg|Hg]; [congruence |].
    apply (apply_transition_passes (fits_event (core n) e) (B + 1)) in Ha as [Hk2 _];
      [by eapply keeps_trans | intros Hw; specialize (HW Hw); specialize (Ht Hw); unfold node_term in *; lia]. }
  destruct (transition r) eqn:Htr; intros H; opt_inv; [done |..]; (apply (Hx _ _ _ eq_refl); [discriminate | exact E0]).
Qed.

(** ** Inputs *)

Inductive Input :=
| IEvent (e : Event)
| IPropose (cmd : Command)
| IChange (ch : ConfigChange).

(** One call of the node's interface; a refused proposal has no effects. *)
Definition input_step (n : RaftNode) (i : Input) : option (RaftNode * Effects) :=
  match i with
  | IEvent e => step_event n e
  | IPropose cmd =>
      let* (n, r) := node_propose n cmd in Some (n, match r with inr (_, e) => e | inl _ => none end)
  | IChange ch =>
      let* (n, r) := node_propose_config_change n ch in Some (n, match r with inr (_, e) => e | inl _ => none end)
  end.

(** The states the node is in after each input, with the effects of the input. *)
Fixpoint run_inputs (n : RaftNode) (inputs : list Input) : option (list (RaftNode * Effects)) :=
  match inputs with
  | [] => Some []
  | i :: rest =>
      let* (n, e) := input_step n i in
      let* trace := run_inputs n rest in
      Some ((n, e) :: trace)
  end.

Definition input_fits (n : RaftNode) (i : Input) : Prop :=
  match i with IEvent e => fits_event (core n) e | _ => True end.

(** Entry indices are [u64] values; an append request conflicts with the snapshot. *)
Definition input_typed (i : Input) : Prop := match i with IEvent (EMessage m) => typed m | _ => True end.

Definition input_hits_snapshot (n : RaftNode) (i : Input) : bool :=
  match i with IEvent (EMessage m) => hits_snapshot (core n) m | _ => false end.

Definition input_term (i : Input) : Term := match i with IEvent e => event_term e | _ => 0 end.

Lemma step_down_core P B c l b n : step_down_if c l b = Some n → passes P B c (core n) none.
Proof.
  unfold step_down_if. destruct b; [apply become_follower_passes |]. intros H. opt_inv.
  split; [by apply keeps_same; [|constructor] | constructor].
Qed.

(** An entry appended by the leader, what it commits, and the step-down that may follow. *)
Lemma appended_keeps P B c entry l c1 l1 e1 b l2 e2 n :
  maybe_commit l (set_log c (append (log c) entry)) = Some (l1, c1, e1, b) → broadcast_append l1 c1 = Some (l2, e2) →
  step_down_if c1 l2 b = Some n → keeps P B c (core n) (merge (with_persist e2) e1).
Proof.
  intros Hm Hb Hs. apply broadcast_grantless in Hb. apply (maybe_commit_keeps P B) in Hm as [Hm Hg].
  apply (step_down_core P B) in Hs as [Hs _].
  assert (keeps P B c c1 (merge (with_persist e2) e1)) as Hk.
  { eapply keeps_trans; [|done | exact Hm]. apply keeps_log; [done | done | by right | done]. }
  rewrite <- (merge_none_r (merge _ _)). eapply keeps_trans; [exact Hk | by apply grantless_merge | done].
Qed.

Lemma input_step_keeps B n i n' e :
  (W → node_term n ≤ B ∧ input_term i ≤ B < u64_max) → input_step n i = Some (n', e) →
  keeps (input_fits n i) (B + 1) (core n) (core n') e.
Proof.
  destruct i as [ev|cmd|ch]; cbn [input_step input_term input_fits]; [by apply step_event_keeps | |];
    intros _ H; opt_inv.
  - unfold node_propose, Leader.propose in E. destruct (role n); [opt_inv; by apply keeps_same; [|constructor].. |].
    opt_inv. destruct b; opt_inv; [by apply keeps_same; [|constructor] |]. by eapply appended_keeps.
  - unfold node_propose_config_change, Leader.propose_config_change in E.
    destruct (role n); [opt_inv; by apply keeps_same; [|constructor].. |].
    destruct (check_config_change _ _ _); opt_inv; [by apply keeps_same; [|constructor] |]. by eapply appended_keeps.
Qed.

End Steps.

(** ** Runs *)

(** Terms do not decrease, and within a term a vote stays. *)
Definition later (c c' : Core) : Prop :=
  term c ≤ term c' ∧ (term c' = term c → ∀ v, vote c = Some v → vote c' = Some v).

Lemma later_trans c1 c2 c3 : later c1 c2 → later c2 c3 → later c1 c3.
Proof. intros [H1 V1] [H2 V2]. split; [lia |]. intros Ht v Hv. apply V2; [lia |]. apply V1; [lia | done]. Qed.

Lemma sorted_elem {A} (R : A → A → Prop) l x y :
  StronglySorted R l → x ∈ l → y ∈ l → x = y ∨ R x y ∨ R y x.
Proof.
  induction 1 as [|a l Hl IH Ha]; [by intros ?%not_elem_of_nil |]. rewrite List.Forall_forall in Ha.
  rewrite !elem_of_cons. intros [->|Hx] [->|Hy]; [by left | | | by apply IH]; right; [left | right];
    by apply Ha, list_elem_of_In.
Qed.

(** The states of a run, each with the effects that led to it. *)
Lemma run_inputs_sorted inputs : ∀ n trace,
  node_term n < u64_max → Forall (fun i => input_term i < u64_max) inputs → run_inputs n inputs = Some trace →
  Forall (fun s => node_term s.1 < u64_max) trace →
  StronglySorted (fun s s' => later (core s.1) (core s'.1)) ((n, none) :: trace) ∧
  Forall (fun s => grants_vote (core s.1) s.2) trace.
Proof.
  induction inputs as [|i inputs IH]; intros n trace Hn Hi H Ht; cbn [run_inputs] in H.
  { opt_inv. split; [repeat constructor | constructor]. }
  opt_inv. apply Forall_cons in Hi as [Hi His]. apply Forall_cons in Ht as [Hr Ht]. cbn [fst] in Hr.
  destruct (input_step_keeps True (u64_max - 1) n i r e) as [Kt Kb Kv _ Kg]; [ulia | done |].
  destruct (IH r l Hr His) as [Hs Hg]; [done | done |].
  apply StronglySorted_inv in Hs as [Hs Hall]. split; [|by constructor].
  assert (later (core n) (core r)) as Hl by (split; [by apply Kt | by apply Kv]).
  constructor; [by constructor | constructor; [done |]]. eapply Forall_impl; [exact Hall |]. intros s Hs'. by eapply later_trans.
Qed.

(** C10: one vote per term. Take a run over any inputs (messages of any kind and content,
    proposals, configuration changes, ticks) in which no message carries the term
    [u64::MAX] and the node does not reach that term: its terms never decrease, and all
    votes it grants in a term go to the same candidate. At [u64::MAX] the counter
    wraps around when the node stands for election, and it can vote again in a term it
    has voted in ([wrapped_term_votes_again]). *)
Theorem one_vote_per_term inputs n trace :
  node_term n < u64_max → Forall (fun i => input_term i < u64_max) inputs → run_inputs n inputs = Some trace →
  Forall (fun s => node_term s.1 < u64_max) trace →
  StronglySorted N.le (node_term n :: map (fun s => node_term s.1) trace) ∧
  ∀ s1 s2 m1 m2, s1 ∈ trace → s2 ∈ trace → m1 ∈ messages s1.2 → m2 ∈ messages s2.2 →
    is_grant m1 = true → is_grant m2 = true → msg_term m1 = msg_term m2 → msg_to m1 = msg_to m2.
Proof.
  intros Hn Hi H Ht. destruct (run_inputs_sorted inputs n trace Hn Hi H Ht) as [Hs Hg]. split.
  - change (StronglySorted N.le (map (fun s => node_term s.1) ((n, none) :: trace))). clear -Hs.
    induction Hs as [|s l Hs IH Hall]; [constructor |]. cbn. constructor; [done |].
    apply Forall_map. eapply Forall_impl; [exact Hall |]. by intros ? [].
  - intros s1 s2 m1 m2 H1 H2 E1 E2 G1 G2 Htm. rewrite Forall_forall in Hg.
    destruct (proj1 (Forall_forall _ _) (Hg _ H1) _ E1 G1) as [T1 V1].
    destruct (proj1 (Forall_forall _ _) (Hg _ H2) _ E2 G2) as [T2 V2].
    apply StronglySorted_inv in Hs as [Hs _].
    destruct (sorted_elem _ _ _ _ Hs H1 H2) as [-> |[[_ Hv]|[_ Hv]]]; [congruence | |].
    + specialize (Hv ltac:(congruence) _ V1). congruence.
    + specialize (Hv ltac:(congruence) _ V2). congruence.
Qed.

(** C11: no silent change. After any call on a node with a well-formed log (a tick, any
    message, a completed disk write, a proposal, a configuration change), if its term, vote
    or log changed then the effects ask to persist, with one exception: an append request
    with an entry at the index of the node's snapshot whose term is not the snapshot's. That
    exception is real ([snapshot_conflict_not_persisted]); in a cluster a snapshot holds
    committed entries, which a leader's log contains. *)
Theorem changes_are_persisted n i n' e :
  log_wf (log (core n)) → input_typed i → input_step n i = Some (n', e) →
  node_persistent n' = node_persistent n ∨ persist e = true ∨ input_hits_snapshot n i = true.
Proof.
  intros Hw Ht H. destruct (input_hits_snapshot n i) eqn:Hh; [by right; right |].
  assert (input_fits n i) as Hf by (destruct i as [[|m|]|cmd|ch]; done).
  destruct (k_persist _ _ _ _ _ _ (input_step_keeps False 0 n i n' e ltac:(done) H) Hf); [by left | by right; left].
Qed.

(** ** Witnesses *)

Definition demo_node : RaftNode :=
  default (mkRaftNode (core_new (config_new 0) [0; 1; 2]) (RFollower (Follower.mkFollower None 0 None)))
    (node_new (config_new 0) [0; 1; 2]).

Definition ask_vote (from : NodeId) : Input := IEvent (EMessage (mkMessage from 0 1 (PVoteRequest (mkVoteRequest 0 0)))).

(** Two requests of node 1 in term 1 are granted, the one of node 2 between them is not. *)
Lemma one_vote_per_term_witness :
  option_map (map (fun s => map is_grant (messages s.2))) (run_inputs demo_node [ask_vote 1; ask_vote 2; ask_vote 1]) =
    Some [[true]; [false]; [true]] ∧
  ∃ trace, run_inputs demo_node [ask_vote 1; ask_vote 2; ask_vote 1] = Some trace ∧
    ∀ s1 s2 m1 m2, s1 ∈ trace → s2 ∈ trace → m1 ∈ messages s1.2 → m2 ∈ messages s2.2 →
      is_grant m1 = true → is_grant m2 = true → msg_term m1 = msg_term m2 → msg_to m1 = msg_to m2.
Proof.
  split; [vm_compute; reflexivity |].
  destruct (run_inputs demo_node [ask_vote 1; ask_vote 2; ask_vote 1]) as [trace|] eqn:E; [|vm_compute in E; discriminate E].
  exists trace. split; [done |]. apply (one_vote_per_term [ask_vote 1; ask_vote 2; ask_vote 1] demo_node trace);
    [vm_compute; reflexivity | repeat constructor; vm_compute; reflexivity | exact E |].
  vm_compute in E. injection E as <-. repeat constructor; vm_compute; reflexivity.
Defined.

Definition first_entry : Input :=
  IEvent (EMessage (mkMessage 1 0 1 (PAppendRequest (mkAppendRequest 0 0 [mkEntry 1 1 (PCommand (mkCommand []))] 0)))).

Lemma changes_are_persisted_witness :
  ∃ n e, input_step demo_node first_entry = Some (n, e) ∧ last_index (log (core n)) = 1 ∧
    (node_persistent n = node_persistent demo_node ∨ persist e = true).
Proof.
  destruct (input_step demo_node first_entry) as [[n e]|] eqn:E; [|vm_compute in E; discriminate E].
  exists n, e. split; [done |]. split; [vm_compute in E; injection E as <- _; reflexivity |].
  destruct (changes_are_persisted demo_node first_entry n e) as [Hsame|[Hp|Hh]];
    [|repeat constructor; vm_compute; reflexivity | exact E | by left | by right | vm_compute in Hh; discriminate Hh].
  split; [intros j x Hx; vm_compute in Hx; discriminate Hx | vm_compute; reflexivity].
Defined.

(** ** The conditions are needed *)

(** Node 0 grants its vote of term 1 to node 1. Then it is told to stand for election in
    term [u64::MAX] and its counter wraps around to 0; a denied vote takes it back to
    term 1, and it votes for node 2. *)
Definition wrap_inputs : list Input :=
  [ask_vote 1; IEvent (EMessage (mkMessage 1 0 u64_max PTimeoutNow));
   IEvent (EMessage (mkMessage 1 0 1 (PVoteResponse (mkVoteResponse false)))); ask_vote 2].

Lemma wrapped_term_votes_again :
  option_map (map (fun s => (node_term s.1, map msg_to (List.filter is_grant (messages s.2)))))
    (run_inputs demo_node wrap_inputs) = Some [(1, [1]); (0, []); (1, []); (1, [2])].
Proof. vm_compute. reflexivity. Qed.

(** A follower with a snapshot of term 1 up to index 2 and an entry 3 is sent an entry 2 of
    term 2: it drops entry 3, which no effect asks to persist. *)
Definition snapshot_node : RaftNode :=
  mkRaftNode (mkCore (config_new 0) (mkPersistent 2 None (mkLog [mkEntry 1 3 (PCommand (mkCommand []))] 2 1 None) (simple [0; 1; 2]))
    2 2 0 7) (RFollower (Follower.mkFollower None 0 None)).

Definition second_entry : Input :=
  IEvent (EMessage (mkMessage 1 0 2 (PAppendRequest (mkAppendRequest 0 0 [mkEntry 2 2 (PCommand (mkCommand []))] 0)))).

Lemma snapshot_conflict_not_persisted :
  option_map (fun s => (entries (log (core s.1)), persist s.2)) (input_step snapshot_node second_entry) = Some ([], false).
Proof. vm_compute. reflexivity. Qed.
