(* ===== verification/CommitSteps.v ===== *)
(** * What a node's step does to its commit index

    A second look at the handlers, for the commit index, the progress table and the
    messages that carry them: which steps move the commit index, what the append
    requests that a node sends say about it, and when a node acknowledges entries.
    Refine.v follows the persistent state; this file follows the rest. *)

From S2P Require Import Prelude BTree Membership Log Event Core Role.
From S2P Require Import Follower PreCandidate Candidate Leader Commit Node Raft Refine.

Open Scope N_scope.

Definition same_commit (c c' : Core) : Prop :=
  commit_index c' = commit_index c ∧ last_applied c' = last_applied c.

(** No append request and no acknowledgement. *)
Definition msg_quiet (m : Message) : bool :=
  match msg_payload m with
  | PAppendRequest _ => false
  | PAppendResponse r => negb (ar_success r)
  | _ => true
  end.

Definition quiet (e : Effects) : Prop := Forall (fun m => msg_quiet m = true) (messages e).

(** An append request carries the commit index and the term of its sender [c]. *)
Definition carries_commit (c : Core) (m : Message) : Prop :=
  match msg_payload m with
  | PAppendRequest q => aq_leader_commit q = commit_index c ∧ msg_term m = term c
  | PAppendResponse r => ar_success r = false
  | _ => True
  end.

Definition requests_ok (c : Core) (e : Effects) : Prop := Forall (carries_commit c) (messages e).

(** The node took the entries of a request into its log and acknowledged its last index. *)
Record accepts (c : Core) (m : Message) (q : AppendRequest) (c' : Core) (eff : Effects) : Prop := {
  ac_payload : msg_payload m = PAppendRequest q;
  ac_le : term c ≤ msg_term m;
  ac_term : term c' = msg_term m;
  ac_prev : 0 < aq_prev_log_index q → term_at (log c) (aq_prev_log_index q) = aq_prev_log_term q;
  ac_log : log c' = (append_entries (log c) false (aq_entries q)).1;
  ac_applied : last_applied c' = last_applied c;
  ac_commit : commit_index c' =
    if commit_index c <? aq_leader_commit q
    then N.min (aq_leader_commit q) (last_index (log c')) else commit_index c;
  ac_reply : messages eff = [append_response c' (msg_from m) true]
}.

Definition accepted (c : Core) (e : Event) (c' : Core) (eff : Effects) : Prop :=
  ∃ m q, e = EMessage m ∧ accepts c m q c' eff.

Create HintDb commits.

Lemma quiet_none : quiet none.
Proof. constructor. Qed.

Lemma quiet_persist e : quiet e → quiet (with_persist e).
Proof. done. Qed.

Lemma quiet_requests c e : quiet e → requests_ok c e.
Proof.
  intros H. eapply Forall_impl; [exact H |]. intros m. unfold msg_quiet, carries_commit. destruct (msg_payload m); try done.
  by rewrite negb_true_iff.
Qed.

Lemma requests_merge c e1 e2 : requests_ok c e1 → requests_ok c e2 → requests_ok c (merge e1 e2).
Proof. apply Forall_app_2. Qed.

Lemma requests_frame c c' e : commit_index c' = commit_index c → term c' = term c → requests_ok c e → requests_ok c' e.
Proof.
  intros Hc Ht H. eapply Forall_impl; [exact H |]. intros m. unfold carries_commit. destruct (msg_payload m); try done.
  by rewrite Hc, Ht.
Qed.

#[export] Hint Resolve quiet_none quiet_persist quiet_requests requests_merge : commits.

(** ** Followers and candidates *)

Lemma maybe_update_commit c t u c' : maybe_update_term c t = (u, c') → same_commit c c' ∧ log c' = log c.
Proof. unfold maybe_update_term. case_match; by intros [= <- <-]. Qed.

Lemma random_commit c t c' : random_election_timeout c = Some (t, c') → same_commit c c' ∧ persistent c' = persistent c.
Proof. intros H. by destruct (random_election_timeout_frame _ _ _ H) as [r ->]. Qed.

Lemma reset_commit f c f' c' : reset_deadline f c = Some (f', c') → same_commit c c' ∧ persistent c' = persistent c.
Proof. intros H. by destruct (reset_deadline_frame _ _ _ _ H) as [r ->]. Qed.

Definition event_plain (e : Event) : Prop :=
  match e with
  | ETick => True
  | EMessage m => is_install (msg_payload m) = false
  | EDiskWriteComplete _ => False
  end.

Lemma follower_accepts f c m req f' c' r :
  msg_payload m = PAppendRequest req → msg_term m = term c →
  Follower.handle_append_request f c (msg_from m) req = Some (f', c', r) →
  (same_commit c c' ∧ quiet (effects r)) ∨ (transition r = Stay ∧ accepted c (EMessage m) c' (effects r)).
Proof.
  intros Hp Ht. unfold Follower.handle_append_request. intros H. opt_inv.
  destruct (reset_deadline_frame _ _ _ _ E) as [rg ->]. change (log (set_rng c rg)) with (log c) in H.
  destruct ((0 <? aq_prev_log_index req) && negb (term_at (log c) (aq_prev_log_index req) =? aq_prev_log_term req)) eqn:Hc.
  { opt_inv. left. split; [done |]. by constructor. }
  destruct (append_entries (log c) false (aq_entries req)) as [l p] eqn:Ha. opt_inv. right.
  set (c1 := set_log (set_rng c rg) l).
  set (c2 := if commit_index c1 <? aq_leader_commit req then _ else c1).
  assert (term c2 = term c ∧ log c2 = l ∧ last_applied c2 = last_applied c ∧
          commit_index c2 = if commit_index c <? aq_leader_commit req
                            then N.min (aq_leader_commit req) (last_index l) else commit_index c) as (H1 & H2 & H3 & H4).
  { unfold c2, c1. cbn. by destruct (commit_index c <? aq_leader_commit req). }
  split; [done |]. exists m, req. split; [done |]. split; [done | lia | congruence | | by rewrite H2, Ha | done | by rewrite H2, H4 | by destruct p].
  intros Hpos. apply andb_false_iff in Hc as [?%N.ltb_ge|Hc]; [lia |]. by apply negb_false_iff, N.eqb_eq in Hc.
Qed.

Lemma follower_dispatch_commit f c m f' c' r :
  is_install (msg_payload m) = false → msg_term m = term c → Follower.dispatch f c m = Some (f', c', r) →
  (same_commit c c' ∧ quiet (effects r)) ∨ (transition r = Stay ∧ accepted c (EMessage m) c' (effects r)).
Proof.
  intros Hi Ht. unfold Follower.dispatch. destruct (msg_payload m) eqn:Hp; try done; intros H;
    try (by opt_inv; left; split; [|constructor]).
  - left. unfold Follower.handle_vote_request in H. destruct (_ && _); opt_inv; [|by split; [|repeat constructor]].
    apply reset_commit in E0 as [[? ?] _]. split; [done | by repeat constructor].
  - by eapply follower_accepts.
  - left. unfold Follower.handle_read_index_request in H. opt_inv. apply reset_commit in E as [? _].
    split; [done | by repeat constructor].
Qed.

Lemma observe_commit f c m f' c' u :
  observe_term f c m = Some (f', c', u) →
  same_commit c c' ∧ log c' = log c ∧ (msg_term m ≤ term c → c' = c) ∧ (term c < msg_term m → term c' = msg_term m).
Proof.
  unfold observe_term. destruct (N.ltb_spec (term c) (msg_term m)) as [Hlt|]; [|intros H'; opt_inv; split_and!; [done | done | done | lia]].
  destruct (maybe_update_term c (msg_term m)) as [u1 c1] eqn:Hu. intros H. opt_inv. apply reset_commit in E as [[H1 H2] H3].
  pose proof (maybe_update_commit _ _ _ _ Hu) as [[H4 H5] H6]. unfold log, term in *. rewrite H3.
  split_and!; [split; congruence | congruence | lia |]. intros _. unfold maybe_update_term, term in Hu.
  destruct (N.ltb_spec (p_term (persistent c)) (msg_term m)); [|lia]. by injection Hu as _ <-.
Qed.

Lemma follower_commit f c e f' c' r :
  event_plain e → Follower.step f c e = Some (f', c', r) →
  (same_commit c c' ∧ quiet (effects r)) ∨ (transition r = Stay ∧ accepted c e c' (effects r)).
Proof.
  intros Hpl. destruct e as [|m|k]; cbn [Follower.step]; [| |done].
  { unfold Follower.handle_tick. intros [= H]. repeat case_match; simplify_eq; left; by split; [|constructor]. }
  unfold Follower.step_message. case_match.
  { intros H'. opt_inv. left. split; [done |]. unfold Follower.reject_due_to_active_leader.
    destruct (msg_payload m); by repeat constructor. }
  assert (∀ f1 c1 u r1, observe_term f c m = Some (f1, c1, u) →
    (if msg_term m <? term c1 then Some (f1, c1, stay (Follower.reject_stale c1 m))
     else let* (f, c, r) := Follower.dispatch f1 c1 m in
          Some (f, c, if u then mkStepResult (transition r) (with_persist (effects r)) else r)) = Some r1 →
    (same_commit c r1.1.2 ∧ quiet (effects r1.2)) ∨
    (transition r1.2 = Stay ∧ accepted c (EMessage m) r1.1.2 (effects r1.2))) as Hmain.
  { intros f1 c1 u r1 Hobs H1. destruct (observe_commit _ _ _ _ _ _ Hobs) as ([Hc1 Hc2] & Hlog & Hsame & Hup).
    destruct (N.ltb_spec (msg_term m) (term c1)).
    { opt_inv. left. split; [done |]. unfold Follower.reject_stale. destruct (msg_payload m); by repeat constructor. }
    opt_inv. assert (msg_term m = term c1) as Ht.
    { destruct (N.le_gt_cases (msg_term m) (term c)); [rewrite Hsame in * by done; lia | symmetry; auto]. }
    destruct (follower_dispatch_commit _ _ _ _ _ _ Hpl Ht E) as [[[H2 H3] H4]|[Hst Hacc]].
    - left. split; [split; cbn; congruence | by destruct u].
    - right. split; [by destruct u |]. destruct Hacc as (m' & q & [= <-] & [Hp Ht1 Ht2 Hprev Hl Ha Hci Hr]). rewrite Hlog, Hc1, Hc2 in *.
      exists m, q. split; [done |]. split; cbn; try done; [|by destruct u]. destruct (N.le_gt_cases (msg_term m) (term c)); [rewrite Hsame in * by done; lia | lia]. }
  destruct (msg_payload m) eqn:Hp; intros H'; opt_inv; try (exact (Hmain _ _ _ _ eq_refl H')).
  left. split; [done | by repeat constructor].
Qed.

Lemma precandidate_commit p c e p' c' r :
  PreCandidate.step p c e = Some (p', c', r) → same_commit c c' ∧ quiet (effects r).
Proof.
  destruct e as [|m|k]; simpl.
  - unfold PreCandidate.handle_tick. case_match; [|case_match]; intros H'; opt_inv; try by split; [|constructor].
    destruct (random_commit _ _ _ E) as [? _]. by split; [|constructor].
  - unfold PreCandidate.step_message. case_match.
    { intros H'. opt_inv. split; [done |]. unfold PreCandidate.deny_vote. destruct (msg_payload m); by repeat constructor. }
    destruct (term c <? msg_term m).
    { destruct (maybe_update_term c (msg_term m)) as [u c1] eqn:Hu. intros H'. opt_inv.
      destruct (maybe_update_commit _ _ _ _ Hu) as [? _]. by split; [|constructor]. }
    destruct (msg_payload m) eqn:Hp; intros H'; opt_inv; try by split; [|repeat constructor].
    + unfold PreCandidate.handle_prevote_response in H'. destruct (term c <? pvr_term r0).
      * destruct (maybe_update_term c (pvr_term r0)) as [u c1] eqn:Hu. opt_inv.
        destruct (maybe_update_commit _ _ _ _ Hu) as [? _]. by split; [|constructor].
      * repeat case_match; opt_inv; by split; [|constructor].
    + unfold PreCandidate.handle_append_request in H'. opt_inv. by split; [|constructor].
  - intros [= <- <- <-]. by split; [|constructor].
Qed.

Lemma candidate_commit p c e p' c' r :
  Candidate.step p c e = Some (p', c', r) → same_commit c c' ∧ quiet (effects r).
Proof.
  destruct e as [|m|k]; simpl.
  - unfold Candidate.handle_tick. case_match; [|case_match]; intros H'; opt_inv; try by split; [|constructor].
    destruct (random_commit _ _ _ E) as [? _]. by split; [|constructor].
  - unfold Candidate.step_message. case_match.
    { intros H'. opt_inv. split; [done |]. unfold Candidate.deny_vote. destruct (msg_payload m); by repeat constructor. }
    intros [= H']. assert (Candidate.step_term p c m = (p', c', r) → same_commit c c' ∧ quiet (effects r)) as Hterm.
    { unfold Candidate.step_term. destruct (term c <? msg_term m).
      { destruct (maybe_update_term c (msg_term m)) as [u c1] eqn:Hu. intros H1. opt_inv.
        destruct (maybe_update_commit _ _ _ _ Hu) as [? _]. by split; [|constructor]. }
      destruct (msg_term m <? term c).
      { intros H1. opt_inv. split; [done |]. unfold Candidate.reject_stale. destruct (msg_payload m); by repeat constructor. }
      unfold Candidate.handle_vote_response, Candidate.handle_append_request, Candidate.handle_vote_request.
      destruct (msg_payload m); intros H1; repeat (case_match || opt_inv); by split; [|repeat constructor]. }
    destruct (msg_payload m) eqn:Hp; try by apply Hterm.
    opt_inv. by split; [|repeat constructor].
  - intros [= <- <- <-]. by split; [|constructor].
Qed.

(** ** Leaders *)

Lemma send_append_requests l c to l' e :
  send_append_to l c to = Some (l', e) → requests_ok c e ∧ match_index l' = match_index l.
Proof.
  unfold send_append_to. case_match; [intros [= <- <-]; by split; [constructor |] |]. intros H'. opt_inv.
  split; [by repeat constructor | by case_match].
Qed.

Lemma send_all_requests c ns : ∀ l e l' e',
  requests_ok c e → send_append_all l c ns e = Some (l', e') → requests_ok c e' ∧ match_index l' = match_index l.
Proof.
  induction ns as [|n ns IH]; intros l e l' e' He; cbn [send_append_all]; [by intros [= <- <-] |]. intros H. opt_inv.
  destruct (send_append_requests _ _ _ _ _ E) as [H1 H2].
  destruct (IH _ _ _ _ (requests_merge _ _ _ He H1) H) as [H3 H4]. split; [done | congruence].
Qed.

Lemma broadcast_requests l c l' e :
  broadcast_append l c = Some (l', e) → requests_ok c e ∧ match_index l' = match_index l.
Proof. apply send_all_requests. constructor. Qed.

(** The progress table changes only by an acknowledgement in the leader's term. *)
Definition table_step (c : Core) (e : Event) (l l' : Leader.Leader) : Prop :=
  ∀ v x, match_index l' !! v = Some x → match_index l !! v = Some x ∨
    ∃ m resp, e = EMessage m ∧ msg_from m = v ∧ msg_term m = term c ∧
      msg_payload m = PAppendResponse resp ∧ ar_success resp = true ∧ ar_last_log_index resp = x.

Record leader_commits (l : Leader.Leader) (c : Core) (e : Event) (l' : Leader.Leader) (c' : Core) (r : StepResult) : Prop := {
  lc_applied : last_applied c' = last_applied c;
  lc_requests : requests_ok c' (effects r);
  lc_commit : commit_index c' = commit_index c ∨
    (transition r = Stay ∧ commit_index c < commit_index c' ≤ last_index (log c') ∧
     can_commit l' c' (commit_index c') = true);
  lc_table : transition r = Stay → term c' = term c ∧ table_step c e l l';
  lc_quiet : transition r ≠ Stay → quiet (effects r)
}.

Lemma leader_commits_frame l c e l' c' eff :
  same_commit c c' → term c' = term c → match_index l' = match_index l → requests_ok c' eff →
  leader_commits l c e l' c' (stay eff).
Proof.
  intros [H1 H2] H3 H4 H5. split; [done | done | by left | | done]. intros _. split; [done |].
  intros v x. rewrite H4. by left.
Qed.

Lemma can_commit_frame l c l' c' j :
  match_index l' = match_index l → persistent c' = persistent c → can_commit l' c' j = can_commit l c j.
Proof.
  intros Hm Hp. unfold can_commit, effective_config, core_config_at, matched, term, log. by rewrite Hm, Hp.
Qed.

Lemma commit_and_continue_commits l c l' c' r e l0 :
  plain (log c) → commit_index c < u64_max → table_step c e l0 l → commit_and_continue l c = Some (l', c', r) →
  leader_commits l0 c e l' c' r.
Proof.
  intros Hp Hb Ht. unfold commit_and_continue. rewrite maybe_commit_plain by done. intros H. opt_inv.
  destruct (advance_commit_cases l c Hb) as (H1 & H2 & H3 & _). set (c1 := advance_commit_index l c) in *.
  assert (last_applied c1 = last_applied c) as Ha by (unfold c1, advance_commit_index; by case_match).
  split; [done | constructor | | | done].
  - destruct H3 as [->|[? Hc]]; [by left | right]. split; [done |]. unfold log at 1. rewrite H1. split; [done |].
    by rewrite (can_commit_frame l c).
  - intros _. split; [unfold term; by rewrite H1 | done].
Qed.

Lemma leader_append_commits l c m resp l' c' r :
  plain (log c) → commit_index c < u64_max → msg_term m = term c → msg_payload m = PAppendResponse resp →
  handle_append_response l c (msg_from m) resp = Some (l', c', r) → leader_commits l c (EMessage m) l' c' r.
Proof.
  intros Hp Hb Ht Hpl. unfold handle_append_response.
  destruct (is_member _ _); simpl; [|intros H; opt_inv; by apply leader_commits_frame; [..|constructor]].
  destruct (ar_success resp) eqn:Hs.
  - apply commit_and_continue_commits; [done | done |]. intros v x Hv.
    assert (<[msg_from m := ar_last_log_index resp]> (match_index l) !! v = Some x) as Hv'
      by (by destruct (pipelining (config c))).
    apply lookup_insert_Some in Hv' as [[<- <-]|[_ Hv']]; [right | by left]. exists m, resp. by split_and!.
  - intros H. opt_inv. apply send_append_requests in E as [? ?]. by apply leader_commits_frame.
Qed.

Lemma leader_commit l c e l' c' r :
  plain (log c) → commit_index c < u64_max → event_plain e → Leader.step l c e = Some (l', c', r) →
  leader_commits l c e l' c' r.
Proof.
  intros Hp Hb Hpl. destruct e as [|m|k]; cbn [Leader.step]; [| |done].
  { unfold Leader.handle_tick. case_match; [|intros [= <- <- <-]; by apply leader_commits_frame; [..|constructor]].
    intros H'. opt_inv. apply broadcast_requests in E as [Hr Hm]. apply leader_commits_frame; [done | done | done |].
    case_match; [|done]. apply requests_merge; [done |]. apply quiet_requests. unfold quiet. simpl.
    apply Forall_map, Forall_true. done. }
  assert (Leader.step_term l c m = Some (l', c', r) → leader_commits l c (EMessage m) l' c' r) as Hterm.
  { unfold Leader.step_term. destruct (term c <? msg_term m) eqn:Hlt.
    { destruct (maybe_update_term c (msg_term m)) as [u c1] eqn:Hu. intros H. opt_inv.
      destruct (maybe_update_commit _ _ _ _ Hu) as [[H1 H2] _]. split; [done | constructor | by left | done | constructor]. }
    destruct (N.ltb_spec (msg_term m) (term c)).
    { intros H'. opt_inv. apply leader_commits_frame; try done. apply quiet_requests.
      unfold Leader.reject_stale. destruct (msg_payload m); by repeat constructor. }
    apply N.ltb_ge in Hlt. cbn in Hpl. destruct (msg_payload m) eqn:Hpm; try done;
      try (intros H'; opt_inv; by apply leader_commits_frame; [..|constructor]).
    - apply leader_append_commits; [done | done | lia | done].
    - destruct (Leader.handle_read_index_response l (msg_from m) r0) as [l1 r1] eqn:Hr. intros H'. opt_inv.
      unfold Leader.handle_read_index_response in Hr.
      repeat case_match; simplify_eq; by apply leader_commits_frame; [..|constructor]. }
  unfold Leader.step_message. destruct (msg_payload m); try exact Hterm.
  intros H'. opt_inv. apply leader_commits_frame; try done. by repeat constructor.
Qed.

(** ** Transitions *)

#[export] Instance transition_eq_decision : EqDecision Transition.
Proof. solve_decision. Defined.

Definition fresh_table (c : Core) (l : Leader.Leader) : Prop :=
  ∀ v x, match_index l !! v = Some x → x = 0 ∨ (v = core_id c ∧ x = last_index (log c)).

(** What a transition does: the commit index stays, and a new leader starts with a
    fresh table. *)
Record turns (c : Core) (n' : RaftNode) (e : Effects) : Prop := {
  tu_commit : same_commit c (core n');
  tu_requests : requests_ok (core n') e;
  tu_table : ∀ l', role n' = RLeader l' → fresh_table (core n') l'
}.

Lemma become_leader_turns c n e : become_leader c = Some (n, e) → turns c n e.
Proof.
  unfold become_leader, Leader.new. set (l := mkLeader _ _ _ _ _ _ _).
  destruct (broadcast_append l c) as [[l1 e1]|] eqn:E; [|done]. intros [= <- <-].
  apply broadcast_requests in E as [Hr Hm]. split; [done | done |].
  intros l' [= <-] v x. rewrite Hm. simpl. intros Hv.
  assert (∀ y, insert_all (all_nodes (effective_config c)) 0 !! v = Some y → y = 0) as H0
    by (intros y; apply insert_all_lookup; by intros ???).
  destruct (parallel_disk_write (config c)); [left; by apply H0 |].
  apply lookup_insert_Some in Hv as [[<- <-]|[_ Hv]]; [by right | left; by apply H0].
Qed.

Lemma turns_merge c1 c2 n' e1 e2 : same_commit c1 c2 → quiet e1 → turns c2 n' e2 → turns c1 n' (merge e1 e2).
Proof.
  intros [H1 H2] Hq [[H3 H4] H5 H6]. split; [split; congruence | | done]. apply requests_merge; [by apply quiet_requests | done].
Qed.

Lemma candidate_new_quiet c p c' e : Candidate.new c = Some (p, c', e) → same_commit c c' ∧ quiet e.
Proof.
  unfold Candidate.new. intros H. opt_inv. apply random_commit in E as [[? ?] _].
  case_match; opt_inv; (split; [done |]); [constructor |]. apply Forall_map, Forall_true. done.
Qed.

Lemma become_candidate_turns c n e : become_candidate c = Some (n, e) → turns c n e.
Proof.
  unfold become_candidate. intros H. opt_inv. apply candidate_new_quiet in E as [Hc Hq]. case_match; opt_inv.
  - eapply turns_merge; [done | done | by apply become_leader_turns].
  - split; [done | by apply quiet_requests | done].
Qed.

Lemma become_precandidate_turns c n e : become_precandidate c = Some (n, e) → turns c n e.
Proof.
  unfold become_precandidate. intros H. opt_inv.
  assert (same_commit c c0 ∧ quiet e0) as [Hc Hq].
  { clear H. unfold PreCandidate.new in E. opt_inv. apply random_commit in E0 as [[? ?] _].
    case_match; opt_inv; (split; [done |]); [constructor |]. apply Forall_map, Forall_true. done. }
  case_match; opt_inv.
  - eapply turns_merge; [done | done | by apply become_candidate_turns].
  - split; [done | by apply quiet_requests | done].
Qed.

Lemma apply_transition_turns n t n' e : t ≠ Stay → apply_transition n t = Some (n', e) → turns (core n) n' e.
Proof.
  intros Ht. destruct t; cbn [apply_transition]; [done | ..]; intros H.
  - opt_inv. unfold become_follower in E. opt_inv. destruct (follower_new_frame _ _ _ _ E0) as [r ->].
    by split; [|constructor|].
  - unfold after_leader_contact in H. opt_inv. destruct (follower_new_frame _ _ _ _ E0) as [r ->].
    by split; [|constructor|].
  - by apply become_precandidate_turns.
  - by apply become_candidate_turns.
  - by apply become_leader_turns.
Qed.

(** ** The node *)

Record node_commits (n : RaftNode) (e : Event) (n' : RaftNode) (eff : Effects) : Prop := {
  nc_applied : last_applied (core n') = last_applied (core n);
  nc_commit :
    (requests_ok (core n') eff ∧
     (commit_index (core n') = commit_index (core n) ∨
      ∃ l', role n' = RLeader l' ∧ commit_index (core n) < commit_index (core n') ≤ last_index (log (core n')) ∧
            can_commit l' (core n') (commit_index (core n')) = true)) ∨
    accepted (core n) e (core n') eff;
  nc_table : ∀ l', role n' = RLeader l' →
    fresh_table (core n') l' ∨
    ∃ l, role n = RLeader l ∧ term (core n') = term (core n) ∧ table_step (core n) e l l'
}.

Lemma turns_commits n e c1 n' eff eff' :
  same_commit (core n) c1 → quiet eff → turns c1 n' eff' → node_commits n e n' (merge eff eff').
Proof.
  intros Hs Hq Ht. destruct (turns_merge _ _ _ _ _ Hs Hq Ht) as [[? ?] ? ?]. split; [done | left; auto | auto].
Qed.

Lemma step_event_commits n e n' eff :
  plain (log (core n)) → commit_index (core n) < u64_max → event_plain e → step_event n e = Some (n', eff) →
  node_commits n e n' eff.
Proof.
  intros Hp Hb Hpl. unfold step_event. intros H. opt_inv.
  assert (transition s = Stay → n' = r ∧ eff = effects s) as Hstay by (intros Ht; rewrite Ht in H; by opt_inv).
  assert (transition s ≠ Stay → ∃ e2, turns (core r) n' e2 ∧ eff = merge (effects s) e2) as Hturn.
  { intros Ht. destruct (transition s) eqn:E'; [done | ..]; opt_inv; eexists; (split; [by eapply apply_transition_turns |]); done. }
  clear H. unfold role_step in E.
  assert (∀ c1, same_commit (core n) c1 ∧ quiet (effects s) → core r = c1 → role_is_leader (role r) = false →
            node_commits n e n' eff) as Hquiet.
  { intros c1 [Hc Hq] <- Hnl. destruct (decide (transition s = Stay)) as [Ht|Ht].
    - destruct (Hstay Ht) as [-> ->]. destruct Hc as [? ?]. split; [done | left; auto with commits |].
      intros l' Hl'. by rewrite Hl' in Hnl.
    - destruct (Hturn Ht) as (e2 & Htu & ->). by eapply turns_commits. }
  destruct (role n) as [f|p|p|l] eqn:Hr.
  - destruct (Follower.step f (core n) e) as [[[f1 c1] s1]|] eqn:E0; [injection E as <- <- | done].
    destruct (follower_commit _ _ _ _ _ _ Hpl E0) as [Hq|[Ht Hacc]]; [by eapply Hquiet |].
    destruct (Hstay Ht) as [-> ->]. split; [by destruct Hacc as (m & q & _ & []) | by right | done].
  - destruct (PreCandidate.step p (core n) e) as [[[p1 c1] s1]|] eqn:E0; [injection E as <- <- | done].
    eapply Hquiet; [by eapply precandidate_commit | done | done].
  - destruct (Candidate.step p (core n) e) as [[[p1 c1] s1]|] eqn:E0; [injection E as <- <- | done].
    eapply Hquiet; [by eapply candidate_commit | done | done].
  - destruct (Leader.step l (core n) e) as [[[l1 c1] s1]|] eqn:E0; [injection E as <- <- | done].
    destruct (leader_commit _ _ _ _ _ _ Hp Hb Hpl E0) as [La Lr Lc Lt Lq].
    destruct (decide (transition s1 = Stay)) as [Ht|Ht].
    + destruct (Hstay Ht) as [-> ->]. split; [done | left; split; [done |] |].
      * destruct Lc as [|(_ & ? & ?)]; [by left | right]. eexists. split; [reflexivity | done].
      * intros l' [= <-]. right. exists l. destruct (Lt Ht). by split_and!.
    + destruct (Hturn Ht) as (e2 & Htu & ->). eapply turns_commits; [split; [|exact La] | by apply Lq | exact Htu].
      destruct Lc as [|(? & _)]; done.
Qed.

(** A proposal: the leader's table gets its own new index. *)
Lemma node_propose_commits n cmd n' k eff :
  plain (log (core n)) → log_wf (log (core n)) → commit_index (core n) < u64_max →
  last_index (log (core n)) + 1 < u64_max →
  node_propose n cmd = Some (n', inr (k, eff)) →
  last_applied (core n') = last_applied (core n) ∧ requests_ok (core n') eff ∧
  (∃ l l', role n = RLeader l ∧ role n' = RLeader l' ∧ term (core n') = term (core n) ∧
     core_id (core n') = core_id (core n) ∧
     (∀ v x, match_index l' !! v = Some x → match_index l !! v = Some x ∨
        (v = core_id (core n) ∧ x = last_index (log (core n')))) ∧
     (commit_index (core n') = commit_index (core n) ∨
      commit_index (core n) < commit_index (core n') ≤ last_index (log (core n')) ∧
      can_commit l' (core n') (commit_index (core n')) = true)).
Proof.
  intros Hp Hw Hb Hl. unfold node_propose. destruct (role n) as [| | |l] eqn:Hr; try done.
  destruct (proposal_limit_exceeded _ _) as [[]|]; [done | | done].
  unfold Leader.propose. rewrite (u64_add_small (last_index (log (core n))) 1) by ulia.
  set (x := mkEntry _ _ _). set (c1 := set_log (core n) (append (log (core n)) x)). set (l1 := if negb _ then _ else l).
  assert (plain (log c1)) as Hp1.
  { destruct Hp as [Hp1 Hp2]. split; [|done]. apply Forall_app_2; [done | by repeat constructor]. }
  rewrite maybe_commit_plain by done. destruct (advance_commit_cases l1 c1 Hb) as (H1 & H2 & H3 & _).
  set (c2 := advance_commit_index l1 c1) in *.
  destruct (broadcast_append l1 c2) as [[l2 e2]|] eqn:E; [|done]. intros [= <- _ <-]. cbn [core role].
  apply broadcast_requests in E as [Hq Hm].
  assert (last_applied c2 = last_applied (core n)) as Ha by (unfold c2, advance_commit_index; by case_match).
  assert (last_index (log c2) = last_index (log (core n)) + 1) as Hlast
    by (unfold log at 1; rewrite H1; unfold c1; cbn; by rewrite last_index_append).
  split_and!; [done | rewrite merge_none_r; exact Hq |]. exists l, l2.
  split_and!; [done | done | unfold term; by rewrite H1 | unfold core_id; by rewrite H2 | |].
  - intros v y. rewrite Hm. unfold l1. destruct (negb _); [|by left]. cbn.
    intros [[<- <-]|[_ Hv]]%lookup_insert_Some; [right; split; [done | by rewrite Hlast] | by left].
  - destruct H3 as [->|[? Hc]]; [by left | right]. split; [change (commit_index (core n)) with (commit_index c1); unfold log at 1; by rewrite H1 |].
    rewrite (can_commit_frame l2 c1) by done. unfold can_commit, matched in *. by rewrite Hm.
Qed.
