(* ===== verification/Progress.v ===== *)
(** * The node does not panic

    Every operation of a [RaftNode] that represents a node of the abstract cluster
    returns: elections draw their timeouts from a non-empty interval, and no slice of
    a log is out of range. Cluster.v lifts this to executions. The exception is the
    assertion of [proposal_limit_exceeded] that the commit index lies within the log. *)

From S2P Require Import Prelude BTree Membership Log Event Core Role.
From S2P Require Import Follower PreCandidate Candidate Leader Commit Node Raft Refine.

Open Scope N_scope.

(** The interval of election timeouts is not empty. *)
Definition timeouts_ok (g : Config) : Prop := (election_timeout g).2 -u (election_timeout g).1 ≠ 0.

Lemma random_total c :
  timeouts_ok (config c) → ∃ t c', random_election_timeout c = Some (t, c') ∧ config c' = config c ∧ persistent c' = persistent c.
Proof.
  unfold timeouts_ok, random_election_timeout, rand. destruct (election_timeout (config c)) as [mn mx]. cbn.
  intros H%N.eqb_neq. rewrite H. by eexists _, _.
Qed.

Lemma reset_deadline_total f c :
  timeouts_ok (config c) → ∃ f' c', reset_deadline f c = Some (f', c') ∧ config c' = config c.
Proof.
  intros H. destruct (random_total c H) as (t & c' & E & Hc & _). unfold reset_deadline. rewrite E. by eexists _, _.
Qed.

Lemma maybe_update_term_config c t u c' : maybe_update_term c t = (u, c') → config c' = config c.
Proof. unfold maybe_update_term. case_match; by intros [= <- <-]. Qed.

Lemma observe_term_total f c m :
  timeouts_ok (config c) → ∃ f' c' u, observe_term f c m = Some (f', c', u) ∧ config c' = config c.
Proof.
  intros H. unfold observe_term. case_match; [|by eexists _, _, _].
  destruct (maybe_update_term c (msg_term m)) as [u c1] eqn:E. apply maybe_update_term_config in E.
  destruct (reset_deadline_total f c1 ltac:(by rewrite E)) as (f2 & c2 & -> & Hc). eexists _, _, _. split; [done | congruence].
Qed.

Lemma dispatch_total f c m : timeouts_ok (config c) → ∃ x, dispatch f c m = Some x.
Proof.
  intros H. unfold dispatch. destruct (msg_payload m); try by eexists.
  - unfold Follower.handle_vote_request. destruct (_ && _); [|by eexists].
    by destruct (reset_deadline_total f (vote_for c (msg_from m)) H) as (f2 & c2 & -> & _); eexists.
  - unfold Follower.handle_append_request.
    destruct (reset_deadline_total (record_contact (set_leader f (Some (msg_from m))) c) c H) as (f2 & c2 & -> & _).
    repeat case_match; by eexists.
  - unfold handle_install_snapshot.
    destruct (reset_deadline_total (record_contact (set_leader f (Some (msg_from m))) c) c H) as (f2 & c2 & -> & _).
    repeat case_match; by eexists.
  - unfold handle_read_index_request.
    destruct (reset_deadline_total (record_contact (set_leader f (Some (msg_from m))) c) c H) as (f2 & c2 & -> & _).
    by eexists.
Qed.

Lemma follower_total f c e : timeouts_ok (config c) → ∃ x, Follower.step f c e = Some x.
Proof.
  intros H. destruct e as [|m|k]; cbn [Follower.step]; [by eexists | | by eexists].
  unfold Follower.step_message. case_match; [by eexists |].
  destruct (observe_term_total f c m H) as (f1 & c1 & u & E & Hc). rewrite E.
  destruct (dispatch_total f1 c1 m ltac:(by rewrite Hc)) as [[[f2 c2] r] E2].
  destruct (msg_payload m); try (case_match; [by eexists |]; rewrite E2); by eexists.
Qed.

Lemma precandidate_total p c e : timeouts_ok (config c) → ∃ x, PreCandidate.step p c e = Some x.
Proof.
  intros H. destruct e as [|m|k]; cbn [PreCandidate.step]; [| by eexists | by eexists].
  unfold PreCandidate.handle_tick. case_match; [|case_match; by eexists].
  by destruct (random_total (set_ticks c (ticks c +u 1)) H) as (t & c' & -> & _); eexists.
Qed.

Lemma candidate_total p c e : timeouts_ok (config c) → ∃ x, Candidate.step p c e = Some x.
Proof.
  intros H. destruct e as [|m|k]; cbn [Candidate.step]; [| by eexists | by eexists].
  unfold Candidate.handle_tick. case_match; [|case_match; by eexists].
  by destruct (random_total (set_ticks c (ticks c +u 1)) H) as (t & c' & -> & _); eexists.
Qed.

(** ** Transitions *)

Lemma follower_new_total c l : timeouts_ok (config c) → ∃ f c', Follower.new c l = Some (f, c').
Proof. intros H. unfold Follower.new. destruct (random_total c H) as (t & c' & -> & _). by eexists _, _. Qed.

Lemma become_leader_total c : log_wf (log c) → ∃ x, become_leader c = Some x.
Proof.
  intros Hw. unfold become_leader, Leader.new, broadcast_append. set (l := mkLeader _ _ _ _ _ _ _).
  destruct (send_append_all_total c (replication_peers (effective_config c) (core_id c)) Hw l none)
    as (l' & e & -> & _); [|by eexists].
  intros n v Hv. cbn in Hv. apply insert_all_lookup in Hv; [|by intros ? ? ?]. subst v. apply u64_add_lt.
Qed.

Lemma candidate_new_total c :
  timeouts_ok (config c) → ∃ p c' e, Candidate.new c = Some (p, c', e) ∧ log c' = log c.
Proof.
  intros H. unfold Candidate.new. destruct (random_total (start_election c) H) as (t & c' & -> & _ & Hp).
  assert (log c' = log c) by (unfold log; by rewrite Hp). case_match; by eexists _, _, _.
Qed.

Lemma precandidate_new_total c :
  timeouts_ok (config c) →
  ∃ p c' e, PreCandidate.new c = Some (p, c', e) ∧ log c' = log c ∧ config c' = config c.
Proof.
  intros H. unfold PreCandidate.new. destruct (random_total c H) as (t & c' & -> & Hc & Hp).
  assert (log c' = log c) by (unfold log; by rewrite Hp). case_match; by eexists _, _, _.
Qed.

Lemma become_candidate_total c : log_wf (log c) → timeouts_ok (config c) → ∃ x, become_candidate c = Some x.
Proof.
  intros Hw H. unfold become_candidate. destruct (candidate_new_total c H) as (p & c' & e & -> & Hl).
  case_match; [|by eexists].
  destruct (become_leader_total c' ltac:(by rewrite Hl)) as [[n e'] ->]. by eexists.
Qed.

Lemma become_precandidate_total c : log_wf (log c) → timeouts_ok (config c) → ∃ x, become_precandidate c = Some x.
Proof.
  intros Hw H. unfold become_precandidate. destruct (precandidate_new_total c H) as (p & c' & e & -> & Hl & Hc).
  case_match; [|by eexists].
  destruct (become_candidate_total c' ltac:(by rewrite Hl) ltac:(by rewrite Hc)) as [[n e'] ->]. by eexists.
Qed.

Lemma apply_transition_total n t :
  log_wf (log (core n)) → timeouts_ok (config (core n)) → ∃ x, apply_transition n t = Some x.
Proof.
  intros Hw H. destruct t as [|l|l| | |]; cbn [apply_transition].
  - by eexists.
  - unfold become_follower. destruct (follower_new_total (core n) l H) as (f & c & ->). by eexists.
  - unfold after_leader_contact. destruct (follower_new_total (core n) l H) as (f & c & ->). by eexists.
  - by apply become_precandidate_total.
  - by apply become_candidate_total.
  - by apply become_leader_total.
Qed.

(** ** Operations in a cluster *)

Section Total.

Context (cfg : Configuration) (B : N) (HB : B + 1 < u64_max) (i : NodeId).

Lemma role_step_total a n e :
  ainv cfg B a → represents cfg i a n → event_in i (a_net a) e → timeouts_ok (config (core n)) →
  ∃ n' r, role_step n e = Some (n', r).
Proof.
  intros Hinv Hrep Hin H. unfold role_step. destruct (role n) as [f|p|p|l] eqn:Hr.
  - destruct (follower_total f (core n) e H) as [[[f' c'] r] ->]. by eexists _, _.
  - destruct (precandidate_total p (core n) e H) as [[[f' c'] r] ->]. by eexists _, _.
  - destruct (candidate_total p (core n) e H) as [[[f' c'] r] ->]. by eexists _, _.
  - assert (B < u64_max) as HB' by lia. pose proof (represents_core_ok cfg i B a n HB' Hinv Hrep) as Hok.
    pose proof Hinv as [_ _ Hlog Hbd]. pose proof (rp_role _ _ _ _ Hrep) as Hrole. rewrite Hr in Hrole.
    destruct (leader_step_ok cfg B HB' i (a_net a) (ib_net _ _ Hbd) (ib_install _ _ Hbd) (h_links a)
                (ib_ack _ _ Hbd) l (core n) e Hok Hrole Hin) as (l' & c' & r & ra & -> & _). by eexists _, _.
Qed.

Lemma step_event_total a n e :
  ainv cfg B a → represents cfg i a n → event_in i (a_net a) e → timeouts_ok (config (core n)) →
  ∃ n' eff, step_event n e = Some (n', eff).
Proof.
  intros Hinv Hrep Hin H. assert (B < u64_max) as HB' by lia.
  destruct (role_step_total a n e Hinv Hrep Hin H) as (n1 & r & E). unfold step_event. rewrite E.
  pose proof (represents_core_ok cfg i B a n HB' Hinv Hrep) as Hok. pose proof Hinv as [_ _ Hlog Hbd].
  destruct (role_step_ok cfg B HB' i (a_net a) (ib_net _ _ Hbd) (ib_prevote _ _ Hbd) (ib_install _ _ Hbd)
              (h_links a) (ig_net _ _ Hlog) (ib_ack _ _ Hbd) n e n1 r Hok (rp_role _ _ _ _ Hrep) Hin E)
    as (_ & ra & Hev & _).
  destruct (evolves_lift cfg B HB i B a n _ _ _ HB' Hinv (rp_abs _ _ _ _ Hrep) Hev) as (a1 & Hinv1 & _ & Hi1 & _).
  pose proof (ig_log _ _ (ai_log _ _ _ Hinv1) i) as Hl. rewrite Hi1 in Hl. destruct Hl as [Hw _ _ _].
  destruct (apply_transition_total n1 (transition r) Hw) as [[n2 e2] Hat].
  { by rewrite (ev_config _ _ _ _ _ _ _ _ _ Hev). }
  destruct (transition r); rewrite ?Hat; by eexists _, _.
Qed.

(** The assertion of [proposal_limit_exceeded]. *)
Definition commit_in_log (n : RaftNode) : Prop := commit_index (core n) ≤ last_index (log (core n)).

Lemma proposal_limit_total c cmd :
  log_wf (log c) → commit_index c ≤ last_index (log c) → ∃ b, proposal_limit_exceeded c cmd = Some b.
Proof.
  intros Hw Hc. pose proof (last_index_bound _ Hw). unfold proposal_limit_exceeded. apply N.leb_le in Hc as ->.
  rewrite slice_eq by (done || apply u64_add_lt || ulia). case_match; by eexists.
Qed.

Lemma node_propose_total a n cmd :
  ainv cfg B a → represents cfg i a n → (is_leader n = true → commit_in_log n) →
  ∃ n' res, node_propose n cmd = Some (n', res).
Proof.
  intros Hinv Hrep Hc. unfold node_propose. destruct (role n) as [f|p|p|l] eqn:Hr; try by eexists _, _.
  assert (B < u64_max) as HB' by lia. pose proof (ainv_mono cfg B (B + 1) a ltac:(lia) Hinv) as Hinv'.
  pose proof (represents_core_ok cfg i (B + 1) a n HB Hinv' Hrep) as Hok.
  pose proof (core_ok_last _ _ HB' _ _ _ (represents_core_ok cfg i B a n HB' Hinv Hrep)) as Hlast.
  destruct (proposal_limit_total (core n) cmd) as [b ->].
  { by eapply core_ok_wf. } { apply Hc. unfold is_leader. by rewrite Hr. }
  destruct b; [by eexists _, _ |]. pose proof (rp_role _ _ _ _ Hrep) as Hl. rewrite Hr in Hl.
  assert (a_role (a_nodes a i) = ALeader) as Har by (rewrite (rp_abs _ _ _ _ Hrep); unfold abs_node; by rewrite Hr).
  apply (il_role _ _ (ai_lead _ _ _ Hinv)), (il_term _ _ (ai_lead _ _ _ Hinv)) in Har.
  rewrite (rp_abs _ _ _ _ Hrep) in Har. simpl in Har.
  destruct (leader_propose_ok cfg (B + 1) HB i (a_net a) (h_links a) l (core n) cmd Hok) as (l' & c' & e & -> & _);
    [lia | lia | done |]. by eexists _, _.
Qed.

End Total.

(** ** The limits on proposals *)

(** The entries of the log beyond the commit index, and the size of their commands. *)
Definition uncommitted (c : Core) : list Entry :=
  drop (N.to_nat (commit_index c - snapshot_index (log c))) (entries (log c)).

Definition total_bytes (sizes : list N) : N := fold_right N.add 0 sizes.

Lemma try_fold_add_total sizes : ∀ t,
  t < u64_modulus →
  try_fold_add t sizes = if t + total_bytes sizes <? u64_modulus then Some (t + total_bytes sizes) else None.
Proof.
  induction sizes as [|b sizes IH]; intros t Ht; simpl.
  { rewrite N.add_0_r. by rewrite (proj2 (N.ltb_lt _ _) Ht). }
  unfold u64_checked_add. destruct (N.ltb_spec (t + b) u64_modulus); [by rewrite IH, N.add_assoc |].
  by rewrite (proj2 (N.ltb_ge _ _)) by lia.
Qed.

Lemma total_bytes_app l l' : total_bytes (l ++ l') = total_bytes l + total_bytes l'.
Proof. induction l as [|b l IH]; simpl; [done |]. lia. Qed.

(** [proposal_limit_exceeded], decided on the uncommitted entries. *)
Lemma proposal_limit_spec c cmd :
  log_wf (log c) → snapshot_index (log c) ≤ commit_index c ≤ last_index (log c) →
  max_uncommitted_bytes (config c) < u64_modulus →
  vlen (uncommitted c) = last_index (log c) - commit_index c ∧
  proposal_limit_exceeded c cmd = Some (
    (max_uncommitted_entries (config c) <=? last_index (log c) - commit_index c)
    || (max_uncommitted_bytes (config c) <?
          total_bytes (omap command_bytes (uncommitted c)) + vlen (cmd_bytes cmd))).
Proof.
  intros Hw Hc Hm. pose proof (last_index_bound _ Hw) as Hb. pose proof (last_index_eq _ Hw) as Hl.
  assert (vlen (uncommitted c) = last_index (log c) - commit_index c) as Hu.
  { unfold vlen, uncommitted. rewrite length_drop. lia. }
  split; [done |]. unfold proposal_limit_exceeded. rewrite (proj2 (N.leb_le _ _)) by lia.
  rewrite u64_add_small by ulia. rewrite slice_eq by (done || ulia).
  replace (take _ _) with (uncommitted c); cycle 1.
  { unfold uncommitted. rewrite N.max_l, N.min_id by lia.
    replace (commit_index c + 1 - snapshot_index (log c) - 1) with (commit_index c - snapshot_index (log c)) by lia.
    rewrite take_ge; [done |]. rewrite length_drop. lia. }
  cbn. rewrite Hu. destruct (_ <=? _); [done |]. simpl. f_equal.
  rewrite try_fold_add_total by done. rewrite N.add_0_l, total_bytes_app. simpl. rewrite N.add_0_r.
  destruct (N.ltb_spec (total_bytes (omap command_bytes (uncommitted c)) + vlen (cmd_bytes cmd)) u64_modulus); [done |].
  symmetry. apply N.ltb_lt. lia.
Qed.

Lemma leader_propose_index l c cmd l' c' k e b :
  last_index (log c) < u64_max → Leader.propose l c cmd = Some (l', c', k, e, b) → k = last_index (log c) + 1.
Proof.
  unfold Leader.propose. intros Hl H. rewrite u64_add_small in H by ulia.
  destruct (maybe_commit _ _) as [[[[l1 c1] e1] b1]|]; [|done]. by destruct (broadcast_append _ _) as [[l2 e2]|]; simplify_eq.
Qed.

(** C26: admission. A proposal to a leader is refused exactly when the uncommitted entries
    are at their limit or the command would take their commands over the limit in bytes;
    then nothing changes. A proposal that is accepted gets the next index, which is at most
    [max_uncommitted_entries] beyond the commit index, and the uncommitted commands with it
    have at most [max_uncommitted_bytes] bytes. *)
Theorem proposals_bounded n l cmd n' res :
  let c := core n in
  let bytes := total_bytes (omap command_bytes (uncommitted c)) + vlen (cmd_bytes cmd) in
  role n = RLeader l → log_wf (log c) → snapshot_index (log c) ≤ commit_index c ≤ last_index (log c) →
  max_uncommitted_bytes (config c) < u64_modulus →
  node_propose n cmd = Some (n', res) →
  match res with
  | inl e => e = Throttled ∧ n' = n ∧
      (max_uncommitted_entries (config c) ≤ last_index (log c) - commit_index c ∨ max_uncommitted_bytes (config c) < bytes)
  | inr (k, _) => k = last_index (log c) + 1 ∧
      k - commit_index c ≤ max_uncommitted_entries (config c) ∧ bytes ≤ max_uncommitted_bytes (config c)
  end.
Proof.
  intros c bytes Hr Hw Hc Hm. unfold node_propose. rewrite Hr. fold c. pose proof (last_index_bound _ Hw).
  rewrite (proj2 (proposal_limit_spec c cmd Hw Hc Hm)). fold bytes. simpl.
  destruct (N.leb_spec (max_uncommitted_entries (config c)) (last_index (log c) - commit_index c)); simpl;
    [intros [= <- <-]; auto |].
  destruct (N.ltb_spec (max_uncommitted_bytes (config c)) bytes); [intros [= <- <-]; auto |].
  destruct (Leader.propose l c cmd) as [[[[[l1 c1] k] e] b]|] eqn:E; [|done].
  apply leader_propose_index in E as ->; [|lia]. destruct (step_down_if _ _ _); [|done]. intros [= <- <-].
  split_and!; [done | lia | done].
Qed.

(** A leader of a group of two that admits two uncommitted entries with four bytes. *)
Definition limited_leader (es : list Entry) : RaftNode :=
  let cfg := mkConfig 1 (150, 300) 75 100 2 4 SingleServer true true true in
  mkRaftNode (mkCore cfg (mkPersistent 1 (Some 1) (mkLog es 0 0 None) (simple [1; 2])) 0 0 0 7)
    (RLeader (mkLeader ∅ ∅ 0 ∅ 0 None 0)).

(** With one entry of two bytes in the log, a command of one byte is admitted at index 2. *)
Lemma proposals_bounded_witness :
  let n := limited_leader [mkEntry 1 1 (PCommand (mkCommand [Byte.x61; Byte.x62]))] in
  ∃ n' e, node_propose n (mkCommand [Byte.x63]) = Some (n', inr (2, e)) ∧ 2 - commit_index (core n) ≤ 2.
Proof.
  intros n. destruct (node_propose n (mkCommand [Byte.x63])) as [[n' [err|[k e]]]|] eqn:E; [vm_compute in E; discriminate E | |
    vm_compute in E; discriminate E].
  assert (k = 2) as -> by (vm_compute in E; congruence).
  exists n', e. split; [reflexivity |].
  refine (proj1 (proj2 (proposals_bounded n (mkLeader ∅ ∅ 0 ∅ 0 None 0) _ n' (inr (2, e)) eq_refl _ _ _ E))).
  - split; [|reflexivity]. intros [|k] x Hx; simpl in Hx; simplify_eq; reflexivity.
  - split; vm_compute; discriminate.
  - reflexivity.
Defined.
