(* ===== verification/Round.v ===== *)
(** * A round of replication

    What the roles do together when nothing is lost: a leader takes a command, its
    followers store the entry and acknowledge it, and the leader commits it. The
    theorem composes [RaftNode::propose] with the steps of follower and leader of
    raft/follower.rs and raft/leader.rs, for every log of commands, every command and
    every quorum of followers that are up to date. *)

From S2P Require Import Prelude BTree Membership Log Event Core Role Follower Leader Commit Node Raft Refine.
From S2P Require Import CommitSteps Progress.

Open Scope N_scope.

(** A node receives messages, one after the other. *)
Fixpoint receive (n : RaftNode) (ms : list Message) : option RaftNode :=
  match ms with
  | [] => Some n
  | m :: ms => let* (n, _) := node_step n m in receive n ms
  end.

(** The leader's own disk has the entry [k]: with parallel writes the caller reports it,
    otherwise the caller writes before it sends. *)
Definition stored (n : RaftNode) (k : LogIndex) : option RaftNode :=
  if parallel_disk_write (config (core n))
  then let* (n, _) := disk_write_complete n k in Some n
  else Some n.

(** The request that brings a follower with the log [lg] the entry [e]. *)
Definition request (c : Core) (lg : Log) (e : Entry) (to : NodeId) : Message :=
  mkMessage (core_id c) to (term c)
    (PAppendRequest (mkAppendRequest (last_index lg) (term_at lg (last_index lg)) [e] (commit_index c))).

(** A follower with the log of the leader [n], which [l] knows. *)
Record caught_up (n : RaftNode) (l : Leader.Leader) (f : RaftNode) : Prop := {
  cu_role : is_follower f = true;
  cu_term : term (core f) = term (core n);
  cu_log : log (core f) = log (core n);
  cu_peer : core_id (core f) ∈ replication_peers (effective_config (core n)) (core_id (core n));
  cu_next : next_index l !! core_id (core f) = Some (last_index (log (core n)) + 1);
  cu_timeouts : timeouts_ok (config (core f))
}.

(** The acknowledgement of [f] is [r]: it has stored the log [lg]. *)
Definition acknowledges (lg : Log) (sent : list Message) (f : RaftNode) (r : Message) : Prop :=
  ∃ m f' e, m ∈ sent ∧ msg_to m = core_id (core f) ∧ node_step f m = Some (f', e) ∧
    log (core f') = lg ∧ persist e = true ∧ messages e = [r] ∧
    msg_from r = core_id (core f) ∧ msg_term r = term (core f) ∧
    msg_payload r = PAppendResponse (mkAppendResponse true (last_index lg)).

(** ** Sending *)

Section Send.

Context (c : Core) (lg : Log) (e : Entry) (q : NodeId).
Context (Hw : log_wf lg) (He : e_index e = last_index lg + 1) (Hb : e_index e < u64_max) (Hlog : log c = append lg e).
Context (Hmax : 1 ≤ max_entries_per_msg (config c)).

Lemma slice_new n : last_index lg + 1 ≤ n → n < u64_modulus → slice (log c) (last_index lg + 1) n = Some [e].
Proof.
  intros Hn Hm. pose proof (append_wf lg e Hw He Hb) as Hw'. pose proof (last_index_eq lg Hw) as Hl.
  rewrite Hlog, slice_eq by (done || ulia). rewrite last_index_append, He. cbn [append snapshot_index entries].
  f_equal. replace (N.max (last_index lg + 1) (snapshot_index lg + 1)) with (last_index lg + 1) by lia.
  replace (N.to_nat (last_index lg + 1 - snapshot_index lg - 1)) with (length (entries lg)) by lia.
  rewrite drop_app_length. by replace (N.to_nat _) with 1%nat by lia.
Qed.

Lemma previous_term :
  (if (last_index lg <=? snapshot_index (log c)) && (0 <? last_index lg)
   then snapshot_term (log c) else term_at (log c) (last_index lg)) = term_at lg (last_index lg).
Proof.
  pose proof (last_index_bound lg Hw). pose proof (append_wf lg e Hw He Hb).
  rewrite Hlog, !term_at_get by (done || ulia). rewrite get_append by (done || ulia).
  cbn [append snapshot_index snapshot_term].
  destruct (N.leb_spec (last_index lg) (snapshot_index lg)), (N.ltb_spec 0 (last_index lg)),
    (N.eqb_spec (last_index lg) 0), (N.eqb_spec (last_index lg) (snapshot_index lg)),
    (N.eqb_spec (last_index lg) (last_index lg + 1)); cbn; done || lia.
Qed.

Lemma send_caught_up l :
  last_index lg + 1 + max_entries_per_msg (config c) < u64_modulus →
  next_index l !! q = Some (last_index lg + 1) →
  ∃ l', send_append_to l c q = Some (l', with_message none (request c lg e q)).
Proof.
  intros Hm Hq. pose proof (last_index_bound lg Hw). unfold send_append_to. rewrite Hq.
  change (default 1 (Some (last_index lg + 1))) with (last_index lg + 1).
  assert (snapshot_index (log c) = snapshot_index lg) as Hs by (by rewrite Hlog).
  destruct (N.leb_spec (last_index lg + 1) (snapshot_index (log c))); [lia |].
  replace (u64_saturating_sub (last_index lg + 1) 1) with (last_index lg) by (unfold u64_saturating_sub; lia).
  rewrite previous_term.
  replace (last_index (log c)) with (last_index lg + 1) by (by rewrite Hlog, last_index_append).
  rewrite !u64_add_small, slice_new by ulia. by eexists.
Qed.

End Send.

Lemma send_append_frame l c p l' e :
  send_append_to l c p = Some (l', e) →
  match_index l' = match_index l ∧ ∀ q, q ≠ p → next_index l' !! q = next_index l !! q.
Proof.
  unfold send_append_to. case_match; intros H'; opt_inv; [done |].
  case_match; [|done]. split; [done |]. intros q Hq. cbn. by rewrite lookup_insert_ne.
Qed.

(** Every peer that is up to date is sent the new entry. *)
Lemma send_all_caught_up c lg e ps :
  log_wf lg → e_index e = last_index lg + 1 → e_index e < u64_max → log c = append lg e →
  1 ≤ max_entries_per_msg (config c) → last_index lg + 1 + max_entries_per_msg (config c) < u64_modulus →
  ∀ l eff l' eff', send_append_all l c ps eff = Some (l', eff') →
  match_index l' = match_index l ∧ (∀ m, m ∈ messages eff → m ∈ messages eff') ∧
  ∀ q, q ∈ ps → next_index l !! q = Some (last_index lg + 1) → request c lg e q ∈ messages eff'.
Proof.
  intros Hw He Hb Hlog Hmax Hm. induction ps as [|p ps IH]; intros l eff l' eff' H; simpl in H.
  { opt_inv. split_and!; [done.. |]. intros q Hq. by apply elem_of_nil in Hq. }
  destruct (send_append_to l c p) as [[l1 e1]|] eqn:E; [|done].
  destruct (send_append_frame _ _ _ _ _ E) as [Hma Hne].
  destruct (IH _ _ _ _ H) as (Hma' & Hmono & Hsent). split_and!; [congruence | |].
  { intros m Hin. apply Hmono. cbn. apply elem_of_app. by left. }
  intros q Hq Hnext. destruct (decide (q = p)) as [->|Hqp].
  - destruct (send_caught_up c lg e p Hw He Hb Hlog Hmax l Hm Hnext) as [l2 E2]. rewrite E2 in E. simplify_eq.
    apply Hmono. cbn. apply elem_of_app. right. by apply list_elem_of_singleton.
  - apply Hsent; [|by rewrite Hne]. by apply elem_of_cons in Hq as [?|?].
Qed.

(** ** Storing *)

(** A follower with the log [lg] stores the entry and acknowledges it. *)
Lemma follower_stores f c lg e :
  is_follower f = true → log (core f) = lg → term (core f) = term c → timeouts_ok (config (core f)) →
  log_wf lg → e_index e = last_index lg + 1 → e_index e < u64_max →
  ∃ f' eff, node_step f (request c lg e (core_id (core f))) = Some (f', eff) ∧
    log (core f') = append lg e ∧ persist eff = true ∧
    messages eff = [mkMessage (core_id (core f)) (core_id c) (term (core f))
                      (PAppendResponse (mkAppendResponse true (e_index e)))].
Proof.
  intros Hr Hlog Ht Hto Hw He Hb. destruct f as [cf [fo| | |]]; try done. cbn [core] in *.
  unfold node_step, step_event, role_step. cbn [role core Follower.step].
  unfold Follower.step_message, request. cbn [msg_payload msg_term is_vote_request andb]. unfold observe_term. cbn [msg_term].
  rewrite <- Ht, N.ltb_irrefl, N.ltb_irrefl. cbn [dispatch msg_payload]. unfold handle_append_request.
  cbn [msg_from aq_prev_log_index aq_prev_log_term aq_entries aq_leader_commit].
  destruct (reset_deadline_total (record_contact (set_leader fo (Some (core_id c))) cf) cf Hto) as (f1 & c1 & E & _).
  rewrite E. destruct (reset_deadline_frame _ _ _ _ E) as [rg ->]. change (log (set_rng cf rg)) with (log cf).
  rewrite Hlog, N.eqb_refl, andb_false_r. cbn [append_entries].
  destruct (N.eqb_spec (term_at lg (e_index e)) 0) as [_|Hz];
    [|apply term_at_nonzero in Hz; [lia | done | ulia]]. cbn [negb andb].
  destruct (N.ltb_spec (last_index lg) (e_index e)); [|lia]. cbn [append_entries].
  destruct e as [et ei ep]. cbn in *. eexists _, _. split; [reflexivity |].
  unfold append_response. destruct (commit_index _ <? commit_index c); cbn; by rewrite last_index_append.
Qed.

(** ** Committing *)

(** The leader has committed all that its table allows. *)
Definition settled (l : Leader.Leader) (c : Core) : Prop :=
  commit_index c ≤ last_index (log c) ∧
  ∀ j, commit_index c < j ≤ last_index (log c) → can_commit l c j = false.

Lemma advance_applied l c : last_applied (advance_commit_index l c) = last_applied c.
Proof. unfold advance_commit_index. by destruct (find _ _). Qed.

Lemma advance_settled l c :
  commit_index c ≤ last_index (log c) → last_index (log c) < u64_max → settled l (advance_commit_index l c).
Proof.
  intros Hc Hb. destruct (advance_commit_cases l c) as (Hp & _ & Hadv & Hmax); [lia |].
  assert (log (advance_commit_index l c) = log c) as Hl by (unfold log; by rewrite Hp). unfold settled. rewrite Hl. split.
  - destruct Hadv as [->|[? _]]; lia.
  - intros j Hj. rewrite (can_commit_frame l c) by done. by apply Hmax.
Qed.

(** A settled leader has committed an entry of its term that a quorum holds. *)
Lemma settled_commits l c :
  settled l c → can_commit l c (last_index (log c)) = true → commit_index c = last_index (log c).
Proof.
  intros [Hle Hs] Hc. destruct (N.lt_ge_cases (commit_index c) (last_index (log c))); [|lia].
  rewrite Hs in Hc; [done | lia].
Qed.

(** What a leader keeps while it counts acknowledgements of [k]. *)
Record counting (k : LogIndex) (held : list NodeId) (c0 : Core) (n : RaftNode) (l : Leader.Leader) : Prop := {
  ct_role : role n = RLeader l;
  ct_config : config (core n) = config c0;
  ct_persistent : persistent (core n) = persistent c0;
  ct_applied : last_applied (core n) = last_applied c0;
  ct_settled : settled l (core n);
  ct_held : ∀ v, v ∈ held → k ≤ matched l v
}.

Lemma matched_insert l p k v :
  matched (set_match_index l (<[p := k]> (match_index l))) v = if decide (v = p) then k else matched l v.
Proof. unfold matched. cbn. destruct (decide (v = p)) as [->|]; [by rewrite lookup_insert_eq | by rewrite lookup_insert_ne]. Qed.

Lemma peer_is_member cfg me p : p ∈ replication_peers cfg me → is_member cfg p = true.
Proof.
  unfold replication_peers, is_member, is_learner. rewrite list_elem_of_In, filter_In, orb_true_iff, contains_true.
  intros [[Hp|Hp]%in_app_iff _]; [left; by apply voters_spec | by right].
Qed.

(** The leader commits what a new table allows. *)
Lemma commit_counts k held held' c0 n l l1 :
  counting k held c0 n l → plain (log c0) → last_index (log c0) < u64_max → (∀ v, v ∈ held' → k ≤ matched l1 v) →
  ∃ c', commit_and_continue l1 (core n) = Some (l1, c', stay none) ∧ counting k held' c0 (mkRaftNode c' (RLeader l1)) l1.
Proof.
  intros [_ Hcfg Hp Ha [Hci _] _] Hpl Hb Hh. assert (log (core n) = log c0) as Hl by (unfold log; by rewrite Hp).
  unfold commit_and_continue. rewrite maybe_commit_plain by (by rewrite Hl). eexists. split; [reflexivity |].
  destruct (advance_commit_frame l1 (core n)) as [Hc1 Hp1].
  split; [done | cbn; congruence | cbn; congruence | | apply advance_settled; rewrite Hl in *; lia | done].
  cbn. by rewrite advance_applied.
Qed.

(** The leader's own entry is counted. *)
Lemma count_own k held c0 n l :
  counting k held c0 n l → plain (log c0) → last_index (log c0) < u64_max →
  (parallel_disk_write (config c0) = false → core_id c0 ∈ held) →
  ∃ n' l', stored n k = Some n' ∧ counting k [core_id c0] c0 n' l'.
Proof.
  intros Hc Hpl Hb Hheld. pose proof Hc as [Hr Hcfg Hp Ha Hs Hh]. unfold stored. rewrite Hcfg.
  destruct (parallel_disk_write (config c0)).
  2: { exists n, l. split; [done |]. split; try done. intros v ->%list_elem_of_singleton. auto. }
  unfold disk_write_complete, step_event, role_step. rewrite Hr. cbn [Leader.step]. unfold handle_disk_write_complete.
  assert (core_id (core n) = core_id c0) as -> by (unfold core_id; by rewrite Hcfg).
  destruct (N.ltb_spec (matched l (core_id c0)) k).
  - edestruct (commit_counts k held [core_id c0] c0 n l) as (c' & -> & Hc'); [done..| |by eexists _, _].
    intros v ->%list_elem_of_singleton. by rewrite matched_insert, decide_True.
  - eexists _, l. split; [reflexivity |]. split; try done. by intros v ->%list_elem_of_singleton.
Qed.

(** An acknowledgement is counted. *)
Lemma count_one k held c0 n l p r :
  counting k held c0 n l → plain (log c0) → last_index (log c0) < u64_max → is_member (effective_config c0) p = true →
  msg_from r = p → msg_term r = term c0 → msg_payload r = PAppendResponse (mkAppendResponse true k) →
  ∃ n' l' e, node_step n r = Some (n', e) ∧ counting k (p :: held) c0 n' l'.
Proof.
  intros Hc Hpl Hb Hmem <- Ht Hpay. pose proof Hc as [Hr Hcfg Hp _ _ Hh].
  assert (term (core n) = term c0) as Htn by (unfold term; by rewrite Hp).
  assert (effective_config (core n) = effective_config c0) as He
    by (unfold effective_config, core_config_at, log; by rewrite Hp).
  unfold node_step, step_event, role_step. rewrite Hr. cbn [Leader.step]. unfold Leader.step_message, Leader.step_term.
  rewrite Hpay, Ht, Htn, N.ltb_irrefl. unfold handle_append_response. rewrite He, Hmem. cbn [negb ar_success ar_last_log_index].
  set (l1 := if negb (pipelining (config (core n))) then _ else _).
  destruct (commit_counts k held (msg_from r :: held) c0 n l l1) as (c' & -> & Hc'); [done.. | |by eexists _, _, _].
  intros v Hv. assert (matched l1 v = if decide (v = msg_from r) then k else matched l v) as ->.
  { rewrite <- matched_insert. unfold l1, matched. by case_match. }
  case_decide; [done |]. apply Hh. by apply elem_of_cons in Hv as [?|?].
Qed.

Lemma count_all k c0 ps rs :
  plain (log c0) → last_index (log c0) < u64_max →
  Forall2 (fun p r => is_member (effective_config c0) p = true ∧ msg_from r = p ∧ msg_term r = term c0 ∧
             msg_payload r = PAppendResponse (mkAppendResponse true k)) ps rs →
  ∀ held n l, counting k held c0 n l →
  ∃ n' l', receive n rs = Some n' ∧ counting k (reverse ps ++ held) c0 n' l'.
Proof.
  intros Hpl Hb. induction 1 as [|p r ps rs (Hm & Hf & Ht & Hp) _ IH]; intros held n l Hc; [by exists n, l |].
  destruct (count_one k held c0 n l p r Hc Hpl Hb Hm Hf Ht Hp) as (n1 & l1 & e & E & Hc1).
  destruct (IH _ _ _ Hc1) as (n2 & l2 & E2 & Hc2). exists n2, l2. cbn [receive]. rewrite E. split; [done |].
  by rewrite reverse_cons, <- app_assoc.
Qed.

(** ** Proposing *)

(** A leader with room in its log and a log of commands only. *)
Record leads (n : RaftNode) (l : Leader.Leader) : Prop := {
  ld_role : role n = RLeader l;
  ld_plain : plain (log (core n));
  ld_wf : log_wf (log (core n));
  ld_commit : commit_index (core n) ≤ last_index (log (core n));
  ld_room : last_index (log (core n)) + 1 < u64_max;
  ld_batch : 1 ≤ max_entries_per_msg (config (core n));
  ld_sum : last_index (log (core n)) + 1 + max_entries_per_msg (config (core n)) < u64_modulus
}.

Definition new_entry (n : RaftNode) (cmd : Command) : Entry :=
  mkEntry (term (core n)) (last_index (log (core n)) + 1) (PCommand cmd).

Lemma append_plain lg t i cmd : plain lg → plain (append lg (mkEntry t i (PCommand cmd))).
Proof. intros [H1 H2]. split; [|done]. apply Forall_app. by split; [|repeat constructor]. Qed.

Lemma proposed_core n cmd c :
  persistent c = persistent (set_log (core n) (append (log (core n)) (new_entry n cmd))) → plain (log (core n)) →
  log c = append (log (core n)) (new_entry n cmd) ∧ term c = term (core n) ∧
  effective_config c = effective_config (core n) ∧ plain (log c).
Proof.
  intros Hp Hpl. assert (log c = append (log (core n)) (new_entry n cmd)) as Hl by (unfold log at 1; by rewrite Hp).
  assert (plain (log c)) as Hc by (rewrite Hl; by apply append_plain).
  split_and!; [done | unfold term; by rewrite Hp | | done]. by rewrite !effective_config_plain, Hp by done.
Qed.

Lemma propose_counts n l cmd n1 k sent :
  leads n l → node_propose n cmd = Some (n1, inr (k, sent)) →
  let lg := log (core n) in
  k = last_index lg + 1 ∧ config (core n1) = config (core n) ∧
  persistent (core n1) = persistent (set_log (core n) (append lg (new_entry n cmd))) ∧
  last_applied (core n1) = last_applied (core n) ∧
  (∃ l1 held, counting k held (core n1) n1 l1 ∧ (parallel_disk_write (config (core n)) = false → core_id (core n) ∈ held)) ∧
  ∀ f, caught_up n l f → request (core n1) lg (new_entry n cmd) (core_id (core f)) ∈ messages sent.
Proof.
  intros [Hr Hpl Hw Hc Hb Hmax Hsum] H lg. unfold node_propose in H. rewrite Hr in H.
  destruct (proposal_limit_exceeded (core n) cmd) as [[|]|]; [done | | done]. cbn in H.
  unfold Leader.propose in H. rewrite u64_add_small in H by ulia. fold lg in H.
  change (config (set_log _ _)) with (config (core n)) in H.
  change (mkEntry (term (core n)) (last_index lg + 1) (PCommand cmd)) with (new_entry n cmd) in H.
  set (c1 := set_log (core n) (append lg (new_entry n cmd))) in *.
  set (l1 := if negb (parallel_disk_write (config (core n))) then _ else l) in *.
  assert (next_index l1 = next_index l) as Hn1 by (unfold l1; by destruct (parallel_disk_write _)).
  rewrite maybe_commit_plain in H by (by apply append_plain).
  destruct (advance_commit_frame l1 c1) as [Hcf Hpf].
  assert (last_index (log c1) = last_index lg + 1) as Hlast by apply last_index_append.
  assert (settled l1 (advance_commit_index l1 c1)) as Hs.
  { apply advance_settled; rewrite Hlast; [|unfold lg; lia]. change (commit_index c1) with (commit_index (core n)).
    unfold lg. lia. }
  pose proof (advance_applied l1 c1) as Ha. set (c2 := advance_commit_index l1 c1) in *.
  destruct (proposed_core n cmd c2 Hpf Hpl) as (Hl2 & _ & Hec & _).
  destruct (broadcast_append l1 c2) as [[l2 e2]|] eqn:E; [|done]. cbn in H. simplify_eq. cbn [core].
  assert (core_id c2 = core_id (core n)) as Hid by (unfold core_id; by rewrite Hcf).
  unfold broadcast_append in E. rewrite Hid, Hec in E.
  destruct (fun Hx Hy => send_all_caught_up c2 lg (new_entry n cmd) _ Hw eq_refl Hb Hl2 Hx Hy _ _ _ _ E)
    as (Hma & _ & Hsent); [by rewrite Hcf | by rewrite Hcf |].
  split_and!; [done | done | done | done | |].
  - exists l2, (if parallel_disk_write (config (core n)) then [] else [core_id (core n)]). split; [|by intros ->; left].
    split; [done.. | |].
    + destruct Hs as [Hle Hs]. split; [done |]. intros j Hj. rewrite (can_commit_frame l1 c2) by done. by apply Hs.
    + unfold matched. rewrite Hma. unfold l1. destruct (parallel_disk_write _); intros v Hv; [by apply elem_of_nil in Hv |].
      apply list_elem_of_singleton in Hv as ->. cbn. by rewrite lookup_insert_eq.
  - intros f Hf. cbn. rewrite app_nil_r. apply Hsent; [apply Hf | rewrite Hn1; apply Hf].
Qed.

(** ** The round *)

Lemma term_at_held l k e : log_wf l → k < u64_modulus → get l k = Some e → term_at l k = e_term e.
Proof.
  intros Hw Hk Hg. rewrite term_at_get, Hg by done. apply get_Some in Hg; [|done..].
  destruct (N.eqb_spec k 0), (N.eqb_spec k (snapshot_index l)); done || lia.
Qed.

(** An entry between the applied and the commit index is handed out to be applied. *)
Lemma committed_new n k e cmd :
  last_applied (core n) < k → k = commit_index (core n) → k < u64_max → get (log (core n)) k = Some e →
  e_payload e = PCommand cmd → mkCommittedEntry (e_index e) (e_term e) cmd ∈ committed n.
Proof.
  intros Ha Hk Hb Hg Hp. unfold committed. rewrite !u64_add_small by ulia. apply list_elem_of_omap. exists k. split.
  - unfold range_excl. apply list_elem_of_In, in_map_iff. exists (N.to_nat (k - (last_applied (core n) + 1))).
    split; [lia |]. apply in_seq. lia.
  - unfold committed_entry. by rewrite Hg, Hp.
Qed.

(** The followers that are up to date answer the request they are sent. *)
Lemma followers_acknowledge n l cmd n1 k sent fs :
  leads n l → node_propose n cmd = Some (n1, inr (k, sent)) → Forall (caught_up n l) fs →
  ∃ acks, Forall2 (acknowledges (log (core n1)) (messages sent)) fs acks.
Proof.
  intros Hn H Hfs. destruct (propose_counts n l cmd n1 k sent Hn H) as (Hk & _ & Hp & _ & _ & Hsent).
  destruct (proposed_core n cmd (core n1) Hp (ld_plain _ _ Hn)) as (Hl & Ht & _).
  apply Forall_exists_Forall2_l. apply (Forall_impl _ _ _ Hfs). intros f Hf.
  destruct (follower_stores f (core n1) (log (core n)) (new_entry n cmd)) as (f' & e & E & Hlf & Hpe & Hm);
    [apply Hf | apply Hf | rewrite Ht; apply Hf | apply Hf | apply Hn | done | apply Hn |].
  eexists _, _, f', e. rewrite Hl, last_index_append. split_and!; [by apply Hsent | done | done | done | done | exact Hm | done..].
Qed.

Lemma acknowledgements_count n l c lg sent fs acks :
  effective_config c = effective_config (core n) → term c = term (core n) → Forall (caught_up n l) fs →
  Forall2 (acknowledges lg sent) fs acks →
  Forall2 (fun p r => is_member (effective_config c) p = true ∧ msg_from r = p ∧ msg_term r = term c ∧
             msg_payload r = PAppendResponse (mkAppendResponse true (last_index lg)))
    (map (fun f => core_id (core f)) fs) acks.
Proof.
  intros Hec Ht Hfs. induction 1 as [|f r fs acks Hr _ IH]; [constructor |]. apply Forall_cons in Hfs as [Hf Hfs].
  destruct Hr as (m & f' & e & _ & _ & _ & _ & _ & _ & H1 & H2 & H3). constructor; [|by apply IH].
  split_and!; [|done | rewrite H2, Ht; apply Hf | done]. rewrite Hec. eapply peer_is_member, Hf.
Qed.

(** A group of three in term 1 whose nodes hold one committed command. *)
Definition round_core (id : NodeId) : Core :=
  mkCore (mkConfig id (150, 300) 75 100 16 64 SingleServer true true true)
    (mkPersistent 1 (Some 1) (mkLog [mkEntry 1 1 (PCommand (mkCommand [Byte.x61]))] 0 0 None) (simple [1; 2; 3])) 1 1 0 7.

Definition round_table : Leader.Leader :=
  mkLeader {[1 := 2; 2 := 2; 3 := 1]} {[1 := 1; 2 := 1; 3 := 0]} 75 ∅ 1 None 0.

Definition round_leader : RaftNode := mkRaftNode (round_core 1) (RLeader round_table).
Definition round_follower : RaftNode := mkRaftNode (round_core 2) (RFollower (mkFollower (Some 1) 200 None)).

(** C12: progress. A leader with a log of commands accepts a command. Every follower in its
    term with its log, which the leader knows to be up to date, then finds a request in what
    the leader sends; it stores the entry, asks for its log to be persisted and acknowledges
    it. When these followers and the leader form a quorum, the leader whose disk has the
    entry and which has received their acknowledgements, in any order, still leads, has
    committed exactly up to the new entry and, when it was not applied before, hands the
    command out to be applied. No step panics. *)
Theorem replication_round n l cmd n1 k sent fs :
  leads n l → node_propose n cmd = Some (n1, inr (k, sent)) → Forall (caught_up n l) fs →
  has_quorum (effective_config (core n))
    (fun v => bool_decide (v ∈ core_id (core n) :: map (fun f => core_id (core f)) fs)) = true →
  ∃ acks n', Forall2 (acknowledges (log (core n1)) (messages sent)) fs acks ∧ stored n1 k = Some n' ∧
  ∃ n2, receive n' acks = Some n2 ∧ is_leader n2 = true ∧ log (core n2) = append (log (core n)) (new_entry n cmd) ∧
    commit_index (core n2) = k ∧
    (last_applied (core n) < k → mkCommittedEntry k (term (core n)) cmd ∈ committed n2).
Proof.
  intros Hn H Hfs Hq. destruct (followers_acknowledge n l cmd n1 k sent fs Hn H Hfs) as [acks Hacks].
  destruct (propose_counts n l cmd n1 k sent Hn H) as (Hk & Hcf & Hp & Ha & (l0 & held & Hc0 & Hheld) & _).
  destruct (proposed_core n cmd (core n1) Hp (ld_plain _ _ Hn)) as (Hl & Ht & Hec & Hpl1).
  assert (last_index (log (core n1)) = k) as Hlast by (rewrite Hl, last_index_append; by subst k).
  pose proof (ld_room _ _ Hn) as Hroom. assert (core_id (core n1) = core_id (core n)) as Hid by (unfold core_id; by rewrite Hcf).
  destruct (count_own k held (core n1) n1 l0 Hc0 Hpl1) as (n' & l1 & E1 & Hc1); [lia | by rewrite Hcf, Hid |].
  rewrite Hid in Hc1.
  destruct (fun Hx Hy => count_all k (core n1) (map (fun f => core_id (core f)) fs) acks Hpl1 Hx Hy _ _ _ Hc1)
    as (n2 & l2 & E & [Hr2 _ Hp2 Ha2 Hs2 Hh2]); [lia | rewrite <- Hlast; by eapply acknowledgements_count |].
  assert (log (core n2) = log (core n1)) as Hl2 by (unfold log; by rewrite Hp2).
  assert (get (log (core n1)) k = Some (new_entry n cmd)) as Hg.
  { rewrite Hl, get_append by (done || apply Hn || ulia). by rewrite Hk, N.eqb_refl. }
  assert (commit_index (core n2) = k) as Hci.
  { rewrite <- Hlast, <- Hl2. apply (settled_commits l2); [done |]. rewrite Hl2, Hlast, (can_commit_frame l2 (core n1)) by done.
    unfold can_commit. rewrite (term_at_held _ _ (new_entry n cmd)); [|rewrite Hl; apply append_wf; done || apply Hn | ulia | done].
    rewrite Ht, N.eqb_refl, Hec. apply (has_quorum_mono _ _ _) with (2 := Hq). intros v _ Hv%bool_decide_eq_true.
    apply N.leb_le, Hh2, elem_of_app. apply elem_of_cons in Hv as [->|Hv];
      [right; by apply list_elem_of_singleton | left; by apply elem_of_reverse]. }
  exists acks, n'. split_and!; [done | done |]. exists n2. split_and!; [done | unfold is_leader; by rewrite Hr2 | congruence | done |].
  intros Hlt. subst k. apply (committed_new n2 (last_index (log (core n)) + 1) (new_entry n cmd));
    [rewrite Ha2, Ha; lia | done | done | congruence | done].
Qed.

Lemma round_leads : leads round_leader round_table.
Proof.
  split; [reflexivity | | | vm_compute; discriminate | reflexivity | vm_compute; discriminate | reflexivity].
  - split; [repeat constructor | reflexivity].
  - split; [|reflexivity]. intros [|j] x Hx; cbn in Hx; [|discriminate Hx]. by injection Hx as <-.
Qed.

Lemma round_caught_up : caught_up round_leader round_table round_follower.
Proof.
  split; [reflexivity | reflexivity | reflexivity | | reflexivity | vm_compute; discriminate].
  apply list_elem_of_In. vm_compute. by left.
Qed.

(** Node 3 is behind; the leader and node 2 commit the second command. *)
Lemma replication_round_witness :
  ∃ n1 sent n' acks n2, node_propose round_leader (mkCommand [Byte.x62]) = Some (n1, inr (2, sent)) ∧
    stored n1 2 = Some n' ∧ receive n' acks = Some n2 ∧ commit_index (core n2) = 2 ∧
    mkCommittedEntry 2 1 (mkCommand [Byte.x62]) ∈ committed n2.
Proof.
  destruct (node_propose round_leader (mkCommand [Byte.x62])) as [[n1 [err|[k sent]]]|] eqn:E;
    [vm_compute in E; discriminate E | | vm_compute in E; discriminate E].
  assert (k = 2) as -> by (vm_compute in E; congruence).
  destruct (replication_round round_leader round_table (mkCommand [Byte.x62]) n1 2 sent [round_follower] round_leads E
    (Forall_cons_2 _ _ _ round_caught_up (Forall_nil_2 _)) eq_refl) as (acks & n' & _ & Hs & n2 & Hr & _ & _ & Hc & Hin).
  exists n1, sent, n', acks, n2. split; [reflexivity |]. split; [exact Hs |]. split; [exact Hr |]. split; [exact Hc |].
  apply Hin. reflexivity.
Defined.
