(* ===== verification/Store.v ===== *)
(** * Durable Raft state

    cloud9-node/src/store.rs: each save appends one delta (hard state and changed
    log suffix) to the write-ahead log; opening replays the deltas. The WAL is the
    sequence of its record payloads (DiskStore.v shows that the segment files give
    that); [serde_json] is a parameter: an encoder and a decoder, with the round
    trip of the encoder as hypothesis where a theorem needs it. [None] is a panic. *)

From S2P Require Import Prelude BTree Membership Log Event Core.

Open Scope N_scope.

Record PersistentDelta := mkPersistentDelta {
  d_term : Term;
  d_voted_for : option NodeId;
  d_bootstrap_config : Configuration;
  d_truncate_after : LogIndex;
  d_entries : list Entry
}.

(** [Wal], [Encode] and [Decode] carry the third-party error, which nothing reads. *)
Inductive StoreError :=
| SEWal
| SEEncode
| SEDecode
| UnexpectedKind (found : N)
| TermRegression (previous next : Term)
| InvalidTruncation (index last_index : LogIndex)
| NoncontiguousEntry (expected found : LogIndex)
| SnapshotUnsupported.

Definition RAFT_STATE_KIND : N := 1.

(** The loop of [common_prefix]; [n] is [index]. *)
Fixpoint scan_prefix (durable current : Log) (floor : LogIndex) (n : nat) : LogIndex :=
  match n with
  | O => 0
  | S n' =>
      let index := N.of_nat n in
      if (floor <? index) && negb (term_at durable index =? term_at current index)
      then scan_prefix durable current floor n' else index
  end.

Definition common_prefix (durable current : Persistent) : LogIndex :=
  let floor := N.max (snapshot_index (p_log durable)) (snapshot_index (p_log current)) in
  let index := N.min (last_index (p_log durable)) (last_index (p_log current)) in
  scan_prefix (p_log durable) (p_log current) floor (N.to_nat index).

(** The loop of [apply_delta] over the delta's entries. *)
Fixpoint append_checked (l : Log) (es : list Entry) : StoreError + Log :=
  match es with
  | [] => inr l
  | entry :: rest =>
      let expected := last_index l +u 1 in
      if negb (e_index entry =? expected) then inl (NoncontiguousEntry expected (e_index entry))
      else append_checked (append l entry) rest
  end.

Definition apply_delta (state : Persistent) (delta : PersistentDelta) : StoreError + Persistent :=
  if d_term delta <? p_term state then inl (TermRegression (p_term state) (d_term delta))
  else
    let last_index := last_index (p_log state) in
    if last_index <? d_truncate_after delta
    then inl (InvalidTruncation (d_truncate_after delta) last_index)
    else
      match append_checked (truncate_after (p_log state) (d_truncate_after delta)) (d_entries delta) with
      | inl e => inl e
      | inr l => inr (mkPersistent (d_term delta) (d_voted_for delta) l (d_bootstrap_config delta))
      end.

(** The delta that [save] writes. *)
Definition delta_of (durable current : Persistent) : option PersistentDelta :=
  let truncate_after := common_prefix durable current in
  let* entries := slice (p_log current) (truncate_after +u 1) (last_index (p_log current)) in
  Some (mkPersistentDelta (p_term current) (voted_for current) (bootstrap_config current)
          truncate_after entries).

Section Store.

Context {Bytes : Type} (encode : PersistentDelta → option Bytes) (decode : Bytes → option PersistentDelta).

(** The WAL's records: kind and payload. The [kind] field of the source is
    always [RAFT_STATE_KIND]. *)
Record RaftStore := mkRaftStore { wal : list (N * Bytes); durable : Persistent }.

(** [wal_ok] says whether the append and the sync of the WAL succeed. *)
Definition save (wal_ok : bool) (s : RaftStore) (current : Persistent) : option (StoreError + RaftStore) :=
  if negb (snapshot_index (p_log current) =? snapshot_index (p_log (durable s)))
  then Some (inl SnapshotUnsupported)
  else
    let* delta := delta_of (durable s) current in
    Some (match encode delta with
          | None => inl SEEncode
          | Some encoded =>
              if wal_ok then inr (mkRaftStore (wal s ++ [(RAFT_STATE_KIND, encoded)]) current) else inl SEWal
          end).

(** [recover], from the state [initial] that [open] starts with. *)
Fixpoint recover (state : Persistent) (records : list (N * Bytes)) : StoreError + Persistent :=
  match records with
  | [] => inr state
  | (kind, payload) :: rest =>
      if negb (kind =? RAFT_STATE_KIND) then inl (UnexpectedKind kind)
      else
        match decode payload with
        | None => inl SEDecode
        | Some delta =>
            match apply_delta state delta with
            | inl e => inl e
            | inr state => recover state rest
            end
        end
  end.

Definition open_store (records : list (N * Bytes)) (initial : Persistent) : StoreError + RaftStore :=
  match recover initial records with
  | inl e => inl e
  | inr p => inr (mkRaftStore records p)
  end.

End Store.

Arguments RaftStore : clear implicits.

(** ** Properties *)

(** A state that may follow [d] on disk: no lower term, no compaction, and where
    the two logs have entries of equal term at an index, they agree up to it (the
    Log Matching Property between two states of one node). *)
Record successor (d c : Persistent) : Prop := {
  sc_wf_d : log_wf (p_log d);
  sc_wf_c : log_wf (p_log c);
  sc_term : p_term d ≤ p_term c;
  sc_snap_index : snapshot_index (p_log c) = snapshot_index (p_log d);
  sc_snap_term : snapshot_term (p_log c) = snapshot_term (p_log d);
  sc_snap_config : snapshot_config (p_log c) = snapshot_config (p_log d);
  sc_match : ∀ k, snapshot_index (p_log d) < k → k ≤ last_index (p_log d) → k ≤ last_index (p_log c) →
    term_at (p_log d) k = term_at (p_log c) k → ∀ j, j ≤ k → get (p_log d) j = get (p_log c) j
}.

(** The logs agree up to the common prefix. *)
Lemma scan_prefix_agree d c n :
  successor d c → N.of_nat n ≤ N.min (last_index (p_log d)) (last_index (p_log c)) →
  snapshot_index (p_log d) ≤ N.of_nat n →
  let k := scan_prefix (p_log d) (p_log c) (snapshot_index (p_log d)) n in
  snapshot_index (p_log d) ≤ k ≤ N.of_nat n ∧ (∀ j, j ≤ k → get (p_log d) j = get (p_log c) j).
Proof.
  intros [Hd Hc _ Hs _ _ Hm]. pose proof (last_index_bound _ Hd). pose proof (last_index_bound _ Hc).
  assert (∀ j, j ≤ snapshot_index (p_log d) → get (p_log d) j = get (p_log c) j) as Hlow.
  { intros j Hj. rewrite !get_eq by (done || ulia). rewrite Hs. by destruct (N.ltb_spec (snapshot_index (p_log d)) j); [lia |]. }
  induction n as [|n IH]; intros Hle Hfl; [simpl; split; [lia | intros; apply Hlow; lia] |].
  cbn [scan_prefix]. set (k := N.of_nat (S n)) in *.
  destruct (N.ltb_spec (snapshot_index (p_log d)) k) as [Hlt|Hge]; simpl.
  2: { split; [lia | intros; apply Hlow; lia]. }
  destruct (N.eqb_spec (term_at (p_log d) k) (term_at (p_log c) k)) as [He|He]; simpl.
  2: { destruct IH as [IH1 IH2]; [lia..|]. split; [lia | done]. }
  split; [lia |]. apply Hm; [lia.. | done].
Qed.

Lemma append_checked_ok es : ∀ l,
  (∀ j e, es !! j = Some e → e_index e = last_index l + 1 + N.of_nat j) →
  last_index l + vlen es < u64_modulus →
  append_checked l es = inr (mkLog (entries l ++ es) (snapshot_index l) (snapshot_term l) (snapshot_config l)).
Proof.
  induction es as [|e es IH]; intros l Hi Hb; simpl.
  { rewrite app_nil_r. by destruct l. }
  unfold vlen in Hb. simpl in Hb. pose proof (Hi 0%nat e eq_refl) as He.
  rewrite u64_add_small by lia. destruct (N.eqb_spec (e_index e) (last_index l + 1)); [|lia]. simpl.
  rewrite IH; rewrite ?last_index_append.
  - simpl. by rewrite <- app_assoc.
  - intros j x Hx. rewrite (Hi (S j) x Hx). lia.
  - unfold vlen. lia.
Qed.

Lemma take_get l k :
  log_wf l → snapshot_index l ≤ k ≤ last_index l → ∀ n,
  take (N.to_nat (k - snapshot_index l)) (entries l) !! n =
  if decide (n < N.to_nat (k - snapshot_index l))%nat then get l (snapshot_index l + 1 + N.of_nat n) else None.
Proof.
  intros Hw Hk n. pose proof (last_index_bound l Hw). rewrite lookup_take. case_decide; [|done].
  rewrite get_eq by (done || ulia). destruct (N.ltb_spec (snapshot_index l) (snapshot_index l + 1 + N.of_nat n)); [|lia].
  f_equal. lia.
Qed.

(** Replaying the delta of a save on the state it was computed against. *)
Lemma apply_delta_of d c :
  successor d c → ∃ delta, delta_of d c = Some delta ∧ apply_delta d delta = inr c.
Proof.
  intros Hs. pose proof Hs as [Hd Hc Ht Hsi Hst Hsc Hm].
  pose proof (last_index_bound _ Hd). pose proof (last_index_bound _ Hc).
  edestruct (scan_prefix_agree d c (N.to_nat (N.min (last_index (p_log d)) (last_index (p_log c)))) Hs)
    as [Hk Hag]; [lia | lia |].
  unfold delta_of, common_prefix. rewrite Hsi, N.max_id.
  set (k := scan_prefix _ _ _ _) in *. rewrite u64_add_small by ulia. rewrite slice_eq by (done || ulia).
  eexists. split; [reflexivity |]. unfold apply_delta. simpl.
  destruct (N.ltb_spec (p_term c) (p_term d)); [lia |]. destruct (N.ltb_spec (last_index (p_log d)) k); [lia |].
  rewrite Hsi. rewrite (N.max_l (k + 1)) by lia. rewrite N.min_id.
  rewrite (take_ge (drop _ _)) by (rewrite length_drop; pose proof (last_index_eq _ Hc); lia).
  replace (N.to_nat (k + 1 - snapshot_index (p_log d) - 1)) with (N.to_nat (k - snapshot_index (p_log d))) by lia.
  assert (last_index (truncate_after (p_log d) k) = k) as Hlast by (rewrite truncate_after_last by (done || ulia); lia).
  rewrite append_checked_ok.
  - rewrite truncate_after_eq by (done || ulia). simpl.
    assert (take (N.to_nat (k - snapshot_index (p_log d))) (entries (p_log d)) =
            take (N.to_nat (k - snapshot_index (p_log d))) (entries (p_log c))) as ->.
    { apply list_eq. intros n. pose proof (take_get (p_log c) k Hc ltac:(lia) n) as Hn.
      rewrite Hsi in Hn. rewrite take_get, Hn by (done || lia). case_decide; [|done]. apply Hag. lia. }
    rewrite take_drop, <- Hsi, <- Hst, <- Hsc. by destruct c as [? ? [] ?].
  - intros j e Hj. rewrite lookup_drop in Hj. rewrite (wf_index _ Hc _ _ Hj), Hlast. lia.
  - rewrite Hlast. unfold vlen. rewrite length_drop. pose proof (last_index_eq _ Hc). ulia.
Qed.

Section Recovery.

Context {Bytes : Type} (encode : PersistentDelta → option Bytes) (decode : Bytes → option PersistentDelta).

(** [serde_json]: what it encodes it decodes. *)
Definition codec : Prop := ∀ d b, encode d = Some b → decode b = Some d.

Lemma recover_snoc initial records kind payload :
  recover decode initial (records ++ [(kind, payload)]) =
  match recover decode initial records with
  | inl e => inl e
  | inr p => recover decode p [(kind, payload)]
  end.
Proof.
  revert initial. induction records as [|[k b] records IH]; intros initial; [done |].
  cbn [app recover]. destruct (negb (k =? RAFT_STATE_KIND)); [done |]. destruct (decode b) as [delta|]; [|done].
  by destruct (apply_delta initial delta).
Qed.

(** A save that succeeds is on disk: reopening yields the saved state. *)
Lemma save_recovers initial s current s' :
  codec → recover decode initial (wal s) = inr (durable s) → successor (durable s) current →
  save encode true s current = Some (inr s') →
  durable s' = current ∧ recover decode initial (wal s') = inr current.
Proof.
  intros Hcodec Hrec Hs. unfold save. rewrite (sc_snap_index _ _ Hs), N.eqb_refl. simpl.
  destruct (apply_delta_of _ _ Hs) as (delta & -> & Hd).
  destruct (encode delta) as [b|] eqn:Hb; [|done]. intros [= <-]. split; [done |]. cbn [wal].
  rewrite recover_snoc, Hrec. cbn [recover]. rewrite N.eqb_refl. cbn [negb].
  by rewrite (Hcodec _ _ Hb), Hd.
Qed.

(** Saving a successor fails only in the encoder or the WAL. *)
Lemma save_total s current wal_ok :
  successor (durable s) current →
  ∃ r, save encode wal_ok s current = Some r ∧
       match r with inl e => e = SEEncode ∨ (e = SEWal ∧ wal_ok = false) | inr _ => wal_ok = true end.
Proof.
  intros Hs. unfold save. rewrite (sc_snap_index _ _ Hs), N.eqb_refl. simpl.
  destruct (apply_delta_of _ _ Hs) as (delta & -> & Hd). eexists. split; [reflexivity |].
  destruct (encode delta); [|by left]. destruct wal_ok; [done | by right].
Qed.

(** A sequence of successful saves, each of a successor of the state before. *)
Inductive saves : RaftStore Bytes → list Persistent → RaftStore Bytes → Prop :=
| saves_nil s : saves s [] s
| saves_cons s p ps s1 s2 :
    successor (durable s) p → save encode true s p = Some (inr s1) → saves s1 ps s2 → saves s (p :: ps) s2.

(** C19: [RaftStore] is durable: after any sequence of successful saves from an
    opened store, each of a state that can follow the previous one, reopening the
    log ([RaftStore::open]) replays the deltas to exactly the state saved last. *)
Theorem store_recovers_last_save initial s ps s' :
  codec → open_store decode (wal s) initial = inr s → saves s ps s' →
  open_store decode (wal s') initial = inr s' ∧
  durable s' = match last ps with Some p => p | None => durable s end.
Proof.
  intros Hcodec Hopen Hsaves. unfold open_store in *.
  destruct (recover decode initial (wal s)) as [|p0] eqn:Hrec; [done |].
  injection Hopen as Hp0. assert (p0 = durable s) as -> by (by rewrite <- Hp0). clear Hp0.
  induction Hsaves as [s|s p ps s1 s2 Hsucc Hsave Hrest IH].
  { rewrite Hrec. by destruct s. }
  destruct (save_recovers _ _ _ _ Hcodec Hrec Hsucc Hsave) as [Hd Hr1].
  rewrite <- Hd in Hr1. destruct (IH Hr1) as [? Hlast]. split; [done |].
  rewrite Hlast. destruct ps; [done |]. rewrite last_cons_cons. by destruct (last (p0 :: ps)) eqn:E; [|rewrite last_None in E].
Qed.

End Recovery.

(** Two saves: an appended entry, then its replacement by an entry of a later term. *)
Lemma store_recovers_last_save_witness :
  let e1 := mkEntry 1 1 (PCommand (mkCommand [])) in
  let e2 := mkEntry 2 1 (PCommand (mkCommand [Byte.x01])) in
  let p0 := default_persistent in
  let p1 := mkPersistent 1 (Some 1) (mkLog [e1] 0 0 None) default_configuration in
  let p2 := mkPersistent 2 (Some 2) (mkLog [e2] 0 0 None) default_configuration in
  let d1 := mkPersistentDelta 1 (Some 1) default_configuration 0 [e1] in
  let d2 := mkPersistentDelta 2 (Some 2) default_configuration 0 [e2] in
  open_store (fun b => Some b) [(RAFT_STATE_KIND, d1); (RAFT_STATE_KIND, d2)] p0 =
    inr (mkRaftStore [(RAFT_STATE_KIND, d1); (RAFT_STATE_KIND, d2)] p2).
Proof.
  intros e1 e2 p0 p1 p2 d1 d2.
  assert (∀ p e, p_log p = mkLog [e] 0 0 None → e_index e = 1 → log_wf (p_log p)) as Hone.
  { intros p e -> He. split; [|reflexivity]. intros [|j] x Hx; [injection Hx as <-; exact He |].
    destruct j; discriminate Hx. }
  refine (proj1 (store_recovers_last_save (fun d => Some d) (fun b => Some b) p0 (mkRaftStore [] p0) [p1; p2]
           (mkRaftStore [(RAFT_STATE_KIND, d1); (RAFT_STATE_KIND, d2)] p2) _ _ _)).
  - intros d b H. symmetry. exact H.
  - reflexivity.
  - apply (saves_cons _ _ p1 [p2] (mkRaftStore [(RAFT_STATE_KIND, d1)] p1)); [|reflexivity |].
    + split; try reflexivity; try discriminate; [apply default_log_wf | apply (Hone p1 e1); reflexivity |].
      intros k Hk Hle. vm_compute in Hk, Hle. exfalso. destruct k; [discriminate Hk | apply Hle; reflexivity].
    + apply (saves_cons _ _ p2 [] (mkRaftStore [(RAFT_STATE_KIND, d1); (RAFT_STATE_KIND, d2)] p2));
        [|reflexivity | constructor].
      split; try reflexivity; try discriminate; [apply (Hone p1 e1); reflexivity | apply (Hone p2 e2); reflexivity |].
      intros k Hk Hle _. change (0 < k) in Hk. change (k ≤ 1) in Hle. replace k with 1 by lia. discriminate.
Defined.
