(* ===== verification/Runtime.v ===== *)
(** * The node runtime

    cloud9-node/src/runtime.rs, with [raft_config] of config.rs and the peer table
    of transport.rs: the driver that owns a [RaftNode] and its store. An
    operation runs under the machine lock, so it is one function on the runtime's
    state; what it sends and which proposals it completes is its output.
    The state machine ([apply_command], with [serde_json] decoding in front of it),
    the encoder of the store and the type of socket addresses are parameters.
    [None] is a panic. *)

From S2P Require Import Prelude BTree Membership Log Event Core Role.
From S2P Require Import Follower PreCandidate Candidate Leader Node Store.

Open Scope N_scope.

Definition raft_config (node_id : NodeId) : Config :=
  let config := with_parallel_disk_write (config_new node_id) false in
  mkConfig (id config) (election_timeout config) (heartbeat_interval config) 1
    (max_uncommitted_entries config) (max_uncommitted_bytes config) (membership_mode config)
    (prevote config) (parallel_disk_write config) (pipelining config).

Section Runtime.

Context {Addr : Type} `{!EqDecision Addr}.
Context {Bytes : Type} (encode : PersistentDelta → option Bytes) (decode : Bytes → option PersistentDelta).
Context {State Res : Type} (apply_command : State → Command → State * Res).

Inductive RuntimeError :=
| IdentityMismatch (node_id consensus_id : NodeId)
| InvalidSelfPeer (node_id : NodeId) (raft_addr : Addr)
| DuplicatePeerAddress (address : Addr)
| StoreFailed (e : StoreError)
| SnapshotTransportUnsupported
| UnknownPeer (peer : NodeId)
| Failed.

Inductive MessageError :=
| WrongRecipient (expected actual : NodeId)
| UnknownSender (sender : NodeId)
| SelfMessage.

(** The fields the runtime reads; [peers] is the [BTreeMap] in key order. *)
Record NodeConfig := mkNodeConfig {
  node_id : NodeId; raft_addr : Addr; peers : list (NodeId * Addr); consensus : Config }.

Record PendingProposal := mkPendingProposal { pp_id : N; pp_command : list Byte.byte }.

Record RaftRuntime := mkRaftRuntime {
  rt_config : NodeConfig;
  rt_node : RaftNode;
  rt_store : RaftStore Bytes;
  rt_state : State;
  rt_waiters : gmap LogIndex PendingProposal;
  rt_next_proposal_id : N;
  rt_failed : bool
}.

(** What an operation does to the outside: messages handed to the transport, and
    the results sent to waiting proposals ([None] is "proposal was superseded"). *)
Record Output := mkOutput { sent : list Message; completed : list (N * option Res) }.

Definition peer_get (ps : list (NodeId * Addr)) (id : NodeId) : option Addr :=
  option_map snd (find (fun p => fst p =? id) ps).

(** [values().find(|address| !addresses.insert(address))]. *)
Fixpoint first_duplicate (addresses : list Addr) (values : list Addr) : option Addr :=
  match values with
  | [] => None
  | a :: rest =>
      if bool_decide (a ∈ addresses) then Some a else first_duplicate (a :: addresses) rest
  end.

(** [None] is [Ok(())]. *)
Definition validate_config (config : NodeConfig) : option RuntimeError :=
  if negb (node_id config =? id (consensus config))
  then Some (IdentityMismatch (node_id config) (id (consensus config)))
  else if negb (bool_decide (peer_get (peers config) (node_id config) = Some (raft_addr config)))
  then Some (InvalidSelfPeer (node_id config) (raft_addr config))
  else option_map DuplicatePeerAddress (first_duplicate [] (map snd (peers config))).

Definition open_runtime (config : NodeConfig) (records : list (N * Bytes)) (state : State)
    : option (RuntimeError + RaftRuntime) :=
  match validate_config config with
  | Some e => Some (inl e)
  | None =>
      let voters := map fst (peers config) in
      let* initial := node_new (consensus config) voters in
      match open_store decode records (node_persistent initial) with
      | inl e => Some (inl (StoreFailed e))
      | inr store =>
          let* node := node_restore (consensus config) (durable store) in
          Some (inr (mkRaftRuntime config node store state ∅ 1 false))
      end
  end.

(** [None] is [Ok(())]. *)
Definition validate_message (config : NodeConfig) (m : Message) : option MessageError :=
  if negb (msg_to m =? node_id config) then Some (WrongRecipient (node_id config) (msg_to m))
  else if msg_from m =? node_id config then Some SelfMessage
  else match peer_get (peers config) (msg_from m) with
       | None => Some (UnknownSender (msg_from m))
       | Some _ => None
       end.

(** [PeerTransport::send]: the peer table is the configuration's without this
    node; a message over the concurrency limit is dropped by the transport. *)
Definition transport_send (config : NodeConfig) (m : Message) : option RuntimeError :=
  match peer_get (List.filter (fun p => negb (fst p =? node_id config)) (peers config)) (msg_to m) with
  | None => Some (UnknownPeer (msg_to m))
  | Some _ => None
  end.

(** The loop of [handle_effects] over the messages. *)
Fixpoint send_messages (config : NodeConfig) (ms : list Message) : list Message * option RuntimeError :=
  match ms with
  | [] => ([], None)
  | m :: rest =>
      match transport_send config m with
      | Some e => ([], Some e)
      | None => let '(sent, e) := send_messages config rest in (m :: sent, e)
      end
  end.

(** [PendingProposal::complete]. *)
Definition complete (p : PendingProposal) (cmd : Command) (result : Res) : N * option Res :=
  (pp_id p, if bool_decide (pp_command p = cmd_bytes cmd) then Some result else None).

Definition complete_waiter (waiters : gmap LogIndex PendingProposal) (index : LogIndex) (cmd : Command)
    (result : Res) : gmap LogIndex PendingProposal * list (N * option Res) :=
  match waiters !! index with
  | None => (waiters, [])
  | Some pending => (delete index waiters, [complete pending cmd result])
  end.

Definition set_rt_node (rt : RaftRuntime) (n : RaftNode) : RaftRuntime :=
  mkRaftRuntime (rt_config rt) n (rt_store rt) (rt_state rt) (rt_waiters rt) (rt_next_proposal_id rt)
    (rt_failed rt).
Definition set_rt_store (rt : RaftRuntime) (s : RaftStore Bytes) : RaftRuntime :=
  mkRaftRuntime (rt_config rt) (rt_node rt) s (rt_state rt) (rt_waiters rt) (rt_next_proposal_id rt)
    (rt_failed rt).
Definition set_rt_waiters (rt : RaftRuntime) (w : gmap LogIndex PendingProposal) : RaftRuntime :=
  mkRaftRuntime (rt_config rt) (rt_node rt) (rt_store rt) (rt_state rt) w (rt_next_proposal_id rt)
    (rt_failed rt).

(** The body of the loop of [apply_committed] for one entry. *)
Definition apply_entry (rt : RaftRuntime) (entry : CommittedEntry) : RaftRuntime * list (N * option Res) :=
  let '(state, result) := apply_command (rt_state rt) (ce_command entry) in
  let '(waiters, completed) := complete_waiter (rt_waiters rt) (ce_index entry) (ce_command entry) result in
  (mkRaftRuntime (rt_config rt) (advance (rt_node rt) (ce_index entry)) (rt_store rt) state waiters
     (rt_next_proposal_id rt) (rt_failed rt), completed).

(** The loop of [apply_committed]; [apply_committed_correct] shows that the fuel
    it is given exhausts the committed entries. *)
Fixpoint apply_loop (fuel : nat) (rt : RaftRuntime) (done : list (N * option Res))
    : RaftRuntime * list (N * option Res) :=
  match fuel with
  | O => (rt, done)
  | S fuel =>
      match committed (rt_node rt) with
      | [] => (rt, done)
      | entry :: _ =>
          let '(rt, completed) := apply_entry rt entry in
          apply_loop fuel rt (done ++ completed)
      end
  end.

Definition apply_committed (rt : RaftRuntime) : RaftRuntime * list (N * option Res) :=
  apply_loop (N.to_nat (commit_index (core (rt_node rt)))) rt [].

(** [wal_ok] says whether the store's disk writes succeed. *)
Definition handle_effects (wal_ok : bool) (rt : RaftRuntime) (e : Effects)
    : option (RaftRuntime * Output * option RuntimeError) :=
  let* saved :=
    (if persist e then save encode wal_ok (rt_store rt) (node_persistent (rt_node rt))
     else Some (inr (rt_store rt))) in
  match saved with
  | inl err => Some (rt, mkOutput [] [], Some (StoreFailed err))
  | inr store =>
      let rt := set_rt_store rt store in
      match send_snapshots e with
      | _ :: _ => Some (rt, mkOutput [] [], Some SnapshotTransportUnsupported)
      | [] =>
          let '(sent, err) := send_messages (rt_config rt) (messages e) in
          match err with
          | Some err => Some (rt, mkOutput sent [], Some err)
          | None =>
              let '(rt, completed) := apply_committed rt in
              Some (rt, mkOutput sent completed, None)
          end
      end
  end.

Definition fail (rt : RaftRuntime) : RaftRuntime :=
  mkRaftRuntime (rt_config rt) (rt_node rt) (rt_store rt) (rt_state rt) (rt_waiters rt)
    (rt_next_proposal_id rt) true.

(** [handle_effects(..).map_err(|error| self.fail(error))]. *)
Definition handle_or_fail (wal_ok : bool) (rt : RaftRuntime) (e : Effects)
    : option (RaftRuntime * Output * option RuntimeError) :=
  let* (rt, out, err) := handle_effects wal_ok rt e in
  Some (match err with Some _ => fail rt | None => rt end, out, err).

(** [ensure_healthy] is asked before the machine lock is taken. The [_locked]
    functions are what runs under the lock; [runtime_step], [tick_once] and [propose]
    are the calls that get the lock at once. *)
Definition step_locked (wal_ok : bool) (rt : RaftRuntime) (m : Message)
    : option (RaftRuntime * Output * option RuntimeError) :=
  let* (n, e) := node_step (rt_node rt) m in
  handle_or_fail wal_ok (set_rt_node rt n) e.

Definition runtime_step (wal_ok : bool) (rt : RaftRuntime) (m : Message)
    : option (RaftRuntime * Output * option RuntimeError) :=
  if rt_failed rt then Some (rt, mkOutput [] [], Some Failed) else step_locked wal_ok rt m.

Definition tick_locked (wal_ok : bool) (rt : RaftRuntime)
    : option (RaftRuntime * Output * option RuntimeError) :=
  let* (n, e) := tick (rt_node rt) in
  handle_or_fail wal_ok (set_rt_node rt n) e.

Definition tick_once (wal_ok : bool) (rt : RaftRuntime)
    : option (RaftRuntime * Output * option RuntimeError) :=
  if rt_failed rt then Some (rt, mkOutput [] [], Some Failed) else tick_locked wal_ok rt.

Definition remove_pending (waiters : gmap LogIndex PendingProposal) (index : LogIndex) (id : N)
    : gmap LogIndex PendingProposal :=
  match waiters !! index with
  | Some pending => if pp_id pending =? id then delete index waiters else waiters
  | None => waiters
  end.

(** The errors of [propose] before it waits; [RPRuntime] is an internal error. *)
Inductive RuntimeProposeError :=
| RPRuntime (e : RuntimeError)
| RPIdExhausted
| RPPropose (e : ProposeError).

(** The block of [propose] under the machine lock: register the proposal at its index
    and handle the effects. *)
Definition propose_locked (wal_ok : bool) (rt : RaftRuntime) (proposal_id : N) (bytes : list Byte.byte)
    : option (RaftRuntime * Output * (RuntimeProposeError + LogIndex * N)) :=
  let* (n, r) := node_propose (rt_node rt) (mkCommand bytes) in
  let rt := set_rt_node rt n in
  match r with
  | inl e => Some (rt, mkOutput [] [], inl (RPPropose e))
  | inr (index, effects) =>
      let rt := set_rt_waiters rt
                  (<[index := mkPendingProposal proposal_id bytes]> (rt_waiters rt)) in
      let* (rt, out, err) := handle_effects wal_ok rt effects in
      match err with
      | Some e =>
          Some (fail (set_rt_waiters rt (remove_pending (rt_waiters rt) index proposal_id)), out,
                inl (RPRuntime e))
      | None => Some (rt, out, inr (index, proposal_id))
      end
  end.

(** [propose] up to the point where it waits, with the command already encoded;
    the result carries the index and the id its [PendingCleanup] removes. *)
Definition propose (wal_ok : bool) (rt : RaftRuntime) (bytes : list Byte.byte)
    : option (RaftRuntime * Output * (RuntimeProposeError + LogIndex * N)) :=
  if rt_failed rt then Some (rt, mkOutput [] [], inl (RPRuntime Failed))
  else
    match u64_checked_add (rt_next_proposal_id rt) 1 with
    | None => Some (rt, mkOutput [] [], inl RPIdExhausted)
    | Some next =>
        let rt' := mkRaftRuntime (rt_config rt) (rt_node rt) (rt_store rt) (rt_state rt) (rt_waiters rt)
                     next (rt_failed rt) in
        propose_locked wal_ok rt' (rt_next_proposal_id rt) bytes
    end.

(** [PendingCleanup::finish], after the wait. *)
Definition cleanup_finish (rt : RaftRuntime) (index : LogIndex) (id : N) : RaftRuntime :=
  set_rt_waiters rt (remove_pending (rt_waiters rt) index id).

End Runtime.

Arguments RaftRuntime Addr Bytes State : clear implicits.
Arguments NodeConfig Addr : clear implicits.
Arguments Output Res : clear implicits.
Arguments RuntimeError Addr : clear implicits.

(** ** Applying committed entries *)

Lemma range_excl_cons lo hi :
  range_excl lo hi = if lo <? hi then lo :: range_excl (lo + 1) hi else [].
Proof.
  unfold range_excl. destruct (N.ltb_spec lo hi).
  - replace (N.to_nat (hi - lo)) with (S (N.to_nat (hi - (lo + 1)))) by lia.
    cbn [seq map]. rewrite N.add_0_r. f_equal. rewrite <- seq_shift, map_map. apply map_ext. intros k. lia.
  - by replace (N.to_nat (hi - lo)) with 0%nat by lia.
Qed.

Lemma omap_range_head {A} (f : N → option A) hi e rest : ∀ n lo,
  n = N.to_nat (hi - lo) → omap f (range_excl lo hi) = e :: rest →
  ∃ k, lo ≤ k < hi ∧ f k = Some e ∧ rest = omap f (range_excl (k + 1) hi).
Proof.
  induction n as [|n IH]; intros lo Hn; rewrite range_excl_cons; destruct (N.ltb_spec lo hi); try done; [lia |].
  simpl. destruct (f lo) as [x|] eqn:Hf.
  - intros [= <- <-]. exists lo. by split_and!; [lia.. | |].
  - intros Hrest. destruct (IH (lo + 1) ltac:(lia) Hrest) as (k & Hk & ?). exists k. split; [lia | done].
Qed.

Lemma omap_range_length {A} (f : N → option A) lo hi : (length (omap f (range_excl lo hi)) ≤ N.to_nat (hi - lo))%nat.
Proof.
  assert (∀ l : list N, length (omap f l) ≤ length l)%nat as Hle.
  { induction l as [|x l IH]; csimpl; [done |]. destruct (f x); csimpl; lia. }
  eapply Nat.le_trans; [apply Hle |]. unfold range_excl. by rewrite length_map, length_seq.
Qed.

(** The committed entries still to apply, and their order. *)
Lemma committed_cons n entry rest :
  log_wf (log (core n)) → commit_index (core n) < u64_max → last_applied (core n) < u64_max →
  committed n = entry :: rest →
  last_applied (core n) < ce_index entry ≤ commit_index (core n) ∧
  committed (advance n (ce_index entry)) = rest.
Proof.
  intros Hw Hc Ha. unfold committed. rewrite !(u64_add_small _ 1) by ulia. intros He.
  destruct (omap_range_head _ _ _ _ _ _ eq_refl He) as (k & Hk & Hf & ->).
  assert (ce_index entry = k) as ->.
  { unfold committed_entry in Hf. destruct (get (log (core n)) k) as [x|] eqn:Hg; [|done].
    apply get_Some in Hg as (_ & Hi & _); [|done | ulia]. destruct (e_payload x); [|done].
    injection Hf as <-. exact Hi. }
  split; [lia |]. simpl. rewrite !u64_add_small by ulia. done.
Qed.

Section Apply.

Context {Addr Bytes State Res : Type} (apply_command : State → Command → State * Res).

Definition apply_all (s : State) (es : list CommittedEntry) : State :=
  fold_left (fun s e => (apply_command s (ce_command e)).1) es s.

Lemma apply_loop_correct fuel : ∀ (rt : RaftRuntime Addr Bytes State) done,
  log_wf (log (core (rt_node rt))) → commit_index (core (rt_node rt)) < u64_max →
  last_applied (core (rt_node rt)) < u64_max → (length (committed (rt_node rt)) ≤ fuel)%nat →
  let rt' := (apply_loop apply_command fuel rt done).1 in
  committed (rt_node rt') = [] ∧
  rt_state rt' = apply_all (rt_state rt) (committed (rt_node rt)) ∧
  (∃ k, rt_node rt' = advance (rt_node rt) k ∧
        (k = last_applied (core (rt_node rt)) ∨
         last_applied (core (rt_node rt)) < k ≤ commit_index (core (rt_node rt)))) ∧
  rt_store rt' = rt_store rt ∧ rt_config rt' = rt_config rt ∧ rt_failed rt' = rt_failed rt.
Proof.
  assert (∀ n : RaftNode, n = advance n (last_applied (core n))) as Hid by (by intros [[] ?]).
  induction fuel as [|fuel IH]; intros rt done Hw Hc Ha Hlen; simpl.
  { destruct (committed (rt_node rt)); simpl in Hlen; [|lia]. split_and!; eauto. }
  destruct (committed (rt_node rt)) as [|entry rest] eqn:He; [split_and!; eauto |].
  destruct (committed_cons _ _ _ Hw Hc Ha He) as [Hk Hrest].
  unfold apply_entry. destruct (apply_command (rt_state rt) (ce_command entry)) as [st res] eqn:Hap.
  destruct (complete_waiter _ _ _ _) as [ws comp]. set (rt1 := mkRaftRuntime _ _ _ _ _ _ _).
  edestruct (IH rt1 (done ++ comp)) as (H1 & H2 & (k & H3 & Hk3) & H4 & H5 & H6);
    [exact Hw | exact Hc | simpl; lia | simpl; rewrite Hrest; simpl in Hlen; lia |].
  simpl in *. rewrite Hrest in H2. split_and!; try done.
  - rewrite H2. unfold apply_all. simpl. by rewrite Hap.
  - exists k. split; [by rewrite H3 | lia].
Qed.

(** C21: [apply_committed] terminates with nothing left to apply: it applies every
    committed command the node holds to the state machine exactly once and in log
    order, moves the applied index monotonically and never past the commit index,
    and touches neither the store nor the log. *)
Theorem apply_committed_correct (rt : RaftRuntime Addr Bytes State) :
  log_wf (log (core (rt_node rt))) → commit_index (core (rt_node rt)) < u64_max →
  last_applied (core (rt_node rt)) < u64_max →
  let rt' := (apply_committed apply_command rt).1 in
  committed (rt_node rt') = [] ∧
  rt_state rt' = apply_all (rt_state rt) (committed (rt_node rt)) ∧
  (∃ k, rt_node rt' = advance (rt_node rt) k ∧
        (k = last_applied (core (rt_node rt)) ∨
         last_applied (core (rt_node rt)) < k ≤ commit_index (core (rt_node rt)))) ∧
  rt_store rt' = rt_store rt ∧ rt_config rt' = rt_config rt ∧ rt_failed rt' = rt_failed rt.
Proof.
  intros Hw Hc Ha. apply apply_loop_correct; [done..|]. unfold committed.
  eapply Nat.le_trans; [apply omap_range_length |]. rewrite !u64_add_small by ulia. lia.
Qed.

(** [apply_committed] waits for the lock of the state before every entry, and a task that
    waits can be dropped with its connection. *)
Lemma apply_loop_done fuel : ∀ (rt : RaftRuntime Addr Bytes State) ds,
  apply_loop apply_command fuel rt ds =
    let '(rt', completed) := apply_loop apply_command fuel rt [] in (rt', ds ++ completed).
Proof.
  induction fuel as [|fuel IH]; intros rt ds; simpl; [by rewrite app_nil_r |].
  destruct (committed (rt_node rt)); [by rewrite app_nil_r |]. destruct (apply_entry _ _ _) as [rt1 comp].
  rewrite (IH rt1 (ds ++ comp)), (IH rt1 comp). destruct (apply_loop _ _ _ _). by rewrite app_assoc.
Qed.

Lemma apply_loop_split a b : ∀ (rt : RaftRuntime Addr Bytes State) ds,
  apply_loop apply_command (a + b) rt ds =
    let '(rt', ds') := apply_loop apply_command a rt ds in apply_loop apply_command b rt' ds'.
Proof.
  induction a as [|a IH]; intros rt ds; [done |]. simpl. destruct (committed (rt_node rt)) eqn:E.
  - destruct b; simpl; [done |]. by rewrite E.
  - destruct (apply_entry _ _ _). apply IH.
Qed.

Lemma apply_loop_stop b (rt : RaftRuntime Addr Bytes State) ds :
  committed (rt_node rt) = [] → apply_loop apply_command b rt ds = (rt, ds).
Proof. intros H. destruct b; simpl; [done |]. by rewrite H. Qed.

(** Dropped and resumed. If a task is dropped after it has applied [k] of the committed
    entries, the next operation applies exactly the others: in the end the runtime and the
    answers given are those of an application without the interruption. *)
Theorem apply_resumes k (rt : RaftRuntime Addr Bytes State) :
  log_wf (log (core (rt_node rt))) → commit_index (core (rt_node rt)) < u64_max →
  last_applied (core (rt_node rt)) < u64_max →
  let '(rt1, done1) := apply_loop apply_command k rt [] in
  let '(rt2, done2) := apply_committed apply_command rt1 in
  apply_committed apply_command rt = (rt2, done1 ++ done2).
Proof.
  intros Hw Hc Ha. unfold apply_committed. set (n := N.to_nat (commit_index (core (rt_node rt)))).
  assert (committed (rt_node (apply_loop apply_command n rt []).1) = []) as Hstop.
  { apply apply_loop_correct; [done..|]. unfold committed. eapply Nat.le_trans; [apply omap_range_length |].
    rewrite !u64_add_small by ulia. unfold n. lia. }
  assert (commit_index (core (rt_node (apply_loop apply_command k rt []).1)) = commit_index (core (rt_node rt))) as Hci.
  { clear. revert rt. generalize (@nil (N * option Res)). induction k as [|k IH]; intros ds rt; simpl; [done |].
    destruct (committed _); [done |]. unfold apply_entry. destruct (apply_command _ _), (complete_waiter _ _ _ _).
    by rewrite IH. }
  pose proof (apply_loop_split n k rt []) as H1. pose proof (apply_loop_split k n rt []) as H2.
  destruct (apply_loop apply_command k rt []) as [rt1 done1]. simpl in Hci. rewrite Hci. fold n.
  destruct (apply_loop apply_command n rt []) as [rt3 done3]. simpl in Hstop. rewrite (apply_loop_stop k rt3) in H1 by exact Hstop.
  rewrite Nat.add_comm, H2, apply_loop_done in H1. destruct (apply_loop apply_command n rt1 []) as [rt2 done2]. by rewrite <- H1.
Qed.

End Apply.

(** A single-node log of two committed commands. *)
Definition demo_committed : RaftRuntime unit unit (list Byte.byte) :=
  let cmd b := PCommand (mkCommand [b]) in
  let l := mkLog [mkEntry 1 1 (cmd Byte.x01); mkEntry 1 2 (cmd Byte.x02)] 0 0 None in
  let c := mkCore (raft_config 1) (mkPersistent 1 (Some 1) l (simple [1])) 2 0 0 7 in
  let n := mkRaftNode c (RFollower (Follower.mkFollower None 0 None)) in
  mkRaftRuntime (mkNodeConfig 1 tt [(1, tt)] (raft_config 1)) n (mkRaftStore [] (persistent c)) [] ∅ 1 false.

Definition demo_append (s : list Byte.byte) (x : Command) : list Byte.byte * unit := (s ++ cmd_bytes x, tt).

Lemma demo_committed_wf : log_wf (log (core (rt_node demo_committed))).
Proof. split; [|reflexivity]. intros [|[|i]] e He; simpl in He; simplify_eq; reflexivity. Qed.

Lemma apply_committed_correct_witness :
  let rt' := (apply_committed demo_append demo_committed).1 in
  committed (rt_node rt') = [] ∧ rt_state rt' = [Byte.x01; Byte.x02].
Proof.
  intros rt'. destruct (apply_committed_correct demo_append demo_committed demo_committed_wf eq_refl eq_refl) as (H1 & H2 & _).
  split; [exact H1 |]. etransitivity; [exact H2 |]. reflexivity.
Defined.

(** The task is dropped between the two commands. *)
Lemma apply_resumes_witness :
  let '(rt1, _) := apply_loop demo_append 1 demo_committed [] in
  rt_state rt1 = [Byte.x01] ∧ (apply_committed demo_append rt1).1 = (apply_committed demo_append demo_committed).1.
Proof.
  pose proof (apply_resumes demo_append 1 demo_committed demo_committed_wf eq_refl eq_refl) as H.
  destruct (apply_loop demo_append 1 demo_committed []) as [rt1 done1] eqn:E. split.
  - vm_compute in E. injection E as <- _. reflexivity.
  - destruct (apply_committed demo_append rt1) as [rt2 done2]. rewrite H. reflexivity.
Defined.
