(* ===== verification/Cluster.v ===== *)
(** * A cluster of runtimes

    The deployed system: one [RaftRuntime] per peer of the static peer table, and
    the messages handed to the transports. An execution is a list of actions: a
    node ticks, receives any message that was ever sent to it (so messages may be
    lost, delayed, reordered and repeated), proposes, gives up waiting for a
    proposal, has a failing disk, or restarts from its write-ahead log. Node
    restarts lose all volatile state.

    The theorems: at most one leader per term over the whole execution, the Log
    Matching Property for any two nodes, a restart always finds the state the
    node had, and no action panics except a proposal to a leader whose commit
    index exceeds its log. Two executions of the deployed configuration: in one
    two nodes apply different commands at one index, in the other that exception
    is reached. *)

From S2P Require Import Prelude BTree Membership Log Event Core Role.
From S2P Require Import Follower PreCandidate Candidate Leader Node Raft Refine Progress Store Runtime.

Open Scope N_scope.

Section Cluster.

Context {Addr : Type} `{!EqDecision Addr}.
Context {Bytes : Type} (encode : PersistentDelta → option Bytes) (decode : Bytes → option PersistentDelta).
Context {State Res : Type} (apply_command : State → Command → State * Res) (init_state : State).

(** The peer table every node is configured with, and the Raft configuration of
    each node. *)
Context (table : list (NodeId * Addr)) (consensus_of : NodeId → Config).

Record Cluster := mkCluster {
  runtimes : gmap NodeId (RaftRuntime Addr Bytes State);
  network : list Message
}.

Definition node_config (i : NodeId) (addr : Addr) : NodeConfig Addr :=
  mkNodeConfig i addr table (consensus_of i).

(** Open a runtime for each peer, with an empty write-ahead log. *)
Fixpoint boot (ps : list (NodeId * Addr)) : option (gmap NodeId (RaftRuntime Addr Bytes State)) :=
  match ps with
  | [] => Some ∅
  | (i, addr) :: rest =>
      let* rts := boot rest in
      let* r := open_runtime decode (node_config i addr) [] init_state in
      match r with inl _ => None | inr rt => Some (<[i := rt]> rts) end
  end.

Definition init_cluster : option Cluster :=
  let* rts := boot table in Some (mkCluster rts []).

Inductive Action :=
| ATick (i : NodeId) (wal_ok : bool)
| ADeliver (k : nat) (wal_ok : bool)
| APropose (i : NodeId) (bytes : list Byte.byte) (wal_ok : bool)
| AFinish (i : NodeId) (index : LogIndex) (id : N)
| ARestart (i : NodeId).

Definition put (s : Cluster) (i : NodeId) (rt : RaftRuntime Addr Bytes State) (ms : list Message) : Cluster :=
  mkCluster (<[i := rt]> (runtimes s)) (network s ++ ms).

(** One action; [None] when the node or message does not exist, or on a panic. *)
Definition exec (s : Cluster) (a : Action) : option Cluster :=
  match a with
  | ATick i wal_ok =>
      let* rt := runtimes s !! i in
      let* (rt, out, _) := tick_once encode apply_command wal_ok rt in
      Some (put s i rt (sent out))
  | ADeliver k wal_ok =>
      let* m := network s !! k in
      let* rt := runtimes s !! msg_to m in
      match validate_message (rt_config rt) m with
      | Some _ => Some s
      | None =>
          let* (rt, out, _) := runtime_step encode apply_command wal_ok rt m in
          Some (put s (msg_to m) rt (sent out))
      end
  | APropose i bytes wal_ok =>
      let* rt := runtimes s !! i in
      let* (rt, out, _) := propose encode apply_command wal_ok rt bytes in
      Some (put s i rt (sent out))
  | AFinish i index id =>
      let* rt := runtimes s !! i in
      Some (put s i (cleanup_finish rt index id) [])
  | ARestart i =>
      let* rt := runtimes s !! i in
      let* r := open_runtime decode (rt_config rt) (wal (rt_store rt)) init_state in
      match r with inl _ => None | inr rt => Some (put s i rt []) end
  end.

Fixpoint exec_all (s : Cluster) (actions : list Action) : option Cluster :=
  match actions with
  | [] => Some s
  | a :: rest => let* s := exec s a in exec_all s rest
  end.

End Cluster.

Arguments Cluster Addr Bytes State : clear implicits.

(** ** Invariant *)

Section Facts.

Context {Addr : Type} `{!EqDecision Addr}.
Context {Bytes : Type} (encode : PersistentDelta → option Bytes) (decode : Bytes → option PersistentDelta).
Context {State Res : Type} (apply_command : State → Command → State * Res) (init_state : State).
Context (table : list (NodeId * Addr)) (consensus_of : NodeId → Config).

Hypothesis Hcodec : codec encode decode.
Hypothesis Hids : ∀ j, id (consensus_of j) = j.

Local Abbreviation runtime := (RaftRuntime Addr Bytes State).

Definition cfg : Configuration := simple (map fst table).

(** The persistent state of a node that has never run. *)
Definition initial : Persistent := mkPersistent 0 None default_log cfg.

(** The runtime of node [i] in an abstract cluster: what is on disk is the
    abstract node, and a healthy runtime's memory agrees with its disk. *)
Record rt_inv (i : NodeId) (rt : runtime) (a : ACluster) : Prop := {
  ri_config : ∃ addr, rt_config rt = node_config table consensus_of i addr ∧
    ∃ rt0 : runtime, open_runtime decode (rt_config rt) [] init_state = Some (inr rt0);
  ri_recover : recover decode initial (wal (rt_store rt)) = inr (durable (rt_store rt));
  ri_disk : ∃ r, a_nodes a i =
    mkANode (p_term (durable (rt_store rt))) (voted_for (durable (rt_store rt)))
      (p_log (durable (rt_store rt))) r;
  ri_boot : bootstrap_config (durable (rt_store rt)) = cfg;
  ri_live : rt_failed rt = false →
    represents cfg i a (rt_node rt) ∧ node_persistent (rt_node rt) = durable (rt_store rt) ∧
    config (core (rt_node rt)) = consensus_of i
}.

Record cinv (B : N) (s : Cluster Addr Bytes State) (a : ACluster) : Prop := {
  ci_abs : ainv cfg B a;
  ci_net : ∀ m, In m (network s) → In m (a_net a);
  ci_rt : ∀ i rt, runtimes s !! i = Some rt → rt_inv i rt a
}.

Lemma apply_loop_frame fuel : ∀ (rt : runtime) done,
  let rt' := (apply_loop apply_command fuel rt done).1 in
  (∃ k, rt_node rt' = advance (rt_node rt) k) ∧ rt_store rt' = rt_store rt ∧
  rt_config rt' = rt_config rt ∧ rt_failed rt' = rt_failed rt.
Proof.
  assert (∀ n : RaftNode, n = advance n (last_applied (core n))) as Hid by (by intros [[] ?]).
  induction fuel as [|fuel IH]; intros rt done; simpl; [eauto |].
  destruct (committed (rt_node rt)) as [|e es]; [eauto |].
  unfold apply_entry. destruct (apply_command _ _) as [st res]. destruct (complete_waiter _ _ _ _) as [ws comp].
  set (rt1 := mkRaftRuntime _ _ _ _ _ _ _).
  destruct (IH rt1 (done ++ comp)) as ((k & ->) & -> & -> & ->). eauto.
Qed.

Lemma represents_advance i a n k : represents cfg i a n → represents cfg i a (advance n k).
Proof. intros [? ? ? ?]. by split. Qed.

Lemma log_ok_successor n n' links' :
  (∀ p e p' e', In (p, e) links' → In (p', e') links' →
     e_term e = e_term e' → e_index e = e_index e' → p = p' ∧ e = e') →
  log_ok links' (p_log n) → log_ok links' (p_log n') → p_term n ≤ p_term n' → successor n n'.
Proof.
  intros Hfun Hn Hn' Ht. pose proof Hn as [Hw Hs [Hc Hst] _]. pose proof Hn' as [Hw' Hs' [Hc' Hst'] _].
  split; [done.. | congruence | congruence | congruence |].
  intros k Hk Hd Hc1 Hte j Hj. pose proof (last_index_bound _ Hw).
  destruct (get_in_range (p_log n) k) as [x Hx]; [done | lia |].
  destruct (get_in_range (p_log n') k) as [y Hy]; [done | lia |].
  rewrite !term_at_get0, Hx, Hy in Hte by (done || ulia).
  eapply (log_match links' (p_log n) (p_log n') Hfun Hn Hn' (N.to_nat k) k); [lia | ulia | done..].
Qed.

Lemma send_messages_incl (c : NodeConfig Addr) ms : ∀ out err,
  send_messages c ms = (out, err) → ∀ m, In m out → In m ms.
Proof.
  induction ms as [|x xs IH]; intros out err; simpl; [by intros [= <- _] |].
  destruct (transport_send c x); [by intros [= <- _] |].
  destruct (send_messages c xs) as [ys e'] eqn:E. intros [= <- _] m [->|Hm]; [by left | right; by eapply IH].
Qed.

Lemma moved_successor B i a n e a' n' :
  B + 1 < u64_max → ainv cfg B a → represents cfg i a n → moved cfg B i a n e a' n' →
  successor (node_persistent n) (node_persistent n').
Proof.
  intros HB Hinv Hrep [Hinv' Hgr _ Hrep' _ _ _ _ _ Ht].
  pose proof (ig_log _ _ (ai_log _ _ _ Hinv) i) as Hl. rewrite (rp_abs _ _ _ _ Hrep) in Hl.
  pose proof (ig_log _ _ (ai_log _ _ _ Hinv') i) as Hl'. rewrite (rp_abs _ _ _ _ Hrep') in Hl'.
  eapply log_ok_successor; [apply Hinv' | | exact Hl' | exact Ht].
  eapply log_ok_mono, Hl. apply Hgr.
Qed.

(** The runtime after an operation of its node: it is in the abstract cluster
    [a'] the node moved to, or, when its disk failed, still in [a]. *)
Lemma handle_effects_inv B i wal_ok a a' n n' e (rt rt' : runtime) out err :
  B + 1 < u64_max → ainv cfg B a → represents cfg i a n → moved cfg B i a n e a' n' →
  rt_inv i (set_rt_node rt n) a → rt_failed rt = false → rt_node rt = n' →
  handle_effects encode apply_command wal_ok rt e = Some (rt', out, err) →
  ∃ a2, ainv cfg (B + 1) a2 ∧ grows a a2 ∧ (∀ j, j ≠ i → a_nodes a2 j = a_nodes a j) ∧
        (∀ m, In m (sent out) → In m (a_net a2)) ∧
        rt_inv i (match err with Some _ => fail rt' | None => rt' end) a2 ∧
        ((a2 = a ∧ sent out = [] ∧ err ≠ None) ∨ a2 = a').
Proof.
  intros HB Hinv Hrep Hmv [Rc Rr Rd Rb Rl] Hf Hn. pose proof Hmv as [Mi Mg _ Mr Mo Mn Ms Mp Mc Mt].
  simpl in *. destruct (Rl Hf) as (_ & Hdur & Hcfg).
  unfold handle_effects. intros H.
  destruct (if persist e then _ else _) as [[serr|st]|] eqn:Hsave; [|..|done].
  { opt_inv. exists a. split_and!; [eapply ainv_mono, Hinv; lia | done | done | done | by split | by left]. }
  assert (durable st = node_persistent n' ∧ recover decode initial (wal st) = inr (durable st)) as [Hst Hrec].
  { subst n'. destruct (persist e) eqn:Hp.
    - pose proof (moved_successor B i a n e a' _ HB Hinv Hrep Hmv) as Hsucc.
      destruct wal_ok.
      + rewrite Hdur in Hsucc. destruct (save_recovers encode decode initial _ _ _ Hcodec Rr Hsucc Hsave) as [-> ->]. done.
      + unfold save in Hsave. by repeat case_match; opt_inv.
    - injection Hsave as <-. unfold node_persistent in *. by rewrite Mp, Hdur by done. }
  assert (∀ n2, represents cfg i a' n2 → node_persistent n2 = node_persistent n' →
            config (core n2) = config (core n') → ∀ state ws k b,
            rt_inv i (mkRaftRuntime (rt_config rt) n2 st state ws k b) a') as Hdone.
  { intros n2 Hr2 Hp2 Hc2 state ws k b. split; simpl; [done | done | | |].
    - exists (a_role (a_nodes a' i)). rewrite (rp_abs _ _ _ _ Mr), Hst. done.
    - rewrite Hst. apply Mr.
    - intros _. split_and!; [done | congruence | congruence]. }
  rewrite Ms in H. destruct (send_messages (rt_config (set_rt_store rt st)) (messages e)) as [ms serr] eqn:Hsend.
  assert (∀ m, In m ms → In m (a_net a')) as Hms.
  { intros m Hm. rewrite Mn. apply in_app_iff. right. by eapply send_messages_incl. }
  exists a'. destruct serr as [serr|].
  - opt_inv. split_and!; try done; [|by right]. apply Hdone; [by subst | by subst | by subst].
  - unfold apply_committed in H. set (rt1 := set_rt_store rt st) in *.
    destruct (apply_loop_frame (N.to_nat (commit_index (core (rt_node rt1)))) rt1 []) as ((k & Hk) & H2 & H3 & H4).
    destruct (apply_loop _ _ _ _) as [rt2 comp]. opt_inv. simpl in *. split_and!; try done; [|by right].
    destruct rt2 as [c2 n2 s2 t2 w2 x2 f2]. simpl in *. subst.
    apply Hdone; [by apply represents_advance | done | done].
Qed.

(** [rt_inv] looks at the runtime's configuration, node, store and health, and at
    its own node of the abstract cluster. *)
Lemma rt_inv_frame i (rt rt' : runtime) a a' :
  rt_inv i rt a → a_nodes a' i = a_nodes a i → rt_config rt' = rt_config rt → rt_node rt' = rt_node rt →
  rt_store rt' = rt_store rt → (rt_failed rt' = false → rt_failed rt = false) → rt_inv i rt' a'.
Proof.
  intros [Rc Rr Rd Rb Rl] Ha Hc Hn Hs Hf. split; rewrite ?Hc, ?Hs, ?Ha; try done.
  intros Hf'. destruct (Rl (Hf Hf')) as ([? ? ? ?] & ? & ?). rewrite Hn. split_and!; [|done..].
  split; [by rewrite Ha | done..].
Qed.

Lemma put_inv B i (s : Cluster Addr Bytes State) a a2 (rt' : runtime) ms :
  cinv B s a → ainv cfg (B + 1) a2 → grows a a2 → (∀ j, j ≠ i → a_nodes a2 j = a_nodes a j) →
  (∀ m, In m ms → In m (a_net a2)) → rt_inv i rt' a2 → cinv (B + 1) (put s i rt' ms) a2.
Proof.
  intros [Ca Cn Cr] Hinv Hgr Hj Hms Hrt. split; simpl; [done | |].
  - intros m [Hm|Hm]%in_app_iff; [apply Hgr; auto | auto].
  - intros j rt. destruct (decide (i = j)) as [<-|Hne].
    + rewrite lookup_insert_eq. by intros [= <-].
    + rewrite lookup_insert_ne by done. intros Hrtj.
      eapply rt_inv_frame; [by apply Cr | by apply Hj | done..].
Qed.

(** An action that leaves the abstract cluster where it is. *)
Lemma put_same B i (s : Cluster Addr Bytes State) a (rt rt' : runtime) :
  cinv B s a → runtimes s !! i = Some rt → rt_config rt' = rt_config rt → rt_node rt' = rt_node rt →
  rt_store rt' = rt_store rt → rt_failed rt' = rt_failed rt → cinv (B + 1) (put s i rt' []) a.
Proof.
  intros Hc Hrt H1 H2 H3 H4. pose proof Hc as [Ca _ Cr].
  eapply put_inv; try done; [eapply ainv_mono, Ca; lia |].
  eapply rt_inv_frame; [by apply Cr | done.. | congruence].
Qed.

(** A step of a healthy runtime's node followed by its effects. *)
Lemma run_effects_inv B i wal_ok (s : Cluster Addr Bytes State) a a' n n' e (rt rt1 rt' : runtime) out err :
  B + 1 < u64_max → cinv B s a → runtimes s !! i = Some rt → rt_failed rt = false → rt_node rt = n →
  moved cfg B i a n e a' n' →
  rt_config rt1 = rt_config rt → rt_node rt1 = n' → rt_store rt1 = rt_store rt → rt_failed rt1 = false →
  handle_effects encode apply_command wal_ok rt1 e = Some (rt', out, err) →
  ∃ a2, cinv (B + 1) (put s i (match err with Some _ => fail rt' | None => rt' end) (sent out)) a2 ∧ grows a a2 ∧
        ((a2 = a ∧ sent out = [] ∧ err ≠ None) ∨ a2 = a').
Proof.
  intros HB Hc Hrt Hf <- Hmv H1 H2 H3 H4 Hh. pose proof Hc as [Ca _ Cr]. pose proof (Cr _ _ Hrt) as Hri.
  destruct (ri_live _ _ _ Hri Hf) as (Hrep & _).
  destruct (handle_effects_inv B i wal_ok a a' (rt_node rt) n' e rt1 rt' out err HB Ca Hrep Hmv)
    as (a2 & Hinv & Hgr & Hj & Hms & Hrt' & Hor); [|done..|].
  { eapply rt_inv_frame; [exact Hri | done.. | by rewrite Hf]. }
  exists a2. split_and!; [by eapply put_inv | done | done].
Qed.

Lemma event_inv B i wal_ok (s : Cluster Addr Bytes State) a ev (rt rt' : runtime) out err n e :
  B + 1 < u64_max → cinv B s a → runtimes s !! i = Some rt → rt_failed rt = false →
  event_in i (a_net a) ev → step_event (rt_node rt) ev = Some (n, e) →
  handle_or_fail encode apply_command wal_ok (set_rt_node rt n) e = Some (rt', out, err) →
  ∃ a2, cinv (B + 1) (put s i rt' (sent out)) a2 ∧ grows a a2.
Proof.
  intros HB Hc Hrt Hf Hin Hst. unfold handle_or_fail. intros Hh. pose proof Hc as [Ca _ Cr].
  destruct (ri_live _ _ _ (Cr _ _ Hrt) Hf) as (Hrep & _).
  destruct (step_event_moved cfg B HB i a _ ev n e Ca Hrep Hin Hst) as [a' Hmv].
  opt_inv. edestruct run_effects_inv as (a2 & ? & ? & _);
    [done | done | done | done | reflexivity | done | ..| exact E |]; [done.. | eauto].
Qed.

Lemma open_runtime_ok i addr records (rt : runtime) :
  open_runtime decode (node_config table consensus_of i addr) records init_state = Some (inr rt) →
  ∃ p, recover decode initial records = inr p ∧ rt_store rt = mkRaftStore records p ∧
       rt_config rt = node_config table consensus_of i addr ∧ rt_failed rt = false ∧
       persistent (core (rt_node rt)) = p ∧ config (core (rt_node rt)) = consensus_of i ∧
       abs_role (role (rt_node rt)) = AFollower ∧ role_ok (role (rt_node rt)).
Proof.
  unfold open_runtime. case_match; [done |]. intros Ho. opt_inv.
  assert (node_persistent r = initial) as Hr.
  { unfold node_new, become_follower in E. opt_inv. destruct (follower_new_frame _ _ _ _ E0) as [rg ->]. done. }
  rewrite Hr in Ho. unfold open_store in Ho. destruct (recover decode initial records) as [|p] eqn:Hrec; [done |].
  opt_inv. injection Ho as <-. exists p. unfold node_restore, become_follower in E0. opt_inv.
  destruct (follower_new_frame _ _ _ _ E1) as [rg ->]. done.
Qed.

Lemma opened_inv B i addr p (rt : runtime) a :
  ainv cfg B a → a_nodes a i = mkANode (p_term p) (voted_for p) (p_log p) AFollower →
  bootstrap_config p = cfg →
  recover decode initial (wal (rt_store rt)) = inr p → durable (rt_store rt) = p →
  rt_config rt = node_config table consensus_of i addr →
  (∃ rt0 : runtime, open_runtime decode (rt_config rt) [] init_state = Some (inr rt0)) →
  persistent (core (rt_node rt)) = p → config (core (rt_node rt)) = consensus_of i →
  abs_role (role (rt_node rt)) = AFollower → role_ok (role (rt_node rt)) → rt_inv i rt a.
Proof.
  intros Hinv Ha Hb Hrec Hd Hc Ho Hp Hcc Hr Hro. split; rewrite ?Hd; eauto.
  intros _. split_and!; [|done | done]. split; [|unfold core_id; by rewrite Hcc | by rewrite Hp | done].
  rewrite Ha. unfold abs_node, abs_core, term, log. by rewrite Hp, Hr.
Qed.

Local Abbreviation exec := (exec encode decode apply_command init_state).
Local Abbreviation exec_all := (exec_all encode decode apply_command init_state).
Local Abbreviation init_cluster := (init_cluster decode init_state table consensus_of).

Lemma restart_inv B i (s : Cluster Addr Bytes State) a (rt rt' : runtime) :
  B + 1 < u64_max → cinv B s a → runtimes s !! i = Some rt →
  open_runtime decode (rt_config rt) (wal (rt_store rt)) init_state = Some (inr rt') →
  ∃ a', cinv (B + 1) (put s i rt' []) a' ∧ micro cfg (B + 1) a a' ∧ a_net a' = a_net a.
Proof.
  intros HB Hc Hrt Ho. pose proof Hc as [Ca _ Cr]. destruct (Cr _ _ Hrt) as [(addr & Rc & Ro) Rr [r Rd] Rb _].
  rewrite Rc in Ho, Ro. destruct (open_runtime_ok _ _ _ _ Ho) as (p & Hp & Hst & Hcf & _ & Hper & Hcc & Hro & Hrok).
  rewrite Rr in Hp. injection Hp as Hp.
  assert (micro cfg (B + 1) a (mkACluster
            (upd (a_nodes a) i (mkANode (p_term p) (voted_for p) (p_log p) AFollower))
            (a_net a) (h_votes a) (h_leaders a) (h_links a))) as Hm.
  { pose proof (M_step_down cfg (B + 1) a i) as Hm. rewrite Rd, Hp in Hm. exact Hm. }
  eexists. split; [|split; [exact Hm | done]].
  assert (ainv cfg (B + 1) a) as Ca' by (eapply ainv_mono, Ca; lia).
  pose proof (ainv_step _ _ HB _ _ Hm Ca') as Hinv.
  eapply put_inv; [done | exact Hinv | by eapply micro_grows | intros j Hj; by apply upd_ne | done |].
  eapply opened_inv; [exact Hinv | apply upd_eq | congruence | | by rewrite Hst | done | by rewrite Hcf | done..].
  rewrite Hst. simpl. congruence.
Qed.

Lemma propose_inv B i wal_ok bytes (s : Cluster Addr Bytes State) a (rt rt' : runtime) out res :
  B + 1 < u64_max → cinv B s a → runtimes s !! i = Some rt →
  propose encode apply_command wal_ok rt bytes = Some (rt', out, res) →
  ∃ a', cinv (B + 1) (put s i rt' (sent out)) a' ∧ grows a a'.
Proof.
  intros HB Hc Hrt. unfold propose, propose_locked. destruct (rt_failed rt) eqn:Hf.
  { intros H. opt_inv. exists a; split; [by eapply put_same | done]. }
  destruct (u64_checked_add _ _) as [next|]; [|intros H; opt_inv; exists a; split; [by eapply put_same | done]].
  cbn [rt_node]. destruct (node_propose (rt_node rt) (mkCommand bytes)) as [[n r]|] eqn:Hp; [|done].
  pose proof Hc as [Ca _ Cr]. destruct (ri_live _ _ _ (Cr _ _ Hrt) Hf) as (Hrep & _).
  pose proof (propose_moved cfg B HB i a _ _ _ _ Ca Hrep Hp) as Hres.
  destruct r as [e|[index e]].
  { intros H. opt_inv. subst n. exists a; split; [by eapply put_same | done]. }
  destruct Hres as [_ [a' Hmv]]. intros H. opt_inv.
  edestruct run_effects_inv as (a2 & Hc2 & Hgr & _);
    [done | done | done | done | reflexivity | done | | | | | exact E |]; [done..|].
  exists a2. split; [|done]. destruct o; opt_inv; [|done].
  destruct Hc2 as [? ? Hr2]. split; [done | done |]. intros j rtj. simpl. specialize (Hr2 j). simpl in Hr2.
  destruct (decide (i = j)) as [<-|Hne]; [|rewrite lookup_insert_ne in * by done; auto].
  rewrite lookup_insert_eq in *. intros [= <-]. eapply rt_inv_frame; [by apply Hr2 | done..].
Qed.

Lemma exec_inv B act (s s' : Cluster Addr Bytes State) a :
  B + 1 < u64_max → cinv B s a → exec s act = Some s' → ∃ a', cinv (B + 1) s' a' ∧ grows a a'.
Proof.
  intros HB Hc. destruct act as [i ok|k ok|i bytes ok|i index id|i]; simpl; intros H.
  - destruct (runtimes s !! i) as [rt|] eqn:Hrt; [|done]. opt_inv. unfold tick_once, tick_locked in E.
    destruct (rt_failed rt) eqn:Hf; [opt_inv; exists a; split; [by eapply put_same | done] |].
    destruct (tick (rt_node rt)) as [[n e]|] eqn:Ht; [|done]. by eapply (event_inv B i ok s a ETick).
  - destruct (network s !! k) as [m|] eqn:Hm; [|done].
    destruct (runtimes s !! msg_to m) as [rt|] eqn:Hrt; [|done]. case_match; opt_inv.
    { exists a. destruct Hc as [Ca ? ?]. split; [split; try done; eapply ainv_mono, Ca; lia | done]. }
    unfold runtime_step, step_locked in E. destruct (rt_failed rt) eqn:Hf; [opt_inv; exists a; split; [by eapply put_same | done] |].
    destruct (node_step (rt_node rt) m) as [[n e]|] eqn:Ht; [|done].
    eapply (event_inv B (msg_to m) ok s a (EMessage m)); try done. split; [|done].
    apply Hc. by apply list_elem_of_In, list_elem_of_lookup_2 with k.
  - destruct (runtimes s !! i) as [rt|] eqn:Hrt; [|done]. opt_inv. by eapply propose_inv.
  - destruct (runtimes s !! i) as [rt|] eqn:Hrt; [|done]. opt_inv. exists a; split; [by eapply put_same | done].
  - destruct (runtimes s !! i) as [rt|] eqn:Hrt; [|done]. opt_inv. case_match; [done |]. opt_inv.
    destruct (restart_inv B i s a rt _ HB Hc Hrt E) as (a' & Hc' & Hm & _). exists a'. split; [done | by eapply micro_grows].
Qed.

Lemma boot_inv ps : ∀ rts : gmap NodeId runtime,
  boot decode init_state table consensus_of ps = Some rts →
  ∀ i rt, rts !! i = Some rt → rt_inv i rt ainit.
Proof.
  induction ps as [|[j addr] ps IH]; simpl; intros rts Hb i rt; [by simplify_eq |].
  opt_inv. case_match; [done |]. opt_inv. destruct (decide (j = i)) as [<-|Hne].
  - rewrite lookup_insert_eq. intros [= <-].
    destruct (open_runtime_ok _ _ _ _ E0) as (p & Hp & Hst & Hcf & _ & Hper & Hcc & Hro & Hrok).
    simpl in Hp. injection Hp as <-.
    apply (opened_inv 0 j addr initial);
      [apply ainit_inv | done | done | by rewrite Hst | by rewrite Hst | done | rewrite Hcf; eauto | done..].
  - rewrite lookup_insert_ne by done. by apply IH.
Qed.

Lemma exec_all_inv acts : ∀ B (s s' : Cluster Addr Bytes State) a,
  B + N.of_nat (length acts) < u64_max → cinv B s a → exec_all s acts = Some s' →
  ∃ a', cinv (B + N.of_nat (length acts)) s' a' ∧ grows a a'.
Proof.
  induction acts as [|act acts IH]; intros B s s' a HB Hc H; simpl in *.
  { opt_inv. exists a. split; [by rewrite N.add_0_r | done]. }
  destruct (exec s act) as [s1|] eqn:He; [|done].
  destruct (exec_inv B act s s1 a) as (a1 & Hc1 & Hg1); [lia | done | done |].
  destruct (IH (B + 1) s1 s' a1) as (a2 & Hc2 & Hg2); [lia | done | done |].
  exists a2. replace (B + N.of_nat (S (length acts))) with (B + 1 + N.of_nat (length acts)) by lia.
  split; [done | by etransitivity].
Qed.

Lemma init_inv (s : Cluster Addr Bytes State) : init_cluster = Some s → cinv 0 s ainit.
Proof.
  unfold Cluster.init_cluster. intros H. opt_inv. split; simpl; [apply ainit_inv | done |]. by eapply boot_inv.
Qed.

Lemma exec_all_compose acts1 acts2 (s s1 s2 : Cluster Addr Bytes State) :
  exec_all s acts1 = Some s1 → exec_all s1 acts2 = Some s2 → exec_all s (acts1 ++ acts2) = Some s2.
Proof.
  revert s. induction acts1 as [|a acts1 IH]; intros s; simpl; [by intros [= ->] |].
  destruct (exec s a); [apply IH | done].
Qed.

(** A runtime that opened once opens again on any log that replays. *)
Lemma open_runtime_again c records p (rt0 : runtime) :
  open_runtime decode c [] init_state = Some (inr rt0) → map fst (peers c) = map fst table →
  recover decode initial records = inr p →
  ∃ rt : runtime, open_runtime decode c records init_state = Some (inr rt) ∧
                  node_persistent (rt_node rt) = p ∧ rt_failed rt = false.
Proof.
  unfold open_runtime. case_match; [done |]. intros Ho Hpeers Hrec. opt_inv.
  assert (node_persistent r = initial) as Hr.
  { unfold node_new, become_follower in E. opt_inv. destruct (follower_new_frame _ _ _ _ E0) as [rg ->].
    unfold node_persistent. simpl. by rewrite Hpeers. }
  rewrite Hr. unfold open_store. rewrite Hrec.
  assert (max_ok : ∃ f, node_restore (consensus c) p = Some f).
  { unfold node_new, become_follower, Follower.new, random_election_timeout in E. simpl in E.
    unfold node_restore, become_follower, Follower.new, random_election_timeout. simpl.
    destruct (election_timeout (consensus c)) as [mn mx]. destruct (mx -u mn =? 0); [done | by eexists]. }
  destruct max_ok as [f Hf]. cbn [durable]. rewrite Hf. eexists. split; [reflexivity |]. split; [|done].
  unfold node_restore, become_follower in Hf. opt_inv. by destruct (follower_new_frame _ _ _ _ E0) as [rg ->].
Qed.

Lemma reached_inv (s0 s : Cluster Addr Bytes State) acts :
  init_cluster = Some s0 → exec_all s0 acts = Some s → N.of_nat (length acts) < u64_max →
  ∃ a, cinv (N.of_nat (length acts)) s a.
Proof.
  intros H0 He Hb. destruct (exec_all_inv acts 0 s0 s ainit) as (a & Hc & _); [lia | by apply init_inv | done |].
  rewrite N.add_0_l in Hc. eauto.
Qed.

Lemma live_leader B (s : Cluster Addr Bytes State) a i (rt : runtime) :
  cinv B s a → runtimes s !! i = Some rt → rt_failed rt = false → is_leader (rt_node rt) = true →
  In (node_term (rt_node rt), i) (h_leaders a).
Proof.
  intros [Ca _ Cr] Hrt Hf Hl. destruct (ri_live _ _ _ (Cr _ _ Hrt) Hf) as ([Ha _ _ _] & _).
  pose proof (il_role _ _ (ai_lead _ _ _ Ca) i) as Hr. rewrite Ha in Hr. apply Hr. unfold is_leader in Hl.
  unfold abs_node. by destruct (role (rt_node rt)).
Qed.

(** ** No action panics *)

(** The action names a node or a message that exists; a proposal to a healthy leader
    also needs what [proposal_limit_exceeded] asserts. *)
Definition enabled (s : Cluster Addr Bytes State) (act : Action) : Prop :=
  match act with
  | ATick i _ | AFinish i _ _ | ARestart i => ∃ rt, runtimes s !! i = Some rt
  | ADeliver k _ => ∃ m rt, network s !! k = Some m ∧ runtimes s !! msg_to m = Some rt
  | APropose i _ _ => ∃ rt, runtimes s !! i = Some rt ∧
      (rt_failed rt = false → is_leader (rt_node rt) = true → commit_in_log (rt_node rt))
  end.

Lemma opened_timeouts c records (rt : runtime) :
  open_runtime decode c records init_state = Some (inr rt) → timeouts_ok (consensus c).
Proof.
  unfold open_runtime. case_match; [done |]. intros Ho. opt_inv. clear Ho.
  unfold node_new, become_follower, Follower.new, random_election_timeout in E. simpl in E.
  unfold timeouts_ok. destruct (election_timeout (consensus c)) as [mn mx]. simpl.
  destruct (N.eqb_spec (mx -u mn) 0); done.
Qed.

Lemma live_timeouts i (rt : runtime) a :
  rt_inv i rt a → rt_failed rt = false → timeouts_ok (config (core (rt_node rt))).
Proof.
  intros [(addr & Rc & rt0 & Ho) _ _ _ Rl] Hf. destruct (Rl Hf) as (_ & _ & ->).
  apply opened_timeouts in Ho. by rewrite Rc in Ho.
Qed.

Lemma handle_effects_total B i wal_ok a a' n n' e (rt : runtime) :
  B + 1 < u64_max → ainv cfg B a → represents cfg i a n → moved cfg B i a n e a' n' →
  node_persistent n = durable (rt_store rt) → rt_node rt = n' →
  ∃ x, handle_effects encode apply_command wal_ok rt e = Some x.
Proof.
  intros HB Hinv Hrep Hmv Hd Hn. unfold handle_effects.
  assert (∃ r, (if persist e then save encode wal_ok (rt_store rt) (node_persistent (rt_node rt))
                else Some (inr (rt_store rt))) = Some r) as [r ->].
  { case_match; [|by eexists]. pose proof (moved_successor B i a n e a' n' HB Hinv Hrep Hmv) as Hs.
    rewrite Hd, <- Hn in Hs. destruct (save_total encode _ _ wal_ok Hs) as (r & -> & _). by eexists. }
  destruct r; [by eexists |]. destruct (send_snapshots e); [|by eexists].
  destruct (send_messages _ _) as [ms [err|]]; [by eexists |]. destruct (apply_committed _ _). by eexists.
Qed.

Lemma event_total B i wal_ok (s : Cluster Addr Bytes State) a ev (rt : runtime) :
  B + 1 < u64_max → cinv B s a → runtimes s !! i = Some rt → rt_failed rt = false → event_in i (a_net a) ev →
  ∃ n e rt' out err, step_event (rt_node rt) ev = Some (n, e) ∧
    handle_or_fail encode apply_command wal_ok (set_rt_node rt n) e = Some (rt', out, err).
Proof.
  intros HB [Ca _ Cr] Hrt Hf Hin. pose proof (Cr _ _ Hrt) as Hri. destruct (ri_live _ _ _ Hri Hf) as (Hrep & Hd & _).
  destruct (step_event_total cfg B HB i a (rt_node rt) ev Ca Hrep Hin (live_timeouts _ _ _ Hri Hf)) as (n & e & Hst).
  destruct (step_event_moved cfg B HB i a _ ev n e Ca Hrep Hin Hst) as [a' Hmv].
  destruct (handle_effects_total B i wal_ok a a' (rt_node rt) n e (set_rt_node rt n) HB Ca Hrep Hmv Hd)
    as [[[rt' out] err] Hh]; [done |].
  exists n, e. unfold handle_or_fail. rewrite Hh. by eexists _, _, _.
Qed.

Lemma propose_total B i wal_ok bytes (s : Cluster Addr Bytes State) a (rt : runtime) :
  B + 1 < u64_max → cinv B s a → runtimes s !! i = Some rt →
  (rt_failed rt = false → is_leader (rt_node rt) = true → commit_in_log (rt_node rt)) →
  ∃ x, propose encode apply_command wal_ok rt bytes = Some x.
Proof.
  intros HB [Ca _ Cr] Hrt Hc. unfold propose, propose_locked. destruct (rt_failed rt) eqn:Hf; [by eexists |].
  case_match; [|by eexists]. destruct (ri_live _ _ _ (Cr _ _ Hrt) Hf) as (Hrep & Hd & _).
  destruct (node_propose_total cfg B HB i a (rt_node rt) (mkCommand bytes) Ca Hrep (Hc eq_refl)) as (n' & res & Hp).
  cbn [rt_node]. rewrite Hp. pose proof (propose_moved cfg B HB i a _ _ _ _ Ca Hrep Hp) as Hres.
  destruct res as [err|[index e]]; [by eexists |]. destruct Hres as [_ [a' Hmv]].
  match goal with |- context [handle_effects _ _ _ ?r _] => set (rt1 := r) end.
  destruct (handle_effects_total B i wal_ok a a' (rt_node rt) n' e rt1 HB Ca Hrep Hmv) as [[[rt2 out] err] ->]; [done..|].
  destruct err; by eexists.
Qed.

Lemma exec_enabled (s0 s : Cluster Addr Bytes State) acts act :
  init_cluster = Some s0 → exec_all s0 acts = Some s → N.of_nat (length acts) + 1 < u64_max →
  enabled s act → ∃ s', exec s act = Some s'.
Proof.
  intros H0 H1 Hb He. destruct (reached_inv s0 s acts H0 H1 ltac:(lia)) as [a Hc].
  destruct act as [i ok|k ok|i bytes ok|i index id|i]; simpl in *.
  - destruct He as [rt Hrt]. rewrite Hrt. unfold tick_once, tick_locked. destruct (rt_failed rt) eqn:Hf; [by eexists |].
    destruct (event_total _ i ok s a ETick rt Hb Hc Hrt Hf) as (n & e & rt' & out & err & Hs & Hh); [done |].
    unfold tick. rewrite Hs, Hh. by eexists.
  - destruct He as (m & rt & Hm & Hrt). rewrite Hm, Hrt. case_match; [by eexists |].
    unfold runtime_step, step_locked. destruct (rt_failed rt) eqn:Hf; [by eexists |].
    destruct (event_total _ (msg_to m) ok s a (EMessage m) rt Hb Hc Hrt Hf) as (n & e & rt' & out & err & Hs & Hh).
    { split; [|done]. apply Hc. by apply list_elem_of_In, list_elem_of_lookup_2 with k. }
    unfold node_step. rewrite Hs, Hh. by eexists.
  - destruct He as (rt & Hrt & Hcl). rewrite Hrt.
    destruct (propose_total _ i ok bytes s a rt Hb Hc Hrt Hcl) as [[[rt' out] res] ->]. by eexists.
  - destruct He as [rt ->]. by eexists.
  - destruct He as [rt Hrt]. rewrite Hrt. destruct Hc as [_ _ Hr].
    destruct (Hr _ _ Hrt) as [(addr & Hcf & rt0 & Ho) Hrec _ _ _].
    destruct (open_runtime_again _ _ _ _ Ho ltac:(by rewrite Hcf) Hrec) as (rt' & -> & _). by eexists.
Qed.

(** C15: no panic. In any reachable state every action that is [enabled] runs: ticks,
    deliveries of any message ever sent, restarts and the end of a wait always do (no
    slice is out of range, no timeout interval empty, every write-ahead log reopens),
    and so does a proposal unless the node leads with a commit index beyond its log. *)
Theorem enabled_actions_run (s0 s : Cluster Addr Bytes State) acts act :
  init_cluster = Some s0 → exec_all s0 acts = Some s → N.of_nat (length acts) + 1 < u64_max →
  enabled s act → ∃ s', exec s act = Some s'.
Proof. apply exec_enabled. Qed.

(** C2: Election Safety. In an execution of the cluster of fewer than 2^64-1
    actions (ticks, deliveries of lost, delayed, reordered or repeated messages,
    proposals, disk failures, restarts), if node [i] is leader of a term at some
    point and node [j] is leader of the same term at that point or later, they
    are the same node. *)
Theorem election_safety (s0 s1 s2 : Cluster Addr Bytes State) acts1 acts2 i j (rti rtj : runtime) :
  init_cluster = Some s0 → exec_all s0 acts1 = Some s1 → exec_all s1 acts2 = Some s2 →
  N.of_nat (length acts1 + length acts2) < u64_max →
  runtimes s1 !! i = Some rti → rt_failed rti = false → is_leader (rt_node rti) = true →
  runtimes s2 !! j = Some rtj → rt_failed rtj = false → is_leader (rt_node rtj) = true →
  node_term (rt_node rti) = node_term (rt_node rtj) → i = j.
Proof.
  intros H0 H1 H2 Hb Hi Hfi Hli Hj Hfj Hlj Ht.
  destruct (reached_inv s0 s1 acts1 H0 H1 ltac:(lia)) as [a1 Hc1].
  destruct (exec_all_inv acts2 (N.of_nat (length acts1)) s1 s2 a1 ltac:(lia) Hc1 H2) as (a2 & Hc2 & Hg).
  pose proof (live_leader _ _ _ _ _ Hc1 Hi Hfi Hli) as Hin. apply Hg in Hin.
  pose proof (live_leader _ _ _ _ _ Hc2 Hj Hfj Hlj) as Hin'. rewrite <- Ht in Hin'.
  destruct Hc2 as [[Hv Hl _ _] _ _]. by eapply leader_unique.
Qed.

(** C3: Log Matching. In any reachable state, if the persistent logs of two nodes
    hold entries of the same term at the same index, the logs are identical in
    every entry up to that index. *)
Theorem log_matching (s0 s : Cluster Addr Bytes State) acts i j (rti rtj : runtime) k e e' :
  init_cluster = Some s0 → exec_all s0 acts = Some s → N.of_nat (length acts) < u64_max →
  runtimes s !! i = Some rti → runtimes s !! j = Some rtj →
  k < u64_modulus → get (p_log (durable (rt_store rti))) k = Some e →
  get (p_log (durable (rt_store rtj))) k = Some e' → e_term e = e_term e' →
  ∀ x, x ≤ k → get (p_log (durable (rt_store rti))) x = get (p_log (durable (rt_store rtj))) x.
Proof.
  intros H0 H1 Hb Hi Hj Hk He He' Ht. destruct (reached_inv s0 s acts H0 H1 Hb) as [a [[_ _ Hlog _] _ Hr]].
  destruct (Hr _ _ Hi) as [_ _ [ri Hdi] _ _]. destruct (Hr _ _ Hj) as [_ _ [rj Hdj] _ _].
  pose proof (ig_log _ _ Hlog i) as Hli. pose proof (ig_log _ _ Hlog j) as Hlj. rewrite Hdi in Hli. rewrite Hdj in Hlj.
  intros x Hx. eapply (log_match _ _ _ (ig_fun _ _ Hlog) Hli Hlj (N.to_nat k) k); [lia | done..].
Qed.

(** C4: Durability. In any reachable state, every node can restart: reopening its
    write-ahead log succeeds and gives the persistent state (term, vote and log)
    that the running node has in memory, provided its disk has not failed. *)
Theorem restart_recovers (s0 s : Cluster Addr Bytes State) acts i (rt : runtime) :
  init_cluster = Some s0 → exec_all s0 acts = Some s → N.of_nat (length acts) < u64_max →
  runtimes s !! i = Some rt →
  ∃ rt' : runtime,
    open_runtime decode (rt_config rt) (wal (rt_store rt)) init_state = Some (inr rt') ∧
    rt_failed rt' = false ∧
    (rt_failed rt = false → node_persistent (rt_node rt') = node_persistent (rt_node rt)).
Proof.
  intros H0 H1 Hb Hi. destruct (reached_inv s0 s acts H0 H1 Hb) as [a [_ _ Hr]].
  destruct (Hr _ _ Hi) as [(addr & Hc & rt0 & Ho) Hrec _ _ Hl].
  destruct (open_runtime_again _ _ _ _ Ho ltac:(by rewrite Hc) Hrec) as (rt' & Ho' & Hp & Hf').
  exists rt'. split_and!; [done.. |]. intros Hf. destruct (Hl Hf) as (_ & Hd & _). congruence.
Qed.

End Facts.

(** ** Executions of a three-node deployment *)

Definition demo_table : list (NodeId * N) := [(0, 0); (1, 1); (2, 2)].

(** The state machine records the commands it applies. *)
Definition demo_apply (s : list (list Byte.byte)) (c : Command) : list (list Byte.byte) * unit :=
  (s ++ [cmd_bytes c], tt).

Definition demo_codec (d : PersistentDelta) : option PersistentDelta := Some d.

Abbreviation demo_init :=
  (init_cluster (Bytes := PersistentDelta) (State := list (list Byte.byte)) demo_codec [] demo_table raft_config).

Abbreviation demo_exec := (exec_all (Addr := N) demo_codec demo_codec demo_apply []).

Definition demo_run (acts : list Action) : option (Cluster N PersistentDelta (list (list Byte.byte))) :=
  let* s := demo_init in demo_exec s acts.

Definition deliver (ks : list nat) : list Action := map (fun k => ADeliver k true) ks.

(** Node 0 wins term 1 with the vote of node 1 and appends command 0x61, which no
    other node receives. *)
Definition elect_0 : list Action :=
  repeat (ATick 0 true) 171 ++ deliver [0; 2; 3; 5]%nat ++ [APropose 0 [Byte.x61] true].

(** Node 2 learns of term 1, then wins term 2 with the vote of node 1. *)
Definition elect_2 : list Action :=
  repeat (ATick 2 true) 250 ++ deliver [11; 12]%nat ++
  repeat (ATick 2 true) 211 ++ deliver [14; 15; 17; 18]%nat.

(** Node 0 steps down, then answers a heartbeat of node 2; node 2 proposes 0x62. *)
Definition commit_2 : list Action :=
  deliver [19]%nat ++ repeat (ATick 2 true) 75 ++ deliver [21; 23]%nat ++ [APropose 2 [Byte.x62] true].

(** Node 0 wins term 3 with the vote of node 1, proposes 0x63 and replicates to node 1. *)
Definition elect_0_again : list Action :=
  repeat (ATick 0 true) 237 ++ deliver [26; 28; 29; 31]%nat ++ [APropose 0 [Byte.x63] true] ++
  deliver [34; 36; 37; 38]%nat.

Definition full_run : list Action := elect_0 ++ elect_2 ++ commit_2 ++ elect_0_again.

(** What node [i] has applied. *)
Definition applied (s : option (Cluster N PersistentDelta (list (list Byte.byte)))) (i : NodeId)
    : option (list (list Byte.byte)) :=
  let* s := s in let* rt := runtimes s !! i in Some (rt_state rt).

(** C13: the code does not keep State Machine Safety. A follower acknowledges an
    append request with the last index of its whole log (follower.rs, line 214),
    and the leader takes that index as replicated (leader.rs, line 424), although
    the follower's tail may conflict with the leader's log. In this execution of
    three nodes with the deployed configuration ([raft_config]) and only message
    delays and losses, node 2 commits and applies 0x62 as first command while it
    is the only node that holds it, and node 0 is later elected and applies 0x61
    as first command. *)
Theorem state_machine_divergence :
  let s := demo_run full_run in
  applied s 0 = Some [[Byte.x61]; [Byte.x63]] ∧ applied s 2 = Some [[Byte.x62]].
Proof. split; vm_compute; reflexivity. Qed.

(** Node 0 appends three commands in term 1 that no other node receives; node 2 wins
    term 2, is told that node 0 holds three entries, and commits three of its own. *)
Definition commit_beyond : list Action :=
  repeat (ATick 0 true) 171 ++ deliver [0; 2; 3; 5]%nat ++ repeat (APropose 0 [Byte.x61] true) 3 ++
  repeat (ATick 2 true) 250 ++ deliver [15; 16]%nat ++
  repeat (ATick 2 true) 211 ++ deliver [18; 19; 21; 22; 23]%nat ++
  repeat (ATick 2 true) 75 ++ deliver [25; 27]%nat ++ repeat (APropose 2 [Byte.x62] true) 3.

(** Node 0 receives the first of them, wins term 3 and replicates one entry of its own
    to node 2, which loses the other two; node 2 wins term 4. *)
Definition lead_beyond : list Action :=
  deliver [28]%nat ++ repeat (ATick 0 true) 290 ++ deliver [35; 37; 38; 40]%nat ++ [APropose 0 [Byte.x63] true] ++
  deliver [42; 44]%nat ++ repeat (ATick 2 true) 300 ++ deliver [47; 48; 50; 51]%nat.

Definition panic_run : list Action := commit_beyond ++ lead_beyond.

(** Role, term, commit index and last log index of node [i], when it has not failed. *)
Definition leadership (s : option (Cluster N PersistentDelta (list (list Byte.byte)))) (i : NodeId)
    : option (bool * Term * LogIndex * LogIndex) :=
  let* s := s in
  let* rt := runtimes s !! i in
  let n := rt_node rt in
  if rt_failed rt then None else Some (is_leader n, node_term n, commit_index (core n), last_index (log (core n))).

(** C16: the assertion of [proposal_limit_exceeded] (core.rs, line 235) that the commit
    index lies within the log fails in a reachable state. In this execution of three nodes
    with the deployed configuration and only message delays and losses, node 2 leads term 4
    with commit index 3 and two log entries, and the next proposal to it panics. *)
Theorem leader_proposal_panics :
  leadership (demo_run panic_run) 2 = Some (true, 4, 3, 2) ∧
  demo_run (panic_run ++ [APropose 2 [Byte.x64] true]) = None.
Proof. split; vm_compute; reflexivity. Qed.

(** ** Instances of the theorems *)

Lemma demo_codec_ok : codec demo_codec demo_codec.
Proof. intros d b H. symmetry. exact H. Qed.

Lemma raft_config_id j : id (raft_config j) = j.
Proof. reflexivity. Qed.

Definition demo_state (acts : list Action) : Cluster N PersistentDelta (list (list Byte.byte)) :=
  default (mkCluster ∅ []) (demo_run acts).

Lemma lookup_sat {A} (o : option A) (P : A → bool) :
  match o with Some x => P x | None => false end = true → ∃ x, o = Some x ∧ P x = true.
Proof. destruct o; eauto; discriminate. Qed.

Lemma demo_boots : demo_init = Some (demo_state []).
Proof. vm_compute. reflexivity. Qed.

Lemma demo_runs : demo_exec (demo_state []) full_run = Some (demo_state full_run).
Proof. vm_compute. reflexivity. Qed.

(** The leader of [full_run] accepts a proposal: its commit index is within its log. *)
Lemma enabled_actions_run_witness :
  enabled (demo_state full_run) (APropose 0 [Byte.x64] true) ∧
  ∃ s', exec demo_codec demo_codec demo_apply [] (demo_state full_run) (APropose 0 [Byte.x64] true) = Some s'.
Proof.
  assert (enabled (demo_state full_run) (APropose 0 [Byte.x64] true)) as H.
  { destruct (lookup_sat (runtimes (demo_state full_run) !! 0)
      (fun rt => commit_index (core (rt_node rt)) <=? last_index (log (core (rt_node rt))))) as (rt & Hrt & Hc).
    { vm_compute. reflexivity. }
    exists rt. split; [exact Hrt |]. intros _ _. apply N.leb_le. exact Hc. }
  split; [exact H |].
  apply (enabled_actions_run demo_codec demo_codec demo_apply [] demo_table raft_config demo_codec_ok raft_config_id
    (demo_state []) (demo_state full_run) full_run); [exact demo_boots | exact demo_runs | vm_compute; reflexivity | exact H].
Defined.

(** Node 0 leads term 1, and still does after node 2 has won term 2. *)
Lemma election_safety_witness :
  demo_exec (demo_state []) elect_0 = Some (demo_state elect_0) ∧
  demo_exec (demo_state elect_0) elect_2 = Some (demo_state (elect_0 ++ elect_2)) ∧ (0 : NodeId) = 0.
Proof.
  assert (demo_exec (demo_state []) elect_0 = Some (demo_state elect_0)) as E1 by (vm_compute; reflexivity).
  assert (demo_exec (demo_state elect_0) elect_2 = Some (demo_state (elect_0 ++ elect_2))) as E2
    by (vm_compute; reflexivity).
  split; [exact E1 |]. split; [exact E2 |].
  set (P := fun rt : RaftRuntime N PersistentDelta (list (list Byte.byte)) =>
              negb (rt_failed rt) && is_leader (rt_node rt) && (node_term (rt_node rt) =? 1)).
  destruct (lookup_sat (runtimes (demo_state elect_0) !! 0) P) as (rti & Ei & Pi); [vm_compute; reflexivity |].
  destruct (lookup_sat (runtimes (demo_state (elect_0 ++ elect_2)) !! 0) P) as (rtj & Ej & Pj);
    [vm_compute; reflexivity |].
  apply andb_true_iff in Pi as [[Fi%negb_true_iff Li]%andb_true_iff Ti%N.eqb_eq].
  apply andb_true_iff in Pj as [[Fj%negb_true_iff Lj]%andb_true_iff Tj%N.eqb_eq].
  assert (N.of_nat (length elect_0 + length elect_2) < u64_max) as Hb by (vm_compute; reflexivity).
  exact (election_safety demo_codec demo_codec demo_apply [] demo_table raft_config demo_codec_ok raft_config_id
           (demo_state []) (demo_state elect_0) (demo_state (elect_0 ++ elect_2)) elect_0 elect_2 0 0 rti rtj
           demo_boots E1 E2 Hb Ei Fi Li Ej Fj Lj (eq_trans Ti (eq_sym Tj))).
Defined.

(** Nodes 0 and 1 after node 0 has replicated in term 3. *)
Lemma log_matching_witness :
  ∃ rti rtj, runtimes (demo_state full_run) !! 0 = Some rti ∧ runtimes (demo_state full_run) !! 1 = Some rtj ∧
  ∀ x, x ≤ 2 → get (p_log (durable (rt_store rti))) x = get (p_log (durable (rt_store rtj))) x.
Proof.
  set (P := fun rt : RaftRuntime N PersistentDelta (list (list Byte.byte)) =>
              match get (p_log (durable (rt_store rt))) 2 with Some e => e_term e =? 3 | None => false end).
  destruct (lookup_sat (runtimes (demo_state full_run) !! 0) P) as (rti & Ei & Pi); [vm_compute; reflexivity |].
  destruct (lookup_sat (runtimes (demo_state full_run) !! 1) P) as (rtj & Ej & Pj); [vm_compute; reflexivity |].
  exists rti, rtj. split; [exact Ei |]. split; [exact Ej |]. unfold P in Pi, Pj.
  destruct (get (p_log (durable (rt_store rti))) 2) as [e|] eqn:Gi; [|discriminate Pi].
  destruct (get (p_log (durable (rt_store rtj))) 2) as [e'|] eqn:Gj; [|discriminate Pj].
  apply N.eqb_eq in Pi, Pj.
  exact (log_matching demo_codec demo_codec demo_apply [] demo_table raft_config demo_codec_ok raft_config_id
           (demo_state []) (demo_state full_run) full_run 0 1 rti rtj 2 e e'
           demo_boots demo_runs eq_refl Ei Ej eq_refl Gi Gj (eq_trans Pi (eq_sym Pj))).
Defined.

(** Node 1, after the whole run. *)
Lemma restart_recovers_witness :
  ∃ rt rt' : RaftRuntime N PersistentDelta (list (list Byte.byte)),
    runtimes (demo_state full_run) !! 1 = Some rt ∧
    open_runtime demo_codec (rt_config rt) (wal (rt_store rt)) [] = Some (inr rt') ∧
    node_persistent (rt_node rt') = node_persistent (rt_node rt).
Proof.
  destruct (lookup_sat (runtimes (demo_state full_run) !! 1) (fun rt => negb (rt_failed rt))) as (rt & E & F);
    [vm_compute; reflexivity |].
  destruct (restart_recovers demo_codec demo_codec demo_apply [] demo_table raft_config demo_codec_ok raft_config_id
              (demo_state []) (demo_state full_run) full_run 1 rt demo_boots demo_runs eq_refl E) as (rt' & Ho & _ & Hp).
  exists rt, rt'. split; [exact E |]. split; [exact Ho |]. apply Hp. apply negb_true_iff. exact F.
Defined.
