(* ===== verification/Safety.v ===== *)
(** * State machine safety

    What the cluster guarantees about applied commands, as long as no append
    request is accepted by a log that goes on, beyond the request's entries, with
    entries of an older term ([covered]): there the code acknowledges, and commits,
    entries the leader never sent ([Cluster.state_machine_divergence]). In executions
    without such a delivery every committed entry is on a quorum, all nodes apply
    the same commands in the same order, commit indices stay within the logs and
    nothing panics. *)

From S2P Require Import Prelude BTree Membership Log Event Core Role Follower Leader Node.
From S2P Require Import Raft Completeness Refine CommitSteps Progress Store Runtime Cluster.

Open Scope N_scope.

(** The receiver rejects the request, or its log then ends with the request's last
    entry or with an entry of the request's term. *)
Definition covers (c : Core) (t : Term) (q : AppendRequest) : bool :=
  let l' := (append_entries (log c) false (aq_entries q)).1 in
  (t <? term c)
  || ((0 <? aq_prev_log_index q) && negb (term_at (log c) (aq_prev_log_index q) =? aq_prev_log_term q))
  || (last_index l' =? aq_prev_log_index q + vlen (aq_entries q))
  || (last_term l' =? t).

(** The commands of the entries up to index [k]. *)
Definition applied_entries (l : Log) (k : LogIndex) : list CommittedEntry :=
  omap (committed_entry l) (range_excl 1 (k + 1)).

(** ** One node *)

Section Node.

Context (cfg : Configuration) (B : N) (HB : B + 1 < u64_max).

Record net_safe (a : ACluster) (g : Ghost) : Prop := {
  nt_commit : ∀ m q, In m (a_net a) → msg_payload m = PAppendRequest q →
    ∀ j, 1 ≤ j ≤ aq_leader_commit q → ∃ x, safe cfg a g (msg_term m) j x;
  nt_ack : ∀ m r, In m (a_net a) → msg_payload m = PAppendResponse r → ar_success r = true →
    In (msg_from m, msg_term m, ar_last_log_index r) (g_acks g)
}.

Record node_safe (a : ACluster) (g : Ghost) (n : RaftNode) : Prop := {
  ns_commit : ∀ j, 1 ≤ j ≤ commit_index (core n) →
    ∃ x, get (log (core n)) j = Some x ∧ safe cfg a g (term (core n)) j x;
  ns_table : ∀ l v x, role n = RLeader l → match_index l !! v = Some x →
    x = 0 ∨ In (v, term (core n), x) (g_acks g);
  ns_applied : last_applied (core n) ≤ commit_index (core n) ≤ last_index (log (core n))
}.

(** What a step of node [n], asking for effects [e], does to commit index and table. *)
Record progresses (a : ACluster) (n : RaftNode) (e : Effects) (n' : RaftNode) : Prop := {
  pr_applied : last_applied (core n') = last_applied (core n);
  pr_commit :
    (requests_ok (core n') e ∧
     (commit_index (core n') = commit_index (core n) ∨
      ∃ l', role n' = RLeader l' ∧ commit_index (core n) < commit_index (core n') ≤ last_index (log (core n')) ∧
            can_commit l' (core n') (commit_index (core n')) = true)) ∨
    (∃ m q, In m (a_net a) ∧ accepts (core n) m q (core n') e ∧ covers (core n) (msg_term m) q = true);
  pr_table : ∀ l' v x, role n' = RLeader l' → match_index l' !! v = Some x →
    x = 0 ∨ (v = core_id (core n') ∧ x = last_index (log (core n'))) ∨
    (term (core n') = term (core n) ∧
     ((∃ l, role n = RLeader l ∧ match_index l !! v = Some x) ∨
      (∃ m r, In m (a_net a) ∧ msg_from m = v ∧ msg_term m = term (core n) ∧
              msg_payload m = PAppendResponse r ∧ ar_success r = true ∧ ar_last_log_index r = x)))
}.

Lemma node_safe_mono a g a' g' n : advances cfg a g a' g' → node_safe a g n → node_safe a' g' n.
Proof.
  intros [_ Ag As _ _] [Sc St Sa]. split; [|intros l v x Hr Hx; destruct (St l v x Hr Hx); [by left | right; by apply Ag] | done].
  intros j Hj. destruct (Sc j Hj) as (x & ? & ?). exists x. split; [done | by eapply As].
Qed.

Lemma advances_ack a g a' g' v n F :
  ainv cfg (B + 1) a' → advances cfg a g a' g' → g_lead g' (a_term (a_nodes a' v)) = Some F → n ≤ last_index F →
  agree (a_log (a_nodes a' v)) F n → advances cfg a g a' (add_ack g' (v, a_term (a_nodes a' v), n)).
Proof.
  intros Hinv [Ai Ag As Ak At] HF Hn Ha. split; [by eapply (ginv_ack cfg (B + 1) HB) | | | done | done].
  - etransitivity; [exact Ag | apply add_ack_gle].
  - intros t t' j x Ht Hs. eapply (safe_mono cfg (B + 1) HB); [done | apply add_ack_gle | done | reflexivity | by eapply As].
Qed.

Section Step.

Context (i : NodeId) (a : ACluster) (g : Ghost) (n : RaftNode) (e : Effects) (a' : ACluster) (n' : RaftNode).
Hypothesis Hinv : ainv cfg B a.
Hypothesis Hrep : represents cfg i a n.
Hypothesis Hmv : moved cfg B i a n e a' n'.
Hypothesis Hpr : progresses a n e n'.

Lemma abs_log : a_log (a_nodes a i) = log (core n) ∧ a_term (a_nodes a i) = term (core n).
Proof. by rewrite (rp_abs _ _ _ _ Hrep). Qed.

Lemma abs_log' : a_log (a_nodes a' i) = log (core n') ∧ a_term (a_nodes a' i) = term (core n').
Proof. by rewrite (rp_abs _ _ _ _ (mv_rep _ _ _ _ _ _ _ _ Hmv)). Qed.

(** The log a node has after accepting a request is the leader's. *)
Lemma accepts_agree g' m q :
  ginv cfg a' g' → In m (a_net a) → accepts (core n) m q (core n') e → covers (core n) (msg_term m) q = true →
  ∃ F, g_lead g' (term (core n')) = Some F ∧ last_index (log (core n')) ≤ last_index F ∧
       agree (log (core n')) F (last_index (log (core n'))).
Proof.
  intros Hg Hm [Hp Hle Ht Hprev Hl _ _ _] Hcov. pose proof (mv_inv _ _ _ _ _ _ _ _ Hmv) as Hinv'.
  pose proof (mv_grows _ _ _ _ _ _ _ _ Hmv) as [_ Hlk Hnet]. apply Hnet in Hm.
  destruct (gi_areq _ _ _ Hg _ _ Hm Hp) as (F & HF & Hc). rewrite <- Ht in HF. exists F. split; [done |].
  destruct (gi_lead _ _ _ Hg _ _ HF) as (_ & HokF & _).
  pose proof (ig_log _ _ (ai_log _ _ _ Hinv') i) as Hl'. rewrite (proj1 abs_log') in Hl'.
  assert (log_ok (h_links a') (log (core n))) as Hl0.
  { rewrite <- (proj1 abs_log). eapply log_ok_mono, Hinv. exact Hlk. }
  unfold covers in Hcov. rewrite <- Hl in Hcov. rewrite (proj2 (N.ltb_ge _ _) Hle) in Hcov.
  replace ((0 <? aq_prev_log_index q) && _) with false in Hcov; cycle 1.
  { symmetry. destruct (N.ltb_spec 0 (aq_prev_log_index q)) as [H0|]; [|done]. by rewrite Hprev, N.eqb_refl. }
  simpl in Hcov. apply orb_true_iff in Hcov as [Hcov|Hcov]; apply N.eqb_eq in Hcov.
  - pose proof (accept_agrees cfg (B + 1) HB a' Hinv' F (log (core n)) q) as Hag. cbv zeta in Hag. rewrite <- Hl in Hag.
    apply and_comm, Hag; try done. by eapply (ig_net _ _ (ai_log _ _ _ Hinv')).
  - destruct (N.eq_0_gt_0_cases (last_index (log (core n')))) as [Hz|Hpos].
    + rewrite Hz. split; [lia |]. intros j Hj. replace j with 0 by lia.
      rewrite !get_eq, (lo_snapshot _ _ Hl'), (lo_snapshot _ _ HokF) by (apply Hl' || apply HokF || done). done.
    + destruct (get_last (B + 1) HB a' _ Hl' Hpos) as (x & Hx & Htx). pose proof (last_index_bound _ (lo_wf _ _ Hl')).
      destruct (lead_agree cfg (B + 1) HB a' g' Hinv' Hg _ (last_index (log (core n'))) x Hl' ltac:(ulia) Hx) as (F' & HF' & Hag).
      rewrite Htx, Hcov, <- Ht, HF in HF'. injection HF' as <-. split; [|done].
      rewrite Hag in Hx by done. apply get_Some in Hx; [lia | apply HokF | ulia].
Qed.

(** After the step: a leader holds its own log, and so does a node that accepted. *)
Lemma step_ghost :
  ginv cfg a g → ∃ g', advances cfg a g a' g' ∧
    (role_is_leader (role n') = true ∨ (∃ m q, In m (a_net a) ∧ accepts (core n) m q (core n') e ∧
       covers (core n) (msg_term m) q = true) →
     In (i, term (core n'), last_index (log (core n'))) (g_acks g')).
Proof.
  intros Hg. pose proof (mv_inv _ _ _ _ _ _ _ _ Hmv) as Hinv'.
  destruct (ginv_steps cfg (B + 1) HB a a' g) as [g1 Hadv];
    [apply Hmv | eapply ainv_mono, Hinv; lia | done |].
  assert (∀ F, g_lead g1 (term (core n')) = Some F → last_index (log (core n')) ≤ last_index F →
            agree (log (core n')) F (last_index (log (core n'))) →
            ∃ g', advances cfg a g a' g' ∧ In (i, term (core n'), last_index (log (core n'))) (g_acks g')) as Hack.
  { intros F. destruct abs_log' as [<- <-]. intros HF Hle Ha.
    eexists. split; [by eapply advances_ack | by left]. }
  destruct (role_is_leader (role n')) eqn:Hr.
  - destruct (Hack (log (core n'))) as (g' & ? & ?); [|done..| by exists g'].
    destruct abs_log' as [<- <-]. apply (gi_leader _ _ _ (ad_inv _ _ _ _ _ Hadv)).
    rewrite (rp_abs _ _ _ _ (mv_rep _ _ _ _ _ _ _ _ Hmv)). unfold abs_node. by destruct (role n').
  - destruct (pr_commit _ _ _ _ Hpr) as [[Hq Hc]|(m & q & Hm & Hacc & Hcov)].
    + exists g1. split; [done |]. intros [?|(m & q & _ & Hacc & _)]; [done |]. exfalso. unfold requests_ok in Hq.
      rewrite (ac_reply _ _ _ _ _ Hacc) in Hq. by inversion_clear Hq.
    + destruct (accepts_agree g1 m q (ad_inv _ _ _ _ _ Hadv) Hm Hacc Hcov) as (F & ? & ? & ?).
      destruct (Hack F) as (g' & ? & ?); [done..|]. by exists g'.
Qed.

Section Ghost.

Context (g' : Ghost).
Hypothesis Hadv : advances cfg a g a' g'.
Hypothesis Hack : role_is_leader (role n') = true ∨ (∃ m q, In m (a_net a) ∧ accepts (core n) m q (core n') e ∧
  covers (core n) (msg_term m) q = true) → In (i, term (core n'), last_index (log (core n'))) (g_acks g').
Hypothesis Hnet : net_safe a g.
Hypothesis Hsafe : node_safe a g n.

Lemma step_table l v x : role n' = RLeader l → match_index l !! v = Some x → x = 0 ∨ In (v, term (core n'), x) (g_acks g').
Proof.
  intros Hr Hx. destruct (pr_table _ _ _ _ Hpr l v x Hr Hx) as [?|[[-> ->]|[Ht [(l0 & Hr0 & Hx0)|Hm]]]]; [by left | ..].
  - right. rewrite (rp_id _ _ _ _ (mv_rep _ _ _ _ _ _ _ _ Hmv)). apply Hack. left. by rewrite Hr.
  - rewrite Ht. destruct (ns_table _ _ _ Hsafe l0 v x Hr0 Hx0) as [?|Hin]; [by left | right]. by apply Hadv.
  - destruct Hm as (m & r & Hm & <- & Hmt & Hp & Hsucc & <-). right. apply Hadv. rewrite Ht, <- Hmt.
    by eapply (nt_ack _ _ Hnet).
Qed.

(** An entry the leader may commit is chosen. *)
Lemma can_commit_chosen l k :
  role n' = RLeader l → 0 < k → k < u64_modulus → can_commit l (core n') k = true →
  ∃ x, get (log (core n')) k = Some x ∧ e_term x = term (core n') ∧ chosen cfg a' g' x.
Proof.
  intros Hr Hk Hk' Hc. pose proof (mv_inv _ _ _ _ _ _ _ _ Hmv) as Hinv'. pose proof (mv_rep _ _ _ _ _ _ _ _ Hmv) as Hrep'.
  unfold can_commit in Hc. apply andb_true_iff in Hc as [Ht%N.eqb_eq Hq].
  pose proof (ig_log _ _ (ai_log _ _ _ Hinv') i) as Hl. rewrite (proj1 abs_log') in Hl.
  assert (0 < term (core n')) as Hpos.
  { rewrite <- (proj2 abs_log'). eapply (il_term _ _ (ai_lead _ _ _ Hinv')), (il_role _ _ (ai_lead _ _ _ Hinv')).
    rewrite (rp_abs _ _ _ _ Hrep'). unfold abs_node. by rewrite Hr. }
  rewrite (term_at_get0 _ k) in Ht by (done || apply Hl). destruct (get (log (core n')) k) as [x|] eqn:Hx; [|lia].
  pose proof (get_Some _ _ _ (lo_wf _ _ Hl) Hk' Hx) as (_ & Hi & _).
  exists x. split_and!; [done | done |]. split; [eexists; by apply (lo_link _ _ Hl _ _ Hk' Hx) |].
  rewrite effective_config_plain, (rp_boot _ _ _ _ Hrep') in Hq
    by (eapply core_ok_plain, (represents_core_ok cfg i (B + 1)); done).
  exists (fun v => k <=? matched l v). split; [done |]. intros v Hv%N.leb_le. unfold matched in Hv.
  destruct (match_index l !! v) as [y|] eqn:Hy; simpl in Hv; [|lia].
  destruct (step_table l v y Hr Hy) as [?|Hin]; [lia |]. exists y. eexists. rewrite Ht.
  split_and!; [done | by apply (lo_link _ _ Hl _ _ Hk' Hx) | lia].
Qed.

(** What was committed stays in the log. *)
Lemma step_kept j : 1 ≤ j ≤ commit_index (core n) →
  ∃ x, get (log (core n)) j = Some x ∧ get (log (core n')) j = Some x ∧ safe cfg a' g' (term (core n')) j x.
Proof.
  intros Hj. destruct Hsafe as [Sc _ Sa]. destruct (Sc j Hj) as (x & Hx & Hs). exists x. split; [done |].
  pose proof (ig_log _ _ (ai_log _ _ _ Hinv) i) as Hl. rewrite (proj1 abs_log) in Hl.
  pose proof (last_index_bound _ (lo_wf _ _ Hl)). pose proof (mv_term _ _ _ _ _ _ _ _ Hmv).
  split; [|by eapply (ad_safe _ _ _ _ _ Hadv)]. rewrite <- (proj1 abs_log').
  apply (ad_kept _ _ _ _ _ Hadv); [ulia | by rewrite (proj1 abs_log) | by rewrite (proj2 abs_log)].
Qed.

Lemma step_commit :
  commit_index (core n) ≤ commit_index (core n') ≤ last_index (log (core n')) ∧
  ∀ j, 1 ≤ j ≤ commit_index (core n') →
    ∃ x, get (log (core n')) j = Some x ∧ safe cfg a' g' (term (core n')) j x.
Proof.
  pose proof (mv_inv _ _ _ _ _ _ _ _ Hmv) as Hinv'. pose proof (mv_rep _ _ _ _ _ _ _ _ Hmv) as Hrep'.
  pose proof (ig_log _ _ (ai_log _ _ _ Hinv') i) as Hl. rewrite (proj1 abs_log') in Hl.
  pose proof (last_index_bound _ (lo_wf _ _ Hl)) as Hlast.
  assert (∀ j, 1 ≤ j ≤ commit_index (core n) →
            ∃ x, get (log (core n')) j = Some x ∧ safe cfg a' g' (term (core n')) j x) as Hold
    by (intros j Hj; destruct (step_kept j Hj) as (x & _ & ?); eauto).
  assert (commit_index (core n) ≤ last_index (log (core n'))) as Hle.
  { pose proof (ig_log _ _ (ai_log _ _ _ Hinv) i) as Hl0. rewrite (proj1 abs_log) in Hl0.
    pose proof (last_index_bound _ (lo_wf _ _ Hl0)). pose proof (ns_applied _ _ _ Hsafe).
    destruct (N.eq_0_gt_0_cases (commit_index (core n))); [lia |].
    destruct (Hold (commit_index (core n))) as (x & Hx & _); [lia |]. apply get_Some in Hx; [lia | apply Hl | ulia]. }
  destruct (pr_commit _ _ _ _ Hpr) as [[_ [->|(l & Hr & Hc & Hcan)]]|(m & q & Hm & Hacc & Hcov)]; [done | ..].
  - split; [lia |]. intros j Hj.
    destruct (can_commit_chosen l (commit_index (core n')) Hr ltac:(lia) ltac:(ulia) Hcan) as (x & Hx & Ht & Hch).
    destruct (get_in_range (log (core n')) j) as [y Hy]; [apply Hl | rewrite (lo_snapshot _ _ Hl); lia |].
    exists y. split; [done |]. exists x, (log (core n')).
    pose proof (get_Some (log (core n')) (commit_index (core n')) x (lo_wf _ _ Hl) ltac:(ulia) Hx) as (_ & Hi & _).
    split_and!; [done | lia | lia | | done]. rewrite Ht. destruct abs_log' as [<- <-].
    apply (gi_leader _ _ _ (ad_inv _ _ _ _ _ Hadv)). rewrite (rp_abs _ _ _ _ Hrep'). unfold abs_node. by rewrite Hr.
  - rewrite (ac_commit _ _ _ _ _ Hacc). destruct (N.ltb_spec (commit_index (core n)) (aq_leader_commit q)); [|done].
    split; [lia |]. intros j Hj.
    destruct (nt_commit _ _ Hnet m q Hm (ac_payload _ _ _ _ _ Hacc) j ltac:(lia)) as (x & Hs).
    eapply (ad_safe _ _ _ _ _ Hadv _ (term (core n'))) in Hs; [|rewrite (ac_term _ _ _ _ _ Hacc); done].
    destruct (accepts_agree g' m q (ad_inv _ _ _ _ _ Hadv) Hm Hacc Hcov) as (F & HF & _ & Hag).
    exists x. split; [|done]. rewrite Hag by lia. by eapply (safe_lead cfg (B + 1) HB); [|apply Hadv | ..].
Qed.

Lemma step_safe : node_safe a' g' n'.
Proof.
  destruct step_commit as [? ?]. pose proof (ns_applied _ _ _ Hsafe). split; [done | apply step_table |].
  rewrite (pr_applied _ _ _ _ Hpr). lia.
Qed.

Lemma step_net : net_safe a' g'.
Proof.
  destruct Hnet as [Nc Na]. destruct step_commit as [_ Hcommit]. pose proof (mv_net _ _ _ _ _ _ _ _ Hmv) as Hms.
  split; rewrite Hms.
  - intros m q [Hm|Hm]%in_app_iff Hp j Hj.
    { destruct (Nc m q Hm Hp j Hj) as [x Hx]. exists x. by eapply (ad_safe _ _ _ _ _ Hadv). }
    destruct (pr_commit _ _ _ _ Hpr) as [[Hq _]|(m' & q' & _ & Hacc & _)].
    + unfold requests_ok in Hq. rewrite Forall_forall in Hq. apply list_elem_of_In, Hq in Hm.
      unfold carries_commit in Hm. rewrite Hp in Hm. destruct Hm as [Hlc ->]. rewrite Hlc in Hj.
      destruct (Hcommit j Hj) as (x & _ & ?). by exists x.
    + rewrite (ac_reply _ _ _ _ _ Hacc) in Hm. destruct Hm as [<-|[]]. done.
  - intros m r [Hm|Hm]%in_app_iff Hp Hsucc; [apply Hadv; eauto |].
    destruct (pr_commit _ _ _ _ Hpr) as [[Hq _]|(m' & q' & Hm' & Hacc & Hcov)].
    + unfold requests_ok in Hq. rewrite Forall_forall in Hq. apply list_elem_of_In, Hq in Hm.
      unfold carries_commit in Hm. rewrite Hp in Hm. congruence.
    + assert (In (i, term (core n'), last_index (log (core n'))) (g_acks g')) as Hin by (apply Hack; right; eauto).
      rewrite (ac_reply _ _ _ _ _ Hacc) in Hm. destruct Hm as [<-|[]]. injection Hp as <-. simpl.
      by rewrite (rp_id _ _ _ _ (mv_rep _ _ _ _ _ _ _ _ Hmv)).
Qed.

End Ghost.

End Step.

End Node.

(** The event's request, if any, is covered. *)
Definition event_covered (c : Core) (e : Event) : bool :=
  match e with
  | EMessage m => match msg_payload m with PAppendRequest q => covers c (msg_term m) q | _ => true end
  | _ => true
  end.

Lemma node_bounds cfg B i a n :
  B < u64_max → ainv cfg B a → represents cfg i a n →
  plain (log (core n)) ∧ log_wf (log (core n)) ∧ last_index (log (core n)) ≤ B.
Proof.
  intros HB Hinv Hrep. pose proof (represents_core_ok cfg i B a n HB Hinv Hrep) as Hok.
  split_and!; [by eapply core_ok_plain | apply Hok | by eapply core_ok_last].
Qed.

Lemma step_event_progresses cfg B i a g n e n' eff :
  B + 1 < u64_max → ainv cfg B a → represents cfg i a n → node_safe cfg a g n → event_in i (a_net a) e →
  event_covered (core n) e = true → event_plain e →
  step_event n e = Some (n', eff) → progresses a n eff n'.
Proof.
  intros HB Hinv Hrep Hs Hin Hcov Hpl Hst. destruct (node_bounds cfg B i a n ltac:(lia) Hinv Hrep) as (Hp & _ & Hl).
  pose proof (ns_applied _ _ _ _ Hs).
  destruct (step_event_commits n e n' eff Hp ltac:(ulia) Hpl Hst) as [Ca Cc Ct]. split; [done | |].
  - destruct Cc as [?|(m & q & -> & Hacc)]; [by left | right]. exists m, q. destruct Hin as [? _].
    split_and!; [done | done |]. unfold event_covered in Hcov. by rewrite (ac_payload _ _ _ _ _ Hacc) in Hcov.
  - intros l' v x Hr Hx. destruct (Ct l' Hr) as [Hf|(l & Hr0 & Ht & Hts)].
    + destruct (Hf v x Hx); auto.
    + right. right. split; [done |]. destruct (Hts v x Hx) as [?|(m & r & -> & ? & ? & ? & ? & ?)]; [left; eauto | right].
      destruct Hin as [? _]. exists m, r. by split_and!.
Qed.

Lemma propose_progresses cfg B i a g n cmd n' k eff :
  B + 1 < u64_max → ainv cfg B a → represents cfg i a n → node_safe cfg a g n →
  node_propose n cmd = Some (n', inr (k, eff)) → progresses a n eff n'.
Proof.
  intros HB Hinv Hrep Hs Hp. destruct (node_bounds cfg B i a n ltac:(lia) Hinv Hrep) as (Hpl & Hw & Hl).
  pose proof (ns_applied _ _ _ _ Hs).
  destruct (node_propose_commits n cmd n' k eff Hpl Hw ltac:(ulia) ltac:(ulia) Hp)
    as (Ha & Hq & l & l' & Hr & Hr' & Ht & Hid & Htab & Hc). split; [done | left; split; [done |] |].
  - destruct Hc as [?|[? ?]]; [by left | right; eauto].
  - rewrite Hr'. intros l0 v x [= <-] Hx. destruct (Htab v x Hx) as [?|[-> ->]]; [right; right; eauto | right; left].
    by rewrite Hid.
Qed.

(** ** The commands applied *)

Lemma range_excl_app lo mid hi : lo ≤ mid → mid ≤ hi → range_excl lo hi = range_excl lo mid ++ range_excl mid hi.
Proof.
  intros H1. remember (N.to_nat (mid - lo)) as d eqn:Hd. revert lo H1 Hd.
  induction d as [|d IH]; intros lo H1 Hd H2.
  - replace lo with mid by lia. rewrite (range_excl_cons mid mid), N.ltb_irrefl. done.
  - rewrite (range_excl_cons lo hi), (range_excl_cons lo mid). rewrite !(proj2 (N.ltb_lt _ _)) by lia.
    simpl. f_equal. apply IH; lia.
Qed.

Lemma range_excl_In k lo hi : In k (range_excl lo hi) → lo ≤ k < hi.
Proof. unfold range_excl. rewrite in_map_iff. intros (x & <- & Hx%in_seq). lia. Qed.

Lemma omap_ext_in {A} (f f' : N → option A) l : (∀ k, In k l → f k = f' k) → omap f l = omap f' l.
Proof.
  induction l as [|x l IH]; intros H; [done |]. csimpl. rewrite (H x) by (by left). rewrite IH; [done |].
  intros k Hk. apply H. by right.
Qed.

Lemma applied_ext l l' k :
  (∀ j, 1 ≤ j ≤ k → get l j = get l' j) → applied_entries l k = applied_entries l' k.
Proof.
  intros H. apply omap_ext_in. intros j Hj%range_excl_In. unfold committed_entry. rewrite H by lia. done.
Qed.

Lemma applied_split l j k : j ≤ k → applied_entries l k = applied_entries l j ++ omap (committed_entry l) (range_excl (j + 1) (k + 1)).
Proof. intros H. unfold applied_entries. rewrite (range_excl_app 1 (j + 1) (k + 1)) by lia. apply omap_app. Qed.

(** ** The cluster *)

Section Cluster.

Context {Addr : Type} `{!EqDecision Addr}.
Context {Bytes : Type} (encode : PersistentDelta → option Bytes) (decode : Bytes → option PersistentDelta).
Context {State Res : Type} (apply_command : State → Command → State * Res) (init_state : State).
Context (table : list (NodeId * Addr)) (consensus_of : NodeId → Config).

Local Abbreviation runtime := (RaftRuntime Addr Bytes State).
Local Abbreviation cluster := (Cluster Addr Bytes State).
Local Abbreviation exec := (exec encode decode apply_command init_state).
Local Abbreviation exec_all := (exec_all encode decode apply_command init_state).
Local Abbreviation init_cluster := (init_cluster decode init_state table consensus_of).
Local Abbreviation cfg := (cfg table).

(** An action that delivers an append request finds it [covers]. *)
Definition covered (s : cluster) (act : Action) : bool :=
  match act with
  | ADeliver k _ =>
      match network s !! k with
      | Some m =>
          match runtimes s !! msg_to m with
          | Some rt => event_covered (core (rt_node rt)) (EMessage m)
          | None => true
          end
      | None => true
      end
  | _ => true
  end.

Fixpoint all_covered (s : cluster) (acts : list Action) : bool :=
  match acts with
  | [] => true
  | act :: rest =>
      covered s act && match exec s act with Some s => all_covered s rest | None => true end
  end.

(** What a healthy runtime has applied. *)
Definition applied_by (rt : runtime) : list CommittedEntry :=
  applied_entries (log (core (rt_node rt))) (last_applied (core (rt_node rt))).

Definition healthy (a : ACluster) (g : Ghost) (rt : runtime) : Prop :=
  node_safe cfg a g (rt_node rt) ∧ rt_state rt = apply_all apply_command init_state (applied_by rt).

Record sinv (B : N) (s : cluster) (a : ACluster) (g : Ghost) : Prop := {
  si_cluster : cinv decode init_state table consensus_of B s a;
  si_ghost : ginv cfg a g;
  si_net : net_safe cfg a g;
  si_rt : ∀ i rt, runtimes s !! i = Some rt → rt_failed rt = false → healthy a g rt
}.

Hypothesis Hcodec : codec encode decode.
Hypothesis Hids : ∀ j, id (consensus_of j) = j.

Lemma put_safe B s a g a' g' i (rt' : runtime) ms :
  sinv B s a g → cinv decode init_state table consensus_of (B + 1) (put s i rt' ms) a' → advances cfg a g a' g' →
  net_safe cfg a' g' → (rt_failed rt' = false → healthy a' g' rt') → sinv (B + 1) (put s i rt' ms) a' g'.
Proof.
  intros [Sc Sg Sn Sr] Hc Hadv Hn Hh. split; [done | apply Hadv | done |].
  intros j rt. simpl. destruct (decide (i = j)) as [<-|Hne].
  - rewrite lookup_insert_eq. by intros [= <-].
  - rewrite lookup_insert_ne by done. intros Hrt Hf. destruct (Sr j rt Hrt Hf) as [? ?].
    split; [by eapply node_safe_mono | done].
Qed.

Lemma advances_refl B a g : B < u64_max → ainv cfg B a → ginv cfg a g → advances cfg a g a g.
Proof. intros HB Hinv Hg. split; try done. intros t t' j x Ht. by eapply (safe_mono cfg B HB). Qed.

(** An action that changes neither a node nor what a runtime applied. *)
Lemma put_safe_same B s a g i (rt rt' : runtime) :
  B < u64_max → sinv B s a g → runtimes s !! i = Some rt → rt_config rt' = rt_config rt → rt_node rt' = rt_node rt →
  rt_store rt' = rt_store rt → rt_failed rt' = rt_failed rt → rt_state rt' = rt_state rt →
  sinv (B + 1) (put s i rt' []) a g.
Proof.
  intros HB Hs Hrt H1 H2 H3 H4 H5. pose proof Hs as [Sc Sg Sn Sr].
  eapply put_safe; [done | by eapply put_same | eapply advances_refl; [done | apply Sc | done] | done |].
  rewrite H4. intros Hf. destruct (Sr i rt Hrt Hf) as [? ?]. unfold healthy, applied_by. by rewrite H2, H5.
Qed.

(** Applying what the step committed. *)
Lemma effects_healthy a g wal_ok n e (rt1 rt' : runtime) out :
  node_safe cfg a g (rt_node rt1) → log_wf (log (core (rt_node rt1))) →
  rt_state rt1 = apply_all apply_command init_state (applied_entries (log (core n)) (last_applied (core n))) →
  last_applied (core (rt_node rt1)) = last_applied (core n) →
  (∀ j, 1 ≤ j ≤ last_applied (core n) → get (log (core n)) j = get (log (core (rt_node rt1))) j) →
  handle_effects encode apply_command wal_ok rt1 e = Some (rt', out, None) → healthy a g rt'.
Proof.
  intros Hs Hw Hst Hla Hpre H. unfold handle_effects in H. destruct (if persist e then _ else _) as [[|st]|]; [done | | done].
  destruct (send_snapshots e); [|done]. destruct (send_messages _ _) as [ms [|]]; [done |].
  unfold apply_committed in H. set (rt2 := set_rt_store rt1 st) in *.
  pose proof (last_index_bound _ Hw). pose proof (ns_applied _ _ _ _ Hs) as Hap.
  destruct (apply_loop_correct apply_command (N.to_nat (commit_index (core (rt_node rt2)))) rt2 [])
    as (Hdone & Hstate & (k & Hk & Hkc) & _); change (rt_node rt2) with (rt_node rt1); [done | lia | lia | |].
  { unfold committed. eapply Nat.le_trans; [apply omap_range_length |]. rewrite !u64_add_small by ulia. lia. }
  destruct (apply_loop _ _ rt2 []) as [rt3 comp]. injection H as <- _. simpl in *.
  assert (last_applied (core (rt_node rt1)) ≤ k ≤ commit_index (core (rt_node rt1))) as Hk' by lia.
  rewrite Hk in Hdone. destruct Hs as [Sc St _]. split; rewrite ?Hk.
  { split; [done | done |]. change (k ≤ commit_index (core (rt_node rt1)) ≤ last_index (log (core (rt_node rt1)))). lia. }
  unfold applied_by. rewrite Hk. cbn [core advance set_last_applied log last_applied persistent].
  rewrite Hstate, Hst.
  rewrite (applied_ext _ (log (core (rt_node rt1)))) by done. unfold apply_all. rewrite <- fold_left_app. f_equal.
  unfold committed in *. simpl in Hdone. rewrite !u64_add_small in * by ulia. rewrite <- Hla.
  rewrite <- (applied_split _ _ (commit_index (core (rt_node rt1)))) by lia.
  change (log (set_last_applied (core (rt_node rt1)) k)) with (log (core (rt_node rt1))) in *.
  rewrite (applied_split _ k) by lia. rewrite Hdone. by rewrite app_nil_r.
Qed.

Lemma run_effects_safe B i wal_ok s a g a' n' e (rt rt1 rt' : runtime) out err :
  B + 1 < u64_max → sinv B s a g → runtimes s !! i = Some rt → rt_failed rt = false →
  moved cfg B i a (rt_node rt) e a' n' → progresses a (rt_node rt) e n' →
  rt_config rt1 = rt_config rt → rt_node rt1 = n' → rt_store rt1 = rt_store rt → rt_failed rt1 = false →
  rt_state rt1 = rt_state rt → handle_effects encode apply_command wal_ok rt1 e = Some (rt', out, err) →
  ∃ a2 g2, sinv (B + 1) (put s i (match err with Some _ => fail rt' | None => rt' end) (sent out)) a2 g2 ∧
           advances cfg a g a2 g2.
Proof.
  intros HB Hs Hrt Hf Hmv Hpr H1 H2 H3 H4 H5 Hh. pose proof Hs as [Sc Sg Sn Sr]. pose proof Sc as [Ca _ Cr].
  destruct (ri_live _ _ _ _ _ _ _ (Cr _ _ Hrt) Hf) as (Hrep & _). destruct (Sr _ _ Hrt Hf) as [Hns Hst].
  destruct (run_effects_inv encode decode apply_command init_state table consensus_of Hcodec B i wal_ok s a a'
              (rt_node rt) n' e rt rt1 rt' out err HB Sc Hrt Hf eq_refl Hmv H1 H2 H3 H4 Hh) as (a2 & Hc2 & _ & Hor).
  destruct Hor as [(-> & Hsent & Herr)|Heq].
  { assert (advances cfg a g a g) as Hadv by (eapply (advances_refl B); [lia | done | done]).
    exists a, g. split; [|done]. eapply put_safe; [done..|]. by destruct err. }
  subst a2. destruct (step_ghost cfg B HB i a g (rt_node rt) e a' n' Ca Hrep Hmv Hpr Sg) as (g' & Hadv & Hack).
  exists a', g'. split; [|done]. eapply put_safe; [done | done | done | |].
  { by apply (step_net cfg B HB i a g (rt_node rt) e a' n'). }
  pose proof (step_safe cfg B HB i a g (rt_node rt) e a' n' Ca Hrep Hmv Hpr g' Hadv Hack Sn Hns) as Hns'.
  destruct err; [done |]. intros _. rewrite <- H2 in Hns'.
  destruct (node_bounds cfg (B + 1) i a' n' HB (mv_inv _ _ _ _ _ _ _ _ Hmv) (mv_rep _ _ _ _ _ _ _ _ Hmv)) as (_ & Hw & _).
  eapply (effects_healthy a' g' wal_ok (rt_node rt)); [exact Hns' | by rewrite H2 | by rewrite H5 | | | exact Hh].
  - rewrite H2. apply (pr_applied _ _ _ _ Hpr).
  - intros j Hj. pose proof (ns_applied _ _ _ _ Hns).
    destruct (step_kept cfg B HB i a g (rt_node rt) e a' n' Ca Hrep Hmv g' Hadv Hns j ltac:(lia)) as (x & -> & Hx & _).
    by rewrite H2.
Qed.

Lemma event_safe B i wal_ok s a g ev (rt rt' : runtime) out err n e :
  B + 1 < u64_max → sinv B s a g → runtimes s !! i = Some rt → rt_failed rt = false →
  event_in i (a_net a) ev → event_covered (core (rt_node rt)) ev = true → (∀ k, ev ≠ EDiskWriteComplete k) →
  step_event (rt_node rt) ev = Some (n, e) →
  handle_or_fail encode apply_command wal_ok (set_rt_node rt n) e = Some (rt', out, err) →
  ∃ a2 g2, sinv (B + 1) (put s i rt' (sent out)) a2 g2 ∧ advances cfg a g a2 g2.
Proof.
  intros HB Hs Hrt Hf Hin Hcov Hev Hst. unfold handle_or_fail. intros Hh. pose proof Hs as [[Ca _ Cr] Sg Sn Sr].
  destruct (ri_live _ _ _ _ _ _ _ (Cr _ _ Hrt) Hf) as (Hrep & _). destruct (Sr _ _ Hrt Hf) as [Hns _].
  destruct (step_event_moved cfg B HB i a _ ev n e Ca Hrep Hin Hst) as [a' Hmv].
  assert (event_plain ev) as Hpl.
  { destruct ev as [|m|k]; [done | | by destruct (Hev k)]. by apply (ib_install _ _ (ai_bound _ _ _ Ca)), Hin. }
  pose proof (step_event_progresses cfg B i a g _ ev n e HB Ca Hrep Hns Hin Hcov Hpl Hst) as Hpr.
  opt_inv. eapply (run_effects_safe B i wal_ok s a g a' n e rt (set_rt_node rt n)); done.
Qed.

Lemma propose_safe B i wal_ok bytes s a g (rt rt' : runtime) out res :
  B + 1 < u64_max → sinv B s a g → runtimes s !! i = Some rt →
  propose encode apply_command wal_ok rt bytes = Some (rt', out, res) →
  ∃ a2 g2, sinv (B + 1) (put s i rt' (sent out)) a2 g2 ∧ advances cfg a g a2 g2.
Proof.
  intros HB Hs Hrt. pose proof Hs as [[Ca _ Cr] Sg Sn Sr].
  assert (advances cfg a g a g) as Hrefl by (eapply (advances_refl B); [lia | done | done]).
  unfold propose, propose_locked. destruct (rt_failed rt) eqn:Hf.
  { intros H. opt_inv. exists a, g. split; [eapply put_safe_same; [lia | done..] | done]. }
  destruct (u64_checked_add _ _) as [next|]; cycle 1.
  { intros H. opt_inv. exists a, g. split; [eapply put_safe_same; [lia | done..] | done]. }
  cbn [rt_node]. destruct (node_propose (rt_node rt) (mkCommand bytes)) as [[n r]|] eqn:Hp; [|done].
  destruct (ri_live _ _ _ _ _ _ _ (Cr _ _ Hrt) Hf) as (Hrep & _). destruct (Sr _ _ Hrt Hf) as [Hns _].
  pose proof (propose_moved cfg B HB i a _ _ _ _ Ca Hrep Hp) as Hres.
  destruct r as [e|[index e]].
  { intros H. opt_inv. subst n. exists a, g. split; [eapply put_safe_same; [lia | done..] | done]. }
  destruct Hres as [_ [a' Hmv]]. pose proof (propose_progresses cfg B i a g _ _ _ _ _ HB Ca Hrep Hns Hp) as Hpr.
  intros H. opt_inv.
  edestruct (run_effects_safe B i wal_ok s a g a' n e rt) as (a2 & g2 & Hs2 & Hadv);
    [done | done | done | done | done | done | | | | | | exact E |]; [done..|].
  exists a2, g2. split; [|done]. destruct o; opt_inv; [|done].
  pose proof Hs2 as [[Ca2 Cn2 Cr2] Sg2 Sn2 Sr2]. split; [split; [done | done |] | done | done |].
  - intros j rtj. specialize (Cr2 j). simpl in *. destruct (decide (i = j)) as [<-|Hne];
      [|rewrite lookup_insert_ne in * by done; auto].
    rewrite lookup_insert_eq in *. intros [= <-]. eapply rt_inv_frame; [by apply Cr2 | done..].
  - intros j rtj. specialize (Sr2 j). simpl in *. destruct (decide (i = j)) as [<-|Hne];
      [|rewrite lookup_insert_ne in * by done; auto]. rewrite lookup_insert_eq. by intros [= <-].
Qed.

Lemma open_runtime_fresh c records (rt : runtime) :
  open_runtime decode c records init_state = Some (inr rt) →
  commit_index (core (rt_node rt)) = 0 ∧ last_applied (core (rt_node rt)) = 0 ∧ role_is_leader (role (rt_node rt)) = false ∧
  rt_state rt = init_state.
Proof.
  unfold open_runtime. case_match; [done |]. destruct (node_new _ _); [|done]. destruct (open_store _ _ _) as [|st]; [done |].
  unfold node_restore, become_follower. destruct (Follower.new _ _) as [[f c1]|] eqn:Hf; [|done]. intros [= <-].
  by destruct (follower_new_frame _ _ _ _ Hf) as [rg ->].
Qed.

Lemma opened_healthy a g c records (rt : runtime) :
  open_runtime decode c records init_state = Some (inr rt) → healthy a g rt.
Proof.
  intros Ho. destruct (open_runtime_fresh _ _ _ Ho) as (Hc & Ha & Hr & Hst). split.
  - split; rewrite ?Hc, ?Ha; [lia | | lia]. intros l v x Hl. by rewrite Hl in Hr.
  - unfold applied_by. by rewrite Hst, Ha.
Qed.

Lemma restart_safe B i s a g (rt rt' : runtime) :
  B + 1 < u64_max → sinv B s a g → runtimes s !! i = Some rt →
  open_runtime decode (rt_config rt) (wal (rt_store rt)) init_state = Some (inr rt') →
  ∃ a2 g2, sinv (B + 1) (put s i rt' []) a2 g2 ∧ advances cfg a g a2 g2.
Proof.
  intros HB Hs Hrt Ho. pose proof Hs as [Sc Sg [Nc Na] Sr].
  destruct (restart_inv decode init_state table consensus_of Hids B i s a rt rt' HB Sc Hrt Ho) as (a' & Hc & Hm & Hnet).
  destruct (ginv_steps cfg (B + 1) HB a a' g) as [g' Hadv]; [by apply rtc_once | eapply ainv_mono, Sc; lia | done |].
  exists a', g'. split; [|done]. eapply put_safe; [done..| |intros _; by eapply opened_healthy].
  split; rewrite Hnet.
  - intros m q Hin Hp j Hj. destruct (Nc m q Hin Hp j Hj) as [x Hx]. exists x. by eapply (ad_safe _ _ _ _ _ Hadv).
  - intros m r Hin Hp Hsucc. apply Hadv. eauto.
Qed.

Lemma exec_safe B act s s' a g :
  B + 1 < u64_max → sinv B s a g → covered s act = true → exec s act = Some s' →
  ∃ a2 g2, sinv (B + 1) s' a2 g2 ∧ advances cfg a g a2 g2.
Proof.
  intros HB Hs. pose proof Hs as [Sc Sg _ _].
  assert (advances cfg a g a g) as Hrefl by (eapply (advances_refl B); [lia | apply Sc | done]).
  assert (∀ i (rt rt' : runtime), runtimes s !! i = Some rt → rt_config rt' = rt_config rt → rt_node rt' = rt_node rt →
            rt_store rt' = rt_store rt → rt_failed rt' = rt_failed rt → rt_state rt' = rt_state rt →
            ∃ a2 g2, sinv (B + 1) (put s i rt' []) a2 g2 ∧ advances cfg a g a2 g2) as Hsame.
  { intros i rt rt' ??????. exists a, g. split; [eapply put_safe_same; [lia | done..] | done]. }
  destruct act as [i ok|k ok|i bytes ok|i index id|i]; simpl; intros Hcov H.
  - destruct (runtimes s !! i) as [rt|] eqn:Hrt; [|done]. opt_inv. unfold tick_once, tick_locked in E.
    destruct (rt_failed rt) eqn:Hf; [opt_inv; by eapply Hsame |].
    destruct (tick (rt_node rt)) as [[n e]|] eqn:Ht; [|done]. by eapply (event_safe B i ok s a g ETick).
  - destruct (network s !! k) as [m|] eqn:Hm; [|done].
    destruct (runtimes s !! msg_to m) as [rt|] eqn:Hrt; [|done]. case_match; opt_inv.
    { exists a, g. split; [|done]. destruct Hs as [[Ca ? ?] ? ? ?]. split; try done. split; try done. eapply ainv_mono, Ca. lia. }
    unfold runtime_step, step_locked in E. destruct (rt_failed rt) eqn:Hf; [opt_inv; by eapply Hsame |].
    destruct (node_step (rt_node rt) m) as [[n e]|] eqn:Ht; [|done].
    eapply (event_safe B (msg_to m) ok s a g (EMessage m)); try done. split; [|done].
    apply Sc. by apply list_elem_of_In, list_elem_of_lookup_2 with k.
  - destruct (runtimes s !! i) as [rt|] eqn:Hrt; [|done]. opt_inv. by eapply propose_safe.
  - destruct (runtimes s !! i) as [rt|] eqn:Hrt; [|done]. opt_inv. by eapply Hsame.
  - destruct (runtimes s !! i) as [rt|] eqn:Hrt; [|done]. opt_inv. case_match; [done |]. opt_inv.
    by eapply restart_safe.
Qed.

Lemma exec_all_safe acts : ∀ B s s' a g,
  B + N.of_nat (length acts) < u64_max → sinv B s a g → all_covered s acts = true → exec_all s acts = Some s' →
  ∃ a' g', sinv (B + N.of_nat (length acts)) s' a' g' ∧ ∀ t j x, safe cfg a g t j x → safe cfg a' g' t j x.
Proof.
  induction acts as [|act acts IH]; intros B s s' a g HB Hs Hcov H; simpl in *.
  { opt_inv. exists a, g. split; [by rewrite N.add_0_r | done]. }
  apply andb_true_iff in Hcov as [Hc1 Hc2]. destruct (exec s act) as [s1|] eqn:He; [|done].
  destruct (exec_safe B act s s1 a g) as (a1 & g1 & Hs1 & Hadv); [lia | done | done | done |].
  destruct (IH (B + 1) s1 s' a1 g1) as (a2 & g2 & Hs2 & Hmono); [lia | done | done | done |].
  exists a2, g2. replace (B + N.of_nat (S (length acts))) with (B + 1 + N.of_nat (length acts)) by lia.
  split; [done |]. intros t j x Hx. by eapply Hmono, (ad_safe _ _ _ _ _ Hadv).
Qed.

Lemma all_covered_app acts1 acts2 s s1 :
  exec_all s acts1 = Some s1 → all_covered s (acts1 ++ acts2) = all_covered s acts1 && all_covered s1 acts2.
Proof.
  revert s. induction acts1 as [|act acts IH]; intros s H; simpl in *; [by injection H as -> |].
  destruct (exec s act) as [s2|]; [|done]. by rewrite (IH s2), andb_assoc.
Qed.

Lemma boot_healthy a g ps : ∀ rts i (rt : runtime),
  boot decode init_state table consensus_of ps = Some rts → rts !! i = Some rt → healthy a g rt.
Proof.
  induction ps as [|[j addr] ps IH]; simpl; intros rts i rt Hb Hrt; [by simplify_eq |].
  opt_inv. case_match; [done |]. opt_inv. apply lookup_insert_Some in Hrt as [[_ <-]|[_ Hrt]]; [|by eapply IH].
  by eapply opened_healthy.
Qed.

Lemma init_safe s : init_cluster = Some s → sinv 0 s ainit ginit.
Proof.
  intros H0. split; [by apply init_inv | apply ginit_inv | done |]. unfold Cluster.init_cluster in H0. opt_inv.
  intros i rt Hrt _. by eapply boot_healthy.
Qed.

Lemma reached_safe (s0 s1 s2 : cluster) acts1 acts2 :
  init_cluster = Some s0 → exec_all s0 acts1 = Some s1 → exec_all s1 acts2 = Some s2 →
  N.of_nat (length acts1 + length acts2) < u64_max → all_covered s0 (acts1 ++ acts2) = true →
  ∃ a1 g1 a2 g2, sinv (N.of_nat (length acts1)) s1 a1 g1 ∧ sinv (N.of_nat (length acts1 + length acts2)) s2 a2 g2 ∧
    ∀ t j x, safe cfg a1 g1 t j x → safe cfg a2 g2 t j x.
Proof.
  intros H0 H1 H2 Hb Hcov. rewrite (all_covered_app _ _ _ _ H1) in Hcov. apply andb_true_iff in Hcov as [Hc1 Hc2].
  destruct (exec_all_safe acts1 0 s0 s1 ainit ginit ltac:(lia) (init_safe s0 H0) Hc1 H1) as (a1 & g1 & Hs1 & _).
  rewrite N.add_0_l in Hs1.
  destruct (exec_all_safe acts2 (N.of_nat (length acts1)) s1 s2 a1 g1 ltac:(lia) Hs1 Hc2 H2) as (a2 & g2 & Hs2 & Hm).
  exists a1, g1, a2, g2. rewrite Nat2N.inj_add. by split_and!.
Qed.

Lemma applied_prefix l l' j k :
  (∀ i, 1 ≤ i ≤ j → get l i = get l' i) → j ≤ k → applied_entries l j `prefix_of` applied_entries l' k.
Proof. intros H Hj. rewrite (applied_split l' j k Hj), (applied_ext l l' j H). by eexists. Qed.

(** Two running nodes, the second at the same time or later, agree on what both have
    committed, and their states come from what they have applied. *)
Lemma committed_agree (s0 s1 s2 : cluster) acts1 acts2 i j (rti rtj : runtime) :
  init_cluster = Some s0 → exec_all s0 acts1 = Some s1 → exec_all s1 acts2 = Some s2 →
  N.of_nat (length acts1 + length acts2) < u64_max → all_covered s0 (acts1 ++ acts2) = true →
  runtimes s1 !! i = Some rti → rt_failed rti = false → runtimes s2 !! j = Some rtj → rt_failed rtj = false →
  (rt_state rti = apply_all apply_command init_state (applied_by rti) ∧
   last_applied (core (rt_node rti)) ≤ commit_index (core (rt_node rti))) ∧
  (rt_state rtj = apply_all apply_command init_state (applied_by rtj) ∧
   last_applied (core (rt_node rtj)) ≤ commit_index (core (rt_node rtj))) ∧
  ∀ k, 1 ≤ k ≤ commit_index (core (rt_node rti)) → k ≤ commit_index (core (rt_node rtj)) →
    get (log (core (rt_node rti))) k = get (log (core (rt_node rtj))) k.
Proof.
  intros H0 H1 H2 Hb Hcov Hi Hfi Hj Hfj.
  destruct (reached_safe s0 s1 s2 acts1 acts2 H0 H1 H2 Hb Hcov) as (a1 & g1 & a2 & g2 & [_ _ _ R1] & [C2 G2 _ R2] & Hm).
  destruct (R1 _ _ Hi Hfi) as [[Ni _ Ai] Hsti]. destruct (R2 _ _ Hj Hfj) as [[Nj _ Aj] Hstj].
  split_and!; [done | lia | done | lia |]. intros k Hki Hkj.
  destruct (Ni k Hki) as (x & -> & Hx). destruct (Nj k ltac:(lia)) as (y & -> & Hy). f_equal.
  eapply (safe_unique cfg _ Hb); [apply C2 | exact G2 | by apply Hm | exact Hy].
Qed.

(** C1: State Machine Safety. In an execution whose append requests are all [covered],
    what a running node applied at some point and what a running node applied at that
    point or later are the commands of two sequences of committed entries, one of which
    is a prefix of the other, each applied in order to the initial state. *)
Theorem state_machine_safety (s0 s1 s2 : cluster) acts1 acts2 i j (rti rtj : runtime) :
  init_cluster = Some s0 → exec_all s0 acts1 = Some s1 → exec_all s1 acts2 = Some s2 →
  N.of_nat (length acts1 + length acts2) < u64_max → all_covered s0 (acts1 ++ acts2) = true →
  runtimes s1 !! i = Some rti → rt_failed rti = false → runtimes s2 !! j = Some rtj → rt_failed rtj = false →
  rt_state rti = apply_all apply_command init_state (applied_by rti) ∧
  rt_state rtj = apply_all apply_command init_state (applied_by rtj) ∧
  (applied_by rti `prefix_of` applied_by rtj ∨ applied_by rtj `prefix_of` applied_by rti).
Proof.
  intros H0 H1 H2 Hb Hcov Hi Hfi Hj Hfj.
  destruct (committed_agree s0 s1 s2 acts1 acts2 i j rti rtj H0 H1 H2 Hb Hcov Hi Hfi Hj Hfj)
    as ([Hsti Hai] & [Hstj Haj] & Heq). split_and!; [done | done |].
  destruct (N.le_ge_cases (last_applied (core (rt_node rti))) (last_applied (core (rt_node rtj)))) as [Hle|Hle];
    [left | right]; apply applied_prefix; try done; intros k Hk; [|symmetry]; apply Heq; lia.
Qed.

(** C5: Leader Completeness. In such an execution an entry a running node has committed
    is in the log of every node that leads that term or a later one, then and ever after. *)
Theorem committed_entries_survive (s0 s1 s2 : cluster) acts1 acts2 i j (rti rtj : runtime) k :
  init_cluster = Some s0 → exec_all s0 acts1 = Some s1 → exec_all s1 acts2 = Some s2 →
  N.of_nat (length acts1 + length acts2) < u64_max → all_covered s0 (acts1 ++ acts2) = true →
  runtimes s1 !! i = Some rti → rt_failed rti = false → runtimes s2 !! j = Some rtj → rt_failed rtj = false →
  1 ≤ k ≤ commit_index (core (rt_node rti)) → is_leader (rt_node rtj) = true →
  node_term (rt_node rti) ≤ node_term (rt_node rtj) →
  ∃ x, get (log (core (rt_node rti))) k = Some x ∧ get (log (core (rt_node rtj))) k = Some x.
Proof.
  intros H0 H1 H2 Hb Hcov Hi Hfi Hj Hfj Hk Hl Ht.
  destruct (reached_safe s0 s1 s2 acts1 acts2 H0 H1 H2 Hb Hcov) as (a1 & g1 & a2 & g2 & [_ _ _ R1] & [C2 G2 _ R2] & Hm).
  destruct (R1 _ _ Hi Hfi) as [[Ni _ _] _]. destruct (Ni k Hk) as (x & Hx & Hsafe). exists x. split; [done |].
  destruct (ri_live _ _ _ _ _ _ _ (ci_rt _ _ _ _ _ _ _ C2 _ _ Hj) Hfj) as ([Ha _ _ _] & _).
  assert (g_lead g2 (node_term (rt_node rtj)) = Some (log (core (rt_node rtj)))) as HF.
  { pose proof (gi_leader _ _ _ G2 j) as HF. rewrite Ha in HF. apply HF. unfold abs_node, is_leader in *.
    by destruct (role (rt_node rtj)). }
  eapply (safe_lead cfg _ Hb); [apply C2 | exact G2 | | exact HF].
  eapply (safe_mono cfg _ Hb); [apply C2 | reflexivity | done | exact Ht | by apply Hm].
Qed.

Lemma safe_link a g t j x :
  ginv cfg a g → j < u64_modulus → safe cfg a g t j x → e_index x = j ∧ ∃ p, In (p, x) (h_links a).
Proof.
  intros Hg Hj (e & F & _ & _ & _ & HF & Hx). destruct (gi_lead _ _ _ Hg _ _ HF) as (_ & [Hw _ _ Hl] & _).
  split; [by apply get_Some in Hx as (_ & ? & _) | eauto].
Qed.

(** A proposal whose entry is committed lies behind everything committed before it. *)
Lemma proposal_after_committed (s0 s1 s2 s3 : cluster) acts1 acts2 acts3 i j l (rti rtj rtl rtj' : runtime) k b
    wal_ok bytes out id e :
  init_cluster = Some s0 → exec_all s0 acts1 = Some s1 → exec_all s1 acts2 = Some s2 →
  exec_all s2 (APropose j bytes wal_ok :: acts3) = Some s3 →
  N.of_nat (length acts1 + length acts2) + N.of_nat (S (length acts3)) < u64_max →
  all_covered s0 (acts1 ++ acts2) = true → all_covered s2 (APropose j bytes wal_ok :: acts3) = true →
  runtimes s1 !! i = Some rti → rt_failed rti = false → k ≤ commit_index (core (rt_node rti)) →
  runtimes s2 !! j = Some rtj → propose encode apply_command wal_ok rtj bytes = Some (rtj', out, inr (b, id)) →
  runtimes s3 !! l = Some rtl → rt_failed rtl = false → b ≤ commit_index (core (rt_node rtl)) →
  get (log (core (rt_node rtl))) b = Some e → e_term e = node_term (rt_node rtj) → k < b.
Proof.
  intros H0 H1 H2 H3 Hb Hc12 Hc3 Hi Hfi Hk Hj Hp Hl Hfl Hbl He Het.
  destruct (reached_safe s0 s1 s2 acts1 acts2 H0 H1 H2 ltac:(lia) Hc12) as (a1 & g1 & a2 & g2 & [_ _ _ R1] & S2 & Hm2).
  destruct (exec_all_safe (APropose j bytes wal_ok :: acts3) _ s2 s3 a2 g2 Hb S2 Hc3 H3) as (a3 & g3 & [C3 G3 _ R3] & Hm3).
  pose proof S2 as [[Ca2 _ Cr2] G2 _ _].
  unfold propose, propose_locked in Hp. destruct (rt_failed rtj) eqn:Hfj; [done |]. destruct (u64_checked_add _ _) as [next|]; [|done].
  cbn [rt_node] in Hp. destruct (node_propose (rt_node rtj) (mkCommand bytes)) as [[n r]|] eqn:Hn; [|done].
  destruct (ri_live _ _ _ _ _ _ _ (Cr2 _ _ Hj) Hfj) as (Hrep & _).
  pose proof (propose_moved cfg (N.of_nat (length acts1 + length acts2)) ltac:(lia) j a2 _ _ _ _ Ca2 Hrep Hn) as Hres.
  destruct r as [|[b' eff]]; [done |]. destruct Hres as [Hb' _].
  destruct (handle_effects _ _ _ _ _) as [[[rt2 out2] [|]]|]; [done | | done]. injection Hp as _ _ -> _.
  destruct (N.lt_ge_cases k b) as [|Hle]; [done | exfalso].
  destruct (node_bounds cfg (N.of_nat (length acts1 + length acts2)) j a2 _ ltac:(lia) Ca2 Hrep) as (_ & _ & Hlast).
  destruct (R1 _ _ Hi Hfi) as [[Ni _ _] _]. destruct (Ni b ltac:(lia)) as (x & _ & Hx). apply Hm2 in Hx.
  destruct (R3 _ _ Hl Hfl) as [[Nl _ _] _]. destruct (Nl b ltac:(lia)) as (y & Hy & Hsy). rewrite He in Hy. injection Hy as <-.
  assert (x = e) as -> by (eapply (safe_unique cfg _ Hb); [apply C3 | exact G3 | by apply Hm3 | exact Hsy]).
  destruct (safe_link a2 g2 _ b e G2 ltac:(ulia) Hx) as [Hbi [p Hin]].
  pose proof (rp_abs _ _ _ _ Hrep) as Ha.
  assert (e_index e ≤ last_index (a_log (a_nodes a2 j))) as Hown.
  { apply (ig_own _ _ (ai_log _ _ _ Ca2) p e j Hin); rewrite Ha; [|done]. unfold abs_node, node_propose in *.
    by destruct (role (rt_node rtj)). }
  rewrite Ha in Hown. simpl in Hown. lia.
Qed.

(** Real-time order. In such an execution, let a running node have committed index [k];
    later node [j] accepts a proposal at index [b], and later still a running node has
    committed the entry of that proposal. Then the proposal comes after everything that was
    committed when it was made: [k < b]. *)
Theorem real_time_order (s0 s1 s2 s3 : cluster) acts1 acts2 acts3 i j l (rti rtj rtl rtj' : runtime) k b
    wal_ok bytes out id e :
  init_cluster = Some s0 → exec_all s0 acts1 = Some s1 → exec_all s1 acts2 = Some s2 →
  exec_all s2 (APropose j bytes wal_ok :: acts3) = Some s3 →
  N.of_nat (length acts1 + length acts2) + N.of_nat (S (length acts3)) < u64_max →
  all_covered s0 (acts1 ++ acts2) = true → all_covered s2 (APropose j bytes wal_ok :: acts3) = true →
  runtimes s1 !! i = Some rti → rt_failed rti = false → k ≤ commit_index (core (rt_node rti)) →
  runtimes s2 !! j = Some rtj → propose encode apply_command wal_ok rtj bytes = Some (rtj', out, inr (b, id)) →
  runtimes s3 !! l = Some rtl → rt_failed rtl = false → b ≤ commit_index (core (rt_node rtl)) →
  get (log (core (rt_node rtl))) b = Some e → e_term e = node_term (rt_node rtj) → k < b.
Proof. apply proposal_after_committed. Qed.

(** The action names a node, or a message and its recipient, that exist. *)
Definition present (s : cluster) (act : Action) : Prop :=
  match act with
  | ATick i _ | AFinish i _ _ | ARestart i | APropose i _ _ => is_Some (runtimes s !! i)
  | ADeliver k _ => ∃ m, network s !! k = Some m ∧ is_Some (runtimes s !! msg_to m)
  end.

(** No panic without uncovered requests. After an execution whose append requests are
    all [covered], commit indices lie within the logs, so that every action on an existing
    node or message runs, proposals to leaders included. *)
Theorem covered_actions_run (s0 s : cluster) acts act :
  init_cluster = Some s0 → exec_all s0 acts = Some s → N.of_nat (length acts) + 1 < u64_max →
  all_covered s0 acts = true → present s act → ∃ s', exec s act = Some s'.
Proof.
  intros H0 H1 Hb Hcov Hp. eapply (exec_enabled encode decode); [done | done | done | done | done |].
  destruct act as [i ok|k ok|i bytes ok|i index id|i]; simpl in *;
    [by destruct Hp; eauto | by destruct Hp as (m & ? & [rt ?]); eauto | | by destruct Hp; eauto | by destruct Hp; eauto].
  destruct Hp as [rt Hrt]. exists rt. split; [done |]. intros Hf _.
  destruct (exec_all_safe acts 0 s0 s ainit ginit ltac:(lia) (init_safe s0 H0) Hcov H1) as (a & g & [_ _ _ Hr] & _).
  apply (Hr _ _ Hrt Hf).
Qed.

End Cluster.

(** ** A covered execution of three nodes *)

(** Node 0 leads term 1 and commits 0x61 with node 1; heartbeats arrive late. *)
Definition first_term : list Action :=
  repeat (ATick 0 true) 171 ++ deliver [0; 2; 3; 5]%nat ++ [APropose 0 [Byte.x61] true] ++
  deliver [8; 10; 6; 7]%nat ++ repeat (ATick 0 true) 75.

(** Node 1 wins term 2 with the vote of node 2, brings its log up to date and commits
    0x62; node 0 restarts and catches up. *)
Definition elect_1 : list Action :=
  deliver [13]%nat ++ repeat (ATick 2 true) 150 ++ repeat (ATick 1 true) 270 ++ deliver [17; 18; 20; 21]%nat.

Definition replicate_1 : list Action :=
  [APropose 1 [Byte.x62] true; ARestart 0] ++ deliver [25; 26; 27; 28; 24]%nat.

Definition second_term : list Action := elect_1 ++ replicate_1.

Abbreviation demo_covered := (all_covered demo_codec demo_codec demo_apply []).

Lemma first_runs : demo_exec (demo_state []) first_term = Some (demo_state first_term).
Proof. vm_compute. reflexivity. Qed.

Lemma second_runs : demo_exec (demo_state first_term) second_term = Some (demo_state (first_term ++ second_term)).
Proof. vm_compute. reflexivity. Qed.

Lemma terms_covered : demo_covered (demo_state []) (first_term ++ second_term) = true.
Proof. vm_compute. reflexivity. Qed.

(** Node 0 has applied 0x61 in term 1; node 1 applies both commands in term 2. *)
Lemma state_machine_safety_witness :
  ∃ rti rtj, runtimes (demo_state first_term) !! 0 = Some rti ∧
  runtimes (demo_state (first_term ++ second_term)) !! 1 = Some rtj ∧
  rt_state rti = [[Byte.x61]] ∧ rt_state rtj = [[Byte.x61]; [Byte.x62]] ∧
  (applied_by rti `prefix_of` applied_by rtj ∨ applied_by rtj `prefix_of` applied_by rti).
Proof.
  set (P := fun st (rt : RaftRuntime N PersistentDelta (list (list Byte.byte))) =>
              negb (rt_failed rt) && bool_decide (rt_state rt = st)).
  destruct (lookup_sat (runtimes (demo_state first_term) !! 0) (P [[Byte.x61]])) as (rti & Ei & Pi); [vm_compute; reflexivity |].
  destruct (lookup_sat (runtimes (demo_state (first_term ++ second_term)) !! 1) (P [[Byte.x61]; [Byte.x62]]))
    as (rtj & Ej & Pj); [vm_compute; reflexivity |].
  apply andb_true_iff in Pi as [Fi%negb_true_iff Si%bool_decide_eq_true].
  apply andb_true_iff in Pj as [Fj%negb_true_iff Sj%bool_decide_eq_true].
  exists rti, rtj. split_and!; [exact Ei | exact Ej | exact Si | exact Sj |].
  eapply (state_machine_safety demo_codec demo_codec demo_apply [] demo_table raft_config demo_codec_ok raft_config_id
           (demo_state []) (demo_state first_term) (demo_state (first_term ++ second_term)) first_term second_term 0 1);
    [exact demo_boots | exact first_runs | exact second_runs | vm_compute; reflexivity | exact terms_covered | exact Ei | exact Fi
    | exact Ej | exact Fj].
Defined.

(** The entry node 0 committed in term 1 is in the log of node 1, leader of term 2. *)
Lemma committed_entries_survive_witness :
  ∃ rti rtj x, runtimes (demo_state first_term) !! 0 = Some rti ∧
  runtimes (demo_state (first_term ++ second_term)) !! 1 = Some rtj ∧ node_term (rt_node rtj) = 2 ∧
  get (log (core (rt_node rti))) 1 = Some x ∧ get (log (core (rt_node rtj))) 1 = Some x.
Proof.
  set (P := fun t (rt : RaftRuntime N PersistentDelta (list (list Byte.byte))) =>
              negb (rt_failed rt) && is_leader (rt_node rt) && (node_term (rt_node rt) =? t) &&
              (1 <=? commit_index (core (rt_node rt)))).
  destruct (lookup_sat (runtimes (demo_state first_term) !! 0) (P 1)) as (rti & Ei & Pi); [vm_compute; reflexivity |].
  destruct (lookup_sat (runtimes (demo_state (first_term ++ second_term)) !! 1) (P 2)) as (rtj & Ej & Pj);
    [vm_compute; reflexivity |].
  apply andb_true_iff in Pi as [[[Fi%negb_true_iff _]%andb_true_iff Ti%N.eqb_eq]%andb_true_iff Ci%N.leb_le].
  apply andb_true_iff in Pj as [[[Fj%negb_true_iff Lj]%andb_true_iff Tj%N.eqb_eq]%andb_true_iff _].
  destruct (committed_entries_survive demo_codec demo_codec demo_apply [] demo_table raft_config demo_codec_ok raft_config_id
           (demo_state []) (demo_state first_term) (demo_state (first_term ++ second_term)) first_term second_term 0 1
           rti rtj 1 demo_boots first_runs second_runs eq_refl terms_covered Ei Fi Ej Fj (conj (N.le_refl 1) Ci) Lj) as (x & Hi & Hj).
  - rewrite Ti, Tj. vm_compute. discriminate.
  - exists rti, rtj, x. split_and!; [exact Ei | exact Ej | exact Tj | exact Hi | exact Hj].
Defined.

(** What node 0 committed in term 1 comes before the command proposed to node 1 in term 2. *)
Lemma real_time_order_witness :
  ∃ rtj rtj' out id rtl e, runtimes (demo_state (first_term ++ elect_1)) !! 1 = Some rtj ∧
  propose demo_codec demo_apply true rtj [Byte.x62] = Some (rtj', out, inr (2, id)) ∧
  runtimes (demo_state (first_term ++ second_term)) !! 1 = Some rtl ∧ get (log (core (rt_node rtl))) 2 = Some e ∧ 1 < 2.
Proof.
  assert (demo_exec (demo_state first_term) elect_1 = Some (demo_state (first_term ++ elect_1))) as E2 by (vm_compute; reflexivity).
  assert (demo_exec (demo_state (first_term ++ elect_1)) replicate_1 = Some (demo_state (first_term ++ second_term))) as E3
    by (vm_compute; reflexivity).
  destruct (lookup_sat (runtimes (demo_state first_term) !! 0)
    (fun rt => negb (rt_failed rt) && (1 <=? commit_index (core (rt_node rt))))) as (rti & Ei & Pi); [vm_compute; reflexivity |].
  destruct (lookup_sat (runtimes (demo_state (first_term ++ elect_1)) !! 1)
    (fun rt => (node_term (rt_node rt) =? 2) && match propose demo_codec demo_apply true rt [Byte.x62] with
               | Some (_, _, inr (b, _)) => b =? 2 | _ => false end)) as (rtj & Ej & Pj); [vm_compute; reflexivity |].
  destruct (lookup_sat (runtimes (demo_state (first_term ++ second_term)) !! 1)
    (fun rt => negb (rt_failed rt) && (2 <=? commit_index (core (rt_node rt))) &&
               match get (log (core (rt_node rt))) 2 with Some e => e_term e =? 2 | None => false end)) as (rtl & El & Pl);
    [vm_compute; reflexivity |].
  apply andb_true_iff in Pi as [Fi%negb_true_iff Ci%N.leb_le]. apply andb_true_iff in Pj as [Tj%N.eqb_eq Pj].
  destruct (propose demo_codec demo_apply true rtj [Byte.x62]) as [[[rtj' out] [|[b id]]]|] eqn:Hp; try discriminate Pj.
  apply N.eqb_eq in Pj. subst b. apply andb_true_iff in Pl as [[Fl%negb_true_iff Cl%N.leb_le]%andb_true_iff Gl].
  destruct (get (log (core (rt_node rtl))) 2) as [e|] eqn:Ge; [|discriminate Gl]. apply N.eqb_eq in Gl.
  exists rtj, rtj', out, id, rtl, e. split_and!; [exact Ej | exact Hp | exact El | exact Ge |].
  refine (real_time_order demo_codec demo_codec demo_apply [] demo_table raft_config demo_codec_ok raft_config_id
    (demo_state []) (demo_state first_term) (demo_state (first_term ++ elect_1)) (demo_state (first_term ++ second_term))
    first_term elect_1 (tl replicate_1) 0 1 1 rti rtj rtl rtj' 1 2 true [Byte.x62] out id e
    demo_boots first_runs E2 E3 _ _ _ Ei Fi Ci Ej Hp El Fl Cl Ge (eq_trans Gl (eq_sym Tj))); vm_compute; reflexivity.
Defined.

(** The leader of term 1 accepts another proposal. *)
Lemma covered_actions_run_witness :
  ∃ s', exec demo_codec demo_codec demo_apply [] (demo_state first_term) (APropose 0 [Byte.x62] true) = Some s'.
Proof.
  apply (covered_actions_run demo_codec demo_codec demo_apply [] demo_table raft_config demo_codec_ok raft_config_id
    (demo_state []) (demo_state first_term) first_term); [exact demo_boots | exact first_runs | vm_compute; reflexivity | |].
  - vm_compute. reflexivity.
  - simpl. destruct (lookup_sat (runtimes (demo_state first_term) !! 0) (fun _ => true)) as (rt & E & _); [vm_compute; reflexivity |].
    exists rt. exact E.
Defined.

(** The execution of [Cluster.state_machine_divergence] is not covered. *)
Example divergence_uncovered : demo_covered (demo_state []) full_run = false.
Proof. vm_compute. reflexivity. Qed.
