(* ===== verification/Race.v ===== *)
(** * Operations that wait for the machine lock

    runtime.rs asks [ensure_healthy] before it takes the machine lock, and not again
    once it has it. A task that was waiting for the lock when another one failed to
    save therefore still runs, on a node whose state in memory is ahead of its disk.
    Cluster.v lets an operation have the lock at once; here the two are separate
    actions. An execution shows what that costs: a node acknowledges an entry it
    could not save, the entry is committed, and after a restart it is gone. *)

From S2P Require Import Prelude BTree Membership Log Event Core Role.
From S2P Require Import Follower PreCandidate Candidate Leader Node Store Runtime Cluster.

Open Scope N_scope.

Section Race.

Context {Addr : Type} `{!EqDecision Addr}.
Context {Bytes : Type} (encode : PersistentDelta → option Bytes) (decode : Bytes → option PersistentDelta).
Context {State Res : Type} (apply_command : State → Command → State * Res) (init_state : State).

(** A cluster with the messages whose tasks have passed the checks and wait for the
    lock of their node. *)
Record Racing := mkRacing { cluster : Cluster Addr Bytes State; waiting : list Message }.

(** [QArrive]: message [k] is validated and the node found healthy. [QRun]: task [t]
    gets the lock. *)
Inductive RacingAction :=
| QArrive (k : nat)
| QRun (t : nat) (wal_ok : bool)
| QAct (a : Action).

Definition racing_exec (s : Racing) (a : RacingAction) : option Racing :=
  match a with
  | QArrive k =>
      let* m := network (cluster s) !! k in
      let* rt := runtimes (cluster s) !! msg_to m in
      match validate_message (rt_config rt) m with
      | Some _ => Some s
      | None => Some (if rt_failed rt then s else mkRacing (cluster s) (waiting s ++ [m]))
      end
  | QRun t wal_ok =>
      let* m := waiting s !! t in
      let* rt := runtimes (cluster s) !! msg_to m in
      let* (rt, out, _) := step_locked encode apply_command wal_ok rt m in
      Some (mkRacing (put (cluster s) (msg_to m) rt (sent out)) (list_delete t (waiting s)))
  | QAct a => let* c := exec encode decode apply_command init_state (cluster s) a in Some (mkRacing c (waiting s))
  end.

Fixpoint racing_all (s : Racing) (acts : list RacingAction) : option Racing :=
  match acts with
  | [] => Some s
  | a :: rest => let* s := racing_exec s a in racing_all s rest
  end.

(** A task gets the lock while its node is healthy. *)
Definition task_healthy (s : Racing) (a : RacingAction) : bool :=
  match a with
  | QRun t _ =>
      match waiting s !! t with
      | Some m => match runtimes (cluster s) !! msg_to m with Some rt => negb (rt_failed rt) | None => true end
      | None => true
      end
  | _ => true
  end.

Fixpoint all_healthy (s : Racing) (acts : list RacingAction) : bool :=
  match acts with
  | [] => true
  | a :: rest =>
      task_healthy s a && match racing_exec s a with Some s => all_healthy s rest | None => true end
  end.

(** ** Executions without tasks on failed nodes *)

Local Abbreviation runtime := (RaftRuntime Addr Bytes State).
Local Abbreviation cl := (Cluster Addr Bytes State).
Local Abbreviation exec := (exec encode decode apply_command init_state).
Local Abbreviation exec_all := (exec_all encode decode apply_command init_state).

Lemma handle_effects_config wal_ok (rt rt' : runtime) e out err :
  handle_effects encode apply_command wal_ok rt e = Some (rt', out, err) → rt_config rt' = rt_config rt.
Proof.
  unfold handle_effects. destruct (if persist e then _ else _) as [[|st]|]; [by intros [= <- _ _] | | done].
  destruct (send_snapshots e); [|by intros [= <- _ _]]. destruct (send_messages _ _) as [ms [|]]; [by intros [= <- _ _] |].
  unfold apply_committed. set (rt1 := set_rt_store rt st).
  destruct (apply_loop_frame apply_command (N.to_nat (commit_index (core (rt_node rt1)))) rt1 []) as (_ & _ & H & _).
  destruct (apply_loop _ _ _ _). by intros [= <- _ _].
Qed.

Lemma handle_or_fail_config wal_ok (rt rt' : runtime) e out err :
  handle_or_fail encode apply_command wal_ok rt e = Some (rt', out, err) → rt_config rt' = rt_config rt.
Proof.
  unfold handle_or_fail. destruct (handle_effects _ _ _ _ _) as [[[rt1 o1] e1]|] eqn:E; [|done].
  apply handle_effects_config in E. intros [= <- _ _]. by destruct e1.
Qed.

Lemma propose_config wal_ok (rt rt' : runtime) bytes out r :
  propose encode apply_command wal_ok rt bytes = Some (rt', out, r) → rt_config rt' = rt_config rt.
Proof.
  unfold propose, propose_locked. destruct (rt_failed rt); [by intros [= <- _ _] |].
  destruct (u64_checked_add _ _) as [next|]; [|by intros [= <- _ _]]. destruct (node_propose _ _) as [[n [e|[k e]]]|]; [by intros [= <- _ _] | | done].
  destruct (handle_effects _ _ _ _ _) as [[[rt1 o1] e1]|] eqn:E; [|done]. apply handle_effects_config in E.
  by destruct e1; intros [= <- _ _].
Qed.

(** The configuration of the nodes is fixed, and the network only grows. *)
Definition extends (s s' : cl) : Prop :=
  (∀ m, m ∈ network s → m ∈ network s') ∧
  ∀ i rt, runtimes s !! i = Some rt → ∃ rt', runtimes s' !! i = Some rt' ∧ rt_config rt' = rt_config rt.

Lemma put_extends (s : cl) i (rt rt' : runtime) ms :
  runtimes s !! i = Some rt → rt_config rt' = rt_config rt → extends s (put s i rt' ms).
Proof.
  intros Hrt Hc. split; [intros m Hm; apply elem_of_app; by left |]. intros j rtj Hj. simpl.
  destruct (decide (i = j)) as [<-|Hne]; [rewrite lookup_insert_eq | rewrite lookup_insert_ne by done; by exists rtj].
  exists rt'. split; [done | congruence].
Qed.

Lemma exec_extends s a s' : exec s a = Some s' → extends s s'.
Proof.
  assert (extends s s) as Hrefl by (split; eauto).
  destruct a as [i ok|k ok|i bytes ok|i index id|i]; simpl; intros H.
  - destruct (runtimes s !! i) as [rt|] eqn:Hrt; [|done]. destruct (tick_once _ _ _ _) as [[[rt1 out] err]|] eqn:E; [|done].
    injection H as <-. apply (put_extends _ _ rt); [done |]. unfold tick_once, tick_locked in E.
    destruct (rt_failed rt); [by injection E as <- |]. destruct (tick _) as [[n e]|]; [|done]. by apply handle_or_fail_config in E.
  - destruct (network s !! k) as [m|]; [|done]. destruct (runtimes s !! msg_to m) as [rt|] eqn:Hrt; [|done].
    destruct (validate_message _ _); [by injection H as <- |].
    destruct (runtime_step _ _ _ _ _) as [[[rt1 out] err]|] eqn:E; [|done]. injection H as <-.
    apply (put_extends _ _ rt); [done |]. unfold runtime_step, step_locked in E.
    destruct (rt_failed rt); [by injection E as <- |]. destruct (node_step _ _) as [[n e]|]; [|done]. by apply handle_or_fail_config in E.
  - destruct (runtimes s !! i) as [rt|] eqn:Hrt; [|done]. destruct (propose _ _ _ _ _) as [[[rt1 out] r]|] eqn:E; [|done].
    injection H as <-. apply (put_extends _ _ rt); [done |]. by eapply propose_config.
  - destruct (runtimes s !! i) as [rt|] eqn:Hrt; [|done]. injection H as <-. by apply (put_extends _ _ rt).
  - destruct (runtimes s !! i) as [rt|] eqn:Hrt; [|done]. destruct (open_runtime _ _ _ _) as [[|rt1]|] eqn:E; [done | | done].
    injection H as <-. apply (put_extends _ _ rt); [done |]. unfold open_runtime in E. destruct (validate_config _); [done |].
    destruct (node_new _ _); [|done]. destruct (open_store _ _ _); [done |]. destruct (node_restore _ _); [|done]. by injection E as <-.
Qed.

(** A waiting message is in the network, and its node accepts it. *)
Definition accepted (s : cl) (m : Message) : Prop :=
  m ∈ network s ∧ ∃ rt, runtimes s !! msg_to m = Some rt ∧ validate_message (rt_config rt) m = None.

Lemma accepted_extends s s' m : extends s s' → accepted s m → accepted s' m.
Proof.
  intros [Hn Hr] [Hm (rt & Hrt & Hv)]. split; [by apply Hn |]. destruct (Hr _ _ Hrt) as (rt' & ? & Hc). exists rt'. by rewrite Hc.
Qed.

(** One action on healthy nodes is at most one action of the cluster. *)
Lemma racing_step s a s' :
  Forall (accepted (cluster s)) (waiting s) → task_healthy s a = true → racing_exec s a = Some s' →
  (∃ acts, exec_all (cluster s) acts = Some (cluster s')) ∧ Forall (accepted (cluster s')) (waiting s').
Proof.
  intros Hw Hh. destruct a as [k|t ok|a]; simpl in *; intros H.
  - destruct (network (cluster s) !! k) as [m|] eqn:Hm; [|done].
    destruct (runtimes (cluster s) !! msg_to m) as [rt|] eqn:Hrt; [|done].
    destruct (validate_message _ _) eqn:Hv; [injection H as <-; split; [by exists [] | done] |].
    destruct (rt_failed rt); injection H as <-; (split; [by exists [] |]); [done |].
    apply Forall_app_2; [done |]. constructor; [|constructor]. split; [by eapply list_elem_of_lookup_2 | eauto].
  - destruct (waiting s !! t) as [m|] eqn:Hm; [|done]. pose proof (Forall_lookup_1 _ _ _ _ Hw Hm) as [Hnet (rt & Hrt & Hv)].
    rewrite Hrt in H, Hh. apply negb_true_iff in Hh. apply list_elem_of_lookup in Hnet as [k Hk].
    destruct (step_locked _ _ _ _ _) as [[[rt1 out] err]|] eqn:E; [|done]. injection H as <-. simpl.
    assert (exec (cluster s) (ADeliver k ok) = Some (put (cluster s) (msg_to m) rt1 (sent out))) as He.
    { simpl. rewrite Hk, Hrt, Hv. unfold runtime_step. by rewrite Hh, E. }
    split; [exists [ADeliver k ok]; cbn [Cluster.exec_all]; by rewrite He |].
    apply Forall_delete. eapply Forall_impl; [exact Hw |]. intros m'. by apply accepted_extends, (exec_extends _ _ _ He).
  - destruct (exec (cluster s) a) as [c|] eqn:He; [|done]. injection H as <-. simpl.
    split; [exists [a]; simpl; by rewrite He |]. eapply Forall_impl; [exact Hw |]. intros m. by apply accepted_extends, (exec_extends _ _ _ He).
Qed.

(** Executions in which every task finds its node healthy when it gets the lock are
    executions of the cluster, to which the theorems of Cluster.v and Safety.v apply: to
    ask for the health again under the lock would be enough. *)
Theorem healthy_tasks_refine acts : ∀ s s',
  Forall (accepted (cluster s)) (waiting s) → all_healthy s acts = true → racing_all s acts = Some s' →
  ∃ acts', exec_all (cluster s) acts' = Some (cluster s').
Proof.
  induction acts as [|a acts IH]; intros s s' Hw Hh H; simpl in *; [injection H as <-; by exists [] |].
  apply andb_true_iff in Hh as [Ha Hh]. destruct (racing_exec s a) as [s1|] eqn:He; [|done].
  destruct (racing_step s a s1 Hw Ha He) as [[acts1 H1] Hw1]. destruct (IH s1 s' Hw1 Hh H) as [acts2 H2].
  exists (acts1 ++ acts2). by eapply exec_all_compose.
Qed.

End Race.

Arguments Racing Addr Bytes State : clear implicits.

(** ** A deployment of three nodes *)

Definition demo_racing (acts : list RacingAction) : option (Racing N PersistentDelta (list (list Byte.byte))) :=
  let* s := demo_init in
  racing_all (Addr := N) demo_codec demo_codec demo_apply [] (mkRacing s []) acts.

(** Node 0 leads term 1 and appends 0x61. At node 1 the request with the entry and the
    next heartbeat both wait for the lock; saving the entry fails, the heartbeat is
    answered all the same. *)
Definition acknowledge_unsaved : list RacingAction :=
  map QAct (repeat (ATick 0 true) 171 ++ deliver [0; 2; 3; 5]%nat ++ [APropose 0 [Byte.x61] true] ++
            repeat (ATick 0 true) 75) ++
  [QArrive 8; QArrive 10; QRun 0 false; QRun 0 true].

(** Node 0 commits; node 1 restarts and elects node 2, which proposes 0x62. *)
Definition lose_committed : list RacingAction :=
  map QAct (deliver [12]%nat ++ [ARestart 1] ++ repeat (ATick 2 true) 250 ++ deliver [14; 15]%nat ++
            repeat (ATick 2 true) 211 ++ deliver [17; 18; 20; 21]%nat ++ [APropose 2 [Byte.x62] true] ++
            deliver [25; 26]%nat).

Definition racing_applied (s : option (Racing N PersistentDelta (list (list Byte.byte)))) (i : NodeId)
    : option (list (list Byte.byte)) :=
  let* s := s in let* rt := runtimes (cluster s) !! i in Some (rt_state rt).

(** The last entry of the node's log in memory and on disk. *)
Definition last_saved (s : option (Racing N PersistentDelta (list (list Byte.byte)))) (i : NodeId)
    : option (LogIndex * LogIndex) :=
  let* s := s in
  let* rt := runtimes (cluster s) !! i in
  Some (last_index (log (core (rt_node rt))), last_index (p_log (durable (rt_store rt)))).

(** C14: a failed node goes on answering. In this execution of three nodes with the deployed
    configuration the disk of node 1 fails when it saves its first entry; a heartbeat that
    was waiting for the machine lock is then processed and acknowledges that entry (the
    log in memory ends at 1, on disk at 0). Node 0 commits and applies 0x61; after node 1
    has restarted, node 2 is elected and applies 0x62 as first command. *)
Theorem failed_node_acknowledges :
  last_saved (demo_racing acknowledge_unsaved) 1 = Some (1, 0) ∧
  (let* s := demo_racing acknowledge_unsaved in
   option_map msg_payload (last (network (cluster s)))) = Some (PAppendResponse (mkAppendResponse true 1)) ∧
  let s := demo_racing (acknowledge_unsaved ++ lose_committed) in
  racing_applied s 0 = Some [[Byte.x61]] ∧ racing_applied s 2 = Some [[Byte.x62]].
Proof. repeat split; vm_compute; reflexivity. Qed.

(** The same tasks, when the disk of node 1 works. *)
Definition acknowledge_saved : list RacingAction :=
  map QAct (repeat (ATick 0 true) 171 ++ deliver [0; 2; 3; 5]%nat ++ [APropose 0 [Byte.x61] true] ++
            repeat (ATick 0 true) 75) ++
  [QArrive 8; QArrive 10; QRun 0 true; QRun 0 true].

Lemma healthy_tasks_refine_witness :
  ∃ s acts', demo_racing acknowledge_saved = Some s ∧ demo_run acts' = Some (cluster s).
Proof.
  destruct (lookup_sat (demo_racing acknowledge_saved) (fun _ => true)) as (s & Hs & _); [vm_compute; reflexivity |].
  unfold demo_racing in Hs. destruct demo_init as [s0|] eqn:H0; [|discriminate Hs].
  destruct (healthy_tasks_refine demo_codec demo_codec demo_apply [] acknowledge_saved (mkRacing s0 []) s) as [acts' H'].
  - constructor.
  - rewrite demo_boots in H0. injection H0 as <-. vm_compute. reflexivity.
  - exact Hs.
  - exists s, acts'. split; [unfold demo_racing; rewrite H0; exact Hs |]. unfold demo_run. rewrite H0. exact H'.
Defined.
