(* ===== verification/Repair.v ===== *)
(** * Retries of rejected append requests

    The exchange by which a leader brings a follower's log in line with its own: the
    follower rejects a request whose previous entry it does not hold and answers with
    its last index, the leader sets [next_index] from that hint and sends again. When
    the follower's last entry itself conflicts, the hint leads to the same request. *)

From S2P Require Import Prelude BTree Membership Log Event Core Role.
From S2P Require Import Follower PreCandidate Candidate Leader Commit Node Raft Refine Progress.
From S2P Require Import Store Runtime Cluster.

Open Scope N_scope.

(** Leader, follower and the follower's rejection on its way to the leader. *)
Record Exchange := mkExchange { x_leader : RaftNode; x_follower : RaftNode; x_reply : Message }.

(** The leader receives the reply, and the follower the request that the leader sends. *)
Definition retry (x : Exchange) : option Exchange :=
  let* (n, e) := node_step (x_leader x) (x_reply x) in
  match messages e with
  | [request] =>
      let* (m, e) := node_step (x_follower x) request in
      match messages e with
      | [reply] => Some (mkExchange n m reply)
      | _ => None
      end
  | _ => None
  end.

Fixpoint retries (k : nat) (x : Exchange) : option Exchange :=
  match k with
  | O => Some x
  | S k => let* x := retry x in retries k x
  end.

(** The follower's rejection: its last index, which is the hint. *)
Definition rejection (n m : RaftNode) : Message := append_response (core m) (Node.node_id n) false.

Definition matched_by (n m : RaftNode) : LogIndex :=
  match role n with RLeader l => matched l (Node.node_id m) | _ => 0 end.

(** A leader and a follower of its term whose last entry has another term in the
    leader's log, or lies beyond it. *)
Record conflict (n m : RaftNode) : Prop := {
  cf_leader : is_leader n = true;
  cf_follower : is_follower m = true;
  cf_term : node_term n = node_term m;
  cf_member : is_member (effective_config (core n)) (Node.node_id m) = true;
  cf_wf : log_wf (log (core n));
  cf_wf' : log_wf (log (core m));
  cf_snapshot : snapshot_index (log (core n)) < last_index (log (core m));
  cf_matched : matched_by n m ≤ last_index (log (core m));
  cf_differ : term_at (log (core n)) (last_index (log (core m))) ≠ term_at (log (core m)) (last_index (log (core m)));
  cf_timeouts : timeouts_ok (config (core m))
}.

(** The leader's answer to the hint [p]: a request whose previous entry is [p]. *)
Lemma hint_request l c to p :
  is_member (effective_config c) to = true → log_wf (log c) → snapshot_index (log c) < p → p + 1 < u64_modulus →
  matched l to ≤ p →
  ∃ l' es, Leader.handle_append_response l c to (mkAppendResponse false p) =
      Some (l', c, stay (with_message none (mkMessage (core_id c) to (term c)
        (PAppendRequest (mkAppendRequest p (term_at (log c) p) es (commit_index c)))))) ∧
    match_index l' = match_index l.
Proof.
  intros Hm Hw Hs Hp Hma. unfold Leader.handle_append_response. rewrite Hm. cbn [negb ar_success ar_last_log_index].
  rewrite (u64_add_small p 1) by ulia. rewrite (u64_add_small (matched l to) 1) by ulia.
  replace (if pipelining _ then _ else _) with (p + 1) by (case_match; lia).
  unfold send_append_to. cbn [next_index set_next_index]. rewrite lookup_insert_eq. change (default 1 (Some (p + 1))) with (p + 1).
  destruct (N.leb_spec (p + 1) (snapshot_index (log c))); [lia |].
  unfold u64_saturating_sub. replace (p + 1 - 1) with p by lia.
  destruct (N.leb_spec p (snapshot_index (log c))); [lia |]. cbn [andb].
  rewrite slice_eq; [|done | ulia | eapply N.le_lt_trans; [apply N.le_min_r | apply u64_add_lt]].
  case_match; by eexists _, _.
Qed.

(** The follower rejects it and keeps its log. *)
Lemma request_rejected m n to req :
  is_follower m = true → node_term m = msg_term n → msg_payload n = PAppendRequest req → msg_from n = to →
  0 < aq_prev_log_index req → term_at (log (core m)) (aq_prev_log_index req) ≠ aq_prev_log_term req →
  timeouts_ok (config (core m)) →
  ∃ m', node_step m n = Some (m', with_message none (append_response (core m) to false)) ∧
    is_follower m' = true ∧ persistent (core m') = persistent (core m) ∧ config (core m') = config (core m).
Proof.
  intros Hf Ht Hpl Hfr H0 Hd Hto. unfold is_follower in Hf. destruct (role m) as [f| | |] eqn:Hr; try done.
  unfold node_step, step_event, role_step. rewrite Hr. cbn [Follower.step]. unfold Follower.step_message.
  rewrite Hpl. cbn [is_vote_request andb]. unfold observe_term. rewrite <- Ht. unfold node_term.
  rewrite N.ltb_irrefl. unfold dispatch. rewrite Hpl, Hfr. unfold Follower.handle_append_request.
  set (f1 := record_contact _ _). unfold reset_deadline.
  destruct (random_total (core m) Hto) as (t & c' & E & Hc & Hp). rewrite E.
  apply N.ltb_lt in H0 as ->. unfold log in *. rewrite Hp. apply N.eqb_neq in Hd as ->. cbn.
  eexists. split; [unfold append_response, core_id, term, log; by rewrite Hp, Hc, N.ltb_irrefl | done].
Qed.

Lemma retry_conflict n m :
  conflict n m →
  ∃ n' m', retry (mkExchange n m (rejection n m)) = Some (mkExchange n' m' (rejection n' m')) ∧
    conflict n' m' ∧ core n' = core n ∧ log (core m') = log (core m).
Proof.
  intros [Hl Hf Ht Hm Hw Hw' Hs Hma Hd Hto]. pose proof (last_index_bound _ Hw') as Hb.
  unfold is_leader in Hl. destruct (role n) as [| | |l] eqn:Hr; try done. unfold matched_by in Hma. rewrite Hr in Hma.
  destruct (hint_request l (core n) (Node.node_id m) (last_index (log (core m)))) as (l' & es & Hh & Hml); [done.. | ulia | done |].
  unfold retry. cbn [x_leader x_reply x_follower].
  assert (node_step n (rejection n m) = Some (mkRaftNode (core n) (RLeader l'), with_message none
    (mkMessage (core_id (core n)) (Node.node_id m) (term (core n)) (PAppendRequest (mkAppendRequest
      (last_index (log (core m))) (term_at (log (core n)) (last_index (log (core m)))) es (commit_index (core n)))))))
    as ->.
  { unfold node_step, step_event, role_step. rewrite Hr. cbn [Leader.step]. unfold Leader.step_message, Leader.step_term.
    cbn [rejection append_response msg_payload msg_term msg_from]. fold (node_term m). rewrite <- Ht. unfold node_term.
    rewrite N.ltb_irrefl. unfold Node.node_id in Hh. by rewrite Hh. }
  cbn [messages with_message none app].
  edestruct (request_rejected m) as (m' & -> & Hf' & Hp' & Hc'); [done | | done | done | cbn; lia | by apply not_eq_sym | done |].
  { by symmetry. }
  cbn [messages with_message none app]. exists (mkRaftNode (core n) (RLeader l')), m'. split.
  { unfold rejection, append_response, core_id, term, log. rewrite Hp', Hc'. reflexivity. }
  assert (Node.node_id m' = Node.node_id m) as Hid by (unfold Node.node_id, core_id; by rewrite Hc').
  split; [|split; [done | unfold log; by rewrite Hp']].
  split; unfold node_term, term, log, matched_by in *; rewrite ?Hp', ?Hc', ?Hid; try done.
  cbn [role]. unfold matched. by rewrite Hml.
Qed.

(** C17: the retries do not repair a conflicting follower. When the last entry of a
    follower conflicts with its leader's log, the leader answers each rejection with a
    request that starts after that same entry (leader.rs, lines 443 to 452), which the
    follower rejects again: after any number of retries the follower's log is unchanged
    and its reply is the same rejection. *)
Theorem conflict_never_repaired n m k :
  conflict n m →
  ∃ n' m', retries k (mkExchange n m (rejection n m)) = Some (mkExchange n' m' (rejection n' m')) ∧
    core n' = core n ∧ log (core m') = log (core m).
Proof.
  revert n m. induction k as [|k IH]; intros n m H; [by exists n, m |]. cbn [retries].
  destruct (retry_conflict n m H) as (n1 & m1 & -> & H1 & Hn & Hm). destruct (IH n1 m1 H1) as (n2 & m2 & -> & Hn2 & Hm2).
  exists n2, m2. split_and!; congruence.
Qed.

(** After [full_run], node 2 learns of term 3; its only entry is of term 2 and that of
    the leader, node 0, of term 1. *)
Definition conflict_run : list Action := full_run ++ deliver [33]%nat.

Lemma demo_conflict :
  match runtimes (demo_state conflict_run) !! 0, runtimes (demo_state conflict_run) !! 2 with
  | Some rt0, Some rt2 => conflict (rt_node rt0) (rt_node rt2)
  | _, _ => False
  end.
Proof.
  vm_compute. split; try (vm_compute; (reflexivity || congruence)).
  - split; [|vm_compute; reflexivity].
    intros [|[|j]] e He; [injection He as <-; reflexivity.. | destruct j; discriminate He].
  - split; [|vm_compute; reflexivity].
    intros [|j] e He; [injection He as <-; reflexivity | destruct j; discriminate He].
Qed.

Lemma conflict_never_repaired_witness :
  ∃ rt0 rt2 n' m', runtimes (demo_state conflict_run) !! 0 = Some rt0 ∧
    runtimes (demo_state conflict_run) !! 2 = Some rt2 ∧
    retries 1000 (mkExchange (rt_node rt0) (rt_node rt2) (rejection (rt_node rt0) (rt_node rt2))) =
      Some (mkExchange n' m' (rejection n' m')) ∧
    core n' = core (rt_node rt0) ∧ log (core m') = log (core (rt_node rt2)).
Proof.
  pose proof demo_conflict as H. destruct (runtimes _ !! 0) as [rt0|] eqn:H0; [|destruct H].
  destruct (runtimes _ !! 2) as [rt2|] eqn:H2; [|destruct H].
  destruct (conflict_never_repaired (rt_node rt0) (rt_node rt2) 1000 H) as (n' & m' & Hr & Hn & Hm).
  exists rt0, rt2, n', m'. split; [exact eq_refl |]. split; [exact eq_refl |]. split; [exact Hr |]. split; [exact Hn | exact Hm].
Defined.
