(* ===== verification/Kv.v ===== *)
(** * The replicated key-value state machine

    cloud9-node/src/command.rs: the commands the Raft log replicates and
    [KvState::apply], the deterministic function that every node runs on them.
    A mutation carries a client id and a sequence number; the session table keeps
    the last request of each client with its result, so that a retry is answered
    from the table. A [&mut self] method that can fail returns the state it leaves
    together with its result, because some failures are recorded in the state.

    [kv_inv] is the invariant of the reachable states. The theorems show that a
    retried mutation takes effect once, that ETags name exactly one version of one
    key for ever, that a conditional write succeeds only against the version it
    names, and what each operation does on every branch. *)

From S2P Require Import Prelude.
From Stdlib Require Import Ascii.
From stdpp Require Import pretty.

Open Scope N_scope.

(** ** Errors and results *)

(** The error constructors of the RPC library that the source uses: a code with
    its text. *)
Inductive ConnectError :=
| invalid_argument (text : string)
| failed_precondition (text : string)
| resource_exhausted (text : string)
| aborted (text : string)
| internal (text : string)
| unavailable (text : string)
| not_found (text : string).

(** [str::len], in bytes, and [str::is_empty]. *)
Definition str_len (s : string) : N := N.of_nat (String.length s).
Definition str_is_empty (s : string) : bool := bool_decide (s = "").

(** ** Data *)

Definition MAX_VALUE_BYTES : N := 64 * 1024.
Definition MAX_NAMESPACE_BYTES : N := 255.
Definition MAX_KEY_BYTES : N := 1024.
Definition MAX_ETAG_BYTES : N := 128.

Abbreviation Body := (list Byte.byte).

Inductive KvCommand :=
| RegisterSession
| ReadBarrier
| Put (client_id sequence : N) (namespace key : string) (body : Body) (if_match : string)
    (if_none_match : bool)
| Delete (client_id sequence : N) (namespace key : string) (if_match : string).

Record RegisterSessionResponse := mkRegisterSessionResponse { rs_client_id : N }.

Record PutResponse := mkPutResponse {
  put_namespace : string; put_key : string; put_etag : string; put_generation : N; put_size : N }.

Record DeleteResponse := mkDeleteResponse {
  del_namespace : string; del_key : string; del_etag : string; del_generation : N;
  del_deleted : bool }.

Inductive KvApplyResult :=
| ARegisterSession (r : RegisterSessionResponse)
| APut (r : PutResponse)
| ADelete (r : DeleteResponse)
| AReadBarrier.

Record KvName := mkKvName { nm_namespace : string; nm_key : string }.

#[export] Instance kv_name_eq_decision : EqDecision KvName.
Proof. solve_decision. Defined.

#[export] Instance kv_name_countable : Countable KvName :=
  inj_countable' (fun n => (nm_namespace n, nm_key n)) (fun p => mkKvName p.1 p.2)
    ltac:(by intros []).

Record KvRecord := mkKvRecord { rec_body : Body; rec_etag : string; rec_generation : N }.

#[export] Instance kv_record_eq_decision : EqDecision KvRecord.
Proof. solve_decision. Defined.

Inductive MutationRequest :=
| MPut (name : KvName) (body : Body) (if_match : string) (if_none_match : bool)
| MDelete (name : KvName) (if_match : string).

#[export] Instance mutation_request_eq_decision : EqDecision MutationRequest.
Proof. solve_decision. Defined.

Inductive MutationRejection := KeyExists | EtagMismatch | GenerationExhausted.

Inductive MutationResult :=
| RPut (r : PutResponse)
| RDelete (r : DeleteResponse)
| Rejected (r : MutationRejection).

Record SessionState := mkSessionState {
  ss_sequence : N; ss_request : option MutationRequest; ss_result : option MutationResult }.

Definition default_session : SessionState := mkSessionState 0 None None.

Record KvState := mkKvState {
  next_client_id : N;
  next_generation : N;
  kv_entries : gmap KvName KvRecord;
  kv_sessions : gmap N SessionState
}.

Definition kv_new : KvState := mkKvState 1 1 ∅ ∅.

(** ** Validation *)

Definition kv_name_new (namespace key : string) : ConnectError + KvName :=
  if str_is_empty namespace then inl (invalid_argument "namespace must not be empty")
  else if MAX_NAMESPACE_BYTES <? str_len namespace
  then inl (invalid_argument "namespace exceeds 255-byte limit")
  else if str_is_empty key then inl (invalid_argument "key must not be empty")
  else if MAX_KEY_BYTES <? str_len key then inl (invalid_argument "key exceeds 1024-byte limit")
  else inr (mkKvName namespace key).

Definition validate_mutation_request (client_id sequence : N) : ConnectError + unit :=
  if client_id =? 0 then inl (invalid_argument "client_id must be registered")
  else if sequence =? 0 then inl (invalid_argument "sequence must be positive")
  else inr tt.

Definition validate_etag (etag : string) : ConnectError + unit :=
  if MAX_ETAG_BYTES <? str_len etag then inl (invalid_argument "ETag exceeds 128-byte limit")
  else inr tt.

Definition validate_put_preconditions (if_match : string) (if_none_match : bool) : ConnectError + unit :=
  let? _ := validate_etag if_match in
  if negb (str_is_empty if_match) && if_none_match
  then inl (invalid_argument "if_match and if_none_match are mutually exclusive")
  else inr tt.

Definition validate_value (body : Body) : ConnectError + unit :=
  if MAX_VALUE_BYTES <? vlen body then inl (resource_exhausted "value exceeds 65536-byte limit")
  else inr tt.

Definition body_len (body : Body) : ConnectError + N :=
  if vlen body <? u64_modulus then inr (vlen body) else inl (resource_exhausted "value too large").

Definition key_not_found : ConnectError := not_found "key not found".

Definition connect_error (r : MutationRejection) : ConnectError :=
  match r with
  | KeyExists => failed_precondition "key already exists"
  | EtagMismatch => failed_precondition "ETag precondition failed"
  | GenerationExhausted => resource_exhausted "kv generation space exhausted"
  end.

Definition check_put_preconditions (current : option KvRecord) (if_match : string) (if_none_match : bool)
    : MutationRejection + unit :=
  if if_none_match && bool_decide (is_Some current) then inl KeyExists
  else if str_is_empty if_match then inr tt
  else match current with
       | Some record => if bool_decide (rec_etag record = if_match) then inr tt else inl EtagMismatch
       | None => inl EtagMismatch
       end.

(** ["c9-<generation>"], with the quotation marks. *)
Definition etag_for (generation : N) : string :=
  String "034"%char ("c9-" +:+ pretty generation +:+ String "034"%char "").

(** ** Sessions *)

Definition session (s : KvState) (client_id : N) : ConnectError + SessionState :=
  match kv_sessions s !! client_id with
  | Some x => inr x
  | None => inl (invalid_argument "unknown client session")
  end.

(** [session_mut(client_id)?.record(sequence, request, result)]. *)
Definition record (s : KvState) (client_id sequence : N) (request : MutationRequest)
    (result : MutationResult) : ConnectError + KvState :=
  let? _ := session s client_id in
  inr (mkKvState (next_client_id s) (next_generation s) (kv_entries s)
         (<[client_id := mkSessionState sequence (Some request) (Some result)]> (kv_sessions s))).

Definition cached_mutation (x : SessionState) (sequence : N) (request : MutationRequest)
    : ConnectError + option MutationResult :=
  match sequence ?= ss_sequence x with
  | Lt => inl (aborted "stale client sequence")
  | Gt => inr None
  | Eq =>
      match ss_request x, ss_result x with
      | Some cached, Some result =>
          if bool_decide (cached = request) then inr (Some result)
          else inl (aborted "sequence reused for different request")
      | None, None => inl (internal "session cache is incomplete")
      | _, _ => inl (internal "session cache is inconsistent")
      end
  end.

Definition cached_put (s : KvState) (client_id sequence : N) (request : MutationRequest)
    : ConnectError + option PutResponse :=
  let? x := session s client_id in
  let? cached := cached_mutation x sequence request in
  match cached with
  | Some (RPut response) => inr (Some response)
  | Some (Rejected rejection) => inl (connect_error rejection)
  | Some (RDelete _) => inl (internal "session result mismatch")
  | None => inr None
  end.

Definition cached_delete (s : KvState) (client_id sequence : N) (request : MutationRequest)
    : ConnectError + option DeleteResponse :=
  let? x := session s client_id in
  let? cached := cached_mutation x sequence request in
  match cached with
  | Some (RDelete response) => inr (Some response)
  | Some (Rejected rejection) => inl (connect_error rejection)
  | Some (RPut _) => inl (internal "session result mismatch")
  | None => inr None
  end.

Definition take_client_id (s : KvState) : KvState * (ConnectError + N) :=
  let client_id := next_client_id s in
  match u64_checked_add client_id 1 with
  | None => (s, inl (resource_exhausted "client id space exhausted"))
  | Some next =>
      (mkKvState next (next_generation s) (kv_entries s)
         (<[client_id := default_session]> (kv_sessions s)), inr client_id)
  end.

Definition take_generation (s : KvState) : KvState * (MutationRejection + N) :=
  let generation := next_generation s in
  match u64_checked_add generation 1 with
  | None => (s, inl GenerationExhausted)
  | Some next => (mkKvState (next_client_id s) next (kv_entries s) (kv_sessions s), inr generation)
  end.

Definition reject (s : KvState) (client_id sequence : N) (request : MutationRequest)
    (rejection : MutationRejection) : KvState * (ConnectError + KvApplyResult) :=
  let? s' := record s client_id sequence request (Rejected rejection) leaving s in
  (s', inl (connect_error rejection)).

Definition set_entries (s : KvState) (m : gmap KvName KvRecord) : KvState :=
  mkKvState (next_client_id s) (next_generation s) m (kv_sessions s).

(** ** The commands *)

(** The part of [apply_put] after the cache lookup. *)
Definition execute_put (s : KvState) (client_id sequence : N) (name : KvName) (body : Body)
    (if_match : string) (if_none_match : bool) : KvState * (ConnectError + KvApplyResult) :=
  let request := MPut name body if_match if_none_match in
  match check_put_preconditions (kv_entries s !! name) if_match if_none_match with
  | inl rejection => reject s client_id sequence request rejection
  | inr _ =>
      let? size := body_len body leaving s in
      match take_generation s with
      | (s, inl rejection) => reject s client_id sequence request rejection
      | (s, inr generation) =>
          let etag := etag_for generation in
          let response := mkPutResponse (nm_namespace name) (nm_key name) etag generation size in
          let s := set_entries s (<[name := mkKvRecord body etag generation]> (kv_entries s)) in
          let? s := record s client_id sequence request (RPut response) leaving s in
          (s, inr (APut response))
      end
  end.

Definition apply_put (s : KvState) (client_id sequence : N) (namespace key : string) (body : Body)
    (if_match : string) (if_none_match : bool) : KvState * (ConnectError + KvApplyResult) :=
  let? _ := validate_mutation_request client_id sequence leaving s in
  let? _ := validate_put_preconditions if_match if_none_match leaving s in
  let? _ := validate_value body leaving s in
  let? name := kv_name_new namespace key leaving s in
  let? cached := cached_put s client_id sequence (MPut name body if_match if_none_match) leaving s in
  match cached with
  | Some response => (s, inr (APut response))
  | None => execute_put s client_id sequence name body if_match if_none_match
  end.

(** The part of [apply_delete] after the cache lookup. *)
Definition execute_delete (s : KvState) (client_id sequence : N) (name : KvName) (if_match : string)
    : KvState * (ConnectError + KvApplyResult) :=
  let request := MDelete name if_match in
  if negb (str_is_empty if_match) &&
     match kv_entries s !! name with
     | None => true
     | Some record => negb (bool_decide (if_match = rec_etag record))
     end
  then reject s client_id sequence request EtagMismatch
  else
    let removed := kv_entries s !! name in
    let s := set_entries s (delete name (kv_entries s)) in
    let response :=
      match removed with
      | Some r => mkDeleteResponse (nm_namespace name) (nm_key name) (rec_etag r) (rec_generation r) true
      | None => mkDeleteResponse (nm_namespace name) (nm_key name) "" 0 false
      end in
    let? s := record s client_id sequence request (RDelete response) leaving s in
    (s, inr (ADelete response)).

Definition apply_delete (s : KvState) (client_id sequence : N) (namespace key : string)
    (if_match : string) : KvState * (ConnectError + KvApplyResult) :=
  let? _ := validate_mutation_request client_id sequence leaving s in
  let? _ := validate_etag if_match leaving s in
  let? name := kv_name_new namespace key leaving s in
  let? cached := cached_delete s client_id sequence (MDelete name if_match) leaving s in
  match cached with
  | Some response => (s, inr (ADelete response))
  | None => execute_delete s client_id sequence name if_match
  end.

Definition kv_apply (s : KvState) (command : KvCommand) : KvState * (ConnectError + KvApplyResult) :=
  match command with
  | RegisterSession =>
      let '(s, r) := take_client_id s in
      (s, let? client_id := r in inr (ARegisterSession (mkRegisterSessionResponse client_id)))
  | ReadBarrier => (s, inr AReadBarrier)
  | Put client_id sequence namespace key body if_match if_none_match =>
      apply_put s client_id sequence namespace key body if_match if_none_match
  | Delete client_id sequence namespace key if_match =>
      apply_delete s client_id sequence namespace key if_match
  end.

(** The state after a sequence of commands. *)
Definition kv_run (s : KvState) (cs : list KvCommand) : KvState :=
  fold_left (fun s c => (kv_apply s c).1) cs s.

(** ** What a command asks for *)

(** The client, the sequence number and the request of a mutation. *)
Definition mutation (command : KvCommand) : option (N * N * MutationRequest) :=
  match command with
  | Put c q ns k body im inm => Some (c, q, MPut (mkKvName ns k) body im inm)
  | Delete c q ns k im => Some (c, q, MDelete (mkKvName ns k) im)
  | RegisterSession | ReadBarrier => None
  end.

Definition client_of (command : KvCommand) : option N :=
  match mutation command with Some (c, _, _) => Some c | None => None end.

(** The checks that do not depend on the state. *)
Definition validate_command (command : KvCommand) : ConnectError + unit :=
  match command with
  | Put c q ns k body im inm =>
      let? _ := validate_mutation_request c q in
      let? _ := validate_put_preconditions im inm in
      let? _ := validate_value body in
      let? _ := kv_name_new ns k in inr tt
  | Delete c q ns k im =>
      let? _ := validate_mutation_request c q in
      let? _ := validate_etag im in
      let? _ := kv_name_new ns k in inr tt
  | RegisterSession | ReadBarrier => inr tt
  end.

Definition request_name (req : MutationRequest) : KvName :=
  match req with MPut n _ _ _ => n | MDelete n _ => n end.

Definition request_if_match (req : MutationRequest) : string :=
  match req with MPut _ _ im _ => im | MDelete _ im => im end.

Definition execute (s : KvState) (c q : N) (req : MutationRequest)
    : KvState * (ConnectError + KvApplyResult) :=
  match req with
  | MPut n body im inm => execute_put s c q n body im inm
  | MDelete n im => execute_delete s c q n im
  end.

(** The answer a recorded result stands for. *)
Definition reply (res : MutationResult) : ConnectError + KvApplyResult :=
  match res with
  | RPut r => inr (APut r)
  | RDelete r => inr (ADelete r)
  | Rejected r => inl (connect_error r)
  end.

Definition answers (req : MutationRequest) (res : MutationResult) : bool :=
  match req, res with
  | MPut _ _ _ _, RPut _ | MDelete _ _, RDelete _ | _, Rejected _ => true
  | _, _ => false
  end.

(** ** The invariant *)

Definition session_ok (x : SessionState) : Prop :=
  x = default_session ∨
  ∃ req res, x = mkSessionState (ss_sequence x) (Some req) (Some res) ∧ 0 < ss_sequence x ∧ answers req res = true.

Definition record_ok (next : N) (n : KvName) (r : KvRecord) : Prop :=
  0 < rec_generation r < next ∧ rec_etag r = etag_for (rec_generation r) ∧
  vlen (rec_body r) ≤ MAX_VALUE_BYTES ∧ kv_name_new (nm_namespace n) (nm_key n) = inr n.

Record kv_inv (s : KvState) : Prop := {
  ki_sessions : map_Forall (fun c x => 0 < c < next_client_id s ∧ session_ok x) (kv_sessions s);
  ki_entries : map_Forall (record_ok (next_generation s)) (kv_entries s);
  ki_unique : ∀ n n' r r', kv_entries s !! n = Some r → kv_entries s !! n' = Some r' →
    rec_generation r = rec_generation r' → n = n';
  ki_next : 0 < next_client_id s ∧ 0 < next_generation s
}.

(** ** The specification of a command *)

Definition with_session (s : KvState) (c : N) (x : SessionState) : KvState :=
  mkKvState (next_client_id s) (next_generation s) (kv_entries s) (<[c := x]> (kv_sessions s)).

(** The condition of a mutation holds for the current version of its key. *)
Definition condition (current : option KvRecord) (req : MutationRequest) : MutationRejection + unit :=
  match req with
  | MPut _ _ im inm => check_put_preconditions current im inm
  | MDelete _ im =>
      if str_is_empty im then inr tt
      else match current with
           | Some r => if bool_decide (im = rec_etag r) then inr tt else inl EtagMismatch
           | None => inl EtagMismatch
           end
  end.

(** What applying a command does, by cases: a session is registered, a read barrier
    passes, a malformed command, an unknown session or a sequence number out of
    order is refused, a repeated request is answered with the recorded result, a
    new request whose condition fails is refused and recorded, and any other new
    request takes effect and is recorded. *)
Inductive kv_spec (s : KvState) : KvCommand → KvState → ConnectError + KvApplyResult → Prop :=
| SRegister : next_client_id s + 1 < u64_modulus →
    kv_spec s RegisterSession
      (mkKvState (next_client_id s + 1) (next_generation s) (kv_entries s)
         (<[next_client_id s := default_session]> (kv_sessions s)))
      (inr (ARegisterSession (mkRegisterSessionResponse (next_client_id s))))
| SNoClientId : u64_modulus ≤ next_client_id s + 1 →
    kv_spec s RegisterSession s (inl (resource_exhausted "client id space exhausted"))
| SBarrier : kv_spec s ReadBarrier s (inr AReadBarrier)
| SInvalid cmd e : validate_command cmd = inl e → kv_spec s cmd s (inl e)
| SUnknown cmd c q req : mutation cmd = Some (c, q, req) → validate_command cmd = inr tt →
    kv_sessions s !! c = None → kv_spec s cmd s (inl (invalid_argument "unknown client session"))
| SStale cmd c q req x : mutation cmd = Some (c, q, req) → validate_command cmd = inr tt →
    kv_sessions s !! c = Some x → q < ss_sequence x →
    kv_spec s cmd s (inl (aborted "stale client sequence"))
| SReused cmd c q req x req' : mutation cmd = Some (c, q, req) → validate_command cmd = inr tt →
    kv_sessions s !! c = Some x → q = ss_sequence x → ss_request x = Some req' → req' ≠ req →
    kv_spec s cmd s (inl (aborted "sequence reused for different request"))
| SReplay cmd c q req res : mutation cmd = Some (c, q, req) → validate_command cmd = inr tt →
    kv_sessions s !! c = Some (mkSessionState q (Some req) (Some res)) → kv_spec s cmd s (reply res)
| SReject cmd c q req x rej : mutation cmd = Some (c, q, req) → validate_command cmd = inr tt →
    kv_sessions s !! c = Some x → ss_sequence x < q →
    condition (kv_entries s !! request_name req) req = inl rej →
    kv_spec s cmd (with_session s c (mkSessionState q (Some req) (Some (Rejected rej))))
      (inl (connect_error rej))
| SExhausted c q ns k body im inm x : let cmd := Put c q ns k body im inm in
    validate_command cmd = inr tt → kv_sessions s !! c = Some x → ss_sequence x < q →
    condition (kv_entries s !! mkKvName ns k) (MPut (mkKvName ns k) body im inm) = inr tt →
    u64_modulus ≤ next_generation s + 1 →
    kv_spec s cmd
      (with_session s c (mkSessionState q (Some (MPut (mkKvName ns k) body im inm))
                           (Some (Rejected GenerationExhausted))))
      (inl (connect_error GenerationExhausted))
| SPut c q ns k body im inm x : let cmd := Put c q ns k body im inm in let g := next_generation s in
    let response := mkPutResponse ns k (etag_for g) g (vlen body) in
    validate_command cmd = inr tt → kv_sessions s !! c = Some x → ss_sequence x < q →
    condition (kv_entries s !! mkKvName ns k) (MPut (mkKvName ns k) body im inm) = inr tt →
    g + 1 < u64_modulus →
    kv_spec s cmd
      (mkKvState (next_client_id s) (g + 1)
         (<[mkKvName ns k := mkKvRecord body (etag_for g) g]> (kv_entries s))
         (<[c := mkSessionState q (Some (MPut (mkKvName ns k) body im inm)) (Some (RPut response))]>
            (kv_sessions s)))
      (inr (APut response))
| SDelete c q ns k im x : let cmd := Delete c q ns k im in
    let response :=
      match kv_entries s !! mkKvName ns k with
      | Some r => mkDeleteResponse ns k (rec_etag r) (rec_generation r) true
      | None => mkDeleteResponse ns k "" 0 false
      end in
    validate_command cmd = inr tt → kv_sessions s !! c = Some x → ss_sequence x < q →
    condition (kv_entries s !! mkKvName ns k) (MDelete (mkKvName ns k) im) = inr tt →
    kv_spec s cmd
      (mkKvState (next_client_id s) (next_generation s) (delete (mkKvName ns k) (kv_entries s))
         (<[c := mkSessionState q (Some (MDelete (mkKvName ns k) im)) (Some (RDelete response))]>
            (kv_sessions s)))
      (inr (ADelete response)).

(** ** Proofs *)

Lemma kv_name_new_inr ns k n : kv_name_new ns k = inr n → n = mkKvName ns k.
Proof. unfold kv_name_new. repeat case_match; congruence. Qed.

(** Case analysis of a chain of [let?]. *)
Ltac result_cases :=
  repeat match goal with
  | H : context [match ?e with inl _ => _ | inr _ => _ end] |- _ =>
      let E := fresh "E" in destruct e as [?|[]] eqn:E; try discriminate H
  | |- context [match ?e with inl _ => _ | inr _ => _ end] =>
      let E := fresh "E" in destruct e as [?|?] eqn:E
  end.

(** A well-formed mutation passes the checks, then consults its session. *)
Lemma kv_apply_mutation s cmd c q req :
  mutation cmd = Some (c, q, req) → validate_command cmd = inr tt →
  kv_apply s cmd =
    let? x := session s c leaving s in
    let? cached := cached_mutation x q req leaving s in
    match cached with
    | Some res => (s, if answers req res then reply res else inl (internal "session result mismatch"))
    | None => execute s c q req
    end.
Proof.
  intros Hm Hv. destruct cmd as [| |c' q' ns k body im inm|c' q' ns k im]; try discriminate Hm;
    injection Hm as -> -> <-; cbn [validate_command] in Hv; cbn [kv_apply]; unfold apply_put, apply_delete.
  - destruct (validate_mutation_request _ _); [done |]. destruct (validate_put_preconditions _ _); [done |].
    destruct (validate_value _); [done |]. destruct (kv_name_new _ _) as [|n] eqn:En; [done |].
    apply kv_name_new_inr in En as ->. unfold cached_put. destruct (session _ _); [done |].
    destruct (cached_mutation _ _ _) as [|[[]|]]; done.
  - destruct (validate_mutation_request _ _); [done |]. destruct (validate_etag _); [done |].
    destruct (kv_name_new _ _) as [|n] eqn:En; [done |].
    apply kv_name_new_inr in En as ->. unfold cached_delete. destruct (session _ _); [done |].
    destruct (cached_mutation _ _ _) as [|[[]|]]; done.
Qed.

Lemma kv_apply_invalid s cmd e : validate_command cmd = inl e → kv_apply s cmd = (s, inl e).
Proof.
  destruct cmd as [| |c q ns k body im inm|c q ns k im]; cbn [validate_command kv_apply]; try done;
    unfold apply_put, apply_delete; intros H; result_cases; congruence.
Qed.

Lemma validate_body c q ns k body im inm :
  validate_command (Put c q ns k body im inm) = inr tt → vlen body ≤ MAX_VALUE_BYTES.
Proof.
  cbn [validate_command]. intros H. result_cases. unfold validate_value in *.
  destruct (N.ltb_spec MAX_VALUE_BYTES (vlen body)); [discriminate | done].
Qed.

Lemma validate_sequence cmd c q req :
  mutation cmd = Some (c, q, req) → validate_command cmd = inr tt → 0 < q.
Proof.
  destruct cmd; try done; intros [= <- <- <-] H; cbn [validate_command] in H; result_cases;
    unfold validate_mutation_request in *; repeat case_match; try discriminate;
    rewrite ?N.eqb_neq in *; lia.
Qed.

Lemma validate_name cmd c q req :
  mutation cmd = Some (c, q, req) → validate_command cmd = inr tt →
  kv_name_new (nm_namespace (request_name req)) (nm_key (request_name req)) = inr (request_name req).
Proof.
  destruct cmd; try done; intros [= <- <- <-] H; cbn [validate_command request_name nm_namespace nm_key] in *;
    (destruct (kv_name_new _ _) as [|n] eqn:En; [by result_cases | by apply kv_name_new_inr in En as ->]).
Qed.

Lemma execute_delete_condition s c q n im :
  execute_delete s c q n im =
    match condition (kv_entries s !! n) (MDelete n im) with
    | inl rejection => reject s c q (MDelete n im) rejection
    | inr _ =>
        let response :=
          match kv_entries s !! n with
          | Some r => mkDeleteResponse (nm_namespace n) (nm_key n) (rec_etag r) (rec_generation r) true
          | None => mkDeleteResponse (nm_namespace n) (nm_key n) "" 0 false
          end in
        let? s := record (set_entries s (delete n (kv_entries s))) c q (MDelete n im) (RDelete response)
          leaving set_entries s (delete n (kv_entries s)) in
        (s, inr (ADelete response))
    end.
Proof.
  unfold execute_delete, condition. destruct (str_is_empty im); [done |].
  destruct (kv_entries s !! n); [by case_bool_decide |]. done.
Qed.

Lemma record_known s c q req res x :
  kv_sessions s !! c = Some x → record s c q req res = inr (with_session s c (mkSessionState q (Some req) (Some res))).
Proof. intros H. unfold record, session. by rewrite H. Qed.

(** A new request with a known session. *)
Lemma execute_spec s cmd c q req x :
  mutation cmd = Some (c, q, req) → validate_command cmd = inr tt →
  kv_sessions s !! c = Some x → ss_sequence x < q →
  kv_spec s cmd (execute s c q req).1 (execute s c q req).2.
Proof.
  intros Hm Hv Hx Hq.
  destruct (condition (kv_entries s !! request_name req) req) as [rej|[]] eqn:Hc.
  - assert (execute s c q req = reject s c q req rej) as ->.
    { destruct req as [n body im inm|n im]; cbn [execute request_name] in *;
        [unfold execute_put; cbn [condition] in Hc | rewrite execute_delete_condition]; by rewrite Hc. }
    unfold reject. rewrite (record_known _ _ _ _ _ x Hx). by eapply SReject.
  - destruct cmd as [| |c' q' ns k body im inm|c' q' ns k im]; try discriminate Hm;
      injection Hm as -> -> <-; cbn [execute request_name] in *.
    + unfold execute_put. cbn [condition] in Hc. rewrite Hc.
      pose proof (validate_body _ _ _ _ _ _ _ Hv). unfold body_len, take_generation, u64_checked_add.
      destruct (N.ltb_spec (vlen body) u64_modulus) as [_|]; [|unfold MAX_VALUE_BYTES in *; ulia].
      destruct (N.ltb_spec (next_generation s + 1) u64_modulus).
      * rewrite (record_known _ _ _ _ _ x) by done. by eapply SPut.
      * unfold reject. rewrite (record_known _ _ _ _ _ x) by done. by eapply SExhausted.
    + rewrite execute_delete_condition, Hc. cbn zeta. rewrite (record_known _ _ _ _ _ x) by done.
      by eapply SDelete.
Qed.

(** The specification covers every command in every state of the invariant. *)
Lemma kv_apply_spec s cmd : kv_inv s → kv_spec s cmd (kv_apply s cmd).1 (kv_apply s cmd).2.
Proof.
  intros Hinv. destruct (mutation cmd) as [[[c q] req]|] eqn:Hm.
  - destruct (validate_command cmd) as [e|[]] eqn:Hv;
      [rewrite (kv_apply_invalid s cmd e Hv); by apply SInvalid |].
    rewrite (kv_apply_mutation s cmd c q req Hm Hv). unfold session.
    destruct (kv_sessions s !! c) as [x|] eqn:Hx; [|by eapply SUnknown].
    destruct (ki_sessions s Hinv c x Hx) as [_ Hok]. unfold cached_mutation.
    pose proof (validate_sequence _ _ _ _ Hm Hv) as Hpos.
    destruct (N.compare_spec q (ss_sequence x)) as [->|Hlt|Hlt]; [| by eapply SStale | by eapply execute_spec].
    destruct Hok as [->|(req' & res & Hxeq & _ & Hans)]; [cbn in Hpos; lia |].
    rewrite Hxeq. cbn [ss_request ss_result]. case_bool_decide as Heq; [|].
    + subst req'. rewrite Hans. apply (SReplay s cmd c (ss_sequence x) req res); [done.. | congruence].
    + eapply SReused; [done.. | by rewrite Hxeq | done].
  - destruct cmd; try discriminate Hm; cbn [kv_apply].
    + unfold take_client_id, u64_checked_add. destruct (N.ltb_spec (next_client_id s + 1) u64_modulus);
        by constructor.
    + constructor.
Qed.

(** *** ETags *)

Lemma string_app_length (a b : string) : String.length (a +:+ b) = (String.length a + String.length b)%nat.
Proof. induction a as [|x a IH]; [done |]. change (S (String.length (a +:+ b)) = S (String.length a + String.length b)). lia. Qed.

Lemma string_app_cancel_r (a b t : string) : a +:+ t = b +:+ t → a = b.
Proof.
  revert b. induction a as [|x a IH]; intros [|y b] H; [done | | |].
  1,2: apply (f_equal String.length) in H; rewrite !string_app_length in H; cbn in H; lia.
  injection H as -> H. f_equal. by apply IH.
Qed.

Lemma etag_for_inj g g' : etag_for g = etag_for g' → g = g'.
Proof.
  unfold etag_for. intros [= H]. apply (string_app_cancel_r (pretty g) (pretty g') (String "034"%char "")) in H. by apply (inj pretty) in H.
Qed.

Lemma etag_for_nonempty g : str_is_empty (etag_for g) = false.
Proof. done. Qed.

(** *** Preservation of the invariant *)

Lemma with_session_inv s c q req res x :
  kv_inv s → kv_sessions s !! c = Some x → 0 < q → answers req res = true →
  kv_inv (with_session s c (mkSessionState q (Some req) (Some res))).
Proof.
  intros [Hs He Hu Hn] Hx Hq Ha. split; try done.
  apply map_Forall_insert_2; [|done]. split; [apply (Hs c x Hx) |]. right. by exists req, res.
Qed.

Lemma kv_new_inv : kv_inv kv_new.
Proof. split; [apply map_Forall_empty.. | done | done]. Qed.

Lemma record_ok_mono g g' n r : g ≤ g' → record_ok g n r → record_ok g' n r.
Proof. intros H ([? ?] & ?). split; [lia | done]. Qed.

(** A new version keeps the versions distinct. *)
Lemma insert_version_inv s n body :
  kv_inv s → vlen body ≤ MAX_VALUE_BYTES → kv_name_new (nm_namespace n) (nm_key n) = inr n →
  kv_inv (mkKvState (next_client_id s) (next_generation s + 1)
            (<[n := mkKvRecord body (etag_for (next_generation s)) (next_generation s)]> (kv_entries s))
            (kv_sessions s)).
Proof.
  intros [Hs He Hu Hn] Hb Hname. split; cbn [next_client_id next_generation kv_entries kv_sessions] in *.
  - done.
  - apply map_Forall_insert_2; [by repeat split; cbn; try lia |].
    intros n' r Hr. eapply record_ok_mono; [|by apply He]. lia.
  - assert (∀ n' r, kv_entries s !! n' = Some r → rec_generation r ≠ next_generation s) as Hold.
    { intros n' r Hr. destruct (He n' r Hr) as [? _]. lia. }
    intros n1 n2 r1 r2 [[<- <-]|[Hn1 H1]]%lookup_insert_Some [[<- <-]|[Hn2 H2]]%lookup_insert_Some Heq; cbn in Heq.
    + done.
    + by destruct (Hold _ _ H2).
    + by destruct (Hold _ _ H1).
    + by eapply Hu.
  - lia.
Qed.

Lemma delete_version_inv s n : kv_inv s → kv_inv (set_entries s (delete n (kv_entries s))).
Proof.
  intros [Hs He Hu Hn]. split; try done; cbn.
  - by apply map_Forall_delete.
  - intros n1 n2 r1 r2 [_ H1]%lookup_delete_Some [_ H2]%lookup_delete_Some. by apply Hu.
Qed.

Lemma register_inv s :
  kv_inv s →
  kv_inv (mkKvState (next_client_id s + 1) (next_generation s) (kv_entries s)
            (<[next_client_id s := default_session]> (kv_sessions s))).
Proof.
  intros [Hs He Hu Hn]. split; try done; cbn [next_client_id next_generation kv_entries kv_sessions] in *.
  - apply map_Forall_insert_2; [split; [lia | by left] |].
    intros c x Hx. destruct (Hs c x Hx). split; [lia | done].
  - lia.
Qed.

Lemma kv_spec_inv s cmd s' r : kv_inv s → kv_spec s cmd s' r → kv_inv s'.
Proof.
  intros Hinv Hspec. inversion Hspec as
    [| | | | | | | |cmd' c q req x rej Hm Hv Hx Hq Hc|c q ns k body im inm x ? Hv Hx Hq Hc Hg
    |c q ns k body im inm x ? ? ? Hv Hx Hq Hc Hg|c q ns k im x ? ? Hv Hx Hq Hc]; subst; try done.
  - by apply register_inv.
  - eapply with_session_inv; [done | done | lia | by destruct req].
  - eapply with_session_inv; [done | done | lia | done].
  - apply (with_session_inv (mkKvState _ _ _ (kv_sessions s)) c _ _ _ x); [|done | lia | done].
    apply (insert_version_inv s (mkKvName ns k)); [done | by eapply validate_body | by apply (validate_name (Put c q ns k body im inm) c q (MPut (mkKvName ns k) body im inm))].
  - apply (with_session_inv (set_entries s _) c _ _ _ x); [by apply delete_version_inv | done | lia | done].
Qed.

Lemma kv_apply_inv s cmd : kv_inv s → kv_inv (kv_apply s cmd).1.
Proof. intros H. eapply kv_spec_inv; [done | by apply kv_apply_spec]. Qed.

Lemma kv_run_app s cs1 cs2 : kv_run s (cs1 ++ cs2) = kv_run (kv_run s cs1) cs2.
Proof. apply fold_left_app. Qed.

Lemma kv_run_inv s cs : kv_inv s → kv_inv (kv_run s cs).
Proof. revert s. induction cs as [|c cs IH]; intros s H; [done |]. apply IH. by apply kv_apply_inv. Qed.

(** *** What a command leaves alone *)

(** Generations only grow, and a version found after a command either was there
    before or is newer than everything before. *)
Lemma kv_spec_versions s cmd s' r :
  kv_spec s cmd s' r →
  next_generation s ≤ next_generation s' ∧
  ∀ n v, kv_entries s' !! n = Some v → kv_entries s !! n = Some v ∨ next_generation s ≤ rec_generation v.
Proof.
  intros Hspec. inversion Hspec; subst; cbn; (split; [lia |]); try by left.
  - intros n v [[<- <-]|[_ H']]%lookup_insert_Some; [right; cbn; lia | by left].
  - intros n v [_ H']%lookup_delete_Some. by left.
Qed.

Lemma kv_run_versions s cs :
  kv_inv s → next_generation s ≤ next_generation (kv_run s cs) ∧
  ∀ n v, kv_entries (kv_run s cs) !! n = Some v →
    kv_entries s !! n = Some v ∨ next_generation s ≤ rec_generation v.
Proof.
  revert s. induction cs as [|c cs IH]; intros s Hinv; [split; [done | by left] |].
  destruct (kv_spec_versions _ _ _ _ (kv_apply_spec s c Hinv)) as [Hle Hold].
  destruct (IH _ (kv_apply_inv s c Hinv)) as [Hle' Hold']. cbn [kv_run fold_left]. split; [unfold kv_run in *; lia |].
  intros n v Hv. destruct (Hold' n v Hv) as [H|H]; [by apply Hold | right; lia].
Qed.

(** The session of a registered client changes only by its own commands. *)
Lemma kv_spec_session s cmd s' r c x :
  kv_inv s → kv_spec s cmd s' r → client_of cmd ≠ Some c → kv_sessions s !! c = Some x →
  kv_sessions s' !! c = Some x.
Proof.
  intros Hinv Hspec Hc Hx. destruct (ki_sessions s Hinv c x Hx) as [Hlt _].
  inversion Hspec; subst; cbn; try done.
  - rewrite lookup_insert_ne; [done | lia].
  - unfold client_of in Hc. match goal with H : mutation _ = Some _ |- _ => rewrite H in Hc end.
    rewrite lookup_insert_ne; [done | congruence].
  - rewrite lookup_insert_ne; [done | cbn in Hc; congruence].
  - rewrite lookup_insert_ne; [done | cbn in Hc; congruence].
  - rewrite lookup_insert_ne; [done | cbn in Hc; congruence].
Qed.

Lemma kv_run_session s cs c x :
  kv_inv s → Forall (fun cmd => client_of cmd ≠ Some c) cs → kv_sessions s !! c = Some x →
  kv_sessions (kv_run s cs) !! c = Some x.
Proof.
  intros Hinv Hcs. revert s Hinv. induction Hcs as [|cmd cs Hc Hcs IH]; intros s Hinv Hx; [done |].
  cbn [kv_run fold_left]. apply IH; [by apply kv_apply_inv |]. eapply kv_spec_session; [done | | done | done].
  by apply kv_apply_spec.
Qed.

(** A mutation that succeeds or changes the state has been recorded. *)
Lemma kv_spec_recorded s cmd s' r c q req :
  kv_spec s cmd s' r → mutation cmd = Some (c, q, req) → (∃ a, r = inr a) ∨ s' ≠ s →
  validate_command cmd = inr tt ∧
  ∃ res, kv_sessions s' !! c = Some (mkSessionState q (Some req) (Some res)) ∧ r = reply res.
Proof.
  intros Hspec Hm Heff. inversion Hspec; subst; try (by destruct Heff as [[? ?]|?]); try discriminate Hm.
  all: split; [done |].
  all: try match goal with
       | H : mutation ?y = Some _, H' : mutation ?y = Some _ |- _ =>
           rewrite H in H'; injection H' as ? ? ?; subst
       end.
  all: try (cbn in Hm; injection Hm as <- <- <-).
  - by eexists.
  - eexists. split; [apply lookup_insert_eq | done].
  - eexists. split; [apply lookup_insert_eq | done].
  - eexists. split; [apply lookup_insert_eq | done].
  - eexists. split; [apply lookup_insert_eq | done].
Qed.

(** A recorded mutation is answered from its record. *)
Lemma kv_apply_replay s cmd c q req res :
  kv_inv s → mutation cmd = Some (c, q, req) → validate_command cmd = inr tt →
  kv_sessions s !! c = Some (mkSessionState q (Some req) (Some res)) → kv_apply s cmd = (s, reply res).
Proof.
  intros Hinv Hm Hv Hx. rewrite (kv_apply_mutation s cmd c q req Hm Hv). unfold session. rewrite Hx.
  unfold cached_mutation. cbn [ss_sequence ss_request ss_result]. rewrite N.compare_refl, bool_decide_true by done.
  destruct (ki_sessions s Hinv c _ Hx) as [_ [?|(req' & res' & Heq & _ & Ha)]]; [done |].
  cbn in Heq. injection Heq as <- <-. by rewrite Ha.
Qed.

Lemma kv_same_etag s cs n n' v v' :
  kv_inv s → kv_entries s !! n = Some v → kv_entries (kv_run s cs) !! n' = Some v' →
  rec_etag v = rec_etag v' → n = n' ∧ v = v'.
Proof.
  intros Hinv Hv Hv' Heq.
  destruct (ki_entries s Hinv n v Hv) as ([_ Hlt] & He & _).
  destruct (ki_entries _ (kv_run_inv s cs Hinv) n' v' Hv') as (_ & He' & _).
  assert (rec_generation v = rec_generation v') as Hg by (apply etag_for_inj; congruence).
  destruct (kv_run_versions s cs Hinv) as [_ Hold].
  destruct (Hold n' v' Hv') as [Hs|?]; [|lia].
  pose proof (ki_unique s Hinv n n' v v' Hv Hs Hg) as <-. split; [done | congruence].
Qed.

Lemma condition_names_version current req :
  condition current req = inr tt → str_is_empty (request_if_match req) = false →
  ∃ v, current = Some v ∧ rec_etag v = request_if_match req.
Proof.
  destruct req as [n body im inm|n im]; cbn [condition request_if_match]; unfold check_put_preconditions;
    intros H He; rewrite He in H; repeat case_match; try discriminate;
    (eexists; split; [done |]); case_bool_decide; congruence.
Qed.

(** A mutation whose condition fails leaves the entries alone. *)
Lemma kv_spec_condition s cmd s' r c q req :
  kv_spec s cmd s' r → mutation cmd = Some (c, q, req) → kv_entries s' ≠ kv_entries s →
  condition (kv_entries s !! request_name req) req = inr tt.
Proof.
  intros Hspec Hm Hne. inversion Hspec; subst; try done; cbn in Hm; by injection Hm as <- <- <-.
Qed.

(** *** Theorems *)

(** C27: the state machine implements its specification. After any sequence of
    commands the invariant holds (sessions belong to issued client ids and hold
    complete records, every entry has a valid name, a body within the limit, an
    issued generation and the ETag of that generation, and no two entries share a
    generation), and applying a further command does exactly what [kv_spec] says:
    registration, barrier, each refusal with its error, replay, recorded
    rejection, write and delete. *)
Theorem kv_apply_refines cs cmd :
  let s := kv_run kv_new cs in
  kv_inv s ∧ kv_spec s cmd (kv_apply s cmd).1 (kv_apply s cmd).2.
Proof.
  cbn zeta. assert (kv_inv (kv_run kv_new cs)) by (apply kv_run_inv, kv_new_inv).
  split; [done | by apply kv_apply_spec].
Qed.

(** C28: exactly-once mutations. When a put or a delete succeeds, or is refused
    with an effect on the state (a recorded rejection), repeating the same command
    after any number of commands of other clients gives the same answer again and
    changes nothing. *)
Theorem exactly_once s cmd c q req s' r cs :
  kv_inv s → mutation cmd = Some (c, q, req) → kv_apply s cmd = (s', r) →
  (∃ a, r = inr a) ∨ s' ≠ s → Forall (fun other => client_of other ≠ Some c) cs →
  kv_apply (kv_run s' cs) cmd = (kv_run s' cs, r).
Proof.
  intros Hinv Hm Happ Heff Hcs. pose proof (kv_apply_spec s cmd Hinv) as Hspec. rewrite Happ in Hspec. cbn [fst snd] in Hspec.
  destruct (kv_spec_recorded _ _ _ _ _ _ _ Hspec Hm Heff) as (Hv & res & Hx & ->).
  pose proof (kv_spec_inv _ _ _ _ Hinv Hspec) as Hinv'.
  eapply kv_apply_replay; [by apply kv_run_inv | done.. | by apply kv_run_session].
Qed.

(** An ETag names one version for ever. If an entry of a state and an entry of
    any later state carry the same ETag, they are the same version of the same
    key: same name, body and generation. *)
Theorem etag_names_one_version s cs n n' v v' :
  kv_inv s → kv_entries s !! n = Some v → kv_entries (kv_run s cs) !! n' = Some v' →
  rec_etag v = rec_etag v' → n = n' ∧ v = v'.
Proof. apply kv_same_etag. Qed.

(** No lost updates. Once a version of a key has been replaced or deleted, a
    conditional put or delete that names the ETag of that version never changes
    the entries again, whoever sends it and however many commands later. *)
Theorem replaced_version_never_matches s cs1 cs2 cmd c q req v :
  kv_inv s → mutation cmd = Some (c, q, req) → kv_entries s !! request_name req = Some v →
  kv_entries (kv_run s cs1) !! request_name req ≠ Some v → request_if_match req = rec_etag v →
  let s2 := kv_run (kv_run s cs1) cs2 in
  kv_entries (kv_apply s2 cmd).1 = kv_entries s2.
Proof.
  intros Hinv Hm Hv Hgone Him s2. pose proof (kv_run_inv s cs1 Hinv) as Hinv1.
  pose proof (kv_run_inv _ cs2 Hinv1 : kv_inv s2) as Hinv2.
  destruct (decide (kv_entries (kv_apply s2 cmd).1 = kv_entries s2)) as [|Hne]; [done | exfalso].
  pose proof (kv_spec_condition _ _ _ _ _ _ _ (kv_apply_spec s2 cmd Hinv2) Hm Hne) as Hc.
  destruct (ki_entries s Hinv _ _ Hv) as ([_ Hlt] & He & _).
  destruct (condition_names_version _ _ Hc) as (w & Hw & Hwe); [by rewrite Him, He |].
  assert (kv_entries (kv_run s (cs1 ++ cs2)) !! request_name req = Some w) as Hw'
    by (by rewrite kv_run_app).
  destruct (kv_same_etag s (cs1 ++ cs2) _ _ v w Hinv Hv Hw') as [_ ->]; [congruence |].
  destruct (kv_run_versions _ cs2 Hinv1) as [_ Hold]. destruct (Hold _ _ Hw) as [?|?]; [done |].
  destruct (kv_run_versions _ cs1 Hinv) as [? _]. lia.
Qed.

(** Concrete commands: two clients, a put, a conditional put and their retries. *)
Definition demo_put (c q : N) (im : string) : KvCommand := Put c q "ns" "k" [Byte.x61] im false.
Definition demo_start : KvState := kv_run kv_new [RegisterSession; RegisterSession].
Definition demo_one : KvState := kv_run demo_start [demo_put 1 1 ""].

Lemma demo_start_inv : kv_inv demo_start.
Proof. apply kv_run_inv, kv_new_inv. Qed.

Lemma exactly_once_witness :
  let r := (kv_apply demo_start (demo_put 1 1 "")).2 in
  let s' := (kv_apply demo_start (demo_put 1 1 "")).1 in
  kv_apply (kv_run s' [demo_put 2 1 (etag_for 1)]) (demo_put 1 1 "") =
    (kv_run s' [demo_put 2 1 (etag_for 1)], r).
Proof.
  apply (exactly_once demo_start (demo_put 1 1 "") 1 1 (MPut (mkKvName "ns" "k") [Byte.x61] "" false)).
  - exact demo_start_inv.
  - reflexivity.
  - vm_compute. reflexivity.
  - left. eexists. vm_compute. reflexivity.
  - constructor; [discriminate | constructor].
Defined.

Lemma etag_names_one_version_witness :
  let v := mkKvRecord [Byte.x61] (etag_for 1) 1 in mkKvName "ns" "k" = mkKvName "ns" "k" ∧ v = v.
Proof.
  apply (etag_names_one_version demo_one [ReadBarrier] (mkKvName "ns" "k") (mkKvName "ns" "k")
           (mkKvRecord [Byte.x61] (etag_for 1) 1) (mkKvRecord [Byte.x61] (etag_for 1) 1)).
  - apply kv_run_inv. exact demo_start_inv.
  - vm_compute. reflexivity.
  - vm_compute. reflexivity.
  - reflexivity.
Defined.

Lemma replaced_version_never_matches_witness :
  let s2 := kv_run (kv_run demo_one [demo_put 2 1 (etag_for 1)]) [ReadBarrier] in
  kv_entries (kv_apply s2 (demo_put 1 2 (etag_for 1))).1 = kv_entries s2.
Proof.
  apply (replaced_version_never_matches demo_one [demo_put 2 1 (etag_for 1)] [ReadBarrier]
           (demo_put 1 2 (etag_for 1)) 1 2 (MPut (mkKvName "ns" "k") [Byte.x61] (etag_for 1) false)
           (mkKvRecord [Byte.x61] (etag_for 1) 1)).
  - apply kv_run_inv. exact demo_start_inv.
  - reflexivity.
  - vm_compute. reflexivity.
  - vm_compute. discriminate.
  - reflexivity.
Defined.
