(* ===== verification/Auth.v ===== *)
(** * Authentication of Raft peers

    cloud9-node/src/auth.rs: the shared key, its hexadecimal form, and the
    signature a peer puts on a message. HMAC-SHA256 is the [hmac] crate's, a
    parameter here: a function of key and body that accepts keys of 32 bytes and
    returns tags of 32 bytes; [verify_slice] compares the tag with the given bytes. *)

From S2P Require Import Prelude.
From Stdlib Require Import Strings.Byte.

Open Scope N_scope.

Definition KEY_BYTES : nat := 32.
Definition SIGNATURE_BYTES : nat := 32.

Definition u8_checked_mul (a b : N) : option N := if a * b <? 256 then Some (a * b) else None.
Definition u8_checked_add (a b : N) : option N := if a + b <? 256 then Some (a + b) else None.

Definition nibble (b : byte) : option N :=
  let v := Byte.to_N b in
  if (48 <=? v) && (v <=? 57) then Some (v - 48)
  else if (97 <=? v) && (v <=? 102) then Some (v - 97 + 10)
  else if (65 <=? v) && (v <=? 70) then Some (v - 65 + 10)
  else None.

(** The loop of [decode_hex] over the pairs of the input. *)
Fixpoint decode_pairs (value : bytes) : option bytes :=
  match value with
  | a :: b :: rest =>
      let* hi := nibble a in
      let* hi := u8_checked_mul hi 16 in
      let* lo := nibble b in
      let* v := u8_checked_add hi lo in
      let* decoded := decode_pairs rest in
      Some (byte_of v :: decoded)
  | _ => Some []
  end.

Definition decode_hex (n : nat) (value : string) : option bytes :=
  let value := String.list_byte_of_string value in
  if bool_decide (length value = n * 2)%nat then decode_pairs value else None.

Definition HEX : bytes := String.list_byte_of_string "0123456789abcdef".

(** [HEX[i]]. *)
Definition hex_digit (i : N) : byte := default x00 (HEX !! N.to_nat i).

Definition encode_byte (b : byte) : bytes :=
  [hex_digit (N.shiftr (Byte.to_N b) 4); hex_digit (N.land (Byte.to_N b) 15)].

Definition encode_hex (bs : bytes) : string := String.string_of_list_byte (concat (map encode_byte bs)).

Record RaftKey := mkRaftKey { key_bytes : bytes }.

(** [None] is [InvalidRaftKey]. *)
Definition from_hex (value : string) : option RaftKey :=
  option_map mkRaftKey (decode_hex KEY_BYTES value).

Section Signature.

Context (hmac_sha256 : bytes → bytes → option bytes).

Definition signature (key : RaftKey) (body : bytes) : option string :=
  let* tag := hmac_sha256 (key_bytes key) body in Some (encode_hex tag).

Definition verify (key : RaftKey) (body : bytes) (sig : string) : bool :=
  match decode_hex SIGNATURE_BYTES sig with
  | None => false
  | Some sig =>
      match hmac_sha256 (key_bytes key) body with
      | None => false
      | Some tag => bool_decide (tag = sig)
      end
  end.

End Signature.

(** ** Hexadecimal text *)

(** ASCII letters in lower case. *)
Definition lower_byte (b : byte) : byte :=
  let v := Byte.to_N b in if (65 <=? v) && (v <=? 90) then byte_of (v + 32) else b.

Definition lower (s : string) : string := String.string_of_list_byte (map lower_byte (String.list_byte_of_string s)).

Lemma nibble_digit b v : nibble b = Some v → v < 16 ∧ hex_digit v = lower_byte b.
Proof. destruct b; try discriminate; intros [= <-]; split; reflexivity. Qed.

Lemma nibble_hex_digit i : i < 16 → nibble (hex_digit i) = Some i.
Proof.
  intros Hi. assert (∀ k, (k < 16)%nat → nibble (hex_digit (N.of_nat k)) = Some (N.of_nat k)) as H.
  { intros k Hk. do 16 (destruct k as [|k]; [reflexivity |]). lia. }
  rewrite <- (N2Nat.id i). apply H. lia.
Qed.

Lemma encode_byte_value h l : h < 16 → l < 16 → encode_byte (byte_of (h * 16 + l)) = [hex_digit h; hex_digit l].
Proof.
  intros Hh Hl. unfold encode_byte. rewrite to_N_byte_of by lia.
  rewrite N.shiftr_div_pow2, (N.land_ones _ 4). change (2 ^ 4) with 16.
  assert ((h * 16 + l) mod 16 = l) as -> by (rewrite N.add_comm, N.Div0.mod_add; apply N.mod_small; lia).
  by rewrite N.div_add_l, (N.div_small l), N.add_0_r by lia.
Qed.

Lemma byte_nibbles b : ∃ h l, b = byte_of (h * 16 + l) ∧ h < 16 ∧ l < 16.
Proof.
  exists (Byte.to_N b / 16), (Byte.to_N b mod 16). split_and!.
  - rewrite N.mul_comm, <- N.div_mod' , byte_of_to_N. done.
  - apply N.Div0.div_lt_upper_bound. apply to_N_lt.
  - by apply N.mod_lt.
Qed.

Lemma encode_hex_bytes bs : String.list_byte_of_string (encode_hex bs) = concat (map encode_byte bs).
Proof. unfold encode_hex. apply String.list_byte_of_string_of_list_byte. Qed.

Lemma encoded_length bs : length (concat (map encode_byte bs)) = (length bs * 2)%nat.
Proof. induction bs as [|b bs IH]; [done |]. cbn [map concat]. rewrite length_app, IH. cbn. lia. Qed.

Lemma decode_pairs_encoded bs : decode_pairs (concat (map encode_byte bs)) = Some bs.
Proof.
  induction bs as [|b bs IH]; [done |]. destruct (byte_nibbles b) as (h & l & -> & Hh & Hl).
  cbn [map concat]. rewrite encode_byte_value by done. cbn [app decode_pairs].
  rewrite !nibble_hex_digit by done. unfold u8_checked_mul, u8_checked_add.
  rewrite (proj2 (N.ltb_lt (h * 16) 256)), (proj2 (N.ltb_lt (h * 16 + l) 256)) by lia. by rewrite IH.
Qed.

Lemma decode_pairs_sound n : ∀ value bs,
  length value = (n * 2)%nat → decode_pairs value = Some bs →
  length bs = n ∧ concat (map encode_byte bs) = map lower_byte value.
Proof.
  induction n as [|n IH]; intros value bs Hlen H.
  { destruct value; [|discriminate Hlen]. by injection H as <-. }
  destruct value as [|a [|b value]]; try discriminate Hlen. cbn [decode_pairs] in H.
  destruct (nibble a) as [hi|] eqn:Ea; [|done]. destruct (u8_checked_mul hi 16) as [hi'|] eqn:Eh; [|done].
  destruct (nibble b) as [lo|] eqn:Eb; [|done]. destruct (u8_checked_add hi' lo) as [v|] eqn:Ev; [|done].
  destruct (decode_pairs value) as [rest|] eqn:Er; [|done]. injection H as <-.
  unfold u8_checked_mul, u8_checked_add in *. destruct (_ <? _) in Eh; [injection Eh as <- | done].
  destruct (_ <? _) in Ev; [injection Ev as <- | done].
  apply nibble_digit in Ea as [Hhi Ea], Eb as [Hlo Eb].
  destruct (IH value rest) as [Hl Hr]; [cbn in Hlen; lia | done |]. split; [cbn; lia |].
  cbn [map concat]. rewrite encode_byte_value, Hr, Ea, Eb by done. done.
Qed.

Lemma decode_encode_hex bs : decode_hex (length bs) (encode_hex bs) = Some bs.
Proof.
  unfold decode_hex. rewrite encode_hex_bytes, bool_decide_true by apply encoded_length.
  apply decode_pairs_encoded.
Qed.

Lemma decode_hex_sound n value bs :
  decode_hex n value = Some bs → length bs = n ∧ encode_hex bs = lower value.
Proof.
  unfold decode_hex. case_bool_decide as Hlen; [|done]. intros H.
  destruct (decode_pairs_sound n _ _ Hlen H) as [Hl Hr]. split; [done |]. unfold encode_hex, lower. by rewrite Hr.
Qed.

(** Hexadecimal text. Decoding inverts encoding for every length, and whatever
    [decode_hex] accepts has exactly the requested number of bytes and is, up to
    letter case, the encoding of the result. *)
Theorem hex_roundtrip bs n value decoded :
  decode_hex (length bs) (encode_hex bs) = Some bs ∧
  (decode_hex n value = Some decoded → length decoded = n ∧ encode_hex decoded = lower value).
Proof. split; [apply decode_encode_hex | apply decode_hex_sound]. Qed.

Section Verification.

Context (hmac_sha256 : bytes → bytes → option bytes).

(** The MAC accepts a 32-byte key and its tag has 32 bytes. *)
Definition hmac_ok : Prop :=
  ∀ key body, length key = KEY_BYTES → ∃ tag, hmac_sha256 key body = Some tag ∧ length tag = SIGNATURE_BYTES.

(** The tag of a configured key, and the signature it gives. *)
Lemma configured_tag text key body :
  hmac_ok → from_hex text = Some key →
  ∃ tag, hmac_sha256 (key_bytes key) body = Some tag ∧ decode_hex SIGNATURE_BYTES (encode_hex tag) = Some tag.
Proof.
  intros Hok Hkey. unfold from_hex in Hkey. destruct (decode_hex KEY_BYTES text) as [bs|] eqn:E; [|done].
  injection Hkey as <-. destruct (decode_hex_sound _ _ _ E) as [Hlen _].
  destruct (Hok bs body Hlen) as (tag & Htag & Hl). exists tag. split; [done |]. by rewrite <- Hl, decode_encode_hex.
Qed.

Lemma signature_verifies text key body sig :
  hmac_ok → from_hex text = Some key → signature hmac_sha256 key body = Some sig →
  verify hmac_sha256 key body sig = true.
Proof.
  intros Hok Hkey Hs. destruct (configured_tag text key body Hok Hkey) as (tag & Htag & Hd).
  unfold signature in Hs. rewrite Htag in Hs. injection Hs as <-. unfold verify. rewrite Hd, Htag. by apply bool_decide_true.
Qed.

(** Message authentication. A configured key (any the parser accepts) can sign
    every body, [verify] accepts the signature, and the only texts it accepts for
    that key and body are that signature in upper or lower case. *)
Theorem signature_exact text key body :
  hmac_ok → from_hex text = Some key →
  ∃ s, signature hmac_sha256 key body = Some s ∧ verify hmac_sha256 key body s = true ∧
       ∀ sig, verify hmac_sha256 key body sig = true → lower sig = s.
Proof.
  intros Hok Hkey. destruct (configured_tag text key body Hok Hkey) as (tag & Htag & Hd). exists (encode_hex tag).
  assert (signature hmac_sha256 key body = Some (encode_hex tag)) as Hs by (unfold signature; by rewrite Htag).
  split_and!; [done | by eapply signature_verifies |]. intros sig. unfold verify. rewrite Htag.
  destruct (decode_hex SIGNATURE_BYTES sig) as [d|] eqn:Ed; [|done]. intros ->%bool_decide_eq_true.
  by destruct (decode_hex_sound _ _ _ Ed) as [_ ->].
Qed.

End Verification.

(** A MAC with tags of the right length. *)
Definition demo_mac (key body : bytes) : option bytes := Some (replicate 32 (hd x00 (body ++ key))).

Lemma demo_mac_ok : hmac_ok demo_mac.
Proof. intros key body _. eexists. split; [reflexivity | apply length_replicate]. Qed.

Lemma signature_exact_witness :
  let key := mkRaftKey (replicate 32 x01) in
  ∃ s, signature demo_mac key [x61] = Some s ∧ verify demo_mac key [x61] s = true ∧
       ∀ sig, verify demo_mac key [x61] sig = true → lower sig = s.
Proof.
  apply (signature_exact demo_mac (encode_hex (replicate 32 x01))).
  - exact demo_mac_ok.
  - vm_compute. reflexivity.
Defined.
