(* ===== verification/Service.v ===== *)
(** * The KV service

    cloud9-node/src/service.rs with the parts of runtime.rs between the service and
    the Raft node: [apply_command], [propose], [read_barrier], [mode] and the error
    texts. A request handler awaits the outcome of a proposal at one point; it is
    modelled by what it does before ([request_command] and [runtime_propose]) and
    after ([finish_request]), with any operations of the runtime in between. The JSON
    codec of commands and the texts of addresses and disk errors are parameters.

    The theorems relate the three layers: the handlers refuse exactly the requests
    that the state machine would refuse for their form, and in every history of a
    runtime a proposal is answered at most once, with the result of its own command
    at its place in the sequence of applied commands. *)

From stdpp Require Import pretty.
From S2P Require Import Prelude Membership Log Event Core Role Leader Node Store Runtime Kv.

Open Scope N_scope.

(** ** Error texts *)

Definition node_text (n : NodeId) : string := "node-" +:+ pretty n.

Definition propose_error (e : ProposeError) : ConnectError :=
  match e with
  | PENotLeader (Some leader) => failed_precondition ("not leader; leader is " +:+ pretty leader)
  | PENotLeader None => failed_precondition "not leader; leader unknown"
  | Throttled => resource_exhausted "too many Raft proposals"
  end.

(** [usize_to_u64]. *)
Definition usize_to_u64 (n : N) : ConnectError + N :=
  if n <? u64_modulus then inr n else inl (resource_exhausted "key count overflow").

(** ** Requests and responses *)

Inductive KvRequest :=
| RqRegisterSession
| RqHead (namespace key : string)
| RqGet (namespace key : string)
| RqPut (client_id sequence : N) (namespace key : string) (body : Body) (if_match : string)
    (if_none_match : bool)
| RqDelete (client_id sequence : N) (namespace key : string) (if_match : string).

Record HeadResponse := mkHeadResponse {
  head_namespace : string; head_key : string; head_etag : string; head_generation : N; head_size : N }.

Record GetResponse := mkGetResponse {
  get_namespace : string; get_key : string; get_etag : string; get_generation : N; get_size : N;
  get_body : Body }.

Record StatusResponse := mkStatusResponse { st_node_id : NodeId; st_mode : string; st_key_count : N }.

Inductive KvResponse :=
| RsRegisterSession (r : RegisterSessionResponse)
| RsHead (r : HeadResponse)
| RsGet (r : GetResponse)
| RsPut (r : PutResponse)
| RsDelete (r : DeleteResponse).

Abbreviation Result := (ConnectError + KvApplyResult)%type.

(** What a proposal's receiver yields: the answer ([None] when another command took
    its place in the log), a dropped sender, or the timeout. *)
Inductive Wait := Answered (r : option Result) | Dropped | TimedOut.

Definition await (w : Wait) : Result :=
  match w with
  | Answered (Some r) => r
  | Answered None => inl (aborted "Raft proposal was superseded")
  | Dropped => inl (aborted "Raft proposal was dropped")
  | TimedOut => inl (unavailable "Raft proposal timed out")
  end.

(** ** Handlers *)

(** The part of [put] and [delete] before the proposal. *)
Definition put_command (client_id sequence : N) (namespace key : string) (body : Body)
    (if_match : string) (if_none_match : bool) : ConnectError + KvCommand :=
  let? _ := validate_mutation_request client_id sequence in
  let? _ := validate_put_preconditions if_match if_none_match in
  let? _ := validate_value body in
  let? _ := kv_name_new namespace key in
  inr (Put client_id sequence namespace key body if_match if_none_match).

Definition delete_command (client_id sequence : N) (namespace key : string) (if_match : string)
    : ConnectError + KvCommand :=
  let? _ := validate_mutation_request client_id sequence in
  let? _ := validate_etag if_match in
  let? _ := kv_name_new namespace key in
  inr (Delete client_id sequence namespace key if_match).

(** The command a handler proposes; [head] and [get] propose a read barrier. *)
Definition request_command (rq : KvRequest) : ConnectError + KvCommand :=
  match rq with
  | RqRegisterSession => inr RegisterSession
  | RqHead ns k | RqGet ns k => let? _ := kv_name_new ns k in inr ReadBarrier
  | RqPut c q ns k body im inm => put_command c q ns k body im inm
  | RqDelete c q ns k im => delete_command c q ns k im
  end.

Definition read_barrier (r : Result) : ConnectError + unit :=
  let? r := r in
  match r with
  | AReadBarrier => inr tt
  | ARegisterSession _ | APut _ | ADelete _ => inl (internal "Raft read barrier mismatch")
  end.

Definition register_session (r : Result) : ConnectError + RegisterSessionResponse :=
  let? r := r in
  match r with
  | ARegisterSession response => inr response
  | APut _ | ADelete _ | AReadBarrier => inl (internal "Raft session command mismatch")
  end.

Definition put (r : Result) : ConnectError + PutResponse :=
  let? r := r in
  match r with
  | APut response => inr response
  | ARegisterSession _ | ADelete _ | AReadBarrier => inl (internal "Raft put command mismatch")
  end.

Definition delete_key (r : Result) : ConnectError + DeleteResponse :=
  let? r := r in
  match r with
  | ADelete response => inr response
  | ARegisterSession _ | APut _ | AReadBarrier => inl (internal "Raft delete command mismatch")
  end.

Definition head (s : KvState) (namespace key : string) (r : Result) : ConnectError + HeadResponse :=
  let? name := kv_name_new namespace key in
  let? _ := read_barrier r in
  match kv_entries s !! name with
  | None => inl key_not_found
  | Some record =>
      let? size := body_len (rec_body record) in
      inr (mkHeadResponse (nm_namespace name) (nm_key name) (rec_etag record) (rec_generation record) size)
  end.

Definition get (s : KvState) (namespace key : string) (r : Result) : ConnectError + GetResponse :=
  let? name := kv_name_new namespace key in
  let? _ := read_barrier r in
  match kv_entries s !! name with
  | None => inl key_not_found
  | Some record =>
      let? size := body_len (rec_body record) in
      inr (mkGetResponse (nm_namespace name) (nm_key name) (rec_etag record) (rec_generation record) size
             (rec_body record))
  end.

Definition finish_request (s : KvState) (rq : KvRequest) (r : Result) : ConnectError + KvResponse :=
  match rq with
  | RqRegisterSession => let? x := register_session r in inr (RsRegisterSession x)
  | RqHead ns k => let? x := head s ns k r in inr (RsHead x)
  | RqGet ns k => let? x := get s ns k r in inr (RsGet x)
  | RqPut _ _ _ _ _ _ _ => let? x := put r in inr (RsPut x)
  | RqDelete _ _ _ _ _ => let? x := delete_key r in inr (RsDelete x)
  end.

Definition mode (n : RaftNode) : string :=
  if is_leader n then "leader"
  else if is_candidate n then "candidate"
  else if is_precandidate n then "precandidate"
  else "follower".

(** ** The service on its runtime *)

Section Service.

Context {Addr : Type} `{!EqDecision Addr} (addr_text : Addr → string).
Context {Bytes : Type} (encode : PersistentDelta → option Bytes).
Context (wal_text : string).
Context (encode_command : KvCommand → option bytes) (decode_command : bytes → option KvCommand).

Definition store_error_text (e : StoreError) : string :=
  match e with
  | SEWal => wal_text
  | SEEncode => "failed to encode Raft persistent state"
  | SEDecode => "failed to decode Raft persistent state"
  | UnexpectedKind found => "unexpected WAL record kind " +:+ pretty found
  | TermRegression previous next =>
      "Raft WAL term regressed from " +:+ pretty previous +:+ " to " +:+ pretty next
  | InvalidTruncation index last_index =>
      "Raft WAL truncation index " +:+ pretty index +:+ " exceeds durable log end " +:+ pretty last_index
  | NoncontiguousEntry expected found =>
      "Raft WAL entry index " +:+ pretty found +:+ " is not the expected index " +:+ pretty expected
  | SnapshotUnsupported => "snapshot persistence is not implemented"
  end.

Definition runtime_error_text (e : RuntimeError Addr) : string :=
  match e with
  | IdentityMismatch n c => "node id " +:+ node_text n +:+ " does not match consensus id " +:+ node_text c
  | InvalidSelfPeer n a =>
      "cluster peers do not map node " +:+ node_text n +:+ " to its Raft address " +:+ addr_text a
  | DuplicatePeerAddress a => "cluster peers contain duplicate Raft address " +:+ addr_text a
  | StoreFailed e => store_error_text e
  | SnapshotTransportUnsupported => "Raft snapshot transport is not implemented"
  | UnknownPeer p => "Raft emitted a message for unknown peer " +:+ node_text p
  | Failed => "Raft runtime previously failed"
  end.

Definition runtime_connect_error (e : RuntimeError Addr) : ConnectError :=
  internal ("Raft runtime failed: " +:+ runtime_error_text e).

Definition apply_command (s : KvState) (cmd : Command) : KvState * Result :=
  match decode_command (cmd_bytes cmd) with
  | None => (s, inl (internal "invalid Raft command payload"))
  | Some command => kv_apply s command
  end.

Local Abbreviation Rt := (RaftRuntime Addr Bytes KvState).
Local Abbreviation Out := (Output Result).

Definition lift_propose_error (e : RuntimeProposeError (Addr := Addr)) : ConnectError :=
  match e with
  | RPRuntime e => runtime_connect_error e
  | RPIdExhausted => resource_exhausted "proposal id space exhausted"
  | RPPropose e => propose_error e
  end.

(** [propose] up to the wait. *)
Definition runtime_propose (wal_ok : bool) (rt : Rt) (command : KvCommand)
    : option (Rt * Out * (ConnectError + LogIndex * N)) :=
  match encode_command command with
  | Some bytes =>
      let* (rt, out, r) := propose encode apply_command wal_ok rt bytes in
      Some (rt, out, match r with inl e => inl (lift_propose_error e) | inr p => inr p end)
  | None =>
      if rt_failed rt then Some (rt, mkOutput [] [], inl (lift_propose_error (RPRuntime Failed)))
      else match u64_checked_add (rt_next_proposal_id rt) 1 with
           | None => Some (rt, mkOutput [] [], inl (lift_propose_error RPIdExhausted))
           | Some next =>
               Some (mkRaftRuntime (rt_config rt) (rt_node rt) (rt_store rt) (rt_state rt) (rt_waiters rt)
                       next (rt_failed rt), mkOutput [] [], inl (internal "failed to encode Raft command"))
           end
  end.

(** A handler up to its wait. *)
Definition begin_request (wal_ok : bool) (rt : Rt) (rq : KvRequest)
    : option (Rt * Out * (ConnectError + LogIndex * N)) :=
  match request_command rq with
  | inl e => Some (rt, mkOutput [] [], inl e)
  | inr command => runtime_propose wal_ok rt command
  end.

(** A handler after its wait: the proposal is removed from the waiters, then the
    answer is read. *)
Definition end_request (rt : Rt) (rq : KvRequest) (p : LogIndex * N) (w : Wait)
    : Rt * (ConnectError + KvResponse) :=
  let rt := cleanup_finish rt p.1 p.2 in (rt, finish_request (rt_state rt) rq (await w)).

Definition status (rt : Rt) : ConnectError + StatusResponse :=
  let? n := usize_to_u64 (N.of_nat (size (kv_entries (rt_state rt)))) in
  inr (mkStatusResponse (node_id (rt_config rt)) (mode (rt_node rt)) n).

(** ** Histories *)

Inductive ServiceOp :=
| OpStep (wal_ok : bool) (m : Message)
| OpTick (wal_ok : bool)
| OpBegin (wal_ok : bool) (rq : KvRequest)
| OpFinish (rq : KvRequest) (p : LogIndex * N) (w : Wait).

(** A runtime with the requests it accepted, by proposal id, and the answers it
    sent to their proposals. *)
Record History := mkHistory { h_rt : Rt; h_started : list (N * KvRequest); h_answers : list (N * option Result) }.

Definition service_step (h : History) (op : ServiceOp) : option History :=
  match op with
  | OpStep wal_ok m =>
      let* (rt, out, _) := runtime_step encode apply_command wal_ok (h_rt h) m in
      Some (mkHistory rt (h_started h) (h_answers h ++ completed out))
  | OpTick wal_ok =>
      let* (rt, out, _) := tick_once encode apply_command wal_ok (h_rt h) in
      Some (mkHistory rt (h_started h) (h_answers h ++ completed out))
  | OpBegin wal_ok rq =>
      let* (rt, out, r) := begin_request wal_ok (h_rt h) rq in
      let started := match r with inr (_, id) => h_started h ++ [(id, rq)] | inl _ => h_started h end in
      Some (mkHistory rt started (h_answers h ++ completed out))
  | OpFinish rq p w =>
      Some (mkHistory (end_request (h_rt h) rq p w).1 (h_started h) (h_answers h))
  end.

Fixpoint service_run (h : History) (ops : list ServiceOp) : option History :=
  match ops with
  | [] => Some h
  | op :: ops => let* h := service_step h op in service_run h ops
  end.

End Service.

Arguments History Addr Bytes : clear implicits.

(** ** What the loop over the committed entries answers *)

Section Answers.

Context {Addr Bytes State Res : Type} (apply_command : State → Command → State * Res).

Local Abbreviation Rt := (RaftRuntime Addr Bytes State).

Definition apply_cmds (s : State) (cmds : list Command) : State :=
  fold_left (fun s c => (apply_command s c).1) cmds s.

Definition waiters_wf (ws : gmap LogIndex PendingProposal) : Prop :=
  ∀ i j p q, ws !! i = Some p → ws !! j = Some q → pp_id p = pp_id q → i = j.

(** The answer [x] to the proposal [p] is the result of its command, applied as one
    of the commands [cmds] from the state [s], or tells that it was superseded. *)
Definition answer_ok (s : State) (cmds : list Command) (p : PendingProposal) (x : option Res) : Prop :=
  match x with
  | None => True
  | Some r => ∃ pre post, cmds = pre ++ mkCommand (pp_command p) :: post ∧
                          r = (apply_command (apply_cmds s pre) (mkCommand (pp_command p))).2
  end.

(** [rt'] comes from [rt] by applying [cmds], which sends the answers [new]. *)
Record answers_from (rt rt' : Rt) (cmds : list Command) (new : list (N * option Res)) : Prop := {
  af_state : rt_state rt' = apply_cmds (rt_state rt) cmds;
  af_waiters : rt_waiters rt' ⊆ rt_waiters rt;
  af_next : rt_next_proposal_id rt' = rt_next_proposal_id rt;
  af_new : ∀ k x, (k, x) ∈ new → ∃ i p, rt_waiters rt !! i = Some p ∧ pp_id p = k ∧
    rt_waiters rt' !! i = None ∧ answer_ok (rt_state rt) cmds p x;
  af_nodup : waiters_wf (rt_waiters rt) → NoDup (map fst new)
}.

Lemma af_refl rt rt' :
  rt_state rt' = rt_state rt → rt_waiters rt' = rt_waiters rt →
  rt_next_proposal_id rt' = rt_next_proposal_id rt → answers_from rt rt' [] [].
Proof. intros Hs Hw Hn. split; [done | by rewrite Hw | done | by intros ? ? ?%elem_of_nil | constructor]. Qed.

Lemma waiters_wf_subset ws ws' : ws' ⊆ ws → waiters_wf ws → waiters_wf ws'.
Proof. intros Hsub Hwf i j p q Hi Hj. apply Hwf; by eapply lookup_weaken. Qed.

Lemma apply_cmds_app s c1 c2 : apply_cmds s (c1 ++ c2) = apply_cmds (apply_cmds s c1) c2.
Proof. apply fold_left_app. Qed.

Lemma answer_ok_app_l s c1 c2 p x : answer_ok s c1 p x → answer_ok s (c1 ++ c2) p x.
Proof.
  destruct x as [r|]; [|done]. intros (pre & post & -> & ->). exists pre, (post ++ c2). by rewrite <- app_assoc.
Qed.

Lemma answer_ok_app_r s c1 c2 p x : answer_ok (apply_cmds s c1) c2 p x → answer_ok s (c1 ++ c2) p x.
Proof.
  destruct x as [r|]; [|done]. intros (pre & post & -> & ->). exists (c1 ++ pre), post.
  by rewrite <- app_assoc, apply_cmds_app.
Qed.

Lemma af_trans rt1 rt2 rt3 c1 c2 n1 n2 :
  answers_from rt1 rt2 c1 n1 → answers_from rt2 rt3 c2 n2 → answers_from rt1 rt3 (c1 ++ c2) (n1 ++ n2).
Proof.
  intros [Hs1 Hw1 Hn1 Ha1 Hd1] [Hs2 Hw2 Hn2 Ha2 Hd2]. split.
  - by rewrite apply_cmds_app, Hs2, Hs1.
  - by etrans.
  - by rewrite Hn2.
  - intros k x [(i & p & Hi & Hk & Hgone & Hok)%Ha1|(i & p & Hi & Hk & Hgone & Hok)%Ha2]%elem_of_app; exists i, p.
    + split_and!; [done | done | by eapply lookup_weaken_None | by apply answer_ok_app_l].
    + rewrite Hs1 in Hok. split_and!; [by eapply lookup_weaken | done | done | by apply answer_ok_app_r].
  - intros Hwf. rewrite map_app. apply NoDup_app. split_and!; [by apply Hd1 | | by apply Hd2; eapply waiters_wf_subset].
    intros k ((? & x) & -> & (i & p & Hi & Hk & Hgone & _)%Ha1)%list_elem_of_fmap
             ((? & y) & Hkk & (j & q & Hj & Hk' & _ & _)%Ha2)%list_elem_of_fmap.
    cbn in *. assert (i = j) as -> by (eapply Hwf; [done | by eapply lookup_weaken | congruence]). congruence.
Qed.

Lemma apply_entry_answers rt entry :
  answers_from rt (apply_entry apply_command rt entry).1 [ce_command entry] (apply_entry apply_command rt entry).2.
Proof.
  unfold apply_entry. destruct (apply_command _ _) as [s r] eqn:E. unfold complete_waiter.
  destruct (rt_waiters rt !! ce_index entry) as [p|] eqn:Hp; cbn [fst snd].
  - split; cbn; [by rewrite E | apply delete_subseteq | done | | intros _; apply NoDup_singleton].
    intros k x [= -> ->]%list_elem_of_singleton. exists (ce_index entry), p.
    split_and!; [done | done | apply lookup_delete_eq |]. unfold answer_ok.
    case_bool_decide as Hc; [|done]. exists [], []. rewrite Hc. cbn. destruct (ce_command entry). cbn in *. by rewrite E.
  - split; cbn; [by rewrite E | done | done | by intros ? ? ?%elem_of_nil | constructor].
Qed.

Lemma apply_loop_answers fuel : ∀ rt old,
  ∃ cmds new, (apply_loop apply_command fuel rt old).2 = old ++ new ∧
              answers_from rt (apply_loop apply_command fuel rt old).1 cmds new.
Proof.
  induction fuel as [|fuel IH]; intros rt old; cbn [apply_loop].
  { exists [], []. split; [by rewrite app_nil_r | by apply af_refl]. }
  destruct (committed (rt_node rt)) as [|entry rest].
  { exists [], []. split; [by rewrite app_nil_r | by apply af_refl]. }
  pose proof (apply_entry_answers rt entry) as Hent. destruct (apply_entry _ _ _) as [rt1 n1].
  destruct (IH rt1 (old ++ n1)) as (cmds & new & Heq & Haf). exists ([ce_command entry] ++ cmds), (n1 ++ new).
  rewrite Heq, <- app_assoc. split; [done | by eapply af_trans].
Qed.

Context (encode : PersistentDelta → option Bytes).

Lemma handle_effects_answers wal_ok rt e rt' out err :
  handle_effects encode apply_command wal_ok rt e = Some (rt', out, err) →
  ∃ cmds, answers_from rt rt' cmds (completed out) ∧
    (err ≠ None → completed out = [] ∧ rt_waiters rt' = rt_waiters rt ∧ rt_state rt' = rt_state rt).
Proof.
  unfold handle_effects. intros H. opt_inv. destruct s as [se|store]; [opt_inv; exists []; split; [by apply af_refl | done] |].
  destruct (send_snapshots e); [|opt_inv; exists []; split; [by apply af_refl | done]].
  destruct (send_messages _ _) as [sent [se|]]; [opt_inv; exists []; split; [by apply af_refl | done] |].
  unfold apply_committed in H. set (rt1 := set_rt_store rt store) in *.
  destruct (apply_loop_answers (N.to_nat (commit_index (core (rt_node rt1)))) rt1 []) as (cmds & new & Heq & Haf).
  destruct (apply_loop _ _ _ _) as [rt2 done2]. cbn [fst snd app] in *. subst. opt_inv. exists cmds. split; [|done].
  apply (af_trans rt rt1 rt2 [] cmds [] new); [by apply af_refl | exact Haf].
Qed.

Lemma handle_or_fail_answers wal_ok rt n e rt' out err :
  handle_or_fail encode apply_command wal_ok (set_rt_node rt n) e = Some (rt', out, err) →
  ∃ cmds, answers_from rt rt' cmds (completed out).
Proof.
  unfold handle_or_fail. intros H. opt_inv. destruct (handle_effects_answers _ _ _ _ _ _ E) as (cmds & [] & _).
  exists cmds. split; by destruct o.
Qed.

Lemma runtime_step_answers wal_ok rt m rt' out err :
  runtime_step encode apply_command wal_ok rt m = Some (rt', out, err) → ∃ cmds, answers_from rt rt' cmds (completed out).
Proof.
  unfold runtime_step, step_locked. destruct (rt_failed rt); intros H; opt_inv; [exists []; by apply af_refl |].
  by eapply handle_or_fail_answers.
Qed.

Lemma tick_once_answers wal_ok rt rt' out err :
  tick_once encode apply_command wal_ok rt = Some (rt', out, err) → ∃ cmds, answers_from rt rt' cmds (completed out).
Proof.
  unfold tick_once, tick_locked. destruct (rt_failed rt); intros H; opt_inv; [exists []; by apply af_refl |].
  by eapply handle_or_fail_answers.
Qed.

(** A proposal takes the next id; it is a waiter while the effects are handled, and
    stays one only when the proposal succeeds. *)
Lemma propose_answers wal_ok rt bs rt' out res :
  propose encode apply_command wal_ok rt bs = Some (rt', out, res) →
  match res with
  | inl _ => rt_state rt' = rt_state rt ∧ rt_waiters rt' ⊆ rt_waiters rt ∧ completed out = [] ∧
             rt_next_proposal_id rt ≤ rt_next_proposal_id rt'
  | inr (index, k) =>
      k = rt_next_proposal_id rt ∧
      ∃ rt1 cmds, answers_from rt1 rt' cmds (completed out) ∧ rt_state rt1 = rt_state rt ∧
        rt_waiters rt1 = <[index := mkPendingProposal k bs]> (rt_waiters rt) ∧ rt_next_proposal_id rt1 = k + 1
  end.
Proof.
  unfold propose, propose_locked. intros H. destruct (rt_failed rt); [opt_inv; split_and!; done |].
  unfold u64_checked_add in H. destruct (_ <? _); [|opt_inv; split_and!; done].
  opt_inv. destruct s as [pe|[index eff]]; [opt_inv; split_and!; cbn; [done | done | done | lia] |].
  opt_inv. destruct (handle_effects_answers _ _ _ _ _ _ E0) as (cmds & Haf & Herr).
  destruct o as [e|]; opt_inv.
  - destruct (Herr ltac:(done)) as (Hc & Hw & Hs). destruct Haf as [_ _ Hn _ _]. cbn in *.
    split_and!; [done | | done | lia]. unfold remove_pending. rewrite Hw, lookup_insert_eq. cbn [pp_id].
    rewrite N.eqb_refl, delete_insert_eq. apply delete_subseteq.
  - split; [done |]. eexists _, cmds. split; [exact Haf |]. by cbn.
Qed.

End Answers.

(** ** Histories of a runtime *)

Section Histories.

Context {Addr : Type} `{!EqDecision Addr} (addr_text : Addr → string).
Context {Bytes : Type} (encode : PersistentDelta → option Bytes) (wal_text : string).
Context (encode_command : KvCommand → option bytes) (decode_command : bytes → option KvCommand).

(** Decoding inverts encoding. *)
Definition codec_ok : Prop := ∀ c bs, encode_command c = Some bs → decode_command bs = Some c.

Local Abbreviation cmds_from := (apply_cmds (apply_command decode_command)).

(** The proposal [k] with the bytes [bs] belongs to an accepted request. *)
Definition started_as (started : list (N * KvRequest)) (k : N) (bs : bytes) : Prop :=
  ∃ rq c, (k, rq) ∈ started ∧ request_command rq = inr c ∧ encode_command c = Some bs.

Record history_inv (s0 : KvState) (applied : list Command) (h : History Addr Bytes) : Prop := {
  hi_state : rt_state (h_rt h) = cmds_from s0 applied;
  hi_wf : waiters_wf (rt_waiters (h_rt h));
  hi_waiters : ∀ i p, rt_waiters (h_rt h) !! i = Some p →
    pp_id p < rt_next_proposal_id (h_rt h) ∧ (pp_id p ∉ map fst (h_answers h)) ∧
    started_as (h_started h) (pp_id p) (pp_command p);
  hi_answers : ∀ k x, (k, x) ∈ h_answers h → k < rt_next_proposal_id (h_rt h) ∧
    ∃ p, pp_id p = k ∧ started_as (h_started h) k (pp_command p) ∧
         answer_ok (apply_command decode_command) s0 applied p x;
  hi_nodup : NoDup (map fst (h_answers h))
}.

(** Operations that apply commands to a runtime preserve the invariant. *)
Lemma history_inv_answers s0 applied h rt' cmds new :
  history_inv s0 applied h → answers_from (apply_command decode_command) (h_rt h) rt' cmds new →
  history_inv s0 (applied ++ cmds) (mkHistory rt' (h_started h) (h_answers h ++ new)).
Proof.
  intros [Hst Hwf Hws Han Hnd] [Hs Hsub Hn Hnew Hnd']. split; cbn [h_rt h_started h_answers].
  - by rewrite Hs, Hst, apply_cmds_app.
  - by eapply waiters_wf_subset.
  - intros i p Hp. pose proof (lookup_weaken _ _ _ _ Hp Hsub) as Hp0. destruct (Hws i p Hp0) as (Hid & Hfresh & Hok).
    rewrite Hn. split_and!; [done | | done]. rewrite map_app, not_elem_of_app. split; [done |].
    intros ((k & x) & Hk & (j & q & Hq & Hqk & Hgone & _)%Hnew)%list_elem_of_fmap. cbn in Hk.
    assert (i = j) as -> by (eapply Hwf; [done | done | congruence]). congruence.
  - intros k x [(Hk & p & Hp & Hstart & Hok)%Han|(i & p & Hp & Hk & _ & Hok)%Hnew]%elem_of_app; rewrite Hn.
    + split; [done |]. exists p. split_and!; [done | done | by apply answer_ok_app_l].
    + destruct (Hws i p Hp) as (Hid & _ & Hstart). rewrite Hk in Hid, Hstart. split; [done |].
      exists p. split_and!; [done | done |]. rewrite Hst in Hok. by apply answer_ok_app_r.
  - rewrite map_app. apply NoDup_app. split_and!; [done | | by apply Hnd'].
    intros k Hk ((? & x) & -> & (i & p & Hp & Hpk & _)%Hnew)%list_elem_of_fmap. cbn in *.
    destruct (Hws i p Hp) as (_ & Hfresh & _). by rewrite Hpk in Hfresh.
Qed.

Lemma started_as_app started k bs x : started_as started k bs → started_as (started ++ [x]) k bs.
Proof. intros (rq & c & ? & ?). exists rq, c. split; [by apply elem_of_app; left | done]. Qed.

(** A runtime that keeps its state and some of its waiters. *)
Lemma history_inv_shrink s0 applied h rt' :
  history_inv s0 applied h → rt_state rt' = rt_state (h_rt h) → rt_waiters rt' ⊆ rt_waiters (h_rt h) →
  rt_next_proposal_id (h_rt h) ≤ rt_next_proposal_id rt' →
  history_inv s0 applied (mkHistory rt' (h_started h) (h_answers h)).
Proof.
  intros [Hst Hwf Hws Han Hnd] Hs Hsub Hn. split; cbn [h_rt h_started h_answers]; [by rewrite Hs | | | | done].
  - by eapply waiters_wf_subset.
  - intros i p Hp. destruct (Hws i p) as (? & ? & ?); [by eapply lookup_weaken |]. split_and!; [lia | done | done].
  - intros k x Hx. destruct (Han k x Hx) as [? ?]. split; [lia | done].
Qed.

(** A new waiter for the request that takes the next proposal id. *)
Lemma history_inv_start s0 applied h rt1 index bs rq c :
  history_inv s0 applied h → request_command rq = inr c → encode_command c = Some bs →
  let k := rt_next_proposal_id (h_rt h) in
  rt_state rt1 = rt_state (h_rt h) → rt_waiters rt1 = <[index := mkPendingProposal k bs]> (rt_waiters (h_rt h)) →
  rt_next_proposal_id rt1 = k + 1 →
  history_inv s0 applied (mkHistory rt1 (h_started h ++ [(k, rq)]) (h_answers h)).
Proof.
  intros [Hst Hwf Hws Han Hnd] Hrq Henc k Hs Hw Hn. split; cbn [h_rt h_started h_answers]; [by rewrite Hs | | | | done].
  - intros i j p q Hi Hj Hpq. rewrite Hw in Hi, Hj.
    apply lookup_insert_Some in Hi as [[<- <-]|[? Hi]], Hj as [[<- <-]|[? Hj]]; [done | | |by eapply Hwf].
    + destruct (Hws _ _ Hj) as (? & _). cbn in Hpq. unfold k in Hpq. lia.
    + destruct (Hws _ _ Hi) as (? & _). cbn in Hpq. unfold k in Hpq. lia.
  - intros i p Hp. rewrite Hw in Hp. apply lookup_insert_Some in Hp as [[<- <-]|[? Hp]]; rewrite Hn; cbn [pp_id pp_command].
    + split_and!; [lia | |].
      * intros ((k' & x) & Hk & [Hlt _]%Han)%list_elem_of_fmap. unfold k in Hk. cbn in Hk. lia.
      * exists rq, c. split; [|done]. apply elem_of_app. right. apply list_elem_of_here.
    + destruct (Hws _ _ Hp) as (? & ? & ?). split_and!; [unfold k; lia | done | by apply started_as_app].
  - intros k' x Hx. destruct (Han _ _ Hx) as (? & p & ? & ? & ?). rewrite Hn. split; [unfold k; lia |].
    exists p. split_and!; [done | by apply started_as_app | done].
Qed.

Lemma service_step_inv s0 applied h op h' :
  history_inv s0 applied h →
  service_step addr_text encode wal_text encode_command decode_command h op = Some h' →
  ∃ cmds, history_inv s0 (applied ++ cmds) h'.
Proof.
  intros Hinv. destruct op as [ok m|ok|ok rq|rq q w]; cbn [service_step]; intros H.
  - opt_inv. destruct (runtime_step_answers _ _ _ _ _ _ _ _ E) as [cmds Haf]. exists cmds. by apply history_inv_answers.
  - opt_inv. destruct (tick_once_answers _ _ _ _ _ _ _ E) as [cmds Haf]. exists cmds. by apply history_inv_answers.
  - unfold begin_request in H. destruct (request_command rq) as [e|c] eqn:Erq.
    { opt_inv. cbn [completed]. exists []. rewrite !app_nil_r. by apply history_inv_shrink. }
    unfold runtime_propose in H. destruct (encode_command c) as [bs|] eqn:Ec.
    + destruct (propose _ _ _ _ _) as [[[rt out] r]|] eqn:E; [|done]. apply propose_answers in E. destruct r as [pe|[i k]].
      * destruct E as (Hs & Hw & Hc & Hn). opt_inv. exists []. rewrite Hc, !app_nil_r. by apply history_inv_shrink.
      * destruct E as (-> & rt1 & cmds & Haf & Hs & Hw & Hn). opt_inv. exists cmds.
        apply (history_inv_answers s0 applied (mkHistory rt1 _ (h_answers h))); [|exact Haf].
        by eapply history_inv_start.
    + exists []. rewrite app_nil_r. destruct (rt_failed _); [opt_inv; cbn [completed]; rewrite app_nil_r; by apply history_inv_shrink |].
      unfold u64_checked_add in H. destruct (_ <? _); opt_inv; cbn [completed]; rewrite app_nil_r; apply history_inv_shrink; cbn; try done; lia.
  - opt_inv. exists []. rewrite app_nil_r. apply history_inv_shrink; [done | done | | done]. cbn. unfold remove_pending.
    destruct (_ !! _) as [p|]; [|done]. destruct (_ =? _); [apply delete_subseteq | done].
Qed.

Lemma service_run_inv ops : ∀ s0 applied h h',
  history_inv s0 applied h →
  service_run addr_text encode wal_text encode_command decode_command h ops = Some h' →
  ∃ cmds, history_inv s0 cmds h'.
Proof.
  induction ops as [|op ops IH]; intros s0 applied h h' Hinv; cbn [service_run]; intros H; [opt_inv; by exists applied |].
  destruct (service_step _ _ _ _ _ _ _) as [h1|] eqn:E; [|done].
  destruct (service_step_inv _ _ _ _ _ Hinv E) as [cmds Hinv1]. by eapply IH.
Qed.

End Histories.

(** ** Answers of the state machine *)

(** The answer has the kind of the command. *)
Definition answer_kind (c : KvCommand) (a : KvApplyResult) : bool :=
  match c, a with
  | RegisterSession, ARegisterSession _ | ReadBarrier, AReadBarrier
  | Put _ _ _ _ _ _ _, APut _ | Delete _ _ _ _ _, ADelete _ => true
  | _, _ => false
  end.

Lemma kv_apply_kind s c a : (kv_apply s c).2 = inr a → answer_kind c a = true.
Proof.
  destruct c as [| |c q ns k body im inm|c q ns k im]; cbn [kv_apply].
  - destruct (take_client_id s) as [s' [e|n]]; [done |]. by intros [= <-].
  - by intros [= <-].
  - unfold apply_put, execute_put, reject. intros H. by repeat (case_match; simplify_eq/=).
  - unfold apply_delete, execute_delete, reject. intros H. by repeat (case_match; simplify_eq/=).
Qed.

(** Reading the answer of its own command, a handler passes on the error, or finds
    no key, or responds: the answer never has the wrong kind. *)
Lemma finish_request_errors s s1 rq c e :
  kv_inv s → request_command rq = inr c → finish_request s rq (kv_apply s1 c).2 = inl e →
  (kv_apply s1 c).2 = inl e ∨ e = key_not_found.
Proof.
  intros Hinv Hrq. destruct (kv_apply s1 c).2 as [e'|a] eqn:Ea.
  { destruct rq; cbn in *; unfold head, get; intros; repeat case_match; simplify_eq/=; first [by left | congruence]. }
  apply kv_apply_kind in Ea. assert (∀ n v, kv_entries s !! n = Some v → body_len (rec_body v) = inr (vlen (rec_body v))) as Hlen.
  { intros n v Hv. destruct (ki_entries _ Hinv _ _ Hv) as (_ & _ & Hb & _). unfold body_len, MAX_VALUE_BYTES in *.
    destruct (N.ltb_spec (vlen (rec_body v)) u64_modulus); [done | ulia]. }
  destruct rq; cbn in *; unfold put_command, delete_command, head, get, read_barrier in *;
    intros; repeat case_match; simplify_eq/=; first [done | by right | congruence | by erewrite Hlen in * by done].
Qed.

(** The command of a request, before the handler's checks. *)
Definition unchecked_command (rq : KvRequest) : KvCommand :=
  match rq with
  | RqRegisterSession => RegisterSession
  | RqHead _ _ | RqGet _ _ => ReadBarrier
  | RqPut c q ns k body im inm => Put c q ns k body im inm
  | RqDelete c q ns k im => Delete c q ns k im
  end.

Section Theorems.

Context {Addr : Type} `{!EqDecision Addr} (addr_text : Addr → string).
Context {Bytes : Type} (encode : PersistentDelta → option Bytes) (wal_text : string).
Context (encode_command : KvCommand → option bytes) (decode_command : bytes → option KvCommand).

(** C22: one answer, the right one. In every history of a runtime that starts without
    waiting proposals (messages, ticks, disk failures, requests and their ends in any
    order) no proposal is answered twice, and there is a sequence of commands whose
    application gives the state of the node such that every result delivered to a
    proposal is the result of the command of its own request at its place in that
    sequence; the handler turns it into a response, or passes on its error, or finds
    no key, but never sees an answer of the wrong kind. *)
Theorem service_answers rt ops h :
  codec_ok encode_command decode_command → rt_waiters rt = ∅ →
  service_run addr_text encode wal_text encode_command decode_command (mkHistory rt [] []) ops = Some h →
  NoDup (map fst (h_answers h)) ∧
  ∃ applied, rt_state (h_rt h) = apply_cmds (apply_command decode_command) (rt_state rt) applied ∧
    ∀ k r, (k, Some r) ∈ h_answers h →
      ∃ rq c bs pre post, (k, rq) ∈ h_started h ∧ request_command rq = inr c ∧ encode_command c = Some bs ∧
        applied = pre ++ mkCommand bs :: post ∧
        r = (kv_apply (apply_cmds (apply_command decode_command) (rt_state rt) pre) c).2 ∧
        ∀ s e, kv_inv s → finish_request s rq r = inl e → r = inl e ∨ e = key_not_found.
Proof.
  intros Hcodec Hw Hrun. assert (history_inv encode_command decode_command (rt_state rt) [] (mkHistory rt [] [])) as H0.
  { split; cbn; [done | | | by intros ? ? ?%elem_of_nil | constructor]; rewrite Hw; by intros i *; rewrite ?lookup_empty. }
  destruct (service_run_inv _ _ _ _ _ _ _ _ _ _ H0 Hrun) as [applied [Hst _ _ Han Hnd]]. split; [done |]. exists applied.
  split; [done |]. intros k r Hr. destruct (Han _ _ Hr) as (_ & p & Hk & (rq & c & Hrq & Hc & Henc) & Hok).
  cbn in Hok. destruct Hok as (pre & post & -> & Hres). unfold apply_command at 1 in Hres. cbn [cmd_bytes] in Hres.
  rewrite (Hcodec _ _ Henc) in Hres. exists rq, c, (pp_command p), pre, post. split_and!; try done.
  intros s e Hinv. rewrite Hres. by apply finish_request_errors.
Qed.

(** Requests are checked before they are proposed. A handler proposes only
    commands whose form the state machine accepts; a request it refuses leaves the
    runtime as it was, and the refused command would be refused in every state with
    the same error and without effect. *)
Theorem requests_checked_first (rt : RaftRuntime Addr Bytes KvState) wal_ok rq :
  match request_command rq with
  | inr c => c = unchecked_command rq ∧ validate_command c = inr tt
  | inl e =>
      begin_request addr_text encode wal_text encode_command decode_command wal_ok rt rq =
        Some (rt, mkOutput [] [], inl e) ∧
      (unchecked_command rq ≠ ReadBarrier → ∀ s, kv_apply s (unchecked_command rq) = (s, inl e))
  end.
Proof.
  destruct (request_command rq) as [e|c] eqn:E.
  - split; [unfold begin_request; by rewrite E |]. intros Hb s. apply kv_apply_invalid.
    destruct rq; cbn in *; unfold put_command, delete_command in E; repeat case_match; by simplify_eq/=.
  - destruct rq; cbn in *; unfold put_command, delete_command in E; repeat case_match; simplify_eq/=;
      by rewrite ?H, ?H0, ?H1, ?H2.
Qed.

End Theorems.

(** ** A single node that serves a request *)

Definition demo_encode (c : KvCommand) : option bytes :=
  match c with RegisterSession => Some [Byte.x01] | ReadBarrier => Some [Byte.x02] | _ => None end.

Definition demo_decode (bs : bytes) : option KvCommand :=
  match bs with [Byte.x01] => Some RegisterSession | [Byte.x02] => Some ReadBarrier | _ => None end.

Lemma demo_command_codec : codec_ok demo_encode demo_decode.
Proof. intros [] bs [= <-]; reflexivity. Qed.

Definition demo_config : NodeConfig unit := mkNodeConfig 1 tt [(1, tt)] (raft_config 1).

Definition demo_runtime : RaftRuntime unit PersistentDelta KvState :=
  match open_runtime (fun d => Some d) demo_config [] kv_new with
  | Some (inr rt) => rt
  | _ => mkRaftRuntime demo_config
           (mkRaftNode (core_new (raft_config 1) [1]) (RFollower (Follower.mkFollower None 0 None)))
           (mkRaftStore [] default_persistent) kv_new ∅ 1 false
  end.

Definition demo_ops : list ServiceOp :=
  replicate 400 (OpTick true) ++ [OpBegin true RqRegisterSession].

Local Abbreviation demo_history :=
  (service_run (fun _ : unit => "") (fun d : PersistentDelta => Some d) "" demo_encode demo_decode
     (mkHistory demo_runtime [] []) demo_ops).

Lemma demo_waiters : rt_waiters demo_runtime = ∅.
Proof. vm_compute. reflexivity. Qed.

Lemma service_answers_witness :
  ∃ h, demo_history = Some h ∧ h_answers h = [(1, Some (inr (ARegisterSession (mkRegisterSessionResponse 1))))] ∧
    NoDup (map fst (h_answers h)) ∧
    ∃ applied, rt_state (h_rt h) = apply_cmds (apply_command demo_decode) (rt_state demo_runtime) applied ∧
      ∀ k r, (k, Some r) ∈ h_answers h →
        ∃ rq c bs pre post, (k, rq) ∈ h_started h ∧ request_command rq = inr c ∧ demo_encode c = Some bs ∧
          applied = pre ++ mkCommand bs :: post ∧
          r = (kv_apply (apply_cmds (apply_command demo_decode) (rt_state demo_runtime) pre) c).2 ∧
          ∀ s e, kv_inv s → finish_request s rq r = inl e → r = inl e ∨ e = key_not_found.
Proof.
  assert (option_map h_answers demo_history = Some [(1, Some (inr (ARegisterSession (mkRegisterSessionResponse 1))))])
    as Ha by (vm_compute; reflexivity).
  destruct demo_history as [h|] eqn:E; [|discriminate Ha]. exists h. split; [reflexivity |].
  split; [by injection Ha |].
  exact (service_answers (fun _ => "") (fun d => Some d) "" demo_encode demo_decode demo_runtime demo_ops h
           demo_command_codec demo_waiters E).
Defined.
