(* ===== verification/Register.v ===== *)
(** * The register client

    The client of jepsen/src/cloud9/jepsen.clj, which uses the KV service as a
    compare-and-set register: [get-value!], [put-value!], [read-op], [cas-op] and
    [invoke!] of [KvClient], with the retries of [with-leader-retry!]. Each attempt
    of an RPC meets a [Turn] of the cluster: what the replicated log gains before
    and after, which node is found to lead, and what becomes of the request (refused,
    applied and answered, applied with the answer lost, left pending and applied
    later, even after the client has gone on to other operations, or answered with the
    result of another entry with the same command). The handlers and the state machine
    are those of Service.v and Kv.v.

    JSON with the base64 encoding of bodies, and the HTTP status of an error code, are
    parameters. The theorem says when the operations are atomic, that is linearize.

    That there is one log, and that an answer is the result of the request's command at
    some place of it, is what Replica.v shows of the cluster (for executions whose append
    requests are all covered). The place need not be the entry of the request: a node
    completes a waiting request with any entry at its index whose command has the same
    bytes ([PendingProposal::complete]). A request is [Served] when it was completed by its own
    entry, and [Taken] when a deposed leader completed it with another one, which may be
    older than the request. *)

From stdpp Require Import pretty.
From Stdlib Require Import Sorted.
From S2P Require Import Prelude Membership Log Event Core Role Leader Node Runtime Kv Service.

Open Scope N_scope.

(** ** The cluster as the client meets it *)

(** An RPC fails without a status, or with the error of the service. *)
Inductive RpcError := NoStatus | Status (e : ConnectError).

(** A command enters the log: one of another client, or an earlier proposal that
    was left pending. *)
Inductive Arrival := Other (cmd : KvCommand) | Late (i : nat).

(** What becomes of a request. With [now = false] its command is left pending. With
    [Taken] the entry at [place] completes it on a node that has applied [applied] entries;
    its own entry is discarded. *)
Inductive Fate :=
| Unheard (now : bool)
| Refused (e : ProposeError)
| Broken (now : bool) (text : string)
| Superseded
| Abandoned (now timed_out : bool)
| Served
| Taken (place applied : nat).

Record Turn := mkTurn {
  t_leader : option NodeId; t_before : list Arrival; t_fate : Fate; t_after : list Arrival }.

Record World := mkWorld { w_log : list KvCommand; w_pending : list KvCommand; w_turns : list Turn }.

(** The replicated state is the state machine run on the log. *)
Definition kv_state (w : World) : KvState := kv_run kv_new (w_log w).

Definition append (w : World) (cmd : KvCommand) : World :=
  mkWorld (w_log w ++ [cmd]) (w_pending w) (w_turns w).

Definition arrive (w : World) (a : Arrival) : World :=
  match a with
  | Other cmd => append w cmd
  | Late i =>
      match w_pending w !! i with
      | Some cmd => mkWorld (w_log w ++ [cmd]) (delete i (w_pending w)) (w_turns w)
      | None => w
      end
  end.

Definition arrivals (w : World) (l : list Arrival) : World := fold_left arrive l w.

Definition submit (now : bool) (w : World) (cmd : KvCommand) : World :=
  if now then append w cmd else mkWorld (w_log w) (w_pending w ++ [cmd]) (w_turns w).

(** The response of a node that has applied the first [n] entries. *)
Definition respond_at (n : nat) (w : World) (rq : KvRequest) (r : Result) : World * (RpcError + KvResponse) :=
  (w, match finish_request (kv_run kv_new (take n (w_log w))) rq r with inl e => inl (Status e) | inr x => inr x end).

Definition respond (w : World) (rq : KvRequest) (r : Result) : World * (RpcError + KvResponse) :=
  respond_at (length (w_log w)) w rq r.

(** The result of a command at a place of the log. *)
Definition result_at (w : World) (i : nat) (cmd : KvCommand) : Result :=
  (kv_apply (kv_run kv_new (take i (w_log w))) cmd).2.

#[export] Instance kv_command_eq_decision : EqDecision KvCommand.
Proof. solve_decision. Defined.

(** The node's part of an RPC whose request has passed the handler's checks. *)
Definition serve (w : World) (rq : KvRequest) (cmd : KvCommand) (t : Turn)
    : World * (RpcError + KvResponse) :=
  match t_fate t with
  | Unheard now => (submit now w cmd, inl NoStatus)
  | Refused e => (w, inl (Status (propose_error e)))
  | Broken now text => (submit now w cmd, inl (Status (internal text)))
  | Superseded => respond w rq (await (Answered None))
  | Abandoned now timed_out =>
      respond (submit now w cmd) rq (await (if timed_out then TimedOut else Dropped))
  | Served =>
      respond (arrivals (append w cmd) (t_after t)) rq (await (Answered (Some (kv_apply (kv_state w) cmd).2)))
  | Taken i n =>
      if bool_decide (w_log w !! i = Some cmd ∧ (i < n ≤ length (w_log w))%nat)
      then respond_at n w rq (await (Answered (Some (result_at w i cmd))))
      else respond w rq (await (Answered None))
  end.

(** [rpc!]; without a further turn there is no response. *)
Definition rpc (w : World) (rq : KvRequest) : World * (RpcError + KvResponse) :=
  match w_turns w with
  | [] => (w, inl NoStatus)
  | t :: ts =>
      let w := arrivals (mkWorld (w_log w) (w_pending w) ts) (t_before t) in
      match request_command rq with
      | inr cmd => serve w rq cmd t
      | inl e => (w, inl (match t_fate t with Unheard _ => NoStatus | _ => Status e end))
      end
  end.

(** [await-leader!]: the leader found; a turn without a leader passes. *)
Definition await_leader (w : World) : World * option NodeId :=
  match w_turns w with
  | [] => (w, None)
  | t :: ts =>
      match t_leader t with
      | Some node => (w, Some node)
      | None => (arrivals (mkWorld (w_log w) (w_pending w) ts) (t_before t), None)
      end
  end.

Definition known_leader (w : World) (leader : option NodeId) : World * option NodeId :=
  match leader with Some node => (w, Some node) | None => await_leader w end.

(** ** The client *)

(** [str/includes?]. *)
Fixpoint includes (text part : string) : bool :=
  String.prefix part text ||
  match text with String.EmptyString => false | String.String _ rest => includes rest part end.

Definition kv_namespace : string := "jepsen".

Definition kv_key (k : N) : string := "register/" +:+ pretty k.

Record KvClient := mkKvClient { cl_leader : option NodeId; cl_session : N; cl_sequence : N }.

(** What an operation throws: no leader, an RPC error, or a body that does not
    decode. *)
Inductive Failure := NoLeader | RpcFailed (e : RpcError) | Undecodable.

Section Client.

Context {Value : Type} `{!EqDecision Value}.
Context (encode_value : Value → Body) (decode_value : Body → option (option Value)).
Context (http_status : ConnectError → N).

Definition not_leader (e : RpcError) : bool :=
  match e with
  | Status (failed_precondition text as e) => (http_status e =? 400) && includes text "not leader"
  | _ => false
  end.

Definition is_not_found (e : RpcError) : bool :=
  match e with Status (not_found _ as e) => http_status e =? 404 | _ => false end.

Definition recoverable_rpc_error (e : RpcError) : bool :=
  match e with
  | NoStatus => true
  | Status x => bool_decide (http_status x ∈ [408; 500; 502; 503; 504]) || not_leader e
  end.

Definition expected_cas_failure (e : RpcError) : bool :=
  match e with
  | Status (failed_precondition text as x) =>
      (http_status x =? 400) && bool_decide (text ∈ ["key already exists"; "ETag precondition failed"])
  | _ => is_not_found e
  end.

(** [with-leader-retry!] around one RPC; a recoverable error forgets the leader. *)
Fixpoint with_leader_retry (attempts : nat) (w : World) (leader : option NodeId) (rq : KvRequest)
    : World * option NodeId * (Failure + KvResponse) :=
  match known_leader w leader with
  | (w, None) => (w, leader, inl NoLeader)
  | (w, Some _) =>
      match rpc w rq with
      | (w, inr x) => (w, leader, inr x)
      | (w, inl e) =>
          match attempts with
          | S attempts =>
              if recoverable_rpc_error e then with_leader_retry attempts w None rq
              else (w, leader, inl (RpcFailed e))
          | O => (w, leader, inl (RpcFailed e))
          end
      end
  end.

(** [register-session!] and [open!]. *)
Definition register_session (w : World) (leader : option NodeId) : World * option NodeId * (Failure + N) :=
  let '(w, leader, r) := with_leader_retry 20 w leader RqRegisterSession in
  (w, leader,
   match r with
   | inl e => inl e
   | inr (RsRegisterSession x) => inr (rs_client_id x)
   | inr _ => inl Undecodable
   end).

Definition open (w : World) : World * (Failure + KvClient) :=
  match await_leader w with
  | (w, None) => (w, inl NoLeader)
  | (w, Some node) =>
      let '(w, leader, r) := register_session w (Some node) in
      (w, match r with inl e => inl e | inr session => inr (mkKvClient leader session 0) end)
  end.

Definition set_leader (cl : KvClient) (leader : option NodeId) : KvClient :=
  mkKvClient leader (cl_session cl) (cl_sequence cl).

(** [get-value!]: the ETag and the body. *)
Definition get_value (w : World) (cl : KvClient) (k : N) : World * KvClient * (Failure + string * Body) :=
  let '(w, leader, r) := with_leader_retry 20 w (cl_leader cl) (RqGet kv_namespace (kv_key k)) in
  (w, set_leader cl leader,
   match r with
   | inl e => inl e
   | inr (RsGet x) => inr (get_etag x, get_body x)
   | inr _ => inl Undecodable
   end).

Definition next_sequence (cl : KvClient) : KvClient :=
  mkKvClient (cl_leader cl) (cl_session cl) (cl_sequence cl + 1).

Definition put_request (cl : KvClient) (k : N) (v : Value) (if_match : string) (if_none_match : bool) : KvRequest :=
  RqPut (cl_session cl) (cl_sequence cl) kv_namespace (kv_key k) (encode_value v) if_match if_none_match.

Definition put_value (w : World) (cl : KvClient) (k : N) (v : Value) (if_match : string) (if_none_match : bool)
    : World * KvClient * (Failure + unit) :=
  let cl := next_sequence cl in
  let '(w, leader, r) := with_leader_retry 20 w (cl_leader cl) (put_request cl k v if_match if_none_match) in
  (w, set_leader cl leader, match r with inl e => inl e | inr _ => inr tt end).

Inductive Op := Read | Write (v : Value) | Cas (from : option Value) (to : Value).

(** The completion of an operation: [:ok] (a read with its value), [:fail], [:info],
    or an exception. *)
Inductive Completion := OkRead (v : option Value) | OkDone | FailDone | InfoDone (e : Failure) | Thrown (e : Failure).

Local Abbreviation Outcome := (World * KvClient * (Failure + Completion))%type.

Definition read_op (w : World) (cl : KvClient) (k : N) : Outcome :=
  let '(w, cl, r) := get_value w cl k in
  (w, cl,
   match r with
   | inr (_, body) => match decode_value body with Some v => inr (OkRead v) | None => inl Undecodable end
   | inl (RpcFailed e) => if is_not_found e then inr (OkRead None) else inl (RpcFailed e)
   | inl e => inl e
   end).

(** The handler of [cas-op] for RPC errors. *)
Definition cas_result {A} (r : Failure + A) : Failure + Completion :=
  match r with
  | inr _ => inr OkDone
  | inl (RpcFailed e) => if expected_cas_failure e then inr FailDone else inl (RpcFailed e)
  | inl e => inl e
  end.

Definition cas_op (w : World) (cl : KvClient) (k : N) (from : option Value) (to : Value) : Outcome :=
  match from with
  | None => let '(w, cl, r) := put_value w cl k to "" true in (w, cl, cas_result r)
  | Some _ =>
      let '(w, cl, r) := get_value w cl k in
      match r with
      | inl e => (w, cl, cas_result (inl e : Failure + unit))
      | inr (etag, body) =>
          match decode_value body with
          | None => (w, cl, inl Undecodable)
          | Some v =>
              if decide (from = v)
              then let '(w, cl, r) := put_value w cl k to etag false in (w, cl, cas_result r)
              else (w, cl, inr FailDone)
          end
      end
  end.

Definition write_op (w : World) (cl : KvClient) (k : N) (v : Value) : Outcome :=
  let '(w, cl, r) := put_value w cl k v "" false in
  (w, cl, match r with inl e => inl e | inr _ => inr OkDone end).

(** [invoke!]: without a leader or after a recoverable error the outcome is unknown. *)
Definition complete (r : Failure + Completion) : Completion :=
  match r with
  | inr x => x
  | inl NoLeader => InfoDone NoLeader
  | inl (RpcFailed e) => if recoverable_rpc_error e then InfoDone (RpcFailed e) else Thrown (RpcFailed e)
  | inl Undecodable => Thrown Undecodable
  end.

Definition invoke (w : World) (cl : KvClient) (k : N) (op : Op) : World * KvClient * Completion :=
  let '(w, cl, r) :=
    match op with
    | Read => read_op w cl k
    | Write v => write_op w cl k v
    | Cas from to => cas_op w cl k from to
    end in
  (w, cl, complete r).

(** The operations of a client, one after the other, each with the sequence number
    of its mutation, if it came to one, and the length of the log when it starts and
    completes. *)
Record Done := mkDone {
  d_key : N; d_op : Op; d_sequence : option N; d_start : nat; d_end : nat; d_completion : Completion }.

Definition used_sequence (cl cl' : KvClient) : option N :=
  if cl_sequence cl =? cl_sequence cl' then None else Some (cl_sequence cl').

Fixpoint run_ops (w : World) (cl : KvClient) (ops : list (N * Op)) : World * KvClient * list Done :=
  match ops with
  | [] => (w, cl, [])
  | (k, op) :: ops =>
      let '(w', cl', x) := invoke w cl k op in
      let '(w'', cl'', ds) := run_ops w' cl' ops in
      (w'', cl'', mkDone k op (used_sequence cl cl') (length (w_log w)) (length (w_log w')) x :: ds)
  end.

(** ** What the operations promise *)

(** The value of a register: [Some None] when the key is absent, [None] when its
    body does not decode. *)
Definition register (s : KvState) (k : N) : option (option Value) :=
  match kv_entries s !! mkKvName kv_namespace (kv_key k) with
  | Some v => decode_value (rec_body v)
  | None => Some None
  end.

Definition of_request (c q : N) (cmd : KvCommand) : bool :=
  match mutation cmd with Some (c', q', _) => (c' =? c) && (q' =? q) | None => false end.

(** The changes that the request of client [c] with sequence number [q] makes while a
    list of commands is applied: the value of the register before and after. *)
Fixpoint effects (c q k : N) (s : KvState) (cs : list KvCommand)
    : list (option (option Value) * option (option Value)) :=
  match cs with
  | [] => []
  | cmd :: cs =>
      let s' := (kv_apply s cmd).1 in
      (if of_request c q cmd && negb (bool_decide (kv_entries s' = kv_entries s))
       then [(register s k, register s' k)] else [])
      ++ effects c q k s' cs
  end.

Definition changes (c : N) (d : Done) (s : KvState) (cs : list KvCommand)
    : list (option (option Value) * option (option Value)) :=
  match d_sequence d with Some q => effects c q (d_key d) s cs | None => [] end.

(** The change an operation on a compare-and-set register may make. *)
Definition allows (op : Op) (change : option (option Value) * option (option Value)) : Prop :=
  match op with
  | Read => False
  | Write v => change.2 = Some (Some v)
  | Cas from to => change = (Some from, Some (Some to))
  end.

(** Whether every answered request was completed by its own entry. *)
Context (own : bool).

(** An operation is atomic in a log: a read returns a value the register had before the
    operation ended and, when requests are completed by their own entries, not before it
    started; a mutation that completes took effect once, while it ran, and never again;
    one that fails never takes effect; one whose outcome is unknown takes effect at most
    once, in the way the operation allows. *)
Definition atomic (c : N) (log : list KvCommand) (d : Done) : Prop :=
  let s0 := kv_run kv_new (take (d_start d) log) in
  let during := drop (d_start d) (take (d_end d) log) in
  let ever := changes c d s0 (drop (d_start d) log) in
  match d_completion d with
  | OkRead v =>
      d_op d = Read ∧ ∃ n, (n ≤ d_end d)%nat ∧ (own = true → (d_start d ≤ n)%nat) ∧
        register (kv_run kv_new (take n log)) (d_key d) = Some v
  | OkDone => ∃ change, ever = [change] ∧ changes c d s0 during = [change] ∧ allows (d_op d) change
  | FailDone => ever = []
  | InfoDone _ | Thrown _ => ever = [] ∨ ∃ change, ever = [change] ∧ allows (d_op d) change
  end.

(** *** The log of one client *)

(** A command of another client, or one that satisfies [P]. *)
Definition allowed (c : N) (P : KvCommand → Prop) (cmd : KvCommand) : Prop :=
  client_of cmd ≠ Some c ∨ P cmd.

Definition by_others (c : N) (a : Arrival) : Prop :=
  match a with Other cmd => client_of cmd ≠ Some c | Late _ => True end.

Definition is_taken (f : Fate) : bool := match f with Taken _ _ => true | _ => false end.

(** The others' commands are not the client's, and its pending ones satisfy [P]. *)
Definition calm (c : N) (P : KvCommand → Prop) (w : World) : Prop :=
  Forall (allowed c P) (w_pending w) ∧
  Forall (fun t => Forall (by_others c) (t_before t) ∧ Forall (by_others c) (t_after t) ∧
                   (own = true → is_taken (t_fate t) = false)) (w_turns w).

(** No other client uses the session. *)
Definition private (c : N) (w : World) : Prop :=
  Forall (fun cmd => client_of cmd ≠ Some c) (w_log w) ∧ calm c (fun _ => False) w.

(** A command of the client with a sequence number of at most [q]. *)
Definition up_to (c q : N) (cmd : KvCommand) : Prop :=
  ∀ q' req, mutation cmd = Some (c, q', req) → q' ≤ q.

(** The session has not seen a number above [q], or has seen one of at least [q]. *)
Definition unseen (c q : N) (s : KvState) : Prop :=
  ∀ x, kv_sessions s !! c = Some x → ss_sequence x ≤ q.

Definition settled (c q : N) (s : KvState) : Prop :=
  ∃ x, kv_sessions s !! c = Some x ∧ q ≤ ss_sequence x.

Record client_ok (w : World) (cl : KvClient) : Prop := {
  co_calm : calm (cl_session cl) (up_to (cl_session cl) (cl_sequence cl)) w;
  co_unseen : unseen (cl_session cl) (cl_sequence cl) (kv_state w)
}.

(** The response of an RPC that tells the fate of its command: a result, or an error
    that only the state machine or an absent key gives. *)
Definition refusal (e : ConnectError) : Prop :=
  match e with
  | failed_precondition text => text ∈ ["key already exists"; "ETag precondition failed"]
  | not_found _ => True
  | _ => False
  end.

Definition definite {A} (r : RpcError + A) : Prop :=
  match r with inr _ => True | inl (Status e) => refusal e | inl NoStatus => False end.

(** The log of [w'] extends that of [w] by allowed commands. *)
Definition grows (c : N) (P : KvCommand → Prop) (w w' : World) : Prop :=
  calm c P w → calm c P w' ∧ ∃ new, w_log w' = w_log w ++ new ∧ Forall (allowed c P) new.

(** One operation of a client after another: in the log and in their numbers. *)
Definition precedes (d d' : Done) : Prop :=
  (d_end d ≤ d_start d')%nat ∧
  ∀ q q', d_sequence d = Some q → d_sequence d' = Some q' → q < q'.

End Client.

Section Proofs.

Context (own : bool).
Local Abbreviation calm := (calm own).
Local Abbreviation grows := (grows own).
Local Abbreviation client_ok := (client_ok own).

Lemma grows_refl c P w : grows c P w w.
Proof. intros H. split; [done |]. exists []. by rewrite app_nil_r. Qed.

Lemma grows_trans c P w1 w2 w3 : grows c P w1 w2 → grows c P w2 w3 → grows c P w1 w3.
Proof.
  intros H1 H2 Hc. destruct (H1 Hc) as (Hc2 & n1 & E1 & F1). destruct (H2 Hc2) as (Hc3 & n2 & E2 & F2).
  split; [done |]. exists (n1 ++ n2). rewrite E2, E1, app_assoc, Forall_app. done.
Qed.

Lemma append_grows c P w cmd : allowed c P cmd → grows c P w (append w cmd).
Proof. intros H Hc. split; [done |]. exists [cmd]. by rewrite Forall_singleton. Qed.

Lemma arrive_grows c P w a : by_others c a → grows c P w (arrive w a).
Proof.
  destruct a as [cmd|i]; intros Ha; [by apply append_grows; left |]. cbn.
  destruct (w_pending w !! i) as [cmd|] eqn:E; [|apply grows_refl]. intros [Hp Ht].
  split; [split; [by apply Forall_delete | done] |]. exists [cmd]. rewrite Forall_singleton.
  split; [done | by eapply Forall_lookup_1].
Qed.

Lemma arrivals_grows c P l : ∀ w, Forall (by_others c) l → grows c P w (arrivals w l).
Proof.
  induction l as [|a l IH]; intros w Hl; [apply grows_refl |]. inversion Hl; subst.
  eapply grows_trans; [by apply arrive_grows | by apply IH].
Qed.

Lemma submit_grows c P now w cmd : allowed c P cmd → grows c P w (submit now w cmd).
Proof.
  intros H. destruct now; [by apply append_grows |]. intros [Hp Ht]. split.
  - split; [|done]. cbn. rewrite Forall_app, Forall_singleton. done.
  - exists []. by rewrite app_nil_r.
Qed.

Create HintDb register.
#[local] Hint Resolve grows_refl append_grows arrive_grows arrivals_grows submit_grows : register.

(** *** One RPC *)

Lemma turn_grows c P w t ts :
  w_turns w = t :: ts → calm c P w →
  (Forall (by_others c) (t_after t) ∧ (own = true → is_taken (t_fate t) = false)) ∧
  calm c P (arrivals (mkWorld (w_log w) (w_pending w) ts) (t_before t)) ∧
  ∃ new, w_log (arrivals (mkWorld (w_log w) (w_pending w) ts) (t_before t)) = w_log w ++ new ∧
    Forall (allowed c P) new.
Proof.
  intros E [Hp Ht]. rewrite E in Ht. inversion Ht as [|?? (Hb & Ha & Hf) Hts]; subst.
  split; [done |]. apply (arrivals_grows c P _ (mkWorld (w_log w) (w_pending w) ts) Hb). by split.
Qed.

Lemma finish_request_inl s rq cmd e : request_command rq = inr cmd → finish_request s rq (inl e) = inl e.
Proof. destruct rq; cbn; unfold head, get; intros; repeat case_match; by simplify_eq/=. Qed.

Lemma request_error_unrefusing rq e : request_command rq = inl e → ¬ refusal e.
Proof.
  assert (∀ ns k, kv_name_new ns k = inl e → ¬ refusal e) as Hn.
  { unfold kv_name_new. intros ns k. repeat case_match; intros [= <-] []. }
  destruct rq; cbn; unfold put_command, delete_command, validate_mutation_request, validate_put_preconditions,
    validate_etag, validate_value; intros; repeat case_match; simplify_eq/=; first [by intros [] | by eapply Hn].
Qed.

Lemma propose_error_unrefusing e : ¬ refusal (propose_error e).
Proof. destruct e as [[leader|]|]; cbn; rewrite ?elem_of_cons, ?elem_of_nil; [|naive_solver..]. intros [?|[?|[]]]; discriminate. Qed.

Lemma serve_grows c P w rq cmd t :
  allowed c P cmd → Forall (by_others c) (t_after t) → grows c P w (serve w rq cmd t).1.
Proof.
  intros Hcmd Ha. unfold serve. destruct (t_fate t); unfold respond, respond_at; cbn [fst]; eauto with register.
  - eapply grows_trans; [by apply append_grows | by apply arrivals_grows].
  - case_bool_decide; apply grows_refl.
Qed.

Lemma rpc_grows c P w rq :
  (∀ cmd, request_command rq = inr cmd → allowed c P cmd) → grows c P w (rpc w rq).1.
Proof.
  intros Hrq Hc. unfold rpc. destruct (w_turns w) as [|t ts] eqn:E; [by apply grows_refl |].
  destruct (turn_grows c P w t ts E Hc) as ([Ha _] & Hc1 & n1 & E1 & F1).
  destruct (request_command rq) as [e|cmd]; [by eauto |].
  destruct (serve_grows c P (arrivals (mkWorld (w_log w) (w_pending w) ts) (t_before t)) rq cmd t) as (Hc2 & n2 & E2 & F2);
    [by apply Hrq | done | done |].
  split; [done |]. exists (n1 ++ n2). rewrite E2, E1, app_assoc, Forall_app. done.
Qed.

(** A definite response is the state machine's answer to the command at a place of the
    log, given by a node that has applied that place. *)
Lemma serve_definite c P w rq cmd t w' r :
  request_command rq = inr cmd → Forall (by_others c) (t_after t) → calm c P w →
  serve w rq cmd t = (w', r) → definite r →
  ∃ i n, w_log w' !! i = Some cmd ∧ (i < n ≤ length (w_log w'))%nat ∧
    respond_at n w' rq (result_at w' i cmd) = (w', r) ∧
    (is_taken (t_fate t) = false → (length (w_log w) ≤ i)%nat).
Proof.
  intros Hrq Ha Hc. unfold serve. destruct (t_fate t) as [now|e|now text| |now [|]| |i n] eqn:Et;
    [..|case_bool_decide as Hi]; intros Hs Hd; unfold respond, respond_at in Hs; cbn [await] in Hs;
    rewrite ?(finish_request_inl _ _ _ _ Hrq) in Hs; try (injection Hs as <- <-); try done.
  - by apply propose_error_unrefusing in Hd.
  - destruct (arrivals_grows c P _ (append w cmd) Ha Hc) as (_ & n2 & E2 & _). cbn in E2.
    assert (w_log (arrivals (append w cmd) (t_after t)) = w_log w ++ cmd :: n2) as El by (by rewrite E2, <- app_assoc).
    exists (length (w_log w)), (length (w_log (arrivals (append w cmd) (t_after t)))).
    unfold respond_at, result_at. rewrite El, take_app_length, length_app. cbn [length].
    split_and!; [by apply list_lookup_middle | lia | lia | done | lia].
  - destruct Hi as [Hi Hn]. by exists i, n.
Qed.

Lemma rpc_definite c P w rq w' r :
  calm c P w → rpc w rq = (w', r) → definite r →
  ∃ cmd i n, request_command rq = inr cmd ∧ w_log w' !! i = Some cmd ∧ (i < n ≤ length (w_log w'))%nat ∧
    respond_at n w' rq (result_at w' i cmd) = (w', r) ∧ (own = true → (length (w_log w) ≤ i)%nat).
Proof.
  intros Hc. unfold rpc. destruct (w_turns w) as [|t ts] eqn:E; [by intros [= <- <-] |].
  destruct (turn_grows c P w t ts E Hc) as ([Ha Hf] & Hc1 & n1 & E1 & F1).
  destruct (request_command rq) as [e|cmd] eqn:Er.
  - intros [= <- <-]. destruct (t_fate t); [done |..]; by intros ?%(request_error_unrefusing _ _ Er).
  - intros Hs Hd. destruct (serve_definite _ _ _ _ _ _ _ _ Er Ha Hc1 Hs Hd) as (i & n & Hi & Hn & Hr & Hown).
    exists cmd, i, n. split_and!; [done | done | lia | lia | done |]. intros Ho. specialize (Hown (Hf Ho)).
    rewrite E1, length_app in Hown. lia.
Qed.

(** *** The commands of one request *)

Lemma of_request_true c q cmd : of_request c q cmd = true ↔ ∃ req, mutation cmd = Some (c, q, req).
Proof.
  unfold of_request. destruct (mutation cmd) as [[[c' q'] req]|]; [|naive_solver].
  rewrite andb_true_iff, !N.eqb_eq. naive_solver.
Qed.

(** The number a session has seen only grows. *)
Lemma kv_spec_settled c q s cmd s' r : kv_inv s → kv_spec s cmd s' r → settled c q s → settled c q s'.
Proof.
  intros Hinv Hspec (x & Hx & Hle). destruct (decide (client_of cmd = Some c)) as [Hc|Hc];
    [|exists x; split; [by eapply kv_spec_session | done]].
  unfold client_of in Hc. inversion Hspec; subst; try discriminate Hc; try (by exists x); unfold settled; cbn in Hc |- *;
    try match goal with H : mutation _ = Some _ |- _ => rewrite H in Hc end; injection Hc as ->;
    (eexists; split; [apply lookup_insert_eq |]); simplify_eq; cbn; lia.
Qed.

(** A session that has seen the number of a request ignores it from then on. *)
Lemma kv_spec_settled_ignores c q s cmd s' r req :
  kv_spec s cmd s' r → settled c q s → mutation cmd = Some (c, q, req) → s' = s.
Proof.
  intros Hspec (x & Hx & Hle) Hm. inversion Hspec; subst; try done; cbn in Hm; simplify_eq; lia.
Qed.

(** A request that the session had not seen is seen once it has had an effect. *)
Lemma kv_spec_effect_settles c q s cmd s' r req :
  kv_spec s cmd s' r → mutation cmd = Some (c, q, req) → s' ≠ s → settled c q s'.
Proof.
  intros Hspec Hm Hne. destruct (kv_spec_recorded _ _ _ _ _ _ _ Hspec Hm (or_intror Hne)) as (_ & res & Hx & _).
  by eexists.
Qed.

Lemma kv_run_settled c q cs : ∀ s, kv_inv s → settled c q s → settled c q (kv_run s cs).
Proof.
  induction cs as [|cmd cs IH]; intros s Hinv H; [done |]. apply IH; [by apply kv_apply_inv |].
  eapply kv_spec_settled; [done | by apply kv_apply_spec | done].
Qed.

Section Effects.

Context {Value : Type} (decode_value : Body → option (option Value)) (c q k : N).
Local Abbreviation effects := (effects decode_value c q k).
Local Abbreviation register := (register decode_value).

Lemma effects_app cs1 : ∀ s cs2, effects s (cs1 ++ cs2) = effects s cs1 ++ effects (kv_run s cs1) cs2.
Proof. induction cs1 as [|cmd cs1 IH]; intros s cs2; [done |]. cbn. by rewrite IH, <- app_assoc. Qed.

Lemma effects_unrelated cs : ∀ s, Forall (fun cmd => of_request c q cmd = false) cs → effects s cs = [].
Proof. induction cs as [|cmd cs IH]; intros s H; [done |]. inversion H as [|?? Hq]; subst. cbn. rewrite Hq. by apply IH. Qed.

Lemma effects_settled cs : ∀ s, kv_inv s → settled c q s → effects s cs = [].
Proof.
  induction cs as [|cmd cs IH]; intros s Hinv Hs; [done |]. pose proof (kv_apply_spec s cmd Hinv) as Hspec. cbn.
  rewrite IH, app_nil_r; [|by apply kv_apply_inv | by eapply kv_spec_settled].
  destruct (of_request c q cmd) eqn:Eq; [|done]. apply of_request_true in Eq as [req Hm].
  rewrite (kv_spec_settled_ignores _ _ _ _ _ _ _ Hspec Hs Hm), bool_decide_true; done.
Qed.

(** Whatever the log: the one command of a request changes the entries at most once. *)
Lemma effects_once (A : option (option Value) * option (option Value) → Prop) cmd cs : ∀ s,
  kv_inv s → Forall (fun cmd' => of_request c q cmd' = true → cmd' = cmd) cs →
  (∀ cs1, let s1 := kv_run s cs1 in kv_entries (kv_apply s1 cmd).1 ≠ kv_entries s1 →
    A (register s1 k, register (kv_apply s1 cmd).1 k)) →
  effects s cs = [] ∨ ∃ change, effects s cs = [change] ∧ A change.
Proof.
  induction cs as [|cmd' cs IH]; intros s Hinv Hcs HA; [by left |]. inversion Hcs as [|?? Hc Hcs']; subst. cbn.
  pose proof (kv_apply_inv s cmd' Hinv) as Hinv'.
  destruct (of_request c q cmd' && negb (bool_decide (kv_entries (kv_apply s cmd').1 = kv_entries s))) eqn:E.
  - apply andb_true_iff in E as [Eq Hne%negb_true_iff%bool_decide_eq_false]. specialize (Hc Eq) as ->.
    apply of_request_true in Eq as [req Hm]. right. exists (register s k, register (kv_apply s cmd).1 k).
    rewrite effects_settled; [split; [done | by apply (HA [])] | done |].
    eapply kv_spec_effect_settles; [by apply kv_apply_spec | done | congruence].
  - apply IH; [done.. |]. intros cs1. apply (HA (cmd' :: cs1)).
Qed.

End Effects.

(** *** What the session tells about a request *)

Lemma kv_spec_unseen c q s cmd s' r :
  kv_spec s cmd s' r → allowed c (up_to c q) cmd → unseen c q s → unseen c q s'.
Proof.
  intros Hspec Hal Hu. assert (∀ q' req, mutation cmd = Some (c, q', req) → q' ≤ q) as Hq.
  { intros q' req Hm. destruct Hal as [Hc|Hq]; [|by eapply Hq]. unfold client_of in Hc. by rewrite Hm in Hc. }
  intros x. inversion Hspec; subst; try apply Hu; cbn;
    intros [[Hc <-]|[_ Hx]]%lookup_insert_Some; try (by apply Hu); cbn; [lia | subst; by eapply Hq..].
Qed.

Lemma kv_run_unseen c q cs : ∀ s,
  kv_inv s → Forall (allowed c (up_to c q)) cs → unseen c q s → unseen c q (kv_run s cs).
Proof.
  induction cs as [|cmd cs IH]; intros s Hinv Hcs Hu; [done |]. inversion Hcs; subst.
  apply IH; [by apply kv_apply_inv | done |]. eapply kv_spec_unseen; [by apply kv_apply_spec | done..].
Qed.

(** A definite answer to a well-formed command is the recorded one. *)
Lemma kv_spec_answered s cmd s' r c q req :
  kv_spec s cmd s' r → mutation cmd = Some (c, q, req) → validate_command cmd = inr tt →
  match r with inr _ => True | inl e => refusal e end →
  ∃ res, kv_sessions s' !! c = Some (mkSessionState q (Some req) (Some res)) ∧ r = reply res.
Proof.
  intros Hspec Hm Hv Hr. destruct r as [e|a].
  - inversion Hspec; subst; cbn in Hr, Hm; try done; try congruence; simplify_eq; try (by eexists);
      (eexists; split; [apply lookup_insert_eq | done]).
  - eapply kv_spec_recorded; [done | done |]. left. by eexists.
Qed.

(** A command that a log answers definitely is one the session has seen there. *)
Lemma answered_settled log i cmd c q req :
  log !! i = Some cmd → mutation cmd = Some (c, q, req) → validate_command cmd = inr tt →
  match (kv_apply (kv_run kv_new (take i log)) cmd).2 with inr _ => True | inl e => refusal e end →
  settled c q (kv_run kv_new log).
Proof.
  intros Hi Hm Hv Hr. assert (kv_inv (kv_run kv_new (take i log))) as Hinv by apply kv_run_inv, kv_new_inv.
  rewrite <- (take_drop_middle log i cmd Hi), kv_run_app.
  apply (kv_run_settled c q (drop (S i) log) (kv_apply _ cmd).1); [by apply kv_apply_inv |].
  destruct (kv_spec_answered _ _ _ _ _ _ _ (kv_apply_spec _ cmd Hinv) Hm Hv Hr) as (res & Hx & _).
  by eexists.
Qed.

Section Request.

Context {Value : Type} (decode_value : Body → option (option Value)) (c q k : N).
Context (cmd : KvCommand) (req : MutationRequest) (A : option (option Value) * option (option Value) → Prop).
Local Abbreviation effects := (effects decode_value c (q + 1) k).
Local Abbreviation register := (register decode_value).

Context (Hm : mutation cmd = Some (c, q + 1, req)) (Hput : ∀ r, answers req (RDelete r) = false).

(** How far the request is: not seen yet, or recorded with its result. *)
Definition phase (s : KvState) (t : option MutationResult) : Prop :=
  match t with
  | None => unseen c q s
  | Some res => kv_sessions s !! c = Some (mkSessionState (q + 1) (Some req) (Some res))
  end.

Definition told (E : list (option (option Value) * option (option Value))) (t : option MutationResult) : Prop :=
  match t with
  | Some (RPut _) => ∃ change, E = [change] ∧ A change
  | _ => E = []
  end.

Lemma phase_recorded s t res :
  phase s t → kv_sessions s !! c = Some (mkSessionState (q + 1) (Some req) (Some res)) → t = Some res.
Proof. destruct t as [res'|]; cbn; intros H Hx; [congruence |]. specialize (H _ Hx). cbn in H. lia. Qed.

(** A put that takes effect changes the entries. *)
Lemma put_changes_entries s n body etag :
  kv_inv s → <[n := mkKvRecord body etag (next_generation s)]> (kv_entries s) ≠ kv_entries s.
Proof.
  intros Hinv He. assert (kv_entries s !! n = Some (mkKvRecord body etag (next_generation s))) as Hn
    by (rewrite <- He; apply lookup_insert_eq).
  destruct (ki_entries s Hinv _ _ Hn) as [Hlt _]. cbn in Hlt. lia.
Qed.

(** The request itself, when it is new. *)
Lemma phase_new s :
  kv_inv s → unseen c q s →
  (kv_entries (kv_apply s cmd).1 ≠ kv_entries s → A (register s k, register (kv_apply s cmd).1 k)) →
  ∃ t, phase (kv_apply s cmd).1 t ∧ told (effects s [cmd]) t.
Proof.
  intros Hinv Hu HA. pose proof (kv_apply_spec s cmd Hinv) as Hspec. cbn [Register.effects].
  assert (of_request c (q + 1) cmd = true) as -> by (apply of_request_true; by eexists).
  destruct (kv_apply s cmd) as [s' r]. cbn [fst snd andb] in *. rewrite app_nil_r.
  inversion Hspec; subst; cbn in Hm;
    try (exists None; split; [done |]; by rewrite bool_decide_true); simplify_eq; unfold phase;
    try match goal with H : _ = req |- _ => rewrite <- H in * end.
  1, 2: eexists (Some (Rejected _)); split; [apply lookup_insert_eq | by rewrite bool_decide_true].
  - pose proof (put_changes_entries s (mkKvName ns k0) body (etag_for (next_generation s)) Hinv) as Hne.
    eexists (Some (RPut _)). split; [apply lookup_insert_eq |].
    rewrite bool_decide_false by exact Hne. eexists. split; [done | by apply HA].
  - by specialize (Hput response).
Qed.

(** Any other allowed command. *)
Lemma phase_step s cmd' t E :
  kv_inv s → allowed c (fun x => up_to c q x ∨ x = cmd) cmd' → phase s t → told E t →
  (kv_entries (kv_apply s cmd).1 ≠ kv_entries s → A (register s k, register (kv_apply s cmd).1 k)) →
  ∃ t', phase (kv_apply s cmd').1 t' ∧ told (E ++ effects s [cmd']) t'.
Proof.
  intros Hinv Hal Hph HE HA. pose proof (kv_apply_spec s cmd' Hinv) as Hspec. destruct t as [res|].
  - assert (settled c (q + 1) s) as Hs by (eexists; split; [done | cbn; lia]).
    rewrite effects_settled, app_nil_r by done. exists (Some res). split; [|done]. cbn.
    destruct Hal as [Hc|Hown]; [by eapply kv_spec_session |].
    destruct (mutation cmd') as [[[c' q'] req']|] eqn:Em'.
    + destruct (decide (c' = c)) as [->|Hc].
      * rewrite (kv_spec_settled_ignores c q' s cmd' _ _ req' Hspec); [done | | done].
        eexists. split; [done |]. cbn. destruct Hown as [Hup| ->]; [specialize (Hup _ _ Em'); lia | simplify_eq; lia].
      * eapply kv_spec_session; [done.. | | done]. unfold client_of. rewrite Em'. congruence.
    + eapply kv_spec_session; [done.. | | done]. unfold client_of. by rewrite Em'.
  - cbn in HE. subst E. cbn [app]. assert (cmd' = cmd ∨ allowed c (up_to c q) cmd') as [->|Hal'].
    { destruct Hal as [Hc|[Hup| ->]]; [right; by left | right; by right | by left]. }
    { by apply phase_new. }
    exists None. split; [by eapply kv_spec_unseen |]. apply effects_unrelated. constructor; [|done].
    apply not_true_iff_false. intros [req' Hm']%of_request_true. destruct Hal' as [Hc|Hup].
    + unfold client_of in Hc. by rewrite Hm' in Hc.
    + specialize (Hup _ _ Hm'). lia.
Qed.

Lemma phase_run s cs :
  kv_inv s → unseen c q s → Forall (allowed c (fun x => up_to c q x ∨ x = cmd)) cs →
  (∀ cs1, let s1 := kv_run s cs1 in kv_entries (kv_apply s1 cmd).1 ≠ kv_entries s1 →
    A (register s1 k, register (kv_apply s1 cmd).1 k)) →
  ∃ t, phase (kv_run s cs) t ∧ told (effects s cs) t.
Proof.
  intros Hinv Hu Hcs HA. induction cs as [|cmd' cs IH] using rev_ind; [by exists None |].
  apply Forall_app in Hcs as [Hcs [Hal _]%Forall_cons]. destruct (IH Hcs) as (t & Hph & Ht).
  rewrite kv_run_app, effects_app. by eapply phase_step; [apply kv_run_inv | | | | apply HA].
Qed.

(** The definite answer of the request tells whether it has taken effect. *)
Lemma request_answered s cs :
  kv_inv s → unseen c q s → Forall (allowed c (fun x => up_to c q x ∨ x = cmd)) cs →
  (∀ cs1, let s1 := kv_run s cs1 in kv_entries (kv_apply s1 cmd).1 ≠ kv_entries s1 →
    A (register s1 k, register (kv_apply s1 cmd).1 k)) →
  validate_command cmd = inr tt →
  let r := (kv_apply (kv_run s cs) cmd).2 in
  match r with inr _ => True | inl e => refusal e end →
  settled c (q + 1) (kv_run s (cs ++ [cmd])) ∧
  match r with
  | inr _ => ∃ change, effects s (cs ++ [cmd]) = [change] ∧ A change
  | inl _ => effects s (cs ++ [cmd]) = []
  end.
Proof.
  intros Hinv Hu Hcs HA Hv r Hr. destruct (phase_run s (cs ++ [cmd]) Hinv Hu) as (t & Hph & Ht); [|done|].
  { apply Forall_app. split; [done |]. constructor; [right; by right | done]. }
  destruct (kv_spec_answered _ _ _ _ _ _ _ (kv_apply_spec (kv_run s cs) cmd (kv_run_inv _ _ Hinv)) Hm Hv Hr)
    as (res & Hx & Hres). change (kv_apply (kv_run s cs) cmd).1 with (kv_run (kv_run s cs) [cmd]) in Hx.
  rewrite <- kv_run_app in Hx. rewrite (phase_recorded _ _ _ Hph Hx) in Ht.
  split; [by eexists |]. subst r. rewrite Hres. destruct res as [r|r|rej]; [done | | done]. cbn. exfalso.
  destruct (ki_sessions _ (kv_run_inv _ _ Hinv) _ _ Hx) as [_ [?|(req' & res' & E & _ & Ha)]]; [done |].
  cbn in E. injection E as <- <-. by rewrite Hput in Ha.
Qed.

End Request.

(** *** The operations *)

Section Operations.

Context {Value : Type} `{!EqDecision Value}.
Context (encode_value : Value → Body) (decode_value : Body → option (option Value)).
Context (http_status : ConnectError → N).

Lemma known_leader_grows c P w leader : grows c P w (known_leader w leader).1.
Proof.
  intros Hc. destruct leader as [node|]; cbn; [by apply grows_refl |]. unfold await_leader.
  destruct (w_turns w) as [|t ts] eqn:E; [by apply grows_refl |]. destruct (t_leader t); [by apply grows_refl |].
  by destruct (turn_grows c P w t ts E Hc) as (_ & ? & ?).
Qed.

Lemma retry_grows c P attempts : ∀ w leader rq,
  (∀ cmd, request_command rq = inr cmd → allowed c P cmd) →
  grows c P w (with_leader_retry http_status attempts w leader rq).1.1.
Proof.
  induction attempts as [|n IH]; intros w leader rq Hrq; pose proof (known_leader_grows c P w leader) as Hk; cbn;
    destruct (known_leader w leader) as [w0 [node|]]; try exact Hk; cbn [fst] in Hk;
    pose proof (grows_trans _ _ _ _ _ Hk (rpc_grows c P w0 rq Hrq)) as Hg;
    destruct (rpc w0 rq) as [w1 [e|x]]; try done.
  destruct (recoverable_rpc_error http_status e); [|done]. by eapply grows_trans; [|apply IH].
Qed.

(** The result of the last attempt. *)
Definition last_rpc (r : Failure + KvResponse) : option (RpcError + KvResponse) :=
  match r with inr x => Some (inr x) | inl (RpcFailed e) => Some (inl e) | inl _ => None end.

Lemma retry_last c P attempts : ∀ w leader rq w' leader' r r',
  (∀ cmd, request_command rq = inr cmd → allowed c P cmd) →
  with_leader_retry http_status attempts w leader rq = (w', leader', r) → last_rpc r = Some r' →
  ∃ w1, grows c P w w1 ∧ rpc w1 rq = (w', r').
Proof.
  induction attempts as [|n IH]; intros w leader rq w' leader' r r' Hrq;
    pose proof (known_leader_grows c P w leader) as Hk; cbn;
    destruct (known_leader w leader) as [w0 [node|]]; try (by intros [= <- <- <-]); cbn [fst] in Hk;
    pose proof (grows_trans _ _ _ _ _ Hk (rpc_grows c P w0 rq Hrq)) as Hg;
    destruct (rpc w0 rq) as [w1 [e|x]] eqn:Er; try (intros [= <- <- <-] [= <-]; by exists w0).
  destruct (recoverable_rpc_error http_status e); [|intros [= <- <- <-] [= <-]; by exists w0].
  intros Hr Hl. destruct (IH _ _ _ _ _ _ _ Hrq Hr Hl) as (w2 & Hg2 & E2). exists w2. split; [|done].
  by eapply grows_trans.
Qed.

Lemma get_value_grows c P w cl k : grows c P w (get_value http_status w cl k).1.1.
Proof.
  unfold get_value. pose proof (retry_grows c P 20 w (cl_leader cl) (RqGet kv_namespace (kv_key k))) as H.
  destruct (with_leader_retry _ _ _ _ _) as [[w' l] r]. apply H. cbn. intros cmd. case_match; [done |].
  intros [= <-]. by left.
Qed.

(** The command of a put. *)
Definition put_cmd (cl : KvClient) (k : N) (v : Value) (im : string) (inm : bool) : KvCommand :=
  Put (cl_session cl) (cl_sequence cl + 1) kv_namespace (kv_key k) (encode_value v) im inm.

Lemma put_request_command cl k v im inm cmd :
  request_command (put_request encode_value (next_sequence cl) k v im inm) = inr cmd →
  cmd = put_cmd cl k v im inm ∧ validate_command cmd = inr tt.
Proof.
  cbn. unfold put_command. repeat case_match; intros; simplify_eq. split; [done |]. cbn.
  repeat match goal with H : _ = inr _ |- _ => rewrite H; clear H end. done.
Qed.

Lemma put_value_grows c P w cl k v im inm :
  allowed c P (put_cmd cl k v im inm) → grows c P w (put_value encode_value http_status w cl k v im inm).1.1.
Proof.
  intros HP. unfold put_value.
  pose proof (retry_grows c P 20 w (cl_leader cl) (put_request encode_value (next_sequence cl) k v im inm)) as H.
  cbn [cl_leader next_sequence].
  destruct (with_leader_retry _ _ _ _ _) as [[w' l] r]. apply H.
  by intros cmd [-> _]%put_request_command.
Qed.

Lemma expected_definite e : expected_cas_failure http_status e = true → definite (inl e : RpcError + KvResponse).
Proof.
  destruct e as [|[]]; cbn; try done. intros [_ H%bool_decide_eq_true]%andb_true_iff. done.
Qed.

(** The response to a put is the state machine's answer. *)
Lemma put_response n w cl k v im inm a r :
  respond_at n w (put_request encode_value (next_sequence cl) k v im inm) a = (w, r) → definite r →
  match r, a with inr _, inr _ | inl _, inl _ => True | _, _ => False end ∧
  match a with inr _ => True | inl e => refusal e end.
Proof. unfold respond_at. cbn. intros [= <-]. destruct a as [e|[]]; cbn; done. Qed.

Lemma calm_weaken c (P P' : KvCommand → Prop) w : (∀ cmd, P cmd → P' cmd) → calm c P w → calm c P' w.
Proof. intros HP [Hp Ht]. split; [|done]. eapply Forall_impl; [done |]. intros cmd [H|H]; [by left | right; by apply HP]. Qed.

Section Put.

Context (w : World) (cl : KvClient) (k : N) (v : Value) (im : string) (inm : bool).
Context (A : option (option Value) * option (option Value) → Prop).
Local Abbreviation c := (cl_session cl).
Local Abbreviation q := (cl_sequence cl).
Local Abbreviation cmd := (put_cmd cl k v im inm).

(** The changes the put can make are of the kind [A]. *)
Context (HA : ∀ cs, let s := kv_run (kv_state w) cs in kv_entries (kv_apply s cmd).1 ≠ kv_entries s →
  A (register decode_value s k, register decode_value (kv_apply s cmd).1 k)).

Lemma put_definite w1 w' r :
  client_ok w cl → grows c (fun x => up_to c q x ∨ x = cmd) w w1 →
  rpc w1 (put_request encode_value (next_sequence cl) k v im inm) = (w', r) → definite r →
  ∃ new, w_log w' = w_log w ++ new ∧ settled c (q + 1) (kv_state w') ∧
    match r with
    | inr _ => ∃ change, effects decode_value c (q + 1) k (kv_state w) new = [change] ∧ A change
    | inl _ => effects decode_value c (q + 1) k (kv_state w) new = []
    end.
Proof.
  intros [Hcalm Hu] Hg Hr Hd. set (P := fun x => up_to c q x ∨ x = cmd) in *.
  assert (∀ y, request_command (put_request encode_value (next_sequence cl) k v im inm) = inr y → allowed c P y) as Hal
    by (by intros ? [-> _]%put_request_command; right; right).
  assert (calm c P w) as Hc by (eapply calm_weaken; [|done]; unfold P; naive_solver).
  pose proof (grows_trans _ _ _ _ _ Hg (rpc_grows c P w1 _ Hal) Hc) as (_ & new & En & Fn).
  rewrite Hr in En. cbn [fst] in En.
  destruct (rpc_definite c P w1 _ w' r (proj1 (Hg Hc)) Hr Hd) as (cmd' & i & n & Hrq & Hi & _ & Hresp & _).
  apply put_request_command in Hrq as [-> Hv]. apply put_response in Hresp as [Hkind Href]; [|done].
  unfold result_at in Hkind, Href. rewrite En in Hi, Hkind, Href.
  assert (length (w_log w) ≤ i)%nat as Hle.
  { apply Nat.nlt_ge. intros Hlt. rewrite lookup_app_l in Hi by done. rewrite take_app_le in Href by lia.
    destruct (answered_settled _ _ _ c (q + 1) _ Hi eq_refl Hv Href) as (x & Hx & Hq). specialize (Hu x Hx). lia. }
  exists new. split; [done |]. rewrite lookup_app_r in Hi by done.
  rewrite take_app_ge, kv_run_app in Hkind, Href by done. set (j := (i - length (w_log w))%nat) in *.
  destruct (request_answered decode_value c q k cmd (MPut (mkKvName kv_namespace (kv_key k)) (encode_value v) im inm) A
    eq_refl (fun _ => eq_refl) (kv_state w) (take j new) (kv_run_inv _ _ kv_new_inv) Hu) as [Hset Hans];
    [by apply Forall_take | done.. |].
  rewrite <- (take_drop_middle new j cmd Hi).
  replace (kv_state w') with (kv_run (kv_run (kv_state w) (take j new ++ [cmd])) (drop (S j) new));
    [|unfold kv_state; by rewrite En, <- !kv_run_app, <- !app_assoc; cbn [app]; rewrite (take_drop_middle new j cmd Hi)].
  split; [by apply kv_run_settled; [repeat apply kv_run_inv; apply kv_new_inv |] |].
  rewrite (cons_middle cmd (take j new)), app_assoc, effects_app, (effects_settled _ _ _ _ (drop (S j) new)), app_nil_r;
    [|by apply kv_run_inv, kv_run_inv, kv_new_inv | done].
  unfold kv_state in *. destruct (kv_apply _ cmd).2, r; done.
Qed.

Lemma put_value_result w' cl' r :
  client_ok w cl → put_value encode_value http_status w cl k v im inm = (w', cl', r) →
  cl_session cl' = c ∧ cl_sequence cl' = q + 1 ∧
  (r = inr tt ∨ (∃ e, r = inl (RpcFailed e) ∧ expected_cas_failure http_status e = true) →
   ∃ new, w_log w' = w_log w ++ new ∧ settled c (q + 1) (kv_state w') ∧
     match r with
     | inr _ => ∃ change, effects decode_value c (q + 1) k (kv_state w) new = [change] ∧ A change
     | inl _ => effects decode_value c (q + 1) k (kv_state w) new = []
     end).
Proof.
  unfold put_value. cbn [cl_leader next_sequence].
  destruct (with_leader_retry _ _ _ _ _) as [[w2 l] r2] eqn:E. intros Hok [= <- <- <-]. split_and!; [done.. |].
  intros Hr. pose proof (retry_last c (fun x => up_to c q x ∨ x = cmd) _ _ _ _ _ _ _
    (if r2 is inl (RpcFailed e) then inl e else if r2 is inr x then inr x else inl NoStatus)
    ltac:(by intros ? [-> _]%put_request_command; right; right) E) as Hl.
  destruct r2 as [f|x].
  - destruct Hr as [?|(e & [= ->] & He)]; [done |]. destruct (Hl eq_refl) as (w1 & Hg & Hrpc).
    by destruct (put_definite w1 w2 _ Hok Hg Hrpc (expected_definite _ He)) as (new & ? & ? & ?); exists new.
  - destruct (Hl eq_refl) as (w1 & Hg & Hrpc).
    by destruct (put_definite w1 w2 _ Hok Hg Hrpc I) as (new & ? & ? & ?); exists new.
Qed.

(** The put after a part of the log, [new1], that has none of its commands, and before
    any further part, [later], in which only it has its sequence number. *)
Lemma put_phase w0 new1 w' cl' r :
  client_ok w cl → w_log w = w_log w0 ++ new1 → Forall (allowed c (up_to c q)) new1 →
  put_value encode_value http_status w cl k v im inm = (w', cl', r) →
  calm c (fun x => up_to c q x ∨ x = cmd) w' ∧
  ∃ new2, w_log w' = w_log w ++ new2 ∧ Forall (allowed c (fun x => up_to c q x ∨ x = cmd)) new2 ∧
  ∀ later, Forall (fun x => of_request c (q + 1) x = true → x = cmd) later →
  let E := effects decode_value c (q + 1) k (kv_state w0) ((new1 ++ new2) ++ later) in
  (E = [] ∨ ∃ change, E = [change] ∧ A change) ∧
  (r = inr tt → ∃ change, E = [change] ∧
     effects decode_value c (q + 1) k (kv_state w0) (new1 ++ new2) = [change] ∧ A change) ∧
  (∀ e, r = inl (RpcFailed e) → expected_cas_failure http_status e = true → E = []).
Proof.
  intros Hok Ew F1 Hput. destruct (put_value_result w' cl' r Hok Hput) as (_ & _ & Hres).
  pose proof (put_value_grows c (fun x => up_to c q x ∨ x = cmd) w cl k v im inm ltac:(by right; right)) as Hg.
  rewrite Hput in Hg. cbn [fst] in Hg. destruct Hg as (Hc' & new2 & E2 & F2).
  { eapply calm_weaken; [|apply Hok]. naive_solver. }
  split; [done |]. exists new2. split_and!; [done.. |]. intros later Hl. cbn zeta.
  assert (kv_inv (kv_state w)) as Hinv by (apply kv_run_inv, kv_new_inv).
  assert (kv_run (kv_state w0) new1 = kv_state w) as Ew0 by (unfold kv_state; by rewrite Ew, kv_run_app).
  assert (kv_run (kv_state w) new2 = kv_state w') as Ew' by (unfold kv_state; by rewrite E2, kv_run_app).
  assert (∀ x, allowed c (up_to c q) x → of_request c (q + 1) x = false) as Hun.
  { intros x Hx. apply not_true_iff_false. intros [req Hm]%of_request_true. destruct Hx as [Hx|Hx].
    - unfold client_of in Hx. by rewrite Hm in Hx.
    - specialize (Hx _ _ Hm). lia. }
  rewrite <- (app_assoc new1), !(effects_app _ _ _ _ new1), (effects_unrelated _ _ _ _ new1), Ew0;
    [|eapply Forall_impl; [done | by apply Hun]]. cbn [app].
  split; [|split].
  - apply (effects_once _ _ _ _ A cmd); [done | | done]. apply Forall_app. split; [|done].
    eapply Forall_impl; [done |]. intros x [Hx|[Hx| ->]] Hq; [| |done]; exfalso.
    + by rewrite (Hun x (or_introl Hx)) in Hq.
    + by rewrite (Hun x (or_intror Hx)) in Hq.
  - intros ->. destruct Hres as (new & En & Hset & change & Hch & HA'); [by left |].
    rewrite E2 in En. apply app_inv_head in En as <-. exists change.
    rewrite effects_app, Ew', (effects_settled _ _ _ _ later), app_nil_r; [done | by apply kv_run_inv, kv_new_inv | done].
  - intros e -> He. destruct Hres as (new & En & Hset & Hch); [by right; eexists |].
    rewrite E2 in En. apply app_inv_head in En as <-.
    rewrite effects_app, Ew', (effects_settled _ _ _ _ later), app_nil_r; [done | by apply kv_run_inv, kv_new_inv | done].
Qed.

End Put.

(** A length of the log up to the end of an operation and, when requests are completed by
    their own entries, not before its start. *)
Definition passed (w w' : World) (n : nat) : Prop :=
  (n ≤ length (w_log w'))%nat ∧ (own = true → (length (w_log w) ≤ n)%nat).

(** What a get finds in a state. *)
Lemma get_response s k :
  match finish_request s (RqGet kv_namespace (kv_key k)) (inr AReadBarrier) with
  | inr (RsGet x) => ∃ v, kv_entries s !! mkKvName kv_namespace (kv_key k) = Some v ∧
      rec_etag v = get_etag x ∧ rec_body v = get_body x
  | inr _ => False
  | inl (not_found _) => kv_entries s !! mkKvName kv_namespace (kv_key k) = None
  | inl _ => True
  end.
Proof.
  cbn [finish_request]. unfold get. destruct (kv_name_new _ _) as [e|n] eqn:En; cbn [read_barrier].
  - unfold kv_name_new in En. repeat case_match; by simplify_eq.
  - assert (n = mkKvName kv_namespace (kv_key k)) as -> by (unfold kv_name_new in En; repeat case_match; congruence).
    destruct (kv_entries s !! _) as [v|]; [|done]. unfold body_len.
    destruct (vlen (rec_body v) <? u64_modulus); [by exists v | done].
Qed.

(** A read returns the entry of a state the log has been through. *)
Lemma get_value_result w cl k w' cl' r :
  client_ok w cl → get_value http_status w cl k = (w', cl', r) →
  cl_session cl' = cl_session cl ∧ cl_sequence cl' = cl_sequence cl ∧
  match r with
  | inr (etag, body) => ∃ n v, passed w w' n ∧
      kv_entries (kv_run kv_new (take n (w_log w'))) !! mkKvName kv_namespace (kv_key k) = Some v ∧
      rec_etag v = etag ∧ rec_body v = body
  | inl (RpcFailed e) => is_not_found http_status e = true → ∃ n, passed w w' n ∧
      kv_entries (kv_run kv_new (take n (w_log w'))) !! mkKvName kv_namespace (kv_key k) = None
  | inl _ => True
  end.
Proof.
  unfold get_value. destruct (with_leader_retry _ _ _ _ _) as [[w2 l] r2] eqn:E. intros [Hcalm _] [= <- <- <-].
  split_and!; [done.. |].
  assert (∀ cmd, request_command (RqGet kv_namespace (kv_key k)) = inr cmd →
    allowed (cl_session cl) (up_to (cl_session cl) (cl_sequence cl)) cmd) as Hal.
  { cbn. intros cmd. case_match; [done |]. intros [= <-]. by left. }
  assert (∀ r', last_rpc r2 = Some r' → definite r' → ∃ n, passed w w2 n ∧
    respond_at n w2 (RqGet kv_namespace (kv_key k)) (inr AReadBarrier) = (w2, r')) as Hl.
  { intros r' Hr' Hd. destruct (retry_last _ _ _ _ _ _ _ _ _ _ Hal E Hr') as (w1 & Hg & Hrpc).
    destruct (Hg Hcalm) as (Hc1 & new & En & _).
    destruct (rpc_definite _ _ _ _ _ _ Hc1 Hrpc Hd) as (cmd & i & n & Hcmd & _ & Hn & Hr & Hown).
    exists n. split; [split; [lia |] |].
    - intros Ho. specialize (Hown Ho). rewrite En, length_app in Hown. lia.
    - cbn in Hcmd. destruct (kv_name_new _ _); [done |]. by injection Hcmd as <-. }
  clear E. destruct r2 as [[|e|]|x]; [done | | done |].
  - intros He. destruct e as [|[]]; cbn in He; try done. destruct (Hl _ eq_refl I) as (n & Hn & Ha%(f_equal snd)).
    cbn [respond_at snd] in Ha. pose proof (get_response (kv_run kv_new (take n (w_log w2))) k) as Hg.
    exists n. split; [done |]. destruct (finish_request _ _ _); by simplify_eq/=.
  - destruct (Hl _ eq_refl I) as (n & Hn & Ha%(f_equal snd)). cbn [respond_at snd] in Ha.
    pose proof (get_response (kv_run kv_new (take n (w_log w2))) k) as Hg.
    destruct (finish_request _ _ _) as [|y]; [done |]. injection Ha as <-. destruct y; try done.
    destruct Hg as (v & Hg). by exists n, v.
Qed.

(** *** The changes of a put *)

(** The text encoding of values. *)
Definition value_codec_ok : Prop := ∀ v, decode_value (encode_value v) = Some (Some v).

Context (Hcodec : value_codec_ok).

Lemma put_change s cl k v im inm :
  kv_inv s → kv_entries (kv_apply s (put_cmd cl k v im inm)).1 ≠ kv_entries s →
  check_put_preconditions (kv_entries s !! mkKvName kv_namespace (kv_key k)) im inm = inr tt ∧
  register decode_value (kv_apply s (put_cmd cl k v im inm)).1 k = Some (Some v).
Proof.
  intros Hinv Hne. pose proof (kv_apply_spec s (put_cmd cl k v im inm) Hinv) as Hspec.
  split; [by apply (kv_spec_condition _ _ _ _ _ _ _ Hspec eq_refl Hne) |].
  unfold register. destruct (kv_apply s _) as [s' r]. cbn [fst snd] in *.
  inversion Hspec; subst; cbn in Hne |- *; try done. rewrite lookup_insert_eq. apply Hcodec.
Qed.

Lemma write_allows w cl k v cs :
  let s := kv_run (kv_state w) cs in kv_entries (kv_apply s (put_cmd cl k v "" false)).1 ≠ kv_entries s →
  allows (Write v) (register decode_value s k, register decode_value (kv_apply s (put_cmd cl k v "" false)).1 k).
Proof. intros s Hne. by apply put_change; [apply kv_run_inv, kv_run_inv, kv_new_inv |]. Qed.

Lemma cas_absent_allows w cl k to cs :
  let s := kv_run (kv_state w) cs in kv_entries (kv_apply s (put_cmd cl k to "" true)).1 ≠ kv_entries s →
  allows (Cas None to) (register decode_value s k, register decode_value (kv_apply s (put_cmd cl k to "" true)).1 k).
Proof.
  intros s Hne. destruct (put_change s cl k to "" true) as [Hc ->]; [apply kv_run_inv, kv_run_inv, kv_new_inv | done |].
  cbn. unfold register. destruct (kv_entries s !! _); [done |]. done.
Qed.

Lemma cas_present_allows w n cl k v to entry cs :
  kv_entries (kv_run kv_new (take n (w_log w))) !! mkKvName kv_namespace (kv_key k) = Some entry →
  decode_value (rec_body entry) = Some v →
  let s := kv_run (kv_state w) cs in let cmd := put_cmd cl k to (rec_etag entry) false in
  kv_entries (kv_apply s cmd).1 ≠ kv_entries s →
  allows (Cas v to) (register decode_value s k, register decode_value (kv_apply s cmd).1 k).
Proof.
  intros He Hd s cmd Hne. subst cmd. set (s0 := kv_run kv_new (take n (w_log w))) in *.
  assert (kv_inv s0) as Hinv by (apply kv_run_inv, kv_new_inv).
  assert (s = kv_run s0 (drop n (w_log w) ++ cs)) as Es
    by (subst s s0; unfold kv_state; by rewrite <- (take_drop n (w_log w)) at 1; rewrite !kv_run_app).
  rewrite Es in Hne |- *. clear s Es. set (s := kv_run s0 _) in *.
  destruct (put_change s cl k to (rec_etag entry) false) as [Hc ->]; [by apply kv_run_inv | done |].
  destruct (condition_names_version (kv_entries s !! mkKvName kv_namespace (kv_key k))
    (MPut (mkKvName kv_namespace (kv_key k)) (encode_value to) (rec_etag entry) false) Hc) as (v' & Hv' & Het).
  { destruct (ki_entries _ Hinv _ _ He) as (_ & Hetag & _). cbn. by rewrite Hetag. }
  destruct (kv_same_etag s0 _ _ _ entry v' Hinv He Hv') as [_ <-]; [done |].
  unfold allows, register. by rewrite Hv', Hd.
Qed.

(** *** One operation *)

Local Abbreviation invoke := (invoke encode_value decode_value http_status).
Local Abbreviation atomic := (atomic decode_value own).

(** What an operation leaves: the client goes on with a log extended by [new], and
    in every further log the operation is atomic. [Q] holds for the client's commands
    that may still be on their way. *)
Definition leaves (w : World) (cl : KvClient) (k : N) (op : Op) (w' : World) (cl' : KvClient)
    (x : Completion) : Prop :=
  let c := cl_session cl in
  cl_session cl' = c ∧ cl_sequence cl ≤ cl_sequence cl' ∧ client_ok w' cl' ∧
  (∃ new, w_log w' = w_log w ++ new) ∧
  ∃ Q : KvCommand → Prop, calm c Q w' ∧
    ∀ later, Forall (allowed c (fun y => Q y ∨ ∀ q req, mutation y = Some (c, q, req) → cl_sequence cl' < q)) later →
    atomic c (w_log w' ++ later)
      (mkDone k op (used_sequence cl cl') (length (w_log w)) (length (w_log w')) x).

(** The log split at the start and the end of an operation. *)
Lemma atomic_split c (log new later : list KvCommand) k op sq x :
  let d := mkDone k op sq (length log) (length (log ++ new)) x in
  let s0 := kv_run kv_new log in
  let ever := changes decode_value c d s0 (new ++ later) in
  match x with
  | OkRead v =>
      op = Read ∧ ∃ n, (n ≤ length (log ++ new))%nat ∧ (own = true → (length log ≤ n)%nat) ∧
        register decode_value (kv_run kv_new (take n (log ++ new))) k = Some v
  | OkDone => ∃ change, ever = [change] ∧ changes decode_value c d s0 new = [change] ∧ allows op change
  | FailDone => ever = []
  | InfoDone _ | Thrown _ => ever = [] ∨ ∃ change, ever = [change] ∧ allows op change
  end → atomic c ((log ++ new) ++ later) d.
Proof.
  intros d s0 ever H. unfold Register.atomic. subst d. cbn [d_start d_end d_completion d_op d_key].
  rewrite (take_app_length (log ++ new)), <- (app_assoc log), take_app_length, !drop_app_length. destruct x; try exact H.
  destruct H as [-> (n & Hn & Ho & Hr)]. split; [done |]. exists n. rewrite app_assoc, take_app_le by done. done.
Qed.

(** An operation that has only read. *)
Lemma reads_leave w cl k op w' cl' x new :
  client_ok w cl → cl_session cl' = cl_session cl → cl_sequence cl' = cl_sequence cl →
  calm (cl_session cl) (up_to (cl_session cl) (cl_sequence cl)) w' →
  w_log w' = w_log w ++ new → Forall (allowed (cl_session cl) (up_to (cl_session cl) (cl_sequence cl))) new →
  match x with
  | OkRead v => op = Read ∧ ∃ n, passed w w' n ∧ register decode_value (kv_run kv_new (take n (w_log w'))) k = Some v
  | OkDone => False
  | _ => True
  end → leaves w cl k op w' cl' x.
Proof.
  intros [_ Hu] Hs Hq Hc El Hnew Hx. split_and!; [done | lia | split | by eexists |].
  - by rewrite Hs, Hq.
  - rewrite Hs, Hq. unfold kv_state. rewrite El, kv_run_app.
    apply kv_run_unseen; [apply kv_run_inv, kv_new_inv | done..].
  - eexists. split; [done |]. intros later _. rewrite El. apply atomic_split.
    unfold changes, used_sequence. rewrite Hq, N.eqb_refl. cbn. destruct x; try done; try (by left).
    destruct Hx as [-> (n & [Hn Ho] & Hx)]. rewrite El in Hn, Hx. by eauto 10.
Qed.

(** An operation that, after reading [new1], has come to a put. *)
Lemma put_leaves w0 cl0 new1 w cl k op v im inm w' cl' r x :
  client_ok w cl → cl_session cl = cl_session cl0 → cl_sequence cl = cl_sequence cl0 →
  w_log w = w_log w0 ++ new1 → Forall (allowed (cl_session cl) (up_to (cl_session cl) (cl_sequence cl))) new1 →
  put_value encode_value http_status w cl k v im inm = (w', cl', r) →
  (∀ cs, let s := kv_run (kv_state w) cs in let cmd := put_cmd cl k v im inm in
    kv_entries (kv_apply s cmd).1 ≠ kv_entries s →
    allows op (register decode_value s k, register decode_value (kv_apply s cmd).1 k)) →
  match x with
  | OkRead _ => False
  | OkDone => r = inr tt
  | FailDone => ∃ e, r = inl (RpcFailed e) ∧ expected_cas_failure http_status e = true
  | _ => True
  end → leaves w0 cl0 k op w' cl' x.
Proof.
  intros Hok Hs Hq El F1 Hput HA Hx. unfold leaves. rewrite <- Hs, <- Hq.
  destruct (put_value_result w cl k v im inm (allows op) HA w' cl' r Hok Hput) as (Hs' & Hq' & _).
  destruct (put_phase w cl k v im inm (allows op) HA w0 new1 w' cl' r Hok El F1 Hput) as (Hc' & new2 & E2 & F2 & Hph).
  assert (∀ y, up_to (cl_session cl) (cl_sequence cl) y ∨ y = put_cmd cl k v im inm →
    up_to (cl_session cl) (cl_sequence cl + 1) y) as Hup.
  { intros y [Hy| ->] q req Hm; [specialize (Hy _ _ Hm); lia | cbn in Hm; simplify_eq; lia]. }
  split_and!; [done | lia | split | by exists (new1 ++ new2); rewrite E2, El, <- app_assoc |].
  - rewrite Hs', Hq'. exact (calm_weaken _ _ _ _ Hup Hc').
  - rewrite Hs', Hq'. unfold kv_state. rewrite E2, kv_run_app. apply kv_run_unseen; [apply kv_run_inv, kv_new_inv | |].
    + eapply Forall_impl; [done |]. intros y [Hy|Hy]; [by left | right; by apply Hup].
    + intros y Hy. specialize (co_unseen _ w cl Hok y Hy). lia.
  - eexists. split; [done |]. intros later Hl. rewrite E2, El, <- (app_assoc _ new1 new2). apply atomic_split.
    destruct (Hph later) as (Hany & Hdone & Hfail).
    { eapply Forall_impl; [done |]. intros y Hy [req Hm]%of_request_true. destruct Hy as [Hy|[[Hy|Hy]|Hy]]; [| |done|].
      - unfold client_of in Hy. by rewrite Hm in Hy.
      - specialize (Hy _ _ Hm). lia.
      - specialize (Hy _ _ Hm). lia. }
    unfold changes, used_sequence. rewrite Hq', <- Hq, (proj2 (N.eqb_neq _ _)) by lia. cbn [d_sequence d_key].
    unfold kv_state in *. destruct x; [done | by apply Hdone | | done..].
    destruct Hx as (e & -> & He). by apply (Hfail e).
Qed.

(** *** Every operation *)

Lemma get_value_leaves w cl k w1 cl1 r :
  client_ok w cl → get_value http_status w cl k = (w1, cl1, r) →
  calm (cl_session cl) (up_to (cl_session cl) (cl_sequence cl)) w1 ∧ client_ok w1 cl1 ∧
  ∃ new, w_log w1 = w_log w ++ new ∧ Forall (allowed (cl_session cl) (up_to (cl_session cl) (cl_sequence cl))) new.
Proof.
  intros Hok Hg. pose proof (get_value_grows (cl_session cl) (up_to (cl_session cl) (cl_sequence cl)) w cl k) as H.
  rewrite Hg in H. destruct (H (co_calm _ _ _ Hok)) as (Hc & new & E & F). cbn [fst] in *.
  destruct (get_value_result _ _ _ _ _ _ Hok Hg) as (Hs & Hq & _). split_and!; [done | | by eexists].
  split; rewrite Hs, Hq; [done |]. unfold kv_state. rewrite E, kv_run_app.
  apply kv_run_unseen; [apply kv_run_inv, kv_new_inv | done | apply Hok].
Qed.

Lemma read_leaves w cl k w' cl' x :
  client_ok w cl → invoke w cl k Read = (w', cl', x) → leaves w cl k Read w' cl' x.
Proof.
  intros Hok. unfold Register.invoke, read_op. destruct (get_value _ _ _ _) as [[w1 cl1] r] eqn:Eg. intros [= <- <- <-].
  destruct (get_value_result _ _ _ _ _ _ Hok Eg) as (Hs & Hq & Hr).
  destruct (get_value_leaves _ _ _ _ _ _ Hok Eg) as (Hc & _ & new & E & F).
  eapply reads_leave; [done.. |]. unfold register. destruct r as [[|e|]|[etag body]]; cbn [complete]; [done | | done |].
  - destruct (is_not_found http_status e) eqn:En; cbn [complete]; [|by destruct (recoverable_rpc_error http_status e)].
    destruct (Hr eq_refl) as (n & Hn & He). split; [done |]. exists n. by rewrite He.
  - destruct Hr as (n & v & Hn & He & _ & <-). destruct (decode_value (rec_body v)) eqn:Ed; [|done].
    split; [done |]. exists n. by rewrite He.
Qed.

Lemma write_leaves w cl k v w' cl' x :
  client_ok w cl → invoke w cl k (Write v) = (w', cl', x) → leaves w cl k (Write v) w' cl' x.
Proof.
  intros Hok. unfold Register.invoke, write_op. destruct (put_value _ _ _ _ _ _ _ _) as [[w1 cl1] r] eqn:Ep.
  intros [= <- <- <-]. eapply (put_leaves w cl [] w cl); [done.. | by rewrite app_nil_r | done | done | apply write_allows |].
  destruct r as [[|e|]|[]]; cbn; try done. by destruct (recoverable_rpc_error http_status e).
Qed.

Lemma cas_leaves w cl k from to w' cl' x :
  client_ok w cl → invoke w cl k (Cas from to) = (w', cl', x) → leaves w cl k (Cas from to) w' cl' x.
Proof.
  intros Hok. unfold Register.invoke, cas_op. destruct from as [from|].
  - destruct (get_value _ _ _ _) as [[w1 cl1] r] eqn:Eg.
    destruct (get_value_result _ _ _ _ _ _ Hok Eg) as (Hs & Hq & Hr).
    destruct (get_value_leaves _ _ _ _ _ _ Hok Eg) as (Hc & Hok1 & new & E & F).
    destruct r as [e|[etag body]].
    { intros [= <- <- <-]. eapply reads_leave; [done.. |]. destruct e as [|e|]; cbn; try done.
      destruct (expected_cas_failure http_status e); cbn; [done | by destruct (recoverable_rpc_error http_status e)]. }
    destruct (decode_value body) as [v|] eqn:Ed; [|intros [= <- <- <-]; by eapply reads_leave].
    case_decide as Hv; [|intros [= <- <- <-]; by eapply reads_leave]. subst v.
    destruct Hr as (n & entry & _ & He & <- & Hb). rewrite <- Hb in Ed.
    destruct (put_value _ _ _ _ _ _ _ _) as [[w2 cl2] r] eqn:Ep. intros [= <- <- <-].
    eapply (put_leaves w cl new w1 cl1); [done.. | by rewrite Hs, Hq | done | intros cs; by apply (cas_present_allows _ n) |].
    destruct r as [[|e|]|[]]; cbn; try done. destruct (expected_cas_failure http_status e) eqn:Ee; cbn;
      [by eauto | by destruct (recoverable_rpc_error http_status e)].
  - destruct (put_value _ _ _ _ _ _ _ _) as [[w1 cl1] r] eqn:Ep. intros [= <- <- <-].
    eapply (put_leaves w cl [] w cl); [done.. | by rewrite app_nil_r | done | done | apply cas_absent_allows |].
    destruct r as [[|e|]|[]]; cbn; try done. destruct (expected_cas_failure http_status e) eqn:Ee; cbn;
      [by eauto | by destruct (recoverable_rpc_error http_status e)].
Qed.

Lemma invoke_leaves w cl k op w' cl' x :
  client_ok w cl → invoke w cl k op = (w', cl', x) → leaves w cl k op w' cl' x.
Proof. destruct op; [apply read_leaves | apply write_leaves | apply cas_leaves]. Qed.

Lemma invoke_grows c P w cl k op :
  (∀ y q req, mutation y = Some (cl_session cl, q, req) → cl_sequence cl < q → allowed c P y) →
  client_ok w cl → grows c P w (invoke w cl k op).1.1.
Proof.
  intros HP Hok. assert (∀ w1 cl1 v im inm, cl_session cl1 = cl_session cl → cl_sequence cl1 = cl_sequence cl →
    grows c P w1 (put_value encode_value http_status w1 cl1 k v im inm).1.1) as Hput.
  { intros w1 cl1 v im inm Hs Hq. apply put_value_grows. eapply HP; [|apply N.lt_add_pos_r, N.lt_0_1].
    cbn. by rewrite Hs, Hq. }
  pose proof (get_value_grows c P w cl k) as Hget.
  unfold Register.invoke. destruct op as [|v|[from|] to]; cbn.
  - unfold read_op. destruct (get_value _ _ _ _) as [[w1 cl1] r]. exact Hget.
  - unfold write_op. specialize (Hput w cl v "" false eq_refl eq_refl). by destruct (put_value _ _ _ _ _ _ _ _) as [[w1 cl1] r].
  - destruct (get_value _ _ _ _) as [[w1 cl1] r] eqn:Eg.
    destruct (get_value_result _ _ _ _ _ _ Hok Eg) as (Hs & Hq & _). destruct r as [e|[etag body]]; [exact Hget |].
    destruct (decode_value body) as [v|]; [|exact Hget]. case_decide; [|exact Hget].
    specialize (Hput w1 cl1 to etag false Hs Hq). destruct (put_value _ _ _ _ _ _ _ _) as [[w2 cl2] r]. by eapply grows_trans.
  - specialize (Hput w cl to "" true eq_refl eq_refl). by destruct (put_value _ _ _ _ _ _ _ _) as [[w1 cl1] r].
Qed.

(** *** The operations of a client *)

Local Abbreviation run_ops := (run_ops encode_value decode_value http_status).

Lemma run_grows ops : ∀ c P w cl,
  (∀ y q req, mutation y = Some (cl_session cl, q, req) → cl_sequence cl < q → allowed c P y) →
  client_ok w cl → grows c P w (run_ops w cl ops).1.1.
Proof.
  induction ops as [|[k op] ops IH]; intros c P w cl HP Hok; [apply grows_refl |]. cbn.
  pose proof (invoke_grows c P w cl k op HP Hok) as Hg.
  destruct (invoke w cl k op) as [[w1 cl1] x] eqn:E. destruct (invoke_leaves _ _ _ _ _ _ _ Hok E) as (Hs & Hq & Hok1 & _).
  specialize (IH c P w1 cl1). destruct (run_ops w1 cl1 ops) as [[w2 cl2] ds].
  eapply grows_trans; [exact Hg |]. apply IH; [|done]. intros y q req Hm Hlt.
  apply (HP y q req); [by rewrite <- Hs | lia].
Qed.

Lemma run_atomic ops : ∀ w cl w' cl' ds,
  client_ok w cl → run_ops w cl ops = (w', cl', ds) →
  Forall (atomic (cl_session cl) (w_log w')) ds ∧ StronglySorted precedes ds ∧
  Forall (fun d => (length (w_log w) ≤ d_start d ≤ d_end d)%nat ∧
                   ∀ q, d_sequence d = Some q → cl_sequence cl < q) ds.
Proof.
  induction ops as [|[k op] ops IH]; intros w cl w' cl' ds Hok; cbn.
  { intros [= <- <- <-]. split_and!; constructor. }
  destruct (invoke w cl k op) as [[w1 cl1] x] eqn:E.
  destruct (invoke_leaves _ _ _ _ _ _ _ Hok E) as (Hs & Hq & Hok1 & (new & Enew) & Q & HQ & Hat).
  destruct (run_ops w1 cl1 ops) as [[w2 cl2] ds2] eqn:Er. intros [= <- <- <-].
  destruct (IH _ _ _ _ _ Hok1 Er) as (Hat2 & Hsort & Hst). rewrite Hs in Hat2.
  pose proof (run_grows ops (cl_session cl)
    (fun y => Q y ∨ ∀ q req, mutation y = Some (cl_session cl, q, req) → cl_sequence cl1 < q) w1 cl1) as Hg.
  rewrite Er in Hg. destruct Hg as (_ & later & El & Fl).
  { intros y q req Hm Hlt. right. right. intros q' req' Hm'. rewrite Hs in Hm. simplify_eq. done. }
  { done. }
  { by eapply calm_weaken; [|apply HQ]; left. }
  cbn [fst] in El. rewrite El in *. assert (length (w_log w) ≤ length (w_log w1))%nat as Hlen
    by (rewrite Enew, length_app; lia).
  split_and!.
  - constructor; [by apply Hat | done].
  - constructor; [done |]. eapply Forall_impl; [done |]. intros d [Hd Hdq]. split; [cbn; lia |].
    unfold used_sequence. cbn. intros q q' Hsq Hq'. case_match; [done |]. simplify_eq. by apply Hdq.
  - constructor.
    + split; [cbn; lia |]. unfold used_sequence. cbn. intros q. destruct (N.eqb_spec (cl_sequence cl) (cl_sequence cl1)); [done |].
      intros [= <-]. lia.
    + eapply Forall_impl; [done |]. intros d [Hd Hdq]. split; [lia |]. intros q Hd'. specialize (Hdq q Hd'). lia.
Qed.

(** A session that no other client uses has seen no request when it is opened. *)
Lemma open_ok w w' cl :
  open http_status w = (w', inr cl) → private own (cl_session cl) w → client_ok w' cl.
Proof.
  intros Hopen [Hlog Hcalm]. set (c := cl_session cl) in *. set (P := fun _ : KvCommand => False) in *.
  assert (grows c P w w' ∧ cl_sequence cl = 0) as [Hg Hq].
  { revert Hopen. unfold open. pose proof (known_leader_grows c P w None) as Hk. cbn [known_leader] in Hk.
    destruct (await_leader w) as [w1 [node|]]; [|done]. unfold register_session.
    pose proof (retry_grows c P 20 w1 (Some node) RqRegisterSession) as Hr.
    destruct (with_leader_retry _ _ _ _ _) as [[w2 l] r]. cbn [fst] in *. intros Ho.
    assert (w2 = w' ∧ cl_sequence cl = 0) as [<- ->] by (destruct r as [e|[]]; by simplify_eq/=).
    split; [|done]. eapply grows_trans; [exact Hk |]. apply Hr. intros cmd [= <-]. by left. }
  destruct (Hg Hcalm) as (Hc & new & En & Fn). unfold P in *.
  split; rewrite Hq; [by eapply calm_weaken; [|apply Hc] |]. fold c. unfold kv_state. rewrite En.
  apply kv_run_unseen; [apply kv_new_inv | | done]. apply Forall_app. split.
  - eapply Forall_impl; [done |]. by left.
  - eapply Forall_impl; [done |]. intros y [Hy|[]]. by left.
Qed.

End Operations.

End Proofs.

(** *** Theorems *)

(** C29: the operations of the register client are atomic. Over one replicated log, take
    any run of a client that opens a session and invokes reads, writes and
    compare-and-sets, with any number of retries, any interleaving with other clients,
    and requests that are refused, lost, answered without the answer arriving, applied
    long after the client has given up on them, or completed by another entry with the
    same command. If no other client uses the session, then in the final log: a completed
    write or compare-and-set changed the register exactly once, during the operation, the
    latter from the expected value to the new one; a failed one never changed it; one with
    an unknown outcome changes it at most once, in the way it asked for; a read returned a
    value the register had at some point before the read ended, and, if every answered
    request was completed by its own entry ([own]), at a point during the read. The
    operations follow each other in the log in the order they were invoked, with growing
    sequence numbers. *)
Theorem register_operations_atomic {Value : Type} `{!EqDecision Value} (encode_value : Value → Body)
    (decode_value : Body → option (option Value)) (http_status : ConnectError → N) own w w0 cl ops w' cl' ds :
  value_codec_ok encode_value decode_value →
  open http_status w = (w0, inr cl) → private own (cl_session cl) w →
  run_ops encode_value decode_value http_status w0 cl ops = (w', cl', ds) →
  Forall (atomic decode_value own (cl_session cl) (w_log w')) ds ∧ StronglySorted precedes ds.
Proof.
  intros Hcodec Hopen Hpriv Hrun.
  by destruct (run_atomic own encode_value decode_value http_status Hcodec _ _ _ _ _ _ (open_ok _ _ _ _ _ Hopen Hpriv) Hrun)
    as (? & ? & _).
Qed.

(** JSON's two truth values, and the HTTP status of the codes of the Connect protocol. *)
Definition encode_bool (b : bool) : Body := String.list_byte_of_string (if b then "true" else "false").

Definition decode_bool (body : Body) : option (option bool) :=
  if decide (body = encode_bool true) then Some (Some true)
  else if decide (body = encode_bool false) then Some (Some false)
  else if decide (body = String.list_byte_of_string "null") then Some None
  else None.

Definition connect_status (e : ConnectError) : N :=
  match e with
  | invalid_argument _ | failed_precondition _ => 400
  | not_found _ => 404
  | aborted _ => 409
  | resource_exhausted _ => 429
  | internal _ => 500
  | unavailable _ => 503
  end.

(** A cluster in which the answer to the first write is lost, another client deletes the
    register between the read and the put of a compare-and-set, and a put that was
    left pending is applied one operation later. *)
Definition demo_world : World :=
  let served before := mkTurn (Some 1) before Served [] in
  mkWorld [] []
    [mkTurn (Some 1) [] (Refused (PENotLeader (Some 2))) [];
     served [Other RegisterSession];
     mkTurn (Some 2) [] (Unheard true) []; served [];
     served []; served [Other (Delete 1 1 kv_namespace (kv_key 0) "")];
     mkTurn (Some 3) [] (Unheard false) []; mkTurn None [] Served [];
     served [Late 0]].

Definition demo_operations : list (N * Op (Value := bool)) :=
  [(0, Write true); (0, Cas (Some true) false); (0, Cas None true); (0, Read)].

(** A cluster in which a deposed leader answers the last read with the entry of the first:
    the value it returns is the one that the second write has overwritten. *)
Definition stale_world : World :=
  let served := mkTurn (Some 1) [] Served [] in
  mkWorld [] [] [served; served; served; served; mkTurn (Some 2) [] (Taken 2 3) []].

Definition stale_operations : list (N * Op (Value := bool)) :=
  [(0, Write true); (0, Read); (0, Write false); (0, Read)].

Lemma register_operations_atomic_witness :
  (∃ w0 cl w' cl' ds,
    open connect_status demo_world = (w0, inr cl) ∧
    run_ops encode_bool decode_bool connect_status w0 cl demo_operations = (w', cl', ds) ∧
    map d_completion ds = [OkDone; FailDone; InfoDone NoLeader; OkRead (Some true)] ∧
    Forall (atomic decode_bool true (cl_session cl) (w_log w')) ds ∧ StronglySorted precedes ds) ∧
  (∃ w0 cl w' cl' ds,
    open connect_status stale_world = (w0, inr cl) ∧
    run_ops encode_bool decode_bool connect_status w0 cl stale_operations = (w', cl', ds) ∧
    map d_completion ds = [OkDone; OkRead (Some true); OkDone; OkRead (Some true)] ∧
    Forall (atomic decode_bool false (cl_session cl) (w_log w')) ds ∧ StronglySorted precedes ds).
Proof.
  split; do 5 eexists; (split; [vm_compute; reflexivity |]); (split; [vm_compute; reflexivity |]);
    (split; [vm_compute; reflexivity |]);
    [eapply (register_operations_atomic encode_bool decode_bool connect_status true demo_world _ _ demo_operations) |
     eapply (register_operations_atomic encode_bool decode_bool connect_status false stale_world _ _ stale_operations)];
    try (vm_compute; reflexivity); try (by intros []);
    (split; [constructor |]; split; [constructor |]; repeat constructor; discriminate).
Defined.
