(* ===== verification/Replica.v ===== *)
(** * The replicated service

    The nodes of Cluster.v with the answers they give, and the KV service on top of
    them: cloud9-node/src/runtime.rs from the log to the waiting request. A proposal
    waits at the index of its entry; when an entry is applied at that index, the
    waiter is told the result if the bytes of the command are the same
    ([PendingProposal::complete]).

    The theorems, for executions whose append requests are [covered] (Safety.v): the
    answers of all nodes are results of commands in one log; a node that has applied
    the entry of a proposal has applied everything that any node had answered before
    the proposal was made. Two executions show that comparing bytes is not enough
    for the second to carry over to the answers: the commands [RegisterSession] and
    [ReadBarrier] have the same bytes whoever sends them, so that a deposed leader
    takes the entry of another request for its own. *)

From stdpp Require Import pretty.
From S2P Require Import Prelude BTree Membership Log Event Core Role Follower PreCandidate Candidate Leader.
From S2P Require Import Node Raft Refine Completeness CommitSteps Progress Store Runtime Cluster Safety Kv Service.

Open Scope N_scope.

Section Replica.

Context {Addr : Type} `{!EqDecision Addr}.
Context {Bytes : Type} (encode : PersistentDelta → option Bytes) (decode : Bytes → option PersistentDelta).
Context {State Res : Type} (apply_command : State → Command → State * Res) (init_state : State).
Context (table : list (NodeId * Addr)) (consensus_of : NodeId → Config).

Local Abbreviation runtime := (RaftRuntime Addr Bytes State).
Local Abbreviation cluster := (Cluster Addr Bytes State).
Local Abbreviation exec := (exec encode decode apply_command init_state).
Local Abbreviation exec_all := (exec_all encode decode apply_command init_state).
Local Abbreviation init_cluster := (init_cluster decode init_state table consensus_of).
Local Abbreviation all_covered := (all_covered encode decode apply_command init_state).
Local Abbreviation sinv := (sinv decode apply_command init_state table consensus_of).
Local Abbreviation cfg := (cfg table).

(** The results an operation of a runtime sends to waiting proposals. *)
Definition outcome {E} (r : option (runtime * Output Res * E)) : list (N * option Res) :=
  match r with Some (_, out, _) => completed out | None => [] end.

(** The answers an action makes a node give: the node, the proposal and its result. *)
Definition answered (s : cluster) (act : Action) : list (NodeId * (N * option Res)) :=
  match act with
  | ATick i wal_ok =>
      match runtimes s !! i with
      | Some rt => map (pair i) (outcome (tick_once encode apply_command wal_ok rt))
      | None => []
      end
  | ADeliver k wal_ok =>
      match network s !! k with
      | Some m =>
          match runtimes s !! msg_to m with
          | Some rt =>
              match validate_message (rt_config rt) m with
              | Some _ => []
              | None => map (pair (msg_to m)) (outcome (runtime_step encode apply_command wal_ok rt m))
              end
          | None => []
          end
      | None => []
      end
  | APropose i bytes wal_ok =>
      match runtimes s !! i with
      | Some rt => map (pair i) (outcome (propose encode apply_command wal_ok rt bytes))
      | None => []
      end
  | AFinish _ _ _ | ARestart _ => []
  end.

(** The proposal [k] of a runtime has the command [bytes]: it waits, or is being made. *)
Definition asked (rt : runtime) (act : Action) (k : N) (bytes : list Byte.byte) : Prop :=
  (∃ b p, rt_waiters rt !! b = Some p ∧ pp_id p = k ∧ pp_command p = bytes) ∨
  (∃ i wal_ok, act = APropose i bytes wal_ok ∧ k = rt_next_proposal_id rt).

(** *** The loop over the committed entries *)

Lemma apply_loop_placed fuel : ∀ (rt : runtime) olds k r,
  log_wf (log (core (rt_node rt))) → commit_index (core (rt_node rt)) < u64_max →
  last_applied (core (rt_node rt)) < u64_max →
  (k, Some r) ∈ (apply_loop apply_command fuel rt olds).2 →
  (k, Some r) ∈ olds ∨
  ∃ p es1 e es2, committed (rt_node rt) = es1 ++ e :: es2 ∧ rt_waiters rt !! ce_index e = Some p ∧ pp_id p = k ∧
    ce_command e = mkCommand (pp_command p) ∧
    r = (apply_command (apply_all apply_command (rt_state rt) es1) (ce_command e)).2.
Proof.
  induction fuel as [|fuel IH]; intros rt olds k r Hw Hc Ha; cbn [apply_loop]; [by left |].
  destruct (committed (rt_node rt)) as [|entry rest] eqn:He; [by left |].
  destruct (committed_cons _ _ _ Hw Hc Ha He) as [Hk Hrest].
  unfold apply_entry. destruct (apply_command (rt_state rt) (ce_command entry)) as [st res] eqn:Hap.
  destruct (complete_waiter _ _ _ _) as [ws comp] eqn:Ew. set (rt1 := mkRaftRuntime _ _ _ _ _ _ _). intros Hin.
  destruct (IH rt1 (olds ++ comp) k r Hw Hc ltac:(cbn; lia) Hin) as [[?|Hcomp]%elem_of_app|Hlater]; [by left | right..].
  - unfold complete_waiter in Ew. destruct (rt_waiters rt !! ce_index entry) as [p|] eqn:Hp; injection Ew as <- <-;
      [|by apply elem_of_nil in Hcomp]. apply list_elem_of_singleton in Hcomp. unfold complete in Hcomp.
    case_bool_decide as Hb; [|done]. injection Hcomp as -> ->. exists p, [], entry, rest. split_and!; [done.. | |].
    + rewrite Hb. by destruct (ce_command entry).
    + cbn. by rewrite Hap.
  - destruct Hlater as (p & es1 & e & es2 & Hes & Hp & Hid & Hcmd & ->).
    exists p, (entry :: es1), e, es2. split_and!; [by rewrite <- Hrest, <- app_comm_cons, <- Hes | | done | done |].
    + cbn [rt_waiters rt1] in Hp. unfold complete_waiter in Ew. destruct (rt_waiters rt !! ce_index entry); injection Ew as <- <-; [|done].
      by apply lookup_delete_Some in Hp as [_ ?].
    + cbn. by rewrite Hap.
Qed.

(** What handling the effects of a step applies and answers. *)
Lemma handle_effects_placed wal_ok (rt rt' : runtime) e out err :
  handle_effects encode apply_command wal_ok rt e = Some (rt', out, err) →
  log_wf (log (core (rt_node rt))) → commit_index (core (rt_node rt)) < u64_max →
  last_applied (core (rt_node rt)) ≤ commit_index (core (rt_node rt)) →
  ∀ k r, (k, Some r) ∈ completed out → err = None ∧
  log (core (rt_node rt')) = log (core (rt_node rt)) ∧ commit_index (core (rt_node rt')) = commit_index (core (rt_node rt)) ∧
  rt_failed rt' = rt_failed rt ∧
  ∃ p es1 e es2,
    applied_by rt' = applied_entries (log (core (rt_node rt))) (last_applied (core (rt_node rt))) ++ es1 ++ e :: es2 ∧
    rt_waiters rt !! ce_index e = Some p ∧ pp_id p = k ∧ ce_command e = mkCommand (pp_command p) ∧
    r = (apply_command (apply_all apply_command (rt_state rt) es1) (ce_command e)).2.
Proof.
  unfold handle_effects. intros H Hw Hc Ha k r Hin. opt_inv.
  destruct s as [se|store]; [opt_inv; by apply elem_of_nil in Hin |].
  destruct (send_snapshots e); [|opt_inv; by apply elem_of_nil in Hin].
  destruct (send_messages _ _) as [sent [se|]]; [opt_inv; by apply elem_of_nil in Hin |].
  unfold apply_committed in H. set (rt1 := set_rt_store rt store) in *.
  pose proof (apply_loop_placed (N.to_nat (commit_index (core (rt_node rt1)))) rt1 [] k r Hw Hc ltac:(cbn; lia)) as Hpl.
  destruct (apply_loop_correct apply_command (N.to_nat (commit_index (core (rt_node rt1)))) rt1 [])
    as (Hdone & _ & (j & Hj & Hjc) & _ & _ & Hf); change (rt_node rt1) with (rt_node rt); [done | done | lia | |].
  { unfold committed. eapply Nat.le_trans; [apply omap_range_length |]. rewrite !u64_add_small by ulia. lia. }
  destruct (apply_loop _ _ rt1 []) as [rt2 comp]. opt_inv. cbn [fst snd completed] in *.
  destruct (Hpl Hin) as [?%elem_of_nil|(p & es1 & en & es2 & Hes & Hp & Hid & Hcmd & Hr)]; [done |].
  change (rt_node rt1) with (rt_node rt) in *. change (rt_waiters rt1) with (rt_waiters rt) in Hp.
  split_and!; [done | by rewrite Hj | by rewrite Hj | done |]. exists p, es1, en, es2. split_and!; try done.
  rewrite <- Hes. unfold applied_by. rewrite Hj in *. cbn [core advance log last_applied set_last_applied persistent] in *.
  unfold committed in *. cbn in Hdone. rewrite !u64_add_small in * by ulia.
  rewrite <- (applied_split _ _ (commit_index (core (rt_node rt)))) by lia.
  rewrite (applied_split _ j (commit_index (core (rt_node rt)))) by lia.
  change (log (set_last_applied (core (rt_node rt)) j)) with (log (core (rt_node rt))) in *. by rewrite Hdone, app_nil_r.
Qed.

(** *** One action *)

Hypothesis Hcodec : codec encode decode.
Hypothesis Hids : ∀ j, id (consensus_of j) = j.

(** The answer [r] to [k] comes from the entry [e] that [rt'] has applied after [rt]. *)
Definition placed (rt rt' : runtime) (bytes : list Byte.byte) (r : Res) : Prop :=
  last_applied (core (rt_node rt)) ≤ commit_index (core (rt_node rt')) ∧
  ∃ es1 e es2,
    applied_by rt' = applied_entries (log (core (rt_node rt'))) (last_applied (core (rt_node rt))) ++ es1 ++ e :: es2 ∧
    ce_command e = mkCommand bytes ∧
    r = (apply_command (apply_all apply_command (rt_state rt) es1) (ce_command e)).2.

Lemma effects_answers B i wal_ok s a g a' n' e (rt rt1 rt' : runtime) out err k r :
  B + 1 < u64_max → sinv B s a g → runtimes s !! i = Some rt → rt_failed rt = false →
  moved cfg B i a (rt_node rt) e a' n' → progresses a (rt_node rt) e n' →
  rt_node rt1 = n' → rt_failed rt1 = false → rt_state rt1 = rt_state rt →
  handle_effects encode apply_command wal_ok rt1 e = Some (rt', out, err) → (k, Some r) ∈ completed out →
  err = None ∧ rt_failed rt' = false ∧
  ∃ b p, rt_waiters rt1 !! b = Some p ∧ pp_id p = k ∧ placed rt rt' (pp_command p) r.
Proof.
  intros HB Hs Hrt Hf Hmv Hpr H2 H4 H5 Hh Hin. pose proof Hs as [Sc Sg Sn Sr]. pose proof Sc as [Ca _ Cr].
  destruct (ri_live _ _ _ _ _ _ _ (Cr _ _ Hrt) Hf) as (Hrep & _). destruct (Sr _ _ Hrt Hf) as [Hns _].
  destruct (step_ghost cfg B HB i a g (rt_node rt) e a' n' Ca Hrep Hmv Hpr Sg) as (g' & Hadv & Hack).
  pose proof (step_safe cfg B HB i a g (rt_node rt) e a' n' Ca Hrep Hmv Hpr g' Hadv Hack Sn Hns) as Hns'.
  destruct (node_bounds cfg (B + 1) i a' n' HB (mv_inv _ _ _ _ _ _ _ _ Hmv) (mv_rep _ _ _ _ _ _ _ _ Hmv)) as (_ & Hw & Hl).
  pose proof (ns_applied _ _ _ _ Hns'). rewrite <- H2 in *.
  destruct (handle_effects_placed wal_ok rt1 rt' e out err Hh Hw ltac:(lia) ltac:(lia) k r Hin)
    as (-> & Hlog & Hci & Hfail & p & es1 & en & es2 & Hby & Hp & Hid & Hcmd & Hr).
  pose proof (pr_applied _ _ _ _ Hpr). split_and!; [done | by rewrite Hfail |]. exists (ce_index en), p. split_and!; [done.. |].
  split; [lia |]. exists es1, en, es2.
  rewrite Hlog, <- H5. split_and!; [|done..]. by rewrite Hby, (pr_applied _ _ _ _ Hpr).
Qed.

Lemma event_answers B i wal_ok s a g ev (rt rt' : runtime) out err n e k r :
  B + 1 < u64_max → sinv B s a g → runtimes s !! i = Some rt → rt_failed rt = false →
  event_in i (a_net a) ev → event_covered (core (rt_node rt)) ev = true → (∀ k, ev ≠ EDiskWriteComplete k) →
  step_event (rt_node rt) ev = Some (n, e) →
  handle_or_fail encode apply_command wal_ok (set_rt_node rt n) e = Some (rt', out, err) → (k, Some r) ∈ completed out →
  rt_failed rt' = false ∧ ∃ b p, rt_waiters rt !! b = Some p ∧ pp_id p = k ∧ placed rt rt' (pp_command p) r.
Proof.
  intros HB Hs Hrt Hf Hin Hcov Hev Hst. unfold handle_or_fail. intros Hh Hk. pose proof Hs as [[Ca _ Cr] Sg Sn Sr].
  destruct (ri_live _ _ _ _ _ _ _ (Cr _ _ Hrt) Hf) as (Hrep & _). destruct (Sr _ _ Hrt Hf) as [Hns _].
  destruct (step_event_moved cfg B HB i a _ ev n e Ca Hrep Hin Hst) as [a' Hmv].
  assert (event_plain ev) as Hpl.
  { destruct ev as [|m|j]; [done | | by destruct (Hev j)]. by apply (ib_install _ _ (ai_bound _ _ _ Ca)), Hin. }
  pose proof (step_event_progresses cfg B i a g _ ev n e HB Ca Hrep Hns Hin Hcov Hpl Hst) as Hpr. opt_inv.
  by destruct (effects_answers B i wal_ok s a g a' n e rt (set_rt_node rt n) _ _ _ k r HB Hs Hrt Hf Hmv Hpr
    eq_refl Hf eq_refl E Hk) as (-> & Hf' & Hpl').
Qed.

Lemma propose_placed B i wal_ok bytes s a g (rt rt' : runtime) out res k r :
  B + 1 < u64_max → sinv B s a g → runtimes s !! i = Some rt →
  propose encode apply_command wal_ok rt bytes = Some (rt', out, res) → (k, Some r) ∈ completed out →
  rt_failed rt = false ∧ rt_failed rt' = false ∧
  ∃ bs, asked rt (APropose i bytes wal_ok) k bs ∧ placed rt rt' bs r.
Proof.
  intros HB Hs Hrt. pose proof Hs as [[Ca _ Cr] Sg Sn Sr]. unfold propose, propose_locked.
  destruct (rt_failed rt) eqn:Hf; [intros H Hk; opt_inv; by apply elem_of_nil in Hk |].
  destruct (u64_checked_add _ _) as [next|]; [|intros H Hk; opt_inv; by apply elem_of_nil in Hk].
  cbn [rt_node]. destruct (node_propose (rt_node rt) (mkCommand bytes)) as [[n x]|] eqn:Hp; [|done].
  destruct (ri_live _ _ _ _ _ _ _ (Cr _ _ Hrt) Hf) as (Hrep & _). destruct (Sr _ _ Hrt Hf) as [Hns _].
  pose proof (propose_moved cfg B HB i a _ _ _ _ Ca Hrep Hp) as Hres.
  destruct x as [e|[index e]]; [intros H Hk; opt_inv; by apply elem_of_nil in Hk |].
  destruct Hres as [_ [a' Hmv]]. pose proof (propose_progresses cfg B i a g _ _ _ _ _ HB Ca Hrep Hns Hp) as Hpr.
  intros H Hk. opt_inv. assert (completed o0 = completed out) as Ho by (destruct o; by opt_inv). rewrite <- Ho in Hk.
  match type of E with
  | handle_effects _ _ _ ?rt1 _ = _ =>
      destruct (effects_answers B i wal_ok s a g a' n e rt rt1 _ _ _ k r HB Hs Hrt Hf Hmv Hpr eq_refl eq_refl eq_refl E Hk)
        as (-> & Hf' & b & p & Hw & Hid & Hpl)
  end. opt_inv.
  split_and!; [done.. |]. exists (pp_command p). split; [|done]. cbn in Hw.
  apply lookup_insert_Some in Hw as [[<- <-]|[_ Hw]]; [right | left]; cbn in *; eauto.
Qed.

Lemma action_answers B act s s' a g i k r :
  B + 1 < u64_max → sinv B s a g → covered s act = true → exec s act = Some s' →
  (i, (k, Some r)) ∈ answered s act →
  ∃ rt rt' bytes, runtimes s !! i = Some rt ∧ rt_failed rt = false ∧ runtimes s' !! i = Some rt' ∧ rt_failed rt' = false ∧
    asked rt act k bytes ∧ placed rt rt' bytes r.
Proof.
  intros HB Hs Hcov He Hin. pose proof Hs as [Sc _ _ _].
  destruct act as [j ok|m ok|j bytes ok|j index id|j]; cbn in He, Hin, Hcov; try (by apply elem_of_nil in Hin).
  - destruct (runtimes s !! j) as [rt|] eqn:Hrt; [|done]. apply list_elem_of_fmap in Hin as ([k' x] & [= -> <- <-] & Hin).
    unfold tick_once, tick_locked in *. destruct (rt_failed rt) eqn:Hf; [cbn in Hin; by apply elem_of_nil in Hin |].
    destruct (tick (rt_node rt)) as [[n e]|] eqn:Ht; [|done]. cbn in He, Hin. opt_inv.
    destruct (event_answers B j ok s a g ETick rt _ _ _ n e k r HB Hs Hrt Hf I eq_refl ltac:(done) Ht E Hin)
      as (Hf' & b & p & Hw & Hid & Hpl).
    exists rt, r0, (pp_command p). cbn. rewrite lookup_insert_eq. split_and!; [done.. | left; eauto | done].
  - destruct (network s !! m) as [msg|] eqn:Hm; [|done].
    destruct (runtimes s !! msg_to msg) as [rt|] eqn:Hrt; [|done]. case_match; [by apply elem_of_nil in Hin |].
    apply list_elem_of_fmap in Hin as ([k' x] & [= -> <- <-] & Hin). unfold runtime_step, step_locked in *.
    destruct (rt_failed rt) eqn:Hf; [cbn in Hin; by apply elem_of_nil in Hin |].
    destruct (node_step (rt_node rt) msg) as [[n e]|] eqn:Ht; [|done]. cbn in He, Hin. opt_inv.
    assert (event_in (msg_to msg) (a_net a) (EMessage msg)) as Hev.
    { split; [|done]. apply Sc. by apply list_elem_of_In, list_elem_of_lookup_2 with m. }
    destruct (event_answers B (msg_to msg) ok s a g (EMessage msg) rt _ _ _ n e k r HB Hs Hrt Hf Hev Hcov ltac:(done) Ht E Hin)
      as (Hf' & b & p & Hw & Hid & Hpl).
    exists rt, r0, (pp_command p). cbn. rewrite lookup_insert_eq. split_and!; [done.. | left; eauto | done].
  - destruct (runtimes s !! j) as [rt|] eqn:Hrt; [|done]. apply list_elem_of_fmap in Hin as ([k' x] & [= -> <- <-] & Hin).
    cbn in He, Hin. opt_inv.
    destruct (propose_placed B j ok bytes s a g rt _ _ _ k r HB Hs Hrt E Hin) as (Hf & Hf' & bs & Ha & Hpl).
    exists rt, r0, bs. cbn. by rewrite lookup_insert_eq.
Qed.

(** *** The log of an answer *)

(** The entries up to a committed one are those up to its index. *)
Lemma applied_cut l k pre e post :
  log_wf l → k < u64_max → applied_entries l k = pre ++ e :: post →
  pre ++ [e] = applied_entries l (ce_index e) ∧ 1 ≤ ce_index e ≤ k.
Proof.
  intros Hw Hk. unfold applied_entries.
  assert (∀ j x, j ≤ k → committed_entry l j = Some x → ce_index x = j) as Hidx.
  { intros j x Hj. unfold committed_entry. destruct (Log.get l j) as [y|] eqn:Hg; [|done].
    apply get_Some in Hg as (_ & Hi & _); [|done | ulia]. destruct (e_payload y); [|done]. intros [= <-]. exact Hi. }
  assert (∀ n lo pre, n = N.to_nat (k + 1 - lo) → 1 ≤ lo → omap (committed_entry l) (range_excl lo (k + 1)) = pre ++ e :: post →
    pre ++ [e] = omap (committed_entry l) (range_excl lo (ce_index e + 1)) ∧ lo ≤ ce_index e ≤ k) as Hgen.
  { induction n as [|n IH]; intros lo pre0 Hn Hlo; rewrite range_excl_cons; destruct (N.ltb_spec lo (k + 1)); try lia.
    { by destruct pre0. }
    { cbn. destruct (committed_entry l lo) as [x|] eqn:Hx.
      - pose proof (Hidx lo x ltac:(lia) Hx) as Hlox. destruct pre0 as [|y pre0]; intros [= -> Hrest].
        + split; [|lia]. rewrite Hlox, range_excl_cons. destruct (N.ltb_spec lo (lo + 1)); [|lia]. cbn. rewrite Hx.
          rewrite range_excl_cons. by destruct (N.ltb_spec (lo + 1) (lo + 1)); [lia |].
        + destruct (IH (lo + 1) pre0 ltac:(lia) ltac:(lia) Hrest) as [Hp Hb]. split; [|lia].
          rewrite (range_excl_cons lo). destruct (N.ltb_spec lo (ce_index e + 1)); [|lia]. cbn. by rewrite Hx, <- Hp.
      - intros Hrest. destruct (IH (lo + 1) pre0 ltac:(lia) ltac:(lia) Hrest) as [Hp Hb]. split; [|lia].
        rewrite (range_excl_cons lo). destruct (N.ltb_spec lo (ce_index e + 1)); [|lia]. cbn. by rewrite Hx. } }
  intros H. by apply (Hgen _ 1 pre eq_refl).
Qed.

(** Where in the log of its node an answer comes from. *)
Lemma answer_located (s0 s1 s1' : cluster) acts act i k r :
  init_cluster = Some s0 → exec_all s0 acts = Some s1 → exec s1 act = Some s1' →
  N.of_nat (length acts) + 1 < u64_max → all_covered s0 acts = true → covered s1 act = true →
  (i, (k, Some r)) ∈ answered s1 act →
  ∃ rt rt' bytes pre e, runtimes s1 !! i = Some rt ∧ asked rt act k bytes ∧
    runtimes s1' !! i = Some rt' ∧ rt_failed rt' = false ∧ ce_command e = mkCommand bytes ∧
    r = (apply_command (apply_all apply_command init_state pre) (mkCommand bytes)).2 ∧
    pre ++ [e] = applied_entries (log (core (rt_node rt'))) (ce_index e) ∧
    1 ≤ ce_index e ≤ last_applied (core (rt_node rt')).
Proof.
  intros H0 H1 He Hb Hc1 Hc Hin.
  destruct (exec_all_safe _ _ _ _ _ _ Hcodec Hids acts 0 s0 s1 ainit ginit ltac:(lia)
    (init_safe decode apply_command init_state table consensus_of Hids s0 H0) Hc1 H1) as (a1 & g1 & S1 & _).
  rewrite N.add_0_l in S1.
  destruct (action_answers _ act s1 s1' a1 g1 i k r Hb S1 Hc He Hin)
    as (rt & rt' & bytes & Hrt & Hf & Hrt' & Hf' & Hask & Hla & es1 & e & es2 & Hby & Hcmd & ->).
  destruct (exec_safe _ _ _ _ _ _ Hcodec Hids _ act s1 s1' a1 g1 Hb S1 Hc He) as (a2 & g2 & S2 & _).
  pose proof S2 as [[Ca2 _ Cr2] _ _ R2].
  destruct (ri_live _ _ _ _ _ _ _ (Cr2 _ _ Hrt') Hf') as (Hrep & _).
  destruct (node_bounds cfg _ i a2 (rt_node rt') Hb Ca2 Hrep) as (_ & Hw & Hlast).
  destruct (R2 _ _ Hrt' Hf') as [Hns' _]. pose proof (ns_applied _ _ _ _ Hns') as Hap.
  destruct (committed_agree encode decode apply_command init_state table consensus_of Hcodec Hids s0 s1 s1' acts [act] i i rt rt')
    as ([Hst Hai] & _ & Heq); try done.
  { by cbn; rewrite He. }
  { cbn. lia. }
  { rewrite (all_covered_app _ _ _ _ acts [act] s0 s1 H1), Hc1. cbn. by rewrite Hc, He. }
  assert (applied_entries (log (core (rt_node rt'))) (last_applied (core (rt_node rt))) = applied_by rt) as Hpre.
  { symmetry. apply applied_ext. intros j Hj. apply Heq; lia. }
  rewrite Hpre in Hby. unfold applied_by at 1 in Hby. rewrite app_assoc in Hby.
  destruct (applied_cut _ (last_applied (core (rt_node rt'))) _ _ _ Hw ltac:(lia) Hby) as [Hcut Hidx].
  exists rt, rt', bytes, (applied_by rt ++ es1), e. split_and!; try done; [|lia..].
  unfold apply_all in *. by rewrite fold_left_app, <- Hst, Hcmd.
Qed.

(** *** Theorems *)

(** C6: the answers of all nodes follow one log. In an execution whose append requests are
    all [covered], let a node answer a proposal with a result. Then the result is that
    of the proposal's command, applied after the commands of a sequence [pre] of
    committed entries to the initial state; and what any running node has applied, then
    or ever after, either begins with [pre] and the entry of that command, or is a
    part of them that the node has still to complete. *)
Theorem answers_follow_one_log (s0 s1 s1' s2 : cluster) acts1 act acts2 i k r :
  init_cluster = Some s0 → exec_all s0 acts1 = Some s1 → exec s1 act = Some s1' → exec_all s1' acts2 = Some s2 →
  N.of_nat (length acts1 + S (length acts2)) < u64_max → all_covered s0 (acts1 ++ act :: acts2) = true →
  (i, (k, Some r)) ∈ answered s1 act →
  ∃ rt bytes pre e, runtimes s1 !! i = Some rt ∧ asked rt act k bytes ∧ ce_command e = mkCommand bytes ∧
    r = (apply_command (apply_all apply_command init_state pre) (mkCommand bytes)).2 ∧
    ∀ j rtj, runtimes s2 !! j = Some rtj → rt_failed rtj = false →
      rt_state rtj = apply_all apply_command init_state (applied_by rtj) ∧
      ((pre ++ [e]) `prefix_of` applied_by rtj ∨ applied_by rtj `prefix_of` (pre ++ [e])).
Proof.
  intros H0 H1 He H2 Hb Hcov Hin. rewrite (all_covered_app _ _ _ _ acts1 _ s0 s1 H1) in Hcov.
  apply andb_true_iff in Hcov as [Hc1 Hc2]. pose proof Hc2 as [Hc _]%andb_true_iff.
  destruct (answer_located s0 s1 s1' acts1 act i k r H0 H1 He ltac:(lia) Hc1 Hc Hin)
    as (rt & rt' & bytes & pre & e & Hrt & Hask & Hrt' & Hf' & Hcmd & Hr & Hcut & Hidx).
  exists rt, bytes, pre, e. split_and!; try done. intros j rtj Hj Hfj.
  destruct (committed_agree encode decode apply_command init_state table consensus_of Hcodec Hids s0 s1' s2
    (acts1 ++ [act]) acts2 i j rt' rtj) as ([_ Hai] & [Hstj Haj] & Heq); try done.
  { eapply exec_all_compose; [exact H1 |]. cbn. by rewrite He. }
  { rewrite length_app. cbn. lia. }
  { rewrite <- app_assoc. by rewrite (all_covered_app _ _ _ _ acts1 _ s0 s1 H1), Hc1. }
  split; [done |]. rewrite Hcut. unfold applied_by.
  destruct (N.le_ge_cases (ce_index e) (last_applied (core (rt_node rtj)))) as [Hle|Hle]; [left | right];
    apply applied_prefix; try done; intros x Hx; [|symmetry]; apply Heq; lia.
Qed.

(** C7: later proposals see every answer. In such an execution let a node give an
    answer, and let node [j] accept a proposal later, at index [b]. A running node that
    has applied the entry of that proposal (the entry at [b] has the term of the
    proposal) has applied the command of the answer, at the place where the answer
    comes from: an acknowledged write is visible behind every later read barrier. *)
Theorem later_proposals_see_answers (s0 s1 s1' s2 s3 : cluster) acts1 act acts2 acts3 i k r j l
    (rtj rtj' rtl : runtime) bytes wal_ok out b id x :
  init_cluster = Some s0 → exec_all s0 acts1 = Some s1 → exec s1 act = Some s1' → exec_all s1' acts2 = Some s2 →
  exec_all s2 (APropose j bytes wal_ok :: acts3) = Some s3 →
  N.of_nat (length acts1 + S (length acts2)) + N.of_nat (S (length acts3)) < u64_max →
  all_covered s0 (acts1 ++ act :: acts2) = true → all_covered s2 (APropose j bytes wal_ok :: acts3) = true →
  (i, (k, Some r)) ∈ answered s1 act →
  runtimes s2 !! j = Some rtj → propose encode apply_command wal_ok rtj bytes = Some (rtj', out, inr (b, id)) →
  runtimes s3 !! l = Some rtl → rt_failed rtl = false → b ≤ last_applied (core (rt_node rtl)) →
  Log.get (log (core (rt_node rtl))) b = Some x → e_term x = node_term (rt_node rtj) →
  ∃ rt bs pre e, runtimes s1 !! i = Some rt ∧ asked rt act k bs ∧ ce_command e = mkCommand bs ∧
    r = (apply_command (apply_all apply_command init_state pre) (mkCommand bs)).2 ∧ ce_index e < b ∧
    rt_state rtl = apply_all apply_command init_state (applied_by rtl) ∧ (pre ++ [e]) `prefix_of` applied_by rtl.
Proof.
  intros H0 H1 He H2 H3 Hb Hcov Hcov3 Hin Hj Hp Hl Hfl Hbl Hx Hxt. pose proof Hcov as Hcov'.
  rewrite (all_covered_app _ _ _ _ acts1 _ s0 s1 H1) in Hcov.
  apply andb_true_iff in Hcov as [Hc1 Hc2]. pose proof Hc2 as [Hc _]%andb_true_iff.
  destruct (answer_located s0 s1 s1' acts1 act i k r H0 H1 He ltac:(lia) Hc1 Hc Hin)
    as (rt & rt' & bs & pre & e & Hrt & Hask & Hrt' & Hf' & Hcmd & Hr & Hcut & Hidx).
  assert (exec_all s0 (acts1 ++ [act]) = Some s1') as H1'
    by (eapply exec_all_compose; [exact H1 |]; cbn; by rewrite He).
  assert (all_covered s0 ((acts1 ++ [act]) ++ acts2) = true) as Hc12 by (by rewrite <- app_assoc).
  assert (exec_all s0 ((acts1 ++ [act]) ++ acts2) = Some s2) as H02 by (by eapply exec_all_compose).
  destruct (committed_agree encode decode apply_command init_state table consensus_of Hcodec Hids s0 s1' s3
    (acts1 ++ [act]) (acts2 ++ APropose j bytes wal_ok :: acts3) i l rt' rtl) as ([_ Hai] & [Hstl Hal] & Heq); try done.
  { by eapply exec_all_compose. }
  { rewrite !length_app. cbn. lia. }
  { rewrite app_assoc, (all_covered_app _ _ _ _ _ _ s0 s2 H02), Hc12. done. }
  assert (ce_index e < b) as Hlt.
  { eapply (proposal_after_committed encode decode apply_command init_state table consensus_of Hcodec Hids s0 s1' s2 s3
      (acts1 ++ [act]) acts2 acts3 i j l rt' rtj rtl rtj' (ce_index e) b wal_ok bytes out id x); try done; [|lia..].
    rewrite length_app. cbn. lia. }
  exists rt, bs, pre, e. split_and!; try done. rewrite Hcut. unfold applied_by.
  apply applied_prefix; [|lia]. intros y Hy. apply Heq; lia.
Qed.

End Replica.

(** ** The key-value state of the nodes *)

Section KvReplica.

Context {Addr : Type} `{!EqDecision Addr}.
Context {Bytes : Type} (encode : PersistentDelta → option Bytes) (decode : Bytes → option PersistentDelta).
Context (decode_command : bytes → option KvCommand).
Context (table : list (NodeId * Addr)) (consensus_of : NodeId → Config).

Local Abbreviation kv_apply_command := (apply_command decode_command).
Local Abbreviation cluster := (Cluster Addr Bytes KvState).
Local Abbreviation exec_all := (exec_all encode decode kv_apply_command kv_new).
Local Abbreviation init_cluster := (init_cluster decode kv_new table consensus_of).
Local Abbreviation all_covered := (all_covered encode decode kv_apply_command kv_new).

Hypothesis Hcodec : codec encode decode.
Hypothesis Hids : ∀ j, id (consensus_of j) = j.

(** The commands of committed entries; an entry that does not decode changes nothing. *)
Definition kv_commands (es : list CommittedEntry) : list KvCommand :=
  omap (fun e => decode_command (cmd_bytes (ce_command e))) es.

Lemma apply_all_kv es : ∀ s, apply_all kv_apply_command s es = kv_run s (kv_commands es).
Proof.
  induction es as [|e es IH]; intros s; [done |].
  change (apply_all kv_apply_command s (e :: es)) with (apply_all kv_apply_command (kv_apply_command s (ce_command e)).1 es).
  rewrite IH. unfold kv_commands. cbn. unfold apply_command. by destruct (decode_command _).
Qed.

Lemma kv_commands_prefix es es' : es `prefix_of` es' → kv_commands es `prefix_of` kv_commands es'.
Proof. intros [more ->]. unfold kv_commands. rewrite omap_app. by eexists. Qed.

Lemma prefix_same_etag cs cs' n n' v v' :
  cs `prefix_of` cs' → kv_entries (kv_run kv_new cs) !! n = Some v → kv_entries (kv_run kv_new cs') !! n' = Some v' →
  rec_etag v = rec_etag v' → n = n' ∧ v = v'.
Proof. intros [more ->]. rewrite kv_run_app. apply kv_same_etag, kv_run_inv, kv_new_inv. Qed.

(** C30: an ETag names one version in the whole cluster. In an execution of nodes that run
    the KV state machine, whose append requests are all [covered], take the entries of
    two running nodes, the second at the same time or later. If they carry the same
    ETag they are the same version: same key, body and generation. The states are those
    of the commands the nodes have applied, one sequence being a part of the other. *)
Theorem etags_agree_across_nodes (s0 s1 s2 : cluster) acts1 acts2 i j rti rtj n n' v v' :
  init_cluster = Some s0 → exec_all s0 acts1 = Some s1 → exec_all s1 acts2 = Some s2 →
  N.of_nat (length acts1 + length acts2) < u64_max → all_covered s0 (acts1 ++ acts2) = true →
  runtimes s1 !! i = Some rti → rt_failed rti = false → runtimes s2 !! j = Some rtj → rt_failed rtj = false →
  kv_entries (rt_state rti) !! n = Some v → kv_entries (rt_state rtj) !! n' = Some v' → rec_etag v = rec_etag v' →
  n = n' ∧ v = v' ∧
  rt_state rti = kv_run kv_new (kv_commands (applied_by rti)) ∧
  rt_state rtj = kv_run kv_new (kv_commands (applied_by rtj)) ∧
  (kv_commands (applied_by rti) `prefix_of` kv_commands (applied_by rtj) ∨
   kv_commands (applied_by rtj) `prefix_of` kv_commands (applied_by rti)).
Proof.
  intros H0 H1 H2 Hb Hcov Hi Hfi Hj Hfj Hv Hv' He.
  destruct (committed_agree encode decode kv_apply_command kv_new table consensus_of Hcodec Hids s0 s1 s2 acts1 acts2 i j
    rti rtj H0 H1 H2 Hb Hcov Hi Hfi Hj Hfj) as ([Hsti Hai] & [Hstj Haj] & Heq).
  rewrite apply_all_kv in Hsti, Hstj. rewrite Hsti in Hv |- *. rewrite Hstj in Hv' |- *.
  destruct (N.le_ge_cases (last_applied (core (rt_node rti))) (last_applied (core (rt_node rtj)))) as [Hle|Hle].
  - assert (kv_commands (applied_by rti) `prefix_of` kv_commands (applied_by rtj)) as Hpre
      by (apply kv_commands_prefix, applied_prefix; [intros; apply Heq; lia | done]).
    destruct (prefix_same_etag _ _ _ _ _ _ Hpre Hv Hv' He) as [-> ->]. by auto 8.
  - assert (kv_commands (applied_by rtj) `prefix_of` kv_commands (applied_by rti)) as Hpre
      by (apply kv_commands_prefix, applied_prefix; [intros; symmetry; apply Heq; lia | done]).
    destruct (prefix_same_etag _ _ _ _ _ _ Hpre Hv' Hv (eq_sym He)) as [-> ->]. by auto 8.
Qed.

End KvReplica.

(** ** Two requests with the same bytes *)

(** Three nodes with the deployed configuration that run the KV state machine, with
    the two commands without arguments, one put and bytes for them. *)
Definition first_put : KvCommand := Put 1 1 "demo" "key" [Byte.x61] "" false.

Definition demo_command (bytes : list Byte.byte) : option KvCommand :=
  match bytes with
  | [Byte.x01] => Some RegisterSession
  | [Byte.x02] => Some ReadBarrier
  | [Byte.x03] => Some first_put
  | _ => None
  end.

Abbreviation kv_exec := (exec (Addr := N) demo_codec demo_codec (apply_command demo_command) kv_new).
Abbreviation kv_exec_all := (exec_all (Addr := N) demo_codec demo_codec (apply_command demo_command) kv_new).
Abbreviation kv_covered := (all_covered demo_codec demo_codec (apply_command demo_command) kv_new).

Definition kv_cluster (acts : list Action) : option (Cluster N PersistentDelta KvState) :=
  let* s := init_cluster (Bytes := PersistentDelta) demo_codec kv_new demo_table raft_config in kv_exec_all s acts.

(** The answers given while [acts] run after [before]. *)
Fixpoint answers_while (s : Cluster N PersistentDelta KvState) (acts : list Action)
    : list (NodeId * (N * option Result)) :=
  match acts with
  | [] => []
  | act :: rest =>
      answered demo_codec (apply_command demo_command) s act ++
      match kv_exec s act with Some s => answers_while s rest | None => [] end
  end.

Definition kv_answers (before acts : list Action) : list (NodeId * (N * option Result)) :=
  match kv_cluster before with Some s => answers_while s acts | None => [] end.

(** Node 0 wins term 1 with the vote of node 1; node 1 wins term 2 with the vote of node
    2, and node 0 does not hear of it. *)
Definition two_leaders : list Action :=
  repeat (ATick 0 true) 171 ++ deliver [0; 2; 3; 5; 7]%nat ++ repeat (ATick 2 true) 150 ++
  repeat (ATick 1 true) 330 ++ deliver [10; 11; 13; 14]%nat.

(** Node 1 commits a command with node 2, then sends a heartbeat. *)
Definition commit_1 (bytes : list Byte.byte) : list Action :=
  APropose 1 bytes true :: deliver [18; 19]%nat ++ repeat (ATick 1 true) 75.

(** Node 0 accepts a command, then receives what node 1 has sent it: the request for its
    vote, the entry at index 1, and the heartbeat that commits it. *)
Definition catch_up (bytes : list Byte.byte) : list Action :=
  APropose 0 bytes true :: deliver [12; 17; 20]%nat.

(** C9: two clients get one session. A leader that does not know that it has been deposed
    accepts a [RegisterSession] at the index where the new leader has committed the
    [RegisterSession] of another client. The commands have the same bytes, so that
    applying the other client's entry completes the waiting request (runtime.rs, line
    66): both clients are told that they own session 1, and the log has one
    registration. Every append request of this execution is [covered]. *)
Theorem session_shared :
  let before := two_leaders ++ commit_1 [Byte.x01] in
  kv_answers two_leaders (commit_1 [Byte.x01]) = [(1, (1, Some (inr (ARegisterSession (mkRegisterSessionResponse 1)))))] ∧
  kv_answers before (catch_up [Byte.x01]) = [(0, (1, Some (inr (ARegisterSession (mkRegisterSessionResponse 1)))))] ∧
  option_map (fun s => (kv_covered s (before ++ catch_up [Byte.x01]))) (kv_cluster []) = Some true.
Proof. split_and!; vm_compute; reflexivity. Qed.

(** Node 1 registers a session and puts a key with node 2's help. *)
Definition write_key : list Action :=
  [APropose 1 [Byte.x01] true; APropose 1 [Byte.x03] true] ++ deliver [23; 25; 26; 27]%nat.

(** C8: a read misses an acknowledged write. The new leader has committed a [ReadBarrier]
    at index 1 and then acknowledged a put of a key. After that a client asks the deposed
    leader for the key: its [ReadBarrier], accepted at index 1, is completed by the other
    one when the deposed leader applies it, and the handler finds no key in a state
    that has only index 1 applied. Every append request of this execution is [covered]. *)
Theorem stale_read :
  let before := two_leaders ++ commit_1 [Byte.x02] ++ write_key in
  (1, (3, Some (inr (APut (mkPutResponse "demo" "key" (etag_for 1) 1 1))))) ∈
    kv_answers (two_leaders ++ commit_1 [Byte.x02]) write_key ∧
  kv_answers before (catch_up [Byte.x02]) = [(0, (1, Some (inr AReadBarrier)))] ∧
  (let* s := kv_cluster (before ++ catch_up [Byte.x02]) in
   let* rt := runtimes s !! 0 in
   Some (finish_request (rt_state rt) (RqGet "demo" "key") (inr AReadBarrier))) = Some (inl key_not_found) ∧
  option_map (fun s => kv_covered s (before ++ catch_up [Byte.x02])) (kv_cluster []) = Some true.
Proof. split_and!; [apply list_elem_of_lookup; exists 1%nat | | |]; vm_compute; reflexivity. Qed.

(** ** Instances of the theorems *)

(** The first term of Safety.v up to the answer of node 0, the answer, and what follows. *)
Definition until_answer : list Action :=
  repeat (ATick 0 true) 171 ++ deliver [0; 2; 3; 5]%nat ++ APropose 0 [Byte.x61] true :: deliver [8]%nat.

Definition after_answer : list Action := deliver [6; 7]%nat ++ repeat (ATick 0 true) 75 ++ elect_1.

Abbreviation answer_act := (ADeliver 10 true).
Abbreviation answer_state := (demo_state (until_answer ++ [answer_act])).
Abbreviation before_62 := (demo_state (until_answer ++ answer_act :: after_answer)).
Abbreviation after_62 := (demo_state ((until_answer ++ answer_act :: after_answer) ++ replicate_1)).

Lemma until_answer_runs : demo_exec (demo_state []) until_answer = Some (demo_state until_answer).
Proof. vm_compute. reflexivity. Qed.

Lemma answer_runs : exec (Addr := N) demo_codec demo_codec demo_apply [] (demo_state until_answer) answer_act = Some answer_state.
Proof. vm_compute. reflexivity. Qed.

Lemma after_answer_runs : demo_exec answer_state after_answer = Some before_62.
Proof. vm_compute. reflexivity. Qed.

Lemma later_runs : demo_exec before_62 replicate_1 = Some after_62.
Proof. vm_compute. reflexivity. Qed.

Lemma answer_covered : demo_covered (demo_state []) (until_answer ++ answer_act :: after_answer) = true.
Proof. vm_compute. reflexivity. Qed.

Lemma later_covered : demo_covered before_62 replicate_1 = true.
Proof. vm_compute. reflexivity. Qed.

Lemma answer_given : (0, (1, Some tt)) ∈ answered demo_codec demo_apply (demo_state until_answer) answer_act.
Proof. apply list_elem_of_lookup. exists 0%nat. vm_compute. reflexivity. Qed.

Lemma answers_follow_one_log_witness :
  ∃ rt bytes pre e, runtimes (demo_state until_answer) !! 0 = Some rt ∧ asked rt answer_act 1 bytes ∧
    ce_command e = mkCommand bytes ∧
    tt = (demo_apply (apply_all demo_apply [] pre) (mkCommand bytes)).2 ∧
    ∀ j rtj, runtimes before_62 !! j = Some rtj → rt_failed rtj = false →
      rt_state rtj = apply_all demo_apply [] (applied_by rtj) ∧
      ((pre ++ [e]) `prefix_of` applied_by rtj ∨ applied_by rtj `prefix_of` (pre ++ [e])).
Proof.
  exact (answers_follow_one_log demo_codec demo_codec demo_apply [] demo_table raft_config demo_codec_ok raft_config_id
    (demo_state []) (demo_state until_answer) answer_state before_62 until_answer answer_act after_answer 0 1 tt
    demo_boots until_answer_runs answer_runs after_answer_runs eq_refl answer_covered answer_given).
Defined.

(** Node 1 proposes 0x62 in term 2, after node 0 has answered for 0x61, and applies both. *)
Lemma later_proposals_see_answers_witness :
  ∃ rtl rt bs pre e, runtimes after_62 !! 1 = Some rtl ∧ rt_state rtl = [[Byte.x61]; [Byte.x62]] ∧
    runtimes (demo_state until_answer) !! 0 = Some rt ∧ asked rt answer_act 1 bs ∧ ce_command e = mkCommand bs ∧
    (pre ++ [e]) `prefix_of` applied_by rtl.
Proof.
  destruct (lookup_sat (runtimes before_62 !! 1) (fun rtj =>
    match propose demo_codec demo_apply true rtj [Byte.x62] with
    | Some (_, _, inr (b, _)) => (b =? 2) && (node_term (rt_node rtj) =? 2) | _ => false end)) as (rtj & Ej & Pj);
    [vm_compute; reflexivity |].
  destruct (propose demo_codec demo_apply true rtj [Byte.x62]) as [[[rtj' out] [|[b id]]]|] eqn:Ep; try discriminate Pj.
  apply andb_true_iff in Pj as [->%N.eqb_eq Ht%N.eqb_eq].
  destruct (lookup_sat (runtimes after_62 !! 1) (fun rt => negb (rt_failed rt) &&
    bool_decide (rt_state rt = [[Byte.x61]; [Byte.x62]]) && (2 <=? last_applied (core (rt_node rt))) &&
    match Log.get (log (core (rt_node rt))) 2 with Some x => e_term x =? 2 | None => false end)) as (rtl & El & Pl);
    [vm_compute; reflexivity |].
  apply andb_true_iff in Pl as [[[Hf%negb_true_iff Hst%bool_decide_eq_true]%andb_true_iff Hla%N.leb_le]%andb_true_iff Hx].
  destruct (Log.get (log (core (rt_node rtl))) 2) as [x|] eqn:Ex; [|discriminate Hx]. apply N.eqb_eq in Hx.
  destruct (later_proposals_see_answers demo_codec demo_codec demo_apply [] demo_table raft_config demo_codec_ok raft_config_id
    (demo_state []) (demo_state until_answer) answer_state before_62 after_62 until_answer answer_act after_answer
    (ARestart 0 :: deliver [25; 26; 27; 28; 24]%nat) 0 1 tt 1 1 rtj rtj' rtl [Byte.x62] true out 2 id x
    demo_boots until_answer_runs answer_runs after_answer_runs later_runs eq_refl answer_covered later_covered answer_given
    Ej Ep El Hf Hla Ex (eq_trans Hx (eq_sym Ht))) as (rt & bs & pre & e & Hrt & Hask & Hcmd & _ & _ & _ & Hpre).
  exists rtl, rt, bs, pre, e. split_and!; assumption.
Defined.

(** Node 2 hears of the commit of the put and applies it. *)
Definition written : list Action := two_leaders ++ commit_1 [Byte.x02] ++ write_key.

Definition tell_2 : list Action := repeat (ATick 1 true) 75 ++ deliver [29]%nat.

Definition kv_demo (acts : list Action) : Cluster N PersistentDelta KvState :=
  default (mkCluster ∅ []) (kv_cluster acts).

Lemma etags_agree_across_nodes_witness :
  ∃ rti rtj v v', runtimes (kv_demo written) !! 1 = Some rti ∧ runtimes (kv_demo (written ++ tell_2)) !! 2 = Some rtj ∧
    kv_entries (rt_state rti) !! mkKvName "demo" "key" = Some v ∧
    kv_entries (rt_state rtj) !! mkKvName "demo" "key" = Some v' ∧ v = v'.
Proof.
  set (has := fun rt : RaftRuntime N PersistentDelta KvState => negb (rt_failed rt) &&
    match kv_entries (rt_state rt) !! mkKvName "demo" "key" with
    | Some v => bool_decide (rec_etag v = etag_for 1) | None => false end).
  destruct (lookup_sat (runtimes (kv_demo written) !! 1) has) as (rti & Ei & Pi); [vm_compute; reflexivity |].
  destruct (lookup_sat (runtimes (kv_demo (written ++ tell_2)) !! 2) has) as (rtj & Ej & Pj); [vm_compute; reflexivity |].
  unfold has in Pi, Pj. apply andb_true_iff in Pi as [Fi%negb_true_iff Pi]. apply andb_true_iff in Pj as [Fj%negb_true_iff Pj].
  destruct (kv_entries (rt_state rti) !! mkKvName "demo" "key") as [v|] eqn:Hv; [|discriminate Pi].
  destruct (kv_entries (rt_state rtj) !! mkKvName "demo" "key") as [v'|] eqn:Hv'; [|discriminate Pj].
  apply bool_decide_eq_true in Pi, Pj. exists rti, rtj, v, v'. split_and!; [exact Ei | exact Ej | exact Hv | exact Hv' |].
  eapply (etags_agree_across_nodes demo_codec demo_codec demo_command demo_table raft_config demo_codec_ok raft_config_id
    (kv_demo []) (kv_demo written) (kv_demo (written ++ tell_2)) written tell_2 1 2);
    [vm_compute; reflexivity | vm_compute; reflexivity | vm_compute; reflexivity | vm_compute; reflexivity
    | vm_compute; reflexivity | exact Ei | exact Fi | exact Ej | exact Fj | exact Hv | exact Hv' | congruence].
Defined.
