(* ===== verification/Transport.v ===== *)
(** * Peer transport

    cloud9-node/src/transport.rs: the peer table with its concurrency limit, the
    request that carries a Raft message, and the handler that receives one. HTTP
    itself (the server that hands the handler a header and a body, the socket) and
    the JSON codec of messages are parameters, as is HMAC-SHA256 in Auth.v.

    The theorems show that only authenticated messages of other members of the
    cluster reach the node, that a message posted by a peer with the same key is
    processed as it was sent, and that the table bounds the requests in flight and
    fails exactly as the runtime expects. *)

From stdpp Require Import pretty.
From S2P Require Import Prelude Auth Membership Log Event Core Role Node Store Runtime.

Open Scope N_scope.

Definition MAX_RESPONSE_BYTES : N := 8 * 1024.
Definition MAX_RAFT_MESSAGE_BYTES : N := 2 * 1024 * 1024.
Definition MAX_IN_FLIGHT_PER_PEER : N := 16.
Definition SIGNATURE_HEADER : string := "x-cloud9-raft-signature".

(** ** The peer table *)

Section Peers.

Context {Addr : Type}.

(** [permits] are those of the peer's semaphore that are free. *)
Record Peer := mkPeer { peer_addr : Addr; permits : N }.

Record PeerTransport := mkPeerTransport { pt_peers : list (NodeId * Peer); pt_key : RaftKey }.

Definition transport_new (node_id : NodeId) (key : RaftKey) (peers : list (NodeId * Addr)) : PeerTransport :=
  mkPeerTransport
    (map (fun p => (p.1, mkPeer p.2 MAX_IN_FLIGHT_PER_PEER)) (List.filter (fun p => negb (p.1 =? node_id)) peers))
    key.

Definition set_permits (ps : list (NodeId * Peer)) (to : NodeId) (f : N → N) : list (NodeId * Peer) :=
  map (fun p => if p.1 =? to then (p.1, mkPeer (peer_addr p.2) (f (permits p.2))) else p) ps.

(** [send]: an unknown peer, or the table after the call and the address of the
    request it spawned, if a permit was free. *)
Definition send (t : PeerTransport) (m : Message) : NodeId + PeerTransport * option Addr :=
  match find (fun p => p.1 =? msg_to m) (pt_peers t) with
  | None => inl (msg_to m)
  | Some (_, peer) =>
      if permits peer =? 0 then inr (t, None)
      else inr (mkPeerTransport (set_permits (pt_peers t) (msg_to m) N.pred) (pt_key t), Some (peer_addr peer))
  end.

(** The spawned task ends and drops its permit. *)
Definition send_done (t : PeerTransport) (to : NodeId) : PeerTransport :=
  mkPeerTransport (set_permits (pt_peers t) to N.succ) (pt_key t).

End Peers.

Arguments Peer Addr : clear implicits.
Arguments PeerTransport Addr : clear implicits.

(** ** Messages on the wire *)

Inductive StatusCode := NO_CONTENT | UNAUTHORIZED | BAD_REQUEST | INTERNAL_SERVER_ERROR.

(** Why a message was refused, or what the step answered; [status_code] gives the
    code of the response. *)
Inductive Received {Addr : Type} :=
| MissingSignature
| InvalidSignature
| InvalidMessage
| RejectedMessage (e : MessageError)
| StepFailed (e : RuntimeError Addr)
| Accepted.
Arguments Received Addr : clear implicits.

Definition status_code {Addr} (r : Received Addr) : StatusCode :=
  match r with
  | MissingSignature | InvalidSignature => UNAUTHORIZED
  | InvalidMessage | RejectedMessage _ => BAD_REQUEST
  | StepFailed _ => INTERNAL_SERVER_ERROR
  | Accepted => NO_CONTENT
  end.

Inductive PostError := EncodingFailed | MessageTooLarge | SigningFailed.

(** A request: the header lines, the value of the signature header, the body. *)
Record RaftRequest := mkRaftRequest { rr_head : string; rr_signature : string; rr_body : bytes }.

Definition crlf : string := String (Ascii.ascii_of_nat 13) (String (Ascii.ascii_of_nat 10) EmptyString).

Section Wire.

Context {Addr : Type} `{!EqDecision Addr} (addr_text : Addr → string).
Context {Bytes : Type} (encode : PersistentDelta → option Bytes).
Context {State Res : Type} (apply_command : State → Command → State * Res).
Context (hmac_sha256 : bytes → bytes → option bytes).
Context (encode_message : Message → option bytes) (decode_message : bytes → option Message).

(** The part of [post_raft_message_inner] before the socket. *)
Definition raft_request (addr : Addr) (key : RaftKey) (m : Message) : PostError + RaftRequest :=
  match encode_message m with
  | None => inl EncodingFailed
  | Some body =>
      if MAX_RAFT_MESSAGE_BYTES <? vlen body then inl MessageTooLarge
      else match signature hmac_sha256 key body with
           | None => inl SigningFailed
           | Some sig =>
               inr (mkRaftRequest
                 ("POST /raft/message HTTP/1.1" +:+ crlf +:+
                  "Host: " +:+ addr_text addr +:+ crlf +:+
                  "Content-Type: application/json" +:+ crlf +:+
                  SIGNATURE_HEADER +:+ ": " +:+ sig +:+ crlf +:+
                  "Content-Length: " +:+ pretty (vlen body) +:+ crlf +:+
                  "Connection: close" +:+ crlf +:+ crlf) sig body)
           end
  end.

(** What the sender makes of the response. *)
Definition response_ok (response : bytes) : bool :=
  bool_decide (take 12 (take (N.to_nat MAX_RESPONSE_BYTES) response) =
               String.list_byte_of_string "HTTP/1.1 204").

(** [sig]: the signature header, if it is present and text. *)
Definition receive_raft (wal_ok : bool) (key : RaftKey) (rt : RaftRuntime Addr Bytes State)
    (sig : option string) (body : bytes) : option (RaftRuntime Addr Bytes State * Output Res * Received Addr) :=
  let refuse r := Some (rt, mkOutput [] [], r) in
  match sig with
  | None => refuse MissingSignature
  | Some sig =>
      if negb (verify hmac_sha256 key body sig) then refuse InvalidSignature
      else match decode_message body with
           | None => refuse InvalidMessage
           | Some m =>
               match validate_message (rt_config rt) m with
               | Some e => refuse (RejectedMessage e)
               | None =>
                   let* (rt, out, err) := runtime_step encode apply_command wal_ok rt m in
                   Some (rt, out, match err with Some e => StepFailed e | None => Accepted end)
               end
           end
  end.

End Wire.

(** ** The peer table *)

Section PeerLemmas.

Context {Addr : Type}.

Implicit Types (t : PeerTransport Addr) (ps : list (NodeId * Addr)).

Lemma find_set_permits (l : list (NodeId * Peer Addr)) to f n :
  find (fun p => p.1 =? n) (set_permits l to f) =
  option_map (fun p => if p.1 =? to then (p.1, mkPeer (peer_addr p.2) (f (permits p.2))) else p)
    (find (fun p => p.1 =? n) l).
Proof.
  unfold set_permits. induction l as [|[k p] l IH]; [done |]. cbn [map find]. cbn [fst].
  destruct (k =? to) eqn:E; cbn [fst snd]; destruct (k =? n); cbn [option_map fst]; rewrite ?E; done.
Qed.

Lemma find_transport_new node key ps n :
  find (fun p => p.1 =? n) (pt_peers (transport_new node key ps)) =
  option_map (fun p => (p.1, mkPeer p.2 MAX_IN_FLIGHT_PER_PEER))
    (find (fun p => p.1 =? n) (List.filter (fun p => negb (p.1 =? node)) ps)).
Proof.
  cbn [pt_peers transport_new]. induction (List.filter _ ps) as [|[k a] l IH]; [done |]. cbn [map find fst snd].
  by destruct (k =? n).
Qed.

(** A transport in use: sends, and ends of requests in flight, with the recipients
    of the requests that are in flight. *)
Inductive PeerOp := TSend (m : Message) | TDone (to : NodeId).

Fixpoint remove_one (n : NodeId) (l : list NodeId) : list NodeId :=
  match l with [] => [] | x :: l => if x =? n then l else x :: remove_one n l end.

Definition in_flight (n : NodeId) (fl : list NodeId) : N := N.of_nat (count_occ N.eq_dec fl n).

Definition peer_op (x : PeerTransport Addr * list NodeId) (op : PeerOp) : PeerTransport Addr * list NodeId :=
  let '(t, fl) := x in
  match op with
  | TSend m =>
      match send t m with
      | inr (t', Some _) => (t', msg_to m :: fl)
      | inr (t', None) => (t', fl)
      | inl _ => x
      end
  | TDone n => if bool_decide (n ∈ fl) then (send_done t n, remove_one n fl) else x
  end.

Definition peer_run (x : PeerTransport Addr * list NodeId) (ops : list PeerOp) := fold_left peer_op ops x.

(** The free permits of a peer are those not in flight. *)
Definition peers_inv (table : NodeId → option Addr) (x : PeerTransport Addr * list NodeId) : Prop :=
  ∀ n, in_flight n x.2 ≤ MAX_IN_FLIGHT_PER_PEER ∧
    find (fun p => p.1 =? n) (pt_peers x.1) =
      option_map (fun a => (n, mkPeer a (MAX_IN_FLIGHT_PER_PEER - in_flight n x.2))) (table n).

Lemma in_flight_cons n k fl : in_flight n (k :: fl) = if k =? n then in_flight n fl + 1 else in_flight n fl.
Proof. unfold in_flight. cbn. destruct (N.eq_dec k n), (N.eqb_spec k n); try done; lia. Qed.

Lemma in_flight_remove n k fl : k ∈ fl →
  in_flight n (remove_one k fl) = if k =? n then in_flight n fl - 1 else in_flight n fl.
Proof.
  induction fl as [|x fl IH]; intros Hk; [by apply elem_of_nil in Hk |]. cbn [remove_one].
  destruct (N.eqb_spec x k) as [->|Hx].
  - rewrite in_flight_cons. destruct (k =? n); lia.
  - apply elem_of_cons in Hk as [->|Hk]; [done |]. rewrite !in_flight_cons, IH by done.
    destruct (N.eqb_spec k n) as [->|]; [|done]. by destruct (N.eqb_spec x n).
Qed.

Lemma in_flight_pos n fl : n ∈ fl → 0 < in_flight n fl.
Proof.
  intros H. unfold in_flight. pose proof (proj1 (count_occ_In N.eq_dec fl n) (proj1 (list_elem_of_In _ _) H)). lia.
Qed.

Lemma peer_op_inv table x op : peers_inv table x → peers_inv table (peer_op x op).
Proof.
  destruct x as [t fl]. intros Hinv. destruct op as [m|k]; cbn [peer_op].
  - unfold send. destruct (Hinv (msg_to m)) as [Hle Hfind]. cbn [fst snd] in *. rewrite Hfind.
    destruct (table (msg_to m)) as [a|] eqn:Ea; cbn [option_map]; [|done]. cbn [permits].
    destruct (N.eqb_spec (MAX_IN_FLIGHT_PER_PEER - in_flight (msg_to m) fl) 0) as [|Hne]; [done |].
    intros n. destruct (Hinv n) as [Hn Hfn]. cbn [fst snd] in *. rewrite in_flight_cons. cbn [pt_peers]. rewrite find_set_permits, Hfn.
    destruct (N.eqb_spec (msg_to m) n) as [<-|Hd].
    + split; [lia |]. rewrite Ea. cbn [option_map fst]. rewrite N.eqb_refl. cbn. do 3 f_equal. lia.
    + split; [done |]. destruct (table n); cbn [option_map fst]; [|done]. destruct (N.eqb_spec n (msg_to m)); congruence.
  - case_bool_decide as Hk; [|done]. intros n. destruct (Hinv n) as [Hn Hfn]. cbn [fst snd send_done pt_peers] in *.
    rewrite in_flight_remove by done. rewrite find_set_permits, Hfn. apply in_flight_pos in Hk.
    destruct (N.eqb_spec k n) as [->|Hd].
    + split; [lia |]. destruct (table n); cbn [option_map fst]; [|done]. rewrite N.eqb_refl. cbn. do 3 f_equal. lia.
    + split; [done |]. destruct (table n); cbn [option_map fst]; [|done]. destruct (N.eqb_spec n k); congruence.
Qed.

Lemma peer_run_inv table ops : ∀ x, peers_inv table x → peers_inv table (peer_run x ops).
Proof. induction ops as [|op ops IH]; intros x Hx; [done |]. cbn. apply IH. by apply peer_op_inv. Qed.

(** The table of the configuration without this node. *)
Definition other_peers (config : NodeConfig Addr) (n : NodeId) : option Addr :=
  peer_get (List.filter (fun p => negb (p.1 =? node_id config)) (peers config)) n.

Lemma transport_new_inv config key :
  peers_inv (other_peers config) (transport_new (node_id config) key (peers config), []).
Proof.
  intros n. cbn [fst snd]. split; [done |]. rewrite find_transport_new. unfold other_peers, peer_get.
  destruct (find _ _) as [[k a]|] eqn:E; [|done]. apply find_some in E as [_ Hk%N.eqb_eq]. cbn in *. by subst.
Qed.

(** The peer table refines the transport the runtime assumes, and bounds the
    requests in flight. After any sends and completed requests at most sixteen
    requests to a peer are in flight; a send fails with the unknown recipient exactly
    when the runtime expects it to, is dropped exactly at the limit, and otherwise
    posts to the address the configuration gives the recipient. *)
Theorem sends_bounded config key ops m :
  let '(t, fl) := peer_run (transport_new (node_id config) key (peers config), []) ops in
  (∀ n, in_flight n fl ≤ MAX_IN_FLIGHT_PER_PEER) ∧
  match other_peers config (msg_to m) with
  | None => transport_send config m = Some (UnknownPeer (msg_to m)) ∧ send t m = inl (msg_to m)
  | Some a =>
      transport_send config m = None ∧
      if in_flight (msg_to m) fl =? MAX_IN_FLIGHT_PER_PEER then send t m = inr (t, None)
      else ∃ t', send t m = inr (t', Some a)
  end.
Proof.
  pose proof (peer_run_inv _ ops _ (transport_new_inv config key)) as Hinv.
  destruct (peer_run _ ops) as [t fl]. split; [intros n; apply Hinv |].
  destruct (Hinv (msg_to m)) as [Hle Hfind]. cbn [fst snd] in *. unfold send. rewrite Hfind.
  unfold transport_send. change (peer_get _ (msg_to m)) with (other_peers config (msg_to m)).
  destruct (other_peers config (msg_to m)) as [a|]; cbn [option_map]; [|done]. split; [done |]. cbn [permits peer_addr].
  destruct (N.eqb_spec (in_flight (msg_to m) fl) MAX_IN_FLIGHT_PER_PEER) as [->|Hne]; [done |].
  destruct (N.eqb_spec (MAX_IN_FLIGHT_PER_PEER - in_flight (msg_to m) fl) 0); [lia | by eexists].
Qed.

End PeerLemmas.

(** ** Theorems about messages *)

Section Exchange.

Context {Addr : Type} `{!EqDecision Addr} (addr_text : Addr → string).
Context {Bytes : Type} (encode : PersistentDelta → option Bytes).
Context {State Res : Type} (apply_command : State → Command → State * Res).
Context (hmac_sha256 : bytes → bytes → option bytes).
Context (encode_message : Message → option bytes) (decode_message : bytes → option Message).

Local Abbreviation receive := (receive_raft encode apply_command hmac_sha256 decode_message).

(** C39: only authenticated messages of other members reach the node. A received
    request either leaves the runtime untouched and is refused, or its body carries
    a signature that verifies under the shared key and decodes to a message for this
    node from another node of the configuration, and the node makes exactly the step
    of that message. *)
Theorem receive_authenticated wal_ok key (rt : RaftRuntime Addr Bytes State) sig body rt' out r :
  receive wal_ok key rt sig body = Some (rt', out, r) →
  (rt' = rt ∧ out = mkOutput [] [] ∧ (status_code r = UNAUTHORIZED ∨ status_code r = BAD_REQUEST)) ∨
  ∃ s m err, sig = Some s ∧ verify hmac_sha256 key body s = true ∧ decode_message body = Some m ∧
    msg_to m = node_id (rt_config rt) ∧ msg_from m ≠ node_id (rt_config rt) ∧
    is_Some (peer_get (peers (rt_config rt)) (msg_from m)) ∧
    runtime_step encode apply_command wal_ok rt m = Some (rt', out, err) ∧
    status_code r = match err with Some _ => INTERNAL_SERVER_ERROR | None => NO_CONTENT end.
Proof.
  unfold receive_raft. intros H. destruct sig as [s|]; [|opt_inv; left; auto].
  destruct (verify hmac_sha256 key body s) eqn:Ev; cbn [negb] in H; [|opt_inv; left; auto].
  destruct (decode_message body) as [m|] eqn:Ed; [|opt_inv; left; auto].
  destruct (validate_message (rt_config rt) m) as [e|] eqn:Em; [opt_inv; left; auto |].
  destruct (runtime_step _ _ _ _ _) as [[[rt1 out1] err]|] eqn:Es; [|done]. opt_inv. right. exists s, m, err.
  unfold validate_message in Em. destruct (N.eqb_spec (msg_to m) (node_id (rt_config rt))); [|done]. cbn [negb] in Em.
  destruct (N.eqb_spec (msg_from m) (node_id (rt_config rt))); [done |].
  destruct (peer_get _ (msg_from m)); [|done]. split_and!; try done. by destruct err.
Qed.

(** What a peer posts is what the node steps. If a peer with the same key builds
    the request of a message, and the message is addressed to this node by another
    member, then receiving the request processes that very message. *)
Theorem posted_message_is_processed addr text key m rq wal_ok (rt : RaftRuntime Addr Bytes State) :
  hmac_ok hmac_sha256 → (∀ m bs, encode_message m = Some bs → decode_message bs = Some m) →
  from_hex text = Some key → raft_request addr_text hmac_sha256 encode_message addr key m = inr rq →
  validate_message (rt_config rt) m = None →
  receive wal_ok key rt (Some (rr_signature rq)) (rr_body rq) =
    let* (rt', out, err) := runtime_step encode apply_command wal_ok rt m in
    Some (rt', out, match err with Some e => StepFailed e | None => Accepted end).
Proof.
  intros Hok Hcodec Hkey Hrq Hm. unfold raft_request in Hrq. destruct (encode_message m) as [body|] eqn:Eb; [|done].
  destruct (_ <? _); [done |]. destruct (signature hmac_sha256 key body) as [sig|] eqn:Es; [|done].
  injection Hrq as <-. cbn [rr_signature rr_body]. unfold receive_raft.
  rewrite (signature_verifies _ _ _ _ _ Hok Hkey Es). cbn [negb]. by rewrite (Hcodec _ _ Eb), Hm.
Qed.

End Exchange.

(** ** A vote request between two nodes *)

(** A codec for the vote requests with small numbers. *)
Definition demo_encode_message (m : Message) : option bytes :=
  match m with
  | mkMessage f t tm (PVoteRequest (mkVoteRequest i lt)) =>
      if forallb (fun v => v <? 256) [f; t; tm; i; lt] then Some (map byte_of [f; t; tm; i; lt]) else None
  | _ => None
  end.

Definition demo_decode_message (bs : bytes) : option Message :=
  match map Byte.to_N bs with
  | [f; t; tm; i; lt] => Some (mkMessage f t tm (PVoteRequest (mkVoteRequest i lt)))
  | _ => None
  end.

Lemma demo_message_codec m bs : demo_encode_message m = Some bs → demo_decode_message bs = Some m.
Proof.
  destruct m as [f t tm [| |[i lt]| | | | | | | |]]; cbn [demo_encode_message]; try done.
  destruct (forallb _ _) eqn:E; [|done]. cbn in E. rewrite !andb_true_iff, !N.ltb_lt in E.
  destruct E as (? & ? & ? & ? & ? & _). intros [= <-]. unfold demo_decode_message. cbn [map].
  by rewrite !to_N_byte_of.
Qed.

Definition demo_peers : NodeConfig N := mkNodeConfig 1 11 [(1, 11); (2, 12)] (raft_config 1).
Definition demo_key_text : string := encode_hex (replicate 32 Byte.x01).
Definition demo_key : RaftKey := mkRaftKey (replicate 32 Byte.x01).
Definition demo_vote : Message := mkMessage 2 1 5 (PVoteRequest (mkVoteRequest 0 0)).

Definition demo_node : RaftRuntime N PersistentDelta unit :=
  mkRaftRuntime demo_peers
    (mkRaftNode (core_new (raft_config 1) [1; 2]) (RFollower (Follower.mkFollower None 0 None)))
    (mkRaftStore [] (persistent (core_new (raft_config 1) [1; 2]))) tt ∅ 1 false.

Definition demo_request : RaftRequest :=
  match raft_request (fun _ : N => "127.0.0.1:19091") demo_mac demo_encode_message 11 demo_key demo_vote with
  | inr rq => rq
  | inl _ => mkRaftRequest "" "" []
  end.

Definition demo_apply (s : unit) (_ : Command) : unit * unit := (s, tt).
Definition demo_store (d : PersistentDelta) : option PersistentDelta := Some d.

Lemma posted_message_is_processed_witness :
  receive_raft demo_store demo_apply demo_mac demo_decode_message true demo_key demo_node
    (Some (rr_signature demo_request)) (rr_body demo_request) =
  let* (rt', out, err) := runtime_step demo_store demo_apply true demo_node demo_vote in
  Some (rt', out, match err with Some e => StepFailed e | None => Accepted end).
Proof.
  apply (posted_message_is_processed (fun _ : N => "127.0.0.1:19091") demo_store demo_apply demo_mac
           demo_encode_message demo_decode_message 11 demo_key_text demo_key demo_vote demo_request true demo_node).
  - exact demo_mac_ok.
  - exact demo_message_codec.
  - vm_compute. reflexivity.
  - vm_compute. reflexivity.
  - vm_compute. reflexivity.
Defined.

(** The granted vote, as the receiver of the request ends up. *)
Local Abbreviation demo_received :=
  (receive_raft demo_store demo_apply demo_mac demo_decode_message true demo_key demo_node
    (Some (rr_signature demo_request)) (rr_body demo_request)).

Lemma receive_authenticated_witness :
  ∃ rt' out, demo_received = Some (rt', out, Accepted) ∧ length (sent out) = 1%nat ∧
    ((rt' = demo_node ∧ out = mkOutput [] [] ∧
      (status_code (Accepted (Addr := N)) = UNAUTHORIZED ∨ status_code (Accepted (Addr := N)) = BAD_REQUEST)) ∨
     ∃ s m err, Some (rr_signature demo_request) = Some s ∧ verify demo_mac demo_key (rr_body demo_request) s = true ∧
       demo_decode_message (rr_body demo_request) = Some m ∧
       msg_to m = node_id (rt_config demo_node) ∧ msg_from m ≠ node_id (rt_config demo_node) ∧
       is_Some (peer_get (peers (rt_config demo_node)) (msg_from m)) ∧
       runtime_step demo_store demo_apply true demo_node m = Some (rt', out, err) ∧
       status_code (Accepted (Addr := N)) = match err with Some _ => INTERNAL_SERVER_ERROR | None => NO_CONTENT end).
Proof.
  destruct demo_received as [[[rt' out] r]|] eqn:E; [|vm_compute in E; discriminate E].
  assert (r = Accepted ∧ length (sent out) = 1%nat) as [-> Hl].
  { assert (option_map (fun x => (x.2, length (sent x.1.2))) demo_received = Some (Accepted, 1%nat)) as H
      by (vm_compute; reflexivity). rewrite E in H. by injection H. }
  exists rt', out. split; [reflexivity |]. split; [exact Hl |].
  exact (receive_authenticated demo_store demo_apply demo_mac demo_decode_message true demo_key demo_node
           (Some (rr_signature demo_request)) (rr_body demo_request) rt' out Accepted E).
Defined.
