(* ===== verification/Daemon.v ===== *)
(** * Configuration of the daemon

    cloud9/src/main.rs: from the text of a configuration file to the [NodeConfig] of
    the runtime. The TOML parser, the reader of files and the name resolver are
    parameters; a resolver may answer differently from call to call, so its state is
    threaded through. The theorem shows that every configuration the daemon accepts
    passes the checks of the runtime. *)

From S2P Require Import Prelude Auth Membership Core Node Store Runtime.
From stdpp Require Import sorting.

Open Scope N_scope.

Record NodeSection := mkNodeSection { ns_id : N; ns_host : string; ns_client_port : N; ns_raft_port : N }.
Record StorageSection := mkStorageSection { sg_data_dir : string }.
Record PeerSection := mkPeerSection { ps_id : N; ps_host : string; ps_raft_port : N }.
Record ClusterSection := mkClusterSection { cs_raft_key : string; cs_peers : list PeerSection }.
Record ConfigFile := mkConfigFile { cf_node : NodeSection; cf_storage : StorageSection; cf_cluster : ClusterSection }.

Section Daemon.

Context {Addr : Type} `{!EqDecision Addr}.
Context {Names : Type} (to_socket_addrs : Names → string → N → Names * option (list Addr)).
Context (from_toml : string → option ConfigFile) (read_to_string : string → option string).

Inductive ConfigError :=
| ReadFailed
| TomlFailed
| ResolveFailed (host : string) (port : N)
| NoAddress (host : string) (port : N)
| AmbiguousAddress (host : string) (port count : N)
| BadRaftKey
| DuplicateAddress (addr : Addr)
| DuplicateNodeId (id : N)
| NoPeers
| SelfAddressMismatch (id : N) (peer_addr raft_addr : Addr)
| SelfMissing (id : N).

(** The runtime's part of [NodeConfig], with the fields only the service reads. *)
Record DaemonConfig := mkDaemonConfig {
  dc_node : NodeConfig Addr; dc_client_addr : Addr; dc_raft_key : RaftKey;
  dc_storage_name : string; dc_data_dir : string }.

Definition resolve_peer_addr (w : Names) (host : string) (port : N) : Names * (ConfigError + Addr) :=
  let '(w, addrs) := to_socket_addrs w host port in
  (w, match addrs with
      | None => inl (ResolveFailed host port)
      | Some [addr] => inr addr
      | Some [] => inl (NoAddress host port)
      | Some addrs => inl (AmbiguousAddress host port (vlen addrs))
      end).

(** [BTreeMap::insert], with whether the key was there. *)
Fixpoint peer_insert (k : N) (a : Addr) (m : list (NodeId * Addr)) : list (NodeId * Addr) * bool :=
  match m with
  | [] => ([(k, a)], false)
  | (k', a') :: rest =>
      match k ?= k' with
      | Lt => ((k, a) :: m, false)
      | Eq => ((k, a) :: rest, true)
      | Gt => let '(rest, old) := peer_insert k a rest in ((k', a') :: rest, old)
      end
  end.

(** The loop of [peer_addrs]. *)
Fixpoint peer_loop (w : Names) (addrs : list (NodeId * Addr)) (peers : list PeerSection)
    : Names * (ConfigError + list (NodeId * Addr)) :=
  match peers with
  | [] => (w, inr addrs)
  | peer :: peers =>
      match resolve_peer_addr w (ps_host peer) (ps_raft_port peer) with
      | (w, inl e) => (w, inl e)
      | (w, inr addr) =>
          if bool_decide (addr ∈ map snd addrs) then (w, inl (DuplicateAddress addr))
          else match peer_insert (ps_id peer) addr addrs with
               | (_, true) => (w, inl (DuplicateNodeId (ps_id peer)))
               | (addrs, false) => peer_loop w addrs peers
               end
      end
  end.

Definition peer_addrs (w : Names) (peers : list PeerSection) : Names * (ConfigError + list (NodeId * Addr)) :=
  match peer_loop w [] peers with
  | (w, inl e) => (w, inl e)
  | (w, inr []) => (w, inl NoPeers)
  | (w, inr addrs) => (w, inr addrs)
  end.

Definition parse_node_config (w : Names) (contents : string) : Names * (ConfigError + DaemonConfig) :=
  match from_toml contents with
  | None => (w, inl TomlFailed)
  | Some config =>
      let node := cf_node config in
      match resolve_peer_addr w (ns_host node) (ns_client_port node) with
      | (w, inl e) => (w, inl e)
      | (w, inr client_addr) =>
          match resolve_peer_addr w (ns_host node) (ns_raft_port node) with
          | (w, inl e) => (w, inl e)
          | (w, inr raft_addr) =>
              match from_hex (cs_raft_key (cf_cluster config)) with
              | None => (w, inl BadRaftKey)
              | Some raft_key =>
                  match peer_addrs w (cs_peers (cf_cluster config)) with
                  | (w, inl e) => (w, inl e)
                  | (w, inr peers) =>
                      (w, match peer_get peers (ns_id node) with
                          | Some peer_addr =>
                              if bool_decide (peer_addr = raft_addr) then
                                inr (mkDaemonConfig
                                  (mkNodeConfig (ns_id node) raft_addr peers (raft_config (ns_id node)))
                                  client_addr raft_key "default" (sg_data_dir (cf_storage config)))
                              else inl (SelfAddressMismatch (ns_id node) peer_addr raft_addr)
                          | None => inl (SelfMissing (ns_id node))
                          end)
                  end
              end
          end
      end
  end.

Definition load_node_config (w : Names) (path : string) : Names * (ConfigError + DaemonConfig) :=
  match read_to_string path with
  | None => (w, inl ReadFailed)
  | Some contents => parse_node_config w contents
  end.

(** ** The peer table *)

Implicit Types m : list (NodeId * Addr).

(** Keys in strictly increasing order and no address twice. *)
Definition table_ok m : Prop := StronglySorted N.lt (map fst m) ∧ NoDup (map snd m).

Lemma peer_insert_perm k a m m' : peer_insert k a m = (m', false) → m' ≡ₚ (k, a) :: m.
Proof.
  revert m'. induction m as [|[k' a'] m IH]; intros m' H; cbn [peer_insert] in H; [by eq_inv H |].
  destruct (k ?= k'); [by eq_inv H | by eq_inv H |]. destruct (peer_insert k a m) as [m1 old]. eq_inv H.
  rewrite (IH m1 eq_refl). apply perm_swap.
Qed.

Lemma peer_insert_sorted k a m m' :
  peer_insert k a m = (m', false) → StronglySorted N.lt (map fst m) → StronglySorted N.lt (map fst m').
Proof.
  revert m'. induction m as [|[k' a'] m IH]; intros m' H Hs; cbn [peer_insert] in H.
  { eq_inv H. cbn. repeat constructor. }
  apply StronglySorted_inv in Hs as [Hs Hall]. destruct (N.compare_spec k k') as [->|Hlt|Hgt].
  - eq_inv H. discriminate.
  - eq_inv H. cbn. constructor; [by constructor |]. constructor; [done |].
    eapply Forall_impl; [exact Hall |]. cbn. intros x Hx. lia.
  - destruct (peer_insert k a m) as [m1 old] eqn:E. eq_inv H. cbn [map fst]. constructor; [by apply IH |].
    rewrite (Permutation_map fst (peer_insert_perm _ _ _ _ E)). cbn [map fst]. by constructor.
Qed.

Lemma peer_insert_ok k a m m' :
  peer_insert k a m = (m', false) → a ∉ map snd m → table_ok m → table_ok m'.
Proof.
  intros H Ha [Hs Hd]. split; [by eapply peer_insert_sorted |].
  rewrite (Permutation_map snd (peer_insert_perm _ _ _ _ H)). cbn [map snd]. by constructor.
Qed.

Lemma peer_loop_ok peers : ∀ w m w' m',
  peer_loop w m peers = (w', inr m') → table_ok m →
  table_ok m' ∧ map fst m' ≡ₚ map ps_id peers ++ map fst m.
Proof.
  induction peers as [|p peers IH]; intros w m w' m' H Hm; cbn [peer_loop] in H; [by eq_inv H; simplify_eq |].
  destruct (resolve_peer_addr _ _ _) as [w1 [e|addr]]; [by eq_inv H |]. case_bool_decide as Ha; [by eq_inv H |].
  destruct (peer_insert _ _ _) as [m1 [|]] eqn:E; [by eq_inv H |].
  destruct (IH _ _ _ _ H ltac:(by eapply peer_insert_ok)) as [Hok Hperm]. split; [done |].
  rewrite Hperm, (Permutation_map fst (peer_insert_perm _ _ _ _ E)). cbn [map fst].
  symmetry. apply Permutation_middle.
Qed.

Lemma strictly_sorted_NoDup (l : list N) : StronglySorted N.lt l → NoDup l.
Proof.
  induction 1 as [|x l _ IH Hall]; constructor; [|done]. intros Hx. rewrite Forall_forall in Hall. specialize (Hall _ Hx). lia.
Qed.

Lemma first_duplicate_none seen (l : list Addr) :
  NoDup l → (∀ a, a ∈ l → a ∉ seen) → first_duplicate seen l = None.
Proof.
  revert seen. induction l as [|a l IH]; intros seen Hd Hs; [done |]. cbn [first_duplicate].
  apply NoDup_cons in Hd as [Ha Hd]. rewrite bool_decide_eq_false_2 by (apply Hs, list_elem_of_here).
  apply IH; [done |]. intros b Hb [->|Hin]%elem_of_cons; [done |]. eapply Hs; [|exact Hin]. by apply list_elem_of_further.
Qed.

Lemma peer_addrs_ok w peers w' m :
  peer_addrs w peers = (w', inr m) → table_ok m ∧ map fst m ≡ₚ map ps_id peers.
Proof.
  unfold peer_addrs. destruct (peer_loop w [] peers) as [w1 [e|l]] eqn:E; [by intros [=] |].
  intros H. assert (l = m) as -> by (destruct l; by simplify_eq). rewrite <- (app_nil_r (map ps_id peers)).
  apply (peer_loop_ok _ _ _ _ _ E). split; [constructor | apply NoDup_nil_2].
Qed.

Lemma parse_node_config_ok w contents w' c :
  parse_node_config w contents = (w', inr c) →
  validate_config (dc_node c) = None ∧
  (∃ file, from_toml contents = Some file ∧ NoDup (map ps_id (cs_peers (cf_cluster file))) ∧
     map fst (peers (dc_node c)) ≡ₚ map ps_id (cs_peers (cf_cluster file)) ∧
     table_ok (peers (dc_node c)) ∧ node_id (dc_node c) = ns_id (cf_node file) ∧
     from_hex (cs_raft_key (cf_cluster file)) = Some (dc_raft_key c)) ∧
  ∀ (B State : Type) (decode : B → option PersistentDelta) (records : list (N * B)) (state : State) e,
    open_runtime decode (dc_node c) records state = Some (inl e) → ∃ se, e = StoreFailed se.
Proof.
  unfold parse_node_config. destruct (from_toml contents) as [file|]; [|by intros [=]].
  destruct (resolve_peer_addr w _ _) as [w1 [e|ca]]; [by intros [=] |].
  destruct (resolve_peer_addr w1 _ _) as [w2 [e|ra]]; [by intros [=] |].
  destruct (from_hex _) as [key|] eqn:Ek; [|by intros [=]].
  destruct (peer_addrs w2 _) as [w3 [e|m]] eqn:Em; [by intros [=] |].
  destruct (peer_get m _) as [pa|] eqn:Ep; [|by intros [=]]. case_bool_decide as Epa; [|by intros [=]].
  intros [= <- <-]. cbn [dc_node dc_raft_key peers node_id]. apply peer_addrs_ok in Em as [Hok Hperm].
  assert (validate_config (mkNodeConfig (ns_id (cf_node file)) ra m (raft_config (ns_id (cf_node file)))) = None) as Hv.
  { unfold validate_config. cbn [node_id consensus raft_config id peers raft_addr config_new with_parallel_disk_write].
    rewrite N.eqb_refl. cbn [negb]. rewrite Ep, Epa, bool_decide_eq_true_2 by done. cbn [negb].
    rewrite first_duplicate_none; [done | apply Hok |]. by intros a _ ?%elem_of_nil. }
  split; [exact Hv |]. split.
  - exists file. split_and!; [done | | done | done | done | done]. rewrite <- Hperm. apply strictly_sorted_NoDup, Hok.
  - intros B State decode records state e. unfold open_runtime. rewrite Hv. destruct (node_new _ _); [|done].
    destruct (open_store _ _ _) as [se|st]; [intros [= <-]; by exists se |]. by destruct (node_restore _ _).
Qed.

(** An accepted configuration is a valid one. If the daemon accepts the text of a
    configuration file, the file's peers have distinct ids, the peer table lists
    exactly these ids in order with distinct addresses, the key is the parsed one,
    and the runtime's own checks pass, so that opening the runtime can only fail in
    its store. *)
Theorem accepted_config_valid w contents w' c :
  parse_node_config w contents = (w', inr c) →
  validate_config (dc_node c) = None ∧
  (∃ file, from_toml contents = Some file ∧ NoDup (map ps_id (cs_peers (cf_cluster file))) ∧
     map fst (peers (dc_node c)) ≡ₚ map ps_id (cs_peers (cf_cluster file)) ∧
     table_ok (peers (dc_node c)) ∧ node_id (dc_node c) = ns_id (cf_node file) ∧
     from_hex (cs_raft_key (cf_cluster file)) = Some (dc_raft_key c)) ∧
  ∀ (B State : Type) (decode : B → option PersistentDelta) (records : list (N * B)) (state : State) e,
    open_runtime decode (dc_node c) records state = Some (inl e) → ∃ se, e = StoreFailed se.
Proof. apply parse_node_config_ok. Qed.

End Daemon.

(** ** The example configuration *)

Definition demo_file : ConfigFile :=
  mkConfigFile (mkNodeSection 0 "127.0.0.1" 19090 19091) (mkStorageSection "/tmp/cloud9")
    (mkClusterSection (encode_hex (replicate 32 Byte.x01)) [mkPeerSection 0 "127.0.0.1" 19091]).

Definition demo_resolve (w : unit) (host : string) (port : N) : unit * option (list (string * N)) :=
  (w, Some [(host, port)]).

Definition demo_parsed : DaemonConfig (Addr := string * N) :=
  mkDaemonConfig (mkNodeConfig 0 ("127.0.0.1", 19091) [(0, ("127.0.0.1", 19091))] (raft_config 0))
    ("127.0.0.1", 19090) (mkRaftKey (replicate 32 Byte.x01)) "default" "/tmp/cloud9".

Lemma accepted_config_valid_witness :
  validate_config (dc_node demo_parsed) = None ∧ map fst (peers (dc_node demo_parsed)) = [0].
Proof.
  destruct (accepted_config_valid demo_resolve (fun _ => Some demo_file) tt "" tt demo_parsed) as [Hv _];
    [vm_compute; reflexivity |].
  split; [exact Hv | reflexivity].
Defined.
