(* ===== verification/Server.v ===== *)
(** * The daemon process

    What starts and drives the parts: [main] and [init_tracing] of cloud9/src/main.rs,
    [launch] and [kv_app] of service.rs, [raft_app] and [post_raft_message] of
    transport.rs, [run] and [PendingCleanup::drop] of runtime.rs. clap, tracing, axum
    and the sockets are parameters: the parsed command line, whether an address can be
    bound, how an exchange with a peer ended. The theorems: a runtime whose driver
    stopped refuses everything, the request a peer sends passes the limits of the
    server, and [check-config] accepts exactly what [start] can run. *)

From S2P Require Import Prelude Auth Membership Log Event Core Role Node Store Runtime Kv Transport Daemon.

Open Scope N_scope.

(** ** The driver of the runtime *)

Section Driver.

Context {Addr : Type} `{!EqDecision Addr}.
Context {Bytes : Type} (encode : PersistentDelta → option Bytes).
Context {State Res : Type} (apply_command : State → Command → State * Res).

(** [run], for as many ticks as the list has; [None] as error: still running. *)
Fixpoint run (ticks : list bool) (rt : RaftRuntime Addr Bytes State)
    : option (RaftRuntime Addr Bytes State * list (Output Res) * option (RuntimeError Addr)) :=
  match ticks with
  | [] => Some (rt, [], None)
  | wal_ok :: ticks =>
      let* (rt, out, err) := tick_once encode apply_command wal_ok rt in
      match err with
      | Some e => Some (rt, [out], Some e)
      | None => let* (rt, outs, err) := run ticks rt in Some (rt, out :: outs, err)
      end
  end.

(** [PendingCleanup::drop]: the task is dropped while it waits; [finish] disarms it. *)
Definition cleanup_drop (armed : bool) (rt : RaftRuntime Addr Bytes State) (index : LogIndex) (id : N)
    : RaftRuntime Addr Bytes State :=
  if armed then set_rt_waiters rt (remove_pending (rt_waiters rt) index id) else rt.

End Driver.

(** ** HTTP *)

Inductive Method := GET | POST | OtherMethod.

(** A request as axum hands it to a route: [hr_signature] is the signature header, if
    it is present and text. *)
Record HttpRequest := mkHttpRequest {
  hr_method : Method; hr_uri : string; hr_signature : option string; hr_body : bytes }.

Inductive RaftReply {Addr : Type} :=
| NotFound
| MethodNotAllowed
| PayloadTooLarge
| Handled (r : Received Addr).
Arguments RaftReply Addr : clear implicits.

(** [kv_app]: the health check, and the generated Connect service for the rest. *)
Inductive KvRoute := Healthz (body : string) | Connect.

Definition kv_app (m : Method) (uri : string) : option KvRoute :=
  if bool_decide (uri = "/healthz")
  then match m with GET => Some (Healthz "ok") | _ => None end else Some Connect.

(** How the exchange with a peer ended. *)
Inductive Exchange := TimedOut | ConnectFailed | HeadersFailed | BodyFailed | ResponseFailed | Response (bs : bytes).

Inductive PostResult :=
| Posted
| NotBuilt (e : PostError)
| RpcTimedOut
| Connecting
| WritingHeaders
| WritingBody
| ReadingResponse
| PeerRejected (response : bytes).

Section Http.

Context {Addr : Type} `{!EqDecision Addr} (addr_text : Addr → string).
Context {Bytes : Type} (encode : PersistentDelta → option Bytes).
Context {State Res : Type} (apply_command : State → Command → State * Res).
Context (hmac_sha256 : bytes → bytes → option bytes).
Context (encode_message : Message → option bytes) (decode_message : bytes → option Message).

Definition raft_app (wal_ok : bool) (key : RaftKey) (rt : RaftRuntime Addr Bytes State) (rq : HttpRequest)
    : option (RaftRuntime Addr Bytes State * Output Res * RaftReply Addr) :=
  let refuse r := Some (rt, mkOutput [] [], r) in
  if negb (bool_decide (hr_uri rq = "/raft/message")) then refuse NotFound
  else match hr_method rq with
       | POST =>
           if MAX_RAFT_MESSAGE_BYTES <? vlen (hr_body rq) then refuse PayloadTooLarge
           else
             let* (rt, out, r) := receive_raft encode apply_command hmac_sha256 decode_message wal_ok key rt
                                    (hr_signature rq) (hr_body rq) in
             Some (rt, out, Handled r)
       | _ => refuse MethodNotAllowed
       end.

Definition post_raft_message (addr : Addr) (key : RaftKey) (m : Message) (x : Exchange) : PostResult :=
  match raft_request addr_text hmac_sha256 encode_message addr key m with
  | inl e => NotBuilt e
  | inr _ =>
      match x with
      | TimedOut => RpcTimedOut
      | ConnectFailed => Connecting
      | HeadersFailed => WritingHeaders
      | BodyFailed => WritingBody
      | ResponseFailed => ReadingResponse
      | Response bs => if response_ok bs then Posted else PeerRejected (take (N.to_nat MAX_RESPONSE_BYTES) bs)
      end
  end.

(** What the server's socket reads of a request that was built by [raft_request]. *)
Definition as_http (rq : RaftRequest) : HttpRequest :=
  mkHttpRequest POST "/raft/message" (Some (rr_signature rq)) (rr_body rq).

End Http.

(** ** Starting the node *)

Section Launch.

Context {Addr : Type} `{!EqDecision Addr}.
Context {Bytes : Type} (encode : PersistentDelta → option Bytes) (decode : Bytes → option PersistentDelta).
Context {Res : Type} (apply_command : KvState → Command → KvState * Res).

Inductive LaunchError :=
| OpenFailed (e : RuntimeError Addr)
| BindingClient (addr : Addr)
| BindingRaft (addr : Addr)
| Driving (e : RuntimeError Addr).

(** [launch], with servers that serve for as long as the driver runs. [bind]: the address
    can be bound. [None] as error: the node is running after these ticks. *)
Definition launch (bind : Addr → bool) (config : DaemonConfig (Addr := Addr)) (records : list (N * Bytes))
    (ticks : list bool) : option (LaunchError + RaftRuntime Addr Bytes KvState) :=
  let* r := open_runtime decode (dc_node config) records kv_new in
  match r with
  | inl e => Some (inl (OpenFailed e))
  | inr rt =>
      if negb (bind (dc_client_addr config)) then Some (inl (BindingClient (dc_client_addr config)))
      else if negb (bind (raft_addr (dc_node config))) then Some (inl (BindingRaft (raft_addr (dc_node config))))
      else
        let* (rt, _, err) := run encode apply_command ticks rt in
        Some (match err with Some e => inl (Driving e) | None => inr rt end)
  end.

(** ** The command line *)

Inductive CliCommand := Start (config : string) | CheckConfig (config : string).

Record Cli := mkCli { verbose : N; no_color : bool; no_progress : bool; cli_command : CliCommand }.

Definition default_filter (verbosity : N) : string :=
  if verbosity =? 0 then "info" else if verbosity =? 1 then "cloud9=debug" else "cloud9=trace".

Record Tracing := mkTracing { tr_filter : string; tr_target : bool; tr_ansi : bool }.

(** [rust_log]: the variable RUST_LOG, when it is set, with its text when it is Unicode.
    [filter_ok] is the parser of filters; a subscriber that is already installed makes
    [try_init] fail. *)
Definition init_tracing (rust_log : option (option string)) (filter_ok : string → bool) (installed : bool)
    (verbosity : N) (color_enabled : bool) : option Tracing :=
  let* filter :=
    match rust_log with
    | Some None => None
    | Some (Some value) => if filter_ok value then Some value else None
    | None => Some (default_filter verbosity)
    end in
  if installed then None else Some (mkTracing filter (0 <? verbosity) color_enabled).

Context {Names : Type} (to_socket_addrs : Names → string → N → Names * option (list Addr)).
Context (from_toml : string → option ConfigFile) (read_to_string : string → option string).

Inductive MainError :=
| DiagnosticsFailed
| TracingFailed
| ConfigFailed (e : ConfigError (Addr := Addr))
| CheckFailed (e : ConfigError (Addr := Addr))
| LaunchFailed (e : LaunchError).

(** What [main] ends with; [Running] is a node that still runs after the given ticks. *)
Inductive MainResult := ConfigurationOk | Running (rt : RaftRuntime Addr Bytes KvState).

Definition main (diagnostics_ok : bool) (tracing : option Tracing) (bind : Addr → bool)
    (records : list (N * Bytes)) (ticks : list bool) (w : Names) (cli : Cli)
    : option (MainError + MainResult) :=
  if negb diagnostics_ok then Some (inl DiagnosticsFailed)
  else match tracing with
  | None => Some (inl TracingFailed)
  | Some _ =>
      match cli_command cli with
      | Start path =>
          match (load_node_config to_socket_addrs from_toml read_to_string w path).2 with
          | inl e => Some (inl (ConfigFailed e))
          | inr config =>
              let* r := launch bind config records ticks in
              Some (match r with inl e => inl (LaunchFailed e) | inr rt => inr (Running rt) end)
          end
      | CheckConfig path =>
          match (load_node_config to_socket_addrs from_toml read_to_string w path).2 with
          | inl e => Some (inl (CheckFailed e))
          | inr _ => Some (inr ConfigurationOk)
          end
      end
  end.

End Launch.

(** ** Facts *)

Section DriverFacts.

Context {Addr : Type} `{!EqDecision Addr}.
Context {Bytes : Type} (encode : PersistentDelta → option Bytes).
Context {State Res : Type} (apply_command : State → Command → State * Res).

Lemma tick_error_fails wal_ok (rt rt' : RaftRuntime Addr Bytes State) out e :
  tick_once encode apply_command wal_ok rt = Some (rt', out, Some e) → rt_failed rt' = true.
Proof.
  unfold tick_once, tick_locked, handle_or_fail. destruct (rt_failed rt) eqn:Hf; [by intros [= <- _ _] |].
  destruct (tick _) as [[n eff]|]; [|done]. destruct (handle_effects _ _ _ _ _) as [[[rt1 o1] e1]|]; [|done].
  by intros [= <- _ ->].
Qed.

(** The node stops for good. When the driver ends with an error, the runtime is marked
    failed, and from then on every message, tick and proposal is refused with [Failed]
    without sending or changing anything, and a driver started again ends at once. *)
Theorem run_fails_closed ticks : ∀ (rt rt' : RaftRuntime Addr Bytes State) outs e,
  run encode apply_command ticks rt = Some (rt', outs, Some e) →
  rt_failed rt' = true ∧
  ∀ wal_ok m bytes ticks',
    runtime_step encode apply_command wal_ok rt' m = Some (rt', mkOutput [] [], Some Failed) ∧
    propose encode apply_command wal_ok rt' bytes = Some (rt', mkOutput [] [], inl (RPRuntime Failed)) ∧
    run encode apply_command (wal_ok :: ticks') rt' = Some (rt', [mkOutput [] []], Some Failed).
Proof.
  intros rt rt' outs e H. assert (rt_failed rt' = true) as Hf.
  { revert rt outs H. induction ticks as [|ok ticks IH]; intros rt outs H; simpl in H; [done |].
    destruct (tick_once _ _ _ _) as [[[rt1 out] [e1|]]|] eqn:E; [| |done].
    - injection H as <- _ _. by eapply tick_error_fails.
    - destruct (run _ _ ticks rt1) as [[[rt2 outs2] err2]|] eqn:E2; [|done]. injection H as <- _ ->. by eapply IH. }
  split; [done |]. intros wal_ok m bytes ticks'. unfold runtime_step, propose. simpl. unfold tick_once. by rewrite Hf.
Qed.

End DriverFacts.

Section HttpFacts.

Context {Addr : Type} `{!EqDecision Addr} (addr_text : Addr → string).
Context {Bytes : Type} (encode : PersistentDelta → option Bytes).
Context {State Res : Type} (apply_command : State → Command → State * Res).
Context (hmac_sha256 : bytes → bytes → option bytes).
Context (encode_message : Message → option bytes) (decode_message : bytes → option Message).

(** The limits of sender and receiver fit. A request that [raft_request] builds is never
    refused by the router or for its size: what the server answers is the answer of
    [receive_raft] to its signature and body. *)
Theorem posted_reaches_handler addr key m rq wal_ok key' (rt : RaftRuntime Addr Bytes State) :
  raft_request addr_text hmac_sha256 encode_message addr key m = inr rq →
  raft_app encode apply_command hmac_sha256 decode_message wal_ok key' rt (as_http rq) =
    (let* (rt', out, r) := receive_raft encode apply_command hmac_sha256 decode_message wal_ok key' rt
                             (Some (rr_signature rq)) (rr_body rq) in
     Some (rt', out, Handled r)).
Proof.
  unfold raft_request. destruct (encode_message m) as [body|]; [|done].
  destruct (N.ltb_spec MAX_RAFT_MESSAGE_BYTES (vlen body)) as [|Hle]; [done |].
  destruct (signature _ _ _) as [sig|]; [|done]. intros [= <-].
  unfold raft_app, as_http. cbn [hr_uri hr_method hr_body hr_signature rr_body rr_signature].
  rewrite bool_decide_eq_true_2 by done. cbn [negb]. by rewrite (proj2 (N.ltb_ge _ _)).
Qed.

End HttpFacts.

Section MainFacts.

Context {Addr : Type} `{!EqDecision Addr}.
Context {Bytes : Type} (encode : PersistentDelta → option Bytes) (decode : Bytes → option PersistentDelta).
Context {Res : Type} (apply_command : KvState → Command → KvState * Res).
Context {Names : Type} (to_socket_addrs : Names → string → N → Names * option (list Addr)).
Context (from_toml : string → option ConfigFile) (read_to_string : string → option string).

Local Abbreviation main := (main encode decode apply_command to_socket_addrs from_toml read_to_string).

Lemma timeout_nonempty c : election_timeout (config c) = (150, 300) → ∃ x, random_election_timeout c = Some x.
Proof. unfold random_election_timeout, rand. intros ->. by eexists. Qed.

Lemma become_follower_total c : election_timeout (config c) = (150, 300) → ∃ n, become_follower c None = Some n.
Proof.
  intros H. unfold become_follower, Follower.new. destruct (timeout_nonempty c H) as [[t c'] ->]. by eexists.
Qed.

Lemma parsed_consensus w contents w' (c : DaemonConfig (Addr := Addr)) :
  parse_node_config to_socket_addrs from_toml w contents = (w', inr c) →
  election_timeout (consensus (dc_node c)) = (150, 300).
Proof.
  unfold parse_node_config. destruct (from_toml contents); [|done].
  destruct (resolve_peer_addr _ w _ _) as [w1 [|]]; [done |]. destruct (resolve_peer_addr _ w1 _ _) as [w2 [|]]; [done |].
  destruct (from_hex _); [|done]. destruct (peer_addrs _ w2 _) as [w3 [|]]; [done |].
  destruct (peer_get _ _); [|done]. case_bool_decide; [|done]. by intros [= _ <-].
Qed.

(** A configuration that was accepted opens, unless its store does not. *)
Lemma accepted_opens w path w' (c : DaemonConfig (Addr := Addr)) (records : list (N * Bytes)) :
  load_node_config to_socket_addrs from_toml read_to_string w path = (w', inr c) →
  (∃ se, open_runtime decode (dc_node c) records kv_new = Some (inl (StoreFailed se))) ∨
  (∃ rt, open_runtime decode (dc_node c) records kv_new = Some (inr rt) ∧ rt_failed rt = false).
Proof.
  unfold load_node_config. destruct (read_to_string path) as [contents|]; [|done]. intros H.
  pose proof (parsed_consensus _ _ _ _ H) as Ht. destruct (parse_node_config_ok _ _ _ _ _ _ H) as (Hv & _).
  unfold open_runtime. rewrite Hv. unfold node_new.
  destruct (become_follower_total (core_new (consensus (dc_node c)) (map fst (peers (dc_node c)))) Ht) as [n0 ->].
  destruct (open_store _ _ _) as [se|st]; [left; by exists se | right].
  unfold node_restore. destruct (become_follower_total (core_restore (consensus (dc_node c)) (durable st)) Ht) as [n ->].
  eexists. by split.
Qed.

(** C40: [check-config] predicts [start]. With the same files and name resolution, a file that
    [check-config] refuses makes [start] end with the same error before anything is opened.
    A file it accepts gives a configuration with which opening the runtime does not panic
    and can fail only in the store, and, when the addresses can be bound, the node runs. *)
Theorem check_predicts_start t bind records w path v nc np :
  let check := main true (Some t) bind records [] w (mkCli v nc np (CheckConfig path)) in
  let start := main true (Some t) bind records [] w (mkCli v nc np (Start path)) in
  (∀ e, check = Some (inl (CheckFailed e)) → start = Some (inl (ConfigFailed e))) ∧
  (check = Some (inr ConfigurationOk) → ∃ c,
     (load_node_config to_socket_addrs from_toml read_to_string w path).2 = inr c ∧
     ((∃ se, start = Some (inl (LaunchFailed (OpenFailed (StoreFailed se))))) ∨
      (∃ rt, open_runtime decode (dc_node c) records kv_new = Some (inr rt) ∧ rt_failed rt = false ∧
         (bind (dc_client_addr c) = true → bind (raft_addr (dc_node c)) = true → start = Some (inr (Running rt)))))) ∧
  (check = Some (inr ConfigurationOk) ∨ ∃ e, check = Some (inl (CheckFailed e))).
Proof.
  intros check start. unfold check, start, Server.main. simpl.
  destruct (load_node_config _ _ _ w path) as [w' [e|c]] eqn:Hl; simpl; split_and!; try done; eauto.
  - by intros e' [= ->].
  - intros _. exists c. split; [done |].
    destruct (accepted_opens w path w' c records Hl) as [[se Ho]|(rt & Ho & Hf)]; unfold launch; rewrite Ho.
    + left. by exists se.
    + right. exists rt. split_and!; [done | done |]. intros -> ->. done.
Qed.

End MainFacts.

(** ** Examples *)

(** A single node whose disk fails when it stands for election. *)
Definition demo_solo : RaftRuntime N PersistentDelta unit :=
  match open_runtime (Bytes := PersistentDelta) (fun d => Some d) (mkNodeConfig 1 11 [(1, 11)] (raft_config 1)) [] tt with
  | Some (inr rt) => rt
  | _ => demo_node
  end.

Lemma run_fails_closed_witness :
  ∃ rt' outs e, run demo_store demo_apply (repeat false 301) demo_solo = Some (rt', outs, Some e) ∧ rt_failed rt' = true.
Proof.
  destruct (run demo_store demo_apply (repeat false 301) demo_solo) as [[[rt' outs] [e|]]|] eqn:E;
    [|vm_compute in E; discriminate E | vm_compute in E; discriminate E].
  exists rt', outs, e. split; [reflexivity |].
  exact (proj1 (run_fails_closed demo_store demo_apply (repeat false 301) demo_solo rt' outs e E)).
Defined.

(** The vote request of Transport.v reaches its handler and is accepted. *)
Lemma posted_reaches_handler_witness :
  ∃ rt' out, raft_app demo_store demo_apply demo_mac demo_decode_message true demo_key demo_node (as_http demo_request) =
    Some (rt', out, Handled Accepted).
Proof.
  rewrite (posted_reaches_handler (fun _ : N => "127.0.0.1:19091") demo_store demo_apply demo_mac demo_encode_message
             demo_decode_message 11 demo_key demo_vote demo_request true demo_key demo_node); [|vm_compute; reflexivity].
  vm_compute. eexists _, _. reflexivity.
Defined.
