(* ===== verification/Session.v ===== *)
(** * Client sessions

    consensus/cloud9-raft-io/src/session.rs: [SessionTracker], the table that an
    application embeds in its replicated state to execute each client request once.
    [serve] is the protocol the module documents for its users: look the request up,
    answer a duplicate from the cache, otherwise execute it and record the response. *)

From S2P Require Import Prelude.
From Stdlib Require Import Sorted.

Open Scope N_scope.

Section Session.

Context {R : Type}.

Record SessionRequest (T : Type) := mkSessionRequest {
  client_id : N; sequence : N; payload : T }.

Definition session_request_new {T} (client_id sequence : N) (payload : T) : SessionRequest T :=
  mkSessionRequest T client_id sequence payload.

Record ClientSession := mkClientSession { last_sequence : N; last_response : option R }.

Definition default_client_session : ClientSession := mkClientSession 0 None.

Inductive DuplicateCheck := New | Duplicate (r : R) | Stale.

Record SessionTracker := mkSessionTracker {
  tracked : gmap N ClientSession; next_client : N }.

Definition tracker_new : SessionTracker := mkSessionTracker ∅ 1.

Definition register_client (t : SessionTracker) : SessionTracker * N :=
  let id := next_client t in
  (mkSessionTracker (<[id := default_client_session]> (tracked t)) (next_client t +u 1), id).

Definition check_duplicate (t : SessionTracker) (client_id sequence : N) : DuplicateCheck :=
  match tracked t !! client_id with
  | None => New
  | Some session =>
      match sequence ?= last_sequence session with
      | Gt => New
      | Eq => match last_response session with Some resp => Duplicate resp | None => New end
      | Lt => Stale
      end
  end.

Definition record_completion (t : SessionTracker) (client_id sequence : N) (response : R) : SessionTracker :=
  let session := default default_client_session (tracked t !! client_id) in
  let session :=
    if last_sequence session <? sequence then mkClientSession sequence (Some response) else session in
  mkSessionTracker (<[client_id := session]> (tracked t)) (next_client t).

Definition is_registered (t : SessionTracker) (client_id : N) : bool :=
  bool_decide (is_Some (tracked t !! client_id)).

Definition expire_session (t : SessionTracker) (client_id : N) : SessionTracker * bool :=
  (mkSessionTracker (delete client_id (tracked t)) (next_client t), is_registered t client_id).

Definition session_count (t : SessionTracker) : N := N.of_nat (size (tracked t)).

Definition client_last_sequence (t : SessionTracker) (client_id : N) : option N :=
  option_map last_sequence (tracked t !! client_id).

(** ** The documented protocol *)

Context {State Request : Type} (execute : State → Request → State * R).

(** What the application does with a request; the last component tells whether the
    request was executed. *)
Definition serve (st : SessionTracker * State) (c q : N) (p : Request)
    : SessionTracker * State * option R * bool :=
  let '(t, s) := st in
  match check_duplicate t c q with
  | Duplicate r => (t, s, Some r, false)
  | Stale => (t, s, None, false)
  | New => let '(s, r) := execute s p in (record_completion t c q r, s, Some r, true)
  end.

Inductive SessionOp := ORegister | ORequest (c q : N) (p : Request).

(** One operation, with the executed requests so far, latest first. *)
Definition session_step (x : SessionTracker * State * list (N * N)) (op : SessionOp)
    : SessionTracker * State * list (N * N) :=
  let '(t, s, ran) := x in
  match op with
  | ORegister => ((register_client t).1, s, ran)
  | ORequest c q p =>
      let '(t, s, _, executed) := serve (t, s) c q p in (t, s, if executed then (c, q) :: ran else ran)
  end.

Definition session_run (x : SessionTracker * State * list (N * N)) (ops : list SessionOp)
    : SessionTracker * State * list (N * N) := fold_left session_step ops x.

(** Requests come from registered clients and carry positive sequence numbers. *)
Fixpoint lawful (x : SessionTracker * State * list (N * N)) (ops : list SessionOp) : Prop :=
  match ops with
  | [] => True
  | op :: ops =>
      match op with
      | ORegister => True
      | ORequest c q _ => is_registered x.1.1 c = true ∧ 0 < q
      end ∧ lawful (session_step x op) ops
  end.

Lemma check_duplicate_recorded t c q r :
  tracked t !! c = Some (mkClientSession q (Some r)) → check_duplicate t c q = Duplicate r.
Proof. intros H. unfold check_duplicate. rewrite H. cbn. by rewrite N.compare_refl. Qed.

(** The table knows every executed request, or a later one of the same client. *)
Record tracker_inv (t : SessionTracker) (ran : list (N * N)) : Prop := {
  ti_range : ∀ c x, tracked t !! c = Some x → c < next_client t ∧ (0 < last_sequence x → is_Some (last_response x));
  ti_ran : ∀ c q, (c, q) ∈ ran → ∃ x, tracked t !! c = Some x ∧ q ≤ last_sequence x;
  ti_sorted : StronglySorted (fun a b => a.1 = b.1 → b.2 < a.2) ran
}.

Lemma check_new t c q ran :
  tracker_inv t ran → 0 < q → is_registered t c = true → check_duplicate t c q = New →
  ∃ x, tracked t !! c = Some x ∧ last_sequence x < q.
Proof.
  intros Hinv Hq Hr. unfold is_registered in Hr. apply bool_decide_eq_true in Hr as [x Hx].
  unfold check_duplicate. rewrite Hx. destruct (ti_range _ _ Hinv c x Hx) as [_ Hcached].
  destruct (N.compare_spec q (last_sequence x)) as [->| |]; [|done | by exists x].
  destruct (Hcached Hq) as [r ->]. done.
Qed.

Lemma session_step_inv t s ran op :
  tracker_inv t ran → next_client t + 1 < u64_modulus →
  match op with ORegister => True | ORequest c q _ => is_registered t c = true ∧ 0 < q end →
  let '(t', _, ran') := session_step (t, s, ran) op in
  tracker_inv t' ran' ∧ next_client t' ≤ next_client t + 1.
Proof.
  intros Hinv Hn Hlaw. destruct op as [|c q p]; cbn [session_step].
  - unfold register_client. rewrite u64_add_small by done. split; [|done]. split; cbn; [| |apply Hinv].
    + intros c x [[<- <-]|[_ Hx]]%lookup_insert_Some; [split; [lia | by cbn; lia] |].
      destruct (ti_range _ _ Hinv c x Hx). split; [lia | done].
    + intros c q Hd. destruct (ti_ran _ _ Hinv c q Hd) as (x & Hx & Hle). exists x. split; [|done].
      rewrite lookup_insert_ne; [done |]. destruct (ti_range _ _ Hinv c x Hx). lia.
  - destruct Hlaw as [Hr Hq]. unfold serve. destruct (check_duplicate t c q) as [| |] eqn:E; [|by split; [|lia]..].
    destruct (check_new _ _ _ _ Hinv Hq Hr E) as (x & Hx & Hlt). destruct (execute s p) as [s' r].
    unfold record_completion. rewrite Hx. change (default default_client_session (Some x)) with x. cbn zeta.
    rewrite (proj2 (N.ltb_lt _ _) Hlt). split; [|cbn; lia]. split; cbn.
    + intros c' x' [[<- <-]|[_ Hx']]%lookup_insert_Some; [|by apply Hinv].
      split; [by apply (ti_range _ _ Hinv c x) | done].
    + intros c' q' [[= -> ->]|Hd]%elem_of_cons.
      { eexists. split; [apply lookup_insert_eq | done]. }
      destruct (ti_ran _ _ Hinv c' q' Hd) as (x' & Hx' & Hle). destruct (decide (c' = c)) as [->|Hne].
      * eexists. split; [apply lookup_insert_eq |]. cbn. assert (x' = x) as -> by congruence. lia.
      * exists x'. by rewrite lookup_insert_ne.
    + constructor; [apply Hinv |]. apply Forall_forall. intros [c' q'] Hd; cbn. intros <-.
      destruct (ti_ran _ _ Hinv c q' Hd) as (x' & Hx' & Hle). assert (x' = x) as -> by congruence. lia.
Qed.

Lemma session_run_inv ops : ∀ t s ran,
  tracker_inv t ran → next_client t + N.of_nat (length ops) < u64_modulus → lawful (t, s, ran) ops →
  let '(t', _, ran') := session_run (t, s, ran) ops in tracker_inv t' ran'.
Proof.
  induction ops as [|op ops IH]; intros t s ran Hinv Hn Hlaw; [done |].
  cbn [lawful] in Hlaw. destruct Hlaw as [Hop Hlaw]. cbn [length] in Hn.
  pose proof (session_step_inv t s ran op Hinv ltac:(lia) Hop) as Hstep.
  cbn [session_run fold_left]. destruct (session_step (t, s, ran) op) as [[t' s'] ran'].
  destruct Hstep as [Hinv' Hle]. apply IH; [done | lia | done].
Qed.

Lemma tracker_new_inv : tracker_inv tracker_new [].
Proof. split; cbn; [by intros c x ?%lookup_empty_Some | by intros c q ?%elem_of_nil | constructor]. Qed.

(** C37: at most once. Over any history of registrations and requests of registered
    clients (fewer than 2^64 of them), no request is executed twice, and the
    executed requests of one client have increasing sequence numbers. *)
Theorem requests_execute_at_most_once s ops :
  N.of_nat (length ops) < u64_max → lawful (tracker_new, s, []) ops →
  let '(_, _, ran) := session_run (tracker_new, s, []) ops in
  NoDup ran ∧ StronglySorted (fun a b => a.1 = b.1 → b.2 < a.2) ran.
Proof.
  intros Hn Hlaw. pose proof (session_run_inv ops tracker_new s [] tracker_new_inv) as H.
  destruct (session_run _ ops) as [[t' s'] ran]. destruct H as [_ _ Hs]; [cbn; ulia | done |]. split; [|done].
  induction Hs as [|[c q] l Hl IH Hall]; [constructor | constructor; [|done]].
  intros Hin. rewrite Forall_forall in Hall. specialize (Hall _ Hin eq_refl). cbn in Hall. lia.
Qed.

(** The record of a client changes only by its own requests. *)
Lemma session_step_other t s ran op c x :
  next_client t + 1 < u64_modulus → c < next_client t → tracked t !! c = Some x →
  match op with ORegister => True | ORequest c' _ _ => c' ≠ c end →
  tracked (session_step (t, s, ran) op).1.1 !! c = Some x.
Proof.
  intros Hn Hc Hx Hop. destruct op as [|c' q p]; cbn [session_step].
  - cbn. rewrite lookup_insert_ne; [done | lia].
  - unfold serve. destruct (check_duplicate t c' q); [|done..]. destruct (execute s p). cbn.
    by rewrite lookup_insert_ne.
Qed.

(** A retry is answered from the cache. A new request of a registered client is
    executed, and repeating it before the client's next request gives the response
    of that execution, whatever other clients do in between, with no effect on the
    application; an older sequence number is refused. *)
Theorem retry_gets_cached_response t s ran c q p r ops :
  tracker_inv t ran → 0 < q → is_registered t c = true → check_duplicate t c q = New →
  (execute s p).2 = r → next_client t + N.of_nat (length ops) < u64_modulus →
  Forall (fun op => match op with ORegister => True | ORequest c' _ _ => c' ≠ c end) ops →
  let x := session_step (t, s, ran) (ORequest c q p) in
  let '(t', s', _) := session_run x ops in
  serve (t', s') c q p = (t', s', Some r, false) ∧
  (∀ q', q' < q → serve (t', s') c q' p = (t', s', None, false)).
Proof.
  intros Hinv Hq Hr Hnew Hexec Hn Hops. destruct (check_new _ _ _ _ Hinv Hq Hr Hnew) as (x0 & Hx0 & Hlt).
  cbn [session_step]. unfold serve at 1. rewrite Hnew. destruct (execute s p) as [s1 r1]. cbn in Hexec. subst r1.
  set (t1 := record_completion t c q r).
  assert (tracked t1 !! c = Some (mkClientSession q (Some r))) as Hrec.
  { unfold t1, record_completion. rewrite Hx0. cbn. rewrite (proj2 (N.ltb_lt _ _) Hlt). apply lookup_insert_eq. }
  assert (c < next_client t1) as Hc by apply (ti_range _ _ Hinv c x0 Hx0).
  change (next_client t) with (next_client t1) in Hn. clearbody t1. cbn zeta. generalize ((c, q) :: ran).
  clear -Hn Hops Hrec Hc. revert t1 s1 Hn Hc Hrec. induction Hops as [|op ops Hop Hops IH]; intros t1 s1 Hn Hc Hrec ran'.
  - cbn. rewrite (check_duplicate_recorded _ _ _ _ Hrec). split; [done |]. intros q' Hq'.
    unfold check_duplicate. rewrite Hrec. cbn. by rewrite (proj2 (N.compare_lt_iff q' q)).
  - cbn [length] in Hn. cbn [session_run fold_left].
    pose proof (session_step_other t1 s1 ran' op c _ ltac:(lia) Hc Hrec Hop) as Hrec'.
    assert (next_client t1 ≤ next_client (session_step (t1, s1, ran') op).1.1 ≤ next_client t1 + 1) as Hle.
    { destruct op as [|c' q' p']; cbn [session_step].
      - cbn. rewrite u64_add_small; lia.
      - unfold serve. destruct (check_duplicate t1 c' q'); [|cbn; lia..]. destruct (execute s1 p'). cbn. lia. }
    destruct (session_step (t1, s1, ran') op) as [[t2 s2] ran2]. cbn in Hrec', Hle. apply IH; [lia | lia | done].
Qed.

End Session.

(** An application that counts: the response is the number of executed requests. *)
Definition demo_execute (s : N) (_ : unit) : N * N := (s + 1, s + 1).

Definition demo_ops : list (SessionOp (Request := unit)) :=
  [ORegister; ORequest 1 1 tt; ORequest 1 1 tt; ORegister; ORequest 2 1 tt; ORequest 1 2 tt; ORequest 1 1 tt].

Lemma requests_execute_at_most_once_witness :
  let '(_, _, ran) := session_run demo_execute (tracker_new, 0, []) demo_ops in
  NoDup ran ∧ StronglySorted (fun a b => a.1 = b.1 → b.2 < a.2) ran.
Proof.
  apply (requests_execute_at_most_once demo_execute 0 demo_ops).
  - vm_compute. reflexivity.
  - vm_compute. repeat split.
Defined.

Lemma retry_gets_cached_response_witness :
  let x := session_step demo_execute ((register_client tracker_new).1, 0, []) (ORequest 1 1 tt) in
  let '(t', s', _) := session_run demo_execute x [ORegister; ORequest 2 1 tt] in
  serve demo_execute (t', s') 1 1 tt = (t', s', Some 1, false) ∧
  (∀ q', q' < 1 → serve demo_execute (t', s') 1 q' tt = (t', s', None, false)).
Proof.
  apply (retry_gets_cached_response demo_execute (register_client tracker_new).1 0 [] 1 1 tt 1).
  - split; cbn.
    + intros c x [[<- <-]|[_ ?%lookup_empty_Some]]%lookup_insert_Some; [|done]. split; [done | done].
    + intros c q ?%elem_of_nil. done.
    + constructor.
  - done.
  - vm_compute. reflexivity.
  - vm_compute. reflexivity.
  - reflexivity.
  - vm_compute. reflexivity.
  - repeat constructor. discriminate.
Defined.
