(* ===== verification/ReadIndex.v ===== *)
(** * Read-index coordination

    consensus/cloud9-raft-io/src/read_index.rs: [ReadIndexCoordinator], which holds
    reads until a heartbeat round has been acknowledged by a quorum. The [BTreeMap]
    of pending reads is the list of its pairs in key order. A run is a sequence of
    the operations that change the coordinator.

    [read_completes_with_quorum] is the guarantee for a read requested while no
    round is in progress; [read_completed_by_older_round] shows that a read
    requested during a round is completed by acknowledgements of heartbeats that
    were sent before the request. *)

From S2P Require Import Prelude.

Open Scope N_scope.

Abbreviation LogIndex := N.
Abbreviation NodeId := N.

Record PendingRead := mkPendingRead { pr_read_index : LogIndex; pr_round : N }.

Record ReadIndexResult := mkReadIndexResult { ri_id : N; ri_read_index : LogIndex }.

Record ReadIndexCoordinator := mkCoordinator {
  ri_voters : list NodeId;
  me : NodeId;
  next_read_id : N;
  current_round : N;
  round_acks : list NodeId;
  pending : list (N * PendingRead);
  completed : list ReadIndexResult
}.

Definition coordinator_new (me : NodeId) (voters : list NodeId) : ReadIndexCoordinator :=
  mkCoordinator voters me 0 0 [] [] [].

(** [BTreeMap::insert]. *)
Fixpoint pending_insert (id : N) (p : PendingRead) (m : list (N * PendingRead)) : list (N * PendingRead) :=
  match m with
  | [] => [(id, p)]
  | (k, v) :: rest =>
      match id ?= k with
      | Lt => (id, p) :: m
      | Eq => (id, p) :: rest
      | Gt => (k, v) :: pending_insert id p rest
      end
  end.

Definition request_read (c : ReadIndexCoordinator) (read_index : LogIndex) : ReadIndexCoordinator * N :=
  let id := next_read_id c in
  (mkCoordinator (ri_voters c) (me c) (id +u 1) (current_round c) (round_acks c)
     (pending_insert id (mkPendingRead read_index (current_round c)) (pending c)) (completed c), id).

Definition check_quorum (c : ReadIndexCoordinator) : ReadIndexCoordinator :=
  let quorum := vlen (ri_voters c) / 2 + 1 in
  if quorum <=? vlen (round_acks c) then
    let ready (kp : N * PendingRead) := pr_round kp.2 <=? current_round c in
    mkCoordinator (ri_voters c) (me c) (next_read_id c) (current_round c) (round_acks c)
      (List.filter (fun kp => negb (ready kp)) (pending c))
      (completed c ++ map (fun kp => mkReadIndexResult kp.1 (pr_read_index kp.2)) (List.filter ready (pending c)))
  else c.

Definition begin_heartbeat_round (c : ReadIndexCoordinator) : ReadIndexCoordinator :=
  let round := current_round c +u 1 in
  check_quorum
    (mkCoordinator (ri_voters c) (me c) (next_read_id c) round [me c]
       (map (fun kp => (kp.1, mkPendingRead (pr_read_index kp.2) round)) (pending c)) (completed c)).

Definition record_ack (c : ReadIndexCoordinator) (from : NodeId) : ReadIndexCoordinator :=
  if negb (bool_decide (from ∈ round_acks c)) && bool_decide (from ∈ ri_voters c) then
    check_quorum
      (mkCoordinator (ri_voters c) (me c) (next_read_id c) (current_round c) (round_acks c ++ [from])
         (pending c) (completed c))
  else c.

(** The iterator, read to its end. *)
Definition poll_completed (c : ReadIndexCoordinator) : ReadIndexCoordinator * list ReadIndexResult :=
  (mkCoordinator (ri_voters c) (me c) (next_read_id c) (current_round c) (round_acks c) (pending c) [],
   completed c).

Definition pending_count (c : ReadIndexCoordinator) : N := vlen (pending c).

Definition has_pending (c : ReadIndexCoordinator) : bool :=
  match pending c with [] => false | _ => true end.

Definition clear_reads (c : ReadIndexCoordinator) : ReadIndexCoordinator * N :=
  (mkCoordinator (ri_voters c) (me c) (next_read_id c) (current_round c) [] [] (completed c),
   pending_count c).

(** ** Runs *)

Inductive ReadOp := RRequest (i : LogIndex) | RBegin | RAck (n : NodeId) | RClear.

Definition read_step (c : ReadIndexCoordinator) (op : ReadOp) : ReadIndexCoordinator :=
  match op with
  | RRequest i => (request_read c i).1
  | RBegin => begin_heartbeat_round c
  | RAck n => record_ack c n
  | RClear => (clear_reads c).1
  end.

Definition read_run (c : ReadIndexCoordinator) (ops : list ReadOp) : ReadIndexCoordinator :=
  fold_left read_step ops c.

(** The identifiers in use are older than the next one. *)
Definition ids_below (c : ReadIndexCoordinator) : Prop :=
  (∀ k p, (k, p) ∈ pending c → k < next_read_id c) ∧ (∀ r, r ∈ completed c → ri_id r < next_read_id c).

Lemma pending_insert_elem id p m k v :
  (k, v) ∈ pending_insert id p m → (k, v) = (id, p) ∨ (k, v) ∈ m.
Proof.
  induction m as [|[k' v'] m IH]; cbn [pending_insert]; [set_solver |].
  destruct (id ?= k'); set_solver.
Qed.

(** A quorum of distinct nodes, each this node or a voter that acknowledged. *)
Definition confirmed (c : ReadIndexCoordinator) (acked : list NodeId) : Prop :=
  ∃ acks, NoDup acks ∧ vlen (ri_voters c) / 2 + 1 ≤ vlen acks ∧
    ∀ n, n ∈ acks → n = me c ∨ (n ∈ ri_voters c ∧ n ∈ acked).

(** What is known of read [id] of index [i] after the acknowledgements [acked]. *)
Record follows (i : LogIndex) (id : N) (acked : list NodeId) (c : ReadIndexCoordinator) : Prop := {
  fo_ids : id < next_read_id c;
  fo_acks : NoDup (round_acks c) ∧ ∀ n, n ∈ round_acks c → n = me c ∨ (n ∈ ri_voters c ∧ n ∈ acked);
  fo_pending : ∀ p, (id, p) ∈ pending c → pr_read_index p = i;
  fo_completed : ∀ r, r ∈ completed c → ri_id r = id → ri_read_index r = i ∧ confirmed c acked
}.

Lemma confirmed_mono c acked acked' : (∀ n, n ∈ acked → n ∈ acked') → confirmed c acked → confirmed c acked'.
Proof. intros H (acks & ? & ? & Hin). exists acks. split_and!; [done..|]. intros n Hn. destruct (Hin n Hn); naive_solver. Qed.

Lemma check_quorum_follows i id acked c : follows i id acked c → follows i id acked (check_quorum c).
Proof.
  intros [Hid [Hnd Hacks] Hp Hc]. unfold check_quorum. destruct (N.leb_spec (vlen (ri_voters c) / 2 + 1) (vlen (round_acks c))) as [Hq|]; [|done].
  split; cbn [next_read_id round_acks pending completed me ri_voters]; [done | done | |].
  - intros p [Hin _]%list_elem_of_In%filter_In. apply Hp. by apply list_elem_of_In.
  - intros r [Hr|Hr]%elem_of_app Heq; [by apply Hc |]. apply list_elem_of_fmap in Hr as ([k p] & -> & Hin).
    apply list_elem_of_In, filter_In in Hin as [Hin _]. cbn in *. subst k.
    split; [apply Hp; by apply list_elem_of_In | by exists (round_acks c)].
Qed.

Lemma read_step_follows i id acked c op :
  follows i id acked c → next_read_id c + 1 < u64_modulus →
  follows i id (match op with RAck n => n :: acked | _ => acked end) (read_step c op) ∧
  next_read_id (read_step c op) ≤ next_read_id c + 1.
Proof.
  intros Hf Hn. pose proof Hf as [Hid [Hnd Hacks] Hp Hc]. destruct op as [j| |n|]; cbn [read_step].
  - cbn. rewrite u64_add_small by done. split; [|done]. split; cbn; [lia | done | |done].
    intros p [[= -> ->]|Hin]%pending_insert_elem; [lia | by apply Hp].
  - split.
    + apply check_quorum_follows. split; cbn; [done | | |done].
      * split; [apply NoDup_singleton |]. intros n ->%list_elem_of_singleton. by left.
      * intros p ([k p'] & Heq & Hin)%list_elem_of_fmap. cbn in Heq. injection Heq as -> ->. cbn. by apply Hp.
    + unfold begin_heartbeat_round, check_quorum. case_match; cbn; lia.
  - assert (follows i id (n :: acked) c) as Hf'.
    { split; [done | | done |].
      - split; [done |]. intros m Hm. destruct (Hacks m Hm) as [|[??]]; [by left | right; set_solver].
      - intros r Hr Heq. destruct (Hc r Hr Heq) as [? ?]. split; [done |].
        eapply confirmed_mono; [|done]. set_solver. }
    unfold record_ack. case_bool_decide as Hin; cbn [negb andb]; [split; [done | lia] |].
    case_bool_decide as Hv; [|split; [done | lia]]. split; [|unfold check_quorum; case_match; cbn; lia].
    apply check_quorum_follows. destruct Hf' as [_ [_ Hacks'] _ Hc']. split; cbn; [done | | done | done].
    split; [apply NoDup_app; split_and!; [done | set_solver | apply NoDup_singleton] |].
    intros m [Hm| ->%list_elem_of_singleton]%elem_of_app; [by apply Hacks' | right; set_solver].
  - cbn. split; [|lia]. split; cbn; [done | | |done].
    + split; [constructor |]. intros n ?%elem_of_nil. done.
    + intros p ?%elem_of_nil. done.
Qed.

Definition acks_of (ops : list ReadOp) : list NodeId :=
  omap (fun op => match op with RAck n => Some n | _ => None end) ops.

Lemma read_run_follows i id ops : ∀ acked c,
  follows i id acked c → next_read_id c + N.of_nat (length ops) < u64_modulus →
  follows i id (rev (acks_of ops) ++ acked) (read_run c ops).
Proof.
  induction ops as [|op ops IH]; intros acked c Hf Hn; [done |]. cbn [length] in Hn.
  destruct (read_step_follows i id acked c op Hf ltac:(lia)) as [Hf' Hle].
  cbn [read_run fold_left]. specialize (IH _ _ Hf' ltac:(lia)).
  unfold acks_of in *. destruct op; csimpl; rewrite <- ?app_assoc; exact IH.
Qed.

Lemma check_quorum_static c : ri_voters (check_quorum c) = ri_voters c ∧ me (check_quorum c) = me c.
Proof. unfold check_quorum. by case_match. Qed.

Lemma read_run_static ops : ∀ c, ri_voters (read_run c ops) = ri_voters c ∧ me (read_run c ops) = me c.
Proof.
  induction ops as [|op ops IH]; intros c; [done |]. cbn [read_run fold_left].
  destruct (IH (read_step c op)) as [Hv Hm]. unfold read_run in *. rewrite Hv, Hm.
  destruct op; cbn [read_step]; try done.
  - destruct (check_quorum_static (mkCoordinator (ri_voters c) (me c) (next_read_id c) (current_round c +u 1) [me c]
      (map (fun kp => (kp.1, mkPendingRead (pr_read_index kp.2) (current_round c +u 1))) (pending c)) (completed c))). done.
  - unfold record_ack. case_match; [|done]. by destruct (check_quorum_static (mkCoordinator (ri_voters c) (me c)
      (next_read_id c) (current_round c) (round_acks c ++ [n]) (pending c) (completed c))).
Qed.

(** A read requested while no heartbeat round is in progress completes only
    with its own read index, and only once a quorum of distinct nodes has confirmed
    it: each of them is this node or a voter whose acknowledgement was recorded
    after the request. *)
Theorem read_completes_with_quorum c i ops r :
  ids_below c → round_acks c = [] → next_read_id c + N.of_nat (S (length ops)) < u64_modulus →
  let '(c1, id) := request_read c i in
  r ∈ completed (read_run c1 ops) → ri_id r = id →
  ri_read_index r = i ∧
  ∃ acks, NoDup acks ∧ vlen (ri_voters c) / 2 + 1 ≤ vlen acks ∧
    ∀ n, n ∈ acks → n = me c ∨ (n ∈ ri_voters c ∧ RAck n ∈ ops).
Proof.
  intros [Hids Hdone] Hacks Hn. unfold request_read. cbn zeta. intros Hr Hid.
  assert (follows i (next_read_id c) [] (request_read c i).1) as Hf.
  { unfold request_read. rewrite u64_add_small by lia. split; cbn; [lia | | |].
    - rewrite Hacks. split; [constructor | by intros n ?%elem_of_nil].
    - intros p [[= ->]|Hin]%pending_insert_elem; [done |]. specialize (Hids _ _ Hin). lia.
    - intros r' Hr' Heq. specialize (Hdone _ Hr'). lia. }
  apply read_run_follows with (ops := ops) in Hf; [|cbn; rewrite u64_add_small; lia].
  destruct (fo_completed _ _ _ _ Hf r Hr Hid) as (Hi & acks & Hnd & Hq & Hin). split; [done |].
  exists acks. destruct (read_run_static ops (request_read c i).1) as [Hv Hm].
  rewrite Hv, Hm in *. cbn in Hq, Hin. split_and!; [done.. |]. intros n Hn'.
  destruct (Hin n Hn') as [|[? Ha]]; [by left | right; split; [done |]].
  rewrite app_nil_r in Ha. apply list_elem_of_In, in_rev, list_elem_of_In in Ha.
  unfold acks_of in Ha. apply list_elem_of_omap in Ha as ([]& ? & Heq); try discriminate. by injection Heq as ->.
Qed.

Lemma read_completes_with_quorum_witness :
  let c := coordinator_new 0 [0; 1; 2] in
  ri_read_index (mkReadIndexResult 0 42) = 42 ∧
  ∃ acks, NoDup acks ∧ vlen (ri_voters c) / 2 + 1 ≤ vlen acks ∧
    ∀ n, n ∈ acks → n = me c ∨ (n ∈ ri_voters c ∧ RAck n ∈ [RBegin; RAck 1]).
Proof.
  apply (read_completes_with_quorum (coordinator_new 0 [0; 1; 2]) 42 [RBegin; RAck 1] (mkReadIndexResult 0 42)).
  - split; [intros k p ?%elem_of_nil | intros r ?%elem_of_nil]; done.
  - reflexivity.
  - vm_compute. reflexivity.
  - vm_compute. constructor.
  - reflexivity.
Defined.

(** A read that is pending for a round that is not over yet. *)
Lemma pending_insert_has id p m : (id, p) ∈ pending_insert id p m.
Proof.
  induction m as [|[k v] m IH]; cbn [pending_insert]; [left |]. destruct (id ?= k); [left.. | by right].
Qed.

Lemma check_quorum_completes c id p :
  vlen (ri_voters c) / 2 + 1 ≤ vlen (round_acks c) → (id, p) ∈ pending c → pr_round p ≤ current_round c →
  mkReadIndexResult id (pr_read_index p) ∈ completed (check_quorum c).
Proof.
  intros Hq Hp Hr. unfold check_quorum. rewrite (proj2 (N.leb_le _ _) Hq). cbn [completed].
  apply elem_of_app. right. apply list_elem_of_fmap. exists (id, p). split; [done |].
  apply list_elem_of_In, filter_In. split; [by apply list_elem_of_In | by apply N.leb_le].
Qed.

(** C38: a read requested during a heartbeat round does not wait for a round of its own.
    Take any coordinator whose current round lacks at most one acknowledgement of a
    quorum, request a read of any index, and record the acknowledgement of any voter that
    is still missing, without starting a round: the read is completed, and every other
    acknowledgement it rests on was recorded before it was requested. The heartbeats of
    that round were sent before the request, so none of them confirms that the leader
    still led when the read was requested. *)
Theorem read_completed_by_older_round c i n :
  n ∈ ri_voters c → n ∉ round_acks c → vlen (ri_voters c) / 2 ≤ vlen (round_acks c) →
  let '(c1, id) := request_read c i in
  let c2 := record_ack c1 n in
  mkReadIndexResult id i ∈ (poll_completed c2).2 ∧
  current_round c2 = current_round c ∧
  ∀ m, m ∈ round_acks c2 → m ≠ n → m ∈ round_acks c.
Proof.
  intros Hv Hn Hq. cbn [request_read]. set (c1 := mkCoordinator _ _ _ _ _ _ _). unfold record_ack. cbn [round_acks ri_voters c1].
  rewrite (bool_decide_false _ Hn), (bool_decide_true _ Hv). cbn [negb andb poll_completed snd].
  set (c2 := mkCoordinator _ _ _ _ _ _ _). split_and!.
  - apply (check_quorum_completes c2 _ (mkPendingRead i (current_round c))); cbn; [|apply pending_insert_has | done].
    unfold vlen in *. rewrite length_app. cbn [length]. lia.
  - unfold check_quorum. by destruct (_ <=? _).
  - assert (round_acks (check_quorum c2) = round_acks c ++ [n]) as -> by (unfold check_quorum; by destruct (_ <=? _)).
    intros m [?|Hm%list_elem_of_singleton]%elem_of_app ?; done.
Qed.

(** The leader 0 of three has sent its heartbeats; then a read of index 42 is requested. *)
Lemma read_completed_by_older_round_witness :
  let c := begin_heartbeat_round (coordinator_new 0 [0; 1; 2]) in
  let '(c1, id) := request_read c 42 in
  mkReadIndexResult id 42 ∈ (poll_completed (record_ack c1 1)).2.
Proof.
  intros c. apply (read_completed_by_older_round c 42 1).
  - vm_compute. right. left.
  - intros H. vm_compute in H. apply list_elem_of_singleton in H. discriminate H.
  - vm_compute. discriminate.
Defined.
