(* ===== verification/WalFormat.v ===== *)
(** * The record format of the write-ahead log

    cloud9-wal/src/format.rs, record.rs and error.rs: a record is a header of 32
    bytes (magic, version, kind, payload length, checksums) followed by its payload.
    CRC-32 is the [crc32fast] crate's, a parameter with 32-bit values. A reader is
    the sequence of outcomes of its [read] calls: bytes, an interruption, or a
    failure; when the sequence is used up, [read] returns zero (end of file).

    The theorems show that reading inverts encoding however the bytes are
    delivered, that a record cut short anywhere is reported as incomplete and never
    as a record or an error, and that a record is returned only if magic, version,
    kind and both checksums agree with the bytes. *)

From S2P Require Import Prelude.
From Stdlib Require Import Strings.Byte.

Open Scope N_scope.

(** ** Data *)

Record Lsn := mkLsn { segment_id : N; offset : N }.

(** A record kind is a non-zero [u16]. *)
Abbreviation RecordKind := N.

Record Record_ := mkRecord { kind : RecordKind; payload : bytes }.

Record StoredRecord := mkStoredRecord { lsn : Lsn; record : Record_ }.

Inductive Corruption :=
| BadMagic (found : N)
| UnsupportedVersion (found : N)
| CorruptReservedKind
| HeaderChecksum
| PayloadChecksum
| CorruptRecordTooLarge (len segment_size : N)
| SegmentTooLarge (len segment_size : N)
| IncompleteRecord.

Inductive WalError :=
| Io
| ReservedRecordKind
| SegmentTooSmall (segment_size header_len : N)
| RecordTooLarge (len segment_size : N)
| WalFull (len max_size : N)
| PayloadTooLarge (len : N)
| SegmentIdExhausted
| CorruptRecord (at_lsn : Lsn) (reason : Corruption)
| BadSegmentName (name : bytes)
| MissingSegment (expected found : N)
| Locked
| Poisoned.

Definition record_kind_new (value : N) : WalError + RecordKind :=
  if value =? 0 then inl ReservedRecordKind else inr value.

Definition MAGIC : N := 1127831372. (* 0x4339_574c *)
Definition VERSION : N := 1.
Definition HEADER_LEN : nat := 32.
Definition HEADER_LEN_U64 : N := 32.
Definition HEADER_CRC_END : nat := 28.
Definition u32_modulus : N := 4294967296.

(** ** Little-endian integers *)

Fixpoint to_le_bytes (k : nat) (v : N) : bytes :=
  match k with O => [] | S k => byte_of (v mod 256) :: to_le_bytes k (v / 256) end.

Fixpoint from_le_bytes (bs : bytes) : N :=
  match bs with [] => 0 | b :: bs => Byte.to_N b + 256 * from_le_bytes bs end.

Definition read_u16 (bs : bytes) (start : nat) : N := from_le_bytes (take 2 (drop start bs)).
Definition read_u32 (bs : bytes) (start : nat) : N := from_le_bytes (take 4 (drop start bs)).

(** [buf[start..start + src.len()].copy_from_slice(src)]. *)
Definition copy_at (buf : bytes) (start : nat) (src : bytes) : bytes :=
  take start buf ++ src ++ drop (start + length src) buf.

(** ** Readers *)

Inductive ReadOutcome := Chunk (bs : bytes) | Interrupted | Failed.

Abbreviation Reader := (list ReadOutcome).

Inductive ReadExact := Complete (buf : bytes) | ExactEof | ExactIncomplete.

(** The loop of [read_exact_or_tail], with the [filled] bytes read so far and the
    [want] bytes still missing. *)
Fixpoint read_loop (filled : bytes) (want : nat) (rd : Reader) : WalError + (ReadExact * Reader) :=
  match want with
  | O => inr (Complete filled, rd)
  | S _ =>
      let tail := match filled with [] => ExactEof | _ => ExactIncomplete end in
      match rd with
      | [] => inr (tail, [])
      | Chunk [] :: rd => inr (tail, rd)
      | Chunk bs :: rd =>
          if (length bs <=? want)%nat then read_loop (filled ++ bs) (want - length bs) rd
          else inr (Complete (filled ++ take want bs), Chunk (drop want bs) :: rd)
      | Interrupted :: rd => read_loop filled want rd
      | Failed :: _ => inl Io
      end
  end.

Definition read_exact_or_tail (rd : Reader) (want : nat) : WalError + (ReadExact * Reader) :=
  read_loop [] want rd.

Inductive ReadOne :=
| ReadRecord (r : Record_) (next_offset : N)
| ReadEof
| ReadIncomplete.

(** ** Encoding and decoding *)

Definition encoded_len (payload_len : N) : WalError + N :=
  if u32_modulus <=? payload_len then inl (PayloadTooLarge payload_len)
  else match u64_checked_add HEADER_LEN_U64 payload_len with
       | None => inl (PayloadTooLarge payload_len)
       | Some n => inr n
       end.

Section Format.

Context (crc32 : bytes → N).

Definition encode_record (k : RecordKind) (p : bytes) : WalError + bytes :=
  let? _ := encoded_len (vlen p) in
  let? payload_len := if u32_modulus <=? vlen p then inl (PayloadTooLarge (vlen p)) else inr (vlen p) in
  let header := replicate HEADER_LEN x00 in
  let header := copy_at header 0 (to_le_bytes 4 MAGIC) in
  let header := copy_at header 4 (to_le_bytes 2 VERSION) in
  let header := copy_at header 6 (to_le_bytes 2 k) in
  let header := copy_at header 8 (to_le_bytes 4 payload_len) in
  let header := copy_at header 12 (to_le_bytes 4 (crc32 p)) in
  let header_crc := crc32 (take HEADER_CRC_END header) in
  let header := copy_at header 28 (to_le_bytes 4 header_crc) in
  inr (header ++ p).

Definition decode_header (header : bytes) (l : Lsn) : WalError + RecordKind :=
  let magic := read_u32 header 0 in
  if negb (magic =? MAGIC) then inl (CorruptRecord l (BadMagic magic)) else
  let version := read_u16 header 4 in
  if negb (version =? VERSION) then inl (CorruptRecord l (UnsupportedVersion version)) else
  if negb (crc32 (take HEADER_CRC_END header) =? read_u32 header 28)
  then inl (CorruptRecord l HeaderChecksum)
  else match record_kind_new (read_u16 header 6) with
       | inl _ => inl (CorruptRecord l CorruptReservedKind)
       | inr k => inr k
       end.

(** The part of [read_one] after the header. *)
Definition read_payload (header : bytes) (k : RecordKind) (rd : Reader) (l : Lsn)
    (segment_size physical_len : N) : WalError + (ReadOne * Reader) :=
  let payload_len := read_u32 header 8 in
  match u64_checked_add HEADER_LEN_U64 payload_len with
  | None => inl (CorruptRecord l (CorruptRecordTooLarge u64_max segment_size))
  | Some record_len =>
      if segment_size <? record_len
      then inl (CorruptRecord l (CorruptRecordTooLarge record_len segment_size)) else
      match u64_checked_add (offset l) record_len with
      | None => inl (CorruptRecord l (SegmentTooLarge u64_max segment_size))
      | Some next_offset =>
          if segment_size <? next_offset
          then inl (CorruptRecord l (SegmentTooLarge next_offset segment_size)) else
          if physical_len <? next_offset then inr (ReadIncomplete, rd) else
          let? (r, rd) := read_exact_or_tail rd (N.to_nat payload_len) in
          match r with
          | ExactEof | ExactIncomplete => inr (ReadIncomplete, rd)
          | Complete p =>
              if negb (crc32 p =? read_u32 header 12)
              then inl (CorruptRecord l PayloadChecksum)
              else inr (ReadRecord (mkRecord k p) next_offset, rd)
          end
      end
  end.

Definition read_one (rd : Reader) (l : Lsn) (segment_size physical_len : N)
    : WalError + (ReadOne * Reader) :=
  let? (r, rd) := read_exact_or_tail rd HEADER_LEN in
  match r with
  | ExactEof => inr (ReadEof, rd)
  | ExactIncomplete => inr (ReadIncomplete, rd)
  | Complete header =>
      let? k := decode_header header l in
      read_payload header k rd l segment_size physical_len
  end.

End Format.

(** ** Integers and readers *)

Lemma to_le_bytes_length k v : length (to_le_bytes k v) = k.
Proof. revert v. induction k as [|k IH]; intros v; cbn; [done | by rewrite IH]. Qed.

Lemma from_to_le_bytes k v : v < 256 ^ N.of_nat k → from_le_bytes (to_le_bytes k v) = v.
Proof.
  revert v. induction k as [|k IH]; intros v Hv; cbn [to_le_bytes from_le_bytes]; [cbn in Hv; lia |].
  rewrite to_N_byte_of by (by apply N.mod_lt). rewrite IH.
  - rewrite N.add_comm. symmetry. apply N.div_mod'.
  - apply N.Div0.div_lt_upper_bound. by rewrite Nat2N.inj_succ, N.pow_succ_r' in Hv.
Qed.

Lemma from_le_bytes_bound bs : from_le_bytes bs < 256 ^ vlen bs.
Proof.
  induction bs as [|b bs IH]; [done |]. unfold vlen in *. cbn [from_le_bytes length].
  rewrite Nat2N.inj_succ, N.pow_succ_r'. pose proof (to_N_lt b). nia.
Qed.

(** The reader hands out the bytes [bs], in any chunks and with interruptions. *)
Inductive delivers : Reader → bytes → Prop :=
| delivers_nil : delivers [] []
| delivers_interrupted rd bs : delivers rd bs → delivers (Interrupted :: rd) bs
| delivers_chunk c rd bs : c ≠ [] → delivers rd bs → delivers (Chunk c :: rd) (c ++ bs).

(** The loop does not depend on how the bytes are delivered. *)
Lemma read_loop_delivers rd bs : delivers rd bs → ∀ filled want,
  ∃ rd', read_loop filled want rd =
    inr (if (want <=? length bs)%nat then Complete (filled ++ take want bs)
         else match filled ++ bs with [] => ExactEof | _ => ExactIncomplete end, rd') ∧
    ((want ≤ length bs)%nat → delivers rd' (drop want bs)).
Proof.
  induction 1 as [|rd bs H IH|c rd bs Hc H IH]; intros filled want.
  - exists []. destruct want as [|want]; cbn; rewrite app_nil_r; [by repeat constructor |].
    split; [by destruct filled | lia].
  - destruct want as [|want]; [|apply IH]. exists (Interrupted :: rd). cbn. rewrite app_nil_r.
    split; [done |]. intros _. rewrite drop_0. by constructor.
  - destruct want as [|want].
    { exists (Chunk c :: rd). cbn. rewrite app_nil_r. split; [done |]. intros _. rewrite drop_0. by constructor. }
    destruct c as [|b c]; [done |]. remember (b :: c) as bc eqn:Ebc.
    assert (read_loop filled (S want) (Chunk bc :: rd) =
      if (length bc <=? S want)%nat then read_loop (filled ++ bc) (S want - length bc) rd
      else inr (Complete (filled ++ take (S want) bc), Chunk (drop (S want) bc) :: rd)) as -> by (by subst bc).
    rewrite length_app. destruct (Nat.leb_spec (length bc) (S want)) as [Hle|Hgt].
    + destruct (IH (filled ++ bc) (S want - length bc)%nat) as (rd' & -> & Hd). exists rd'.
      rewrite <- !app_assoc. split.
      * destruct (Nat.leb_spec (S want - length bc) (length bs)), (Nat.leb_spec (S want) (length bc + length bs)); try lia; [|done].
        by rewrite take_app_ge by lia.
      * intros Hw. rewrite drop_app_ge by lia. apply Hd. lia.
    + exists (Chunk (drop (S want) bc) :: rd). split.
      * rewrite (proj2 (Nat.leb_le _ _)) by lia. by rewrite take_app_le by lia.
      * intros _. rewrite drop_app_le by lia. constructor; [|done].
        intros Hnil%(f_equal length). rewrite length_drop in Hnil. cbn in Hnil. lia.
Qed.

Lemma read_exact_complete rd bs n :
  delivers rd bs → (n ≤ length bs)%nat →
  ∃ rd', read_exact_or_tail rd n = inr (Complete (take n bs), rd') ∧ delivers rd' (drop n bs).
Proof.
  intros H Hn. destruct (read_loop_delivers rd bs H [] n) as (rd' & Heq & Hd). exists rd'.
  rewrite (proj2 (Nat.leb_le _ _) Hn) in Heq. split; [exact Heq | by apply Hd].
Qed.

Lemma read_exact_short rd bs n :
  delivers rd bs → (length bs < n)%nat →
  ∃ rd', read_exact_or_tail rd n = inr (match bs with [] => ExactEof | _ => ExactIncomplete end, rd').
Proof.
  intros H Hn. destruct (read_loop_delivers rd bs H [] n) as (rd' & Heq & _). exists rd'.
  rewrite (proj2 (Nat.leb_gt _ _) Hn) in Heq. exact Heq.
Qed.

(** ** The header *)

Definition record_size (p : bytes) : N := HEADER_LEN_U64 + vlen p.

Ltac size_lia := unfold record_size, HEADER_LEN, HEADER_LEN_U64, u32_modulus in *; ulia.

Section Facts.

Context (crc32 : bytes → N).

(** [crc32fast] returns a [u32]. *)
Definition crc_ok : Prop := ∀ bs, crc32 bs < u32_modulus.

Definition header_prefix (k : RecordKind) (p : bytes) : bytes :=
  to_le_bytes 4 MAGIC ++ to_le_bytes 2 VERSION ++ to_le_bytes 2 k ++ to_le_bytes 4 (vlen p) ++
  to_le_bytes 4 (crc32 p) ++ replicate 12 x00.

Definition record_header (k : RecordKind) (p : bytes) : bytes :=
  header_prefix k p ++ to_le_bytes 4 (crc32 (header_prefix k p)).

Lemma encode_record_eq k p :
  encode_record crc32 k p =
    if u32_modulus <=? vlen p then inl (PayloadTooLarge (vlen p)) else inr (record_header k p ++ p).
Proof.
  unfold encode_record, encoded_len, u64_checked_add. destruct (N.leb_spec u32_modulus (vlen p)); [done |].
  rewrite (proj2 (N.ltb_lt _ _)) by (unfold HEADER_LEN_U64, u32_modulus in *; ulia). reflexivity.
Qed.

Lemma record_header_length k p : length (record_header k p) = HEADER_LEN.
Proof. reflexivity. Qed.

Lemma record_header_magic k p : read_u32 (record_header k p) 0 = MAGIC.
Proof. reflexivity. Qed.

Lemma record_header_version k p : read_u16 (record_header k p) 4 = VERSION.
Proof. reflexivity. Qed.

Lemma record_header_kind k p : k < 65536 → read_u16 (record_header k p) 6 = k.
Proof. intros Hk. transitivity (from_le_bytes (to_le_bytes 2 k)); [reflexivity | by apply from_to_le_bytes]. Qed.

Lemma record_header_len k p : vlen p < u32_modulus → read_u32 (record_header k p) 8 = vlen p.
Proof. intros H. transitivity (from_le_bytes (to_le_bytes 4 (vlen p))); [reflexivity | by apply from_to_le_bytes]. Qed.

Lemma record_header_crc k p : crc_ok → read_u32 (record_header k p) 12 = crc32 p.
Proof. intros H. transitivity (from_le_bytes (to_le_bytes 4 (crc32 p))); [reflexivity | apply from_to_le_bytes, H]. Qed.

Lemma record_header_own_crc k p :
  crc_ok → read_u32 (record_header k p) 28 = crc32 (take HEADER_CRC_END (record_header k p)).
Proof.
  intros H. transitivity (from_le_bytes (to_le_bytes 4 (crc32 (header_prefix k p)))); [reflexivity |].
  rewrite from_to_le_bytes by apply H. reflexivity.
Qed.

Lemma decode_record_header k p l :
  crc_ok → 0 < k < 65536 → decode_header crc32 (record_header k p) l = inr k.
Proof.
  intros Hcrc Hk. unfold decode_header.
  rewrite record_header_magic, record_header_version, record_header_own_crc, record_header_kind by (done || lia).
  rewrite !N.eqb_refl. cbn [negb]. unfold record_kind_new.
  by rewrite (proj2 (N.eqb_neq k 0)) by lia.
Qed.

(** ** Reading *)

Lemma read_one_header rd l ss pl k p rest :
  crc_ok → 0 < k < 65536 → delivers rd (record_header k p ++ rest) →
  ∃ rd', read_one crc32 rd l ss pl = read_payload crc32 (record_header k p) k rd' l ss pl ∧ delivers rd' rest.
Proof.
  intros Hcrc Hk Hd. destruct (read_exact_complete rd _ HEADER_LEN Hd) as (rd' & Heq & Hd').
  { rewrite length_app, record_header_length. lia. }
  rewrite take_app_length' in Heq by apply (record_header_length k p).
  rewrite drop_app_length' in Hd' by apply (record_header_length k p).
  exists rd'. unfold read_one. rewrite Heq. by rewrite decode_record_header.
Qed.

(** The checks of the lengths, for a record that fits its segment. *)
Lemma read_payload_fits rd l ss pl k p :
  vlen p < u32_modulus → offset l + record_size p ≤ ss → ss < u64_modulus →
  read_payload crc32 (record_header k p) k rd l ss pl =
    if pl <? offset l + record_size p then inr (ReadIncomplete, rd) else
    let? (r, rd) := read_exact_or_tail rd (length p) in
    match r with
    | ExactEof | ExactIncomplete => inr (ReadIncomplete, rd)
    | Complete q =>
        if negb (crc32 q =? read_u32 (record_header k p) 12) then inl (CorruptRecord l PayloadChecksum)
        else inr (ReadRecord (mkRecord k q) (offset l + record_size p), rd)
    end.
Proof.
  intros Hp Hfit Hss. unfold read_payload. rewrite record_header_len by done. unfold u64_checked_add.
  fold (record_size p). rewrite (proj2 (N.ltb_lt (record_size p) _)) by lia.
  rewrite (proj2 (N.ltb_ge ss (record_size p))) by lia.
  rewrite (proj2 (N.ltb_lt (offset l + record_size p) _)) by lia.
  rewrite (proj2 (N.ltb_ge ss (offset l + record_size p))) by lia.
  unfold vlen. by rewrite Nat2N.id.
Qed.

Lemma read_one_record rd l ss pl k p rest :
  crc_ok → 0 < k < 65536 → vlen p < u32_modulus → offset l + record_size p ≤ ss → ss < u64_modulus →
  offset l + record_size p ≤ pl → delivers rd (record_header k p ++ p ++ rest) →
  ∃ rd', read_one crc32 rd l ss pl = inr (ReadRecord (mkRecord k p) (offset l + record_size p), rd') ∧
         delivers rd' rest.
Proof.
  intros Hcrc Hk Hp Hfit Hss Hpl Hd. destruct (read_one_header rd l ss pl k p (p ++ rest) Hcrc Hk Hd) as (rd1 & -> & Hd1).
  rewrite read_payload_fits by done. rewrite (proj2 (N.ltb_ge pl _)) by done.
  destruct (read_exact_complete rd1 (p ++ rest) (length p) Hd1) as (rd2 & -> & Hd2); [rewrite length_app; lia |].
  rewrite take_app_length. rewrite drop_app_length in Hd2. rewrite record_header_crc, N.eqb_refl by done.
  exists rd2. done.
Qed.

Lemma read_one_torn rd l ss k p j :
  crc_ok → 0 < k < 65536 → vlen p < u32_modulus → offset l + record_size p ≤ ss → ss < u64_modulus →
  (j < length (record_header k p ++ p))%nat → delivers rd (take j (record_header k p ++ p)) →
  ∃ rd', read_one crc32 rd l ss (offset l + N.of_nat j) =
         inr (if (j =? 0)%nat then ReadEof else ReadIncomplete, rd').
Proof.
  intros Hcrc Hk Hp Hfit Hss Hj Hd. rewrite length_app, record_header_length in Hj.
  destruct (decide (j < HEADER_LEN)%nat) as [Hshort|Hlong].
  - destruct (read_exact_short rd _ HEADER_LEN Hd) as (rd' & Heq).
    { rewrite length_take, length_app, record_header_length. lia. }
    exists rd'. unfold read_one. rewrite Heq. by destruct j as [|j].
  - rewrite take_app_ge in Hd by (rewrite record_header_length; lia).
    destruct (read_one_header rd l ss (offset l + N.of_nat j) k p _ Hcrc Hk Hd) as (rd1 & -> & _).
    rewrite read_payload_fits by done. exists rd1.
    rewrite (proj2 (N.ltb_lt _ _)) by size_lia.
    by destruct j as [|j]; [unfold HEADER_LEN in Hlong; lia |].
Qed.

Lemma read_exact_inv rd bs n q rd' :
  delivers rd bs → read_exact_or_tail rd n = inr (Complete q, rd') →
  (n ≤ length bs)%nat ∧ q = take n bs ∧ delivers rd' (drop n bs).
Proof.
  intros Hd Heq. destruct (decide (n ≤ length bs)%nat) as [Hn|Hn].
  - destruct (read_exact_complete rd bs n Hd Hn) as (rd1 & Heq1 & Hd1).
    rewrite Heq1 in Heq. by injection Heq as <- <-.
  - destruct (read_exact_short rd bs n Hd) as (rd1 & Heq1); [lia |].
    rewrite Heq1 in Heq. by destruct bs.
Qed.

(** ** Theorems *)

(** C34: what [encode_record] writes, [read_one] reads back. If a record is encoded
    and the record fits the segment and the file, reading at its position returns
    the kind, the payload and the position after it, however the bytes arrive, and
    leaves the reader at the following byte. *)
Theorem record_roundtrip rd l ss pl k p enc rest :
  crc_ok → 0 < k < 65536 → encode_record crc32 k p = inr enc →
  offset l + vlen enc ≤ ss → ss < u64_modulus → offset l + vlen enc ≤ pl → delivers rd (enc ++ rest) →
  ∃ rd', read_one crc32 rd l ss pl = inr (ReadRecord (mkRecord k p) (offset l + vlen enc), rd') ∧
         delivers rd' rest.
Proof.
  intros Hcrc Hk Henc Hfit Hss Hpl Hd. rewrite encode_record_eq in Henc.
  destruct (N.leb_spec u32_modulus (vlen p)) as [|Hp]; [done |]. apply (inj inr) in Henc as <-.
  assert (vlen (record_header k p ++ p) = record_size p) as Hlen
    by (unfold vlen; rewrite length_app, record_header_length; size_lia).
  rewrite Hlen in Hfit, Hpl |- *. rewrite <- app_assoc in Hd. by apply read_one_record.
Qed.

(** A torn record. If the file ends anywhere inside an encoded record, reading
    at its position reports the end of the file (nothing of it was written) or an
    incomplete record, and never an error or a record. *)
Theorem torn_record_incomplete rd l ss k p enc j :
  crc_ok → 0 < k < 65536 → encode_record crc32 k p = inr enc →
  offset l + vlen enc ≤ ss → ss < u64_modulus → (j < length enc)%nat → delivers rd (take j enc) →
  ∃ rd', read_one crc32 rd l ss (offset l + N.of_nat j) =
         inr (if (j =? 0)%nat then ReadEof else ReadIncomplete, rd').
Proof.
  intros Hcrc Hk Henc Hfit Hss Hj Hd. rewrite encode_record_eq in Henc.
  destruct (N.leb_spec u32_modulus (vlen p)) as [|Hp]; [done |]. apply (inj inr) in Henc as <-.
  apply (read_one_torn rd l ss k p j); try done.
  unfold vlen in Hfit. rewrite length_app, record_header_length in Hfit. size_lia.
Qed.

(** No record without its checksums. Whatever [read_one] returns as a record is
    in the bytes that were read: a header with the magic number, the version, a
    non-zero kind, the length of the payload and the checksums of header and
    payload, followed by the payload; the record ends inside the segment and the
    file, and the reader continues after it. *)
Theorem read_one_sound rd bs l ss pl r next rd' :
  delivers rd bs → read_one crc32 rd l ss pl = inr (ReadRecord r next, rd') →
  ∃ header rest, bs = header ++ payload r ++ rest ∧ delivers rd' rest ∧ length header = HEADER_LEN ∧
    read_u32 header 0 = MAGIC ∧ read_u16 header 4 = VERSION ∧
    kind r = read_u16 header 6 ∧ kind r ≠ 0 ∧ vlen (payload r) = read_u32 header 8 ∧
    crc32 (payload r) = read_u32 header 12 ∧ crc32 (take HEADER_CRC_END header) = read_u32 header 28 ∧
    next = offset l + HEADER_LEN_U64 + vlen (payload r) ∧ next ≤ ss ∧ next ≤ pl.
Proof.
  intros Hd H. unfold read_one in H. destruct (read_exact_or_tail rd HEADER_LEN) as [|[[header| |] rd1]] eqn:Eh; try done.
  destruct (read_exact_inv _ _ _ _ _ Hd Eh) as (Hlen & -> & Hd1). set (header := take HEADER_LEN bs) in *.
  destruct (decode_header crc32 header l) as [|k] eqn:Ek; [done |].
  unfold decode_header, record_kind_new in Ek.
  destruct (N.eqb_spec (read_u32 header 0) MAGIC); [|done]. destruct (N.eqb_spec (read_u16 header 4) VERSION); [|done].
  destruct (N.eqb_spec (crc32 (take HEADER_CRC_END header)) (read_u32 header 28)); [|done].
  cbn [negb] in Ek. destruct (N.eqb_spec (read_u16 header 6) 0); [done |]. injection Ek as <-.
  unfold read_payload, u64_checked_add in H.
  destruct (N.ltb_spec (HEADER_LEN_U64 + read_u32 header 8) u64_modulus); [|done].
  destruct (N.ltb_spec ss (HEADER_LEN_U64 + read_u32 header 8)); [done |].
  destruct (N.ltb_spec (offset l + (HEADER_LEN_U64 + read_u32 header 8)) u64_modulus); [|done].
  destruct (N.ltb_spec ss (offset l + (HEADER_LEN_U64 + read_u32 header 8))); [done |].
  destruct (N.ltb_spec pl (offset l + (HEADER_LEN_U64 + read_u32 header 8))); [done |].
  destruct (read_exact_or_tail rd1 _) as [|[[q| |] rd2]] eqn:Ep; try done.
  destruct (N.eqb_spec (crc32 q) (read_u32 header 12)); [|done]. cbn [negb] in H. injection H as <- <- <-.
  destruct (read_exact_inv _ _ _ _ _ Hd1 Ep) as (Hlen2 & -> & Hd2).
  exists header, (drop (N.to_nat (read_u32 header 8)) (drop HEADER_LEN bs)). cbn [payload kind].
  assert (vlen (take (N.to_nat (read_u32 header 8)) (drop HEADER_LEN bs)) = read_u32 header 8) as Hv
    by (unfold vlen; rewrite length_take; lia).
  split_and!; try done.
  - rewrite (take_drop (N.to_nat (read_u32 header 8)) (drop HEADER_LEN bs)). symmetry. apply (take_drop HEADER_LEN bs).
  - unfold header. rewrite length_take. lia.
  - rewrite Hv. lia.
Qed.

End Facts.

(** A checksum with 32-bit values, and a reader that delivers in two pieces. *)
Definition demo_crc (bs : bytes) : N := fold_right (fun b acc => (acc * 31 + Byte.to_N b) mod u32_modulus) 7 bs.

Lemma demo_crc_ok : crc_ok demo_crc.
Proof. intros [|b bs]; [done |]. apply N.mod_lt. done. Qed.

Definition demo_record : bytes := record_header demo_crc 1 [x61; x62] ++ [x61; x62].

Lemma record_roundtrip_witness :
  ∃ rd', read_one demo_crc [Chunk (take 5 demo_record); Interrupted; Chunk (drop 5 demo_record)]
           (mkLsn 0 0) 64 34 = inr (ReadRecord (mkRecord 1 [x61; x62]) (0 + vlen demo_record), rd') ∧
         delivers rd' [].
Proof.
  apply (record_roundtrip demo_crc _ (mkLsn 0 0) 64 34 1 [x61; x62] demo_record []).
  - exact demo_crc_ok.
  - done.
  - vm_compute. reflexivity.
  - vm_compute. discriminate.
  - reflexivity.
  - vm_compute. discriminate.
  - rewrite app_nil_r. rewrite <- (take_drop 5 demo_record) at 3. apply (delivers_chunk (take 5 demo_record)); [done |].
    apply delivers_interrupted. rewrite <- (app_nil_r (drop 5 demo_record)) at 2. apply delivers_chunk; [done | constructor].
Defined.

Lemma torn_record_incomplete_witness :
  ∃ rd', read_one demo_crc [Chunk (take 33 demo_record)] (mkLsn 0 0) 64 (0 + N.of_nat 33) = inr (ReadIncomplete, rd').
Proof.
  apply (torn_record_incomplete demo_crc _ (mkLsn 0 0) 64 1 [x61; x62] demo_record 33).
  - exact demo_crc_ok.
  - done.
  - vm_compute. reflexivity.
  - vm_compute. discriminate.
  - reflexivity.
  - vm_compute. lia.
  - rewrite <- (app_nil_r (take 33 demo_record)) at 2. apply delivers_chunk; [done | constructor].
Defined.

Lemma read_one_sound_witness :
  ∃ header rest, demo_record = header ++ [x61; x62] ++ rest ∧ delivers [] rest ∧ length header = HEADER_LEN ∧
    read_u32 header 0 = MAGIC ∧ read_u16 header 4 = VERSION ∧
    1 = read_u16 header 6 ∧ 1 ≠ 0 ∧ vlen [x61; x62] = read_u32 header 8 ∧
    demo_crc [x61; x62] = read_u32 header 12 ∧ demo_crc (take HEADER_CRC_END header) = read_u32 header 28 ∧
    34 = 0 + HEADER_LEN_U64 + vlen [x61; x62] ∧ 34 ≤ 64 ∧ 34 ≤ 34.
Proof.
  apply (read_one_sound demo_crc [Chunk demo_record] demo_record (mkLsn 0 0) 64 34 (mkRecord 1 [x61; x62]) 34 []).
  - rewrite <- (app_nil_r demo_record) at 2. apply delivers_chunk; [done | constructor].
  - vm_compute. reflexivity.
Defined.
