(* ===== verification/Wal.v ===== *)
(** * The segmented write-ahead log

    cloud9-wal/src/segment.rs and wal.rs. The log is a directory of segment files
    named by their number; records are appended to the last one, which is replaced
    by a new segment when it is full. A [World] is the content of the files as the
    process sees it, the content that is known to have reached stable storage, and
    the outcomes of the system calls to come; code that performs system calls is a
    function on worlds with a [Result]. How the operating system cuts a file into
    reads is the parameter [file_reader], the checksum is [crc32].

    A crash keeps of every file some prefix of what was written that contains what
    was synced. The theorems show that opening the log recovers from every crash,
    keeps every synced record and invents none, and that the operations implement
    an append-only list of records. *)

From S2P Require Import Prelude WalFormat.
From Stdlib Require Import Strings.Byte.
From stdpp Require Import sorting.

Open Scope N_scope.

(** ** File names *)

(** [k] decimal digits of [v], with leading zeros. *)
Fixpoint decimal (k : nat) (v : N) : bytes :=
  match k with O => [] | S k => byte_of (48 + (v / 10 ^ N.of_nat k) mod 10) :: decimal k v end.

Definition SEGMENT_SUFFIX : bytes := [x77; x61; x6c]. (* wal *)

(** The name [format!("{segment_id:020}.wal")]: every [u64] has at most 20 digits. *)
Definition segment_path (id : N) : bytes := decimal 20 id ++ [x2e] ++ SEGMENT_SUFFIX.

(** The text around the last dot. *)
Fixpoint rsplit_dot (name : bytes) : option (bytes * bytes) :=
  match name with
  | [] => None
  | b :: rest =>
      match rsplit_dot rest with
      | Some (before, after) => Some (b :: before, after)
      | None => if bool_decide (b = x2e) then Some ([], rest) else None
      end
  end.

(** [Path::extension] and [Path::file_stem] of a file name. *)
Definition extension (name : bytes) : option bytes :=
  if bool_decide (name = [x2e; x2e]) then None
  else match rsplit_dot name with
       | Some (before, after) => if bool_decide (before = []) then None else Some after
       | None => None
       end.

Definition file_stem (name : bytes) : bytes :=
  if bool_decide (name = [x2e; x2e]) then name
  else match rsplit_dot name with
       | Some (before, after) => if bool_decide (before = []) then name else before
       | None => name
       end.

Fixpoint parse_digits (acc : N) (bs : bytes) : option N :=
  match bs with
  | [] => Some acc
  | b :: bs =>
      let d := Byte.to_N b in
      if (48 <=? d) && (d <=? 57) && (acc * 10 + (d - 48) <? u64_modulus)
      then parse_digits (acc * 10 + (d - 48)) bs else None
  end.

(** [str::parse::<u64>]: an optional plus sign and at least one digit. *)
Definition parse_u64 (bs : bytes) : option N :=
  match bs with
  | [] => None
  | b :: rest =>
      if bool_decide (b = x2b) then match rest with [] => None | _ => parse_digits 0 rest end
      else parse_digits 0 bs
  end.

Definition segment_id_of (name : bytes) : WalError + N :=
  match parse_u64 (file_stem name) with Some id => inr id | None => inl (BadSegmentName name) end.

(** ** Worlds *)

(** A system call succeeds, or fails; a failing write has written some bytes. *)
Inductive Outcome := Fine | Fault (written : nat).

Record World := mkWorld {
  files : gmap bytes bytes;
  stable : gmap bytes bytes;
  outcomes : list Outcome
}.

Definition M (S A : Type) : Type := S → S * (WalError + A).

#[export] Instance m_ret {S} : MRet (M S) := fun A x s => (s, inr x).
#[export] Instance m_bind {S} : MBind (M S) := fun A B k m s =>
  match m s with (s, inl e) => (s, inl e) | (s, inr x) => k x s end.

(** A primitive step on the state. *)
Definition prim {S A} (f : S → S * (WalError + A)) : M S A := f.

Definition throw {S A} (e : WalError) : M S A := fun s => (s, inl e).
Definition lift_result {S A} (r : WalError + A) : M S A := fun s => (s, r).

Definition next_outcome (w : World) : World * Outcome :=
  match outcomes w with
  | [] => (w, Fine)
  | o :: rest => (mkWorld (files w) (stable w) rest, o)
  end.

(** A system call whose only effect on success is [f]. *)
Definition syscall (f : World → World) : M World unit := fun w =>
  match next_outcome w with
  | (w, Fine) => (f w, inr tt)
  | (w, Fault _) => (w, inl Io)
  end.

Definition set_file (name content : bytes) (w : World) : World :=
  mkWorld (<[name := content]> (files w)) (stable w) (outcomes w).

(** [File::sync_all]: the content of the file reaches stable storage; the file
    itself is there once its directory has been synced. *)
Definition sync_file (name : bytes) (w : World) : World :=
  match files w !! name with
  | Some c => mkWorld (files w) (alter (fun _ => c) name (stable w)) (outcomes w)
  | None => w
  end.

Definition sync_dir : M World unit :=
  syscall (fun w => mkWorld (files w) (stable w ∪ ((fun _ => []) <$> files w)) (outcomes w)).

(** Reading a file: [File::open] and its metadata. *)
Definition open_file (name : bytes) : M World bytes :=
  _ ← syscall id;
  prim (fun w => match files w !! name with Some c => (w, inr c) | None => (w, inl Io) end).

(** ** Segments *)

Definition is_segment (name : bytes) : bool := bool_decide (extension name = Some SEGMENT_SUFFIX).

Fixpoint parse_names (names : list bytes) : WalError + list N :=
  match names with
  | [] => inr []
  | n :: names =>
      if is_segment n then let? id := segment_id_of n in let? ids := parse_names names in inr (id :: ids)
      else parse_names names
  end.

Fixpoint check_contiguous (expected : N) (ids : list N) : WalError + unit :=
  match ids with
  | [] => inr tt
  | found :: ids =>
      if found =? expected then check_contiguous (expected + 1) ids else inl (MissingSegment expected found)
  end.

Definition segment_ids : M World (list N) :=
  _ ← syscall id;
  prim (fun w =>
    (w, let? ids := parse_names (map fst (map_to_list (files w))) in
        let ids := merge_sort N.le ids in
        let? _ := check_contiguous 0 ids in inr ids)).

Definition segment_len (id : N) : M World N :=
  c ← open_file (segment_path id); mret (vlen c).

(** The sum of [total_len], over the segments found. *)
Fixpoint sum_lens (total : N) (ids : list N) : M World N :=
  match ids with
  | [] => mret total
  | id :: ids =>
      len ← segment_len id;
      match u64_checked_add total len with
      | None => throw (WalFull u64_max u64_max)
      | Some total => sum_lens total ids
      end
  end.

Definition total_len_of : M World N := ids ← segment_ids; sum_lens 0 ids.

Inductive SegmentScan := Clean (len : N) | IncompleteTail (len : N).

Section Wal.

Context (crc32 : bytes → N) (file_reader : bytes → Reader).

(** The loop of [valid_len]; every record takes bytes from the reader, so the
    number of bytes the reader can give bounds the iterations ([scan_total]). *)
Fixpoint scan_loop (fuel : nat) (rd : Reader) (id off ss pl : N) : option (WalError + SegmentScan) :=
  match fuel with
  | O => None
  | S fuel =>
      match read_one crc32 rd (mkLsn id off) ss pl with
      | inl e => Some (inl e)
      | inr (ReadRecord _ next, rd) => scan_loop fuel rd id next ss pl
      | inr (ReadEof, _) => Some (inr (Clean off))
      | inr (ReadIncomplete, _) => Some (inr (IncompleteTail off))
      end
  end.

Fixpoint reader_len (rd : Reader) : nat :=
  match rd with
  | [] => 0
  | Chunk bs :: rd => length bs + reader_len rd
  | _ :: rd => reader_len rd
  end.

Definition valid_len (id ss : N) : M World SegmentScan :=
  c ← open_file (segment_path id);
  match scan_loop (S (reader_len (file_reader c))) (file_reader c) id 0 ss (vlen c) with
  | Some r => lift_result r
  | None => throw Io
  end.

Definition truncate_segment (id len : N) : M World unit :=
  c ← open_file (segment_path id);
  _ ← syscall (set_file (segment_path id) (take (N.to_nat len) c));
  syscall (sync_file (segment_path id)).

Fixpoint recover_loop (all ids : list N) (ss : N) : M World (N * N) :=
  match ids with
  | [] =>
      match last all with
      | None => throw SegmentIdExhausted
      | Some id => len ← segment_len id; mret (id, len)
      end
  | id :: rest =>
      scan ← valid_len id ss;
      match scan, rest with
      | Clean len, [] => mret (id, len)
      | Clean _, _ => recover_loop all rest ss
      | IncompleteTail len, [] => _ ← truncate_segment id len; mret (id, len)
      | IncompleteTail len, _ => throw (CorruptRecord (mkLsn id len) IncompleteRecord)
      end
  end.

Definition recover (ss : N) : M World (N * N) :=
  ids ← segment_ids;
  ids ← match ids with
        | [] => _ ← syscall (set_file (segment_path 0) []); _ ← sync_dir; mret [0]
        | _ => mret ids
        end;
  recover_loop ids ids ss.

Record SegmentReader := mkSegmentReader {
  sr_id : N; sr_size : N; sr_physical_len : N; sr_offset : N; sr_file : Reader }.

Definition segment_reader_open (id ss : N) : M World SegmentReader :=
  c ← open_file (segment_path id); mret (mkSegmentReader id ss (vlen c) 0 (file_reader c)).

Definition next_record (s : SegmentReader) : WalError + (option StoredRecord * SegmentReader) :=
  let l := mkLsn (sr_id s) (sr_offset s) in
  let? (r, rd) := read_one crc32 (sr_file s) l (sr_size s) (sr_physical_len s) in
  match r with
  | ReadRecord r next =>
      inr (Some (mkStoredRecord l r), mkSegmentReader (sr_id s) (sr_size s) (sr_physical_len s) next rd)
  | ReadEof => inr (None, mkSegmentReader (sr_id s) (sr_size s) (sr_physical_len s) (sr_offset s) rd)
  | ReadIncomplete => inl (CorruptRecord l IncompleteRecord)
  end.

(** Opening for append creates a missing file. *)
Definition open_segment (id : N) : M World unit :=
  syscall (fun w => match files w !! segment_path id with
                    | Some _ => w
                    | None => set_file (segment_path id) [] w
                    end).

(** ** The log *)

Record WalOptions := mkWalOptions { segment_size : N; max_size : N; sync_on_append : bool }.

Definition default_options : WalOptions := mkWalOptions (64 * 1024 * 1024) (4 * 1024 * 1024 * 1024) false.

Record Wal := mkWal {
  options : WalOptions; active_id : N; active_len : N; total_len : N; poisoned : bool }.

Definition validate_options (o : WalOptions) : WalError + unit :=
  if (segment_size o <? HEADER_LEN_U64) || (max_size o <? HEADER_LEN_U64)
  then inl (SegmentTooSmall (N.min (segment_size o) (max_size o)) HEADER_LEN_U64) else inr tt.

Definition checked_add_len (off len : N) : WalError + N :=
  match u64_checked_add off len with Some n => inr n | None => inl (RecordTooLarge u64_max u64_max) end.

(** [locked]: another process holds the directory lock. *)
Definition wal_open (locked : bool) (o : WalOptions) : M World Wal :=
  _ ← lift_result (validate_options o);
  _ ← syscall id;
  _ ← (if locked then throw Locked else syscall id);
  active ← recover (segment_size o);
  total ← total_len_of;
  if max_size o <? total then throw (WalFull total (max_size o)) else
  _ ← open_segment active.1;
  _ ← syscall id;
  mret (mkWal o active.1 active.2 total false).

Abbreviation WM := (M (World * Wal)).

Definition in_world {A} (m : M World A) : WM A := fun x =>
  let '(w, r) := m x.1 in ((w, x.2), r).

Definition the_wal : WM Wal := fun x => (x, inr x.2).

Definition ensure_healthy : WM unit := fun x => (x, if poisoned x.2 then inl Poisoned else inr tt).

Definition set_poisoned (x : Wal) : Wal := mkWal (options x) (active_id x) (active_len x) (total_len x) true.

Definition sync : WM unit :=
  _ ← ensure_healthy;
  prim (fun x =>
    match syscall (sync_file (segment_path (active_id x.2))) x.1 with
    | (w, inr _) => ((w, x.2), inr tt)
    | (w, inl e) => ((w, set_poisoned x.2), inl e)
    end).

(** The new segment, once the full one has been synced. *)
Definition rotate_segment : WM unit :=
  _ ← sync;
  wal ← the_wal;
  match u64_checked_add (active_id wal) 1 with
  | None => throw SegmentIdExhausted
  | Some id =>
      _ ← in_world (open_segment id);
      _ ← in_world sync_dir;
      prim (fun x => ((x.1, mkWal (options x.2) id 0 (total_len x.2) (poisoned x.2)), inr tt))
  end.

Definition rotate_if_needed (record_len : N) : WM unit :=
  wal ← the_wal;
  let o := options wal in
  if segment_size o <? record_len then throw (RecordTooLarge record_len (segment_size o)) else
  match u64_checked_add (active_len wal) record_len with
  | None => throw (RecordTooLarge u64_max (segment_size o))
  | Some next_len =>
      if negb (active_len wal =? 0) && (segment_size o <? next_len) then rotate_segment else mret tt
  end.

(** [write_all] on the file opened for append. *)
Definition write_or_poison (bs : bytes) : WM unit := fun x =>
  let name := segment_path (active_id x.2) in
  let old := default [] (files x.1 !! name) in
  match next_outcome x.1 with
  | (w, Fine) => ((set_file name (old ++ bs) w, x.2), inr tt)
  | (w, Fault n) => ((set_file name (old ++ take n bs) w, set_poisoned x.2), inl Io)
  end.

Definition append (k : RecordKind) (p : bytes) : WM Lsn :=
  _ ← ensure_healthy;
  record_len ← lift_result (encoded_len (vlen p));
  wal ← the_wal;
  next_total ← lift_result (checked_add_len (total_len wal) record_len);
  if max_size (options wal) <? next_total then throw (WalFull next_total (max_size (options wal))) else
  _ ← rotate_if_needed record_len;
  encoded ← lift_result (encode_record crc32 k p);
  wal ← the_wal;
  let l := mkLsn (active_id wal) (active_len wal) in
  next_len ← lift_result (checked_add_len (active_len wal) (vlen encoded));
  _ ← write_or_poison encoded;
  _ ← prim (fun x => ((x.1, mkWal (options x.2) (active_id x.2) next_len next_total (poisoned x.2)), inr tt));
  _ ← (if sync_on_append (options wal) then sync else mret tt);
  mret l.

(** ** Reading the records *)

Record Records := mkRecords {
  rc_size : N; rc_ids : list N; rc_segment : option SegmentReader; rc_done : bool }.

Definition records : WM Records :=
  _ ← ensure_healthy;
  wal ← the_wal;
  ids ← in_world segment_ids;
  mret (mkRecords (segment_size (options wal)) ids None false).

(** The loop of [Records::next] once no segment is open: skip the segments that
    have no record. *)
Fixpoint next_segment (ss : N) (ids : list N) (w : World)
    : World * (option (WalError + StoredRecord) * Records) :=
  match ids with
  | [] => (w, (None, mkRecords ss [] None true))
  | id :: rest =>
      match segment_reader_open id ss w with
      | (w, inl e) => (w, (Some (inl e), mkRecords ss rest None true))
      | (w, inr s) =>
          match next_record s with
          | inl e => (w, (Some (inl e), mkRecords ss rest (Some s) true))
          | inr (Some r, s) => (w, (Some (inr r), mkRecords ss rest (Some s) false))
          | inr (None, _) => next_segment ss rest w
          end
      end
  end.

Definition records_next (rs : Records) (w : World) : World * (option (WalError + StoredRecord) * Records) :=
  if rc_done rs then (w, (None, rs)) else
  match rc_segment rs with
  | None => next_segment (rc_size rs) (rc_ids rs) w
  | Some s =>
      match next_record s with
      | inl e => (w, (Some (inl e), mkRecords (rc_size rs) (rc_ids rs) (Some s) true))
      | inr (Some r, s) => (w, (Some (inr r), mkRecords (rc_size rs) (rc_ids rs) (Some s) false))
      | inr (None, _) => next_segment (rc_size rs) (rc_ids rs) w
      end
  end.

(** A client that takes [n] items, or stops at the end or at an error. *)
Fixpoint read_records (n : nat) (rs : Records) (w : World) : World * list (WalError + StoredRecord) :=
  match n with
  | O => (w, [])
  | S n =>
      match records_next rs w with
      | (w, (None, _)) => (w, [])
      | (w, (Some (inl e), _)) => (w, [inl e])
      | (w, (Some (inr r), rs)) => let '(w, l) := read_records n rs w in (w, inr r :: l)
      end
  end.

End Wal.
