(* ===== verification/WalRecovery.v ===== *)
(** * Crash recovery of the write-ahead log

    Proofs about Wal.v. [disk_inv] describes the segment files of a log between
    operations: every segment holds whole records, only the last may end in a torn
    one, and every segment but the last has reached stable storage. The lemmas follow
    the code: names, directory listing, scan of a segment, recovery, opening,
    appending and reading. [wal_run] is a client that goes on after every failure. *)

From S2P Require Import Prelude WalFormat Wal.
From Stdlib Require Import Strings.Byte.
From stdpp Require Import sorting.

Open Scope N_scope.

(** ** File names *)

Lemma decimal_digit d : d < 10 → Byte.to_N (byte_of (48 + d)) = 48 + d.
Proof. intros H. apply to_N_byte_of. lia. Qed.

Lemma digit_step acc d P m :
  0 < P → acc * (10 * P) + (m + P * d) = (acc * 10 + d) * P + m ∧
  ∀ b, (acc * 10 + d) * P + m < b → acc * 10 + d < b.
Proof. intros HP. split; [ring |]. intros b H. assert (acc * 10 + d ≤ (acc * 10 + d) * P) by nia. lia. Qed.

Lemma parse_decimal k : ∀ acc v,
  acc * 10 ^ N.of_nat k + v mod 10 ^ N.of_nat k < u64_modulus →
  parse_digits acc (decimal k v) = Some (acc * 10 ^ N.of_nat k + v mod 10 ^ N.of_nat k).
Proof.
  induction k as [|k IH]; intros acc v H; cbn [decimal parse_digits].
  { cbn. rewrite N.mod_1_r. f_equal. lia. }
  set (d := (v / 10 ^ N.of_nat k) mod 10). assert (d < 10) as Hd by (by apply N.mod_lt).
  rewrite decimal_digit by done. replace (48 + d - 48) with d by lia.
  assert (v mod 10 ^ N.of_nat (S k) = v mod 10 ^ N.of_nat k + 10 ^ N.of_nat k * d) as Hmod.
  { rewrite Nat2N.inj_succ, N.pow_succ_r', N.mul_comm. apply N.Div0.mod_mul_r. }
  rewrite Hmod in *. rewrite Nat2N.inj_succ, N.pow_succ_r' in *.
  assert (0 < 10 ^ N.of_nat k) by (apply N.neq_0_lt_0, N.pow_nonzero; done).
  destruct (digit_step acc d (10 ^ N.of_nat k) (v mod 10 ^ N.of_nat k)) as [E Hlt]; [done |]. rewrite E in *.
  specialize (Hlt _ H).
  rewrite (proj2 (N.leb_le 48 (48 + d))), (proj2 (N.leb_le (48 + d) 57)), (proj2 (N.ltb_lt _ _) Hlt) by lia.
  cbn [andb]. by rewrite IH.
Qed.

Lemma rsplit_dot_none bs : x2e ∉ bs → rsplit_dot bs = None.
Proof.
  induction bs as [|b bs IH]; [done |]. intros H. cbn. rewrite IH by set_solver.
  rewrite bool_decide_false; [done | set_solver].
Qed.

Lemma rsplit_dot_app a b : x2e ∉ b → rsplit_dot (a ++ x2e :: b) = Some (a, b).
Proof.
  intros H. induction a as [|x a IH]; cbn; [by rewrite rsplit_dot_none | by rewrite IH].
Qed.

Lemma decimal_length k v : length (decimal k v) = k.
Proof. induction k as [|k IH]; cbn; [done | by rewrite IH]. Qed.

Lemma suffix_no_dot : x2e ∉ SEGMENT_SUFFIX.
Proof. unfold SEGMENT_SUFFIX. set_solver. Qed.

Lemma segment_path_split id :
  rsplit_dot (segment_path id) = Some (decimal 20 id, SEGMENT_SUFFIX) ∧ segment_path id ≠ [x2e; x2e] ∧
  decimal 20 id ≠ [].
Proof.
  split_and!.
  - apply rsplit_dot_app, suffix_no_dot.
  - intros H%(f_equal length). unfold segment_path in H. rewrite length_app, decimal_length in H. cbn in H. lia.
  - intros H%(f_equal length). by rewrite decimal_length in H.
Qed.

Lemma is_segment_path id : is_segment (segment_path id) = true.
Proof.
  destruct (segment_path_split id) as (H1 & H2 & H3). unfold is_segment, extension.
  rewrite (bool_decide_false _ H2), H1, (bool_decide_false _ H3). by apply bool_decide_true.
Qed.

Lemma segment_id_of_path id : id < u64_modulus → segment_id_of (segment_path id) = inr id.
Proof.
  intros Hid. destruct (segment_path_split id) as (H1 & H2 & H3). unfold segment_id_of, file_stem.
  rewrite (bool_decide_false _ H2), H1, (bool_decide_false _ H3).
  assert (parse_u64 (decimal 20 id) = parse_digits 0 (decimal 20 id)) as ->.
  { cbn [decimal parse_u64]. rewrite bool_decide_false; [done |]. intros Heq%(f_equal Byte.to_N).
    rewrite decimal_digit in Heq by (by apply N.mod_lt). revert Heq. generalize ((id `div` 10 ^ N.of_nat 19) `mod` 10). intros d Hd. change (Byte.to_N x2b) with 43 in Hd. lia. }
  rewrite parse_decimal; cbn [N.mul]; rewrite N.add_0_l, N.mod_small; try done; unfold u64_modulus in Hid;
    (eapply N.lt_trans; [exact Hid | reflexivity]).
Qed.

Lemma segment_path_inj i j : i < u64_modulus → j < u64_modulus → segment_path i = segment_path j → i = j.
Proof.
  intros Hi Hj H. apply (f_equal segment_id_of) in H. rewrite !segment_id_of_path in H by done. by injection H.
Qed.

(** ** The directory *)

(** Exactly the segments [0 .. n-1] are in the directory. *)
Definition numbered (fs : gmap bytes bytes) (n : nat) : Prop :=
  (∀ i, (i < n)%nat → is_Some (fs !! segment_path (N.of_nat i))) ∧
  (∀ name, is_Some (fs !! name) → is_segment name = true → ∃ i, (i < n)%nat ∧ name = segment_path (N.of_nat i)) ∧
  N.of_nat n ≤ u64_modulus.

Definition ids_upto (n : nat) : list N := map N.of_nat (seq 0 n).

Lemma parse_names_spec names n :
  (∀ name, name ∈ names → is_segment name = true → ∃ i, (i < n)%nat ∧ name = segment_path (N.of_nat i)) →
  N.of_nat n ≤ u64_modulus →
  ∃ ids, parse_names names = inr ids ∧
    List.filter is_segment names = map segment_path ids ∧ ∀ i, i ∈ ids → i < N.of_nat n.
Proof.
  intros Hnames Hn. induction names as [|name names IH].
  { exists []. split_and!; [done..|]. by intros i ?%elem_of_nil. }
  destruct IH as (ids & Hids & Hf & Hlt); [intros m Hm; apply Hnames; by constructor |]. cbn [parse_names List.filter].
  destruct (is_segment name) eqn:Hs; [|by exists ids].
  destruct (Hnames name) as (i & Hi & ->); [by constructor | done |].
  rewrite segment_id_of_path by lia. rewrite Hids. exists (N.of_nat i :: ids).
  split_and!; [done | by cbn; rewrite Hf |]. intros j [->|Hj]%elem_of_cons; [lia | by apply Hlt].
Qed.

Lemma numbered_ids fs n :
  numbered fs n →
  ∃ ids, parse_names (map fst (map_to_list fs)) = inr ids ∧ ids ≡ₚ ids_upto n.
Proof.
  intros (Hall & Honly & Hn).
  assert (∀ name, name ∈ map fst (map_to_list fs) ↔ is_Some (fs !! name)) as Hdom.
  { intros name. rewrite list_elem_of_fmap. split.
    - intros ([k v] & -> & Hkv). apply elem_of_map_to_list in Hkv. by exists v.
    - intros [v Hv]. exists (name, v). by rewrite elem_of_map_to_list. }
  destruct (parse_names_spec (map fst (map_to_list fs)) n) as (ids & Hids & Hf & Hlt).
  { intros name Hin. apply Honly. by apply Hdom. }
  { done. }
  exists ids. split; [done |]. apply NoDup_Permutation.
  - apply (NoDup_fmap_1 segment_path). change (segment_path <$> ids) with (map segment_path ids). rewrite <- Hf.
    apply NoDup_ListNoDup, List.NoDup_filter, NoDup_ListNoDup, NoDup_fst_map_to_list.
  - apply (NoDup_fmap_2 N.of_nat), NoDup_seq.
  - intros i. unfold ids_upto. split.
    + intros Hi. apply Hlt in Hi. apply list_elem_of_In, in_map_iff. exists (N.to_nat i). rewrite in_seq. lia.
    + intros Hi%list_elem_of_In%in_map_iff. destruct Hi as (j & <- & Hj%in_seq).
      assert (In (segment_path (N.of_nat j)) (map segment_path ids)) as Hin.
      { rewrite <- Hf. apply filter_In. split; [|apply is_segment_path]. apply list_elem_of_In, Hdom, Hall. lia. }
      apply in_map_iff in Hin as (i & Heq & Hi). apply list_elem_of_In in Hi. pose proof (Hlt i Hi).
      apply segment_path_inj in Heq; [by subst | lia | lia].
Qed.

Lemma check_contiguous_seq n : ∀ start, check_contiguous (N.of_nat start) (map N.of_nat (seq start n)) = inr tt.
Proof.
  induction n as [|n IH]; intros start; [done |]. cbn [seq map check_contiguous]. rewrite N.eqb_refl.
  replace (N.of_nat start + 1) with (N.of_nat (S start)) by lia. apply IH.
Qed.

Lemma ids_upto_sorted n : StronglySorted N.le (ids_upto n).
Proof.
  unfold ids_upto. generalize 0%nat. induction n as [|n IH]; intros start; [constructor |].
  cbn. constructor; [apply IH |]. apply Forall_forall. intros i Hi.
  apply list_elem_of_In, in_map_iff in Hi as (j & <- & Hj%in_seq). lia.
Qed.

Lemma segment_ids_ok w n :
  numbered (files w) n → outcomes w = [] → segment_ids w = (w, inr (ids_upto n)).
Proof.
  intros Hnum Hout. destruct (numbered_ids _ _ Hnum) as (ids & Hids & Hperm).
  unfold segment_ids, syscall, next_outcome, mbind, m_bind, prim. rewrite Hout. cbn [id]. rewrite Hids.
  assert (merge_sort N.le ids = ids_upto n) as ->.
  { apply (StronglySorted_unique N.le); [apply StronglySorted_merge_sort; apply _ | apply ids_upto_sorted |].
    rewrite merge_sort_Permutation. done. }
  pose proof (check_contiguous_seq n 0) as Hc. change (N.of_nat 0) with 0 in Hc. unfold ids_upto at 1. by rewrite Hc.
Qed.

(** ** Termination of the scan *)

Lemma read_loop_consumes rd : ∀ filled want buf rd',
  read_loop filled want rd = inr (Complete buf, rd') → (reader_len rd' + want = reader_len rd)%nat.
Proof.
  induction rd as [|[bs| |] rd IH]; intros filled want buf rd' H; destruct want as [|want]; cbn [read_loop] in H;
    try (injection H as <- <-; lia); try (by destruct filled).
  - destruct bs as [|b bs]; [by destruct filled |]. remember (b :: bs) as c. cbn [reader_len].
    destruct (Nat.leb_spec (length c) (S want)).
    + apply IH in H. lia.
    + injection H as <- <-. cbn [reader_len]. rewrite length_drop. lia.
  - apply IH in H. done.
Qed.

Lemma read_one_consumes crc32 rd l ss pl r next rd' :
  read_one crc32 rd l ss pl = inr (ReadRecord r next, rd') → (reader_len rd' < reader_len rd)%nat.
Proof.
  unfold read_one, read_exact_or_tail. destruct (read_loop [] HEADER_LEN rd) as [|[[h| |] rd1]] eqn:Eh; try done.
  apply read_loop_consumes in Eh. destruct (decode_header _ _ _); [done |]. unfold read_payload, read_exact_or_tail.
  destruct (u64_checked_add _ _); [|done]. destruct (_ <? _); [done |]. destruct (u64_checked_add _ _); [|done].
  destruct (_ <? _); [done |]. destruct (_ <? _); [done |].
  destruct (read_loop [] _ rd1) as [|[[p| |] rd2]] eqn:Ep; try done. apply read_loop_consumes in Ep.
  destruct (negb _); [done |]. intros [= <- <- <-]. unfold HEADER_LEN in Eh. lia.
Qed.

Lemma scan_loop_total crc32 id ss pl fuel : ∀ rd off,
  (reader_len rd < fuel)%nat → scan_loop crc32 fuel rd id off ss pl ≠ None.
Proof.
  induction fuel as [|fuel IH]; intros rd off H; [lia |]. cbn [scan_loop].
  destruct (read_one _ _ _ _ _) as [|[[r next| |] rd']] eqn:E; try done.
  apply IH. apply read_one_consumes in E. lia.
Qed.

Lemma delivers_len rd bs : delivers rd bs → reader_len rd = length bs.
Proof. induction 1; cbn [reader_len]; rewrite ?length_app; [done | lia | lia]. Qed.

Section Recovery.

Context (crc32 : bytes → N) (file_reader : bytes → Reader).
Context (Hcrc : crc_ok crc32) (Hreader : ∀ c, delivers (file_reader c) c).

Definition valid_record (r : Record_) : Prop := 0 < kind r < 65536 ∧ vlen (payload r) < u32_modulus.

Definition enc (r : Record_) : bytes := record_header crc32 (kind r) (payload r) ++ payload r.

Definition encs (rs : list Record_) : bytes := concat (map enc rs).

Lemma enc_length r : vlen (enc r) = record_size (payload r).
Proof. unfold enc, vlen. rewrite length_app, record_header_length. size_lia. Qed.

Lemma encs_app rs rs' : encs (rs ++ rs') = encs rs ++ encs rs'.
Proof. unfold encs. by rewrite map_app, concat_app. Qed.

Lemma encs_cons r rs : encs (r :: rs) = enc r ++ encs rs.
Proof. done. Qed.

Lemma encs_snoc rs r : encs (rs ++ [r]) = encs rs ++ enc r.
Proof. rewrite encs_app. unfold encs at 2. cbn. by rewrite app_nil_r. Qed.

Lemma vlen_app {A} (a b : list A) : vlen (a ++ b) = vlen a + vlen b.
Proof. unfold vlen. rewrite length_app. lia. Qed.

Lemma encs_count rs : N.of_nat (length rs) ≤ vlen (encs rs).
Proof.
  induction rs as [|r rs IH]; [done |]. rewrite encs_cons, vlen_app, enc_length. cbn [length].
  unfold record_size, HEADER_LEN_U64. lia.
Qed.

(** Nothing, or a record cut short, that would have fitted after [used] bytes. *)
Definition torn_after (ss used : N) (t : bytes) : Prop :=
  t = [] ∨ ∃ r j, valid_record r ∧ (0 < j < length (enc r))%nat ∧ t = take j (enc r) ∧ used + vlen (enc r) ≤ ss.

Definition scan_of (len : N) (t : bytes) : SegmentScan :=
  match t with [] => Clean len | _ => IncompleteTail len end.

Lemma scan_loop_records id ss pl tail rs : ss < u64_modulus → Forall valid_record rs → ∀ rd off fuel,
  off + vlen (encs rs) ≤ ss → off + vlen (encs rs) ≤ pl → delivers rd (encs rs ++ tail) →
  ∃ rd', scan_loop crc32 (length rs + fuel) rd id off ss pl = scan_loop crc32 fuel rd' id (off + vlen (encs rs)) ss pl ∧
         delivers rd' tail.
Proof.
  intros Hss Hok. induction Hok as [|r rs [Hk Hp] Hok IH]; intros rd off fuel Hfit Hpl Hd.
  { exists rd. cbn. by rewrite N.add_0_r. }
  rewrite encs_cons, vlen_app, enc_length in *. unfold enc in Hd. rewrite <- !app_assoc in Hd.
  destruct (read_one_record crc32 rd (mkLsn id off) ss pl (kind r) (payload r) (encs rs ++ tail)) as (rd1 & Heq & Hd1);
    try done; cbn [offset]; try lia.
  cbn [length Nat.add scan_loop]. rewrite Heq. cbn [offset].
  destruct (IH rd1 (off + record_size (payload r)) fuel) as (rd2 & -> & Hd2); [lia.. | done |].
  exists rd2. by rewrite N.add_assoc.
Qed.

Lemma scan_segment id ss c rs t :
  ss < u64_modulus → Forall valid_record rs → vlen (encs rs) ≤ ss → torn_after ss (vlen (encs rs)) t →
  c = encs rs ++ t →
  scan_loop crc32 (S (reader_len (file_reader c))) (file_reader c) id 0 ss (vlen c) =
    Some (inr (scan_of (vlen (encs rs)) t)).
Proof.
  intros Hss Hok Hfit Htorn Hc. pose proof (Hreader c) as Hd. rewrite (delivers_len _ _ Hd). rewrite Hc in Hd at 2.
  pose proof (encs_count rs) as Hcount.
  replace (S (length c)) with (length rs + S (length c - length rs))%nat
    by (subst c; rewrite length_app; unfold vlen in Hcount; lia).
  destruct (scan_loop_records id ss (vlen c) t rs Hss Hok (file_reader c) 0 (S (length c - length rs))) as (rd & -> & Hd');
    [by rewrite N.add_0_l | subst c; rewrite vlen_app; lia | done |].
  rewrite N.add_0_l. cbn [scan_loop]. assert (vlen c = vlen (encs rs) + N.of_nat (length t)) as Hlen
    by (subst c; by rewrite vlen_app). rewrite Hlen.
  destruct Htorn as [->|(r & j & [Hk Hp] & Hj & -> & Hroom)].
  - unfold read_one. destruct (read_exact_short rd [] HEADER_LEN Hd') as (rd' & ->); [cbn; unfold HEADER_LEN; lia |]. done.
  - rewrite length_take, Nat.min_l by lia. rewrite enc_length in Hroom.
    destruct (read_one_torn crc32 rd (mkLsn id (vlen (encs rs))) ss (kind r) (payload r) j) as (rd' & Heq); try done.
    { apply Hj. }
    cbn [offset] in Heq. rewrite Heq. destruct j as [|j]; [lia |]. reflexivity.
Qed.

Lemma open_file_ok w name c : files w !! name = Some c → outcomes w = [] → open_file name w = (w, inr c).
Proof.
  intros Hc Hout. unfold open_file, syscall, next_outcome, mbind, m_bind, prim. rewrite Hout. cbn [id]. by rewrite Hc.
Qed.

Lemma valid_len_ok w id ss rs t :
  ss < u64_modulus → Forall valid_record rs → vlen (encs rs) ≤ ss → torn_after ss (vlen (encs rs)) t →
  files w !! segment_path id = Some (encs rs ++ t) → outcomes w = [] →
  valid_len crc32 file_reader id ss w = (w, inr (scan_of (vlen (encs rs)) t)).
Proof.
  intros Hss Hok Hfit Htorn Hf Hout. unfold valid_len, mbind, m_bind. rewrite (open_file_ok _ _ _ Hf Hout).
  by rewrite (scan_segment id ss _ rs t).
Qed.

(** ** The disk between operations *)

Definition valid_segment (ss : N) (rs : list Record_) : Prop :=
  Forall valid_record rs ∧ vlen (encs rs) ≤ ss.

(** The segment files hold the records of [init] and, in the last file, those of
    [lst] followed by the torn bytes [t]. *)
Record disk_inv (ss : N) (w : World) (init : list (list Record_)) (lst : list Record_) (t : bytes) : Prop := {
  di_ss : ss < u64_modulus;
  di_numbered : numbered (files w) (S (length init));
  di_init : ∀ i rs, init !! i = Some rs → files w !! segment_path (N.of_nat i) = Some (encs rs);
  di_last : files w !! segment_path (N.of_nat (length init)) = Some (encs lst ++ t);
  di_valid : Forall (valid_segment ss) init ∧ valid_segment ss lst;
  di_torn : torn_after ss (vlen (encs lst)) t
}.

(** All but the last segment are on stable storage, and of the last at least the
    first [n] records. *)
Record stable_inv (w : World) (init : list (list Record_)) (lst : list Record_) (t : bytes) (n : nat) : Prop := {
  si_files : ∀ name, is_Some (stable w !! name) → is_Some (files w !! name);
  si_init : ∀ i rs, init !! i = Some rs → stable w !! segment_path (N.of_nat i) = Some (encs rs);
  si_last : match stable w !! segment_path (N.of_nat (length init)) with
            | None => n = 0%nat
            | Some s => encs (take n lst) `prefix_of` s ∧ s `prefix_of` encs lst ++ t
            end
}.

Definition after_truncation (w : World) (init : list (list Record_)) (lst : list Record_) (t : bytes) : World :=
  match t with
  | [] => w
  | _ => sync_file (segment_path (N.of_nat (length init)))
           (set_file (segment_path (N.of_nat (length init))) (encs lst) w)
  end.

Lemma truncate_segment_ok w id rs t :
  files w !! segment_path id = Some (encs rs ++ t) → outcomes w = [] →
  truncate_segment id (vlen (encs rs)) w =
    (sync_file (segment_path id) (set_file (segment_path id) (encs rs) w), inr tt).
Proof.
  intros Hf Hout. unfold truncate_segment, mbind, m_bind. rewrite (open_file_ok _ _ _ Hf Hout).
  unfold syscall, next_outcome. rewrite Hout. unfold vlen. rewrite Nat2N.id, take_app_length.
  unfold set_file at 1. cbn [outcomes]. rewrite Hout. reflexivity.
Qed.

Lemma recover_loop_ok ss w init lst t all : disk_inv ss w init lst t → outcomes w = [] → ∀ suf pre,
  init = pre ++ suf →
  recover_loop crc32 file_reader all (map N.of_nat (seq (length pre) (S (length suf)))) ss w =
    (after_truncation w init lst t, inr (N.of_nat (length init), vlen (encs lst))).
Proof.
  intros [Hss Hnum Hinit Hlast [Hvi [Hvl Hvs]] Htorn] Hout. induction suf as [|rs suf IH]; intros pre Heq.
  - rewrite app_nil_r in Heq. subst pre. cbn [length seq map recover_loop]. unfold mbind at 1, m_bind at 1.
    rewrite (valid_len_ok w _ ss lst t) by done. destruct t as [|b t]; [done |]. cbn [scan_of]. unfold mbind, m_bind.
    by rewrite (truncate_segment_ok w _ lst (b :: t)).
  - assert (init !! length pre = Some rs) as Hrs by (rewrite Heq; by apply list_lookup_middle).
    destruct (Forall_lookup_1 _ _ _ _ Hvi Hrs) as [Hr Hl].
    cbn [length seq map recover_loop]. unfold mbind at 1, m_bind at 1.
    rewrite (valid_len_ok w _ ss rs []); [|done..|by left|rewrite app_nil_r; by apply Hinit | done].
    cbn [scan_of]. rewrite (app_assoc pre [rs] suf : pre ++ rs :: suf = _) in Heq.
    specialize (IH (pre ++ [rs]) Heq). rewrite length_app, Nat.add_1_r in IH. exact IH.
Qed.

Lemma after_truncation_inv ss w init lst t :
  disk_inv ss w init lst t → disk_inv ss (after_truncation w init lst t) init lst [].
Proof.
  intros Hd. destruct t as [|b t]; [exact Hd |]. destruct Hd as [Hss (Hn1 & Hn2 & Hn3) Hinit Hlast Hv Htorn].
  unfold after_truncation, sync_file. cbn [files set_file]. rewrite lookup_insert_eq. split; cbn [files]; try done.
  - split_and!; [| |done].
    + intros i Hi. rewrite lookup_insert_is_Some. destruct (decide (segment_path (N.of_nat (length init)) = segment_path (N.of_nat i))); [by left | right; split; [done | by apply Hn1]].
    + intros name [<-|[_ Hname]]%lookup_insert_is_Some Hs; [by exists (length init); split; [lia |] | by apply Hn2].
  - intros i rs Hi. rewrite lookup_insert_ne; [by apply Hinit |]. intros Heq.
    pose proof (lookup_lt_Some _ _ _ Hi). apply segment_path_inj in Heq; lia.
  - rewrite app_nil_r. apply lookup_insert_eq.
  - by left.
Qed.

Lemma recover_ok ss w init lst t :
  disk_inv ss w init lst t → outcomes w = [] →
  recover crc32 file_reader ss w =
    (after_truncation w init lst t, inr (N.of_nat (length init), vlen (encs lst))).
Proof.
  intros Hd Hout. unfold recover, mbind, m_bind. rewrite (segment_ids_ok w _ (di_numbered _ _ _ _ _ Hd) Hout).
  unfold ids_upto at 1. cbn [seq map]. unfold mret, m_ret.
  exact (recover_loop_ok ss w init lst t _ Hd Hout init [] eq_refl).
Qed.

Lemma numbered_single fs c : numbered fs 0 → numbered (<[segment_path 0 := c]> fs) 1.
Proof.
  intros (_ & Hn & _). split_and!; [| |done].
  - intros i Hi. assert (i = 0)%nat as -> by lia. by rewrite lookup_insert_eq.
  - intros name [<-|[_ Hname]]%lookup_insert_is_Some Hs; [by exists 0%nat; split; [lia |] |].
    destruct (Hn name Hname Hs) as (i & Hi & _). lia.
Qed.

(** An empty directory gets its first segment. *)
Lemma recover_fresh ss w :
  ss < u64_modulus → numbered (files w) 0 → stable w = files w → outcomes w = [] →
  ∃ w', recover crc32 file_reader ss w = (w', inr (0, 0)) ∧ disk_inv ss w' [] [] [] ∧ outcomes w' = [] ∧
        stable w' = files w'.
Proof.
  intros Hss Hn Hst Hout. unfold recover, mbind, m_bind. rewrite (segment_ids_ok w _ Hn Hout).
  cbn [ids_upto seq map]. unfold sync_dir, syscall, next_outcome, set_file. rewrite Hout. cbn [files stable outcomes].
  rewrite ?Hout. cbn [files stable outcomes]. rewrite Hst, ?Hout. unfold mret, m_ret.
  set (w' := mkWorld (<[segment_path 0:=[]]> (files w)) _ []).
  assert (disk_inv ss w' [] [] []) as Hd.
  { split; cbn [files w']; [done | by apply numbered_single | done | by rewrite lookup_insert_eq | | by left].
    split; [apply Forall_nil_2 |]. split; [apply Forall_nil_2 | apply N.le_0_l]. }
  exists w'. split_and!; [|done | done |].
  - exact (recover_loop_ok ss w' [] [] [] [0] Hd eq_refl [] [] eq_refl).
  - cbn [stable files w']. assert (files w !! segment_path 0 = None) as Hnone.
    { destruct (files w !! segment_path 0) as [c|] eqn:E; [|done]. destruct Hn as (_ & Hn & _).
      destruct (Hn (segment_path 0)) as (i & Hi & _); [by exists c | apply is_segment_path | lia]. }
    apply map_eq. intros name. destruct (decide (name = segment_path 0)) as [->|Hne].
    + rewrite lookup_union_r by done. by rewrite lookup_fmap, !lookup_insert_eq.
    + rewrite (lookup_insert_ne (files w)) by done. rewrite lookup_union, lookup_fmap, lookup_insert_ne by done.
      by destruct (files w !! name).
Qed.

Lemma after_truncation_stable ss w init lst t :
  disk_inv ss w init lst t → stable w = files w →
  stable (after_truncation w init lst t) = files (after_truncation w init lst t) ∧
  outcomes (after_truncation w init lst t) = outcomes w.
Proof.
  intros Hd Hst. destruct t as [|b t]; [done |]. unfold after_truncation, sync_file. cbn [files set_file].
  rewrite lookup_insert_eq. cbn [files stable outcomes set_file]. split; [|done]. rewrite Hst. apply map_eq. intros name.
  destruct (decide (name = segment_path (N.of_nat (length init)))) as [->|Hne].
  - by rewrite lookup_alter_eq, lookup_insert_eq, (di_last _ _ _ _ _ Hd).
  - by rewrite lookup_alter_ne, lookup_insert_ne by done.
Qed.

Lemma all_stable ss w init lst :
  disk_inv ss w init lst [] → stable w = files w →
  stable_inv w init lst [] (length lst) ∧ is_Some (stable w !! segment_path (N.of_nat (length init))).
Proof.
  intros Hd Hst. pose proof (di_last _ _ _ _ _ Hd) as Hlast. rewrite app_nil_r in Hlast.
  split; [|rewrite Hst, Hlast; by eexists]. split; rewrite Hst; [done | apply Hd |].
  rewrite Hlast, firstn_all, app_nil_r. done.
Qed.

Definition total_size (init : list (list Record_)) (lst : list Record_) : N := vlen (encs (concat init ++ lst)).

Lemma sum_lens_ok ss w init lst : disk_inv ss w init lst [] → outcomes w = [] → ∀ suf pre acc,
  init = pre ++ suf → acc + total_size suf lst < u64_modulus →
  sum_lens acc (map N.of_nat (seq (length pre) (S (length suf)))) w = (w, inr (acc + total_size suf lst)).
Proof.
  intros [_ _ Hinit Hlast _ _] Hout. rewrite app_nil_r in Hlast. induction suf as [|rs suf IH]; intros pre acc Heq Hlt.
  - rewrite app_nil_r in Heq. subst pre. cbn [length seq map sum_lens]. unfold segment_len, mbind, m_bind.
    rewrite (open_file_ok _ _ _ Hlast Hout). unfold mret, m_ret, u64_checked_add.
    unfold total_size in *. cbn [concat app] in *. by rewrite (proj2 (N.ltb_lt _ _) Hlt).
  - assert (init !! length pre = Some rs) as Hrs by (rewrite Heq; by apply list_lookup_middle).
    assert (total_size (rs :: suf) lst = vlen (encs rs) + total_size suf lst) as Hsum
      by (unfold total_size; cbn [concat]; rewrite <- app_assoc, encs_app, vlen_app; done).
    rewrite Hsum in *. cbn [length seq map sum_lens]. unfold segment_len, mbind, m_bind.
    rewrite (open_file_ok _ _ _ (Hinit _ _ Hrs) Hout). unfold mret, m_ret, u64_checked_add.
    rewrite (proj2 (N.ltb_lt (acc + vlen (encs rs)) _)) by lia.
    rewrite (app_assoc pre [rs] suf : pre ++ rs :: suf = _) in Heq.
    specialize (IH (pre ++ [rs]) (acc + vlen (encs rs)) Heq ltac:(lia)).
    rewrite length_app, Nat.add_1_r, <- N.add_assoc in IH. exact IH.
Qed.

(** ** An open log *)

Record wal_inv (w : World) (x : Wal) (init : list (list Record_)) (lst : list Record_) : Prop := {
  wi_disk : disk_inv (segment_size (options x)) w init lst [];
  wi_healthy : poisoned x = false;
  wi_id : active_id x = N.of_nat (length init);
  wi_len : active_len x = vlen (encs lst);
  wi_total : total_len x = total_size init lst ∧ total_len x ≤ max_size (options x);
  wi_max : max_size (options x) < u64_modulus
}.

Definition valid_options (o : WalOptions) : Prop :=
  HEADER_LEN_U64 ≤ segment_size o < u64_modulus ∧ HEADER_LEN_U64 ≤ max_size o < u64_modulus.

Lemma validate_options_ok o : valid_options o → validate_options o = inr tt.
Proof.
  intros [[? _] [? _]]. unfold validate_options.
  by rewrite (proj2 (N.ltb_ge (segment_size o) _)), (proj2 (N.ltb_ge (max_size o) _)).
Qed.

(** What opening does once [recover] has run. *)
Lemma wal_open_recovered o w w' init lst :
  valid_options o → outcomes w = [] →
  recover crc32 file_reader (segment_size o) w = (w', inr (N.of_nat (length init), vlen (encs lst))) →
  disk_inv (segment_size o) w' init lst [] → outcomes w' = [] → total_size init lst ≤ max_size o →
  ∃ x, wal_open crc32 file_reader false o w = (w', inr x) ∧ wal_inv w' x init lst ∧ options x = o.
Proof.
  intros Ho Hout Hrec Hd Hout' Hmax. destruct Ho as [Hs Hm].
  exists (mkWal o (N.of_nat (length init)) (vlen (encs lst)) (total_size init lst) false).
  split; [|split; [|reflexivity]].
  - unfold wal_open, mbind, m_bind. rewrite validate_options_ok by done.
    unfold lift_result, syscall at 1 2, next_outcome. rewrite Hout. cbn [id]. rewrite Hout. cbn [id]. rewrite Hrec.
    unfold total_len_of, mbind, m_bind. rewrite (segment_ids_ok w' _ (di_numbered _ _ _ _ _ Hd) Hout').
    pose proof (sum_lens_ok _ w' init lst Hd Hout' init [] 0 eq_refl) as Hsum. cbn [length] in Hsum.
    unfold ids_upto. rewrite Hsum by lia. rewrite N.add_0_l.
    rewrite (proj2 (N.ltb_ge (max_size o) _)) by done. unfold open_segment, syscall, next_outcome. rewrite Hout'.
    cbn [fst]. rewrite (di_last _ _ _ _ _ Hd). rewrite Hout'. cbn [id]. unfold mret, m_ret. reflexivity.
  - split; cbn; try done. lia.
Qed.

(** ** Crashes *)

(** After a crash a file holds a prefix of what was written to it that contains
    what was synced, and a synced file exists; the next process finds what is on
    the disk, and its system calls succeed. *)
Record crash (w w' : World) : Prop := {
  cr_prefix : ∀ name c', files w' !! name = Some c' →
    ∃ c, files w !! name = Some c ∧ c' `prefix_of` c ∧ ∀ s, stable w !! name = Some s → s `prefix_of` c';
  cr_kept : ∀ name, is_Some (stable w !! name) → is_Some (files w' !! name);
  cr_stable : stable w' = files w';
  cr_outcomes : outcomes w' = []
}.

Lemma prefix_take {A} (c l : list A) : c `prefix_of` l → c = take (length c) l.
Proof. intros [k ->]. by rewrite take_app_length. Qed.

Lemma take_prefix {A} (l : list A) i j : (i ≤ j)%nat → take i l `prefix_of` take j l.
Proof. intros H. exists (drop i (take j l)). by rewrite <- (take_drop i (take j l)), take_take, Nat.min_l at 1. Qed.

Lemma prefix_same_length {A} (a b : list A) : a `prefix_of` b → (length b ≤ length a)%nat → a = b.
Proof. intros [k ->] H. rewrite length_app in H. destruct k; [by rewrite app_nil_r | cbn in H; lia]. Qed.

Lemma torn_prefix ss used r c :
  valid_record r → c `prefix_of` enc r → (length c < length (enc r))%nat → used + vlen (enc r) ≤ ss →
  torn_after ss used c.
Proof.
  intros Hv Hc Hj Hroom. destruct c as [|b c]; [by left |]. right. exists r, (length (b :: c)).
  split_and!; [done | cbn; lia | done | by apply prefix_take | done].
Qed.

(** A prefix of a segment is whole records and a torn one. *)
Lemma prefix_records ss rs : Forall valid_record rs → ∀ used t c,
  used + vlen (encs rs) ≤ ss → torn_after ss (used + vlen (encs rs)) t → c `prefix_of` encs rs ++ t →
  ∃ m t', (m ≤ length rs)%nat ∧ c = encs (take m rs) ++ t' ∧ torn_after ss (used + vlen (encs (take m rs))) t' ∧
    ∀ n, (n ≤ length rs)%nat → encs (take n rs) `prefix_of` c → (n ≤ m)%nat.
Proof.
  induction 1 as [|r rs Hr Hrs IH]; intros used t c Hfit Htorn Hc.
  - exists 0%nat, c. split_and!; [done..| |cbn; lia]. change (vlen (encs (take 0 []))) with 0. change (vlen (encs [])) with 0 in *.
    cbn [app encs map concat] in Hc. destruct Htorn as [->|(r & j & Hr & Hj & -> & Hroom)].
    + left. by apply prefix_nil_inv in Hc.
    + apply torn_prefix with (r := r); [done | | |done].
      * etrans; [exact Hc | apply prefix_take_l || (exists (drop j (enc r)); by rewrite take_drop)].
      * apply prefix_length in Hc. rewrite length_take in Hc. lia.
  - rewrite encs_cons, vlen_app in Hfit, Htorn. rewrite encs_cons, <- app_assoc in Hc.
    destruct (decide (length c < length (enc r))%nat) as [Hlt|Hge].
    + exists 0%nat, c. split_and!; [lia | done | |].
      * change (vlen (encs (take 0 (r :: rs)))) with 0. rewrite N.add_0_r. apply torn_prefix with (r := r); [done | | lia | lia].
        exists (drop (length c) (enc r)). pose proof (prefix_take _ _ Hc) as Heq. rewrite take_app_le in Heq by lia.
        rewrite Heq at 1. by rewrite take_drop.
      * intros [|n] _ Hn; [lia |]. apply prefix_length in Hn. cbn [take] in Hn. rewrite encs_cons, length_app in Hn. lia.
    + assert (enc r `prefix_of` c) as [c2 ->].
      { destruct (prefix_weak_total (enc r) c (enc r ++ encs rs ++ t)) as [|Hp]; [by eexists | done | done |].
        by rewrite (prefix_same_length _ _ Hp) by lia. }
      apply prefix_app_inv in Hc.
      destruct (IH (used + vlen (enc r)) t c2) as (m & t' & Hm & -> & Ht & Hn); [lia | by rewrite <- N.add_assoc | done |].
      exists (S m), t'. cbn [length take]. rewrite encs_cons, vlen_app, <- app_assoc, N.add_assoc.
      split_and!; [lia | done | done |]. intros [|n] Hle Hp; [lia |]. cbn [take] in Hp. rewrite encs_cons in Hp.
      apply prefix_app_inv in Hp. specialize (Hn n). cbn [length] in Hle. specialize (Hn ltac:(lia) Hp). lia.
Qed.

(** The segments after a crash. *)
Lemma crash_disk ss w w' init lst t n :
  disk_inv ss w init lst t → stable_inv w init lst t n → (n ≤ length lst)%nat → crash w w' →
  (numbered (files w') 0 ∧ init = [] ∧ n = 0%nat) ∨
  ∃ init' lst' t' m, disk_inv ss w' init' lst' t' ∧ (n ≤ m ≤ length lst)%nat ∧
    concat init' ++ lst' = concat init ++ take m lst.
Proof.
  intros [Hss (Hn1 & Hn2 & Hn3) Hinit Hlast [Hvi Hvl] Htorn] [Hsf Hsi Hsl] Hn [Hpre Hkept _ _].
  assert (∀ name, is_Some (files w' !! name) → is_Some (files w !! name)) as Hsub.
  { intros name [c' Hc']. destruct (Hpre _ _ Hc') as (c & Hc & _). by exists c. }
  assert (∀ i rs, init !! i = Some rs → files w' !! segment_path (N.of_nat i) = Some (encs rs)) as Hinit'.
  { intros i rs Hi. destruct (Hkept (segment_path (N.of_nat i))) as [c' Hc']; [rewrite (Hsi _ _ Hi); done |].
    destruct (Hpre _ _ Hc') as (c & Hc & Hp & Hs). rewrite (Hinit _ _ Hi) in Hc. injection Hc as <-.
    rewrite Hc'. f_equal. apply prefix_same_length; [done |]. apply prefix_length. by apply Hs, Hsi. }
  destruct (files w' !! segment_path (N.of_nat (length init))) as [c'|] eqn:Hc'.
  - right. destruct (Hpre _ _ Hc') as (c & Hc & Hp & Hs). rewrite Hlast in Hc. injection Hc as <-.
    destruct (prefix_records ss lst (proj1 Hvl) 0 t c') as (m & t' & Hm & -> & Ht & Hmax); [apply Hvl | done | done |].
    exists init, (take m lst), t', m. split_and!; [| |done | done].
    + split; try done.
      * split_and!; [| |done].
        -- intros i Hi. destruct (decide (i = length init)) as [->|]; [by exists (encs (take m lst) ++ t') |].
           destruct (lookup_lt_is_Some_2 init i) as [rs Hrs]; [lia |]. rewrite (Hinit' _ _ Hrs). by eexists.
        -- intros name Hname. by apply Hn2, Hsub.
      * split; [done |]. split; [by apply Forall_take, Hvl |].
        eapply N.le_trans; [|apply Hvl]. rewrite <- (take_drop m lst) at 2. rewrite encs_app, vlen_app. lia.
    + destruct (stable w !! segment_path (N.of_nat (length init))) as [s|] eqn:Es; [|lia].
      apply Hmax; [done |]. etrans; [apply Hsl |]. by apply Hs.
  - assert (n = 0)%nat as ->.
    { destruct (stable w !! segment_path (N.of_nat (length init))) as [s|] eqn:Es; [|done].
      destruct (Hkept (segment_path (N.of_nat (length init)))) as [? H]; [by exists s | congruence]. }
    assert (∀ name, is_Some (files w' !! name) → is_segment name = true → ∃ i, (i < length init)%nat ∧ name = segment_path (N.of_nat i)) as Honly.
    { intros name Hname Hseg. destruct (Hn2 name (Hsub _ Hname) Hseg) as (i & Hi & ->).
      destruct (decide (i = length init)) as [->|]; [destruct Hname; congruence |]. exists i. split; [lia | done]. }
    destruct init as [|l0 init _] using rev_ind.
    + left. split_and!; [|done..]. split_and!; [lia | done | lia].
    + right. exists init, l0, [], 0%nat. rewrite length_app, Nat.add_1_r in *.
      apply Forall_app in Hvi as [Hvi Hv0]. apply Forall_inv in Hv0. split_and!; [|lia | lia |].
      * split; try done.
        -- split_and!; [| done | lia]. intros i Hi. destruct (lookup_lt_is_Some_2 (init ++ [l0]) i) as [rs Hrs].
           { rewrite length_app. cbn. lia. } rewrite (Hinit' _ _ Hrs). by eexists.
        -- intros i rs Hi. apply Hinit'. by apply lookup_app_l_Some.
        -- rewrite app_nil_r. apply Hinit'. by apply list_lookup_middle.
        -- by left.
      * rewrite concat_app, take_0. cbn. by rewrite !app_nil_r.
Qed.

(** ** The log as a list of records *)

(** The files hold the records [rs], of which the first [k] survive a crash. *)
Definition holds (ss : N) (w : World) (rs : list Record_) (k : nat) : Prop :=
  ∃ init lst t n, disk_inv ss w init lst t ∧ stable_inv w init lst t n ∧ (n ≤ length lst)%nat ∧
    rs = concat init ++ lst ∧ (k ≤ length (concat init) + n)%nat.

(** The same for an open log that accepts appends. *)
Definition open_log (w : World) (x : Wal) (rs : list Record_) (k : nat) : Prop :=
  ∃ init lst n, wal_inv w x init lst ∧ stable_inv w init lst [] n ∧ (n ≤ length lst)%nat ∧
    is_Some (stable w !! segment_path (N.of_nat (length init))) ∧
    rs = concat init ++ lst ∧ (k ≤ length (concat init) + n)%nat.

Lemma open_log_holds w x rs k : open_log w x rs k → holds (segment_size (options x)) w rs k.
Proof. intros (init & lst & n & Hw & Hs & Hn & _ & Hrs & Hk). exists init, lst, [], n. split_and!; try done. apply Hw. Qed.

Lemma open_log_size w x rs k : open_log w x rs k → vlen (encs rs) = total_len x ∧ vlen (encs rs) ≤ max_size (options x).
Proof.
  intros (init & lst & n & Hw & _ & _ & _ & -> & _). destruct (wi_total _ _ _ _ Hw) as [Ht Hm].
  unfold total_size in Ht. by rewrite <- Ht.
Qed.

Lemma numbered_fresh fs n : numbered fs n → N.of_nat n < u64_modulus → fs !! segment_path (N.of_nat n) = None.
Proof.
  intros (_ & Hn & _) Hlt. destruct (fs !! segment_path (N.of_nat n)) as [c|] eqn:E; [|done].
  destruct (Hn (segment_path (N.of_nat n))) as (i & Hi & Heq); [by exists c | apply is_segment_path |].
  apply segment_path_inj in Heq; lia.
Qed.

(** Opening after a crash. *)
Lemma open_after_crash o w w' rs k :
  valid_options o → holds (segment_size o) w rs k → vlen (encs rs) ≤ max_size o → crash w w' →
  ∃ w'' x rs', wal_open crc32 file_reader false o w' = (w'', inr x) ∧ open_log w'' x rs' (length rs') ∧
    options x = o ∧ outcomes w'' = [] ∧ take k rs `prefix_of` rs' ∧ rs' `prefix_of` rs.
Proof.
  intros Ho (init & lst & t & n & Hd & Hs & Hn & -> & Hk) Hsize Hcr.
  destruct (crash_disk _ _ _ _ _ _ _ Hd Hs Hn Hcr) as [(Hnum & -> & ->)|(init' & lst' & t' & m & Hd' & Hm & Heq)].
  - destruct (recover_fresh (segment_size o) w') as (w1 & Hrec & Hd1 & Hout1 & Hst1);
      [apply Ho | done | apply Hcr | apply Hcr |].
    destruct (wal_open_recovered o w' w1 [] []) as (x & Hopen & Hinv & Hox); try done; [apply Hcr | apply N.le_0_l |].
    destruct (all_stable _ _ _ _ Hd1 Hst1) as [Hs1 Hsome].
    exists w1, x, []. split_and!; try done; [| |apply prefix_nil].
    + by exists [], [], 0%nat.
    + assert (k = 0)%nat as -> by (cbn in Hk; lia). apply prefix_nil.
  - pose proof (after_truncation_inv _ _ _ _ _ Hd') as Hd1.
    destruct (after_truncation_stable _ _ _ _ _ Hd' (cr_stable _ _ Hcr)) as [Hst1 Hout1].
    rewrite (cr_outcomes _ _ Hcr) in Hout1. set (w1 := after_truncation w' init' lst' t') in *.
    assert (concat init' ++ lst' `prefix_of` concat init ++ lst) as Hp
      by (rewrite Heq; apply prefix_app; exists (drop m lst); by rewrite take_drop).
    destruct (wal_open_recovered o w' w1 init' lst') as (x & Hopen & Hinv & Hox); try done.
    { apply Hcr. } { apply recover_ok; [done | apply Hcr]. }
    { unfold total_size. destruct Hp as [rest Hp]. rewrite Hp, encs_app, vlen_app in Hsize. lia. }
    destruct (all_stable _ _ _ _ Hd1 Hst1) as [Hs1 Hsome].
    exists w1, x, (concat init' ++ lst'). split_and!; try done.
    + exists init', lst', (length lst'). by rewrite length_app.
    + rewrite Heq, <- (take_app_add (concat init) lst m). apply take_prefix. lia.
Qed.

(** ** Appending *)

Lemma next_outcome_world w w' o : next_outcome w = (w', o) → files w' = files w ∧ stable w' = stable w.
Proof. unfold next_outcome. destruct (outcomes w); by intros [= <- <-]. Qed.

Lemma disk_inv_ext ss w w' init lst t : files w' = files w → disk_inv ss w init lst t → disk_inv ss w' init lst t.
Proof. intros Hf [Hss Hn Hi Hl Hv Ht]. split; rewrite ?Hf; done. Qed.

Lemma stable_inv_ext w w' init lst t n :
  files w' = files w → stable w' = stable w → stable_inv w init lst t n → stable_inv w' init lst t n.
Proof. intros Hf Hs [H1 H2 H3]. split; rewrite ?Hf, ?Hs; done. Qed.

Lemma wal_inv_ext w w' x init lst : files w' = files w → wal_inv w x init lst → wal_inv w' x init lst.
Proof. intros Hf [H1 H2 H3 H4 H5 H6]. split; try done. by apply (disk_inv_ext _ w). Qed.

Lemma sync_file_spec ss w init lst :
  disk_inv ss w init lst [] → stable_inv w init lst [] 0 → is_Some (stable w !! segment_path (N.of_nat (length init))) →
  let w' := sync_file (segment_path (N.of_nat (length init))) w in
  files w' = files w ∧ stable_inv w' init lst [] (length lst) ∧
  is_Some (stable w' !! segment_path (N.of_nat (length init))).
Proof.
  intros Hd Hs [s Hsome]. pose proof (di_last _ _ _ _ _ Hd) as Hlast. rewrite app_nil_r in Hlast.
  unfold sync_file. rewrite Hlast. cbn [files stable]. split_and!; [done | |].
  - split; cbn [files stable].
    + intros name Hname. apply (si_files _ _ _ _ _ Hs). destruct (decide (name = segment_path (N.of_nat (length init)))) as [->|Hne].
      * by exists s.
      * by rewrite lookup_alter_ne in Hname by done.
    + intros i rs Hi. rewrite lookup_alter_ne; [by apply Hs |]. intros Heq. pose proof (lookup_lt_Some _ _ _ Hi).
      destruct (di_numbered _ _ _ _ _ Hd) as (_ & _ & ?). apply segment_path_inj in Heq; lia.
    + rewrite lookup_alter_eq, Hsome. cbn. by rewrite firstn_all, app_nil_r.
  - rewrite lookup_alter_eq, Hsome. by eexists.
Qed.

Lemma stable_inv_weaken w init lst t n m : (m ≤ n)%nat → stable_inv w init lst t n → stable_inv w init lst t m.
Proof.
  intros Hle [H1 H2 H3]. split; [done | done |]. destruct (stable w !! _) as [s|]; [|lia].
  destruct H3 as [H3 H4]. split; [|done]. etrans; [|exact H3]. destruct (take_prefix lst m n Hle) as [rest ->].
  rewrite encs_app. by eexists.
Qed.

Lemma open_log_ext w w' x rs k :
  files w' = files w → stable w' = stable w → open_log w x rs k → open_log w' x rs k.
Proof.
  intros Hf Hs (init & lst & n & Hw & Hst & Hn & Hsome & Hrs & Hk). exists init, lst, n.
  split_and!; [by apply (wal_inv_ext w) | by apply (stable_inv_ext w) | done | by rewrite Hs | done | done].
Qed.

(** A segment exists behind the active one: a rotation has created it and then failed. *)
Definition segment_ahead (w : World) (x : Wal) : bool :=
  bool_decide (is_Some (files w !! segment_path (active_id x + 1))).

(** What a failed operation leaves behind: a handle that refuses everything, the open
    log it was called on, or a segment ahead of the active one. *)
Definition left_as (w : World) (x : Wal) (rs : list Record_) (k : nat) : Prop :=
  poisoned x = true ∨ open_log w x rs k ∨ segment_ahead w x = true.

(** [sync] makes everything written durable, or poisons the handle. *)
Lemma sync_exact w x init lst n :
  wal_inv w x init lst → stable_inv w init lst [] n →
  is_Some (stable w !! segment_path (N.of_nat (length init))) →
  (∃ w', sync (w, x) = ((w', x), inr tt) ∧ wal_inv w' x init lst ∧ stable_inv w' init lst [] (length lst) ∧
         is_Some (stable w' !! segment_path (N.of_nat (length init)))) ∨
  (∃ w' e, sync (w, x) = ((w', set_poisoned x), inl e) ∧ files w' = files w ∧ stable w' = stable w).
Proof.
  intros Hw Hs Hsome. unfold sync, mbind, m_bind, ensure_healthy, prim. cbn [fst snd]. rewrite (wi_healthy _ _ _ _ Hw).
  unfold syscall. destruct (next_outcome w) as [w1 o] eqn:Eo. destruct (next_outcome_world _ _ _ Eo) as [Hf1 Hs1].
  destruct o as [|j]; [left | right; by exists w1, Io].
  rewrite (wi_id _ _ _ _ Hw). pose proof (wal_inv_ext w w1 x init lst Hf1 Hw) as Hw1.
  destruct (sync_file_spec _ w1 init lst (wi_disk _ _ _ _ Hw1)) as (Hf2 & Hs2 & Hsome2).
  - apply (stable_inv_ext w w1); [done | done |]. by apply (stable_inv_weaken _ _ _ _ n); [lia |].
  - by rewrite Hs1.
  - eexists. split_and!; [reflexivity | by apply (wal_inv_ext w1) | done | done].
Qed.

Lemma sync_spec w x rs k :
  open_log w x rs k →
  (∃ w', sync (w, x) = ((w', x), inr tt) ∧ open_log w' x rs (length rs)) ∨
  (∃ w' e, sync (w, x) = ((w', set_poisoned x), inl e) ∧ holds (segment_size (options x)) w' rs k).
Proof.
  intros Ho. pose proof Ho as (init & lst & n & Hw & Hs & Hn & Hsome & -> & Hk).
  destruct (sync_exact w x init lst n Hw Hs Hsome) as [(w' & Heq & Hw' & Hs' & Hsome')|(w' & e & Heq & Hf & Hst)].
  - left. exists w'. split; [done |]. exists init, lst, (length lst). rewrite length_app. split_and!; done.
  - right. exists w', e. split; [done |]. exists init, lst, [], n. split_and!; try done.
    + apply (disk_inv_ext _ w); [done |]. apply Hw.
    + by apply (stable_inv_ext w).
Qed.

(** A new empty segment behind a full one. *)
Lemma new_segment_inv ss w init lst w' :
  disk_inv ss w init lst [] → N.of_nat (S (length init)) < u64_modulus →
  files w' = <[segment_path (N.of_nat (S (length init))) := []]> (files w) →
  disk_inv ss w' (init ++ [lst]) [] [].
Proof.
  intros [Hss (Hn1 & Hn2 & Hn3) Hinit Hlast [Hvi Hvl] _] Hlt Hf. rewrite app_nil_r in Hlast.
  split; rewrite ?Hf, ?length_app, ?Nat.add_1_r; [done | | | | |by left].
  - split_and!; [| |lia].
    + intros i Hi. rewrite lookup_insert_is_Some. destruct (decide (segment_path (N.of_nat (S (length init))) = segment_path (N.of_nat i))) as [|Hne]; [by left |].
      right. split; [done |]. apply Hn1. destruct (decide (i = S (length init))) as [->|]; [done | lia].
    + intros name [<-|[_ Hname]]%lookup_insert_is_Some Hseg; [exists (S (length init)); split; [lia | done] |].
      destruct (Hn2 name Hname Hseg) as (i & Hi & ->). exists i. split; [lia | done].
  - intros i rs Hi. rewrite lookup_insert_ne.
    + apply lookup_snoc_Some in Hi as [[Hi Hrs]|[-> <-]]; [by apply Hinit | done].
    + intros Heq. pose proof (lookup_lt_Some _ _ _ Hi) as Hb. rewrite length_app in Hb. cbn in Hb.
      apply segment_path_inj in Heq; lia.
  - by rewrite lookup_insert_eq.
  - split; [apply Forall_app; split; [done | by apply Forall_singleton] |]. split; [apply Forall_nil_2 | apply N.le_0_l].
Qed.

Lemma stable_full w init lst :
  stable_inv w init lst [] (length lst) → is_Some (stable w !! segment_path (N.of_nat (length init))) →
  ∀ i rs, (init ++ [lst]) !! i = Some rs → stable w !! segment_path (N.of_nat i) = Some (encs rs).
Proof.
  intros [_ H2 H3] [s Hs] i rs [[_ Hi]|[-> <-]]%lookup_snoc_Some; [by apply H2 |].
  rewrite Hs in H3 |- *. rewrite firstn_all, app_nil_r in H3. destruct H3 as [H3 H4]. f_equal.
  apply prefix_same_length; [done | by apply prefix_length].
Qed.

(** The stable side of a new segment, before and after the directory is synced. *)
Lemma new_segment_stable ss w init lst w' :
  disk_inv ss w init lst [] → N.of_nat (S (length init)) < u64_modulus →
  stable_inv w init lst [] (length lst) → is_Some (stable w !! segment_path (N.of_nat (length init))) →
  files w' = <[segment_path (N.of_nat (S (length init))) := []]> (files w) →
  stable w' = stable w ∨ stable w' = stable w ∪ ((fun _ => []) <$> files w') →
  stable_inv w' (init ++ [lst]) [] [] 0.
Proof.
  intros Hd Hlt Hs Hsome Hf Hst.
  pose proof (numbered_fresh _ _ (di_numbered _ _ _ _ _ Hd) Hlt) as Hfresh.
  assert (stable w !! segment_path (N.of_nat (S (length init))) = None) as Hnone.
  { destruct (stable w !! segment_path (N.of_nat (S (length init)))) as [c|] eqn:E; [|done].
    destruct (si_files _ _ _ _ _ Hs (segment_path (N.of_nat (S (length init))))) as [? ?]; [by exists c | congruence]. }
  pose proof (stable_full w init lst Hs Hsome) as Hfull. split.
  - intros name Hname. rewrite Hf. destruct (decide (name = segment_path (N.of_nat (S (length init))))) as [->|Hne].
    + rewrite lookup_insert_eq. by eexists.
    + rewrite lookup_insert_ne by done. destruct Hst as [Hst|Hst]; rewrite Hst in Hname.
      * by apply (si_files _ _ _ _ _ Hs).
      * rewrite lookup_union, lookup_fmap, Hf, lookup_insert_ne in Hname by done.
        destruct (stable w !! name) eqn:E; [apply (si_files _ _ _ _ _ Hs); by rewrite E |].
        destruct (files w !! name) eqn:E'; [by eexists |]. by destruct Hname.
  - intros i rs Hi. pose proof (Hfull i rs Hi) as Hi'. destruct Hst as [Hst|Hst]; rewrite Hst; [done |].
    by apply lookup_union_Some_l.
  - rewrite length_app, Nat.add_1_r. destruct Hst as [Hst|Hst]; rewrite Hst.
    + by rewrite Hnone.
    + rewrite lookup_union_r by done. rewrite lookup_fmap, Hf, lookup_insert_eq. cbn. done.
Qed.

Lemma rotate_spec w x init lst n k :
  wal_inv w x init lst → stable_inv w init lst [] n → (n ≤ length lst)%nat →
  is_Some (stable w !! segment_path (N.of_nat (length init))) → (k ≤ length (concat init) + n)%nat →
  (∃ w' x', rotate_segment (w, x) = ((w', x'), inr tt) ∧ wal_inv w' x' (init ++ [lst]) [] ∧
     stable_inv w' (init ++ [lst]) [] [] 0 ∧ is_Some (stable w' !! segment_path (N.of_nat (length (init ++ [lst])))) ∧
     options x' = options x ∧ total_len x' = total_len x) ∨
  (∃ w' x' e, rotate_segment (w, x) = ((w', x'), inl e) ∧ holds (segment_size (options x)) w' (concat init ++ lst) k ∧
     options x' = options x ∧ left_as w' x' (concat init ++ lst) k).
Proof.
  intros Hw Hs Hn Hsome Hk. remember (rotate_segment (w, x)) as res eqn:Er. unfold rotate_segment, mbind, m_bind in Er.
  destruct (sync_exact w x init lst n Hw Hs Hsome) as [(w1 & Heq & Hw1 & Hs1 & Hsome1)|(w1 & e & Heq & Hf1 & Hst1)];
    rewrite Heq in Er.
  2: { right. exists w1, (set_poisoned x), e. split_and!; [done | | done | by left]. exists init, lst, [], n. split_and!; try done.
       - apply (disk_inv_ext _ w); [done |]. apply Hw.
       - by apply (stable_inv_ext w). }
  assert (open_log w1 x (concat init ++ lst) k) as Ho1 by (exists init, lst, (length lst); split_and!; try done; lia).
  assert (∀ w2, files w2 = files w1 → stable w2 = stable w1 →
    holds (segment_size (options x)) w2 (concat init ++ lst) k ∧ options x = options x ∧ left_as w2 x (concat init ++ lst) k) as Hold.
  { intros w2 Hf2 Hst2. pose proof (open_log_ext w1 w2 x _ k Hf2 Hst2 Ho1) as Ho2.
    split_and!; [by apply open_log_holds | done | right; by left]. }
  unfold the_wal, u64_checked_add in Er. cbn [fst snd] in Er. rewrite (wi_id _ _ _ _ Hw1) in Er.
  destruct (N.ltb_spec (N.of_nat (length init) + 1) u64_modulus) as [Hlt|Hge];
    [|right; exists w1, x, SegmentIdExhausted; by split; [|apply Hold]].
  replace (N.of_nat (length init) + 1) with (N.of_nat (S (length init))) in * by lia.
  unfold in_world, open_segment, sync_dir, syscall in Er. cbn [fst snd] in Er.
  destruct (next_outcome w1) as [w2 o2] eqn:Eo2. destruct (next_outcome_world _ _ _ Eo2) as [Hf2 Hst2].
  destruct o2 as [|j]; [|right; exists w2, x, Io; by split; [|apply Hold]].
  rewrite Hf2, (numbered_fresh _ _ (di_numbered _ _ _ _ _ (wi_disk _ _ _ _ Hw1)) Hlt) in Er. cbn [fst snd] in Er.
  set (w3 := set_file (segment_path (N.of_nat (S (length init)))) [] w2) in Er.
  assert (files w3 = <[segment_path (N.of_nat (S (length init))) := []]> (files w1)) as Hf3 by (cbn; by rewrite Hf2).
  assert (stable w3 = stable w1) as Hst3 by (cbn; by rewrite Hst2).
  destruct (next_outcome w3) as [w4 o4] eqn:Eo4. destruct (next_outcome_world _ _ _ Eo4) as [Hf4 Hst4].
  destruct o4 as [|j]; cbn [fst snd] in Er.
  - left. eexists _, _. split; [exact Er |]. cbn [fst snd options total_len]. split_and!; [| | |done | done].
    + pose proof Hw1 as [H1 H2 H3 H4 [H5 H6] H7]. split; cbn [fst snd options poisoned active_id active_len total_len]; try done.
      * eapply new_segment_inv; [done | done |]. cbn [files]. by rewrite Hf4.
      * by rewrite length_app, Nat.add_1_r.
      * split; [|done]. rewrite H5. unfold total_size. by rewrite concat_app, app_nil_r; cbn; rewrite app_nil_r.
    + eapply new_segment_stable; [apply Hw1 | done | done | done | cbn [files]; by rewrite Hf4 |].
      right. cbn [stable files]. by rewrite Hst4, Hst3.
    + cbn [stable]. rewrite length_app, Nat.add_1_r, lookup_union_is_Some. right. rewrite lookup_fmap, Hf4, Hf3, lookup_insert_eq.
      by eexists.
  - right. exists w4, x, Io. split_and!; [done | | done |].
    2: { right. right. unfold segment_ahead. rewrite (wi_id _ _ _ _ Hw1), N.add_1_r, <- Nat2N.inj_succ, Hf4, Hf3, lookup_insert_eq.
         by apply bool_decide_true. }
    exists (init ++ [lst]), [], [], 0%nat. split_and!; [| |done | |].
    + eapply new_segment_inv; [apply Hw1 | done |]. by rewrite Hf4.
    + eapply new_segment_stable; [apply Hw1 | done | done | done | by rewrite Hf4 |]. left. by rewrite Hst4.
    + rewrite concat_app. cbn. by rewrite !app_nil_r.
    + rewrite concat_app. cbn. rewrite app_nil_r, length_app. lia.
Qed.

(** Bytes added to the last segment. *)
Lemma disk_inv_write ss w init lst more t w' :
  disk_inv ss w init lst [] → Forall valid_record more → vlen (encs (lst ++ more)) ≤ ss →
  torn_after ss (vlen (encs (lst ++ more))) t →
  files w' = <[segment_path (N.of_nat (length init)) := encs lst ++ encs more ++ t]> (files w) →
  disk_inv ss w' init (lst ++ more) t.
Proof.
  intros [Hss (Hn1 & Hn2 & Hn3) Hinit Hlast [Hvi [Hvl _]] _] Hmore Hfit Ht Hf. split; rewrite ?Hf; try done.
  - split_and!; [| |done].
    + intros i Hi. rewrite lookup_insert_is_Some. destruct (decide (segment_path (N.of_nat (length init)) = segment_path (N.of_nat i))); [by left |].
      right. split; [done | by apply Hn1].
    + intros name [<-|[_ Hname]]%lookup_insert_is_Some Hs; [by exists (length init); split; [lia |] | by apply Hn2].
  - intros i rs Hi. rewrite lookup_insert_ne; [by apply Hinit |]. intros Heq.
    pose proof (lookup_lt_Some _ _ _ Hi). apply segment_path_inj in Heq; lia.
  - by rewrite lookup_insert_eq, encs_app, <- app_assoc.
  - split; [done |]. split; [by apply Forall_app | done].
Qed.

Lemma stable_inv_write w init lst more t w' n :
  stable_inv w init lst [] n → (n ≤ length lst)%nat → stable w' = stable w →
  (∀ name, is_Some (files w !! name) → is_Some (files w' !! name)) → stable_inv w' init (lst ++ more) t n.
Proof.
  intros [H1 H2 H3] Hn Hst Hf. split; rewrite ?Hst; [by intros name Hname; apply Hf, H1 | done |].
  destruct (stable w !! _) as [s|]; [|done]. rewrite app_nil_r in H3. destruct H3 as [H3 H4].
  rewrite take_app_le by done. split; [done |]. rewrite encs_app, <- app_assoc. by apply prefix_app_r.
Qed.

Lemma write_spec w x init lst n k r :
  wal_inv w x init lst → stable_inv w init lst [] n → (n ≤ length lst)%nat → (k ≤ length (concat init) + n)%nat →
  valid_record r → vlen (encs lst) + vlen (enc r) ≤ segment_size (options x) →
  (∃ w', write_or_poison (enc r) (w, x) = ((w', x), inr tt) ∧ stable w' = stable w ∧
     disk_inv (segment_size (options x)) w' init (lst ++ [r]) [] ∧ stable_inv w' init (lst ++ [r]) [] n) ∨
  (∃ w' rs', write_or_poison (enc r) (w, x) = ((w', set_poisoned x), inl Io) ∧
     holds (segment_size (options x)) w' rs' k ∧
     concat init ++ lst `prefix_of` rs' ∧ rs' `prefix_of` (concat init ++ lst) ++ [r]).
Proof.
  intros Hw Hs Hn Hk Hr Hfit. pose proof (wi_disk _ _ _ _ Hw) as Hd.
  pose proof (di_last _ _ _ _ _ Hd) as Hlast. rewrite app_nil_r in Hlast.
  assert (vlen (encs (lst ++ [r])) ≤ segment_size (options x)) as Hfit1
    by (rewrite encs_snoc, vlen_app; lia).
  unfold write_or_poison. cbn [fst snd]. rewrite (wi_id _ _ _ _ Hw), Hlast. cbn [default].
  destruct (next_outcome w) as [w1 o] eqn:Eo. destruct (next_outcome_world _ _ _ Eo) as [Hf1 Hst1].
  assert (∀ c name, is_Some (files w !! name) → is_Some (files (set_file (segment_path (N.of_nat (length init))) c w1) !! name)) as Hsub.
  { intros c name Hname. cbn. rewrite Hf1, lookup_insert_is_Some. destruct (decide (segment_path (N.of_nat (length init)) = name)); [by left | by right]. }
  destruct o as [|j].
  - left. eexists. split_and!; [reflexivity | by cbn | |].
    + eapply disk_inv_write with (more := [r]) (t := []); [done | by apply Forall_singleton | done | by left |].
      cbn [files set_file]. rewrite Hf1. cbn. by rewrite !app_nil_r.
    + eapply stable_inv_write; [done | done | by cbn | apply Hsub].
  - right. destruct (decide (length (enc r) ≤ j)%nat) as [Hge|Hlt].
    + rewrite take_ge by done. exists (set_file (segment_path (N.of_nat (length init))) (encs lst ++ enc r) w1), (concat init ++ lst ++ [r]).
      split_and!; [done | | |by rewrite app_assoc].
      * exists init, (lst ++ [r]), [], n. split_and!; [| |rewrite length_app; lia | done | done].
        -- eapply disk_inv_write with (more := [r]) (t := []); [done | by apply Forall_singleton | done | by left |].
           cbn [files set_file]. rewrite Hf1. cbn. by rewrite !app_nil_r.
        -- eapply stable_inv_write; [done | done | by cbn | apply Hsub].
      * rewrite app_assoc. by apply prefix_app_r.
    + exists (set_file (segment_path (N.of_nat (length init))) (encs lst ++ take j (enc r)) w1), (concat init ++ lst).
      split_and!; [done | | done | by apply prefix_app_r].
      exists init, (lst ++ []), (take j (enc r)), n. split_and!; [| |by rewrite app_nil_r | by rewrite app_nil_r | done].
      * eapply disk_inv_write; [done | apply Forall_nil_2 | rewrite app_nil_r; lia | |].
        -- rewrite app_nil_r. eapply torn_prefix; [done | | rewrite length_take; lia | done].
           exists (drop j (enc r)). by rewrite take_drop.
        -- cbn [files set_file]. by rewrite Hf1.
      * eapply stable_inv_write; [done | done | by cbn | apply Hsub].
Qed.

(** Room for a record of [len] bytes, in the active segment or in a new one. *)
Lemma rotate_if_needed_spec w x init lst n k len :
  wal_inv w x init lst → stable_inv w init lst [] n → (n ≤ length lst)%nat →
  is_Some (stable w !! segment_path (N.of_nat (length init))) → (k ≤ length (concat init) + n)%nat →
  (∃ w' x' init' lst' n', rotate_if_needed len (w, x) = ((w', x'), inr tt) ∧ wal_inv w' x' init' lst' ∧
     stable_inv w' init' lst' [] n' ∧ (n' ≤ length lst')%nat ∧
     is_Some (stable w' !! segment_path (N.of_nat (length init'))) ∧
     concat init' ++ lst' = concat init ++ lst ∧ (k ≤ length (concat init') + n')%nat ∧
     vlen (encs lst') + len ≤ segment_size (options x) ∧ options x' = options x ∧ total_len x' = total_len x) ∨
  (∃ w' x' e, rotate_if_needed len (w, x) = ((w', x'), inl e) ∧
     holds (segment_size (options x)) w' (concat init ++ lst) k ∧
     options x' = options x ∧ left_as w' x' (concat init ++ lst) k).
Proof.
  intros Hw Hs Hn Hsome Hk. remember (rotate_if_needed len (w, x)) as res eqn:Er.
  unfold rotate_if_needed, mbind, m_bind, the_wal in Er. cbn [fst snd] in Er.
  assert (open_log w x (concat init ++ lst) k) as Ho by (by exists init, lst, n).
  assert (holds (segment_size (options x)) w (concat init ++ lst) k ∧ options x = options x ∧
    left_as w x (concat init ++ lst) k) as Hsame by (split_and!; [by apply open_log_holds | done | right; by left]).
  unfold throw in Er. destruct (N.ltb_spec (segment_size (options x)) len) as [|Hle];
    [right; eexists _, _, _; split; [exact Er | done] |].
  unfold u64_checked_add in Er. rewrite (wi_len _ _ _ _ Hw) in Er.
  destruct (N.ltb_spec (vlen (encs lst) + len) u64_modulus) as [_|];
    [|right; eexists _, _, _; split; [exact Er | done]].
  destruct (negb (vlen (encs lst) =? 0) && (segment_size (options x) <? vlen (encs lst) + len)) eqn:Eneed.
  - destruct (rotate_spec w x init lst n k Hw Hs Hn Hsome Hk)
      as [(w' & x' & Heq & Hw' & Hs' & Hsome' & Ho' & Ht)|(w' & x' & e & Heq & Hh)]; rewrite Heq in Er.
    + left. exists w', x', (init ++ [lst]), [], 0%nat. rewrite concat_app. cbn [concat]. rewrite !app_nil_r.
      split_and!; try done. { rewrite length_app. lia. }
    + right. eexists _, _, _. split; [exact Er | done].
  - left. exists w, x, init, lst, n. split_and!; try done. unfold mret, m_ret in Er.
    apply andb_false_iff in Eneed as [Ez|Ef].
    + apply negb_false_iff, N.eqb_eq in Ez. lia.
    + apply N.ltb_ge in Ef. lia.
Qed.

Lemma append_spec w x rs k kd p :
  open_log w x rs k → 0 < kd < 65536 →
  (∃ w' x' l, append crc32 kd p (w, x) = ((w', x'), inr l) ∧ options x' = options x ∧
     open_log w' x' (rs ++ [mkRecord kd p]) k) ∨
  (∃ w' x' e rs', append crc32 kd p (w, x) = ((w', x'), inl e) ∧ holds (segment_size (options x)) w' rs' k ∧
     rs `prefix_of` rs' ∧ rs' `prefix_of` rs ++ [mkRecord kd p] ∧ vlen (encs rs') ≤ max_size (options x) ∧
     options x' = options x ∧ left_as w' x' rs k).
Proof.
  intros Ho Hkd. pose proof (open_log_holds _ _ _ _ Ho) as Hh0. destruct (open_log_size _ _ _ _ Ho) as [Htotal Hroom].
  pose proof Ho as (init & lst & n & Hw & Hs & Hn & Hsome & Hrs & Hk). set (r := mkRecord kd p).
  remember (append crc32 kd p (w, x)) as res eqn:Er. unfold append, mbind, m_bind, ensure_healthy, the_wal, lift_result, prim in Er.
  cbn [fst snd] in Er. rewrite (wi_healthy _ _ _ _ Hw) in Er.
  assert (∀ e, res = ((w, x), inl e) → ∃ w' x' e rs', res = ((w', x'), inl e) ∧ holds (segment_size (options x)) w' rs' k ∧
     rs `prefix_of` rs' ∧ rs' `prefix_of` rs ++ [r] ∧ vlen (encs rs') ≤ max_size (options x) ∧
     options x' = options x ∧ left_as w' x' rs k) as Hearly.
  { intros e He. exists w, x, e, rs. split_and!; [done | done | done | by apply prefix_app_r | done | done | right; by left]. }
  unfold encoded_len, u64_checked_add in Er.
  destruct (N.leb_spec u32_modulus (vlen p)) as [|Hp]; [right; by eapply Hearly |].
  rewrite (proj2 (N.ltb_lt (HEADER_LEN_U64 + vlen p) _)) in Er by size_lia.
  assert (valid_record r) as Hvalid by done. fold (record_size p) in Er. unfold checked_add_len at 1, u64_checked_add in Er.
  destruct (N.ltb_spec (total_len x + record_size p) u64_modulus) as [_|]; [|right; by eapply Hearly].
  unfold throw in Er. destruct (N.ltb_spec (max_size (options x)) (total_len x + record_size p)) as [|Hmax];
    [right; by eapply Hearly |].
  destruct (rotate_if_needed_spec w x init lst n k (record_size p) Hw Hs Hn Hsome Hk)
    as [(w1 & x1 & init1 & lst1 & n1 & Heq & Hw1 & Hs1 & Hn1 & Hsome1 & Hrs1 & Hk1 & Hfit & Ho1 & Ht1)|(w1 & x1 & e & Heq & Hh & Ho1 & Hleft)];
    rewrite Heq in Er.
  2: { right. exists w1, x1, e, rs. rewrite <- Hrs in Hh, Hleft. split_and!; [done | done | done | by apply prefix_app_r | done..]. }
  assert (vlen (encs (rs ++ [r])) ≤ max_size (options x)) as Hroom'
    by (rewrite encs_snoc, vlen_app, enc_length; cbn [payload r]; lia).
  rewrite encode_record_eq, (proj2 (N.leb_gt u32_modulus (vlen p))) in Er by done.
  change (record_header crc32 kd p ++ p) with (enc r) in Er. cbn [fst snd] in Er. rewrite (wi_len _ _ _ _ Hw1) in Er.
  assert (vlen (enc r) = record_size p) as Hlen by apply enc_length.
  pose proof (wi_disk _ _ _ _ Hw1) as Hd1. pose proof (di_ss _ _ _ _ _ Hd1) as Hss.
  rewrite Ho1 in Hss. unfold checked_add_len, u64_checked_add in Er.
  rewrite (proj2 (N.ltb_lt (vlen (encs lst1) + vlen (enc r)) _)) in Er by lia.
  destruct (write_spec w1 x1 init1 lst1 n1 k r Hw1 Hs1 Hn1 Hk1 Hvalid) as [(w2 & Heq2 & Hst2 & Hd2 & Hs2)|(w2 & rs' & Heq2 & Hh & Hp1 & Hp2)];
    [rewrite Ho1; lia | |]; rewrite Heq2 in Er; cbn [fst snd] in Er.
  2: { right. exists w2, (set_poisoned x1), Io, rs'. rewrite Ho1 in Hh. rewrite Hrs1, <- Hrs in Hp1, Hp2.
       split_and!; [done | done | done | done | | done | by left].
       destruct Hp2 as [rest Hp2]. rewrite Hp2, encs_app, vlen_app in Hroom'. lia. }
  set (x2 := mkWal (options x1) (active_id x1) (vlen (encs lst1) + vlen (enc r)) (total_len x + record_size p) (poisoned x1)) in Er.
  assert (open_log w2 x2 (rs ++ [r]) k) as Ho2.
  { exists init1, (lst1 ++ [r]), n1. split_and!; [|done | rewrite length_app; lia | by rewrite Hst2 | by rewrite Hrs, <- Hrs1, app_assoc | done].
    destruct Hw1 as [H1 H2 H3 H4 [H5 H6] H7]. split; cbn [x2 options poisoned active_id active_len total_len]; try done.
    - by rewrite encs_snoc, vlen_app.
    - rewrite Ho1. split; [|done]. rewrite <- Ht1, H5. unfold total_size.
      rewrite app_assoc, encs_snoc, vlen_app. lia. }
  destruct (sync_on_append (options x1)).
  - destruct (sync_spec w2 x2 (rs ++ [r]) k Ho2) as [(w3 & Heq3 & Ho3)|(w3 & e & Heq3 & Hh)]; rewrite Heq3 in Er.
    + left. eexists w3, x2, _. split_and!; [exact Er | done |]. destruct Ho3 as (i3 & l3 & m3 & ? & ? & ? & ? & ? & Hk3).
      exists i3, l3, m3. split_and!; try done. destruct Ho2 as (i2 & l2 & m2 & _ & _ & Hm2 & _ & Hr2 & Hk2).
      assert (k ≤ length (rs ++ [r]))%nat by (rewrite Hr2, length_app; lia). lia.
    + right. exists w3, (set_poisoned x2), e, (rs ++ [r]). cbn [x2 options] in Hh. rewrite Ho1 in Hh.
      split_and!; [exact Er | done | by apply prefix_app_r | done | done | done | by left].
  - left. eexists w2, x2, _. split_and!; [exact Er | done | done].
Qed.

(** ** Reading back *)

(** The records of a segment with their positions, and those of the segments from [i] on. *)
Fixpoint stored (id off : N) (rs : list Record_) : list StoredRecord :=
  match rs with
  | [] => []
  | r :: rs => mkStoredRecord (mkLsn id off) r :: stored id (off + vlen (enc r)) rs
  end.

Fixpoint stored_segments (i : nat) (segs : list (list Record_)) : list StoredRecord :=
  match segs with
  | [] => []
  | rs :: segs => stored (N.of_nat i) 0 rs ++ stored_segments (S i) segs
  end.

Definition lsn_lt (a b : StoredRecord) : Prop :=
  segment_id (lsn a) < segment_id (lsn b) ∨
  segment_id (lsn a) = segment_id (lsn b) ∧ offset (lsn a) < offset (lsn b).

Lemma stored_records id rs : ∀ off, map record (stored id off rs) = rs.
Proof. induction rs as [|r rs IH]; intros off; [done |]. cbn. by rewrite IH. Qed.

Lemma stored_segments_records segs : ∀ i, map record (stored_segments i segs) = concat segs.
Proof. induction segs as [|rs segs IH]; intros i; [done |]. cbn. by rewrite map_app, stored_records, IH. Qed.

Lemma stored_bounds id rs : ∀ off, Forall (fun s => segment_id (lsn s) = id ∧ off ≤ offset (lsn s)) (stored id off rs).
Proof.
  induction rs as [|r rs IH]; intros off; constructor; [cbn; lia |].
  eapply Forall_impl; [apply IH |]. cbn. intros s [? ?]. split; [done | lia].
Qed.

Lemma stored_sorted id rs : ∀ off, StronglySorted lsn_lt (stored id off rs).
Proof.
  induction rs as [|r rs IH]; intros off; constructor; [apply IH |].
  eapply Forall_impl; [apply stored_bounds |]. intros s [<- Hle]. right. cbn [lsn segment_id offset]. split; [done |].
  rewrite enc_length in Hle. size_lia.
Qed.

Lemma stored_segments_sorted segs : ∀ i,
  StronglySorted lsn_lt (stored_segments i segs) ∧
  Forall (fun s => N.of_nat i ≤ segment_id (lsn s)) (stored_segments i segs).
Proof.
  induction segs as [|rs segs IH]; intros i; [split; constructor |]. cbn. destruct (IH (S i)) as [Hs Hb].
  pose proof (stored_bounds (N.of_nat i) rs 0) as Hi. split.
  - apply StronglySorted_app. split_and!; [| apply stored_sorted | done].
    intros a b Ha Hb'. rewrite Forall_forall in Hi, Hb. destruct (Hi a Ha) as [Heq _]. left. specialize (Hb b Hb'). cbn in Hb. lia.
  - apply Forall_app. split; (eapply Forall_impl; [done |]); cbn; intros s; [intros [-> _] |]; lia.
Qed.

Lemma next_record_some id ss pl off rd r rs :
  valid_record r → off + vlen (encs (r :: rs)) ≤ ss → ss < u64_modulus → off + vlen (encs (r :: rs)) ≤ pl →
  delivers rd (encs (r :: rs)) →
  ∃ rd', next_record crc32 (mkSegmentReader id ss pl off rd) =
    inr (Some (mkStoredRecord (mkLsn id off) r), mkSegmentReader id ss pl (off + vlen (enc r)) rd') ∧
    delivers rd' (encs rs).
Proof.
  intros [Hk Hp] Hfit Hss Hpl Hd. rewrite encs_cons, vlen_app, enc_length in *. unfold enc in Hd. rewrite <- app_assoc in Hd.
  destruct (read_one_record crc32 rd (mkLsn id off) ss pl (kind r) (payload r) (encs rs)) as (rd' & Heq & Hd');
    try done; cbn [offset]; try lia.
  exists rd'. split; [|done]. unfold next_record. cbn [sr_file sr_id sr_size sr_physical_len sr_offset].
  rewrite Heq. by destruct r.
Qed.

Lemma next_record_end id ss pl off rd :
  delivers rd [] → ∃ s, next_record crc32 (mkSegmentReader id ss pl off rd) = inr (None, s).
Proof.
  intros Hd. destruct (read_exact_short rd [] HEADER_LEN Hd) as (rd' & Heq); [cbn; unfold HEADER_LEN; lia |].
  eexists. unfold next_record, read_one. cbn [sr_file sr_id sr_size sr_physical_len sr_offset]. rewrite Heq. reflexivity.
Qed.

Lemma read_current id ss pl ids w n rs : Forall valid_record rs → ss < u64_modulus → ∀ off rd,
  off + vlen (encs rs) ≤ ss → off + vlen (encs rs) ≤ pl → delivers rd (encs rs) →
  read_records crc32 file_reader (length rs + n) (mkRecords ss ids (Some (mkSegmentReader id ss pl off rd)) false) w =
    let '(w', out) := read_records crc32 file_reader n (mkRecords ss ids None false) w in
    (w', map inr (stored id off rs) ++ out).
Proof.
  intros Hok Hss. induction Hok as [|r rs Hr Hok IH]; intros off rd Hfit Hpl Hd.
  - cbn [length Nat.add stored map app]. destruct n as [|n]; [done |]. cbn [read_records].
    destruct (next_record_end id ss pl off rd Hd) as (s & Heq). unfold records_next. cbn [rc_done rc_segment rc_ids rc_size].
    rewrite Heq. destruct (next_segment _ _ _ _ _) as [w1 [[[e|r]|] rc]]; [done | |done].
    by destruct (read_records _ _ n rc w1).
  - destruct (next_record_some id ss pl off rd r rs Hr Hfit Hss Hpl Hd) as (rd' & Heq & Hd').
    cbn [length Nat.add read_records]. unfold records_next. cbn [rc_done rc_segment rc_ids rc_size]. rewrite Heq.
    rewrite encs_cons, vlen_app, N.add_assoc in Hfit, Hpl.
    specialize (IH (off + vlen (enc r)) rd' Hfit Hpl Hd'). rewrite IH.
    by destruct (read_records crc32 file_reader n (mkRecords ss ids None false) w).
Qed.

Lemma read_opened ss id ids w n c :
  files w !! segment_path id = Some c → outcomes w = [] →
  read_records crc32 file_reader n (mkRecords ss (id :: ids) None false) w =
  read_records crc32 file_reader n (mkRecords ss ids (Some (mkSegmentReader id ss (vlen c) 0 (file_reader c))) false) w.
Proof.
  intros Hf Hout. destruct n as [|n]; [done |]. cbn [read_records]. unfold records_next.
  cbn [rc_done rc_segment rc_ids rc_size next_segment]. unfold segment_reader_open, mbind, m_bind.
  rewrite (open_file_ok w _ c Hf Hout). done.
Qed.

Lemma read_segments ss w n segs : ss < u64_modulus → outcomes w = [] → (0 < n)%nat → ∀ i,
  (∀ j rs, segs !! j = Some rs → files w !! segment_path (N.of_nat (i + j)) = Some (encs rs)) →
  Forall (valid_segment ss) segs →
  read_records crc32 file_reader (length (concat segs) + n)
    (mkRecords ss (map N.of_nat (seq i (length segs))) None false) w =
    (w, map inr (stored_segments i segs)).
Proof.
  intros Hss Hout Hn. induction segs as [|rs segs IH]; intros i Hf Hv.
  - destruct n as [|n]; [lia | done].
  - apply Forall_cons in Hv as [[Hr Hl] Hv]. cbn [length seq map concat].
    assert (files w !! segment_path (N.of_nat i) = Some (encs rs)) as Hfile by (rewrite <- (Nat.add_0_r i); by apply Hf).
    rewrite (read_opened ss _ _ w _ _ Hfile Hout), length_app, <- Nat.add_assoc.
    rewrite read_current; [|done | done | by rewrite N.add_0_l | by rewrite N.add_0_l | apply Hreader].
    rewrite IH; [cbn [stored_segments]; by rewrite map_app | | done].
    intros j rs' Hj. rewrite Nat.add_succ_comm. by apply Hf.
Qed.

(** Reading an open log from the start. *)
Lemma open_log_reads w x rs k n :
  open_log w x rs k → outcomes w = [] → (0 < n)%nat →
  ∃ rc l, records (w, x) = ((w, x), inr rc) ∧
    read_records crc32 file_reader (length rs + n) rc w = (w, map inr l) ∧
    map record l = rs ∧ StronglySorted lsn_lt l.
Proof.
  intros (init & lst & m & Hw & _ & _ & _ & -> & _) Hout Hn. pose proof (wi_disk _ _ _ _ Hw) as Hd.
  exists (mkRecords (segment_size (options x)) (ids_upto (S (length init))) None false), (stored_segments 0 (init ++ [lst])).
  assert (concat init ++ lst = concat (init ++ [lst])) as Heq by (rewrite concat_app; cbn; by rewrite app_nil_r).
  split_and!.
  - unfold records, mbind, m_bind, ensure_healthy, the_wal, in_world. cbn [fst snd]. rewrite (wi_healthy _ _ _ _ Hw).
    cbn [fst snd]. by rewrite (segment_ids_ok w _ (di_numbered _ _ _ _ _ Hd) Hout).
  - rewrite Heq. unfold ids_upto. replace (S (length init)) with (length (init ++ [lst])) by (rewrite length_app; cbn; lia).
    apply read_segments; [apply Hd | done | done | |].
    + intros j rs [[_ Hj]|[-> <-]]%lookup_snoc_Some; [by apply Hd |].
      rewrite Nat.add_0_l, (di_last _ _ _ _ _ Hd). by rewrite app_nil_r.
    + apply Forall_app. split; [apply Hd |]. apply Forall_singleton. apply Hd.
  - by rewrite stored_segments_records, Heq.
  - apply stored_segments_sorted.
Qed.

(** A new directory, and the log in it. *)
Definition empty_world : World := mkWorld ∅ ∅ [].

Lemma empty_numbered : numbered (files empty_world) 0.
Proof. split_and!; [lia | intros name [c H]; cbn in H; by rewrite lookup_empty in H | vm_compute; congruence]. Qed.

Lemma fresh_open_log o : valid_options o →
  ∃ w x, wal_open crc32 file_reader false o empty_world = (w, inr x) ∧ open_log w x [] 0 ∧ options x = o.
Proof.
  intros Ho. destruct (recover_fresh (segment_size o) empty_world) as (w & Hrec & Hd & Hout & Hst);
    [apply Ho | exact empty_numbered | reflexivity | reflexivity |].
  destruct (wal_open_recovered o empty_world w [] []) as (x & Hopen & Hinv & Hox);
    [exact Ho | reflexivity | exact Hrec | exact Hd | exact Hout | apply N.le_0_l |].
  exists w, x. split_and!; [exact Hopen | | exact Hox]. destruct (all_stable _ _ _ _ Hd Hst) as [Hs Hsome].
  exists [], [], 0%nat. split_and!; [exact Hinv | exact Hs | lia | exact Hsome | reflexivity | lia].
Qed.

(** Which system calls will fail does not matter to the files. *)
Lemma open_log_outcomes w x rs k os : open_log w x rs k → open_log (mkWorld (files w) (stable w) os) x rs k.
Proof.
  intros (init & lst & n & [[] ? ? ? ? ?] & [] & ? & ? & ? & ?). exists init, lst, n. split_and!; try done; by repeat split.
Qed.

(** ** Runs *)

Inductive WalOp := WAppend (k : RecordKind) (p : bytes) | WSync.

Definition valid_op (op : WalOp) : Prop := match op with WAppend k _ => 0 < k < 65536 | WSync => True end.

(** What a client has seen: the records whose append returned, those of the appends that
    failed, how many records a returned [sync] covers, and whether some failed append
    left a segment ahead of the active one. *)
Record History := mkHistory { appended : list Record_; failed : list Record_; synced : nat; half_rotated : bool }.

Definition history_of (rs : list Record_) (k : nat) : History := mkHistory rs [] k false.

(** Run the operations, going on after those that fail. *)
Fixpoint wal_run (ops : list WalOp) (st : World * Wal) (h : History) : World * Wal * History :=
  match ops with
  | [] => (st, h)
  | WAppend k p :: ops =>
      match append crc32 k p st with
      | (st, inr _) => wal_run ops st (mkHistory (appended h ++ [mkRecord k p]) (failed h) (synced h) (half_rotated h))
      | (st, inl _) =>
          wal_run ops st (mkHistory (appended h) (failed h ++ [mkRecord k p]) (synced h)
                            (half_rotated h || segment_ahead st.1 st.2))
      end
  | WSync :: ops =>
      match sync st with
      | (st, inr _) => wal_run ops st (mkHistory (appended h) (failed h) (length (appended h)) (half_rotated h))
      | (st, inl _) => wal_run ops st h
      end
  end.

Lemma holds_synced ss w rs k : holds ss w rs k → (k ≤ length rs)%nat.
Proof. intros (init & lst & t & n & _ & _ & Hn & -> & Hk). rewrite length_app. lia. Qed.

(** A poisoned handle refuses everything and changes nothing. *)
Lemma poisoned_refuses st k p :
  poisoned st.2 = true → append crc32 k p st = (st, inl Poisoned) ∧ sync st = (st, inl Poisoned).
Proof. intros H. unfold append, sync, mbind, m_bind, ensure_healthy. by rewrite H. Qed.

(** The records on disk are those whose append returned, and perhaps one whose append
    failed last. *)
Definition on_disk (h : History) (rs : list Record_) : Prop :=
  rs = appended h ∨ ∃ r, r ∈ failed h ∧ rs = appended h ++ [r].

(** Between the operations of a run the log is open, or the handle is poisoned. *)
Definition run_inv (o : WalOptions) (st : World * Wal) (h : History) : Prop :=
  options st.2 = o ∧
  (open_log st.1 st.2 (appended h) (synced h) ∨
   poisoned st.2 = true ∧ ∃ rs, holds (segment_size o) st.1 rs (synced h) ∧ on_disk h rs ∧ vlen (encs rs) ≤ max_size o).

Lemma run_inv_holds o st h :
  run_inv o st h → ∃ rs, holds (segment_size o) st.1 rs (synced h) ∧ on_disk h rs ∧ vlen (encs rs) ≤ max_size o.
Proof.
  intros [Ho [Hlog|[_ Hp]]]; [|done]. exists (appended h). rewrite <- Ho.
  split_and!; [by apply open_log_holds | by left | by eapply open_log_size].
Qed.

Lemma prefix_of_snoc {A} (l l' : list A) x : l `prefix_of` l' ++ [x] → l `prefix_of` l' ∨ l = l' ++ [x].
Proof.
  intros [k Hk]. destruct k as [|y k _] using rev_ind; [right; by rewrite app_nil_r in Hk | left].
  rewrite app_assoc in Hk. apply app_inj_tail in Hk as [-> _]. by exists k.
Qed.

Lemma prefix_snoc_cases {A} (l l' : list A) x : l `prefix_of` l' → l' `prefix_of` l ++ [x] → l' = l ∨ l' = l ++ [x].
Proof. intros Hp [Hq|Hq]%prefix_of_snoc; [left; by apply (anti_symm prefix) | by right]. Qed.

(** An append that fails on an open log. *)
Lemma failed_append_inv o w' x' rs rs' k r h :
  appended h = rs → synced h = k → r ∈ failed h →
  holds (segment_size o) w' rs' k → rs `prefix_of` rs' → rs' `prefix_of` rs ++ [r] → vlen (encs rs') ≤ max_size o →
  options x' = o → left_as w' x' rs k → segment_ahead w' x' = false → run_inv o (w', x') h.
Proof.
  intros <- <- Hr Hh Hp1 Hp2 Hm Ho' Hleft Hahead. split; [done |].
  destruct Hleft as [Hp|[Hopen|Hs]]; [right | by left | congruence]. split; [done |]. exists rs'. split_and!; [done | | done].
  destruct (prefix_snoc_cases _ _ _ Hp1 Hp2) as [->| ->]; [by left | right; by exists r].
Qed.

Lemma half_rotated_run ops : ∀ st h, half_rotated (wal_run ops st h).2 = false → half_rotated h = false.
Proof.
  induction ops as [|[kd p|] ops IH]; intros st h; cbn [wal_run]; [done | |].
  - destruct (append _ _ _ _) as [st' [e|l]]; intros H%IH; [by apply orb_false_iff in H as [? _] | done].
  - destruct (sync st) as [st' [e|[]]]; intros H%IH; done.
Qed.

Lemma wal_run_inv o ops : Forall valid_op ops → ∀ st h,
  run_inv o st h → half_rotated (wal_run ops st h).2 = false →
  run_inv o (wal_run ops st h).1 (wal_run ops st h).2.
Proof.
  induction 1 as [|op ops Hop Hops IH]; intros [w x] h Hinv Hhalf; [done |]. pose proof Hinv as [Hox Hst]. cbn [fst snd] in *.
  destruct Hst as [Hlog|[Hpois (rs & Hh & Hd & Hm)]].
  - destruct op as [kd p|]; cbn [wal_run] in *.
    + destruct (append_spec w x _ _ kd p Hlog Hop)
        as [(w' & x' & l & E & Hox' & Ho')|(w' & x' & e & rs' & E & Hh & Hp1 & Hp2 & Hm & Hox' & Hleft)]; rewrite E in *.
      * apply IH; [|done]. split; [cbn; congruence | by left].
      * apply IH; [|done]. apply half_rotated_run in Hhalf. cbn in Hhalf. apply orb_false_iff in Hhalf as [_ Hahead].
        rewrite Hox in *. eapply failed_append_inv; try done. cbn. apply elem_of_app. right. by apply list_elem_of_singleton.
    + destruct (sync_spec w x _ _ Hlog) as [(w' & E & Ho')|(w' & e & E & Hh)]; rewrite E in *; (apply IH; [|done]).
      * split; [done | by left].
      * split; [done | right]. split; [done |]. exists (appended h). rewrite <- Hox.
        split_and!; [done | by left | by eapply open_log_size].
  - destruct op as [kd p|]; cbn [wal_run] in *.
    + destruct (poisoned_refuses (w, x) kd p Hpois) as [E _]. rewrite E in *. apply IH; [|done]. split; [done | right].
      split; [done |]. exists rs. split_and!; [done | | done]. destruct Hd as [->|(r & Hr & ->)]; [by left | right].
      exists r. cbn. split; [apply elem_of_app; by left | done].
    + destruct (poisoned_refuses (w, x) 0 [] Hpois) as [_ E]. rewrite E in *. by apply IH.
Qed.

(** ** Theorems *)

(** C24: the log survives crashes. Take an open log with the records [rs] and run any
    appends and syncs, with any system call failing and any part of a failing write on
    disk; the client goes on after every failure (a full log, a record that is too
    large, a failed write, a failed sync). Excluded are only runs in which a failed
    append has created the next segment without switching to it, since a record
    appended after that can make the log unreadable ([failed_rotation_breaks_recovery]). After any
    crash, reopening succeeds, the recovered records are a prefix of those whose append
    returned, or all of them followed by one whose append failed; they contain every
    record covered by a successful [sync], reading streams exactly them in order of
    their positions, and the recovered log is open again. *)
Theorem wal_crash_safe o w x rs ops w' :
  valid_options o → options x = o → open_log w x rs (length rs) → Forall valid_op ops →
  let '(st, h) := wal_run ops (w, x) (history_of rs (length rs)) in
  half_rotated h = false → crash st.1 w' →
  ∃ w'' x'' rs', wal_open crc32 file_reader false o w' = (w'', inr x'') ∧
    open_log w'' x'' rs' (length rs') ∧ take (synced h) (appended h) `prefix_of` rs' ∧
    (rs' `prefix_of` appended h ∨ ∃ r, r ∈ failed h ∧ rs' = appended h ++ [r]) ∧
    ∃ rc l, records (w'', x'') = ((w'', x''), inr rc) ∧
      read_records crc32 file_reader (S (length rs')) rc w'' = (w'', map inr l) ∧
      map record l = rs' ∧ StronglySorted lsn_lt l.
Proof.
  intros Hvo Hox Ho Hops. pose proof (wal_run_inv o ops Hops (w, x) (history_of rs (length rs))) as Hrun.
  destruct (wal_run ops _ _) as [st h]. cbn [fst snd] in Hrun. intros Hhalf Hcr.
  destruct (run_inv_holds o st h) as (rs1 & Hh & Hd & Hm); [apply Hrun; [|done]; by split; [|left] |].
  destruct (open_after_crash o st.1 w' rs1 (synced h) Hvo Hh Hm Hcr)
    as (w2 & x2 & rs2 & Hopen & Ho2 & Hox2 & Hout & Hk & Hp). exists w2, x2, rs2.
  destruct (open_log_reads w2 x2 rs2 _ 1 Ho2 Hout) as (rc & l & H1 & H2 & H3 & H4); [lia |]. rewrite Nat.add_1_r in H2.
  split_and!; [done | done | | | by exists rc, l].
  - etrans; [|exact Hk]. destruct Hd as [->|(r & _ & ->)]; [done |]. rewrite take_app. by apply prefix_app_r.
  - destruct Hd as [->|(r & Hr & ->)]; [by left |]. apply prefix_of_snoc in Hp as [Hp| ->]; [by left | right; by exists r].
Qed.

(** The scan of a segment's content, and where it says the records end. *)
Definition scan_content (c : bytes) (id ss : N) : option (WalError + SegmentScan) :=
  scan_loop crc32 (S (reader_len (file_reader c))) (file_reader c) id 0 ss (vlen c).

Definition scanned_len (s : SegmentScan) : N := match s with Clean n | IncompleteTail n => n end.

Lemma scan_loop_bounds id ss pl fuel : ∀ rd off s,
  scan_loop crc32 fuel rd id off ss pl = Some (inr s) → off ≤ pl → off ≤ scanned_len s ≤ pl.
Proof.
  induction fuel as [|fuel IH]; intros rd off s; cbn [scan_loop]; [done |].
  destruct (read_one _ _ _ _ _) as [e|[[r next| |] rd']] eqn:E; [done | | |].
  - intros H _. assert (off ≤ next ≤ pl) as Hn.
    { unfold read_one, read_payload in E. cbn [offset] in E. repeat case_match; simplify_eq.
      unfold u64_checked_add in *. repeat case_match; simplify_eq. rewrite N.ltb_ge in *. lia. }
    specialize (IH _ _ _ H). lia.
  - intros [= <-] ?. cbn. lia.
  - intros [= <-] ?. cbn. lia.
Qed.

(** The scan of a segment terminates, whatever the file contains: it ends with an
    error or with a length, and the length it will truncate the segment to is never
    beyond the end of the file. *)
Theorem segment_scan_total c id ss :
  ∃ r, scan_content c id ss = Some r ∧ ∀ s, r = inr s → scanned_len s ≤ vlen c.
Proof.
  unfold scan_content. destruct (scan_loop _ _ _ _ _ _ _) as [r|] eqn:E; [|by apply scan_loop_total in E; [|lia]].
  exists r. split; [done |]. intros s ->. apply scan_loop_bounds in E; [lia | apply N.le_0_l].
Qed.

End Recovery.

(** ** Concrete logs *)

Definition demo_reader (c : bytes) : Reader := match c with [] => [] | _ => [Chunk c] end.

Lemma demo_reader_ok c : delivers (demo_reader c) c.
Proof.
  destruct c as [|b c]; [constructor |]. unfold demo_reader. rewrite <- (app_nil_r (b :: c)) at 2.
  apply delivers_chunk; [done | constructor].
Qed.

Definition demo_options : WalOptions := mkWalOptions 128 1024 false.

(** The log in a new directory. *)
Definition demo_world : World := (wal_open demo_crc demo_reader false demo_options empty_world).1.
Definition demo_wal : Wal := mkWal demo_options 0 0 0 false.

Lemma demo_options_ok : valid_options demo_options.
Proof. repeat split; vm_compute; congruence. Qed.

Lemma demo_open_log : open_log demo_crc demo_world demo_wal [] 0.
Proof.
  destruct (fresh_open_log demo_crc demo_reader demo_crc_ok demo_reader_ok demo_options demo_options_ok)
    as (w & x & Hopen & Ho & _).
  assert (demo_world = w) as -> by (unfold demo_world; by rewrite Hopen).
  assert (inr demo_wal = (wal_open demo_crc demo_reader false demo_options empty_world).2) as E by (vm_compute; reflexivity).
  rewrite Hopen in E. injection E as ->. exact Ho.
Qed.

(** A run that syncs its first record, is refused one that is too large, and goes on with
    a record it does not sync. *)
Definition demo_ops : list WalOp := [WAppend 1 [x61]; WSync; WAppend 1 (repeat x63 100); WAppend 1 [x62]].
Definition demo_run : World * Wal * History := wal_run demo_crc demo_ops (demo_world, demo_wal) (history_of [] 0).

(** The crash that tears the second record. *)
Definition demo_segment : bytes := default [] (files demo_run.1.1 !! segment_path 0).
Definition demo_crashed : World :=
  let fs := {[ segment_path 0 := take 40 demo_segment ]} in mkWorld fs fs [].

Lemma singleton_of_list (m : gmap bytes bytes) k v : map_to_list m = [(k, v)] → m = {[k := v]}.
Proof. intros H. rewrite <- (list_to_map_to_list m), H. done. Qed.

Lemma demo_crash : crash demo_run.1.1 demo_crashed.
Proof.
  assert (files demo_run.1.1 = {[ segment_path 0 := demo_segment ]}) as Hf
    by (apply singleton_of_list; vm_compute; reflexivity).
  assert (stable demo_run.1.1 = {[ segment_path 0 := take 33 demo_segment ]}) as Hs
    by (apply singleton_of_list; vm_compute; reflexivity).
  split; cbn [files stable outcomes demo_crashed]; rewrite ?Hf, ?Hs; [| |done |done].
  - intros name c' [<- <-]%lookup_singleton_Some. exists demo_segment. split; [apply lookup_singleton_eq |].
    split; [exists (drop 40 demo_segment); by rewrite take_drop |]. intros s [_ <-]%lookup_singleton_Some. apply take_prefix. lia.
  - intros name [s [<- _]%lookup_singleton_Some]. rewrite lookup_singleton_eq. by eexists.
Qed.

Lemma wal_crash_safe_witness :
  length (failed demo_run.2) = 1%nat ∧ length (appended demo_run.2) = 2%nat ∧
  ∃ w'' x'' rs', wal_open demo_crc demo_reader false demo_options demo_crashed = (w'', inr x'') ∧
    open_log demo_crc w'' x'' rs' (length rs') ∧
    take (synced demo_run.2) (appended demo_run.2) `prefix_of` rs' ∧
    (rs' `prefix_of` appended demo_run.2 ∨ ∃ r, r ∈ failed demo_run.2 ∧ rs' = appended demo_run.2 ++ [r]) ∧
    ∃ rc l, records (w'', x'') = ((w'', x''), inr rc) ∧
      read_records demo_crc demo_reader (S (length rs')) rc w'' = (w'', map inr l) ∧
      map record l = rs' ∧ StronglySorted lsn_lt l.
Proof.
  split; [vm_compute; reflexivity |]. split; [vm_compute; reflexivity |].
  pose proof (wal_crash_safe demo_crc demo_reader demo_crc_ok demo_reader_ok demo_options demo_world demo_wal [] demo_ops
    demo_crashed demo_options_ok eq_refl demo_open_log ltac:(repeat constructor)) as H.
  change (wal_run demo_crc demo_ops (demo_world, demo_wal) (history_of [] (length []))) with demo_run in H.
  rewrite (surjective_pairing demo_run) in H. exact (H eq_refl demo_crash).
Defined.

(** ** A rotation that fails half way *)

(** A log of 64-byte segments. One record fills half of segment 0. The next one
    needs a rotation, whose directory sync fails after segment 1 was created. *)
Definition rotation_options : WalOptions := mkWalOptions 64 1024 false.
Definition rotation_world : World :=
  match wal_open demo_crc demo_reader false rotation_options empty_world with
  | (w, _) => mkWorld (files w) (stable w) [Fine; Fine; Fine; Fault 0]
  end.
Definition rotation_payload : bytes := repeat x61 20.

Definition rotation_append (st : World * Wal) (p : bytes) : World * Wal := (append demo_crc 1 p st).1.
Definition rotation_end : World * Wal :=
  fold_left rotation_append [[]; rotation_payload; []] (rotation_world, mkWal rotation_options 0 0 0 false).

(** The crash loses the tail of the record that was written last. *)
Definition rotation_segment : bytes := default [] (files rotation_end.1 !! segment_path 0).
Definition rotation_crashed : World :=
  let fs := <[segment_path 1 := []]> {[ segment_path 0 := take 40 rotation_segment ]} in mkWorld fs fs [].

Lemma rotation_crash : crash rotation_end.1 rotation_crashed.
Proof.
  assert (files rotation_end.1 = <[segment_path 1 := []]> {[ segment_path 0 := rotation_segment ]}) as Hf.
  { rewrite <- (list_to_map_to_list (files rotation_end.1)).
    change {[ segment_path 0 := rotation_segment ]}
      with (<[segment_path 0 := rotation_segment]> (∅ : gmap bytes bytes)).
    rewrite <- list_to_map_nil, <- !list_to_map_cons. reflexivity. }
  assert (stable rotation_end.1 = {[ segment_path 0 := take 32 rotation_segment ]}) as Hs
    by (apply singleton_of_list; vm_compute; reflexivity).
  split; cbn [files stable outcomes rotation_crashed]; rewrite ?Hf, ?Hs; [| |done |done].
  - intros name c' [[<- <-]|[Hne [<- <-]%lookup_singleton_Some]]%lookup_insert_Some.
    + exists []. split; [apply lookup_insert_eq |]. split; [done |].
      intros s [E _]%lookup_singleton_Some. by vm_compute in E.
    + exists rotation_segment. split; [rewrite lookup_insert_ne by done; apply lookup_singleton_eq |].
      split; [exists (drop 40 rotation_segment); by rewrite take_drop |].
      intros s [_ <-]%lookup_singleton_Some. apply take_prefix. lia.
  - intros name [s [<- _]%lookup_singleton_Some]. rewrite lookup_insert_ne by (intros E; by vm_compute in E).
    rewrite lookup_singleton_eq. by eexists.
Qed.

(** C36: [append] after a failed rotation breaks recovery. The failed rotation leaves
    the handle healthy and segment 1 behind; the next record goes to segment 0, and a
    crash that tears it makes reopening fail with [CorruptRecord] although it is the
    unsynced end of the log. *)
Theorem failed_rotation_breaks_recovery :
  let half := rotation_append (rotation_world, mkWal rotation_options 0 0 0 false) [] in
  let failed := append demo_crc 1 rotation_payload half in
  failed.2 = inl Io ∧ poisoned failed.1.2 = false ∧
  (append demo_crc 1 [] failed.1).2 = inr (mkLsn 0 32) ∧
  (append demo_crc 1 [] failed.1).1 = rotation_end ∧
  crash rotation_end.1 rotation_crashed ∧
  (wal_open demo_crc demo_reader false rotation_options rotation_crashed).2 =
    inl (CorruptRecord (mkLsn 0 32) IncompleteRecord).
Proof.
  split_and!; [vm_compute; reflexivity | vm_compute; reflexivity | vm_compute; reflexivity | reflexivity | exact rotation_crash | vm_compute; reflexivity].
Qed.
