(* ===== verification/WalSize.v ===== *)
(** * The disk usage of the write-ahead log

    cloud9-wal/src/wal.rs limits the size of a segment and that of the whole log. The
    invariant [sized] relates the counters of the handle to the files; it needs nothing of
    what the files contain, and holds between all operations, whichever of them have
    failed and in whichever way. *)

From S2P Require Import Prelude WalFormat Wal WalRecovery.
From Stdlib Require Import Strings.Byte.

Open Scope N_scope.

(** The bytes of all segment files. *)
Definition file_size (name c : bytes) : N := if is_segment name then vlen c else 0.

Definition disk_usage (fs : gmap bytes bytes) : N := map_fold (fun name c n => file_size name c + n) 0 fs.

Definition content (w : World) (id : N) : bytes := default [] (files w !! segment_path id).

(** The files of a log and the counters of its handle. *)
Record sized (w : World) (x : Wal) : Prop := {
  sz_segment : ∀ name c, files w !! name = Some c → is_segment name = true → vlen c ≤ segment_size (options x);
  sz_usage : disk_usage (files w) ≤ max_size (options x);
  sz_total : poisoned x = false → disk_usage (files w) = total_len x;
  sz_active : poisoned x = false → vlen (content w (active_id x)) = active_len x;
  sz_ahead : ∀ id, active_id x < id < u64_modulus → content w id = [];
  sz_id : active_id x < u64_modulus
}.

(** ** Sums over the files *)

Lemma disk_usage_insert fs name c :
  disk_usage (<[name := c]> fs) + file_size name (default [] (fs !! name)) = disk_usage fs + file_size name c.
Proof.
  assert (∀ fs c, fs !! name = None → disk_usage (<[name := c]> fs) = file_size name c + disk_usage fs) as Hnew.
  { intros fs' c' Hn. apply (map_fold_insert_L (fun name c n => file_size name c + n)); [intros; lia | done]. }
  destruct (fs !! name) as [old|] eqn:E; cbn [default id].
  - pose proof (Hnew (delete name fs) c (lookup_delete_eq _ _)) as Hc. pose proof (Hnew (delete name fs) old (lookup_delete_eq _ _)) as Ho.
    rewrite insert_delete_eq in Hc. rewrite insert_delete_id in Ho by done. lia.
  - rewrite Hnew by done. assert (file_size name [] = 0) as -> by (unfold file_size; by case_match). lia.
Qed.

Lemma disk_usage_none fs : (∀ name, is_Some (fs !! name) → is_segment name = false) → disk_usage fs = 0.
Proof.
  intros H. unfold disk_usage. apply (map_fold_weak_ind (fun n m => (∀ name, is_Some (m !! name) → is_segment name = false) → n = 0)); [done | |done].
  intros name c m n Hn IH Hm. rewrite IH.
  - unfold file_size. rewrite Hm; [done |]. rewrite lookup_insert_eq. by eexists.
  - intros name' Hs. apply Hm. rewrite lookup_insert_is_Some. destruct (decide (name = name')); [by left | by right].
Qed.

Section Sizes.

Context (crc32 : bytes → N).

Local Abbreviation encs := (encs crc32).

Lemma disk_usage_numbered segs : ∀ fs,
  numbered fs (length segs) → (∀ i rs, segs !! i = Some rs → fs !! segment_path (N.of_nat i) = Some (encs rs)) →
  disk_usage fs = vlen (encs (concat segs)).
Proof.
  induction segs as [|rs segs IH] using rev_ind; intros fs (Hn1 & Hn2 & Hn3) Hf.
  { apply disk_usage_none. intros name Hs. apply not_true_iff_false. intros Hseg. destruct (Hn2 name Hs Hseg) as (i & Hi & _). cbn in Hi. lia. }
  rewrite length_app, Nat.add_1_r in *. set (name := segment_path (N.of_nat (length segs))).
  assert (fs !! name = Some (encs rs)) as Hname by (apply Hf; by apply list_lookup_middle).
  pose proof (disk_usage_insert (delete name fs) name (encs rs)) as Hsum.
  rewrite insert_delete_id, lookup_delete_eq in Hsum by done.
  assert (∀ c, file_size name c = vlen c) as Hsize by (intros c; unfold file_size, name; by rewrite is_segment_path).
  rewrite !Hsize in Hsum. change (vlen (default ([] : bytes) None)) with 0 in Hsum.
  assert (∀ i, (i < length segs)%nat → segment_path (N.of_nat i) ≠ name) as Hne.
  { intros i Hi Heq. apply segment_path_inj in Heq; lia. }
  rewrite (IH (delete name fs)) in Hsum.
  - rewrite concat_app, encs_app, vlen_app. cbn [concat]. rewrite app_nil_r. lia.
  - split_and!; [| |lia].
    + intros i Hi. rewrite lookup_delete_ne by (intros ?; by eapply Hne). apply Hn1. lia.
    + intros name' Hs Hseg. apply lookup_delete_is_Some in Hs as [Hd Hs]. destruct (Hn2 name' Hs Hseg) as (i & Hi & ->).
      exists i. split; [|done]. destruct (decide (i = length segs)) as [->|]; [done | lia].
  - intros i rs' Hi. rewrite lookup_delete_ne by (intros ?; by eapply Hne; [eapply lookup_lt_Some |]).
    apply Hf. by apply lookup_app_l_Some.
Qed.

(** An open log is sized. *)
Lemma open_log_sized w x rs k : open_log crc32 w x rs k → sized w x.
Proof.
  intros (init & lst & n & [Hd Hh Hid Hlen [Ht Hm] Hmax] & _). pose proof Hd as [_ Hnum Hinit Hlast [Hvi [_ Hvl]] _].
  rewrite app_nil_r in Hlast. pose proof Hnum as (_ & Hn & Hn3).
  assert (∀ i rs, (init ++ [lst]) !! i = Some rs →
    files w !! segment_path (N.of_nat i) = Some (encs rs) ∧ vlen (encs rs) ≤ segment_size (options x)) as Hall.
  { intros i rs' [[_ Hi]|[-> <-]]%lookup_snoc_Some; [|done]. split; [by apply Hinit |]. by eapply (Forall_lookup_1 _ _ _ _ Hvi). }
  assert (disk_usage (files w) = total_len x) as Hu.
  { rewrite (disk_usage_numbered (init ++ [lst])).
    - rewrite Ht. unfold total_size. rewrite concat_app. cbn. by rewrite app_nil_r.
    - rewrite length_app, Nat.add_1_r. done.
    - intros i rs' Hi. by apply Hall. }
  split; [| lia | done | | | lia].
  - intros name c Hc Hs. destruct (Hn name (ex_intro _ c Hc) Hs) as (i & Hi & ->).
    destruct (lookup_lt_is_Some_2 (init ++ [lst]) i) as [rs' Hrs]; [rewrite length_app; cbn; lia |].
    destruct (Hall _ _ Hrs) as [Hc' ?]. rewrite Hc' in Hc. by injection Hc as <-.
  - intros _. unfold content. by rewrite Hid, Hlast.
  - intros id Hlt. unfold content. destruct (files w !! segment_path id) as [c|] eqn:E; [|done].
    destruct (Hn _ (ex_intro _ c E) (is_segment_path id)) as (i & Hi & Heq). apply segment_path_inj in Heq; lia.
Qed.

(** *** The operations *)

Lemma sized_files w w' x : files w' = files w → sized w x → sized w' x.
Proof. intros Hf [H1 H2 H3 H4 H5 H6]. split; unfold content in *; rewrite ?Hf; done. Qed.

Lemma sized_poisoned w x : sized w x → sized w (set_poisoned x).
Proof. by intros [H1 H2 H3 H4 H5 H6]. Qed.

(** The active file gets the bytes [bs]. *)
Lemma sized_write w w' x bs :
  sized w x → poisoned x = false → active_len x + vlen bs ≤ segment_size (options x) →
  total_len x + vlen bs ≤ max_size (options x) →
  files w' = <[segment_path (active_id x) := content w (active_id x) ++ bs]> (files w) →
  sized w' (mkWal (options x) (active_id x) (active_len x + vlen bs) (total_len x + vlen bs) false) ∧
  sized w' (set_poisoned x).
Proof.
  intros [H1 H2 H3 H4 H5 H6] Hh Hs Hm Hf. specialize (H3 Hh). specialize (H4 Hh).
  pose proof (disk_usage_insert (files w) (segment_path (active_id x)) (content w (active_id x) ++ bs)) as Hu.
  rewrite <- Hf in Hu. unfold file_size in Hu. rewrite is_segment_path in Hu. fold (content w (active_id x)) in Hu. rewrite vlen_app in Hu.
  assert (∀ name c, files w' !! name = Some c → is_segment name = true → vlen c ≤ segment_size (options x)) as Hseg.
  { intros name c. rewrite Hf. intros [[<- <-]|[_ Hc]]%lookup_insert_Some Hn; [rewrite vlen_app; lia | by eapply H1]. }
  assert (∀ id, active_id x < id < u64_modulus → content w' id = []) as Hahead.
  { intros id Hid. unfold content. rewrite Hf, lookup_insert_ne; [by apply H5 |]. intros Heq. apply segment_path_inj in Heq; lia. }
  assert (vlen (content w' (active_id x)) = active_len x + vlen bs) as Hact.
  { unfold content at 1. rewrite Hf, lookup_insert_eq. cbn. rewrite vlen_app. lia. }
  split; split; cbn; done || (intros; lia).
Qed.

Lemma sync_sized w x : sized w x →
  let '((w', x'), r) := sync (w, x) in
  sized w' x' ∧ options x' = options x ∧ total_len x' = total_len x ∧ (r = inr tt → x' = x).
Proof.
  intros H. unfold sync, mbind, m_bind, ensure_healthy, prim. cbn [fst snd]. destruct (poisoned x) eqn:Hp; [done |].
  unfold syscall. destruct (next_outcome w) as [w1 o] eqn:E. destruct (next_outcome_world _ _ _ E) as [Hf _].
  destruct o as [|n]; split_and!; try done; [|apply sized_poisoned; by apply (sized_files w)].
  apply (sized_files w); [|done]. rewrite <- Hf. unfold sync_file. by destruct (files w1 !! _).
Qed.

(** An empty file appears behind the active one, and may become the active one. *)
Lemma sized_rotate w w' x id :
  sized w x → poisoned x = false → id = active_id x + 1 → id < u64_modulus →
  files w' = files w ∨ files w' = <[segment_path id := []]> (files w) ∧ files w !! segment_path id = None →
  sized w' x ∧ sized w' (mkWal (options x) id 0 (total_len x) (poisoned x)).
Proof.
  intros [H1 H2 H3 H4 H5 H6] Hh -> Hid Hf.
  assert (∀ i, content w' i = content w i) as Hcont.
  { intros i. unfold content. destruct Hf as [->|[-> Hn]]; [done |].
    destruct (decide (segment_path (active_id x + 1) = segment_path i)) as [<-|Hne]; [by rewrite lookup_insert_eq, Hn | by rewrite lookup_insert_ne]. }
  assert (disk_usage (files w') = disk_usage (files w)) as Hu.
  { destruct Hf as [->|[-> Hn]]; [done |]. pose proof (disk_usage_insert (files w) (segment_path (active_id x + 1)) []) as Hi.
    rewrite Hn in Hi. change (default ([] : bytes) None) with ([] : bytes) in Hi. lia. }
  assert (∀ name c, files w' !! name = Some c → is_segment name = true → vlen c ≤ segment_size (options x)) as Hseg.
  { intros name c Hc Hn. destruct Hf as [Hf|[Hf _]]; rewrite Hf in Hc; [by eapply H1 |].
    apply lookup_insert_Some in Hc as [[_ <-]|[_ Hc]]; [apply N.le_0_l | by eapply H1]. }
  split; split; cbn; rewrite ?Hu, ?Hcont; try done.
  - intros i Hi. rewrite Hcont. by apply H5.
  - intros _. by rewrite H5 by lia.
  - intros i Hi. rewrite Hcont. apply H5. lia.
Qed.

Lemma rotate_sized w x : sized w x →
  let '((w', x'), r) := rotate_segment (w, x) in
  sized w' x' ∧ options x' = options x ∧ total_len x' = total_len x ∧
  (r = inr tt → poisoned x' = poisoned x ∧ active_len x' = 0).
Proof.
  intros H. unfold rotate_segment, mbind, m_bind. pose proof (sync_sized w x H) as Hs.
  destruct (sync (w, x)) as [[w1 x1] [e|[]]] eqn:Es; [destruct Hs as (? & ? & ? & _); by split_and! |].
  destruct Hs as (H1 & _ & _ & Hx). rewrite (Hx eq_refl) in *. clear Hx.
  assert (poisoned x = false) as Hh.
  { unfold sync, mbind, m_bind, ensure_healthy in Es. cbn [fst snd] in Es. by destruct (poisoned x). }
  unfold the_wal, throw, u64_checked_add. cbn [fst snd].
  destruct (N.ltb_spec (active_id x + 1) u64_modulus) as [Hlt|]; [|by split_and!].
  unfold in_world, open_segment, sync_dir, syscall. cbn [fst snd].
  destruct (next_outcome w1) as [w2 o2] eqn:E2. destruct (next_outcome_world _ _ _ E2) as [Hf2 _].
  destruct o2 as [|n]; [|split_and!; [by apply (sized_files w1) | done..]]. rewrite Hf2.
  set (w3 := match files w1 !! _ with Some _ => w2 | None => _ end).
  assert (files w3 = files w1 ∨ files w3 = <[segment_path (active_id x + 1) := []]> (files w1) ∧
    files w1 !! segment_path (active_id x + 1) = None) as Hf3.
  { unfold w3. destruct (files w1 !! segment_path (active_id x + 1)); [by left | right]. cbn. by rewrite Hf2. }
  cbn [fst snd]. destruct (next_outcome w3) as [w4 o4] eqn:E4. destruct (next_outcome_world _ _ _ E4) as [Hf4 _].
  rewrite <- Hf4 in Hf3. destruct (sized_rotate w1 w4 x _ H1 Hh eq_refl Hlt Hf3) as [Hs1 Hs2].
  destruct o4 as [|n]; cbn; [|by split_and!]. split_and!; [|done..]. by apply (sized_files w4).
Qed.

Lemma rotate_if_needed_sized w x len : sized w x → poisoned x = false →
  let '((w', x'), r) := rotate_if_needed len (w, x) in
  sized w' x' ∧ options x' = options x ∧ total_len x' = total_len x ∧
  (r = inr tt → poisoned x' = false ∧ active_len x' + len ≤ segment_size (options x)).
Proof.
  intros H Hh. unfold rotate_if_needed, mbind, m_bind, the_wal, throw, mret, m_ret. cbn [fst snd].
  destruct (N.ltb_spec (segment_size (options x)) len) as [|Hle]; [by split_and! |].
  unfold u64_checked_add. destruct (N.ltb_spec (active_len x + len) u64_modulus); [|by split_and!].
  destruct (negb (active_len x =? 0) && (segment_size (options x) <? active_len x + len)) eqn:En.
  - pose proof (rotate_sized w x H) as Hr. destruct (rotate_segment (w, x)) as [[w1 x1] r].
    destruct Hr as (H1 & H2 & H3 & H4). split_and!; try done.
    intros Hr. destruct (H4 Hr) as [Hp Hz]. split; [congruence | lia].
  - split_and!; try done. intros _. split; [done |].
    apply andb_false_iff in En as [En%negb_false_iff%N.eqb_eq|En%N.ltb_ge]; lia.
Qed.

(** Whatever the outcome of an append, the files and the counters agree. *)
Lemma append_sized w x k p : sized w x →
  let '((w', x'), r) := append crc32 k p (w, x) in sized w' x' ∧ options x' = options x.
Proof.
  intros H. unfold append, mbind, m_bind, ensure_healthy, the_wal, lift_result, throw, prim. cbn [fst snd].
  destruct (poisoned x) eqn:Hh; [done |]. rewrite encode_record_eq. unfold encoded_len.
  destruct (N.leb_spec u32_modulus (vlen p)) as [|Hp]; [done |]. unfold u64_checked_add.
  destruct (N.ltb_spec (HEADER_LEN_U64 + vlen p) u64_modulus) as [_|]; [|done]. unfold checked_add_len at 1, u64_checked_add.
  destruct (N.ltb_spec (total_len x + (HEADER_LEN_U64 + vlen p)) u64_modulus); [|done].
  destruct (N.ltb_spec (max_size (options x)) (total_len x + (HEADER_LEN_U64 + vlen p))) as [|Hmax]; [done |].
  pose proof (rotate_if_needed_sized w x (HEADER_LEN_U64 + vlen p) H Hh) as Hr.
  destruct (rotate_if_needed _ (w, x)) as [[w1 x1] [e|[]]]; destruct Hr as (H1 & Ho1 & Ht1 & Hfit); [done |].
  destruct (Hfit eq_refl) as [Hh1 Hlen]. rewrite <- Ho1 in Hlen, Hmax. set (bs := record_header crc32 k p ++ p). cbn [fst snd].
  assert (vlen bs = HEADER_LEN_U64 + vlen p) as Hbs by (unfold bs, vlen; rewrite length_app, record_header_length; size_lia).
  unfold checked_add_len, u64_checked_add. destruct (N.ltb_spec (active_len x1 + vlen bs) u64_modulus); [|done].
  unfold write_or_poison. cbn [fst snd]. destruct (next_outcome w1) as [w2 o] eqn:Eo.
  destruct (next_outcome_world _ _ _ Eo) as [Hf2 _]. fold (content w1 (active_id x1)). destruct o as [|n].
  - set (w3 := set_file _ _ w2). destruct (sized_write w1 w3 x1 bs H1 Hh1) as [Hs _]; [lia | lia | cbn; by rewrite Hf2 |].
    rewrite Hbs, Ht1 in Hs. cbn [fst snd]. rewrite Hbs, Hh1. destruct (sync_on_append (options x1)); [|done].
    pose proof (sync_sized w3 _ Hs) as Hsync. destruct (sync _) as [[w4 x4] [e|[]]]; destruct Hsync as (Hs4 & Ho4 & _); cbn in Ho4; by split; [|congruence].
  - destruct (sized_write w1 (set_file (segment_path (active_id x1)) (content w1 (active_id x1) ++ take n bs) w2) x1 (take n bs) H1 Hh1)
      as [_ Hs]; [| | cbn; by rewrite Hf2 | done]; assert (vlen (take n bs) ≤ vlen bs) by (unfold vlen; rewrite length_take; lia); lia.
Qed.

Lemma wal_run_sized ops : ∀ w x h,
  sized w x → sized (wal_run crc32 ops (w, x) h).1.1 (wal_run crc32 ops (w, x) h).1.2 ∧
  options (wal_run crc32 ops (w, x) h).1.2 = options x.
Proof.
  induction ops as [|[k p|] ops IH]; intros w x h H; cbn [wal_run]; [done | |].
  - pose proof (append_sized w x k p H) as Ha. destruct (append crc32 k p (w, x)) as [[w1 x1] [e|l]];
      destruct Ha as [H1 <-]; by apply IH.
  - pose proof (sync_sized w x H) as Hs. destruct (sync (w, x)) as [[w1 x1] [e|[]]];
      destruct Hs as (H1 & <- & _); by apply IH.
Qed.

(** ** Theorem *)

(** C25: disk usage. Take an open log and run any appends and syncs on it, with any system
    call failing half way, going on after every failure (refused records, failed writes,
    syncs and rotations): no segment file ever exceeds the segment size, and all segment
    files together never exceed the maximal size of the log, with the bytes of records
    that were not completely written included. *)
Theorem wal_sizes_bounded w x rs k ops h :
  open_log crc32 w x rs k →
  let w' := (wal_run crc32 ops (w, x) h).1.1 in
  (∀ name c, files w' !! name = Some c → is_segment name = true → vlen c ≤ segment_size (options x)) ∧
  disk_usage (files w') ≤ max_size (options x).
Proof.
  intros Ho w'. destruct (wal_run_sized ops w x h (open_log_sized w x rs k Ho)) as [[H1 H2 _ _ _ _] Hop].
  rewrite Hop in H1, H2. done.
Qed.

End Sizes.

(** Three records in segments of 128 bytes, with a record that is refused and a rotation that
    fails after it has created its segment. *)
Lemma wal_sizes_bounded_witness :
  let w := Wal.mkWorld (files demo_world) (stable demo_world) [Fine; Fine; Fine; Fault 0] in
  let ops := [WAppend 1 (repeat x61 40); WAppend 1 (repeat x62 200); WAppend 1 (repeat x63 40); WAppend 1 (repeat x63 40)] in
  let run := wal_run demo_crc ops (w, demo_wal) (history_of [] 0) in
  half_rotated run.2 = true ∧ length (appended run.2) = 2%nat ∧
  (∀ name c, files run.1.1 !! name = Some c → is_segment name = true → vlen c ≤ 128) ∧
  disk_usage (files run.1.1) ≤ 1024.
Proof.
  intros w ops run. split; [vm_compute; reflexivity |]. split; [vm_compute; reflexivity |].
  exact (wal_sizes_bounded demo_crc w demo_wal [] 0 ops (history_of [] 0) (open_log_outcomes demo_crc _ _ _ _ _ demo_open_log)).
Defined.
