(* ===== verification/WalDir.v ===== *)
(** * The directory of the write-ahead log

    [absolute_path] of cloud9-wal/src/wal.rs, [create_dir_all] and [lock] of
    segment.rs: what happens before [Wal.recover]. A directory that was created
    survives a crash of the machine once the directory it is in has been synced.
    Paths are absolute, without [.] and [..], as the list of their components with
    the last one first. Every system call may fail. *)

From S2P Require Import Prelude WalFormat Wal.

Open Scope N_scope.

Abbreviation path := (list bytes).

(** [Path::parent] of an absolute path. *)
Definition parent (p : path) : option path := match p with [] => None | _ :: q => Some q end.

(** The path and the directories it is in, up to the root. *)
Fixpoint ancestors (p : path) : list path := match p with [] => [[]] | _ :: q => p :: ancestors q end.

(** The directories the process sees, those whose entry is on stable storage, the
    directories whose lock file is locked, and the outcomes of the calls to come. *)
Record Dirs := mkDirs {
  existing : gset path;
  durable : gset path;
  held : gset path;
  current_dir : path;
  dir_outcomes : list Outcome
}.

Definition next_dir_outcome (w : Dirs) : Dirs * Outcome :=
  match dir_outcomes w with
  | [] => (w, Fine)
  | o :: rest => (mkDirs (existing w) (durable w) (held w) (current_dir w) rest, o)
  end.

Definition set_existing (w : Dirs) (s : gset path) : Dirs :=
  mkDirs s (durable w) (held w) (current_dir w) (dir_outcomes w).
Definition set_durable (w : Dirs) (s : gset path) : Dirs :=
  mkDirs (existing w) s (held w) (current_dir w) (dir_outcomes w).
Definition set_held (w : Dirs) (s : gset path) : Dirs :=
  mkDirs (existing w) (durable w) s (current_dir w) (dir_outcomes w).

(** A call that reads [f] of the directories. *)
Definition ask {A} (f : Dirs → A) : M Dirs A := fun w =>
  match next_dir_outcome w with
  | (w, Fine) => (w, inr (f w))
  | (w, Fault _) => (w, inl Io)
  end.

Inductive PathArg := Absolute (p : path) | Relative (components : list bytes).

Definition absolute_path (a : PathArg) : M Dirs path :=
  match a with
  | Absolute p => mret p
  | Relative cs => cwd ← ask current_dir; mret (rev cs ++ cwd)
  end.

Definition try_exists (p : path) : M Dirs bool := ask (fun w => bool_decide (p ∈ existing w)).

(** The missing directories of a path, nearest to the root first. *)
Definition missing_dirs (w : Dirs) (p : path) : list path :=
  rev (List.filter (fun q => negb (bool_decide (q ∈ existing w))) (ancestors p)).

(** [std::fs::create_dir_all]; when it fails it may have created some of the missing
    directories. *)
Definition fs_create_dir_all (p : path) : M Dirs unit := fun w =>
  match next_dir_outcome w with
  | (w, Fine) => (set_existing w (existing w ∪ list_to_set (ancestors p)), inr tt)
  | (w, Fault n) => (set_existing w (existing w ∪ list_to_set (take n (missing_dirs w p))), inl Io)
  end.

(** The entries of the directory reach stable storage. *)
Definition sync_directory (p : path) : M Dirs unit := fun w =>
  match next_dir_outcome w with
  | (w, Fine) =>
      if bool_decide (p ∈ existing w)
      then (set_durable w (durable w ∪ filter (fun q => parent q = Some p) (existing w)), inr tt)
      else (w, inl Io)
  | (w, Fault _) => (w, inl Io)
  end.

(** The [while] loop of [create_dir_all]. *)
Fixpoint find_missing (missing : list path) (cursor : path) : M Dirs (list path) :=
  e ← try_exists cursor;
  if (e : bool) then mret missing
  else match cursor with
       | [] => throw SegmentIdExhausted
       | _ :: up => find_missing (missing ++ [cursor]) up
       end.

(** Its [for] loop. *)
Fixpoint sync_parents (created : list path) : M Dirs unit :=
  match created with
  | [] => mret tt
  | q :: rest =>
      match parent q with
      | None => throw SegmentIdExhausted
      | Some up => _ ← sync_directory up; sync_parents rest
      end
  end.

Definition create_dir_all (p : path) : M Dirs unit :=
  missing ← find_missing [] p;
  _ ← fs_create_dir_all p;
  sync_parents (rev missing).

(** Opening the lock file and [File::try_lock]. *)
Definition lock (dir : path) : M Dirs unit :=
  _ ← ask (fun _ => tt);
  prim (fun w =>
    if bool_decide (dir ∈ held w) then (w, inl Locked)
    else match next_dir_outcome w with
         | (w, Fine) => (set_held w ({[dir]} ∪ held w), inr tt)
         | (w, Fault _) => (w, inl Io)
         end).

(** The start of [Wal::open]. *)
Definition open_dir (a : PathArg) (o : WalOptions) : M Dirs path :=
  _ ← lift_result (validate_options o);
  dir ← absolute_path a;
  _ ← create_dir_all dir;
  _ ← lock dir;
  mret dir.

(** ** Facts *)

(** Every directory is in a directory, and its entry is on stable storage. *)
Record settled (w : Dirs) : Prop := {
  se_root : [] ∈ existing w;
  se_parent : ∀ c q, c :: q ∈ existing w → q ∈ existing w;
  se_durable : ∀ c q, c :: q ∈ existing w → c :: q ∈ durable w
}.

Lemma next_dir_outcome_frame w w' o :
  next_dir_outcome w = (w', o) → existing w' = existing w ∧ durable w' = durable w ∧ held w' = held w.
Proof. unfold next_dir_outcome. destruct (dir_outcomes w); by intros [= <- <-]. Qed.

Lemma ask_ok {A} (f : Dirs → A) w w' x :
  ask f w = (w', inr x) → existing w' = existing w ∧ durable w' = durable w ∧ held w' = held w ∧ x = f w'.
Proof.
  unfold ask. destruct (next_dir_outcome w) as [w1 [|]] eqn:E; [|done]. intros [= <- <-].
  destruct (next_dir_outcome_frame _ _ _ E) as (? & ? & ?). done.
Qed.

Lemma bind_inr {S A B} (m : M S A) (k : A → M S B) s s' y :
  (x ← m; k x) s = (s', inr y) → ∃ x s1, m s = (s1, inr x) ∧ k x s1 = (s', inr y).
Proof. unfold mbind, m_bind. destruct (m s) as [s1 [e|x]]; [done |]. eauto. Qed.

Lemma ancestors_self p : p ∈ ancestors p.
Proof. destruct p; left. Qed.

Lemma ancestors_parent p : ∀ c q, c :: q ∈ ancestors p → q ∈ ancestors p.
Proof.
  induction p as [|d p IH]; intros c q; simpl; [by intros ?%list_elem_of_singleton |].
  intros [[= -> ->]|H]%elem_of_cons; right; [apply ancestors_self | by eapply IH].
Qed.

Lemma ancestors_root p : [] ∈ ancestors p.
Proof. induction p; [left | by right]. Qed.

Lemma ancestors_exist (s : gset path) p :
  (∀ c q, c :: q ∈ s → q ∈ s) → p ∈ s → ∀ q, q ∈ ancestors p → q ∈ s.
Proof.
  intros Hup. induction p as [|c p IH]; intros Hp q; simpl; [by intros ->%list_elem_of_singleton |].
  intros [->|Hq]%elem_of_cons; [done |]. apply IH; [by eapply Hup | done].
Qed.

(** The loop returns the missing directories of the path. *)
Lemma find_missing_spec p : ∀ missing w w' m,
  find_missing missing p w = (w', inr m) → (∀ c q, c :: q ∈ existing w → q ∈ existing w) →
  existing w' = existing w ∧ durable w' = durable w ∧ held w' = held w ∧
  ∃ m', m = missing ++ m' ∧ (∀ q, q ∈ ancestors p → q ∈ existing w ∨ q ∈ m') ∧ (∀ q, q ∈ m' → q ∈ ancestors p ∧ q ≠ []).
Proof.
  induction p as [|c p IH]; intros missing w w' m H Hup; cbn [find_missing] in H;
    apply bind_inr in H as (e & w1 & (H1 & H2 & H3 & ->)%ask_ok & H);
    case_bool_decide as Hex; try done;
    try (injection H as <- <-; split_and!; [done.. |]; exists []; rewrite app_nil_r; split_and!; [done | | by intros ? ?%elem_of_nil]).
  - intros q ->%list_elem_of_singleton. left. by rewrite <- H1.
  - intros q Hq. left. rewrite H1 in Hex. by eapply ancestors_exist.
  - apply IH in H as (F1 & F2 & F3 & m' & -> & Hall & Hm'); [|by rewrite H1].
    split_and!; [congruence.. |]. exists ((c :: p) :: m'). rewrite <- app_assoc. split_and!; [done | |].
    + intros q [->|Hq]%elem_of_cons; [right; left |]. destruct (Hall q Hq); [left; by rewrite <- H1 | right; by right].
    + intros q [->|Hq]%elem_of_cons; [split; [left | done] |]. destruct (Hm' q Hq). split; [by right | done].
Qed.

Lemma sync_parents_spec created : ∀ w w',
  sync_parents created w = (w', inr tt) → (∀ q, q ∈ created → q ∈ existing w) →
  existing w' = existing w ∧ (∀ q, q ∈ durable w → q ∈ durable w') ∧ (∀ q, q ∈ created → q ∈ durable w').
Proof.
  induction created as [|q created IH]; intros w w' H Hex; simpl in H.
  { injection H as <-. split_and!; [done | done | by intros q ?%elem_of_nil]. }
  destruct (parent q) as [up|] eqn:Hp; [|done]. apply bind_inr in H as ([] & w1 & Hs & H).
  unfold sync_directory in Hs. destruct (next_dir_outcome w) as [w2 [|]] eqn:E; [|done].
  destruct (next_dir_outcome_frame _ _ _ E) as (E1 & E2 & _). case_bool_decide; [|done]. injection Hs as <-.
  assert (q ∈ existing w2) as Hq by (rewrite E1; apply Hex; left).
  apply IH in H as (F1 & F2 & F3); [|intros r Hr; simpl; rewrite E1; apply Hex; by right]. simpl in *.
  split_and!; [congruence | intros r Hr; apply F2; rewrite E2; set_solver |].
  intros r [->|Hr]%elem_of_cons; [|by apply F3]. apply F2, elem_of_union. right. by apply elem_of_filter.
Qed.

(** Creating the directory of the log. From a state in which every directory is durable,
    a successful [create_dir_all] leaves one in which the path exists, with all the
    directories it is in, and again every directory is durable: no crash loses it. *)
Theorem create_dir_all_durable p w w' :
  settled w → create_dir_all p w = (w', inr tt) →
  settled w' ∧ p ∈ existing w' ∧ ∀ q, q ∈ existing w → q ∈ existing w'.
Proof.
  intros [Sr Sp Sd] H. unfold create_dir_all in H. apply bind_inr in H as (m & w1 & Hm & H).
  apply find_missing_spec in Hm as (E1 & E2 & _ & m' & -> & Hall & Hm'); [|done]. simpl in H.
  apply bind_inr in H as ([] & w2 & Hc & H). unfold fs_create_dir_all in Hc.
  destruct (next_dir_outcome w1) as [w3 [|]] eqn:E; [|done]. injection Hc as <-.
  destruct (next_dir_outcome_frame _ _ _ E) as (F1 & F2 & _). rewrite E1 in F1. rewrite E2 in F2.
  assert (∀ q, q ∈ rev m' ↔ q ∈ m') as Hrev by (intros q; by rewrite !list_elem_of_In, <- in_rev).
  apply sync_parents_spec in H as (G1 & G2 & G3); simpl in *; cycle 1.
  { intros q Hq%Hrev. rewrite elem_of_union, elem_of_list_to_set. right. by apply Hm'. }
  rewrite F1 in G1. rewrite F2 in G2.
  assert (∀ q, q ∈ existing w' ↔ q ∈ existing w ∨ q ∈ ancestors p) as Hex
    by (intros q; by rewrite G1, elem_of_union, elem_of_list_to_set).
  split_and!; [split | apply Hex; right; apply ancestors_self | intros q Hq; apply Hex; by left].
  - apply Hex. right. apply ancestors_root.
  - intros c q [Hq|Hq]%Hex; apply Hex; [left; by eapply Sp | right; by eapply ancestors_parent].
  - intros c q [Hq|Hq]%Hex; [by apply G2, Sd |]. destruct (Hall _ Hq) as [?|?]; [by apply G2, Sd | by apply G3, Hrev].
Qed.

(** A machine with a root directory only; [/a/b] is created. *)
Definition bare (outcomes : list Outcome) : Dirs := mkDirs {[ [] ]} ∅ ∅ [] outcomes.
Definition demo_dir : path := [[Byte.x62]; [Byte.x61]].

Lemma bare_settled os : settled (bare os).
Proof. split; simpl; set_solver. Qed.

Lemma create_dir_all_durable_witness :
  demo_dir ∈ durable (create_dir_all demo_dir (bare [])).1 ∧ [[Byte.x61]] ∈ durable (create_dir_all demo_dir (bare [])).1.
Proof.
  destruct (create_dir_all_durable demo_dir (bare []) (create_dir_all demo_dir (bare [])).1 (bare_settled []))
    as ([_ Hp Hd] & He & _); [vm_compute; reflexivity |].
  split; apply Hd; [exact He | eapply Hp, He].
Defined.

(** Later calls meet other outcomes. *)
Definition with_outcomes (w : Dirs) (os : list Outcome) : Dirs :=
  mkDirs (existing w) (durable w) (held w) (current_dir w) os.

(** A path that exists is found at once. *)
Lemma create_existing p w w' r :
  (∀ q, q ∈ ancestors p → q ∈ existing w) → create_dir_all p w = (w', r) →
  (dir_outcomes w = [] → r = inr tt) ∧ durable w' = durable w ∧ (r = inr tt → existing w' = existing w).
Proof.
  intros Hall'. pose proof (Hall' p (ancestors_self p)) as Hp.
  assert (existing w ∪ list_to_set (ancestors p) = existing w) as Hall.
  { apply set_eq. intros q. rewrite elem_of_union, elem_of_list_to_set. naive_solver. }
  unfold create_dir_all, mbind, m_bind.
  assert (find_missing [] p w = match next_dir_outcome w with (w1, Fine) => (w1, inr []) | (w1, Fault _) => (w1, inl Io) end) as ->.
  { assert (∀ w1, existing w1 = existing w → bool_decide (p ∈ existing w1) = true) as Hd
      by (intros w1 ->; by apply bool_decide_true).
    destruct p; cbn [find_missing]; unfold try_exists, ask, mbind, m_bind;
      destruct (next_dir_outcome w) as [w1 [|]] eqn:E; try done; rewrite Hd; try done; by apply next_dir_outcome_frame in E as (? & _). }
  destruct (next_dir_outcome w) as [w1 o1] eqn:E1. pose proof (next_dir_outcome_frame _ _ _ E1) as (F1 & F2 & _).
  unfold next_dir_outcome in E1. destruct o1 as [|n1]; cbn [rev sync_parents];
    [|intros [= <- <-]; split_and!; [by intros E; rewrite E in E1 | done | done]].
  unfold fs_create_dir_all. destruct (next_dir_outcome w1) as [w2 o2] eqn:E2.
  pose proof (next_dir_outcome_frame _ _ _ E2) as (G1 & G2 & _). unfold next_dir_outcome in E2.
  destruct o2 as [|n2]; intros [= <- <-]; cbn [durable existing set_existing].
  - split_and!; [done | congruence | intros _; congruence].
  - split_and!; [|congruence | done]. intros E. rewrite E in E1. injection E1 as <-. by rewrite E in E2.
Qed.

(** The syncs that succeed before one fails do not reach the directory it was for. *)
Lemma sync_parents_fails created : ∀ w w' e,
  NoDup created → sync_parents created w = (w', inl e) →
  existing w' = existing w ∧
  ∃ q, q ∈ created ∧ (parent q = None ∨ (q ∉ durable w → (∀ r, r ∈ created → r ≠ q → parent r ≠ parent q) → q ∉ durable w')).
Proof.
  induction created as [|q created IH]; intros w w' e Hnd H; simpl in H; [done |]. apply NoDup_cons in Hnd as [Hq Hnd].
  destruct (parent q) as [up|] eqn:Hp; [|injection H as <- <-; split; [done |]; exists q; split; [left | by left]].
  unfold mbind, m_bind, sync_directory in H. destruct (next_dir_outcome w) as [w1 o] eqn:E.
  destruct (next_dir_outcome_frame _ _ _ E) as (F1 & F2 & _).
  assert (∀ w2, existing w2 = existing w → durable w2 = durable w → w' = w2 → existing w' = existing w ∧
    ∃ q', q' ∈ q :: created ∧ (parent q' = None ∨ (q' ∉ durable w → (∀ r, r ∈ q :: created → r ≠ q' → parent r ≠ parent q') → q' ∉ durable w'))) as Hnow.
  { intros w2 Hex Hdu ->. split; [done |]. exists q. split; [left |]. right. intros Hnd' _. by rewrite Hdu. }
  destruct o as [|n]; [|injection H as <- <-; by apply (Hnow w1)]. case_bool_decide; [|injection H as <- <-; by apply (Hnow w1)].
  destruct (IH _ _ _ Hnd H) as (G1 & q' & Hq' & Hres). cbn in G1. split; [congruence |]. exists q'. split; [by right |].
  destruct Hres as [?|Hres]; [by left | right]. intros Hd Huniq. apply Hres; [|intros r Hr; apply Huniq; by right].
  cbn. rewrite F2, elem_of_union, elem_of_filter. intros [?|[Hpar _]]; [done |]. rewrite <- Hp in Hpar.
  apply (Huniq q); [left | congruence | done].
Qed.

(** The directories above a path are told apart by their depth. *)
Lemma ancestors_depth p q : q ∈ ancestors p → q = drop (length p - length q) p.
Proof.
  induction p as [|c p IH]; cbn [ancestors]; [by intros ->%list_elem_of_singleton |].
  intros [->|Hq]%elem_of_cons; [by rewrite Nat.sub_diag |]. pose proof (IH Hq) as E.
  assert (length q ≤ length p)%nat by (apply (f_equal length) in E; rewrite length_drop in E; lia).
  cbn [length]. by replace (S (length p) - length q)%nat with (S (length p - length q)) by lia.
Qed.

Lemma ancestors_parents p q r :
  q ∈ ancestors p → r ∈ ancestors p → q ≠ [] → r ≠ q → parent r ≠ parent q.
Proof.
  intros Hq Hr Hz Hne Hp. apply Hne. rewrite (ancestors_depth p q Hq), (ancestors_depth p r Hr).
  destruct q as [|c q], r as [|d r]; try done. cbn in Hp. injection Hp as ->. done.
Qed.

(** What the loop returns is new, and listed once. *)
Lemma find_missing_new p : ∀ missing w w' m,
  find_missing missing p w = (w', inr m) →
  ∃ m', m = missing ++ m' ∧ NoDup m' ∧ ∀ q, q ∈ m' → (q ∉ existing w) ∧ (length q ≤ length p)%nat.
Proof.
  induction p as [|c p IH]; intros missing w w' m H; cbn [find_missing] in H;
    apply bind_inr in H as (e & w1 & (H1 & _ & _ & ->)%ask_ok & H); case_bool_decide as Hex; try done;
    try (injection H as <- <-; exists []; rewrite app_nil_r; split_and!; [done | constructor | by intros ? ?%elem_of_nil]).
  apply IH in H as (m' & -> & Hnd & Hm'). exists ((c :: p) :: m'). rewrite <- app_assoc. split_and!; [done | |].
  - apply NoDup_cons. split; [|done]. intros [_ Hlen]%Hm'. cbn in Hlen. lia.
  - intros q [->|Hq]%elem_of_cons; [rewrite <- H1; done |]. rewrite <- H1. destruct (Hm' q Hq). split; [done | cbn; lia].
Qed.

(** Creating only some of the missing directories leaves out the path itself. *)
Lemma created_all w p n q :
  p ∉ existing w → p ∈ (existing w ∪ list_to_set (take n (missing_dirs w p))) → q ∈ ancestors p →
  q ∈ (existing w ∪ list_to_set (take n (missing_dirs w p))).
Proof.
  rewrite !elem_of_union, !elem_of_list_to_set. intros Hp [?|Hin] Hq; [done |].
  destruct (decide (q ∈ existing w)) as [|Hnew]; [by left | right].
  assert (∀ r, r ∈ missing_dirs w p ↔ r ∈ ancestors p ∧ r ∉ existing w) as Hmiss.
  { intros r. unfold missing_dirs. rewrite !list_elem_of_In, <- in_rev, filter_In, negb_true_iff, bool_decide_eq_false. done. }
  rewrite take_ge; [by apply Hmiss |]. apply Nat.nlt_ge. intros Hlt. destruct p as [|c p].
  { apply list_elem_of_singleton in Hq as ->. unfold missing_dirs in *. cbn in *.
    rewrite bool_decide_false in Hlt, Hin by done. cbn in *. destruct n; [by apply elem_of_nil in Hin | cbn in Hlt; lia]. }
  unfold missing_dirs in Hin, Hlt. cbn [ancestors List.filter] in Hin, Hlt. rewrite bool_decide_false in Hin, Hlt by done.
  cbn [negb rev] in Hin, Hlt. rewrite length_app in Hlt. cbn in Hlt. rewrite take_app_le in Hin by lia.
  apply elem_of_take in Hin as (i & Hi & _). apply list_elem_of_lookup_2, list_elem_of_In, in_rev, filter_In in Hi as [Hi _].
  apply list_elem_of_In, ancestors_depth, (f_equal length) in Hi. rewrite length_drop in Hi. cbn in Hi. lia.
Qed.

Lemma find_missing_frame p : ∀ missing w w' r,
  find_missing missing p w = (w', r) → existing w' = existing w ∧ durable w' = durable w.
Proof.
  induction p as [|c p IH]; intros missing w w' r; cbn [find_missing]; unfold try_exists, ask, mbind, m_bind;
    destruct (next_dir_outcome w) as [w1 [|]] eqn:E; destruct (next_dir_outcome_frame _ _ _ E) as (E1 & E2 & _);
    try (by intros [= <- <-]); case_bool_decide; try (by intros [= <- <-]).
  intros [-> ->]%IH. done.
Qed.

(** The state a failed attempt leaves when the path is there. *)
Lemma failed_creation p w w1 e :
  durable w ⊆ existing w → settled w → p ∉ existing w → create_dir_all p w = (w1, inl e) → p ∈ existing w1 →
  (∀ q, q ∈ ancestors p → q ∈ existing w1) ∧ ∃ q, q ∈ ancestors p ∧ q ∉ durable w1.
Proof.
  intros Hsub [_ Sp _] Hnew H Hp. unfold create_dir_all, mbind, m_bind in H.
  destruct (find_missing [] p w) as [w2 r] eqn:Em. destruct (find_missing_frame _ _ _ _ _ Em) as [E1 E2].
  destruct r as [e'|m]; [injection H as <- <-; by rewrite E1 in Hp |].
  destruct (find_missing_new _ _ _ _ _ Em) as (m' & Hm & Hnd & Hfresh). cbn in Hm. subst m'.
  destruct (find_missing_spec _ _ _ _ _ Em Sp) as (_ & _ & _ & m' & Hm & _ & Hanc). cbn in Hm. subst m'.
  unfold fs_create_dir_all in H. destruct (next_dir_outcome w2) as [w3 o] eqn:Eo.
  destruct (next_dir_outcome_frame _ _ _ Eo) as (F1 & F2 & _). rewrite E1 in F1. rewrite E2 in F2.
  destruct o as [|n].
  - apply sync_parents_fails in H as (G1 & q & Hq & Hres); [|by apply NoDup_ListNoDup, NoDup_rev, NoDup_ListNoDup].
    cbn [existing durable set_existing] in *. assert (∀ r, r ∈ rev m → r ∈ m) as Hrev by (intros r; by rewrite !list_elem_of_In, <- in_rev).
    apply Hrev in Hq. destruct (Hanc q Hq) as [Hq1 Hq2]. split.
    + intros r Hr. rewrite G1, elem_of_union, elem_of_list_to_set. by right.
    + exists q. split; [done |]. destruct Hres as [Hres|Hres]; [by destruct q |]. apply Hres.
      * rewrite F2. intros Hd%Hsub. by apply Hfresh in Hq as [? _].
      * intros r Hr. apply (ancestors_parents p); [done | by apply Hanc, Hrev | done].
  - injection H as <- <-. cbn [existing durable set_existing] in *. unfold missing_dirs in *. rewrite F1 in *. split.
    + intros r. by apply (created_all w).
    + exists p. split; [apply ancestors_self |]. rewrite F2. by intros ?%Hsub.
Qed.

(** C35: an interrupted creation is not made up for. Take any machine on which every
    directory is durable and any path that is not there. When an attempt to create it
    fails and yet leaves the path behind (the directories were created and a sync failed),
    then a later attempt, which succeeds when no call fails, makes nothing durable: after
    it some directory of the path is not on stable storage, so a crash of the machine can
    lose the log with every record it was told to sync. *)
Theorem interrupted_creation_not_durable p w w1 e os :
  settled w → durable w ⊆ existing w → p ∉ existing w → create_dir_all p w = (w1, inl e) → p ∈ existing w1 →
  let '(w2, r) := create_dir_all p (with_outcomes w1 os) in
  (os = [] → r = inr tt) ∧
  (r = inr tt → durable w2 = durable w1 ∧ p ∈ existing w2 ∧ ∃ q, q ∈ ancestors p ∧ q ∈ existing w2 ∧ q ∉ durable w2).
Proof.
  intros Hs Hsub Hnew H Hp. destruct (failed_creation p w w1 e Hsub Hs Hnew H Hp) as (Hall & q & Hq & Hd).
  destruct (create_dir_all p (with_outcomes w1 os)) as [w2 r] eqn:E.
  destruct (create_existing p (with_outcomes w1 os) _ _ Hall E) as (Hok & Hdur & Hex). cbn in Hok, Hdur, Hex.
  split; [done |]. intros Hr. rewrite (Hex Hr), Hdur. split_and!; [done | done |]. exists q. auto.
Qed.

(** The second of the two syncs fails. *)
Lemma interrupted_creation_not_durable_witness :
  let w1 := (create_dir_all demo_dir (bare [Fine; Fine; Fine; Fine; Fine; Fault 0])).1 in
  let '(w2, r) := create_dir_all demo_dir (with_outcomes w1 []) in
  r = inr tt ∧ [[Byte.x61]] ∈ durable w2 ∧ ∃ q, q ∈ ancestors demo_dir ∧ q ∈ existing w2 ∧ q ∉ durable w2.
Proof.
  intros w1. pose proof (interrupted_creation_not_durable demo_dir (bare [Fine; Fine; Fine; Fine; Fine; Fault 0]) w1 Io []
    (bare_settled _)) as H.
  assert (durable (bare [Fine; Fine; Fine; Fine; Fine; Fault 0]) ⊆ existing (bare [Fine; Fine; Fine; Fine; Fine; Fault 0])) as H1
    by (cbn; set_solver).
  assert (demo_dir ∉ existing (bare [Fine; Fine; Fine; Fine; Fine; Fault 0])) as H2 by (cbn; set_solver).
  assert (demo_dir ∈ existing w1) as H3 by (apply (bool_decide_eq_true_1 _); vm_compute; reflexivity).
  specialize (H H1 H2 eq_refl H3).
  destruct (create_dir_all demo_dir (with_outcomes w1 [])) as [w2 r] eqn:E. destruct H as [Hr Hq]. specialize (Hr eq_refl).
  destruct (Hq Hr) as (Hd & _ & Hlost). split; [exact Hr |]. split; [|exact Hlost].
  rewrite Hd. apply (bool_decide_eq_true_1 _). vm_compute. reflexivity.
Defined.

(** One log per directory: while the lock is held no other [lock] succeeds. *)
Lemma lock_exclusive dir w w' w1 w2 r :
  lock dir w = (w', inr tt) → held w' ⊆ held w1 → lock dir w1 = (w2, r) → r = inl Locked ∨ r = inl Io.
Proof.
  intros H Hsub H1. assert (dir ∈ held w') as Hin.
  { unfold lock in H. apply bind_inr in H as ([] & w3 & _ & H). unfold prim in H. case_bool_decide; [done |].
    destruct (next_dir_outcome w3) as [w4 [|]] eqn:E; [|done]. injection H as <-. simpl. set_solver. }
  unfold lock, mbind, m_bind in H1. destruct (ask _ w1) as [w3 [e|[]]] eqn:E.
  - injection H1 as _ <-. right. unfold ask in E. destruct (next_dir_outcome w1) as [w4 [|]]; [done |]. by injection E as _ <-.
  - left. apply ask_ok in E as (_ & _ & E & _). unfold prim in H1. rewrite bool_decide_eq_true_2 in H1; [by injection H1 as _ <- |].
    rewrite E. set_solver.
Qed.
