(* ===== verification/DiskStore.v ===== *)
(** * Raft state on the segment files

    RaftStore of cloud9-node/src/store.rs on top of the byte-level log of Wal.v. The
    runtime and the cluster use Store.v, where the log is a list of records and a
    flag tells whether a save succeeds. Here every save goes through [append] and
    [sync] on segment files, with system calls that fail half way and crashes that
    lose what was not synced.

    The theorem shows that the abstraction is right: after any saves, the last of
    which may have failed at any point, and any crash, reopening yields the state
    saved last or the state whose save failed, and never anything else. *)

From S2P Require Import Prelude Membership Log Core Store WalFormat Wal WalRecovery.
From Stdlib Require Import Strings.Byte.

Open Scope N_scope.

Record DiskStore := mkDiskStore { ds_world : World; ds_wal : Wal; ds_durable : Persistent }.

Section DiskStore.

Context (crc32 : bytes → N) (file_reader : bytes → Reader).
Context (encode : PersistentDelta → option bytes) (decode : bytes → option PersistentDelta).

Definition disk_save (s : DiskStore) (current : Persistent) : option (DiskStore * (StoreError + unit)) :=
  if negb (snapshot_index (p_log current) =? snapshot_index (p_log (ds_durable s)))
  then Some (s, inl SnapshotUnsupported)
  else
    let* delta := delta_of (ds_durable s) current in
    Some (match encode delta with
          | None => (s, inl SEEncode)
          | Some encoded =>
              match Wal.append crc32 RAFT_STATE_KIND encoded (ds_world s, ds_wal s) with
              | ((w, x), inl _) => (mkDiskStore w x (ds_durable s), inl SEWal)
              | (st, inr _) =>
                  match Wal.sync st with
                  | ((w, x), inl _) => (mkDiskStore w x (ds_durable s), inl SEWal)
                  | ((w, x), inr _) => (mkDiskStore w x current, inr tt)
                  end
              end
          end).

(** The loop of [recover] over the records; every record has bytes on disk, so the
    length of the log bounds the iterations. *)
Fixpoint replay (n : nat) (rc : Records) (w : World) (state : Persistent)
    : World * option (StoreError + Persistent) :=
  match n with
  | O => (w, None)
  | S n =>
      match records_next crc32 file_reader rc w with
      | (w, (None, _)) => (w, Some (inr state))
      | (w, (Some (inl _), _)) => (w, Some (inl SEWal))
      | (w, (Some (inr stored), rc)) =>
          let r := WalFormat.record stored in
          if negb (kind r =? RAFT_STATE_KIND) then (w, Some (inl (UnexpectedKind (kind r))))
          else match decode (payload r) with
               | None => (w, Some (inl SEDecode))
               | Some delta =>
                   match apply_delta state delta with
                   | inl e => (w, Some (inl e))
                   | inr state => replay n rc w state
                   end
               end
      end
  end.

(** [open] with [recover]; [None] stands for a loop that does not end. *)
Definition disk_open (w : World) (initial : Persistent) : World * option (StoreError + DiskStore) :=
  match wal_open crc32 file_reader false default_options w with
  | (w, inl _) => (w, Some (inl SEWal))
  | (w, inr x) =>
      match records (w, x) with
      | ((w, _), inl _) => (w, Some (inl SEWal))
      | ((w, x), inr rc) =>
          match replay (S (N.to_nat (total_len x))) rc w initial with
          | (w, None) => (w, None)
          | (w, Some (inl e)) => (w, Some (inl e))
          | (w, Some (inr p)) => (w, Some (inr (mkDiskStore w x p)))
          end
      end
  end.

(** Saves until one fails: the store, the states saved, the state that failed. *)
Fixpoint disk_saves (s : DiskStore) (ps : list Persistent)
    : option (DiskStore * list Persistent * option Persistent) :=
  match ps with
  | [] => Some (s, [], None)
  | p :: ps =>
      let* (s, r) := disk_save s p in
      match r with
      | inl _ => Some (s, [], Some p)
      | inr _ => let* (s, saved, failed) := disk_saves s ps in Some (s, p :: saved, failed)
      end
  end.

End DiskStore.

(** Each state can follow the one before. *)
Fixpoint chain (p : Persistent) (ps : list Persistent) : Prop :=
  match ps with [] => True | q :: ps => successor p q ∧ chain q ps end.

Lemma default_options_ok : valid_options default_options.
Proof. repeat split; vm_compute; congruence. Qed.

Lemma last_cons_same {A} (x d d' : A) l : List.last (x :: l) d = List.last (x :: l) d'.
Proof. revert x. induction l as [|y l IH]; intros x; [done |]. apply (IH y). Qed.

Section Proofs.

Context (crc32 : bytes → N) (file_reader : bytes → Reader).
Context (encode : PersistentDelta → option bytes) (decode : bytes → option PersistentDelta).
Context (Hcrc : crc_ok crc32) (Hreader : ∀ c, delivers (file_reader c) c) (Hcodec : codec encode decode).

Local Abbreviation encs := (encs crc32).
Local Abbreviation holds := (holds crc32).
Local Abbreviation open_log := (open_log crc32).

(** The records as Store.v sees them. *)
Definition pairs (rs : list Record_) : list (N * bytes) := map (fun r => (kind r, payload r)) rs.

(** An open store whose records, all synced, replay to its durable state. *)
Record disk_ok (initial : Persistent) (s : DiskStore) : Prop := {
  do_options : options (ds_wal s) = default_options;
  do_log : ∃ rs, open_log (ds_world s) (ds_wal s) rs (length rs) ∧
                 Store.recover decode initial (pairs rs) = inr (ds_durable s)
}.

(** Whatever a crash leaves, reopening finds one of the states [ok]. *)
Definition recovers_to (initial : Persistent) (w : World) (ok : Persistent → Prop) : Prop :=
  ∀ w', crash w w' → ∃ w'' s, disk_open crc32 file_reader decode w' initial = (w'', Some (inr s)) ∧
    disk_ok initial s ∧ ok (ds_durable s).

Lemma recover_prefix initial rs r :
  Store.recover decode initial (pairs (rs ++ [r])) =
  match Store.recover decode initial (pairs rs) with
  | inl e => inl e
  | inr p => Store.recover decode p [(kind r, payload r)]
  end.
Proof. unfold pairs. rewrite map_app. apply recover_snoc. Qed.

Lemma replay_reads n : ∀ rc w state l w' p,
  read_records crc32 file_reader n rc w = (w', map inr l) → (length l < n)%nat →
  Store.recover decode state (pairs (map WalFormat.record l)) = inr p →
  replay crc32 file_reader decode n rc w state = (w', Some (inr p)).
Proof.
  induction n as [|n IH]; intros rc w state l w' p Hread Hlen Hrec; [lia |]. cbn [replay read_records] in *.
  destruct (records_next _ _ rc w) as [w1 [[[e|r]|] rc1]].
  - destruct l; [done |]. cbn in Hread. by simplify_eq.
  - destruct (read_records _ _ n rc1 w1) as [w2 l2] eqn:E2. destruct l as [|r' l]; [by simplify_eq |].
    cbn in Hread. injection Hread as -> -> ->. cbn [map pairs Store.recover] in Hrec. cbn in Hrec.
    destruct (negb _); [done |]. destruct (decode _) as [delta|]; [|done].
    destruct (apply_delta state delta) as [|st]; [done |]. eapply IH; [exact E2 | cbn in Hlen; lia | exact Hrec].
  - destruct l; [|by simplify_eq]. injection Hread as ->. cbn in Hrec. by injection Hrec as ->.
Qed.

(** Reopening after a crash, from the records the files hold. *)
Lemma holds_recovers initial w rs0 rs (ok : Persistent → Prop) :
  holds (segment_size default_options) w rs (length rs0) → vlen (encs rs) ≤ max_size default_options →
  rs0 `prefix_of` rs →
  (∀ rs', rs0 `prefix_of` rs' → rs' `prefix_of` rs →
     ∃ q, Store.recover decode initial (pairs rs') = inr q ∧ ok q) →
  recovers_to initial w ok.
Proof.
  intros Hh Hsize Hp Hall w' Hcr.
  destruct (open_after_crash crc32 file_reader Hcrc Hreader default_options w w' rs (length rs0) default_options_ok Hh Hsize Hcr)
    as (w2 & x & rs' & Hopen & Ho & Hox & Hout & Hk & Hp').
  destruct (Hall rs') as (q & Hq & Hok); [|done |].
  { destruct Hp as [rest ->]. by rewrite take_app_length in Hk. }
  destruct (open_log_size _ _ _ _ _ Ho) as [Htot _]. pose proof (encs_count crc32 rs') as Hcount. rewrite Htot in Hcount.
  destruct (open_log_reads crc32 file_reader Hcrc Hreader w2 x rs' _ (S (N.to_nat (total_len x)) - length rs') Ho Hout)
    as (rc & l & Hrec & Hread & Hl & _); [lia |].
  replace (length rs' + (S (N.to_nat (total_len x)) - length rs'))%nat with (S (N.to_nat (total_len x))) in Hread by lia.
  exists w2, (mkDiskStore w2 x q). split; [|split; [|exact Hok]].
  - unfold disk_open. rewrite Hopen, Hrec.
    erewrite replay_reads; [done | exact Hread | rewrite <- Hl, length_map in Hcount; lia | by rewrite Hl].
  - split; [done |]. exists rs'. done.
Qed.

Lemma prefix_between {A} (l : list A) x l' : l `prefix_of` l' → l' `prefix_of` l ++ [x] → l' = l ∨ l' = l ++ [x].
Proof.
  intros [k ->] [k' H]. rewrite <- app_assoc in H. apply app_inv_head in H.
  destruct k as [|y k]; [left; by rewrite app_nil_r |]. right. injection H as <- H. destruct k; [done | discriminate].
Qed.

(** A save appends a record that replays to the saved state. *)
Lemma delta_record initial rs p c delta encoded :
  Store.recover decode initial (pairs rs) = inr p → successor p c → delta_of p c = Some delta →
  encode delta = Some encoded →
  Store.recover decode initial (pairs (rs ++ [mkRecord RAFT_STATE_KIND encoded])) = inr c.
Proof.
  intros Hrec Hs Hd He. rewrite recover_prefix, Hrec. cbn [Store.recover kind payload]. rewrite N.eqb_refl. cbn [negb].
  rewrite (Hcodec _ _ He). destruct (apply_delta_of _ _ Hs) as (d & Hd' & Ha). rewrite Hd in Hd'. injection Hd' as <-.
  by rewrite Ha.
Qed.

(** The files between a store's records and one record more. *)
Lemma between_recovers initial w rs0 rs p c r :
  Store.recover decode initial (pairs rs0) = inr p →
  Store.recover decode initial (pairs (rs0 ++ [r])) = inr c →
  holds (segment_size default_options) w rs (length rs0) → vlen (encs rs) ≤ max_size default_options →
  rs0 `prefix_of` rs → rs `prefix_of` rs0 ++ [r] → recovers_to initial w (fun q => q = p ∨ q = c).
Proof.
  intros Hp Hc Hh Hsize H0 H1. eapply holds_recovers; [exact Hh | exact Hsize | exact H0 |].
  intros rs' Hl Hr. destruct (prefix_between rs0 r rs' Hl) as [->| ->]; [by etrans | |]; eauto.
Qed.

Lemma disk_ok_recovers initial s : disk_ok initial s → recovers_to initial (ds_world s) (fun q => q = ds_durable s).
Proof.
  intros [Hopt (rs & Ho & Hrec)]. pose proof (open_log_holds _ _ _ _ _ Ho) as Hh.
  destruct (open_log_size _ _ _ _ _ Ho) as [_ Hsize]. rewrite Hopt in Hh, Hsize.
  eapply holds_recovers; [exact Hh | exact Hsize | done |]. intros rs' Hl Hr.
  assert (rs' = rs) as -> by (by apply (anti_symm prefix)). eauto.
Qed.

(** One save: it succeeds, or a crash finds the old or the new state. *)
Lemma disk_save_spec initial s c :
  disk_ok initial s → successor (ds_durable s) c →
  ∃ s' r, disk_save crc32 encode s c = Some (s', r) ∧
    match r with
    | inr _ => disk_ok initial s' ∧ ds_durable s' = c
    | inl _ => recovers_to initial (ds_world s') (fun q => q = ds_durable s ∨ q = c)
    end.
Proof.
  intros Hok Hs. pose proof (disk_ok_recovers _ _ Hok) as Hsame. destruct Hok as [Hopt (rs & Ho & Hrec)].
  assert (recovers_to initial (ds_world s) (fun q => q = ds_durable s ∨ q = c)) as Hsame'.
  { intros w' Hcr. destruct (Hsame w' Hcr) as (w2 & s2 & ? & ? & ?). exists w2, s2. auto. }
  unfold disk_save. rewrite (sc_snap_index _ _ Hs), N.eqb_refl. cbn [negb].
  destruct (apply_delta_of _ _ Hs) as (delta & Hd & _). rewrite Hd.
  destruct (encode delta) as [enc|] eqn:He; [|by eexists _, _].
  pose proof (delta_record _ _ _ _ _ _ Hrec Hs Hd He) as Hnew.
  destruct (append_spec crc32 _ _ _ _ RAFT_STATE_KIND enc Ho) as
    [(w1 & x1 & l & -> & Hx1 & Ho1)|(w1 & x1 & e & rs' & -> & Hh & H0 & H1 & Hsize & _)]; [done | |].
  - destruct (sync_spec crc32 _ _ _ _ Ho1) as [(w2 & -> & Ho2)|(w2 & e & -> & Hh2)].
    + eexists _, _. split; [done |]. cbn. split; [|done]. split; cbn; [congruence |]. eauto.
    + eexists _, _. split; [done |]. cbn [ds_world]. destruct (open_log_size _ _ _ _ _ Ho1) as [_ Hsize].
      rewrite Hx1, Hopt in Hh2, Hsize. eapply between_recovers; [exact Hrec | exact Hnew | exact Hh2 | exact Hsize | | done].
      by eexists.
  - eexists _, _. split; [done |]. cbn [ds_world]. rewrite Hopt in Hh, Hsize.
    by eapply (between_recovers initial w1 rs rs').
Qed.

(** C18: the Raft state survives crashes. From an open store, any sequence of saves of
    successive states, performed on the segment files until one fails (if any), runs
    without panic; after any crash reopening the store succeeds with the state saved
    last, or the state whose save failed, and the store is as good as before. *)
Theorem raft_state_survives_crash initial s ps :
  disk_ok initial s → chain (ds_durable s) ps →
  ∃ s' saved failed, disk_saves crc32 encode s ps = Some (s', saved, failed) ∧
    ∀ w', crash (ds_world s') w' →
      ∃ w'' s'', disk_open crc32 file_reader decode w' initial = (w'', Some (inr s'')) ∧ disk_ok initial s'' ∧
        (ds_durable s'' = List.last saved (ds_durable s) ∨ Some (ds_durable s'') = failed).
Proof.
  revert s. induction ps as [|p ps IH]; intros s Hok Hch; cbn [disk_saves].
  { exists s, [], None. split; [done |]. intros w' Hcr. destruct (disk_ok_recovers _ _ Hok w' Hcr) as (w2 & s2 & ? & ? & ?).
    exists w2, s2. auto. }
  destruct Hch as [Hs Hch]. destruct (disk_save_spec initial s p Hok Hs) as (s1 & [e|u] & -> & H).
  - exists s1, [], (Some p). split; [done |]. intros w' Hcr. destruct (H w' Hcr) as (w2 & s2 & ? & ? & [?|?]); exists w2, s2; auto.
    split_and!; [done | done |]. right. congruence.
  - destruct H as [Hok1 Hd1]. rewrite <- Hd1 in Hch. destruct (IH s1 Hok1 Hch) as (s2 & saved & failed & -> & Hall).
    exists s2, (p :: saved), failed. split; [done |]. intros w' Hcr.
    destruct (Hall w' Hcr) as (w3 & s3 & H1 & H2 & H3). exists w3, s3. split_and!; [done | done |].
    destruct H3 as [->|]; [left | by right]. rewrite Hd1. destruct saved as [|q saved]; [done |].
    change (List.last (q :: saved) p = List.last (q :: saved) (ds_durable s)). apply last_cons_same.
Qed.

End Proofs.

(** ** Two saves, the second of which fails in its sync *)

(** A codec for hard states with small numbers and no log. *)
Definition demo_encode_delta (d : PersistentDelta) : option bytes :=
  match d with
  | mkPersistentDelta t (Some v) (Simple [] []) 0 [] =>
      if (t <? 256) && (v <? 256) then Some [byte_of t; byte_of v] else None
  | _ => None
  end.

Definition demo_decode_delta (bs : bytes) : option PersistentDelta :=
  match bs with
  | [t; v] => Some (mkPersistentDelta (Byte.to_N t) (Some (Byte.to_N v)) (Simple [] []) 0 [])
  | _ => None
  end.

Lemma demo_delta_codec : codec demo_encode_delta demo_decode_delta.
Proof.
  intros [t [v|] [[|] [|]|] [|] [|]] bs; cbn; try done. destruct (_ && _) eqn:E; [|done].
  apply andb_true_iff in E as [Ht%N.ltb_lt Hv%N.ltb_lt]. intros [= <-]. cbn. by rewrite !to_N_byte_of.
Qed.

Definition demo_state (n : N) : Persistent := mkPersistent n (Some n) default_log default_configuration.

Lemma demo_successor p n :
  p_log p = default_log → p_term p ≤ n → successor p (demo_state n).
Proof.
  intros Hl Ht. split; rewrite ?Hl; cbn [demo_state p_log p_term]; done.
Qed.

Definition demo_disk : DiskStore :=
  match wal_open demo_crc demo_reader false default_options empty_world with
  | (w, inr x) => mkDiskStore (mkWorld (files w) (stable w) [Fine; Fine; Fine; Fault 0]) x default_persistent
  | (w, inl _) => mkDiskStore w (mkWal default_options 0 0 0 true) default_persistent
  end.

Lemma demo_disk_ok : disk_ok demo_crc demo_decode_delta default_persistent demo_disk.
Proof.
  destruct (fresh_open_log demo_crc demo_reader demo_crc_ok demo_reader_ok default_options default_options_ok)
    as (w & x & Hopen & Ho & Hox). unfold demo_disk. rewrite Hopen. split; [exact Hox |].
  exists []. split; [|reflexivity]. by apply (open_log_outcomes demo_crc w x [] 0).
Qed.

Lemma demo_disk_durable : ds_durable demo_disk = default_persistent.
Proof. unfold demo_disk. by destruct (wal_open _ _ _ _ _) as [w [e|x]]. Qed.

Lemma raft_state_survives_crash_witness :
  ∃ s', disk_saves demo_crc demo_encode_delta demo_disk [demo_state 1; demo_state 2] =
          Some (s', [demo_state 1], Some (demo_state 2)) ∧
    ∀ w', crash (ds_world s') w' →
      ∃ w'' s'', disk_open demo_crc demo_reader demo_decode_delta w' default_persistent = (w'', Some (inr s'')) ∧
        disk_ok demo_crc demo_decode_delta default_persistent s'' ∧
        (ds_durable s'' = demo_state 1 ∨ Some (ds_durable s'') = Some (demo_state 2)).
Proof.
  destruct (raft_state_survives_crash demo_crc demo_reader demo_encode_delta demo_decode_delta demo_crc_ok
    demo_reader_ok demo_delta_codec default_persistent demo_disk [demo_state 1; demo_state 2] demo_disk_ok)
    as (s' & saved & failed & Hrun & Hall).
  { rewrite demo_disk_durable. split; [by apply demo_successor |]. split; [by apply demo_successor | done]. }
  assert (option_map (fun x => (x.1.2, x.2)) (disk_saves demo_crc demo_encode_delta demo_disk [demo_state 1; demo_state 2]) =
          Some ([demo_state 1], Some (demo_state 2))) as Hev by (vm_compute; reflexivity).
  rewrite Hrun in Hev. cbn in Hev. injection Hev as -> ->. exists s'. split; [exact Hrun | exact Hall].
Defined.
