(* ===== verification/TestKit.v ===== *)
(** * Running the repository's unit tests on the model

    The unit tests of the Raft crate are programs over a mutable node or role. A test is
    a computation over that state, [None] being a panic: a failed assertion, an index out
    of range, an [unwrap] of an error, or a loop that does not end within its fuel. The
    files NodeTests.v, RoleTests.v, DataTests.v, IoTests.v and ServerTests.v translate the
    tests statement by statement and show that all of them pass. *)

From S2P Require Import Prelude BTree Membership Log Event Core Role.
From S2P Require Import Follower PreCandidate Candidate Leader Node.

Open Scope N_scope.

(** ** Tests as a state monad with failure *)

Definition Test (S A : Type) : Type := S → option (S * A).

#[export] Instance test_ret S : MRet (Test S) := fun A a s => Some (s, a).
#[export] Instance test_bind S : MBind (Test S) := fun A B k m s =>
  match m s with Some (s', a) => k a s' | None => None end.

Definition panic {S A} : Test S A := fun _ => None.

Definition look {S A} (f : S → A) : Test S A := fun s => Some (s, f s).

Definition edit {S} (f : S → S) : Test S unit := fun s => Some (f s, tt).

(** [assert!] on values, and on the state. *)
Definition assert {S} (b : bool) : Test S unit := if b then mret tt else panic.

Definition ensure {S} (f : S → bool) : Test S unit := fun s => assert (f s) s.

Definition unwrap {S E A} (r : E + A) : Test S A :=
  match r with inl _ => panic | inr a => mret a end.

Definition expect {S A} (r : option A) : Test S A :=
  match r with Some a => mret a | None => panic end.

(** [while cond { body }], ended within [fuel] rounds. *)
Fixpoint while {S A} (fuel : nat) (cond : S → bool) (body : Test S A) : Test S unit := fun s =>
  if cond s then
    match fuel with
    | O => None
    | S fuel => match body s with Some (s', _) => while fuel cond body s' | None => None end
    end
  else Some (s, tt).

Fixpoint for_each {S A} (xs : list A) (body : A → Test S unit) : Test S unit :=
  match xs with
  | [] => mret tt
  | x :: rest => _ ← body x; for_each rest body
  end.

(** A test function, from the initial value of its variable. *)
Definition run_test {S} (init : option S) (body : Test S unit) : bool :=
  match init with
  | Some s => match body s with Some _ => true | None => false end
  | None => false
  end.

(** ** Values the tests share *)

Definition vote_response granted := PVoteResponse (mkVoteResponse granted).
Definition append_request prev_index prev_term entries commit :=
  PAppendRequest (mkAppendRequest prev_index prev_term entries commit).
Definition heartbeat_payload := append_request 0 0 [] 0.
Definition append_ack success index := PAppendResponse (mkAppendResponse success index).
Definition vote_request index term := PVoteRequest (mkVoteRequest index term).

Definition cmd (b : N) : Command := mkCommand [default Byte.x00 (Byte.of_N b)].
Definition command_entry (t i b : N) : Entry := mkEntry t i (PCommand (cmd b)).

Definition payload_is_vote_request (p : Payload) : bool := match p with PVoteRequest _ => true | _ => false end.

(** [effects.messages[i]]. *)
Definition message_at {S} (e : Effects) (i : nat) : Test S Message := expect (messages e !! i).

(** [if let Payload::VoteResponse(resp) = p { assert!(f(resp)) }], and its like. *)
Definition if_vote_response {S} (p : Payload) (f : VoteResponse → bool) : Test S unit :=
  match p with PVoteResponse r => assert (f r) | _ => mret tt end.
Definition if_append_response {S} (p : Payload) (f : AppendResponse → bool) : Test S unit :=
  match p with PAppendResponse r => assert (f r) | _ => mret tt end.
Definition if_append_request {S} (p : Payload) (f : AppendRequest → bool) : Test S unit :=
  match p with PAppendRequest q => assert (f q) | _ => mret tt end.

Definition no_messages (e : Effects) : bool := match messages e with [] => true | _ => false end.
Definition no_entries (q : AppendRequest) : bool := match aq_entries q with [] => true | _ => false end.

(** [HashSet] of identifiers. *)
Definition unique (ids : list N) : BTreeSet := collect ids.

Definition set_term (c : Core) (t : Term) : Core :=
  set_persistent c (mkPersistent t (voted_for (persistent c)) (p_log (persistent c)) (bootstrap_config (persistent c))).

Definition log_append (c : Core) (e : Entry) : Core := set_log c (append (log c) e).

(** ** Operations on a core with one role *)

Local Abbreviation LeaderTest := (Test (Leader.Leader * Core)).
Local Abbreviation CandidateTest := (Test (Candidate.Candidate * Core)).
Local Abbreviation FollowerTest := (Test (Follower.Follower * Core)).

(** A constructor and a [step] of a role, on the pair of the role and the core. *)
Definition role_new {R} (r : option (R * Core * Effects)) : option (R * Core) :=
  match r with Some (r, c, _) => Some (r, c) | None => None end.

Definition on_role {R} (step : R → Core → Event → option (R * Core * StepResult)) (e : Event)
    : Test (R * Core) StepResult := fun '(r, c) =>
  match step r c e with Some (r, c, res) => Some ((r, c), res) | None => None end.

Definition l_step (e : Event) : LeaderTest StepResult := on_role Leader.step e.
Definition c_step (e : Event) : CandidateTest StepResult := on_role Candidate.step e.
Definition f_step (e : Event) : FollowerTest StepResult := on_role Follower.step e.

Definition l_propose (c : Command) : LeaderTest (LogIndex * Effects * bool) := fun '(l, core) =>
  match Leader.propose l core c with
  | Some (l, core, index, e, down) => Some ((l, core), (index, e, down))
  | None => None
  end.

Definition role_term {R} (s : R * Core) : Term := term s.2.

(** [while core.ticks + 1 < leader.heartbeat_deadline { leader.step(Tick) }]. *)
Definition tick_before_heartbeat (body : LeaderTest unit) : LeaderTest unit :=
  while 301 (fun '(l, c) => ticks c +u 1 <? heartbeat_deadline l) body.

Definition l_tick_before_heartbeat : LeaderTest unit := tick_before_heartbeat (l_step ETick ;; mret tt).

#[export] Instance transition_eq_decision : EqDecision Transition.
Proof. solve_decision. Defined.

Definition transition_is (r : StepResult) (t : Transition) : bool := bool_decide (transition r = t).

(** [if let Payload::VoteResponse(resp) = p { .. } else { panic!(..) }], and its like. *)
Definition vote_granted (p : Payload) : option bool :=
  match p with PVoteResponse r => Some (vr_granted r) | _ => None end.
Definition snapshot_answer (p : Payload) : option (bool * LogIndex) :=
  match p with PInstallSnapshotResponse r => Some (ir_success r, ir_last_included_index r) | _ => None end.

Definition first_payload {S A} (f : Payload → option A) (e : Effects) : Test S A :=
  msg ← message_at e 0; expect (f (msg_payload msg)).

(** [for i in 1..=n { core.log_mut().append(..) }] with entries of term 1. *)
Definition append_range (n : N) (c : Core) : Core :=
  fold_left (fun c i => log_append c (command_entry 1 i (i mod 256))) (range_excl 1 (n + 1)) c.

Definition on_core {R} (f : Core → Core) : Test (R * Core) unit := edit (fun '(r, c) => (r, f c)).

Definition voter_ids : list NodeId := [0; 1; 2].

(** ** Suites *)

(** A suite is evaluated as a whole. *)
Lemma suite_passes (tests : list bool) : forallb (fun t => t) tests = true → Forall (eq true) tests.
Proof. rewrite forallb_forall, List.Forall_forall. naive_solver. Qed.
