(* ===== verification/NodeTests.v ===== *)
(** * The unit tests of the Raft node

    The tests of consensus/cloud9-raft/src/raft/mod.rs, in the order of the source. Those
    over a [RaftNode] use the operations of Node.v; those "at role level" use a core with
    one role automaton. A test whose name is that of a theorem of the development has the
    suffix [_test]. *)

From S2P Require Import Prelude BTree Membership Log Event Core Role.
From S2P Require Import Follower PreCandidate Candidate Leader Node TestKit.

Open Scope N_scope.

Definition THREE_VOTERS : list NodeId := [0; 1; 2].

Definition test_config (id : NodeId) : Config :=
  with_pipelining (with_parallel_disk_write (with_prevote (config_new id) false) false) false.

Definition joint_config (id : NodeId) : Config := with_membership_mode (test_config id) JointConsensus.

Definition three_node_cluster : option RaftNode := node_new (test_config 0) THREE_VOTERS.

(** ** Operations on the node of a test *)

Local Abbreviation NodeTest := (Test RaftNode).
Local Abbreviation LeaderTest := (Test (Leader.Leader * Core)).

Definition t_step (m : Message) : NodeTest Effects := fun n => node_step n m.
Definition t_propose (c : Command) : NodeTest (ProposeError + LogIndex * Effects) := fun n => node_propose n c.
Definition t_change (ch : ConfigChange) : NodeTest (ConfigChangeError + LogIndex * Effects) := fun n =>
  node_propose_config_change n ch.
Definition t_transfer (target : NodeId) : NodeTest (TransferError + Effects) :=
  look (fun n => node_transfer_leadership n target).
Definition edit_core (f : Core → Core) : NodeTest unit := edit (fun n => mkRaftNode (f (core n)) (role n)).

Definition node_last_index (n : RaftNode) : LogIndex := last_index (log (core n)).
Definition node_config (n : RaftNode) : Configuration := effective_config (core n).

(** [while node.role.is_follower() { node.tick(); }]: the default timeouts are below 300. *)
Definition tick_while_follower : NodeTest unit := while 301 is_follower tick.
Definition tick_until_leader : NodeTest unit := while 301 (fun n => negb (is_leader n)) tick.

(** A message in the current term of the node. *)
Definition t_step_now (from to : NodeId) (p : Payload) : NodeTest Effects :=
  t ← look node_term; t_step (mkMessage from to t p).

(** The tests' way to become leader of three: time out, then the vote of node 1. *)
Definition win_election : NodeTest Effects := _ ← tick_while_follower; t_step_now 1 0 (vote_response true).

(** ** Basic state machine tests *)

Definition starts_as_follower : bool :=
  run_test three_node_cluster (
    ensure is_follower ;;
    ensure (fun n => node_term n =? 0)).

Definition election_timeout_triggers_candidacy : bool :=
  run_test three_node_cluster (
    tick_while_follower ;;
    ensure is_candidate ;;
    ensure (fun n => node_term n =? 1)).

Definition single_node_becomes_leader_immediately : bool :=
  run_test (node_new (test_config 0) [0]) (
    tick_until_leader ;;
    ensure is_leader).

Definition candidate_wins_with_majority : bool :=
  run_test three_node_cluster (
    win_election ;;
    ensure is_leader).

(** ** Dissertation safety properties *)

Definition election_safety_test : bool :=
  run_test three_node_cluster (
    win_election ;;
    ensure is_leader ;;
    t_step_now 2 0 heartbeat_payload ;;
    ensure is_leader).

(** [for id in voters { leader.match_index.insert(id, 1) }; leader.maybe_commit(core)]. *)
Definition force_match : NodeTest unit := fun n =>
  match role n with
  | RLeader l =>
      let l := set_match_index l (fold_left (fun m id => <[id := 1]> m) (voters (node_config n)) (match_index l)) in
      match maybe_commit l (core n) with
      | Some (l, c, _, _) => Some (mkRaftNode c (RLeader l), tt)
      | None => None
      end
  | _ => Some (n, tt)
  end.

Definition only_commit_current_term : bool :=
  run_test three_node_cluster (
    edit_core (fun c => set_term c 1) ;;
    win_election ;;
    ensure is_leader ;;
    ensure (fun n => node_term n =? 2) ;;
    edit_core (fun c => log_append c (command_entry 1 1 1)) ;;
    force_match ;;
    ensure (fun n => node_commit_index n =? 0)).

Definition term_monotonicity : bool :=
  run_test (option_map (fun n => (n, node_term n)) three_node_cluster) (
    for_each (seq 0 5) (fun _ '(n, last_term) =>
      match tick_while_follower n with
      | Some (n, _) =>
          if last_term <=? node_term n then
            let c := (maybe_update_term (core n) (node_term n +u 1)).2 in
            match become_follower c None with
            | Some n' => Some ((n', node_term n), tt)
            | None => None
            end
          else None
      | None => None
      end)).

Definition timeout_now : bool :=
  run_test three_node_cluster (
    initial_term ← look node_term;
    t_step (mkMessage 1 0 initial_term PTimeoutNow) ;;
    ensure is_candidate ;;
    ensure (fun n => initial_term <? node_term n)).

(** ** API tests *)

Definition propose_requires_leader : bool :=
  run_test three_node_cluster (
    r ← t_propose (cmd 1);
    assert (match r with inl (PENotLeader _) => true | _ => false end)).

Definition leader_can_propose : bool :=
  run_test (node_new (test_config 0) [0]) (
    tick_until_leader ;;
    r ← t_propose (cmd 42);
    '(index, effects) ← unwrap r;
    assert (index =? 1) ;;
    assert (persist effects)).

Definition ticks_until_deadline_prevents_spinning : bool :=
  run_test three_node_cluster (ensure (fun n => 10 <=? node_ticks_until_deadline n)).

Definition committed_entries_iteration : bool :=
  run_test (node_new (test_config 0) [0]) (
    tick_until_leader ;;
    (r ← t_propose (cmd 1); unwrap r) ;;
    (r ← t_propose (cmd 2); unwrap r) ;;
    (r ← t_propose (cmd 3); unwrap r) ;;
    es ← look committed;
    assert (length es =? 3)%nat ;;
    (e ← expect (es !! 0%nat); assert (ce_index e =? 1)) ;;
    (e ← expect (es !! 2%nat); assert (ce_index e =? 3)) ;;
    edit (fun n => advance n 2) ;;
    es ← look committed;
    assert (length es =? 1)%nat ;;
    e ← expect (es !! 0%nat); assert (ce_index e =? 3)).

(** ** Membership change tests *)

Definition single_server_add_voter : bool :=
  run_test (node_new (test_config 0) [0]) (
    tick_until_leader ;;
    r ← t_change (AddLearner 1);
    res ← unwrap r;
    t_step_now 1 0 (append_ack true res.1) ;;
    r ← t_change (AddVoter 1);
    '(index, effects) ← unwrap r;
    assert (index =? 2) ;;
    assert (persist effects) ;;
    ensure (fun n => is_voter (node_config n) 1)).

Definition single_server_remove_voter : bool :=
  run_test (node_new (test_config 0) [0; 1; 2]) (
    win_election ;;
    ensure is_leader ;;
    r ← t_change (RemoveVoter 2);
    unwrap r ;;
    ensure (fun n => negb (is_voter (node_config n) 2))).

Definition rejects_concurrent_config_changes : bool :=
  run_test (node_new (joint_config 0) [0]) (
    tick_until_leader ;;
    members ← unwrap (members_new [0; 1] []);
    r ← t_change (SetMembers members);
    unwrap r ;;
    members ← unwrap (members_new [0; 2] []);
    r ← t_change (SetMembers members);
    assert (match r with inl ChangeInProgress => true | _ => false end)).

Definition leader_steps_down_when_removed : bool :=
  run_test (node_new (test_config 0) [0; 1; 2]) (
    win_election ;;
    ensure is_leader ;;
    t_change (RemoveVoter 0) ;;
    config_index ← look node_last_index;
    t_step_now 1 0 (append_ack true config_index) ;;
    ensure is_leader ;;
    t_step_now 2 0 (append_ack true config_index) ;;
    ensure is_follower).

Definition joint_consensus_requires_both_majorities : bool :=
  run_test (node_new (joint_config 0) [0; 1; 2]) (
    win_election ;;
    ensure is_leader ;;
    members ← unwrap (members_new [0; 3; 4] []);
    r ← t_change (SetMembers members);
    unwrap r ;;
    ensure (fun n => is_joint (node_config n)) ;;
    config_index ← look node_last_index;
    ensure (fun n => node_commit_index n <? config_index) ;;
    t_step_now 1 0 (append_ack true config_index) ;;
    ensure (fun n => node_commit_index n <? config_index)).

Definition joint_consensus_auto_completes : bool :=
  run_test (node_new (joint_config 0) [0; 1; 2]) (
    win_election ;;
    ensure is_leader ;;
    members ← unwrap (members_new [0; 1] []);
    r ← t_change (SetMembers members);
    unwrap r ;;
    ensure (fun n => is_joint (node_config n)) ;;
    joint_index ← look node_last_index;
    t_step_now 1 0 (append_ack true joint_index) ;;
    ensure (fun n => node_last_index n =? 2) ;;
    final_config ← look (fun n => config_at (log (core n)) 2);
    final_config ← expect final_config;
    assert (negb (is_joint final_config))).

(** ** Efficiency tests *)

Definition no_duplicate_vote_requests : bool :=
  let core := core_new (test_config 0) [0; 1; 2; 3; 4] in
  run_test (Candidate.new core) (
    vote_requests ← look (fun '(_, _, e) =>
      List.filter (fun m => payload_is_vote_request (msg_payload m)) (messages e));
    assert (length vote_requests =? 4)%nat ;;
    let recipients := unique (map msg_to vote_requests) in
    assert (length recipients =? 4)%nat ;;
    assert (negb (contains recipients 0))).

Definition candidate_votes (s : Candidate.Candidate * Core) : nat := length (Candidate.votes s.1).

Definition duplicate_votes_are_idempotent : bool :=
  run_test (Candidate.new (core_new (test_config 0) [0; 1; 2])) (ensure (fun '(_, _, e) => persist e)) &&
  run_test (role_new (Candidate.new (core_new (test_config 0) [0; 1; 2]))) (
    ensure (fun s => candidate_votes s =? 1)%nat ;;
    t ← look role_term;
    result ← c_step (EMessage (mkMessage 1 0 t (vote_response true)));
    assert (match transition result with ToLeader => true | _ => false end) ;;
    ensure (fun s => candidate_votes s =? 2)%nat) &&
  run_test (role_new (Candidate.new (core_new (with_election_timeout (test_config 0) 10 20) [0; 1; 2; 3; 4]))) (
    t ← look role_term;
    c_step (EMessage (mkMessage 1 0 t (vote_response true))) ;;
    ensure (fun s => candidate_votes s =? 2)%nat ;;
    t ← look role_term;
    result ← c_step (EMessage (mkMessage 1 0 t (vote_response true)));
    assert (match transition result with Stay => true | _ => false end) ;;
    ensure (fun s => candidate_votes s =? 2)%nat ;;
    assert (no_messages (effects result)) ;;
    assert (negb (persist (effects result)))).

Definition leader_of (config : Config) (voters : list NodeId) : option (Leader.Leader * Core) :=
  role_new (Leader.new (core_new config voters)).

Definition heartbeats_only_at_deadline : bool :=
  run_test (leader_of (with_heartbeat_interval (test_config 0) 5) [0; 1; 2]) (
    deadline ← look (fun s => heartbeat_deadline s.1);
    while 301 (fun s => ticks s.2 +u 1 <? deadline)
      (result ← l_step ETick; assert (no_messages (effects result))) ;;
    result ← l_step ETick;
    assert (negb (no_messages (effects result)))).

Definition up_to_date_followers_get_empty_heartbeats : bool :=
  run_test (leader_of (with_heartbeat_interval (test_config 0) 5) [0; 1]) (
    l_propose (cmd 1) ;;
    l_propose (cmd 2) ;;
    t ← look role_term;
    l_step (EMessage (mkMessage 1 0 t (append_ack true 2))) ;;
    l_tick_before_heartbeat ;;
    result ← l_step ETick;
    for_each (messages (effects result)) (fun msg => if_append_request (msg_payload msg) no_entries)).

Definition filled_core (config : Config) (voters : list NodeId) (n : N) : Core :=
  append_range n (set_term (core_new config voters) 1).

Definition next_for (id : NodeId) : LeaderTest LogIndex :=
  r ← look (fun s => next_index s.1 !! id); expect r.

Definition rejection_uses_hint_efficiently : bool :=
  run_test (role_new (Leader.new (filled_core (test_config 0) [0; 1] 10))) (
    next_before ← next_for 1;
    assert (next_before =? 11) ;;
    l_step (EMessage (mkMessage 1 0 1 (append_ack false 3))) ;;
    next_after ← next_for 1;
    assert (next_after =? 4)).

Definition no_redundant_persistence : bool :=
  run_test (node_new (test_config 0) [0; 1; 2]) (
    for_each (seq 0 5) (fun _ =>
      effects ← tick;
      ensure (fun n => if is_follower n then negb (persist effects) else true)) ;;
    effects ← t_step (mkMessage 1 0 0 (vote_response false));
    assert (negb (persist effects))).

Definition leader_never_sends_to_self : bool :=
  let initial := Leader.new (core_new (with_heartbeat_interval (test_config 0) 5) [0; 1; 2]) in
  run_test (role_new initial) (
    '(_, _, initial_effects) ← expect initial;
    '(_, propose_effects, _) ← l_propose (cmd 1);
    l_tick_before_heartbeat ;;
    result ← l_step ETick;
    for_each (messages initial_effects ++ messages propose_effects ++ messages (effects result))
      (fun msg => assert (negb (msg_to msg =? 0)))).

Definition stale_messages_rejected_efficiently : bool :=
  run_test (node_new (test_config 0) [0; 1; 2]) (
    edit_core (fun c => set_term c 5) ;;
    effects ← t_step (mkMessage 1 0 2 (append_request 0 0 [command_entry 2 1 1] 0));
    ensure (fun n => node_last_index n =? 0) ;;
    assert (negb (persist effects)) ;;
    assert (length (messages effects) =? 1)%nat ;;
    msg ← message_at effects 0;
    if_append_response (msg_payload msg) (fun resp => negb (ar_success resp))).

Definition idempotent_append_entries : bool :=
  run_test (node_new (test_config 0) [0; 1; 2]) (
    let entry := command_entry 1 1 42 in
    t_step (mkMessage 1 0 1 (append_request 0 0 [entry] 0)) ;;
    ensure (fun n => node_last_index n =? 1) ;;
    effects ← t_step (mkMessage 1 0 1 (append_request 0 0 [entry] 0));
    ensure (fun n => node_last_index n =? 1) ;;
    msg ← message_at effects 0;
    if_append_response (msg_payload msg) ar_success).

Definition no_disruptive_election_with_active_leader : bool :=
  run_test (node_new (test_config 0) [0; 1; 2]) (
    t_step (mkMessage 1 0 1 heartbeat_payload) ;;
    effects ← t_step (mkMessage 2 0 2 (vote_request 0 0));
    assert (length (messages effects) =? 1)%nat ;;
    msg ← message_at effects 0;
    if_vote_response (msg_payload msg) (fun resp => negb (vr_granted resp)) ;;
    ensure (fun n => node_term n =? 1)).

Definition single_node_commits_without_network : bool :=
  run_test (leader_of (test_config 0) [0]) (
    '(index, effects, _) ← l_propose (cmd 1);
    assert (no_messages effects) ;;
    ensure (fun s => commit_index s.2 =? index)).

Definition minimal_effects_on_role_transition : bool :=
  run_test (node_new (test_config 0) [0; 1; 2]) (
    tick_while_follower ;;
    effects ← t_step (mkMessage 1 0 100 heartbeat_payload);
    ensure is_follower ;;
    assert (persist effects) ;;
    assert (no_messages effects)).

(** ** Dissertation invariants *)

Definition short_timeouts : Config := with_election_timeout (test_config 0) 10 20.

Definition election_restriction_rejects_stale_candidates : bool :=
  run_test (Follower.new (core_new short_timeouts [0; 1; 2]) None) (
    edit (fun '(f, c) => (f, log_append (set_term c 5) (command_entry 5 1 1))) ;;
    result ← f_step (EMessage (mkMessage 1 0 5 (vote_request 10 3)));
    msg ← message_at (effects result) 0;
    if_vote_response (msg_payload msg) (fun resp => negb (vr_granted resp)) ;;
    result ← f_step (EMessage (mkMessage 2 0 5 (vote_request 0 5)));
    msg ← message_at (effects result) 0;
    if_vote_response (msg_payload msg) (fun resp => negb (vr_granted resp))).

Definition up_to_date_candidate_wins_vote_in_single_rpc : bool :=
  let core := log_append (set_term (core_new short_timeouts [0; 1; 2]) 1) (command_entry 1 1 1) in
  run_test (Follower.new core None) (
    result ← f_step (EMessage (mkMessage 1 0 2 (vote_request 1 1)));
    assert (length (messages (effects result)) =? 1)%nat ;;
    msg ← message_at (effects result) 0;
    if_vote_response (msg_payload msg) vr_granted).

Definition candidate_respects_active_leader : bool :=
  run_test (role_new (Candidate.new (core_new short_timeouts [0; 1; 2]))) (
    c_step (EMessage (mkMessage 1 0 1 heartbeat_payload)) ;;
    result ← c_step (EMessage (mkMessage 2 0 2 (vote_request 0 0)));
    msg ← message_at (effects result) 0;
    if_vote_response (msg_payload msg) (fun resp => negb (vr_granted resp))).

Definition randomized_timeouts_differ_across_nodes : bool :=
  let deadlines := omap (fun id =>
    match Follower.new (core_new (with_election_timeout (test_config id) 100 200) [0; 1; 2]) None with
    | Some (f, _) => Some (Follower.election_deadline f)
    | None => None
    end) (range_excl 0 10) in
  (length deadlines =? 10)%nat && (8 <=? length (unique deadlines))%nat.

Definition no_redundant_entries_after_ack : bool :=
  run_test (leader_of (with_heartbeat_interval (test_config 0) 5) [0; 1]) (
    l_propose (cmd 1) ;;
    t ← look role_term;
    l_step (EMessage (mkMessage 1 0 t (append_ack true 1))) ;;
    l_tick_before_heartbeat ;;
    result ← l_step ETick;
    for_each (messages (effects result)) (fun msg => if_append_request (msg_payload msg) no_entries)).

Definition rejection_hint_avoids_linear_backoff : bool :=
  run_test (role_new (Leader.new (filled_core (test_config 0) [0; 1] 100))) (
    l_step (EMessage (mkMessage 1 0 1 (append_ack false 10))) ;;
    next ← next_for 1;
    assert (next =? 11)).

Definition no_term_inflation_from_ignored_messages : bool :=
  run_test (node_new (test_config 0) [0; 1; 2]) (
    t_step (mkMessage 1 0 1 heartbeat_payload) ;;
    ensure (fun n => node_term n =? 1) ;;
    t_step (mkMessage 2 0 100 (vote_request 0 0)) ;;
    ensure (fun n => node_term n =? 1)).

(** [node.role = RoleState::Candidate(Candidate::new(&mut node.core).0)]. *)
Definition set_candidate : NodeTest unit := fun n =>
  match Candidate.new (core n) with
  | Some (p, c, _) => Some (mkRaftNode c (RCandidate p), tt)
  | None => None
  end.

Definition leader_is (id : NodeId) (n : RaftNode) : bool := bool_decide (node_leader n = Some id).

Definition higher_term_append_hint_does_not_activate_leader_guard : bool :=
  run_test (node_new (test_config 0) THREE_VOTERS) (
    edit_core (fun c => log_append (set_term c 1) (command_entry 1 1 1)) ;;
    set_candidate ;;
    t_step (mkMessage 1 0 3 (append_request 1 99 [] 0)) ;;
    ensure is_follower ;;
    ensure (leader_is 1) ;;
    effects ← t_step (mkMessage 2 0 4 (vote_request 1 1));
    ensure (fun n => node_term n =? 4) ;;
    ensure (fun n => bool_decide (voted_for (node_persistent n) = Some 2)) ;;
    msg ← message_at effects 0;
    assert (match msg_payload msg with PVoteResponse resp => vr_granted resp | _ => false end)).

Definition no_persist_for_readonly_operations : bool :=
  run_test (leader_of (with_heartbeat_interval (test_config 0) 5) [0; 1]) (
    result ← l_step ETick;
    assert (negb (persist (effects result))) ;;
    t ← look role_term;
    result ← l_step (EMessage (mkMessage 1 0 t (append_ack true 0)));
    assert (negb (persist (effects result)))).

Definition vote_grant_resets_timeout : bool :=
  run_test (Follower.new (core_new short_timeouts [0; 1; 2]) None) (
    for_each (seq 0 5) (fun _ => f_step ETick ;; mret tt) ;;
    deadline_before ← look (fun s => Follower.election_deadline s.1);
    f_step (EMessage (mkMessage 1 0 1 (vote_request 0 0))) ;;
    ensure (fun s => deadline_before <? Follower.election_deadline s.1)).

Definition log_entries_extended_not_conflicted : bool :=
  run_test (node_new (test_config 0) [0; 1; 2]) (
    t_step (mkMessage 1 0 1 (append_request 0 0 [command_entry 1 1 42] 1)) ;;
    ensure (fun n => node_commit_index n =? 1) ;;
    t_step (mkMessage 2 0 2 (append_request 1 1 [command_entry 2 2 99] 1)) ;;
    ensure (fun n => node_last_index n =? 2) ;;
    e ← look (fun n => get (log (core n)) 1); e ← expect e;
    assert (e_term e =? 1) ;;
    e ← look (fun n => get (log (core n)) 2); e ← expect e;
    assert (e_term e =? 2)).

Definition exactly_one_broadcast_per_heartbeat : bool :=
  let initial := Leader.new (core_new (with_heartbeat_interval (test_config 0) 10) [0; 1; 2; 3]) in
  run_test (option_map (fun s => (s, (0%nat, 0%nat))) (role_new initial)) (
    '(_, _, initial_effects) ← expect initial;
    assert (length (messages initial_effects) =? 3)%nat ;;
    for_each (seq 0 100) (fun _ '(s, (total_messages, heartbeat_count)) =>
      match l_step ETick s with
      | Some (s, result) =>
          Some (if no_messages (effects result) then (s, (total_messages, heartbeat_count))
                else (s, (total_messages + length (messages (effects result)), heartbeat_count + 1))%nat, tt)
      | None => None
      end) ;;
    '(_, (total_messages, heartbeat_count)) ← look (fun s => s);
    assert ((9 <=? heartbeat_count) && (heartbeat_count <=? 11))%nat ;;
    assert (total_messages =? heartbeat_count * 3)%nat).

Definition unknown_payloads_ignored_silently : bool :=
  run_test (Follower.new (set_term (core_new (test_config 0) [0; 1; 2]) 1) None) (
    result ← f_step (EMessage (mkMessage 1 0 1 (vote_response true)));
    assert (no_messages (effects result)) ;;
    assert (negb (persist (effects result)))).

Definition joint_consensus_requires_dual_majorities : bool :=
  run_test (node_new (joint_config 0) [0; 1; 2]) (
    win_election ;;
    ensure is_leader ;;
    members ← unwrap (members_new [0; 3; 4] []);
    r ← t_change (SetMembers members);
    unwrap r ;;
    config_index ← look node_last_index;
    t_step_now 1 0 (append_ack true config_index) ;;
    ensure (fun n => node_commit_index n <? config_index) ;;
    t_step_now 3 0 (append_ack true config_index) ;;
    ensure (fun n => config_index <=? node_commit_index n)).

(** ** Leadership transfer tests *)

Definition leadership_transfer_to_caught_up_peer : bool :=
  run_test (node_new (test_config 0) [0; 1; 2]) (
    win_election ;;
    ensure is_leader ;;
    t_step_now 1 0 (append_ack true 0) ;;
    r ← t_transfer 1;
    effects ← unwrap r;
    assert (length (messages effects) =? 1)%nat ;;
    msg ← message_at effects 0;
    assert (msg_to msg =? 1) ;;
    assert (match msg_payload msg with PTimeoutNow => true | _ => false end)).

Definition leadership_transfer_fails_if_target_lagging : bool :=
  run_test (node_new (test_config 0) [0; 1; 2]) (
    win_election ;;
    ensure is_leader ;;
    (r ← t_propose (cmd 1); unwrap r) ;;
    (r ← t_propose (cmd 2); unwrap r) ;;
    r ← t_transfer 1;
    assert (match r with inl (TargetLagging m l) => (m =? 0) && (l =? 2) | _ => false end)).

Definition leadership_transfer_fails_for_non_voter : bool :=
  run_test (node_new (test_config 0) [0; 1; 2]) (
    win_election ;;
    r ← t_transfer 99;
    assert (match r with inl TargetNotVoter => true | _ => false end)).

Definition leadership_transfer_fails_to_self : bool :=
  run_test (node_new (test_config 0) [0; 1; 2]) (
    win_election ;;
    r ← t_transfer 0;
    assert (match r with inl TargetIsSelf => true | _ => false end)).

Definition leadership_transfer_fails_if_not_leader : bool :=
  run_test (node_new (test_config 0) [0; 1; 2]) (
    ensure is_follower ;;
    r ← t_transfer 1;
    assert (match r with inl TENotLeader => true | _ => false end)).

(** A statement on one of two nodes. *)
Definition on_0 {A} (t : NodeTest A) : Test (RaftNode * RaftNode) A := fun '(n0, n1) =>
  match t n0 with Some (n0, a) => Some ((n0, n1), a) | None => None end.
Definition on_1 {A} (t : NodeTest A) : Test (RaftNode * RaftNode) A := fun '(n0, n1) =>
  match t n1 with Some (n1, a) => Some ((n0, n1), a) | None => None end.

Definition leadership_transfer_full_flow : bool :=
  let voters := [0; 1; 2] in
  run_test (let* n0 := node_new (test_config 0) voters in
            let* n1 := node_new (test_config 1) voters in Some (n0, n1)) (
    on_0 win_election ;;
    on_0 (ensure is_leader) ;;
    leader_term ← on_0 (look node_term);
    on_0 (t_step (mkMessage 1 0 leader_term (append_ack true 0))) ;;
    r ← on_0 (t_transfer 1);
    effects ← unwrap r;
    assert (length (messages effects) =? 1)%nat ;;
    msg ← message_at effects 0;
    on_1 (t_step msg) ;;
    on_1 (ensure is_candidate) ;;
    on_1 (ensure (fun n => leader_term <? node_term n)) ;;
    on_1 (t_step_now 0 1 (vote_response true)) ;;
    on_1 (ensure is_leader) ;;
    new_term ← on_1 (look node_term);
    on_0 (t_step (mkMessage 1 0 new_term heartbeat_payload)) ;;
    on_0 (ensure is_follower) ;;
    on_0 (ensure (leader_is 1))).

(** ** PreVote tests *)

Definition prevote_node : option RaftNode := node_new (config_new 0) THREE_VOTERS.

Definition prevote_ack : Message := mkMessage 1 0 0 (PPreVoteResponse (mkPreVoteResponse 0 true)).

Definition prevote_follower_becomes_precandidate : bool :=
  run_test prevote_node (
    tick_while_follower ;;
    ensure is_precandidate ;;
    ensure (fun n => node_term n =? 0)).

Definition prevote_sends_prevote_requests : bool :=
  run_test (option_map (fun n => (n, none)) prevote_node) (
    while 301 (fun '(n, _) => is_follower n) (fun '(n, _) => option_map (fun s => (s, tt)) (tick n)) ;;
    '(_, effects) ← look (fun s => s);
    assert (length (messages effects) =? 2)%nat ;;
    for_each (messages effects) (fun msg =>
      match msg_payload msg with
      | PPreVoteRequest req => assert (pvq_next_term req =? 1)
      | _ => panic
      end)).

Definition prevote_proceeds_to_candidate_on_majority : bool :=
  run_test prevote_node (
    tick_while_follower ;;
    ensure is_precandidate ;;
    t_step prevote_ack ;;
    ensure is_candidate ;;
    ensure (fun n => node_term n =? 1)).

Definition prevote_prevents_term_disruption : bool :=
  run_test prevote_node (
    tick_while_follower ;;
    for_each (seq 0 500) (fun _ => tick ;; ensure (fun n => node_term n =? 0)) ;;
    ensure is_precandidate ;;
    ensure (fun n => node_term n =? 0)).

Definition prevote_full_election_flow : bool :=
  run_test prevote_node (
    tick_while_follower ;;
    ensure is_precandidate ;;
    t_step prevote_ack ;;
    ensure is_candidate ;;
    ensure (fun n => node_term n =? 1) ;;
    t_step (mkMessage 1 0 1 (vote_response true)) ;;
    ensure is_leader).

Definition prevote_steps_down_on_leader_contact : bool :=
  run_test prevote_node (
    tick_while_follower ;;
    t_step (mkMessage 1 0 1 heartbeat_payload) ;;
    ensure is_follower ;;
    ensure (leader_is 1)).

(** ** Automatic leadership transfer *)

(** An acknowledgement of the whole log by [peer]. *)
Definition ack_all (peer : NodeId) : NodeTest Effects :=
  last ← look node_last_index; t_step_now peer 0 (append_ack true last).

Definition is_timeout_now (m : Message) : bool := match msg_payload m with PTimeoutNow => true | _ => false end.

(** The loop over the acknowledgements of the removal, which returns early when the
    leadership is handed over. *)
Fixpoint await_transfer (peers : list NodeId) : NodeTest unit :=
  match peers with
  | [] => ensure is_follower
  | peer :: rest =>
      eff ← ack_all peer;
      if existsb is_timeout_now (messages eff) then ensure is_follower else await_transfer rest
  end.

Definition auto_transfer_on_removal : bool :=
  run_test (node_new (test_config 0) THREE_VOTERS) (
    effects ← win_election;
    ensure is_leader ;;
    for_each (messages effects) (fun msg =>
      match msg_payload msg with
      | PAppendRequest _ => t_step_now (msg_to msg) (msg_from msg) (append_ack true 0) ;; mret tt
      | _ => mret tt
      end) ;;
    t_change (AddLearner 3) ;;
    ack_all 3 ;;
    t_change (AddVoter 3) ;;
    for_each [1; 2; 3] (fun peer => ack_all peer ;; mret tt) ;;
    r ← t_change (RemoveVoter 0);
    unwrap r ;;
    await_transfer [1; 2; 3]).

(** ** The suite *)

Definition node_tests : list bool :=
  [starts_as_follower; election_timeout_triggers_candidacy; single_node_becomes_leader_immediately;
   candidate_wins_with_majority; election_safety_test; only_commit_current_term; term_monotonicity;
   timeout_now; propose_requires_leader; leader_can_propose; ticks_until_deadline_prevents_spinning;
   committed_entries_iteration; single_server_add_voter; single_server_remove_voter;
   rejects_concurrent_config_changes; leader_steps_down_when_removed;
   joint_consensus_requires_both_majorities; joint_consensus_auto_completes;
   no_duplicate_vote_requests; duplicate_votes_are_idempotent; heartbeats_only_at_deadline;
   up_to_date_followers_get_empty_heartbeats; rejection_uses_hint_efficiently;
   no_redundant_persistence; leader_never_sends_to_self; stale_messages_rejected_efficiently;
   idempotent_append_entries; no_disruptive_election_with_active_leader;
   single_node_commits_without_network; minimal_effects_on_role_transition;
   election_restriction_rejects_stale_candidates; up_to_date_candidate_wins_vote_in_single_rpc;
   candidate_respects_active_leader; randomized_timeouts_differ_across_nodes;
   no_redundant_entries_after_ack; rejection_hint_avoids_linear_backoff;
   no_term_inflation_from_ignored_messages; higher_term_append_hint_does_not_activate_leader_guard;
   no_persist_for_readonly_operations; vote_grant_resets_timeout;
   log_entries_extended_not_conflicted; exactly_one_broadcast_per_heartbeat;
   unknown_payloads_ignored_silently; joint_consensus_requires_dual_majorities;
   leadership_transfer_to_caught_up_peer; leadership_transfer_fails_if_target_lagging;
   leadership_transfer_fails_for_non_voter; leadership_transfer_fails_to_self;
   leadership_transfer_fails_if_not_leader; leadership_transfer_full_flow;
   prevote_follower_becomes_precandidate; prevote_sends_prevote_requests;
   prevote_proceeds_to_candidate_on_majority; prevote_prevents_term_disruption;
   prevote_full_election_flow; prevote_steps_down_on_leader_contact; auto_transfer_on_removal].

(** The tests of mod.rs pass on the model: elections with and without pre-votes, commits,
    membership changes, leadership transfer and the absence of redundant work. *)
Theorem node_tests_pass : Forall (eq true) node_tests.
Proof. apply suite_passes. vm_compute. reflexivity. Qed.
