(* ===== verification/RoleTests.v ===== *)
(** * The unit tests of the roles

    The tests of follower.rs, precandidate.rs, candidate.rs and leader.rs under
    consensus/cloud9-raft/src/raft, one Module each, in the order of the source. *)

From S2P Require Import Prelude BTree Membership Log Event Core Role.
From S2P Require Import Follower PreCandidate Candidate Leader TestKit.

Open Scope N_scope.

Module FollowerTests.

Definition test_setup : option (Follower.Follower * Core) :=
  Follower.new (core_new (with_prevote (with_election_timeout (config_new 0) 10 20) false) voter_ids) None.

Definition initial_state : bool :=
  run_test test_setup (
    ensure (fun s => bool_decide (leader s.1 = None)) ;;
    ensure (fun s => 10 <=? Follower.election_deadline s.1)).

Definition election_timeout_triggers_candidacy : bool :=
  run_test test_setup (
    while 301 (fun '(f, c) => ticks c +u 1 <? Follower.election_deadline f)
      (r ← f_step ETick; assert (transition_is r Stay)) ;;
    r ← f_step ETick;
    assert (transition_is r ToCandidate)).

Definition grants_vote_to_up_to_date_candidate : bool :=
  run_test test_setup (
    on_core (fun c => set_term c 1) ;;
    r ← f_step (EMessage (mkMessage 1 0 2 (vote_request 0 0)));
    assert (transition_is r Stay) ;;
    assert (persist (effects r)) ;;
    granted ← first_payload vote_granted (effects r);
    assert granted).

Definition denies_vote_to_candidate_outside_config : bool :=
  run_test (Follower.new (set_term (core_new (with_prevote (config_new 0) false) [0; 1]) 1) None) (
    r ← f_step (EMessage (mkMessage 2 0 2 (vote_request 0 0)));
    ensure (fun s => bool_decide (voted_for (persistent s.2) ≠ Some 2)) ;;
    granted ← first_payload vote_granted (effects r);
    assert (negb granted)).

Definition follower_with_known_leader_rejects_disruptive_vote : bool :=
  run_test (let* (_, core) := test_setup in Follower.after_leader_contact (set_term core 1) (Some 1)) (
    r ← f_step (EMessage (mkMessage 2 0 2 (vote_request 0 0)));
    ensure (fun s => role_term s =? 1) ;;
    granted ← first_payload vote_granted (effects r);
    assert (negb granted)).

Definition denies_vote_to_stale_candidate : bool :=
  run_test test_setup (
    on_core (fun c => log_append (set_term c 1) (mkEntry 1 1 (PCommand (mkCommand [])))) ;;
    r ← f_step (EMessage (mkMessage 1 0 1 (vote_request 0 0)));
    granted ← first_payload vote_granted (effects r);
    assert (negb granted)).

Definition votes_only_once_per_term : bool :=
  run_test test_setup (
    on_core (fun c => set_term c 1) ;;
    f_step (EMessage (mkMessage 1 0 2 (vote_request 0 0))) ;;
    r ← f_step (EMessage (mkMessage 2 0 2 (vote_request 0 0)));
    msg ← message_at (effects r) 0;
    if_vote_response (msg_payload msg) (fun resp => negb (vr_granted resp))).

Definition accepts_append_entries : bool :=
  run_test test_setup (
    on_core (fun c => set_term c 1) ;;
    r ← f_step (EMessage (mkMessage 1 0 1 (append_request 0 0 [command_entry 1 1 42] 0)));
    assert (transition_is r Stay) ;;
    assert (persist (effects r)) ;;
    ensure (fun s => last_index (log s.2) =? 1) ;;
    ensure (fun s => bool_decide (leader s.1 = Some 1))).

Definition rejects_append_with_wrong_prev : bool :=
  run_test test_setup (
    on_core (fun c => set_term c 1) ;;
    r ← f_step (EMessage (mkMessage 1 0 1 (append_request 1 1 [] 0)));
    msg ← message_at (effects r) 0;
    if_append_response (msg_payload msg) (fun resp => negb (ar_success resp))).

Definition timeout_now_triggers_election : bool :=
  run_test test_setup (
    on_core (fun c => set_term c 1) ;;
    r ← f_step (EMessage (mkMessage 1 0 1 PTimeoutNow));
    assert (transition_is r ToCandidate)).

Definition heartbeat_resets_deadline : bool :=
  run_test test_setup (
    on_core (fun c => set_term c 1) ;;
    for_each (seq 0 5) (fun _ => f_step ETick ;; mret tt) ;;
    deadline_before ← look (fun s => Follower.election_deadline s.1);
    f_step (EMessage (mkMessage 1 0 1 heartbeat_payload)) ;;
    ensure (fun s => deadline_before <? Follower.election_deadline s.1)).

Definition install_request (index term : N) : Payload :=
  PInstallSnapshotRequest (mkInstallSnapshotRequest index term (simple voter_ids)).

Definition accepts_install_snapshot : bool :=
  run_test test_setup (
    on_core (fun c => append_range 3 (set_term c 1)) ;;
    r ← f_step (EMessage (mkMessage 1 0 1 (install_request 5 1)));
    assert (transition_is r Stay) ;;
    assert (persist (effects r)) ;;
    ensure (fun s => snapshot_index (log s.2) =? 5) ;;
    ensure (fun s => snapshot_term (log s.2) =? 1) ;;
    ensure (fun s => is_empty (log s.2)) ;;
    ensure (fun s => bool_decide (leader s.1 = Some 1)) ;;
    '(success, index) ← first_payload snapshot_answer (effects r);
    assert success ;;
    assert (index =? 5)).

Definition install_snapshot_resets_deadline : bool :=
  run_test test_setup (
    on_core (fun c => set_term c 1) ;;
    for_each (seq 0 5) (fun _ => f_step ETick ;; mret tt) ;;
    deadline_before ← look (fun s => Follower.election_deadline s.1);
    f_step (EMessage (mkMessage 1 0 1 (install_request 3 1))) ;;
    ensure (fun s => deadline_before <? Follower.election_deadline s.1)).

Definition rejects_stale_snapshot : bool :=
  run_test test_setup (
    on_core (fun c => let c := set_term c 2 in set_log c (install_snapshot (log c) 5 1 (simple [0]))) ;;
    r ← f_step (EMessage (mkMessage 1 0 2 (install_request 3 1)));
    ensure (fun s => snapshot_index (log s.2) =? 5) ;;
    '(success, index) ← first_payload snapshot_answer (effects r);
    assert (negb success) ;;
    assert (index =? 3)).

Definition rejects_snapshot_that_would_discard_committed_suffix : bool :=
  run_test test_setup (
    on_core (fun c => set_commit_index (append_range 5 (set_term c 2)) 5) ;;
    r ← f_step (EMessage (mkMessage 1 0 2 (install_request 3 2)));
    ensure (fun s => last_index (log s.2) =? 5) ;;
    '(success, index) ← first_payload snapshot_answer (effects r);
    assert (negb success) ;;
    assert (index =? 3)).

End FollowerTests.

Module CandidateTests.

Definition initial : option (Candidate.Candidate * Core * Effects) :=
  Candidate.new (core_new (with_prevote (config_new 0) false) voter_ids).

Definition test_setup : option (Candidate.Candidate * Core) := role_new initial.

Definition new_candidate_increments_term : bool := run_test test_setup (ensure (fun s => role_term s =? 1)).

Definition new_candidate_votes_for_self : bool :=
  run_test test_setup (
    ensure (fun s => bool_decide (voted_for (persistent s.2) = Some 0)) ;;
    ensure (fun s => length (Candidate.votes s.1) =? 1)%nat).

Definition non_voter_candidate_does_not_vote_for_self : bool :=
  run_test (Candidate.new (core_new (config_new 0) [1; 2])) (
    '(candidate, core, effects) ← look (fun s => s);
    assert (bool_decide (voted_for (persistent core) = None)) ;;
    assert (negb (contains (Candidate.votes candidate) 0)) ;;
    assert (negb (Candidate.has_quorum candidate core)) ;;
    assert (length (messages effects) =? 2)%nat).

Definition new_candidate_sends_vote_requests : bool :=
  run_test initial (
    '(_, _, effects) ← look (fun s => s);
    assert (persist effects) ;;
    assert (length (messages effects) =? 2)%nat ;;
    for_each (messages effects) (fun msg =>
      assert (payload_is_vote_request (msg_payload msg)) ;;
      assert (msg_from msg =? 0))).

Definition single_node_wins_immediately : bool :=
  run_test (Candidate.new (core_new (config_new 0) [0])) (
    '(candidate, core, effects) ← look (fun s => s);
    assert (Candidate.has_quorum candidate core) ;;
    assert (no_messages effects)).

Definition wins_with_majority : bool :=
  run_test test_setup (
    r ← c_step (EMessage (mkMessage 1 0 1 (vote_response true)));
    assert (transition_is r ToLeader)).

(** At tick 0 the candidate counts as having heard from a leader, which defers the restart
    for the first 150 ticks: the loop ends within 450. *)
Definition election_timeout_restarts_election : bool :=
  run_test test_setup (
    while 451 (fun '(p, c) => ticks c +u 1 <? Candidate.election_deadline p)
      (r ← c_step ETick; assert (transition_is r Stay)) ;;
    r ← c_step ETick;
    assert (transition_is r ToCandidate)).

Definition steps_down_on_higher_term : bool :=
  run_test test_setup (
    r ← c_step (EMessage (mkMessage 1 0 5 (vote_response false)));
    assert (transition_is r (ToFollower None)) ;;
    assert (persist (effects r)) ;;
    ensure (fun s => role_term s =? 5)).

Definition higher_term_append_does_not_ack_without_consistency_check : bool :=
  run_test test_setup (
    on_core (fun c => log_append c (command_entry 1 1 1)) ;;
    r ← c_step (EMessage (mkMessage 1 0 2 (append_request 1 2 [] 0)));
    assert (transition_is r (ToFollower (Some 1))) ;;
    assert (persist (effects r)) ;;
    assert (no_messages (effects r))).

Definition steps_down_on_append_from_leader : bool :=
  run_test test_setup (
    r ← c_step (EMessage (mkMessage 1 0 1 heartbeat_payload));
    assert (transition_is r (ToFollowerAfterContact (Some 1)))).

Definition denies_vote_to_other_candidates : bool :=
  run_test test_setup (
    r ← c_step (EMessage (mkMessage 1 0 1 (vote_request 0 0)));
    assert (transition_is r Stay) ;;
    msg ← message_at (effects r) 0;
    if_vote_response (msg_payload msg) (fun resp => negb (vr_granted resp))).

Definition ignores_duplicate_votes : bool :=
  run_test test_setup (
    for_each (seq 0 2) (fun _ => c_step (EMessage (mkMessage 1 0 1 (vote_response true))) ;; mret tt) ;;
    ensure (fun s => length (Candidate.votes s.1) =? 2)%nat).

End CandidateTests.

Module PreCandidateTests.

Definition initial : option (PreCandidate.PreCandidate * Core * Effects) :=
  PreCandidate.new (core_new (with_election_timeout (config_new 0) 10 20) voter_ids).

Definition test_setup : option (PreCandidate.PreCandidate * Core) := role_new initial.

Definition p_step (e : Event) : Test (PreCandidate.PreCandidate * Core) StepResult := on_role PreCandidate.step e.

Definition prevote_response term granted := PPreVoteResponse (mkPreVoteResponse term granted).

Definition new_precandidate_does_not_increment_term : bool :=
  run_test test_setup (ensure (fun s => role_term s =? 0)).

Definition new_precandidate_prevotes_for_self : bool :=
  run_test test_setup (
    ensure (fun s => length (PreCandidate.pre_votes s.1) =? 1)%nat ;;
    ensure (fun s => contains (PreCandidate.pre_votes s.1) 0)).

Definition non_voter_precandidate_does_not_prevote_for_self : bool :=
  run_test (PreCandidate.new (core_new (with_election_timeout (config_new 0) 10 20) [1; 2])) (
    '(precandidate, core, effects) ← look (fun s => s);
    assert (negb (contains (PreCandidate.pre_votes precandidate) 0)) ;;
    assert (negb (PreCandidate.has_quorum precandidate core)) ;;
    assert (length (messages effects) =? 2)%nat).

Definition new_precandidate_sends_prevote_requests : bool :=
  run_test initial (
    '(_, core, effects) ← look (fun s => s);
    assert (length (messages effects) =? 2)%nat ;;
    for_each (messages effects) (fun msg =>
      assert (msg_from msg =? 0) ;;
      assert (msg_term msg =? term core) ;;
      match msg_payload msg with
      | PPreVoteRequest req => assert (pvq_next_term req =? 1)
      | _ => panic
      end)).

Definition single_node_prevote_immediate : bool :=
  run_test (PreCandidate.new (core_new (config_new 0) [0])) (
    '(precandidate, core, effects) ← look (fun s => s);
    assert (PreCandidate.has_quorum precandidate core) ;;
    assert (no_messages effects)).

Definition proceeds_to_candidate_with_majority : bool :=
  run_test test_setup (
    r ← p_step (EMessage (mkMessage 1 0 0 (prevote_response 0 true)));
    assert (transition_is r ToCandidate)).

Definition ignores_stale_prevote_response : bool :=
  run_test test_setup (
    on_core (fun c => set_term c 5) ;;
    r ← p_step (EMessage (mkMessage 1 0 4 (prevote_response 4 true)));
    assert (transition_is r Stay) ;;
    ensure (fun s => length (PreCandidate.pre_votes s.1) =? 1)%nat).

Definition prevote_timeout_restarts_prevote : bool :=
  run_test test_setup (
    while 301 (fun '(p, c) => ticks c +u 1 <? PreCandidate.election_deadline p)
      (r ← p_step ETick; assert (transition_is r Stay)) ;;
    r ← p_step ETick;
    assert (transition_is r ToPreCandidate)).

Definition steps_down_on_higher_term : bool :=
  run_test test_setup (
    r ← p_step (EMessage (mkMessage 1 0 5 (prevote_response 5 false)));
    assert (transition_is r (ToFollower None)) ;;
    assert (persist (effects r)) ;;
    ensure (fun s => role_term s =? 5)).

Definition steps_down_on_append_from_leader : bool :=
  run_test test_setup (
    r ← p_step (EMessage (mkMessage 1 0 0 heartbeat_payload));
    assert (transition_is r (ToFollowerAfterContact (Some 1)))).

Definition timeout_now_skips_to_candidate : bool :=
  run_test test_setup (
    r ← p_step (EMessage (mkMessage 1 0 0 PTimeoutNow));
    assert (transition_is r ToCandidate)).

End PreCandidateTests.

Module LeaderTests.

Local Abbreviation LeaderTest := (Test (Leader.Leader * Core)).

Definition plain (c : Config) : Config := with_pipelining (with_parallel_disk_write c false) false.

Definition initial : option (Leader.Leader * Core * Effects) :=
  Leader.new (set_term (core_new (plain (with_heartbeat_interval (config_new 0) 5)) voter_ids) 1).

Definition test_setup : option (Leader.Leader * Core) := role_new initial.

(** The single-node leader of several tests. *)
Definition single_node : option (Leader.Leader * Core) :=
  role_new (Leader.new (set_term (core_new (plain (config_new 0)) [0]) 1)).

Definition on_leader (f : Leader.Leader → Leader.Leader) : LeaderTest unit := edit (fun '(l, c) => (f l, c)).

Definition l_request_read : LeaderTest (ReadIndexError + LogIndex * Effects) := fun '(l, c) =>
  match request_read_index l c with
  | inl e => Some ((l, c), inl e)
  | inr (l, index, e) => Some ((l, c), inr (index, e))
  end.

Definition l_send_append (to : NodeId) : LeaderTest Effects := fun '(l, c) =>
  match send_append_to l c to with Some (l, e) => Some ((l, c), e) | None => None end.

Definition l_maybe_commit : LeaderTest unit := fun '(l, c) =>
  match maybe_commit l c with Some (l, c, _, _) => Some ((l, c), tt) | None => None end.

Definition set_next id i l := set_next_index l (<[id := i]> (next_index l)).
Definition set_match id i l := set_match_index l (<[id := i]> (match_index l)).

Definition commit_is (i : LogIndex) (s : Leader.Leader * Core) : bool := commit_index s.2 =? i.

Definition new_leader_sends_heartbeats : bool :=
  run_test initial (
    '(_, _, effects) ← look (fun s => s);
    assert (length (messages effects) =? 2)%nat ;;
    for_each (messages effects) (fun msg =>
      match msg_payload msg with PAppendRequest req => assert (no_entries req) | _ => panic end)).

Definition leader_initializes_indices : bool :=
  run_test test_setup (
    ids ← look (fun s => all_nodes (effective_config s.2));
    for_each ids (fun id => ensure (fun s => bool_decide (next_index s.1 !! id = Some 1)))).

Definition heartbeat_on_tick : bool :=
  run_test test_setup (
    tick_before_heartbeat (r ← l_step ETick; assert (no_messages (effects r))) ;;
    r ← l_step ETick;
    assert (transition_is r Stay) ;;
    assert (length (messages (effects r)) =? 2)%nat).

Definition propose_appends_and_replicates : bool :=
  run_test test_setup (
    '(index, effects, _) ← l_propose (cmd 42);
    assert (index =? 1) ;;
    assert (persist effects) ;;
    assert (length (messages effects) =? 2)%nat ;;
    ensure (fun s => last_index (log s.2) =? 1) ;;
    e ← look (fun s => get (log s.2) 1);
    e ← expect e;
    assert (e_term e =? 1)).

Definition single_node_commits_immediately : bool :=
  run_test single_node (
    '(index, _, _) ← l_propose (cmd 42);
    assert (index =? 1) ;;
    ensure (commit_is 1)).

Definition commits_on_majority_ack : bool :=
  run_test test_setup (
    l_propose (cmd 42) ;;
    ensure (commit_is 0) ;;
    l_step (EMessage (mkMessage 1 0 1 (append_ack true 1))) ;;
    ensure (commit_is 1)).

Definition retries_on_rejection : bool :=
  run_test test_setup (
    on_core (append_range 3) ;;
    on_leader (set_next 1 4) ;;
    r ← l_step (EMessage (mkMessage 1 0 1 (append_ack false 0)));
    next ← look (fun s => next_index s.1 !! 1);
    next ← expect next;
    assert (next <=? 1) ;;
    assert (length (messages (effects r)) =? 1)%nat).

Definition steps_down_on_higher_term : bool :=
  run_test test_setup (
    r ← l_step (EMessage (mkMessage 1 0 5 (append_ack false 0)));
    assert (transition_is r (ToFollower None)) ;;
    assert (persist (effects r)) ;;
    ensure (fun s => role_term s =? 5)).

(** [for id in all_nodes { leader.match_index.insert(id, i) }]. *)
Definition match_everywhere (i : LogIndex) : LeaderTest unit := edit (fun '(l, c) =>
  (fold_left (fun l id => set_match id i l) (all_nodes (effective_config c)) l, c)).

Definition only_commits_current_term_entries : bool :=
  run_test test_setup (
    on_core (fun c => log_append c (command_entry 0 1 1)) ;;
    match_everywhere 1 ;;
    l_maybe_commit ;;
    ensure (commit_is 0) ;;
    on_core (fun c => log_append c (command_entry 1 2 2)) ;;
    match_everywhere 2 ;;
    l_maybe_commit ;;
    ensure (commit_is 2)).

Definition denies_vote_as_leader : bool :=
  run_test test_setup (
    r ← l_step (EMessage (mkMessage 1 0 1 (vote_request 0 0)));
    assert (transition_is r Stay) ;;
    msg ← message_at (effects r) 0;
    if_vote_response (msg_payload msg) (fun resp => negb (vr_granted resp))).

Definition snapshot_taken (c : Core) : Core :=
  let c := append_range 5 c in set_log c (truncate_prefix (log c) 3 1).

Definition detects_slow_follower_needing_snapshot : bool :=
  run_test test_setup (
    on_core snapshot_taken ;;
    on_leader (set_next 1 1) ;;
    effects ← l_send_append 1;
    assert (length (send_snapshots effects) =? 1)%nat ;;
    snap ← expect (send_snapshots effects !! 0%nat);
    assert (ss_to snap =? 1) ;;
    assert (ss_last_included_index snap =? 3) ;;
    assert (ss_last_included_term snap =? 1) ;;
    assert (bool_decide (ss_configuration snap = simple voter_ids)) ;;
    assert (no_messages effects)).

Definition sends_append_when_entries_available : bool :=
  run_test test_setup (
    on_core snapshot_taken ;;
    on_leader (set_next 1 4) ;;
    effects ← l_send_append 1;
    assert (length (send_snapshots effects) =? 0)%nat ;;
    assert (length (messages effects) =? 1)%nat ;;
    msg ← message_at effects 0;
    match msg_payload msg with
    | PAppendRequest req =>
        assert (aq_prev_log_index req =? 3) ;;
        assert (aq_prev_log_term req =? 1) ;;
        assert (negb (no_entries req))
    | _ => panic
    end).

Definition progress_is (id : NodeId) (m n : LogIndex) (s : Leader.Leader * Core) : bool :=
  bool_decide (match_index s.1 !! id = Some m) && bool_decide (next_index s.1 !! id = Some n).

Definition install_response_of (i : LogIndex) : Payload :=
  PInstallSnapshotResponse (mkInstallSnapshotResponse true i).

Definition install_snapshot_response_advances_follower_progress : bool :=
  run_test test_setup (
    on_leader (fun l => set_match 1 0 (set_next 1 1 l)) ;;
    r ← l_step (EMessage (mkMessage 1 0 1 (install_response_of 3)));
    assert (transition_is r Stay) ;;
    ensure (progress_is 1 3 4)).

Definition stale_install_snapshot_response_does_not_regress_progress : bool :=
  run_test test_setup (
    on_leader (fun l => set_match 1 10 (set_next 1 11 l)) ;;
    l_step (EMessage (mkMessage 1 0 1 (install_response_of 3))) ;;
    ensure (progress_is 1 10 11)).

Definition cannot_serve_reads_without_current_term_commit : bool :=
  run_test test_setup (
    ensure (fun '(l, c) => negb (can_serve_reads l c)) ;;
    on_core (fun c => set_commit_index (log_append c (mkEntry 0 1 (PCommand (mkCommand [])))) 1) ;;
    ensure (fun '(l, c) => negb (can_serve_reads l c)) ;;
    r ← l_request_read;
    assert (match r with inl CurrentTermNotCommitted => true | _ => false end)).

Definition can_serve_reads_after_current_term_commit_and_quorum : bool :=
  run_test single_node (
    ensure (fun '(l, c) => negb (can_serve_reads l c)) ;;
    l_propose (cmd 42) ;;
    on_core (fun c => set_last_applied c 1) ;;
    r ← l_request_read;
    '(index, effects) ← unwrap r;
    assert (index =? 1) ;;
    assert (no_messages effects) ;;
    ensure (fun '(l, c) => can_serve_reads l c) ;;
    ensure (fun '(l, c) => read_index l c =? 1)).

(** The committed and applied entry of the read tests. *)
Definition applied_one (c : Core) : Core :=
  set_last_applied (set_commit_index (log_append c (command_entry 1 1 1)) 1) 1.

Definition read_response (id index : N) : Event :=
  EMessage (mkMessage 1 0 1 (PReadIndexResponse (mkReadIndexResponse id index))).

Definition ready (index : LogIndex) (s : Leader.Leader * Core) : bool := read_index_ready s.1 s.2 index.

Definition read_index_waits_for_heartbeat_quorum : bool :=
  run_test test_setup (
    on_core applied_one ;;
    ensure (fun '(l, c) => negb (can_serve_reads l c)) ;;
    r ← l_request_read;
    '(index, effects) ← unwrap r;
    assert (index =? 1) ;;
    assert (length (messages effects) =? 2)%nat ;;
    msg ← message_at effects 0;
    assert (match msg_payload msg with
            | PReadIndexRequest req => (rq_id req =? 1) && (rq_read_index req =? 1)
            | _ => false
            end) ;;
    ensure (fun s => negb (ready index s)) ;;
    l_step (read_response 1 index) ;;
    ensure (ready index) ;;
    ensure (fun '(l, c) => can_serve_reads l c)).

Definition stale_read_index_response_is_ignored : bool :=
  run_test test_setup (
    on_core applied_one ;;
    r ← l_request_read;
    '(index, _) ← unwrap r;
    l_step (read_response 99 index) ;;
    ensure (fun s => negb (ready index s))).

Definition pending_read_index_retries_on_heartbeat : bool :=
  run_test test_setup (
    on_core applied_one ;;
    r ← l_request_read;
    '(index, _) ← unwrap r;
    edit (fun '(l, c) => (set_heartbeat_deadline l (ticks c), c)) ;;
    r ← l_step ETick;
    let retries := List.filter (fun msg => match msg_payload msg with PReadIndexRequest _ => true | _ => false end)
                     (messages (effects r)) in
    assert (length retries =? 2)%nat ;;
    l_step (read_response 1 index) ;;
    ensure (ready index)).

Definition read_index_uses_request_configuration_for_quorum : bool :=
  run_test test_setup (
    on_core applied_one ;;
    r ← l_request_read;
    '(index, _) ← unwrap r;
    on_core (fun c => log_append c (mkEntry 1 2 (PConfig (simple [0; 1; 2; 3])))) ;;
    ensure (fun s => is_voter (effective_config s.2) 3) ;;
    l_step (read_response 1 index) ;;
    ensure (ready index)).

Definition read_index_returns_confirmed_index : bool :=
  run_test single_node (
    l_propose (cmd 1) ;;
    l_propose (cmd 2) ;;
    l_propose (cmd 3) ;;
    on_core (fun c => set_last_applied c 3) ;;
    ensure (commit_is 3) ;;
    r ← l_request_read;
    '(index, _) ← unwrap r;
    assert (index =? 3) ;;
    ensure (fun '(l, c) => read_index l c =? 3)).

End LeaderTests.

(** ** The suites *)

Definition follower_tests : list bool :=
  [FollowerTests.initial_state; FollowerTests.election_timeout_triggers_candidacy;
   FollowerTests.grants_vote_to_up_to_date_candidate;
   FollowerTests.denies_vote_to_candidate_outside_config;
   FollowerTests.follower_with_known_leader_rejects_disruptive_vote;
   FollowerTests.denies_vote_to_stale_candidate; FollowerTests.votes_only_once_per_term;
   FollowerTests.accepts_append_entries; FollowerTests.rejects_append_with_wrong_prev;
   FollowerTests.timeout_now_triggers_election; FollowerTests.heartbeat_resets_deadline;
   FollowerTests.accepts_install_snapshot; FollowerTests.install_snapshot_resets_deadline;
   FollowerTests.rejects_stale_snapshot;
   FollowerTests.rejects_snapshot_that_would_discard_committed_suffix].

Definition candidate_tests : list bool :=
  [CandidateTests.new_candidate_increments_term; CandidateTests.new_candidate_votes_for_self;
   CandidateTests.non_voter_candidate_does_not_vote_for_self;
   CandidateTests.new_candidate_sends_vote_requests; CandidateTests.single_node_wins_immediately;
   CandidateTests.wins_with_majority; CandidateTests.election_timeout_restarts_election;
   CandidateTests.steps_down_on_higher_term;
   CandidateTests.higher_term_append_does_not_ack_without_consistency_check;
   CandidateTests.steps_down_on_append_from_leader; CandidateTests.denies_vote_to_other_candidates;
   CandidateTests.ignores_duplicate_votes].

Definition precandidate_tests : list bool :=
  [PreCandidateTests.new_precandidate_does_not_increment_term;
   PreCandidateTests.new_precandidate_prevotes_for_self;
   PreCandidateTests.non_voter_precandidate_does_not_prevote_for_self;
   PreCandidateTests.new_precandidate_sends_prevote_requests;
   PreCandidateTests.single_node_prevote_immediate;
   PreCandidateTests.proceeds_to_candidate_with_majority;
   PreCandidateTests.ignores_stale_prevote_response;
   PreCandidateTests.prevote_timeout_restarts_prevote; PreCandidateTests.steps_down_on_higher_term;
   PreCandidateTests.steps_down_on_append_from_leader;
   PreCandidateTests.timeout_now_skips_to_candidate].

Definition leader_tests : list bool :=
  [LeaderTests.new_leader_sends_heartbeats; LeaderTests.leader_initializes_indices;
   LeaderTests.heartbeat_on_tick; LeaderTests.propose_appends_and_replicates;
   LeaderTests.single_node_commits_immediately; LeaderTests.commits_on_majority_ack;
   LeaderTests.retries_on_rejection; LeaderTests.steps_down_on_higher_term;
   LeaderTests.only_commits_current_term_entries; LeaderTests.denies_vote_as_leader;
   LeaderTests.detects_slow_follower_needing_snapshot;
   LeaderTests.sends_append_when_entries_available;
   LeaderTests.install_snapshot_response_advances_follower_progress;
   LeaderTests.stale_install_snapshot_response_does_not_regress_progress;
   LeaderTests.cannot_serve_reads_without_current_term_commit;
   LeaderTests.can_serve_reads_after_current_term_commit_and_quorum;
   LeaderTests.read_index_waits_for_heartbeat_quorum;
   LeaderTests.stale_read_index_response_is_ignored;
   LeaderTests.pending_read_index_retries_on_heartbeat;
   LeaderTests.read_index_uses_request_configuration_for_quorum;
   LeaderTests.read_index_returns_confirmed_index].

(** The tests of the four roles pass on the model. *)
Theorem role_tests_pass : Forall (eq true) (follower_tests ++ candidate_tests ++ precandidate_tests ++ leader_tests).
Proof. apply suite_passes. vm_compute. reflexivity. Qed.
