(* ===== verification/DataTests.v ===== *)
(** * The unit tests of the log, the configurations, the core and the effects

    The tests of log.rs, membership.rs, core.rs and event.rs under
    consensus/cloud9-raft/src/raft, one Module each, in the order of the source. *)

From S2P Require Import Prelude BTree Membership Log Event Core TestKit.

Open Scope N_scope.

Module LogTests.

Local Abbreviation LogTest := (Test Log).

Definition entry (term : Term) (index : LogIndex) : Entry := command_entry term index (index mod 256).

Definition config_entry (term : Term) (index : LogIndex) (voters : list NodeId) : Entry :=
  mkEntry term index (PConfig (simple voters)).

Definition push (e : Entry) : LogTest unit := edit (fun l => append l e).

(** [for i in 1..=n { log.append(entry(term, i)) }]. *)
Definition push_range (term : Term) (n : N) : LogTest unit :=
  for_each (range_excl 1 (n + 1)) (fun i => push (entry term i)).

Definition slice_of (start end_ : LogIndex) : LogTest (list Entry) :=
  s ← look (fun l => slice l start end_); expect s.

Definition index_at (es : list Entry) (i : nat) : LogTest LogIndex := e ← expect (es !! i); mret (e_index e).

Definition present (i : LogIndex) (l : Log) : bool := match get l i with Some _ => true | None => false end.
Definition absent (i : LogIndex) (l : Log) : bool := negb (present i l).
Definition term_is (i : LogIndex) (t : Term) (l : Log) : bool := term_at l i =? t.
Definition last_is (i : LogIndex) (l : Log) : bool := last_index l =? i.
Definition last_term_is (t : Term) (l : Log) : bool := last_term l =? t.
Definition snapshot_is (i : LogIndex) (l : Log) : bool := snapshot_index l =? i.
Definition snapshot_term_is (t : Term) (l : Log) : bool := snapshot_term l =? t.
Definition config_is (i : LogIndex) (c : option Configuration) (l : Log) : bool := bool_decide (config_at l i = c).
Definition pending_is (c : LogIndex) (i : option LogIndex) (l : Log) : bool :=
  bool_decide (pending_config_index l c = i).

Definition log_test (body : LogTest unit) : bool := run_test (Some default_log) body.

Definition empty_log : bool :=
  log_test (
    ensure (last_is 0) ;;
    ensure (last_term_is 0) ;;
    ensure (term_is 0 0) ;;
    ensure (term_is 1 0) ;;
    ensure (absent 0) ;;
    ensure (absent 1)).

Definition append_and_access : bool :=
  log_test (
    push (entry 1 1) ;;
    push (entry 1 2) ;;
    push (entry 2 3) ;;
    ensure (last_is 3) ;;
    ensure (last_term_is 2) ;;
    ensure (term_is 1 1) ;;
    ensure (term_is 2 1) ;;
    ensure (term_is 3 2) ;;
    e ← look (fun l => get l 2);
    e ← expect e;
    assert (e_term e =? 1)).

Definition truncate : bool :=
  log_test (
    push (entry 1 1) ;;
    push (entry 1 2) ;;
    push (entry 2 3) ;;
    edit (fun l => truncate_after l 1) ;;
    ensure (last_is 1) ;;
    ensure (last_term_is 1) ;;
    edit (fun l => truncate_after l 0) ;;
    ensure is_empty).

Definition slice_entries : bool :=
  log_test (
    push_range 1 5 ;;
    s ← slice_of 2 4;
    assert (length s =? 3)%nat ;;
    i ← index_at s 0; assert (i =? 2) ;;
    i ← index_at s 2; assert (i =? 4)).

Definition log_matching_invariant : bool :=
  run_test (Some (default_log, default_log)) (
    for_each (range_excl 1 4) (fun i => edit (fun '(l1, l2) => (append l1 (entry 1 i), append l2 (entry 1 i)))) ;;
    ensure (fun '(l1, l2) => term_at l1 3 =? term_at l2 3) ;;
    for_each (range_excl 1 4) (fun i => ensure (fun '(l1, l2) => term_at l1 i =? term_at l2 i))).

Definition config_at_finds_latest : bool :=
  log_test (
    ensure (config_is 0 None) ;;
    ensure (config_is 10 None) ;;
    push (entry 1 1) ;;
    push (config_entry 1 2 [0; 1]) ;;
    push (entry 1 3) ;;
    push (config_entry 1 4 [0; 1; 2]) ;;
    push (entry 1 5) ;;
    ensure (config_is 1 None) ;;
    ensure (config_is 2 (Some (simple [0; 1]))) ;;
    ensure (config_is 3 (Some (simple [0; 1]))) ;;
    ensure (config_is 4 (Some (simple [0; 1; 2])))).

Definition pending_config_index_test : bool :=
  log_test (
    ensure (pending_is 0 None) ;;
    push (entry 1 1) ;;
    push (config_entry 1 2 [0]) ;;
    push (entry 1 3) ;;
    ensure (pending_is 0 (Some 2)) ;;
    ensure (pending_is 1 (Some 2)) ;;
    ensure (pending_is 2 None) ;;
    ensure (pending_is 3 None)).

Definition snapshot_metadata_initial : bool :=
  log_test (
    ensure (snapshot_is 0) ;;
    ensure (snapshot_term_is 0)).

Definition truncate_prefix_basic : bool :=
  log_test (
    push_range 1 5 ;;
    edit (fun l => truncate_prefix l 2 1) ;;
    ensure (snapshot_is 2) ;;
    ensure (snapshot_term_is 1) ;;
    ensure (absent 1) ;;
    ensure (absent 2) ;;
    e ← look (fun l => get l 3);
    e ← expect e;
    assert (e_index e =? 3) ;;
    ensure (present 5) ;;
    ensure (last_is 5) ;;
    ensure (last_term_is 1)).

Definition truncate_prefix_all_entries : bool :=
  log_test (
    push_range 2 3 ;;
    edit (fun l => truncate_prefix l 3 2) ;;
    ensure (snapshot_is 3) ;;
    ensure (snapshot_term_is 2) ;;
    ensure (absent 3) ;;
    ensure (last_is 3) ;;
    ensure (last_term_is 2)).

Definition term_at_with_snapshot : bool :=
  log_test (
    for_each (range_excl 1 6) (fun i => push (entry i i)) ;;
    edit (fun l => truncate_prefix l 2 2) ;;
    ensure (term_is 0 0) ;;
    ensure (term_is 1 0) ;;
    ensure (term_is 2 2) ;;
    ensure (term_is 3 3) ;;
    ensure (term_is 5 5)).

Definition slice_with_snapshot : bool :=
  log_test (
    push_range 1 5 ;;
    edit (fun l => truncate_prefix l 2 1) ;;
    s ← slice_of 1 5;
    assert (length s =? 3)%nat ;;
    i ← index_at s 0; assert (i =? 3) ;;
    s ← slice_of 3 4;
    assert (length s =? 2)%nat ;;
    i ← index_at s 0; assert (i =? 3) ;;
    i ← index_at s 1; assert (i =? 4)).

Definition append_after_snapshot : bool :=
  log_test (
    push_range 1 3 ;;
    edit (fun l => truncate_prefix l 3 1) ;;
    push (entry 2 4) ;;
    ensure (last_is 4) ;;
    ensure (last_term_is 2) ;;
    ensure (present 4)).

Definition first_index_with_snapshot : bool :=
  log_test (
    push_range 1 5 ;;
    ensure (fun l => first_index l =? 1) ;;
    edit (fun l => truncate_prefix l 3 1) ;;
    ensure (fun l => first_index l =? 4)).

Definition first_index_empty_after_snapshot : bool :=
  log_test (
    push_range 1 3 ;;
    edit (fun l => truncate_prefix l 3 1) ;;
    ensure (fun l => first_index l =? 4)).

Definition truncate_prefix_preserves_snapshot_configuration : bool :=
  let config := simple [0; 1] in
  log_test (
    push (entry 1 1) ;;
    push (mkEntry 1 2 (PConfig config)) ;;
    push (entry 1 3) ;;
    edit (fun l => truncate_prefix l 2 1) ;;
    ensure (config_is 2 (Some config)) ;;
    ensure (config_is 3 (Some config))).

Definition install_snapshot_retains_matching_suffix : bool :=
  log_test (
    push_range 1 5 ;;
    edit (fun l => install_snapshot l 3 1 (simple [0])) ;;
    ensure (snapshot_is 3) ;;
    ensure (last_is 5) ;;
    ensure (term_is 3 1) ;;
    ensure (present 4) ;;
    ensure (present 5)).

Definition install_snapshot_discards_conflicting_suffix : bool :=
  log_test (
    push_range 1 5 ;;
    edit (fun l => install_snapshot l 3 2 (simple [0])) ;;
    ensure (snapshot_is 3) ;;
    ensure (snapshot_term_is 2) ;;
    ensure (last_is 3) ;;
    ensure is_empty).

End LogTests.

Module MembershipTests.

#[local] Instance change_error_eq_decision : EqDecision ConfigChangeError.
Proof. solve_decision. Defined.

(** [change.validate(&current, mode).unwrap_err() == e], and [is_ok()]. *)
Definition rejected (ch : ConfigChange) (current : Configuration) (mode : MembershipMode) (e : ConfigChangeError) : bool :=
  bool_decide (validate ch current mode = Some e).
Definition validated (ch : ConfigChange) (current : Configuration) (mode : MembershipMode) : bool :=
  bool_decide (validate ch current mode = None).

(** [ConfigChange::SetMembers(Members::new(..).unwrap())]. *)
Definition set_members (voters learners : list NodeId) (k : ConfigChange → bool) : bool :=
  match members_new voters learners with inr m => k (SetMembers m) | inl _ => false end.

Definition is_any (ids : list NodeId) (id : NodeId) : bool := existsb (N.eqb id) ids.

Definition simple_config_quorum : bool :=
  let config := simple [0; 1; 2] in
  negb (has_quorum config (fun _ => false)) &&
  negb (has_quorum config (is_any [0])) &&
  has_quorum config (is_any [0; 1]) &&
  has_quorum config (fun _ => true).

Definition joint_config_quorum : bool :=
  let config := joint [0; 1; 2] [1; 2; 3] in
  negb (has_quorum config (is_any [1])) &&
  has_quorum config (is_any [1; 2]) &&
  negb (has_quorum config (is_any [0; 1])) &&
  negb (has_quorum config (is_any [1; 3])) &&
  has_quorum config (is_any [0; 1; 3]).

Definition single_server_add_voter : bool :=
  let current := simple_with_learners [0; 1] [2] in
  let change := AddVoter 2 in
  validated change current SingleServer &&
  bool_decide (apply_change change current SingleServer = simple [0; 1; 2]).

Definition single_server_remove_voter : bool :=
  let current := simple [0; 1; 2] in
  let change := RemoveVoter 2 in
  validated change current SingleServer &&
  bool_decide (apply_change change current SingleServer = simple [0; 1]).

Definition single_server_rejects_multiple_changes : bool :=
  set_members [2; 3] [] (fun change =>
    match validate change (simple [0; 1]) SingleServer with
    | Some (NotSingleChange _ _) => true
    | _ => false
    end).

Definition joint_consensus_creates_joint_config : bool :=
  let current := simple [0; 1] in
  set_members [2; 3] [] (fun change =>
    let new := apply_change change current JointConsensus in
    validated change current JointConsensus && is_joint new && bool_decide (new = joint [0; 1] [2; 3])).

Definition rejects_change_during_joint : bool :=
  rejected (AddVoter 3) (joint [0; 1] [1; 2]) JointConsensus ChangeInProgress.

Definition rejects_duplicate_add : bool :=
  rejected (AddVoter 1) (simple [0; 1]) SingleServer (AlreadyVoter 1).

Definition rejects_remove_nonvoter : bool :=
  rejected (RemoveVoter 2) (simple [0; 1]) SingleServer (NotVoter 2).

Definition rejects_empty_cluster : bool :=
  rejected (RemoveVoter 0) (simple [0]) SingleServer WouldBeEmpty.

Definition transition_target_test : bool :=
  bool_decide (transition_target (simple_with_learners [0] [5]) = None) &&
  bool_decide (transition_target (joint [0; 1] [1; 2]) = Some (simple_with_learners [1; 2] [])).

Definition voter_membership_test : bool :=
  let membership := voter_membership (joint [0; 1] [1; 2]) in
  bool_decide ((0, true, false) ∈ membership) &&
  bool_decide ((1, true, true) ∈ membership) &&
  bool_decide ((2, false, true) ∈ membership).

Definition learners_can_be_added_and_promoted : bool :=
  let cfg := apply_change (AddLearner 1) (simple [0]) SingleServer in
  let cfg' := apply_change (AddVoter 1) cfg SingleServer in
  is_learner cfg 1 && negb (is_voter cfg 1) && is_voter cfg' 1 && negb (is_learner cfg' 1).

Definition add_learner_rejects_duplicates : bool :=
  rejected (AddLearner 1) (simple_with_learners [0] [1]) SingleServer (AlreadyLearner 1).

Definition rejects_no_op_set_members : bool :=
  let current := simple_with_learners [0; 1] [2] in
  set_members [0; 1] [2] (fun change =>
    rejected change current SingleServer NoChange && rejected change current JointConsensus NoChange).

End MembershipTests.

Module CoreTests.

Local Abbreviation CoreTest := (Test Core).

Definition test_core : Core := core_new (config_new 0) [0; 1; 2].

Definition core_test (body : CoreTest unit) : bool := run_test (Some test_core) body.

Definition update_term (t : Term) : CoreTest bool := fun c =>
  let '(updated, c) := maybe_update_term c t in Some (c, updated).

Definition config_basics : bool :=
  let config := simple [0; 1; 2] in
  (voter_count config =? 3)%nat && ((quorum_sizes config).1 =? 2)%nat && is_voter config 1 && negb (is_member config 99).

Definition config_peers : bool := bool_decide (voter_peers (simple [0; 1; 2]) 1 = [0; 2]).

Definition term_monotonicity : bool :=
  core_test (
    ensure (fun c => term c =? 0) ;;
    b ← update_term 5; assert b ;;
    ensure (fun c => term c =? 5) ;;
    b ← update_term 3; assert (negb b) ;;
    ensure (fun c => term c =? 5) ;;
    b ← update_term 5; assert (negb b)).

Definition voting : bool :=
  core_test (
    edit (fun c => set_term c 1) ;;
    ensure (fun c => can_vote_for c 1) ;;
    edit (fun c => vote_for c 1) ;;
    ensure (fun c => negb (can_vote_for c 2)) ;;
    ensure (fun c => can_vote_for c 1)).

Definition term_update_clears_vote : bool :=
  core_test (
    edit (fun c => vote_for (set_term c 1) 1) ;;
    update_term 2 ;;
    ensure (fun c => can_vote_for c 2)).

Definition log_up_to_date : bool :=
  core_test (
    ensure (fun c => log_is_up_to_date c 0 0) ;;
    ensure (fun c => log_is_up_to_date c 1 1) ;;
    edit (fun c => log_append c (mkEntry 2 1 (PCommand (mkCommand [])))) ;;
    ensure (fun c => log_is_up_to_date c 2 1) ;;
    ensure (fun c => log_is_up_to_date c 3 0) ;;
    ensure (fun c => log_is_up_to_date c 2 5) ;;
    ensure (fun c => negb (log_is_up_to_date c 1 100))).

End CoreTests.

Module EventTests.

Definition effects_builder : bool :=
  let effects := with_message (with_persist none) (mkMessage 0 1 1 PTimeoutNow) in
  persist effects && (length (messages effects) =? 1)%nat.

Definition effects_merge : bool :=
  let merged := merge (with_persist none) (with_message none (mkMessage 0 1 1 PTimeoutNow)) in
  persist merged && (length (messages merged) =? 1)%nat.

End EventTests.

(** ** The suites *)

Definition log_tests : list bool :=
  [LogTests.empty_log; LogTests.append_and_access; LogTests.truncate; LogTests.slice_entries;
   LogTests.log_matching_invariant; LogTests.config_at_finds_latest;
   LogTests.pending_config_index_test; LogTests.snapshot_metadata_initial;
   LogTests.truncate_prefix_basic; LogTests.truncate_prefix_all_entries;
   LogTests.term_at_with_snapshot; LogTests.slice_with_snapshot; LogTests.append_after_snapshot;
   LogTests.first_index_with_snapshot; LogTests.first_index_empty_after_snapshot;
   LogTests.truncate_prefix_preserves_snapshot_configuration;
   LogTests.install_snapshot_retains_matching_suffix;
   LogTests.install_snapshot_discards_conflicting_suffix].

Definition membership_tests : list bool :=
  [MembershipTests.simple_config_quorum; MembershipTests.joint_config_quorum;
   MembershipTests.single_server_add_voter; MembershipTests.single_server_remove_voter;
   MembershipTests.single_server_rejects_multiple_changes;
   MembershipTests.joint_consensus_creates_joint_config;
   MembershipTests.rejects_change_during_joint; MembershipTests.rejects_duplicate_add;
   MembershipTests.rejects_remove_nonvoter; MembershipTests.rejects_empty_cluster;
   MembershipTests.transition_target_test; MembershipTests.voter_membership_test;
   MembershipTests.learners_can_be_added_and_promoted;
   MembershipTests.add_learner_rejects_duplicates; MembershipTests.rejects_no_op_set_members].

Definition core_tests : list bool :=
  [CoreTests.config_basics; CoreTests.config_peers; CoreTests.term_monotonicity; CoreTests.voting;
   CoreTests.term_update_clears_vote; CoreTests.log_up_to_date].

Definition event_tests : list bool :=
  [EventTests.effects_builder; EventTests.effects_merge].

(** The tests of the log, the configurations, the core and the effects pass on the model. *)
Theorem data_tests_pass : Forall (eq true) (log_tests ++ membership_tests ++ core_tests ++ event_tests).
Proof. apply suite_passes. vm_compute. reflexivity. Qed.
