(* ===== verification/IoTests.v ===== *)
(** * The unit tests of the client sessions and of the read-index coordinator

    The tests of session.rs and read_index.rs under consensus/cloud9-raft-io/src, one
    Module each, in the order of the source. [tracker_serialization] is a test of
    serde_json and is left out. *)

From S2P Require Import Prelude TestKit Session ReadIndex.

Open Scope N_scope.
Open Scope string_scope.

Module SessionTests.

Local Abbreviation Tracker := (SessionTracker (R := string)).

Definition register : Test Tracker N := fun t => Some (register_client t).
Definition complete_request (client sequence : N) (response : string) : Test Tracker unit :=
  edit (fun t => record_completion t client sequence response).
Definition expire (client : N) : Test Tracker bool := fun t => Some (expire_session t client).

Definition is_new (client sequence : N) (t : Tracker) : bool :=
  match check_duplicate t client sequence with New => true | _ => false end.
Definition is_stale (client sequence : N) (t : Tracker) : bool :=
  match check_duplicate t client sequence with Stale => true | _ => false end.
Definition is_duplicate (client sequence : N) (response : string) (t : Tracker) : bool :=
  match check_duplicate t client sequence with Duplicate r => bool_decide (r = response) | _ => false end.

Definition session_test (body : Test Tracker unit) : bool := run_test (Some tracker_new) body.

Definition register_client_returns_unique_ids : bool :=
  session_test (
    id1 ← register;
    id2 ← register;
    id3 ← register;
    assert (negb (id1 =? id2)%N) ;;
    assert (negb (id2 =? id3)%N) ;;
    assert (negb (id1 =? id3)%N)).

Definition new_request_returns_new : bool :=
  session_test (
    client ← register;
    ensure (is_new client 1)).

Definition duplicate_request_returns_cached_response : bool :=
  session_test (
    client ← register;
    complete_request client 1 "response1" ;;
    ensure (is_duplicate client 1 "response1")).

Definition stale_request_detected : bool :=
  session_test (
    client ← register;
    complete_request client 5 "response5" ;;
    ensure (is_stale client 3)).

Definition higher_sequence_is_new : bool :=
  session_test (
    client ← register;
    complete_request client 1 "response1" ;;
    ensure (is_new client 2)).

Definition expire_session_removes_client : bool :=
  session_test (
    client ← register;
    ensure (fun t => is_registered t client) ;;
    b ← expire client; assert b ;;
    ensure (fun t => negb (is_registered t client))).

Definition unknown_client_treated_as_new : bool := session_test (ensure (is_new 999 1)).

Definition session_request_creation : bool :=
  let req := session_request_new 1 42 "payload" in
  (client_id _ req =? 1)%N && (sequence _ req =? 42)%N && bool_decide (payload _ req = "payload").

Definition record_completion_ignores_lower_sequence : bool :=
  session_test (
    client ← register;
    complete_request client 5 "response5" ;;
    complete_request client 3 "response3" ;;
    ensure (fun t => bool_decide (client_last_sequence t client = Some 5)) ;;
    ensure (is_duplicate client 5 "response5")).

End SessionTests.

Module ReadIndexTests.

Local Abbreviation CoordTest := (Test ReadIndexCoordinator).

Definition request (i : N) : CoordTest N := fun c => Some (request_read c i).
Definition begin_round : CoordTest unit := edit begin_heartbeat_round.
Definition ack (from : N) : CoordTest unit := edit (fun c => record_ack c from).
Definition poll : CoordTest (list ReadIndexResult) := fun c => Some (poll_completed c).
Definition clear : CoordTest N := fun c => Some (clear_reads c).
Definition pending_is (n : N) (c : ReadIndexCoordinator) : bool := (pending_count c =? n)%N.

Definition coord_test (body : CoordTest unit) : bool := run_test (Some (coordinator_new 0 [0; 1; 2])) body.

Definition request_read_returns_unique_ids : bool :=
  coord_test (
    id1 ← request 10;
    id2 ← request 15;
    id3 ← request 20;
    assert (negb (id1 =? id2)%N) ;;
    assert (negb (id2 =? id3)%N) ;;
    assert (negb (id1 =? id3)%N)).

Definition read_completes_on_quorum : bool :=
  coord_test (
    id ← request 42;
    ensure (pending_is 1) ;;
    begin_round ;;
    ack 1 ;;
    results ← poll;
    assert (length results =? 1)%nat ;;
    r ← expect (results !! 0%nat);
    assert (ri_id r =? id)%N ;;
    assert (ri_read_index r =? 42)%N ;;
    ensure (pending_is 0)).

Definition read_does_not_complete_without_quorum : bool :=
  coord_test (
    request 42 ;;
    begin_round ;;
    results ← poll;
    assert (length results =? 0)%nat ;;
    ensure (pending_is 1)).

Definition multiple_reads_complete_together : bool :=
  coord_test (
    id1 ← request 10;
    id2 ← request 20;
    id3 ← request 30;
    begin_round ;;
    ack 1 ;;
    results ← poll;
    assert (length results =? 3)%nat ;;
    let ids := map ri_id results in
    assert (bool_decide (id1 ∈ ids)) ;;
    assert (bool_decide (id2 ∈ ids)) ;;
    assert (bool_decide (id3 ∈ ids))).

Definition single_node_cluster_completes_immediately : bool :=
  run_test (Some (coordinator_new 0 [0])) (
    id ← request 42;
    begin_round ;;
    results ← poll;
    assert (length results =? 1)%nat ;;
    r ← expect (results !! 0%nat);
    assert (ri_id r =? id)%N).

Definition duplicate_acks_ignored : bool :=
  coord_test (
    request 42 ;;
    begin_round ;;
    ack 1 ;;
    ack 1 ;;
    results ← poll;
    assert (length results =? 1)%nat).

Definition non_voter_acks_ignored : bool :=
  coord_test (
    request 42 ;;
    begin_round ;;
    ack 99 ;;
    results ← poll;
    assert (length results =? 0)%nat).

Definition clear_drops_pending_reads : bool :=
  coord_test (
    request 10 ;;
    request 20 ;;
    request 30 ;;
    ensure (pending_is 3) ;;
    dropped ← clear;
    assert (dropped =? 3)%N ;;
    ensure (pending_is 0)).

Definition new_round_associates_pending_reads : bool :=
  coord_test (
    id ← request 42;
    begin_round ;;
    none ← poll;
    assert (length none =? 0)%nat ;;
    begin_round ;;
    ack 1 ;;
    results ← poll;
    assert (length results =? 1)%nat ;;
    r ← expect (results !! 0%nat);
    assert (ri_id r =? id)%N).

Definition five_node_cluster_requires_three_acks : bool :=
  run_test (Some (coordinator_new 0 [0; 1; 2; 3; 4])) (
    request 42 ;;
    begin_round ;;
    ack 1 ;;
    results ← poll;
    assert (length results =? 0)%nat ;;
    ack 2 ;;
    results ← poll;
    assert (negb (length results =? 0)%nat)).

End ReadIndexTests.

(** ** The suites *)

Definition session_tests : list bool :=
  [SessionTests.register_client_returns_unique_ids; SessionTests.new_request_returns_new;
   SessionTests.duplicate_request_returns_cached_response; SessionTests.stale_request_detected;
   SessionTests.higher_sequence_is_new; SessionTests.expire_session_removes_client;
   SessionTests.unknown_client_treated_as_new; SessionTests.session_request_creation;
   SessionTests.record_completion_ignores_lower_sequence].

Definition read_index_tests : list bool :=
  [ReadIndexTests.request_read_returns_unique_ids; ReadIndexTests.read_completes_on_quorum;
   ReadIndexTests.read_does_not_complete_without_quorum;
   ReadIndexTests.multiple_reads_complete_together;
   ReadIndexTests.single_node_cluster_completes_immediately; ReadIndexTests.duplicate_acks_ignored;
   ReadIndexTests.non_voter_acks_ignored; ReadIndexTests.clear_drops_pending_reads;
   ReadIndexTests.new_round_associates_pending_reads;
   ReadIndexTests.five_node_cluster_requires_three_acks].

(** The tests of the sessions and of the coordinator pass on the model. *)
Theorem io_tests_pass : Forall (eq true) (session_tests ++ read_index_tests).
Proof. apply suite_passes. vm_compute. reflexivity. Qed.
