(* ===== verification/ServerTests.v ===== *)
(** * The unit tests of the runtime, the keys, the log handle and the daemon

    The tests of cloud9-node/src/runtime.rs and auth.rs, cloud9-wal/src/wal.rs and
    cloud9/src/main.rs, one Module each. The configuration texts of main.rs are given as
    the [ConfigFile] they parse to; names resolve to themselves. Left out are the tests
    of library code (the strength of HMAC, the size of JSON texts) and the one that
    cancels a task between two locks, whose subject is [apply_resumes] of Runtime.v. *)

From S2P Require Import Prelude TestKit Membership Log Core Store Runtime Auth Daemon.
From S2P Require Wal.

Open Scope N_scope.

Module RuntimeTests.

Definition bytes_of (s : string) : list Byte.byte := String.list_byte_of_string s.

Definition invariant_log_overwrite_cannot_complete_a_different_proposal : bool :=
  let pending := mkPendingProposal 1 (bytes_of "original") in
  match complete pending (mkCommand (bytes_of "replacement")) (inr tt : string + unit) with
  | (_, None) => true
  | _ => false
  end.

Definition test_config (consensus : Config) (raft_addr : N) (peers : list (NodeId * N)) : NodeConfig N :=
  mkNodeConfig 0 raft_addr peers consensus.

Definition invariant_runtime_identity_is_unambiguous : bool :=
  match validate_config (test_config (raft_config 1) 19091 [(0, 19091)]) with
  | Some (IdentityMismatch _ _) => true
  | _ => false
  end &&
  match validate_config (test_config (raft_config 0) 19092 [(0, 19091)]) with
  | Some (InvalidSelfPeer _ _) => true
  | _ => false
  end &&
  match validate_config (test_config (raft_config 0) 19091 [(0, 19091); (1, 19091)]) with
  | Some (DuplicatePeerAddress _) => true
  | _ => false
  end.

End RuntimeTests.

Module AuthTests.

Fixpoint repeat_text (s : string) (n : nat) : string :=
  match n with O => "" | S n => s +:+ repeat_text s n end.

(** With any HMAC. *)
Definition malformed_keys_and_signatures_are_rejected (hmac_sha256 : bytes → bytes → option bytes) : bool :=
  bool_decide (from_hex "short" = None) &&
  bool_decide (from_hex (repeat_text "zz" 32) = None) &&
  match from_hex (repeat_text "01" 32) with
  | Some key => negb (verify hmac_sha256 key (String.list_byte_of_string "message") "invalid")
  | None => false
  end.

End AuthTests.

Module WalTests.

(** The writer that takes one byte and then fails is an append that faults after one. *)
Definition invariant_partial_write_invalidates_handle : bool :=
  let wal := Wal.mkWal (Wal.mkWalOptions 128 1024 false) 0 0 0 false in
  match Wal.write_or_poison [Byte.x01; Byte.x02] (Wal.mkWorld ∅ ∅ [Wal.Fault 1], wal) with
  | ((_, wal), inl _) => Wal.poisoned wal
  | _ => false
  end.

End WalTests.

Module DaemonTests.

Definition example_key : string := "000102030405060708090a0b0c0d0e0f101112131415161718191a1b1c1d1e1f".

(** cloud9.example.toml, with its list of peers and its key replaced. *)
Definition example (key : string) (peers : list PeerSection) : ConfigFile :=
  mkConfigFile (mkNodeSection 0 "127.0.0.1" 19090 19091) (mkStorageSection "./cloud9-data")
    (mkClusterSection key peers).

Definition resolve (w : unit) (host : string) (port : N) : unit * option (list (string * N)) :=
  (w, Some [(host, port)]).

Definition parse (file : ConfigFile) : ConfigError + DaemonConfig (Addr := string * N) :=
  (parse_node_config resolve (fun _ => Some file) tt "").2.

Definition self : PeerSection := mkPeerSection 0 "127.0.0.1" 19091.

Definition invariant_startup_requires_a_configuration_file : bool :=
  match (load_node_config (Addr := string * N) resolve (fun _ => None) (fun _ => None) tt "missing.toml").2 with
  | inl ReadFailed => true
  | _ => false
  end.

Definition example_configuration_is_valid : bool :=
  match parse (example example_key [self]) with
  | inr config => (node_id (dc_node config) =? 0) && (length (peers (dc_node config)) =? 1)%nat
  | inl _ => false
  end.

Definition invariant_peer_ids_are_unique : bool :=
  match parse (example example_key [self; mkPeerSection 0 "127.0.0.1" 19092]) with
  | inl (DuplicateNodeId id) => id =? 0
  | _ => false
  end.

Definition invariant_peer_addresses_are_unique : bool :=
  match parse (example example_key [self; mkPeerSection 1 "127.0.0.1" 19091]) with
  | inl (DuplicateAddress addr) => bool_decide (addr = ("127.0.0.1", 19091))
  | _ => false
  end.

Definition invariant_raft_key_is_256_bits : bool :=
  match parse (example "short" [self]) with inl BadRaftKey => true | _ => false end.

End DaemonTests.

(** ** The suites *)

Definition server_tests : list bool :=
  [RuntimeTests.invariant_log_overwrite_cannot_complete_a_different_proposal;
   RuntimeTests.invariant_runtime_identity_is_unambiguous; WalTests.invariant_partial_write_invalidates_handle;
   DaemonTests.invariant_startup_requires_a_configuration_file; DaemonTests.example_configuration_is_valid;
   DaemonTests.invariant_peer_ids_are_unique; DaemonTests.invariant_peer_addresses_are_unique;
   DaemonTests.invariant_raft_key_is_256_bits].

(** The tests of the runtime, the log handle and the daemon pass on the model. *)
Theorem server_tests_pass : Forall (eq true) server_tests.
Proof. apply suite_passes. vm_compute. reflexivity. Qed.

(** The test of the keys passes with any HMAC. *)
Theorem auth_test_passes hmac_sha256 : AuthTests.malformed_keys_and_signatures_are_rejected hmac_sha256 = true.
Proof. vm_compute. reflexivity. Qed.
